(* ===== verification/_CoqProject ===== *)
-Q . S2P
Prelude.v
Str.v
Net.v
IpText.v
Text.v
Float64.v
SpecF64.v
RateLimiting.v
HealthChecking.v
LoadBalancing.v
Config.v
Routing.v
Tls.v
Causes.v
TlsPolicy.v
Http.v
Server.v
Request.v
Forward.v
Bodies.v
Dns.v
Client.v
Probes.v
MockBackend.v
Listen.v
Streams.v
Accept.v
Edge.v
Kernel.v
Watcher.v
Metrics.v
Ops.v
OpsServe.v
Logging.v
LogStart.v
Handover.v
Upgrade.v
Reload.v
Series.v
Events.v
Frontend.v
Node.v
Loadtest.v
LoadtestMain.v
Conformance.v
