(* ===== verification/Prelude.v ===== *)
(** * GFE: a verified model of a TLS-terminating reverse proxy

    GFE is a reverse proxy for HTTP: it terminates TLS, routes requests by
    host and path to pools of backends, and reloads its configuration, its
    certificates and its own binary without dropping a connection. Its
    sources are a node ([src/gfe/node]), the proxy ([src/gfe/proxy]), its
    configuration ([src/gfe/config]), the libraries they are built on
    ([src/lib]) and the tool that measures it ([src/hack/loadtest]). This
    development translates them function by function into Rocq definitions
    that can be evaluated, and proves what makes them correct.

    ** How the parts interact

    A node ([main.rs]) reads its bootstrap config, starts the front end
    ([frontend.rs]) and waits for signals. The front end builds the client
    to the backends, the edge, the listeners and the controller. The
    controller ([reload]) loads the dynamic config, checks it, and swaps
    routes, pools, certificates and sockets in; it follows the config file
    and the certificate files from then on, and keeps the health checks in
    step. The accept loops ([lib/listen]) hand each connection to the edge
    ([edge]), which terminates TLS, serves HTTP ([lib/http]) and accounts
    for the connection; each request goes through the handler ([handler]),
    which routes it, picks a backend and forwards it with the client. On an
    upgrade the listening sockets are handed to a successor.

    ** Which file models what

    Shared: [Prelude] (results, integers at their widths, times in
    nanoseconds, lists, sorting, counters by label), [Str] and [Text]
    (strings as lists of characters, with what is used of Rust's [str]),
    [Net] and [IpText] (addresses and their text), [Float64] (doubles that
    are neither negative nor infinite, with the error of their rounding),
    [SpecF64] (all doubles, as the standard library specifies IEEE 754),
    [Causes] (errors of the network and of TLS).

    - [RateLimiting] - [lib/rate-limiting]: the token bucket in its integer
      units, a bucket per key with its sweep, the concurrency limit with the
      interleavings of its atomics.
    - [HealthChecking] - [lib/health-checking]: the health map as a heap of
      shared cells, the thresholds, the probes' verdicts, the checker.
      [Probes] - [probe.rs]: what a probe sends and on which connection.
      [MockBackend] - [mock_backend.rs]: the backends its tests are run
      against, and what every probe makes of each.
    - [LoadBalancing] - [lib/load-balancing]: policies, pools, guards.
    - [Config] - [gfe/config]: both configs, durations, validation, loading.
    - [Routing] - [gfe/proxy/src/routing]: matching and the compiled table.
    - [Tls] - [lib/tls]: certificates, the store, the resolver, rotation.
      [TlsPolicy] - [connector.rs], [policy.rs], [acceptor.rs]: what is
      trusted and presented to backends, the server's policy, what a session
      settled on, over interfaces to rustls ([RustlsClient],
      [RustlsServer]) with its laws.
    - [Http] - what is used of the http crate, an interface with its laws
      ([HttpLib], [HttpLaws]) and an instance that satisfies them.
    - [Server] - [lib/http/src/server.rs], [server/activity.rs]: a served
      connection as a state machine: its watchdog, its drain, its end, and
      the writes of ended requests in whatever order they are seen.
    - [Request], [Forward] - [gfe/proxy/src/handler]: the request as it is
      sent on, the record of it, the answers, the deadlines, retries, and
      the whole handler from a request to its answer. [Bodies] - [body.rs],
      [activity.rs], [record.rs], [progress.rs]: the bodies wrapped around a
      message, frame by frame.
    - [Dns] - [lib/dns]: the cache of addresses.
    - [Client] - [lib/http/src/client]: dialling, the pooled client's
      connector, a probe's connection, why an exchange failed.
    - [Listen], [Accept] - [lib/listen]: admission, one operation on a
      counter at a time, and the set of sockets; the accept loops, the drain
      and its wake-ups.
    - [Streams] - [metered.rs], [edge/connection.rs], [client/dial.rs],
      [client/pool.rs]: the streams wrapped around a connection, as
      instances of one interface ([AsyncStream]).
    - [Edge] - [gfe/proxy/src/edge]: what a connection is held to and how it
      is accounted for.
    - [Kernel] - [lib/kernel], [gfe/proxy/src/kernel.rs]: the kernel's
      program with its C structures, and what user space reads of them.
    - [Watcher] - [reload/watcher.rs]: the debounce of file changes.
    - [Metrics], [Series] - [gfe/proxy/src/metrics], [handler/record.rs]:
      the families registered, the process's figures, the series an exchange
      counts in. [Events] - [record.rs], [conn_record.rs], [kernel.rs]: the
      fields of the lines logged of requests and connections.
    - [Ops], [OpsServe] - [gfe/node/src/ops.rs]: what the node's endpoints
      answer and the exposition ([lib/observability/src/lib.rs]); their
      connections, from the accept to the end of the drain.
    - [Logging], [LogStart] - [lib/observability/src/logging.rs]: the log
      file, and the log with its destinations, queues and threads.
    - [Handover], [Upgrade] - [lib/listen/src/handover.rs], [gfe/node]: the
      sockets' passage to a successor, and the upgrade around it.
    - [Reload] - [gfe/proxy/src/reload]: a node as one record, and every way
      its config changes, also while it starts.
    - [Frontend] - [frontend.rs], [handler/state.rs]: the parts put together.
    - [Node] - [main.rs]: checking a config, starting, taking over.
    - [Loadtest], [LoadtestMain] - [hack/loadtest]: the load client's workers
      and figures, and the comparison of two runs; the tool itself, from its
      commands to the lines it prints and its exit status.
    - [Conformance] evaluates the definitions on the inputs of the tests beside
      the sources, and compares them with what those tests expect.

    ** How code is modelled

    Pure code is a function. Fallible code returns [result] or [option], in
    the order the code checks. State is passed explicitly. Code that others
    run beside (atomics, tasks, timers, signals, the other process) is a
    function from a state and one event to the next state, or none where
    the event cannot happen; what is reachable is the closure of it, and
    its invariants are proved by rule induction. Integers are in [Z], with
    wrapping and saturation written out where the code has them. Third-party
    code is an argument: a function, or a record of what is met during a
    call (the [...Env] records), with its documented laws as hypotheses, each
    of them shown to be satisfiable by an instance.

    ** What the theorems show

    - Requests: the compiled routes answer like a search for the best match
      ([match_request_best], [matchers_exact]); over TLS a request is served
      only for the name of the connection or a host with the same certificate
      in the store in force ([coalescing_safe],
      [served_certificate_covers]); what is forwarded
      names the host that was routed, carries the proxy's own forwarding
      headers and no header of a hop ([forwarded_host_routed],
      [forwarding_headers_authentic], [hop_by_hop_never_crosses]); at most
      two attempts are made, each whole ([forward_attempts]); every exchange
      is reported once, with its places given back ([exchange_balanced],
      [answers_accounted]), and its line in the access log is true
      ([access_log_truthful]); the bodies around a message change nothing of
      it and count exactly ([bodies_transparent]).
    - Backends: selection never fails while a backend may be selected
      ([select_total]), follows the exact loads ([least_request_exact]) and
      moves few keys ([ring_hash_minimal_disruption]); a probe that does not
      fail has seen what it stands for ([probes_sound]), and makes of every
      backend what it is ([probes_meet_backends]); probes commit at
      their thresholds and run for exactly the config's checks
      ([thresholds_commit], [reconcile_spec]).
    - Limits: the token bucket, the table of buckets and the concurrency
      limit under any interleaving ([token_bucket_rate],
      [keyed_refines_never_forgets], [concurrency_limit_safe]), and with
      them the accept loops and the client ([connections_within_limits],
      [connections_capped]).
    - Configuration: what is accepted, exactly ([validate_dynamic_iff]); a
      config is applied whole or not at all ([apply_all_or_nothing],
      [reconcile_sockets]); through any reloads, rotations, probes and
      requests a node serves one valid config whole ([node_in_step]), with
      its checks in step but for a start that a reload overtakes
      ([start_overtaken]); no
      change of the file is missed ([changes_reloaded]); what is accepted
      can be served ([accepted_config_serves]), a config that passes the
      check is applied ([checked_config_applies]), and a start is all or
      nothing ([frontend_serves]), with TLS on both sides as configured
      ([tls_as_configured]).
    - Connections: the watchdog spares requests in flight, quiet connections
      end, a drain asks each to leave when it should ([timers_spare_requests],
      [quiet_connection_ends], [drain_asks_to_leave]), the wait for the last
      connection wakes ([drain_wait_wakes]), and every connection is
      accounted for once ([connections_accounted], [sni_misses_exact]); the
      streams around it change nothing and count exactly
      ([streams_transparent]).
    - Upstream: requests reach the server they are sent to and failures are
      reported for what happened ([requests_reach_their_server],
      [failure_kind_sound], [address_contract]).
    - Upgrades: the sockets reach the successor however the kernel splits
      the messages ([handover_exchange]), the successor listens on the very
      sockets it was handed, also with the cached config
      ([successor_takes_over]), and nobody is left
      unserved ([upgrade_keeps_serving]).
    - Observation: both sides of the kernel boundary agree byte for byte
      ([kernel_view_exact]), every log line is written or counted
      ([log_accounted], [log_lines_accounted]), the endpoints keep to their
      cap and answer as the node stands ([ops_endpoint_serves]), no client
      makes the number of series grow ([series_bounded]), and every family can be exposed
      ([families_well_formed]). One counter leaves out two kinds of failure
      that its description includes ([connect_errors_exact]).
    - Measuring: a run passes against a base exactly when every scenario was
      measured and none grew beyond the tolerance ([gate_exact]), from the
      runs kept in files to the tool's exit status ([loadtest_gate]); its
      workers end ([workers_end]) and its percentiles are of latencies it had
      ([percentile_taken]).

    Further theorems of each file, on the fairness and recovery of the
    limits, on durations, probes, deadlines, refusals and expositions, are
    stated where they are proved.

    ** Bounds and fuel

    [decimal] writes a number with fuel for 40 digits, more than any 128-bit
    number has. Trimming and reading a list in chunks have the length of
    their input as fuel. [forward_loop] has fuel for two attempts, and is
    proved to need no more. [overdue] goes round once per progress of the
    body. [Server.watch] runs the watchdog four times, which is proved to be
    enough for a quiet connection to end; [Accept.waiter_runs] likewise; a
    settling watcher has fuel for its queue and three steps more. A worker
    of the load client has fuel for an attempt per nanosecond of its
    scenario, which is proved to be enough when an attempt takes time.
    Printing a double has fuel for 400 digits before the point, where the
    largest has 309, and tries every place down to the 1090th after it, where
    the smallest double ends at the 1074th.

    ** What is not modelled

    HTTP and TLS on the wire (hyper, rustls), reading TOML, JSON, PEM and
    X.509, reading a command line (clap), the connection pool of hyper-util,
    the encoding of metrics, the queue and the filters of the tracing
    library, system calls and the loading of the kernel program are other
    programs' code: they are arguments, or events. What is done under a lock
    is one step of a model, and what is not is steps of its own. The prose of log lines and of debugging output is
    left out, and error messages are modelled where something depends on
    them. What remains of the sources is accessors, traits whose
    implementations are modelled ([edge/handler.rs]), re-exports, the build
    script and benches. *)

From stdpp Require Export base tactics numbers list sorting gmap strings.
From Stdlib Require Export ZArith Lia.
From Stdlib Require Import Sorting.Sorted.

(** ** Notation, scopes and automation *)

Declare Scope gfe_scope.
Delimit Scope gfe_scope with gfe.

Create HintDb gfe.

#[global] Open Scope Z_scope.
#[global] Set Default Proof Using "Type".

(** Rust's [Result<T, E>]. *)
Inductive result (T E : Type) : Type :=
| Ok (t : T)
| Err (e : E).
Arguments Ok {T E} t.
Arguments Err {T E} e.

#[global] Instance result_eq_dec {T E} `{EqDecision T} `{EqDecision E} :
  EqDecision (result T E).
Proof. solve_decision. Defined.

(** [e?]: the error of [e] is returned, its value bound. *)
Notation "'let?' x ':=' e 'in' k" :=
  (match e with Ok x => k | Err err => Err err end)
  (at level 10, x name, e at level 100, k at level 200,
   format "'[v' 'let?'  x  ':='  e  'in' '/' k ']'") : gfe_scope.
#[global] Open Scope gfe_scope.

Definition is_err {T E} (r : result T E) : bool :=
  match r with Ok _ => false | Err _ => true end.

Definition is_ok {T E} (r : result T E) : bool := negb (is_err r).

Definition map_err {T E F} (f : E -> F) (r : result T E) : result T F :=
  match r with Ok t => Ok t | Err e => Err (f e) end.

(** Turn the boolean tests of the code into arithmetic facts and case-split
    on the tests of the goal. *)
Ltac bool_facts :=
  repeat match goal with
  | H : andb _ _ = true |- _ => apply andb_prop in H; destruct H
  | H : orb _ _ = false |- _ => apply orb_false_iff in H; destruct H
  | H : negb _ = true |- _ => apply negb_true_iff in H
  | H : negb _ = false |- _ => apply negb_false_iff in H
  | H : Z.ltb _ _ = true |- _ => apply Z.ltb_lt in H
  | H : Z.ltb _ _ = false |- _ => apply Z.ltb_ge in H
  | H : Z.leb _ _ = true |- _ => apply Z.leb_le in H
  | H : Z.leb _ _ = false |- _ => apply Z.leb_gt in H
  | H : Z.eqb _ _ = true |- _ => apply Z.eqb_eq in H
  | H : Z.eqb _ _ = false |- _ => apply Z.eqb_neq in H
  | H : bool_decide _ = true |- _ => apply bool_decide_eq_true_1 in H
  | H : bool_decide _ = false |- _ => apply bool_decide_eq_false_1 in H
  end.

Ltac case_if :=
  match goal with
  | |- context [if ?b then _ else _] => destruct b eqn:?
  | H : context [if ?b then _ else _] |- _ => destruct b eqn:?
  end; bool_facts.

(** ** Machine integers

    Unsigned integers are [Z] with their range; an operation that can leave
    it is written out where it occurs ([wrap], [saturating_add]). *)

Definition u8_max : Z := 2 ^ 8 - 1.
Definition u16_max : Z := 2 ^ 16 - 1.
Definition u32_max : Z := 2 ^ 32 - 1.
Definition u64_max : Z := 2 ^ 64 - 1.
Definition u128_max : Z := 2 ^ 128 - 1.
(** The targets of the program are 64-bit. *)
Definition usize_max : Z := u64_max.
Definition i64_max : Z := 2 ^ 63 - 1.

(** [i64::try_from(n).unwrap_or(i64::MAX)], of a count. *)
Definition gauge_i64 (n : Z) : Z := if n <=? i64_max then n else i64_max.

Definition in_u8 (n : Z) : Prop := 0 <= n <= u8_max.
Definition in_u16 (n : Z) : Prop := 0 <= n <= u16_max.
Definition in_u32 (n : Z) : Prop := 0 <= n <= u32_max.
Definition in_u64 (n : Z) : Prop := 0 <= n <= u64_max.
Definition in_u128 (n : Z) : Prop := 0 <= n <= u128_max.

(** [AtomicUsize::fetch_add] and [fetch_sub] wrap around. *)
Definition wrap64 (n : Z) : Z := n mod 2 ^ 64.

Definition saturating_add_u32 (a b : Z) : Z := Z.min (a + b) u32_max.
Definition saturating_sub (a b : Z) : Z := Z.max 0 (a - b).

Lemma wrap64_add a b x : wrap64 a = wrap64 b -> wrap64 (a + x) = wrap64 (b + x).
Proof. intros E. unfold wrap64 in *. by rewrite <-Zplus_mod_idemp_l, E, Zplus_mod_idemp_l. Qed.

Lemma wrap64_small n : 0 <= n <= u64_max -> wrap64 n = n.
Proof. intros H. apply Z.mod_small. unfold u64_max in H. lia. Qed.

Lemma wrap64_range n : 0 <= wrap64 n <= u64_max.
Proof.
  unfold wrap64, u64_max. pose proof (Z.mod_pos_bound n (2 ^ 64) ltac:(lia)). lia.
Qed.

#[export] Hint Resolve wrap64_range : gfe.

(** ** Time

    An [Instant] and a [Duration] are nanoseconds; a duration is never
    negative and at most [u64::MAX] seconds and 999,999,999 ns. *)

Definition NANOS_PER_SEC : Z := 1000000000.
Definition NANOS_PER_MILLI : Z := 1000000.
Definition NANOS_PER_MICRO : Z := 1000.

Definition duration_max : Z := u64_max * NANOS_PER_SEC + 999999999.
Definition duration_ok (d : Z) : Prop := 0 <= d <= duration_max.

Definition from_secs (n : Z) : Z := n * NANOS_PER_SEC.
Definition from_millis (n : Z) : Z := n * NANOS_PER_MILLI.
Definition from_micros (n : Z) : Z := n * NANOS_PER_MICRO.
Definition as_millis (d : Z) : Z := d / NANOS_PER_MILLI.
Definition as_micros (d : Z) : Z := d / NANOS_PER_MICRO.

(** [Instant::saturating_duration_since]. *)
Definition saturating_duration_since (now earlier : Z) : Z := Z.max 0 (now - earlier).

(** ** Options and lists *)

Definition is_some_and {A} (f : A -> bool) (o : option A) : bool :=
  match o with Some a => f a | None => false end.

Definition is_none_or {A} (f : A -> bool) (o : option A) : bool :=
  match o with Some a => f a | None => true end.

Definition is_none {A} (o : option A) : bool :=
  match o with Some _ => false | None => true end.

Definition unwrap_or {A} (d : A) (o : option A) : A :=
  match o with Some a => a | None => d end.

Definition sum_list (l : list Z) : Z := foldr Z.add 0 l.

Lemma sum_list_app l k : sum_list (l ++ k) = sum_list l + sum_list k.
Proof. induction l as [|x l IH]; simpl; lia. Qed.

Lemma sum_list_nonneg l : Forall (fun x => 0 <= x) l -> 0 <= sum_list l.
Proof. induction 1; simpl; lia. Qed.

(** [iter().find(p)]: the first element that satisfies [p]. *)
Fixpoint find_first {A} (p : A -> bool) (l : list A) : option A :=
  match l with
  | [] => None
  | x :: l => if p x then Some x else find_first p l
  end.

(** [iter().filter(p)], on booleans. *)
Fixpoint keep {A} (p : A -> bool) (l : list A) : list A :=
  match l with
  | [] => []
  | x :: l => if p x then x :: keep p l else keep p l
  end.

Lemma find_first_keep {A} (p : A -> bool) l : find_first p l = head (keep p l).
Proof. induction l as [|x l IH]; simpl; [done|]. destruct (p x); done. Qed.

Lemma find_first_Some {A} (p : A -> bool) l x :
  find_first p l = Some x -> x ∈ l /\ p x = true.
Proof.
  induction l as [|y l IH]; simpl; [done|]. destruct (p y) eqn:E.
  - intros [= ->]. split; [constructor|done].
  - intros H. destruct (IH H). split; [by constructor|done].
Qed.

Lemma find_first_None {A} (p : A -> bool) l :
  find_first p l = None <-> forall x, x ∈ l -> p x = false.
Proof.
  induction l as [|y l IH]; simpl.
  - split; [|done]. intros _ x Hx. by apply not_elem_of_nil in Hx.
  - destruct (p y) eqn:E; split; intros H.
    + done.
    + rewrite (H y) in E; [done|constructor].
    + intros x [->|Hx]%elem_of_cons; [done|]. by apply IH.
    + apply IH. intros x Hx. apply H. by constructor.
Qed.

Lemma elem_of_keep {A} (p : A -> bool) l x : x ∈ keep p l <-> x ∈ l /\ p x = true.
Proof.
  induction l as [|y l IH]; simpl.
  - split; [intros H|intros [H _]]; by apply not_elem_of_nil in H.
  - destruct (p y) eqn:E; rewrite ?elem_of_cons, IH; intuition (subst; congruence).
Qed.

Lemma keep_keep {A} (p q : A -> bool) l : keep p (keep q l) = keep q (keep p l).
Proof.
  induction l as [|x l IH]; simpl; [done|].
  destruct (p x) eqn:P, (q x) eqn:Q; simpl; rewrite ?P, ?Q, IH; done.
Qed.

Lemma keep_andb {A} (p q : A -> bool) l :
  keep (fun x => p x && q x) l = keep q (keep p l).
Proof.
  induction l as [|x l IH]; simpl; [done|].
  destruct (p x); simpl; [|done]. by rewrite IH.
Qed.

Lemma keep_ext {A} (p q : A -> bool) l :
  (forall x, x ∈ l -> p x = q x) -> keep p l = keep q l.
Proof.
  induction l as [|x l IH]; simpl; intros H; [done|].
  rewrite (H x), IH; [done| |constructor]. intros y Hy. apply H. by constructor.
Qed.

Lemma keep_all {A} (p : A -> bool) l : (forall x, x ∈ l -> p x = true) -> keep p l = l.
Proof.
  induction l as [|x l IH]; simpl; intros H; [done|].
  rewrite (H x), IH; [done| |constructor]. intros y Hy. apply H. by constructor.
Qed.

Lemma keep_none {A} (p : A -> bool) l : (forall x, x ∈ l -> p x = false) -> keep p l = [].
Proof.
  induction l as [|x l IH]; intros H; simpl; [done|]. rewrite (H x) by constructor.
  apply IH. intros y Hy. apply H. by constructor.
Qed.

Lemma keep_app {A} (p : A -> bool) l k : keep p (l ++ k) = keep p l ++ keep p k.
Proof. induction l as [|x l IH]; simpl; [done|]. destruct (p x); by rewrite IH. Qed.

Lemma keep_fmap {A B} (f : A -> B) (p : B -> bool) l :
  keep p (f <$> l) = f <$> keep (fun x => p (f x)) l.
Proof. induction l as [|x l IH]; csimpl; [done|]. destruct (p (f x)); csimpl; by rewrite IH. Qed.

Lemma NoDup_fmap_keep {A B} (f : A -> B) (p : A -> bool) l :
  NoDup (f <$> l) -> NoDup (f <$> keep p l).
Proof.
  induction l as [|x l IH]; csimpl; [done|]. intros [Hx Hl]%NoDup_cons.
  destruct (p x); csimpl; [|by apply IH]. apply NoDup_cons. split; [|by apply IH].
  intros (y & E & [Hy _]%elem_of_keep)%list_elem_of_fmap. destruct Hx.
  apply list_elem_of_fmap. by exists y.
Qed.

Lemma length_keep_le {A} (p : A -> bool) l : (length (keep p l) <= length l)%nat.
Proof. induction l as [|x l IH]; simpl; [lia|]. destruct (p x); simpl; lia. Qed.

(** ** Choosing and sorting

    Orders are booleans: [le x y] says that [x] does not come after [y]
    ([compare(x, y) != Greater]). [min_by] is [Iterator::min_by]: of several
    least elements the first is returned. [sort_by] is the stable sort of
    slices ([sort_by_key]): elements that compare equal keep their order. *)

Fixpoint min_from {A} (le : A -> A -> bool) (best : A) (l : list A) : A :=
  match l with
  | [] => best
  | x :: l => min_from le (if le best x then best else x) l
  end.

Definition min_by {A} (le : A -> A -> bool) (l : list A) : option A :=
  match l with
  | [] => None
  | x :: l => Some (min_from le x l)
  end.

Fixpoint insert_by {A} (le : A -> A -> bool) (x : A) (l : list A) : list A :=
  match l with
  | [] => [x]
  | y :: l => if le x y then x :: y :: l else y :: insert_by le x l
  end.

Fixpoint sort_by {A} (le : A -> A -> bool) (l : list A) : list A :=
  match l with
  | [] => []
  | x :: l => insert_by le x (sort_by le l)
  end.

(** A total preorder, as a boolean. *)
Class TotalPreorder {A} (le : A -> A -> bool) : Prop := {
  tp_total : forall x y, le x y = true \/ le y x = true;
  tp_trans : forall x y z, le x y = true -> le y z = true -> le x z = true;
}.

Section Orders.
Context {A : Type} (le : A -> A -> bool) `{!TotalPreorder le}.
Implicit Types l : list A.

Lemma tp_refl x : le x x = true.
Proof using All. by destruct (tp_total x x). Qed.

Lemma tp_flip x y : le x y = false -> le y x = true.
Proof using All. destruct (tp_total x y); congruence. Qed.

Lemma insert_by_perm x l : insert_by le x l ≡ₚ x :: l.
Proof.
  induction l as [|y l IH]; simpl; [done|]. destruct (le x y); [done|].
  rewrite IH. apply Permutation_swap.
Qed.

Lemma sort_by_perm l : sort_by le l ≡ₚ l.
Proof. induction l as [|x l IH]; simpl; [done|]. by rewrite insert_by_perm, IH. Qed.

Lemma elem_of_sort_by x l : x ∈ sort_by le l <-> x ∈ l.
Proof. by rewrite sort_by_perm. Qed.

Lemma length_sort_by l : length (sort_by le l) = length l.
Proof. by rewrite sort_by_perm. Qed.

Let R x y := le x y = true.

Lemma insert_by_sorted x l : StronglySorted R l -> StronglySorted R (insert_by le x l).
Proof using All.
  induction 1 as [|y l Hl IH Hy]; simpl; [repeat constructor|].
  destruct (le x y) eqn:E.
  - constructor; [by constructor|]. constructor; [done|].
    eapply Forall_impl; [exact Hy|]. intros z Hz. eapply tp_trans; eauto.
  - constructor; [done|]. rewrite insert_by_perm. constructor; [|done].
    by apply tp_flip.
Qed.

Lemma sort_by_sorted l : StronglySorted (fun x y => le x y = true) (sort_by le l).
Proof using All. induction l; simpl; [constructor|]. by apply insert_by_sorted. Qed.

(** Sorting what is kept is keeping what is sorted: the sort is stable. *)
Lemma keep_insert_by p x l :
  StronglySorted R l ->
  keep p (insert_by le x l) = if p x then insert_by le x (keep p l) else keep p l.
Proof using All.
  induction 1 as [|y l Hl IH Hy]; simpl; [destruct (p x); done|].
  assert (Hins : le x y = true -> insert_by le x (keep p l) = x :: keep p l).
  { intros E. destruct (keep p l) as [|z k] eqn:K; simpl; [done|].
    assert (z ∈ l) as Hz by (apply (elem_of_keep p); rewrite K; constructor).
    rewrite Forall_forall in Hy. by rewrite (tp_trans x y z E (Hy z Hz)). }
  destruct (le x y) eqn:E; simpl.
  - destruct (p x) eqn:P, (p y) eqn:Q; simpl; rewrite ?E, ?Hins; done.
  - rewrite IH. destruct (p x) eqn:P, (p y) eqn:Q; simpl; rewrite ?E; done.
Qed.

Lemma keep_sort_by p l : keep p (sort_by le l) = sort_by le (keep p l).
Proof using All.
  induction l as [|x l IH]; simpl; [done|].
  rewrite keep_insert_by by apply sort_by_sorted. rewrite IH. by destruct (p x).
Qed.

Lemma min_from_cons x y l :
  min_from le x (y :: l) = if le x (min_from le y l) then x else min_from le y l.
Proof using All.
  revert x y. induction l as [|z l IH]; intros x y; [done|].
  change (min_from le x (y :: z :: l)) with (min_from le (if le x y then x else y) (z :: l)).
  rewrite (IH y z), (IH _ z). set (m := min_from le z l).
  destruct (le x y) eqn:XY.
  - destruct (le y m) eqn:YM; [|done]. by rewrite XY, (tp_trans x y m).
  - destruct (le y m) eqn:YM; [by rewrite XY|].
    destruct (le x m) eqn:XM; [|done].
    apply tp_flip in YM. by rewrite (tp_trans x m y) in XY.
Qed.

Lemma head_sort_by l : head (sort_by le l) = min_by le l.
Proof using All.
  destruct l as [|x l]; [done|]. revert x. induction l as [|y l IH]; intros x; [done|].
  change (sort_by le (x :: y :: l)) with (insert_by le x (sort_by le (y :: l))).
  unfold min_by. rewrite min_from_cons. specialize (IH y). unfold min_by in IH.
  destruct (sort_by le (y :: l)) as [|z k]; simpl in IH; [done|]. injection IH as ->.
  simpl. by destruct (le x (min_from le y l)).
Qed.

Lemma min_by_Some l m :
  min_by le l = Some m -> m ∈ l /\ forall x, x ∈ l -> le m x = true.
Proof using All.
  rewrite <-head_sort_by. intros H. pose proof (sort_by_sorted l) as S.
  destruct (sort_by le l) as [|y k] eqn:E; simpl in H; [done|]. injection H as ->.
  split; [apply elem_of_sort_by; rewrite E; constructor|].
  intros x Hx. apply elem_of_sort_by in Hx. rewrite E in Hx.
  apply elem_of_cons in Hx as [->|Hx]; [apply tp_refl|].
  inversion S as [|? ? _ F]. rewrite Forall_forall in F. by apply F.
Qed.

Lemma min_by_None l : min_by le l = None <-> l = [].
Proof. by destruct l. Qed.

(** Everything before the least element chosen is strictly above it. *)
Lemma min_by_first l m :
  min_by le l = Some m ->
  exists before after, l = before ++ m :: after /\
    (forall x, x ∈ before -> le x m = false) /\
    (forall x, x ∈ after -> le m x = true).
Proof using All.
  destruct l as [|x l]; [done|]. simpl. intros [= <-]. revert x.
  induction l as [|y l IH]; intros x.
  - exists [], []. split; [done|]. split; intros z Hz; by apply not_elem_of_nil in Hz.
  - rewrite min_from_cons. destruct (le x (min_from le y l)) eqn:E.
    + exists [], (y :: l). split; [done|]. split; [intros z Hz; by apply not_elem_of_nil in Hz|].
      intros z Hz. eapply tp_trans; [exact E|].
      by apply (proj2 (min_by_Some (y :: l) (min_from le y l) eq_refl)).
    + destruct (IH y) as (b & a & Hl & Hb & Ha). exists (x :: b), a.
      split; [by rewrite Hl|]. split; [|done].
      intros z [->|Hz]%elem_of_cons; [done|by apply Hb].
Qed.

(** What [p] singles out as better is where the least element is. *)
Lemma min_by_prefer (p : A -> bool) l :
  (forall x y, p x = true -> p y = false -> le y x = false) -> keep p l <> [] ->
  min_by le l = min_by le (keep p l).
Proof using All.
  intros Hp Hne. rewrite <-!head_sort_by, <-keep_sort_by.
  destruct (sort_by le l) as [|m k] eqn:E.
  { pose proof (length_sort_by l) as Hl. rewrite E in Hl. destruct l; done. }
  simpl. destruct (p m) eqn:Pm; [done|]. exfalso.
  assert (Hm : min_by le l = Some m) by (by rewrite <-head_sort_by, E).
  destruct (keep p l) as [|x xs] eqn:K; [done|].
  assert (x ∈ l /\ p x = true) as [Hx Px] by (apply elem_of_keep; rewrite K; constructor).
  apply (min_by_Some _ _ Hm) in Hx. by rewrite (Hp x m Px Pm) in Hx.
Qed.
End Orders.

Lemma min_by_elem {A} (le : A -> A -> bool) l m : min_by le l = Some m -> m ∈ l.
Proof.
  destruct l as [|x l]; [done|]. intros [= <-]. revert x. induction l as [|y l IH]; intros x; simpl.
  { constructor. }
  specialize (IH (if le x y then x else y)). rewrite !elem_of_cons in *. destruct (le x y); naive_solver.
Qed.

Lemma min_by_ext {A} (le le' : A -> A -> bool) l :
  (forall x y, x ∈ l -> y ∈ l -> le x y = le' x y) -> min_by le l = min_by le' l.
Proof.
  destruct l as [|x l]; [done|]. simpl. intros H. f_equal. revert x H.
  induction l as [|y l IH]; intros x H; [done|]. simpl.
  rewrite (H x y) by (repeat constructor). apply IH.
  intros a b Ha Hb. apply H; destruct (le' x y); set_solver.
Qed.

Lemma min_by_fmap {A B} (f : A -> B) (le : A -> A -> bool) (le' : B -> B -> bool) l :
  (forall x y, le' (f x) (f y) = le x y) -> min_by le' (f <$> l) = f <$> min_by le l.
Proof.
  intros H. destruct l as [|x l]; [done|]. csimpl. f_equal. revert x.
  induction l as [|y l IH]; intros x; [done|]. csimpl. rewrite H. destruct (le x y); apply IH.
Qed.

Lemma sort_by_fmap {A B} (le : A -> A -> bool) (le' : B -> B -> bool) (f : A -> B) l :
  (forall x y, le' (f x) (f y) = le x y) -> sort_by le' (f <$> l) = f <$> sort_by le l.
Proof.
  intros H. induction l as [|x l IH]; csimpl; [done|]. rewrite IH.
  generalize (sort_by le l) as k. clear IH.
  induction k as [|y k IHk]; csimpl; [done|]. rewrite H. destruct (le x y); csimpl; [done|].
  by rewrite IHk.
Qed.

Lemma sort_by_ext {A} (le le' : A -> A -> bool) l :
  (forall x y, le' x y = le x y) -> sort_by le' l = sort_by le l.
Proof.
  intros H. rewrite <-(list_fmap_id l) at 1. rewrite (sort_by_fmap le le' id) by done.
  by rewrite list_fmap_id.
Qed.

(** The order of a key: [sort_by_key], [min_by_key]. *)
Definition by_key {A} (key : A -> Z) (x y : A) : bool := key x <=? key y.

#[export] Instance by_key_preorder {A} (key : A -> Z) : TotalPreorder (by_key key).
Proof. split; unfold by_key; intros; lia. Qed.

(** ** Counting *)

Definition count_if {A} (f : A -> bool) (l : list A) : Z := Z.of_nat (length (keep f l)).

Lemma count_if_app {A} (f : A -> bool) l l' : count_if f (l ++ l') = count_if f l + count_if f l'.
Proof. unfold count_if. rewrite keep_app, length_app. lia. Qed.

Lemma count_if_cons {A} (f : A -> bool) x l : count_if f (x :: l) = Z.b2z (f x) + count_if f l.
Proof. unfold count_if. cbn [keep]. destruct (f x); cbn [length Z.b2z]; lia. Qed.

Lemma count_if_split {A} (f : A -> bool) l i x :
  l !! i = Some x -> count_if f l = count_if f (take i l) + (Z.b2z (f x) + count_if f (drop (S i) l)).
Proof. intros Hi. rewrite <-(take_drop_middle l i x Hi) at 1. by rewrite count_if_app, count_if_cons. Qed.

Lemma count_if_insert {A} (f : A -> bool) l i x y :
  l !! i = Some x -> count_if f (<[i := y]> l) = count_if f l - Z.b2z (f x) + Z.b2z (f y).
Proof.
  intros Hi. rewrite (count_if_split f l i x Hi), insert_take_drop by (by eapply lookup_lt_Some).
  rewrite count_if_app, count_if_cons. lia.
Qed.

Lemma count_if_delete {A} (f : A -> bool) l i x : l !! i = Some x -> count_if f (delete i l) = count_if f l - Z.b2z (f x).
Proof. intros Hi. rewrite (count_if_split f l i x Hi), delete_take_drop, count_if_app. lia. Qed.

Lemma count_if_pos {A} (f : A -> bool) l i x : l !! i = Some x -> f x = true -> 0 < count_if f l.
Proof. intros Hi Hx. rewrite (count_if_split f l i x Hi), Hx. unfold count_if. cbn [Z.b2z]. lia. Qed.

Lemma count_if_range {A} (f : A -> bool) l : 0 <= count_if f l <= Z.of_nat (length l).
Proof. unfold count_if. pose proof (length_keep_le f l). lia. Qed.

(** What one element of a list contributes, before and after it is replaced. *)
Lemma omap_insert_split {A B} (g : A -> option B) l i x y :
  l !! i = Some x -> exists before after,
    omap g l = before ++ option_list (g x) ++ after /\ omap g (<[i := y]> l) = before ++ option_list (g y) ++ after.
Proof.
  intros Hi. exists (omap g (take i l)), (omap g (drop (S i) l)).
  rewrite insert_take_drop by (by eapply lookup_lt_Some).
  rewrite <-(take_drop_middle l i x Hi) at 1. rewrite !omap_app. cbn. by destruct (g x), (g y).
Qed.

Lemma keep_perm {A} (f : A -> bool) l l' : l ≡ₚ l' -> keep f l ≡ₚ keep f l'.
Proof.
  induction 1 as [|x l l' _ IH|x y l|l l' l'' _ IH1 _ IH2]; cbn [keep]; [done|..].
  - destruct (f x); by rewrite IH.
  - destruct (f x), (f y); first [done|apply perm_swap].
  - by etrans.
Qed.

(** ** Step relations *)

(** What holds at the start and is kept by every step holds of every state
    reached. *)
Lemma rtc_invariant {A} (R : relation A) (P : A -> Prop) x y :
  P x -> (forall a b, P a -> R a b -> P b) -> rtc R x y -> P y.
Proof. intros Hx Hstep Hr. induction Hr; eauto. Qed.

(** ** Counters by their labels *)

(** [get_or_create(label).inc_by(n)], as of the metrics library. *)
Definition bump {K} `{Countable K} (k : K) (n : Z) (m : gmap K Z) : gmap K Z :=
  <[k := default 0 (m !! k) + n]> m.

Definition value {K} `{Countable K} (k : K) (m : gmap K Z) : Z := default 0 (m !! k).

Lemma value_bump {K} `{Countable K} k k' n (m : gmap K Z) :
  value k' (bump k n m) = value k' m + (if decide (k' = k) then n else 0).
Proof.
  unfold value, bump. destruct (decide (k' = k)) as [->|Hne].
  - by rewrite lookup_insert_eq.
  - rewrite lookup_insert_ne by done. lia.
Qed.
