(* ===== verification/Str.v ===== *)
(** * Strings: what the program uses of [str], [u8], [char] and integers' text

    A [str] is its UTF-8 bytes, each an [ascii]. The functions are those of
    the standard library the sources call: ASCII case, prefixes and
    suffixes, splitting, trimming, decimal numbers. *)

From S2P Require Import Prelude.
From Stdlib Require Import Ascii.
#[local] Open Scope list_scope.

Notation str := (list ascii).

(** A literal of the source. *)
Definition lit (s : string) : str := String.list_ascii_of_string s.

Arguments lit : simpl never.

Definition byte_val (c : ascii) : Z := Z.of_N (N_of_ascii c).

Definition str_eqb (s t : str) : bool := bool_decide (s = t).

(** ** ASCII *)

Definition is_ascii_uppercase (c : ascii) : bool :=
  (65 <=? byte_val c) && (byte_val c <=? 90).
Definition is_ascii_lowercase (c : ascii) : bool :=
  (97 <=? byte_val c) && (byte_val c <=? 122).
Definition is_ascii_digit (c : ascii) : bool :=
  (48 <=? byte_val c) && (byte_val c <=? 57).
Definition is_ascii_alphabetic (c : ascii) : bool :=
  is_ascii_uppercase c || is_ascii_lowercase c.
Definition is_ascii_alphanumeric (c : ascii) : bool :=
  is_ascii_alphabetic c || is_ascii_digit c.

Definition lower (c : ascii) : ascii :=
  if is_ascii_uppercase c then ascii_of_N (N_of_ascii c + 32) else c.

Definition to_ascii_lowercase (s : str) : str := lower <$> s.

Definition eq_ignore_ascii_case (s t : str) : bool :=
  str_eqb (to_ascii_lowercase s) (to_ascii_lowercase t).

(** ** Parts of a string *)

Fixpoint strip_prefix (p s : str) : option str :=
  match p, s with
  | [], _ => Some s
  | c :: p, d :: s => if bool_decide (c = d) then strip_prefix p s else None
  | _ :: _, [] => None
  end.

Definition strip_suffix (p s : str) : option str :=
  reverse <$> strip_prefix (reverse p) (reverse s).

Definition starts_with (p s : str) : bool :=
  match strip_prefix p s with Some _ => true | None => false end.

Definition ends_with (p s : str) : bool :=
  match strip_suffix p s with Some _ => true | None => false end.

Definition contains_char (c : ascii) (s : str) : bool :=
  existsb (fun d => bool_decide (c = d)) s.

(** [s.split(c)]: at least one piece, the pieces between the [c]s. *)
Fixpoint split_on (c : ascii) (s : str) : list str :=
  match s with
  | [] => [[]]
  | d :: s =>
      if bool_decide (c = d) then [] :: split_on c s
      else match split_on c s with
           | piece :: rest => (d :: piece) :: rest
           | [] => [[d]]
           end
  end.

(** [s.split_once(c)]: around the first [c]. *)
Fixpoint split_once (c : ascii) (s : str) : option (str * str) :=
  match s with
  | [] => None
  | d :: s =>
      if bool_decide (c = d) then Some ([], s)
      else match split_once c s with
           | Some (before, after) => Some (d :: before, after)
           | None => None
           end
  end.

(** ** Trimming

    The UTF-8 of the characters with Unicode's [White_Space] property. A
    character's bytes occur in a string only where the character does, so a
    string can be trimmed by its bytes. *)
Definition white_space : list str :=
  let b n := ascii_of_N n in
  [[b 9]; [b 10]; [b 11]; [b 12]; [b 13]; [b 32];
   [b 194; b 133]; [b 194; b 160]; [b 225; b 154; b 128];
   [b 226; b 128; b 128]; [b 226; b 128; b 129]; [b 226; b 128; b 130];
   [b 226; b 128; b 131]; [b 226; b 128; b 132]; [b 226; b 128; b 133];
   [b 226; b 128; b 134]; [b 226; b 128; b 135]; [b 226; b 128; b 136];
   [b 226; b 128; b 137]; [b 226; b 128; b 138]; [b 226; b 128; b 168];
   [b 226; b 128; b 169]; [b 226; b 128; b 175]; [b 226; b 129; b 159];
   [b 227; b 128; b 128]]%N.

Definition strip_one (spaces : list str) (s : str) : option str :=
  foldr (fun w found => match strip_prefix w s with Some r => Some r | None => found end)
    None spaces.

(** Each round takes at least one byte away: as many rounds as bytes. *)
Fixpoint trim_start_with (fuel : nat) (spaces : list str) (s : str) : str :=
  match fuel with
  | O => s
  | S fuel =>
      match strip_one spaces s with
      | Some r => trim_start_with fuel spaces r
      | None => s
      end
  end.

Definition trim_start (s : str) : str := trim_start_with (length s) white_space s.
Definition trim_end (s : str) : str :=
  reverse (trim_start_with (length s) (reverse <$> white_space) (reverse s)).
Definition trim (s : str) : str := trim_end (trim_start s).

(** ** Decimal numbers *)

Definition digit_char (d : Z) : ascii := ascii_of_N (Z.to_N (48 + d)).
Definition digit_val (c : ascii) : Z := byte_val c - 48.

(** The digits of [n], most significant first. *)
Fixpoint digits_of (fuel : nat) (n : Z) (rest : str) : str :=
  match fuel with
  | O => rest
  | S fuel =>
      let rest := digit_char (n mod 10) :: rest in
      if n <? 10 then rest else digits_of fuel (n / 10) rest
  end.

(** The text of a natural number below [10^40], which every integer of the
    program is. *)
Definition decimal (n : Z) : str := digits_of 40 n [].

(** The value of a string of digits. *)
Fixpoint digits_val (acc : Z) (s : str) : option Z :=
  match s with
  | [] => Some acc
  | c :: s => if is_ascii_digit c then digits_val (10 * acc + digit_val c) s else None
  end.

(** [s.parse()] to an unsigned integer of at most [max]: an optional [+], at
    least one digit, nothing else, and no overflow. *)
Definition parse_unsigned (max : Z) (s : str) : option Z :=
  let digits := match strip_prefix (lit "+") s with Some digits => digits | None => s end in
  if bool_decide (digits = []) then None else
  match digits_val 0 digits with
  | Some n => if n <=? max then Some n else None
  | None => None
  end.

(** ** Facts *)

Lemma str_eqb_eq s t : str_eqb s t = true <-> s = t.
Proof. apply bool_decide_eq_true. Qed.

Lemma str_eqb_refl s : str_eqb s s = true.
Proof. by apply str_eqb_eq. Qed.

Lemma str_eqb_neq s t : s <> t -> str_eqb s t = false.
Proof. apply bool_decide_eq_false_2. Qed.

Lemma byte_val_range c : 0 <= byte_val c <= 255.
Proof. unfold byte_val. pose proof (N_ascii_bounded c). lia. Qed.

Lemma lower_idem c : lower (lower c) = lower c.
Proof. destruct c as [[] [] [] [] [] [] [] []]; reflexivity. Qed.

Lemma to_ascii_lowercase_idem s : to_ascii_lowercase (to_ascii_lowercase s) = to_ascii_lowercase s.
Proof.
  unfold to_ascii_lowercase. rewrite <-list_fmap_compose. apply list_fmap_ext.
  intros _ c _. apply lower_idem.
Qed.

Lemma to_ascii_lowercase_app s t :
  to_ascii_lowercase (s ++ t) = to_ascii_lowercase s ++ to_ascii_lowercase t.
Proof. apply fmap_app. Qed.

Lemma length_to_ascii_lowercase s : length (to_ascii_lowercase s) = length s.
Proof. apply length_fmap. Qed.

Lemma eq_ignore_ascii_case_iff s t :
  eq_ignore_ascii_case s t = true <-> to_ascii_lowercase s = to_ascii_lowercase t.
Proof. apply str_eqb_eq. Qed.

Lemma strip_prefix_Some p s r : strip_prefix p s = Some r <-> s = p ++ r.
Proof.
  revert s. induction p as [|c p IH]; intros [|d s]; simpl; try naive_solver.
  case_bool_decide; subst; [rewrite IH|]; naive_solver.
Qed.

Lemma strip_suffix_Some p s r : strip_suffix p s = Some r <-> s = r ++ p.
Proof.
  unfold strip_suffix. split.
  - intros (q & H & ->)%fmap_Some. apply strip_prefix_Some in H.
    rewrite <-(reverse_involutive s), H, reverse_app. by rewrite reverse_involutive.
  - intros ->. rewrite reverse_app, (proj2 (strip_prefix_Some _ _ _) eq_refl). simpl.
    by rewrite reverse_involutive.
Qed.

Lemma starts_with_iff p s : starts_with p s = true <-> exists r, s = p ++ r.
Proof.
  unfold starts_with. destruct (strip_prefix p s) as [r|] eqn:E.
  - apply strip_prefix_Some in E. split; eauto.
  - split; [done|]. intros [r Hr]. apply strip_prefix_Some in Hr. congruence.
Qed.

Lemma ends_with_iff p s : ends_with p s = true <-> exists r, s = r ++ p.
Proof.
  unfold ends_with. destruct (strip_suffix p s) as [r|] eqn:E.
  - apply strip_suffix_Some in E. split; eauto.
  - split; [done|]. intros [r Hr]. apply strip_suffix_Some in Hr. congruence.
Qed.

Lemma contains_char_iff c s : contains_char c s = true <-> c ∈ s.
Proof.
  unfold contains_char. rewrite existsb_exists. setoid_rewrite bool_decide_eq_true.
  rewrite list_elem_of_In. naive_solver.
Qed.

Lemma digit_char_val d : 0 <= d < 10 -> digit_val (digit_char d) = d.
Proof.
  intros H. unfold digit_val, digit_char, byte_val. rewrite N_ascii_embedding by lia. lia.
Qed.

Lemma digit_char_digit d : 0 <= d < 10 -> is_ascii_digit (digit_char d) = true.
Proof.
  intros H. apply digit_char_val in H as E. unfold is_ascii_digit.
  unfold digit_val in E. lia.
Qed.

Lemma digits_of_val fuel n rest :
  0 <= n < 10 ^ Z.of_nat fuel -> (0 < fuel)%nat ->
  digits_val 0 (digits_of fuel n rest) = digits_val n rest.
Proof.
  revert n rest. induction fuel as [|fuel IH]; intros n rest Hn Hf; [lia|].
  pose proof (Z.mod_pos_bound n 10 ltac:(lia)) as Hm.
  assert (Hstep : forall m, 10 * m + n mod 10 = n ->
            digits_val m (digit_char (n mod 10) :: rest) = digits_val n rest).
  { intros m E. simpl. rewrite digit_char_digit, digit_char_val, E by done. done. }
  cbn [digits_of]. destruct (n <? 10) eqn:E; bool_facts.
  - apply Hstep. rewrite Z.mod_small; lia.
  - rewrite Nat2Z.inj_succ, Z.pow_succ_r in Hn by lia.
    assert (fuel <> 0%nat) by (intros ->; simpl in Hn; lia).
    rewrite IH; [|split; [apply Z.div_pos; lia|apply Z.div_lt_upper_bound; lia]|lia].
    apply Hstep. pose proof (Z.div_mod n 10). lia.
Qed.

Lemma digits_of_digits fuel n rest :
  Forall (fun c => is_ascii_digit c = true) rest ->
  Forall (fun c => is_ascii_digit c = true) (digits_of fuel n rest).
Proof.
  revert n rest. induction fuel as [|fuel IH]; intros n rest Hr; simpl; [done|].
  assert (Forall (fun c => is_ascii_digit c = true) (digit_char (n mod 10) :: rest)).
  { constructor; [|done]. apply digit_char_digit. apply Z.mod_pos_bound. lia. }
  case_if; [done|]. by apply IH.
Qed.

Lemma decimal_digits n : Forall (fun c => is_ascii_digit c = true) (decimal n).
Proof. by apply digits_of_digits. Qed.

Lemma parse_unsigned_range max s n : parse_unsigned max s = Some n -> 0 <= n <= max.
Proof.
  unfold parse_unsigned. destruct (bool_decide _); [done|].
  assert (H : forall t acc m, 0 <= acc -> digits_val acc t = Some m -> 0 <= m).
  { clear. induction t as [|c t IH]; intros acc m Ha; simpl; [by intros [= <-]|].
    destruct (is_ascii_digit c) eqn:Ed; [|done]. apply IH.
    unfold is_ascii_digit, digit_val in *. bool_facts. lia. }
  destruct (digits_val 0 _) as [m|] eqn:E; [|done]. apply H in E; [|lia].
  case_if; [|done]. by intros [= <-].
Qed.

Lemma decimal_nonempty n : decimal n <> [].
Proof.
  assert (H : forall fuel n rest, rest <> [] -> digits_of fuel n rest <> []).
  { induction fuel as [|fuel IH]; intros m rest Hr; simpl; [done|].
    case_if; [done|]. by apply IH. }
  unfold decimal. generalize 39%nat as fuel. intros fuel.
  change (digits_of (S fuel) n [] <> []). cbn [digits_of]. case_if; [done|]. by apply H.
Qed.

(** What is written is read back. *)
Lemma parse_decimal max n :
  0 <= n <= max -> n < 10 ^ 40 -> parse_unsigned max (decimal n) = Some n.
Proof.
  intros Hn Hmax. pose proof (digits_of_val 40 n [] ltac:(simpl; lia) ltac:(lia)) as Hv.
  pose proof (decimal_digits n) as Hd. fold (decimal n) in Hv. unfold parse_unsigned.
  pose proof (decimal_nonempty n) as Hne.
  destruct (decimal n) as [|c s]; [done|].
  apply Forall_cons in Hd as [Hc _].
  assert (strip_prefix (lit "+") (c :: s) = None) as ->.
  { by destruct c as [[] [] [] [] [] [] [] []]. }
  rewrite Hv. simpl. by replace (n <=? max) with true by lia.
Qed.

(** The operations on strings are reasoned about through the lemmas above. *)
#[global] Arguments strip_prefix : simpl never.
#[global] Arguments strip_suffix : simpl never.
#[global] Arguments starts_with : simpl never.
#[global] Arguments ends_with : simpl never.
#[global] Arguments str_eqb : simpl never.
#[global] Arguments to_ascii_lowercase : simpl never.
#[global] Arguments eq_ignore_ascii_case : simpl never.
#[global] Arguments contains_char : simpl never.
#[global] Arguments trim : simpl never.
