(* ===== verification/Net.v ===== *)
(** * IP addresses: what the program uses of [std::net]

    The text of an address is read the way [core::net] reads it: no leading
    zero in an IPv4 octet, at most four hexadecimal digits in an IPv6 group,
    one [::] standing for at least one group, an IPv4 address in the last
    two groups. A reader takes a string and returns what it read and what is
    left, or nothing, leaving the string as it was. *)

From S2P Require Import Prelude Str.
From Stdlib Require Import Ascii.

Inductive IpAddr :=
| V4 (octets : list Z)
| V6 (segments : list Z).

#[export] Instance IpAddr_eq_dec : EqDecision IpAddr.
Proof. solve_decision. Defined.

#[export] Instance IpAddr_countable : Countable IpAddr.
Proof.
  refine (inj_countable'
    (fun a => match a with V4 o => inl o | V6 s => inr s end)
    (fun x => match x with inl o => V4 o | inr s => V6 s end) _).
  by intros [].
Defined.

(** [SocketAddr], without the flow and scope of an IPv6 one. *)
Record SocketAddr := mkSocketAddr { sa_ip : IpAddr; sa_port : Z }.

#[export] Instance SocketAddr_eq_dec : EqDecision SocketAddr.
Proof. solve_decision. Defined.

#[export] Instance SocketAddr_countable : Countable SocketAddr.
Proof.
  refine (inj_countable' (fun a => (sa_ip a, sa_port a)) (fun x => mkSocketAddr x.1 x.2) _).
  by intros [].
Defined.

Definition Reader (A : Type) : Type := str -> option (A * str).

(** [char::to_digit]. *)
Definition to_digit (radix : Z) (c : ascii) : option Z :=
  let v :=
    if is_ascii_digit c then Some (byte_val c - 48)
    else if is_ascii_lowercase c then Some (byte_val c - 87)
    else if is_ascii_uppercase c then Some (byte_val c - 55)
    else None in
  match v with Some d => if d <? radix then Some d else None | None => None end.

Definition read_given_char (c : ascii) : Reader unit := fun s =>
  match s with
  | d :: s => if bool_decide (c = d) then Some ((), s) else None
  | [] => None
  end.

(** The digits at the front of a string; nothing if there are more than
    [max_digits]. *)
Fixpoint read_digits (radix max_digits : Z) (result count : Z) (s : str) : option (Z * Z * str) :=
  match s with
  | [] => Some (result, count, [])
  | c :: rest =>
      match to_digit radix c with
      | None => Some (result, count, s)
      | Some d =>
          if max_digits <? count + 1 then None
          else read_digits radix max_digits (result * radix + d) (count + 1) rest
      end
  end.

Definition read_number (radix max_digits : Z) (allow_zero_prefix : bool) (max : Z) : Reader Z :=
  fun s =>
  let has_leading_zero := match s with "0"%char :: _ => true | _ => false end in
  match read_digits radix max_digits 0 0 s with
  | None => None
  | Some (result, count, rest) =>
      if count =? 0 then None
      else if negb allow_zero_prefix && has_leading_zero && (1 <? count) then None
      else if max <? result then None
      else Some (result, rest)
  end.

Definition read_separator {A} (sep : ascii) (index : nat) (inner : Reader A) : Reader A := fun s =>
  match index with
  | O => inner s
  | S _ => match read_given_char sep s with Some (_, s) => inner s | None => None end
  end.

(** The octets from the [index]th on. *)
Fixpoint read_octets (more index : nat) (s : str) : option (list Z * str) :=
  match more with
  | O => Some ([], s)
  | S more =>
      match read_separator "."%char index (read_number 10 3 false u8_max) s with
      | None => None
      | Some (o, s) =>
          match read_octets more (S index) s with
          | None => None
          | Some (os, s) => Some (o :: os, s)
          end
      end
  end.

Definition read_ipv4_addr : Reader (list Z) := fun s => read_octets 4 0 s.

(** An IPv4 address in the next two groups, when there is room for two. *)
Definition read_embedded_ipv4 (more index : nat) (s : str) : option (Z * Z * str) :=
  match more with
  | O | 1%nat => None
  | _ =>
      match read_separator ":"%char index read_ipv4_addr s with
      | Some ([a; b; c; d], s) => Some (a * 256 + b, c * 256 + d, s)
      | _ => None
      end
  end.

(** The groups from the [index]th on, of which [more] may be read; whether
    they end in an IPv4 address; and what is left. *)
Fixpoint read_groups (more index : nat) (s : str) : list Z * bool * str :=
  match more with
  | O => ([], false, s)
  | S more' =>
      match read_embedded_ipv4 more index s with
      | Some (g, g', s) => ([g; g'], true, s)
      | None =>
          match read_separator ":"%char index (read_number 16 4 true u16_max) s with
          | None => ([], false, s)
          | Some (g, s) =>
              let '(gs, v4, s) := read_groups more' (S index) s in (g :: gs, v4, s)
          end
      end
  end.

Definition read_ipv6_addr : Reader (list Z) := fun s =>
  let '(head, head_ipv4, s) := read_groups 8 0 s in
  if Nat.eqb (length head) 8 then Some (head, s)
  else if head_ipv4 then None
  else match read_given_char ":"%char s with
  | None => None
  | Some (_, s) =>
      match read_given_char ":"%char s with
      | None => None
      | Some (_, s) =>
          let '(tail, _, s) := read_groups (8 - (length head + 1)) 0 s in
          Some (head ++ replicate (8 - length head - length tail) 0 ++ tail, s)
      end
  end.

(** The whole string must be read. *)
Definition parse_with {A} (read : Reader A) (s : str) : option A :=
  match read s with Some (a, []) => Some a | _ => None end.

Definition parse_ipv6 (s : str) : option (list Z) := parse_with read_ipv6_addr s.

Definition parse_ip (s : str) : option IpAddr :=
  parse_with (fun s =>
    match read_ipv4_addr s with
    | Some (o, s) => Some (V4 o, s)
    | None => match read_ipv6_addr s with Some (g, s) => Some (V6 g, s) | None => None end
    end) s.

(** [IpAddr::to_canonical]: an IPv4-mapped IPv6 address is the IPv4 one. *)
Definition to_canonical (a : IpAddr) : IpAddr :=
  match a with
  | V6 [s0; s1; s2; s3; s4; s5; ab; cd] =>
      if forallb (Z.eqb 0) [s0; s1; s2; s3; s4] && (s5 =? 65535)
      then V4 [ab / 256; ab mod 256; cd / 256; cd mod 256]
      else a
  | _ => a
  end.

(** ** The text of an address *)

Definition hex_char (d : Z) : ascii :=
  ascii_of_N (Z.to_N (if d <? 10 then 48 + d else 87 + d)).

Fixpoint hex_digits (fuel : nat) (n : Z) (rest : str) : str :=
  match fuel with
  | O => rest
  | S fuel =>
      let rest := hex_char (n mod 16) :: rest in
      if n <? 16 then rest else hex_digits fuel (n / 16) rest
  end.

(** [{:x}], of an integer of at most 64 bits. *)
Definition lower_hex (n : Z) : str := hex_digits 16 n [].

(** [{:016x}]. *)
Fixpoint hex_padded (width : nat) (n : Z) (rest : str) : str :=
  match width with
  | O => rest
  | S width => hex_padded width (n / 16) (hex_char (n mod 16) :: rest)
  end.

Fixpoint join (sep : str) (pieces : list str) : str :=
  match pieces with
  | [] => []
  | [p] => p
  | p :: pieces => p ++ sep ++ join sep pieces
  end.

Definition ipv4_to_string (octets : list Z) : str := join (lit ".") (decimal <$> octets).

(** A run of groups: where it starts and how long it is. *)
Record Span := mkSpan { span_start : nat; span_len : nat }.

(** The first of the longest runs of zero groups from the [index]th on. *)
Fixpoint longest_zeros (index : nat) (longest current : Span) (segments : list Z) : Span :=
  match segments with
  | [] => longest
  | g :: segments =>
      if g =? 0 then
        let start := if Nat.eqb (span_len current) 0 then index else span_start current in
        let current := mkSpan start (S (span_len current)) in
        let longest := if Nat.ltb (span_len longest) (span_len current) then current else longest in
        longest_zeros (S index) longest current segments
      else longest_zeros (S index) longest (mkSpan 0 0) segments
  end.

Definition ipv6_to_string (segments : list Z) : str :=
  match to_canonical (V6 segments) with
  | V4 octets => lit "::ffff:" ++ ipv4_to_string octets
  | V6 _ =>
      let groups l := join (lit ":") (lower_hex <$> l) in
      let zeros := longest_zeros 0 (mkSpan 0 0) (mkSpan 0 0) segments in
      if Nat.ltb 1 (span_len zeros)
      then groups (take (span_start zeros) segments) ++ lit "::" ++
             groups (drop (span_start zeros + span_len zeros) segments)
      else groups segments
  end.

(** [IpAddr::to_string]. *)
Definition ip_to_string (a : IpAddr) : str :=
  match a with V4 octets => ipv4_to_string octets | V6 segments => ipv6_to_string segments end.

(** ** Facts *)

Lemma to_canonical_idem a : to_canonical (to_canonical a) = to_canonical a.
Proof.
  destruct a as [o|[|s0 [|s1 [|s2 [|s3 [|s4 [|s5 [|ab [|cd [|]]]]]]]]]]; try done.
  cbn [to_canonical]. destruct (_ && _) eqn:E; [done|]. cbn [to_canonical]. by rewrite E.
Qed.

Example ip_texts :
  parse_ip (lit "10.1.0.255") = Some (V4 [10; 1; 0; 255]) /\
  parse_ip (lit "10.01.0.255") = None /\ parse_ip (lit "10.1.0.256") = None /\
  parse_ip (lit "::") = Some (V6 [0; 0; 0; 0; 0; 0; 0; 0]) /\
  parse_ip (lit "2001:DB8::1") = Some (V6 [8193; 3512; 0; 0; 0; 0; 0; 1]) /\
  parse_ip (lit "::ffff:10.0.0.1") = Some (V6 [0; 0; 0; 0; 0; 65535; 2560; 1]) /\
  parse_ip (lit "1:2:3:4:5:6:7::") = Some (V6 [1; 2; 3; 4; 5; 6; 7; 0]) /\
  parse_ip (lit "1:2:3:4:5:6:7:8::") = None /\ parse_ip (lit "1::2::3") = None /\
  parse_ip (lit "[::1]") = None /\ parse_ip (lit "12345::") = None.
Proof. by vm_compute. Qed.

(** The text of an address is read back, on every shape of an IPv6 one. *)
Example ip_text_roundtrips :
  let roundtrip t := ip_to_string <$> parse_ip (lit t) = Some (lit t) in
  roundtrip "10.1.0.255" /\ roundtrip "::" /\ roundtrip "::1" /\ roundtrip "1::" /\
  roundtrip "2001:db8::8:800:200c:417a" /\ roundtrip "1:0:0:2::3" /\
  roundtrip "1:0:2:3:4:5:6:7" /\ roundtrip "::ffff:10.0.0.1" /\ roundtrip "2001:db8::1:0:0:1".
Proof. by vm_compute. Qed.

Lemma read_groups_length more index s : (length (read_groups more index s).1.1 <= more)%nat.
Proof.
  revert index s. induction more as [|more IH]; intros index s; [done|].
  cbn [read_groups]. destruct (read_embedded_ipv4 (S more) index s) as [[[g g'] r]|] eqn:E.
  - destruct more; [done|]. simpl. lia.
  - destruct (read_separator _ _ _ s) as [[g r]|]; [|simpl; lia].
    specialize (IH (S index) r). destruct (read_groups more (S index) r) as [[gs v4] r'].
    simpl in *. lia.
Qed.

(** An IPv6 address read has its eight groups. *)
Lemma parse_ipv6_length s g : parse_ipv6 s = Some g -> length g = 8%nat.
Proof.
  unfold parse_ipv6, parse_with, read_ipv6_addr.
  destruct (read_groups 8 0 s) as [[head v4] r] eqn:E.
  pose proof (read_groups_length 8 0 s) as Hl. rewrite E in Hl. simpl in Hl.
  destruct (Nat.eqb (length head) 8) eqn:E8.
  { destruct r; [|done]. intros [= <-]. by apply Nat.eqb_eq. }
  apply Nat.eqb_neq in E8. destruct v4; [done|].
  destruct (read_given_char _ r) as [[_ r1]|]; [|done].
  destruct (read_given_char _ r1) as [[_ r2]|]; [|done].
  pose proof (read_groups_length (8 - (length head + 1)) 0 r2) as Ht.
  destruct (read_groups _ 0 r2) as [[tail v4'] [|c r3]]; [|done]. simpl in Ht.
  intros [= <-]. rewrite !length_app, length_replicate. lia.
Qed.

(** ** The characters of an address *)

Lemma hex_char_visible n : 48 <= byte_val (hex_char (n mod 16)) <= 102.
Proof.
  unfold hex_char, byte_val. pose proof (Z.mod_pos_bound n 16 ltac:(lia)).
  rewrite N_ascii_embedding by (case_if; lia). case_if; lia.
Qed.

Section Texts.
Context (P : ascii -> Prop).
Hypothesis visible : forall c, 48 <= byte_val c <= 102 -> P c.
Hypothesis dot : P "."%char.

Lemma join_all sep pieces : Forall P sep -> Forall (Forall P) pieces -> Forall P (join sep pieces).
Proof using Type.
  intros Hs. induction pieces as [|p [|q ps] IH]; intros Hp; inversion_clear Hp; [done..|].
  change (Forall P (p ++ sep ++ join sep (q :: ps))). apply Forall_app; split; [done|].
  apply Forall_app; split; [done|]. by apply IH.
Qed.

Lemma lower_hex_all n : Forall P (lower_hex n).
Proof using visible.
  assert (H : forall fuel n rest, Forall P rest -> Forall P (hex_digits fuel n rest)).
  { induction fuel as [|fuel IH]; intros m rest Hr; [done|].
    assert (Forall P (hex_char (m mod 16) :: rest)).
    { constructor; [|done]. apply visible, hex_char_visible. }
    cbn [hex_digits]. case_if; [done|]. by apply IH. }
  by apply H.
Qed.

Lemma decimal_all n : Forall P (decimal n).
Proof using visible.
  eapply Forall_impl; [apply decimal_digits|]. intros c Hc. apply visible.
  unfold is_ascii_digit in Hc. bool_facts. lia.
Qed.

Lemma ipv4_all octets : Forall P (ipv4_to_string octets).
Proof using All.
  apply join_all; [by repeat constructor|]. apply Forall_fmap, Forall_true, decimal_all.
Qed.

Lemma ip_to_string_all a : Forall P (ip_to_string a).
Proof using All.
  assert (Hc : P ":"%char) by (apply visible; by vm_compute).
  assert (Hf : P "f"%char) by (apply visible; by vm_compute).
  assert (Hg : forall l, Forall P (join (lit ":") (lower_hex <$> l))).
  { intros l. apply join_all; [by repeat constructor|]. apply Forall_fmap, Forall_true, lower_hex_all. }
  destruct a as [o|g]; [apply ipv4_all|]. cbn [ip_to_string]. unfold ipv6_to_string.
  destruct (to_canonical (V6 g)) as [o|_].
  { apply Forall_app; split; [by repeat constructor|apply ipv4_all]. }
  cbv zeta. destruct (Nat.ltb _ _); [|apply Hg].
  apply Forall_app; split; [apply Hg|]. apply Forall_app; split; [by repeat constructor|apply Hg].
Qed.
End Texts.
