(* ===== verification/IpText.v ===== *)
(** * The text of an address, read back

    [std::net]'s readers and writers are in [Net]; here, that what one
    writes the other reads: for every IP address, and for every socket
    address, with its reader and writer. *)

From S2P Require Import Prelude Str Net.
From Stdlib Require Import Ascii.

(** ** Socket addresses *)

(** [SocketAddr::to_string]. [SocketAddr] leaves out the scope of an IPv6
    address, which is zero unless the address is written with one; it is an
    argument here. *)
Definition scope_to_string (scope : Z) : str :=
  if scope =? 0 then [] else lit "%" ++ decimal scope.

Definition socket_addr_to_string (a : SocketAddr) (scope : Z) : str :=
  match sa_ip a with
  | V4 _ => ip_to_string (sa_ip a) ++ lit ":" ++ decimal (sa_port a)
  | V6 _ => lit "[" ++ ip_to_string (sa_ip a) ++ scope_to_string scope ++ lit "]:" ++ decimal (sa_port a)
  end.

(** [read_number] with no limit on the digits. *)
Definition read_any_number (max : Z) : Reader Z := fun s =>
  read_number 10 (Z.of_nat (length s)) true max s.

Definition read_port : Reader Z := fun s =>
  match read_given_char ":"%char s with Some (_, s) => read_any_number u16_max s | None => None end.

Definition read_scope_id : Reader Z := fun s =>
  match read_given_char "%"%char s with Some (_, s) => read_any_number u32_max s | None => None end.

(** A socket address, and the scope of an IPv6 one. *)
Definition read_socket_addr_v4 : Reader (SocketAddr * Z) := fun s =>
  match read_ipv4_addr s with
  | None => None
  | Some (o, s) =>
      match read_port s with Some (p, s) => Some (mkSocketAddr (V4 o) p, 0, s) | None => None end
  end.

Definition read_socket_addr_v6 : Reader (SocketAddr * Z) := fun s =>
  match read_given_char "["%char s with
  | None => None
  | Some (_, s) =>
      match read_ipv6_addr s with
      | None => None
      | Some (g, s) =>
          let '(scope, s) := match read_scope_id s with Some (z, s) => (z, s) | None => (0, s) end in
          match read_given_char "]"%char s with
          | None => None
          | Some (_, s) =>
              match read_port s with
              | Some (p, s) => Some (mkSocketAddr (V6 g) p, scope, s)
              | None => None
              end
          end
      end
  end.

Definition parse_socket_addr (s : str) : option (SocketAddr * Z) :=
  parse_with (fun s =>
    match read_socket_addr_v4 s with Some r => Some r | None => read_socket_addr_v6 s end) s.

(** Addresses as [std::net] has them. *)
Definition ip_wf (a : IpAddr) : Prop :=
  match a with
  | V4 o => length o = 4%nat /\ Forall (fun b => 0 <= b <= u8_max) o
  | V6 g => length g = 8%nat /\ Forall (fun w => 0 <= w <= u16_max) g
  end.

Definition socket_addr_wf (a : SocketAddr) (scope : Z) : Prop :=
  ip_wf (sa_ip a) /\ 0 <= sa_port a <= u16_max /\
  match sa_ip a with V4 _ => scope = 0 | V6 _ => 0 <= scope <= u32_max end.

(** ** Numbers *)

(** The string does not go on with a digit. *)
Definition stops (radix : Z) (s : str) : Prop :=
  match s with [] => True | c :: _ => to_digit radix c = None end.

Lemma read_digits_stop radix m acc count s :
  stops radix s -> read_digits radix m acc count s = Some (acc, count, s).
Proof. destruct s as [|c s]; [done|]. simpl. by intros ->. Qed.

Section Digits.
Context (radix : Z) (ch : Z -> ascii) (f : nat -> Z -> str -> str).
Hypothesis Hradix : 1 < radix.
Hypothesis Hch : forall d, 0 <= d < radix -> to_digit radix (ch d) = Some d.
Hypothesis Hzero : forall d, 0 < d < radix -> ch d <> "0"%char.
Hypothesis Hf : forall k n rest,
  f (S k) n rest = if n <? radix then ch (n mod radix) :: rest else f k (n / radix) (ch (n mod radix) :: rest).

Lemma quot_bounds n k : radix <= n < radix ^ Z.of_nat (S k) -> 0 < n / radix < radix ^ Z.of_nat k.
Proof using Hradix.
  intros [Hl Hu]. rewrite Nat2Z.inj_succ, Z.pow_succ_r in Hu by lia. split.
  - apply Z.div_str_pos. lia.
  - apply Z.div_lt_upper_bound; lia.
Qed.

(** The digits of [n] are read back, however many there are. *)
Lemma digits_read k n rest :
  0 <= n < radix ^ Z.of_nat k -> (0 < k)%nat ->
  exists j : nat, (0 < j <= k)%nat /\
    (forall m acc count, count + Z.of_nat j <= m ->
       read_digits radix m acc count (f k n rest) =
       read_digits radix m (acc * radix ^ Z.of_nat j + n) (count + Z.of_nat j) rest) /\
    (0 < n -> exists d s, 0 < d < radix /\ f k n rest = ch d :: s) /\
    (n = 0 -> j = 1%nat) /\ length (f k n rest) = (j + length rest)%nat.
Proof using All.
  revert n rest. induction k as [|k IH]; intros n rest Hn Hk; [lia|]. rewrite Hf.
  pose proof (Z.mod_pos_bound n radix ltac:(lia)) as Hmod. destruct (n <? radix) eqn:E; bool_facts.
  - exists 1%nat. split; [lia|]. rewrite Z.mod_small by lia. split_and!; [|intros; eauto|done..].
    intros m acc count Hm. simpl. rewrite Hch by lia.
    rewrite (proj2 (Z.ltb_ge _ _)) by lia. f_equal; lia.
  - pose proof (quot_bounds n k ltac:(lia)) as Hq. destruct k as [|k]; [simpl in Hq; lia|].
    destruct (IH (n / radix) (ch (n mod radix) :: rest) ltac:(lia) ltac:(lia)) as (j & Hj & Hr & Hd & _ & Hl).
    exists (S j). split_and!; [lia|lia| |intros _; apply Hd; lia|lia|rewrite Hl; simpl; lia].
    intros m acc count Hm. rewrite Hr by lia. simpl. rewrite Hch, (proj2 (Z.ltb_ge _ _)) by lia.
    f_equal; [|lia]. change (Z.pos (Pos.of_succ_nat j)) with (Z.of_nat (S j)).
    rewrite Nat2Z.inj_succ, Z.pow_succ_r by lia. pose proof (Z.div_mod n radix ltac:(lia)). nia.
Qed.

(** More fuel than digits changes nothing. *)
Lemma digits_fuel k k' n rest :
  0 <= n < radix ^ Z.of_nat k -> (0 < k <= k')%nat -> f k' n rest = f k n rest.
Proof using Hradix Hf.
  revert k' n rest. induction k as [|k IH]; intros k' n rest Hn Hk; [lia|].
  destruct k' as [|k']; [lia|]. rewrite !Hf. destruct (n <? radix) eqn:E; [done|]. bool_facts.
  pose proof (quot_bounds n k ltac:(lia)) as Hq.
  destruct k as [|k]; [simpl in Hq; lia|]. apply IH; lia.
Qed.

Lemma number_read k k' m zero_prefix max n rest :
  0 <= n <= max -> n < radix ^ Z.of_nat k -> (0 < k <= k')%nat ->
  Z.of_nat k <= m \/ m = Z.of_nat (length (f k' n rest)) ->
  stops radix rest -> read_number radix m zero_prefix max (f k' n rest) = Some (n, rest).
Proof using All.
  intros Hn Hlt Hk Hm Hs. rewrite (digits_fuel k k') in * by lia.
  destruct (digits_read k n rest ltac:(lia) ltac:(lia)) as (j & Hj & Hr & Hd & H0 & Hl).
  unfold read_number. rewrite Hr, (read_digits_stop _ _ _ _ _ Hs) by lia.
  rewrite (proj2 (Z.eqb_neq _ _)) by lia.
  assert (Hz : negb zero_prefix &&
    (match f k n rest with "0"%char :: _ => true | _ => false end) && (1 <? 0 + Z.of_nat j) = false).
  { destruct (Z.eq_dec n 0) as [E|E].
    - rewrite (H0 E). simpl. by rewrite andb_false_r.
    - destruct (Hd ltac:(lia)) as (d & s & Hdd & Hc). rewrite Hc. specialize (Hzero d Hdd).
      destruct zero_prefix; [done|]. simpl.
      destruct (ch d) as [[] [] [] [] [] [] [] []]; simpl; done. }
  rewrite Hz. rewrite (proj2 (Z.ltb_ge _ _)) by lia. repeat f_equal; lia.
Qed.
End Digits.

Lemma digit_char_to_digit d : 0 <= d < 10 -> to_digit 10 (digit_char d) = Some d.
Proof.
  intros Hd. assert (H : forall k : nat, (k < 10)%nat ->
    to_digit 10 (digit_char (Z.of_nat k)) = Some (Z.of_nat k)).
  { intros k Hk. do 10 (destruct k as [|k]; [done|]). lia. }
  specialize (H (Z.to_nat d)). rewrite Z2Nat.id in H by lia. apply H. lia.
Qed.

Lemma hex_char_to_digit d : 0 <= d < 16 -> to_digit 16 (hex_char d) = Some d.
Proof.
  intros Hd. assert (H : forall k : nat, (k < 16)%nat -> to_digit 16 (hex_char (Z.of_nat k)) = Some (Z.of_nat k)).
  { intros k Hk. do 16 (destruct k as [|k]; [done|]). lia. }
  specialize (H (Z.to_nat d)). rewrite Z2Nat.id in H by lia. apply H. lia.
Qed.

Lemma digit_char_nonzero d : 0 < d < 10 -> digit_char d <> "0"%char.
Proof.
  intros Hd E. pose proof (digit_char_to_digit d ltac:(lia)) as H. rewrite E in H. change (Some 0 = Some d) in H. simplify_eq. lia.
Qed.

Lemma hex_char_nonzero d : 0 < d < 16 -> hex_char d <> "0"%char.
Proof.
  intros Hd E. pose proof (hex_char_to_digit d ltac:(lia)) as H. rewrite E in H. change (Some 0 = Some d) in H. simplify_eq. lia.
Qed.

(** Digits are followed by what follows them. *)
Lemma digits_of_app k n rest : digits_of k n rest = digits_of k n [] ++ rest.
Proof.
  revert n rest. induction k as [|k IH]; intros n rest; [done|]. cbn [digits_of].
  case_if; [done|]. rewrite IH, (IH _ [_]), <-app_assoc. done.
Qed.

Lemma hex_digits_app k n rest : hex_digits k n rest = hex_digits k n [] ++ rest.
Proof.
  revert n rest. induction k as [|k IH]; intros n rest; [done|]. cbn [hex_digits].
  case_if; [done|]. rewrite IH, (IH _ [_]), <-app_assoc. done.
Qed.

Definition decimal_read :=
  number_read 10 digit_char digits_of eq_refl digit_char_to_digit digit_char_nonzero
    (fun _ _ _ => eq_refl).
Definition hex_read :=
  number_read 16 hex_char hex_digits eq_refl hex_char_to_digit hex_char_nonzero (fun _ _ _ => eq_refl).

Lemma read_octet n rest :
  0 <= n <= u8_max -> stops 10 rest ->
  read_number 10 3 false u8_max (decimal n ++ rest) = Some (n, rest).
Proof.
  intros Hn Hs. unfold decimal. rewrite <-digits_of_app.
  apply (decimal_read 3); [done|unfold u8_max in Hn; lia|lia|by left|done].
Qed.

Lemma read_group n rest :
  0 <= n <= u16_max -> stops 16 rest ->
  read_number 16 4 true u16_max (lower_hex n ++ rest) = Some (n, rest).
Proof.
  intros Hn Hs. unfold lower_hex. rewrite <-hex_digits_app.
  apply (hex_read 4); [done|unfold u16_max in Hn; lia|lia|by left|done].
Qed.

Lemma read_given_lit c s : read_given_char c (c :: s) = Some ((), s).
Proof. unfold read_given_char. by rewrite bool_decide_true. Qed.

Lemma read_any_decimal max n rest :
  0 <= n <= max -> max < 10 ^ 40 -> stops 10 rest ->
  read_any_number max (decimal n ++ rest) = Some (n, rest).
Proof.
  intros Hn Hmax Hs. unfold read_any_number, decimal. rewrite <-digits_of_app.
  apply (decimal_read 40); [done|lia|lia|by right|done].
Qed.

Lemma read_port_decimal n rest :
  0 <= n <= u16_max -> stops 10 rest -> read_port (lit ":" ++ decimal n ++ rest) = Some (n, rest).
Proof.
  intros Hn Hs. unfold read_port.
  change (lit ":" ++ decimal n ++ rest) with (":"%char :: (decimal n ++ rest)).
  rewrite read_given_lit. by apply read_any_decimal.
Qed.

(** A scope is read back before the bracket; none is none. *)
Lemma read_scope_text scope rest :
  0 <= scope <= u32_max ->
  (match read_scope_id (scope_to_string scope ++ "]"%char :: rest) with
   | Some (z, s) => (z, s)
   | None => (0, scope_to_string scope ++ "]"%char :: rest)
   end) = (scope, "]"%char :: rest).
Proof.
  intros Hs. unfold scope_to_string. case_if; [by subst|]. unfold read_scope_id.
  rewrite <-app_assoc.
  change (lit "%" ++ decimal scope ++ "]"%char :: rest) with ("%"%char :: (decimal scope ++ "]"%char :: rest)).
  by rewrite read_given_lit, read_any_decimal.
Qed.

(** ** IPv4 *)

Lemma ipv4_read a b c d rest :
  Forall (fun o => 0 <= o <= u8_max) [a; b; c; d] -> stops 10 rest ->
  read_ipv4_addr (ipv4_to_string [a; b; c; d] ++ rest) = Some ([a; b; c; d], rest).
Proof.
  intros Hf Hs. repeat (apply Forall_cons in Hf as [? Hf]).
  unfold ipv4_to_string, read_ipv4_addr. cbn [fmap list_fmap join].
  rewrite <-!app_assoc. change (lit ".") with ["."%char]. cbn [app].
  cbn [read_octets read_separator].
  rewrite read_octet, read_given_lit, read_octet, read_given_lit, read_octet, read_given_lit, read_octet
    by done. done.
Qed.

(** A string without a dot is no IPv4 address. *)
Lemma read_digits_suffix radix m acc count s n k rest :
  read_digits radix m acc count s = Some (n, k, rest) -> exists p, s = p ++ rest.
Proof.
  revert acc count. induction s as [|c s IH]; intros acc count; simpl; [intros [= _ _ <-]; by exists []|].
  destruct (to_digit radix c); [|intros [= _ _ <-]; by exists []].
  case_if; [done|]. intros (p & ->)%IH. by exists (c :: p).
Qed.

Lemma read_ipv4_undotted s : "."%char ∉ s -> read_ipv4_addr s = None.
Proof.
  intros Hs. unfold read_ipv4_addr. cbn [read_octets read_separator].
  destruct (read_number 10 3 false u8_max s) as [[o r]|] eqn:E; [|done].
  assert (Hr : read_given_char "."%char r = None).
  { unfold read_number in E. destruct (read_digits _ _ _ _ s) as [[[n k] r']|] eqn:Ed; [|done].
    apply read_digits_suffix in Ed as [p ->].
    assert (r = r') as -> by (repeat (case_if; [done|]); by simplify_eq).
    destruct r' as [|c r']; [done|]. simpl. rewrite bool_decide_false; [done|]. set_solver. }
  by rewrite Hr.
Qed.

(** ** IPv6 *)

(** Groups from the [index]th on, each after the first with its colon. *)
Fixpoint group_text (index : nat) (l : list Z) : str :=
  match l with
  | [] => []
  | g :: l =>
      (match index with O => [] | S _ => [":"%char] end) ++ lower_hex g ++ group_text (S index) l
  end.

Lemma group_text_index l i j : group_text (S i) l = group_text (S j) l.
Proof. revert i j. induction l as [|g l IH]; intros i j; simpl; [done|]. by rewrite (IH (S i) (S j)). Qed.

Lemma group_text_join l : join (lit ":") (lower_hex <$> l) = group_text 0 l.
Proof.
  assert (H : forall g l, join (lit ":") (lower_hex <$> g :: l) = lower_hex g ++ group_text 1 l).
  { intros g l'. revert g. induction l' as [|h l' IH]; intros g; [by rewrite app_nil_r|].
    change (join (lit ":") (lower_hex <$> g :: h :: l'))
      with (lower_hex g ++ lit ":" ++ join (lit ":") (lower_hex <$> h :: l')).
    rewrite IH. f_equal. cbn [group_text]. do 2 f_equal. apply group_text_index. }
  destruct l as [|g l]; [done|]. by rewrite H.
Qed.

Lemma group_text_undotted index l : "."%char ∉ group_text index l.
Proof.
  assert (H : forall n, "."%char ∉ lower_hex n).
  { intros n Hin. assert (Forall (fun c => c <> "."%char) (lower_hex n)) as F.
    { apply lower_hex_all. intros c Hc ->. by destruct Hc as [Hc _]. }
    rewrite Forall_forall in F. by apply (F _ Hin). }
  revert index. induction l as [|g l IH]; intros index; simpl; [set_solver|].
  specialize (IH (S index)). specialize (H g). destruct index; set_solver.
Qed.

(** Where the groups stop: at the end, at [::] or at what is no group. *)
Definition ends (s : str) : Prop :=
  stops 16 s /\
  match s with
  | c :: s => c = ":"%char -> match s with d :: _ => d = ":"%char | [] => False end
  | [] => True
  end.

Lemma read_number_stop radix m z max s : stops radix s -> read_number radix m z max s = None.
Proof. intros Hs. unfold read_number. by rewrite (read_digits_stop _ _ _ _ _ Hs). Qed.

Lemma read_embedded_undotted more index s :
  "."%char ∉ s -> read_embedded_ipv4 more index s = None.
Proof.
  intros Hs. unfold read_embedded_ipv4, read_separator. destruct more as [|[|more]]; [done..|].
  destruct index; [by rewrite read_ipv4_undotted|].
  destruct s as [|c s]; [done|]. simpl. case_bool_decide; [|done].
  rewrite read_ipv4_undotted; [done|]. set_solver.
Qed.

Lemma read_groups_end more index s :
  ends s -> "."%char ∉ s -> read_groups more index s = ([], false, s).
Proof.
  intros [Hs He] Hd. destruct more as [|more]; [done|]. cbn [read_groups].
  rewrite (read_embedded_undotted _ _ _ Hd). unfold read_separator.
  destruct index; [by rewrite read_number_stop|].
  destruct s as [|c s]; [done|]. cbn [read_given_char]. case_bool_decide as E; [|done]. subst c.
  specialize (He eq_refl). destruct s as [|c s]; [done|]. subst c. by rewrite read_number_stop.
Qed.

Lemma read_groups_text l more index rest :
  (length l <= more)%nat -> Forall (fun w => 0 <= w <= u16_max) l -> ends rest -> "."%char ∉ rest ->
  read_groups more index (group_text index l ++ rest) = (l, false, rest).
Proof.
  revert more index. induction l as [|g l IH]; intros more index Hl Hf He Hd.
  { by apply read_groups_end. }
  apply Forall_cons in Hf as [Hg Hf]. destruct more as [|more]; simpl in Hl; [lia|].
  cbn [read_groups].
  rewrite read_embedded_undotted.
  2: { apply not_elem_of_app. split; [apply group_text_undotted|done]. }
  assert (Hn : stops 16 (group_text (S index) l ++ rest)) by (destruct l; [apply He|done]).
  assert (Hr : read_separator ":"%char index (read_number 16 4 true u16_max)
    (group_text index (g :: l) ++ rest) = Some (g, group_text (S index) l ++ rest)).
  { cbn [group_text]. rewrite <-!app_assoc. destruct index; cbn [read_separator app].
    - by apply read_group.
    - rewrite read_given_lit. by apply read_group. }
  rewrite Hr, IH by (done || lia). done.
Qed.

(** The run of zeros that is left out is a run of zeros. *)
Definition zero_run (l : list Z) (s : Span) : Prop :=
  (span_start s + span_len s <= length l)%nat /\
  forall i, (span_start s <= i < span_start s + span_len s)%nat -> l !! i = Some 0.

Lemma longest_zeros_run pre segments longest current :
  zero_run (pre ++ segments) longest -> zero_run pre current ->
  (span_len current <> 0%nat -> (span_start current + span_len current = length pre)%nat) ->
  zero_run (pre ++ segments) (longest_zeros (length pre) longest current segments).
Proof.
  revert pre longest current. induction segments as [|g segments IH]; intros pre longest current Hl Hc Ha;
    [done|]. cbn [longest_zeros].
  replace (pre ++ g :: segments) with ((pre ++ [g]) ++ segments) in * by (by rewrite <-app_assoc).
  replace (S (length pre)) with (length (pre ++ [g])) by (rewrite length_app; simpl; lia).
  destruct (Z.eqb_spec g 0) as [->|Hg].
  2: { apply IH; [done| |done]. split; simpl; [lia|lia]. }
  set (start := if Nat.eqb (span_len current) 0 then length pre else span_start current).
  assert (Hcur : zero_run (pre ++ [0]) (mkSpan start (S (span_len current))) /\
                 (start + S (span_len current) = length (pre ++ [0%Z]))%nat).
  { rewrite length_app. simpl. destruct Hc as [Hc1 Hc2]. unfold start, zero_run. simpl.
    rewrite length_app. simpl.
    destruct (Nat.eqb_spec (span_len current) 0) as [E|E]; [rewrite E in *|specialize (Ha E)].
    - split_and!; [lia| |lia]. intros i Hi. rewrite lookup_app_r by lia.
      by replace (i - length pre)%nat with 0%nat by lia.
    - split_and!; [lia| |lia]. intros i Hi. destruct (decide (i < length pre)%nat).
      + rewrite lookup_app_l by done. apply Hc2. lia.
      + rewrite lookup_app_r by lia. by replace (i - length pre)%nat with 0%nat by lia. }
  destruct Hcur as [Hcur Hend]. apply IH; [|done|done].
  destruct (Nat.ltb _ _); [|done]. destruct Hcur as [Hc1 Hc2]. split.
  - rewrite length_app. simpl in *. lia.
  - intros i Hi. specialize (Hc2 i Hi). rewrite lookup_app_l; [done|]. by apply lookup_lt_Some in Hc2.
Qed.

Lemma zero_run_split l s :
  zero_run l s ->
  l = take (span_start s) l ++ replicate (span_len s) 0 ++ drop (span_start s + span_len s) l.
Proof.
  intros [Hl Hz]. rewrite <-(take_drop (span_start s) l) at 1. f_equal.
  rewrite <-(take_drop (span_len s) (drop (span_start s) l)) at 1. rewrite drop_drop. f_equal.
  apply list_eq. intros i. destruct (decide (i < span_len s)%nat) as [Hi|Hi].
  - rewrite lookup_take_lt, lookup_drop, lookup_replicate_2 by done. apply Hz. lia.
  - rewrite (lookup_ge_None_2 (take _ _)), (lookup_ge_None_2 (replicate _ _)); [done| |];
      rewrite ?length_replicate, ?length_take; lia.
Qed.

(** What may follow an address: no digit and no colon. *)
Definition after_address (s : str) : Prop :=
  match s with [] => True | c :: _ => to_digit 16 c = None /\ c <> ":"%char end /\ "."%char ∉ s.

Lemma after_address_ends s : after_address s -> ends s.
Proof. intros [H _]. destruct s as [|c s]; [done|]. destruct H as [H1 H2]. by split. Qed.

Lemma after_address_stops s : after_address s -> stops 10 s.
Proof.
  intros [H _]. destruct s as [|c s]; [done|]. destruct H as [H1 _]. revert H1. simpl. unfold to_digit.
  repeat case_match; bool_facts; intros; done || lia.
Qed.

(** An address with a run of zeros left out. *)
Lemma compressed_read head tail rest :
  (length head + length tail < 8)%nat -> Forall (fun w => 0 <= w <= u16_max) (head ++ tail) ->
  after_address rest ->
  read_ipv6_addr (group_text 0 head ++ lit "::" ++ group_text 0 tail ++ rest) =
    Some (head ++ replicate (8 - length head - length tail) 0 ++ tail, rest).
Proof.
  intros Hl [Hh Ht]%Forall_app Hr. unfold read_ipv6_addr.
  rewrite read_groups_text; [|lia|done|by split|].
  2: { assert (Hd : "."%char ∉ group_text 0 tail ++ rest).
       { apply not_elem_of_app. split; [apply group_text_undotted|apply Hr]. }
       set_solver. }
  rewrite (proj2 (Nat.eqb_neq _ _)) by lia. cbn [app lit].
  change (lit "::" ++ group_text 0 tail ++ rest)
    with (":"%char :: ":"%char :: (group_text 0 tail ++ rest)).
  rewrite !read_given_lit, read_groups_text; [done|lia|done|by apply after_address_ends|apply Hr].
Qed.

Lemma mapped_read a b c d rest :
  Forall (fun o => 0 <= o <= u8_max) [a; b; c; d] -> after_address rest ->
  read_ipv6_addr (lit "::ffff:" ++ ipv4_to_string [a; b; c; d] ++ rest) =
    Some ([0; 0; 0; 0; 0; 65535; a * 256 + b; c * 256 + d], rest).
Proof.
  intros Hf Hr. set (t := ipv4_to_string [a; b; c; d] ++ rest).
  assert (Ht : read_ipv4_addr t = Some ([a; b; c; d], rest))
    by (apply ipv4_read; [done|by apply after_address_stops]).
  change (lit "::ffff:" ++ t) with (":"%char :: ":"%char :: (lit "ffff" ++ ":"%char :: t)).
  generalize dependent t. intros t Ht. unfold read_ipv6_addr.
  change (read_groups 8 0 (":"%char :: ":"%char :: (lit "ffff" ++ ":"%char :: t)))
    with ([] : list Z, false, ":"%char :: ":"%char :: (lit "ffff" ++ ":"%char :: t)).
  cbn [length Nat.eqb]. rewrite !read_given_lit. cbn [length Nat.sub Nat.add].
  assert (Hg : read_groups 7 0 (lit "ffff" ++ ":"%char :: t) =
    ([65535; a * 256 + b; c * 256 + d], true, rest)).
  { change (read_groups 7 0 (lit "ffff" ++ ":"%char :: t))
      with (let '(gs, v4, s) := read_groups 6 1 (":"%char :: t) in (65535 :: gs, v4, s)).
    assert (He : read_embedded_ipv4 6 1 (":"%char :: t) = Some (a * 256 + b, c * 256 + d, rest)).
    { unfold read_embedded_ipv4, read_separator. by rewrite read_given_lit, Ht. }
    assert (read_groups 6 1 (":"%char :: t) = ([a * 256 + b; c * 256 + d], true, rest)) as ->; [|done].
    change (read_groups 6 1 (":"%char :: t)) with
      (match read_embedded_ipv4 6 1 (":"%char :: t) with
       | Some (g, g', s) => ([g; g'], true, s)
       | None =>
           match read_separator ":"%char 1 (read_number 16 4 true u16_max) (":"%char :: t) with
           | None => ([], false, ":"%char :: t)
           | Some (g, s) => let '(gs, v4, s) := read_groups 5 2 s in (g :: gs, v4, s)
           end
       end). by rewrite He. }
  rewrite Hg. done.
Qed.

Lemma to_canonical_cases g :
  length g = 8%nat -> Forall (fun w => 0 <= w <= u16_max) g ->
  (exists a b c d, to_canonical (V6 g) = V4 [a; b; c; d] /\
     Forall (fun o => 0 <= o <= u8_max) [a; b; c; d] /\
     g = [0; 0; 0; 0; 0; 65535; a * 256 + b; c * 256 + d]) \/
  to_canonical (V6 g) = V6 g.
Proof.
  intros Hl Hf. destruct g as [|s0 [|s1 [|s2 [|s3 [|s4 [|s5 [|ab [|cd [|]]]]]]]]]; try done.
  cbn [to_canonical forallb]. destruct (_ && _) eqn:E; [left|by right]. bool_facts. subst.
  do 6 (apply Forall_cons in Hf as [_ Hf]).
  apply Forall_cons in Hf as [Hab Hf]. apply Forall_cons in Hf as [Hcd _].
  assert (Hsplit : forall w, 0 <= w <= u16_max ->
    0 <= w / 256 <= u8_max /\ 0 <= w mod 256 <= u8_max /\ w = w / 256 * 256 + w mod 256).
  { intros w Hw. unfold u8_max, u16_max in *. pose proof (Z.mod_pos_bound w 256 ltac:(lia)).
    pose proof (Z.div_mod w 256 ltac:(lia)). pose proof (Z.div_pos w 256 ltac:(lia) ltac:(lia)).
    assert (w / 256 < 256) by (apply Z.div_lt_upper_bound; lia). lia. }
  destruct (Hsplit ab Hab) as (? & ? & Eab), (Hsplit cd Hcd) as (? & ? & Ecd).
  exists (ab / 256), (ab mod 256), (cd / 256), (cd mod 256).
  split_and!; [done|by rewrite !Forall_cons|]. rewrite <-Eab, <-Ecd.
  repeat (f_equal; [lia|]). done.
Qed.

Lemma ipv6_read g rest :
  length g = 8%nat -> Forall (fun w => 0 <= w <= u16_max) g -> after_address rest ->
  read_ipv6_addr (ipv6_to_string g ++ rest) = Some (g, rest).
Proof.
  intros Hl Hf Hr. unfold ipv6_to_string.
  destruct (to_canonical_cases g Hl Hf) as [(a & b & c & d & -> & Hb & ->)|E].
  { rewrite <-app_assoc. by apply mapped_read. }
  rewrite E. set (zeros := longest_zeros 0 (mkSpan 0 0) (mkSpan 0 0) g). cbv zeta.
  assert (Hz : zero_run g zeros) by (apply (longest_zeros_run []); [by split; simpl; lia..|done]).
  destruct (Nat.ltb 1 (span_len zeros)) eqn:Hlen; rewrite !group_text_join.
  - apply Nat.ltb_lt in Hlen. destruct Hz as [Hz1 Hz2]. pose proof (zero_run_split g zeros (conj Hz1 Hz2)) as Hg.
    rewrite <-!app_assoc, compressed_read.
    + rewrite length_take, length_drop.
      replace (8 - _ - _)%nat with (span_len zeros) by lia. by rewrite <-Hg.
    + rewrite length_take, length_drop. lia.
    + apply Forall_app. split; [by apply Forall_take|by apply Forall_drop].
    + done.
  - unfold read_ipv6_addr. rewrite read_groups_text; [|lia|done|by apply after_address_ends|apply Hr].
    by rewrite Hl.
Qed.

(** ** The round trips *)

Lemma ipv6_undotted g :
  length g = 8%nat -> Forall (fun w => 0 <= w <= u16_max) g ->
  read_ipv4_addr (ipv6_to_string g) = None.
Proof.
  intros Hl Hf. unfold ipv6_to_string.
  destruct (to_canonical_cases g Hl Hf) as [(a & b & c & d & -> & _ & _)|E].
  { unfold read_ipv4_addr. cbn [read_octets read_separator]. by rewrite read_number_stop. }
  rewrite E. cbv zeta. apply read_ipv4_undotted. destruct (Nat.ltb _ _); rewrite !group_text_join.
  - rewrite !not_elem_of_app. split_and!; try apply group_text_undotted. set_solver.
  - apply group_text_undotted.
Qed.

Lemma parse_ip_to_string a : ip_wf a -> parse_ip (ip_to_string a) = Some a.
Proof.
  unfold parse_ip, parse_with. destruct a as [o|g]; intros [Hl Hf]; cbn [ip_to_string].
  - destruct o as [|a [|b [|c [|d [|]]]]]; try done.
    rewrite <-(app_nil_r (ipv4_to_string _)), ipv4_read by done. done.
  - rewrite ipv6_undotted by done. rewrite <-(app_nil_r (ipv6_to_string _)), ipv6_read; [done..|].
    split; [done|set_solver].
Qed.

Lemma decimal_undotted n : "."%char ∉ decimal n.
Proof.
  intros Hin. pose proof (decimal_digits n) as F. rewrite Forall_forall in F. by specialize (F _ Hin).
Qed.

Lemma parse_socket_addr_to_string a scope :
  socket_addr_wf a scope -> parse_socket_addr (socket_addr_to_string a scope) = Some (a, scope).
Proof.
  destruct a as [[o|g] p]; intros ([Hl Hf] & Hp & Hsc); simpl in Hl, Hf, Hp, Hsc;
    unfold parse_socket_addr, parse_with, socket_addr_to_string, read_socket_addr_v4, read_socket_addr_v6;
    cbn [sa_ip sa_port ip_to_string].
  - destruct o as [|a [|b [|c [|d [|]]]]]; try done. subst scope.
    rewrite ipv4_read by done. rewrite <-(app_nil_r (decimal p)), read_port_decimal by done. done.
  - change (lit "]:" ++ decimal p) with ("]"%char :: (lit ":" ++ decimal p)).
    set (r := scope_to_string scope ++ "]"%char :: (lit ":" ++ decimal p)).
    change (lit "[" ++ ipv6_to_string g ++ r) with ("["%char :: (ipv6_to_string g ++ r)).
    assert (read_ipv4_addr ("["%char :: (ipv6_to_string g ++ r)) = None) as ->.
    { unfold read_ipv4_addr. cbn [read_octets read_separator]. by rewrite read_number_stop. }
    rewrite read_given_lit, ipv6_read; [|done..|].
    2: { pose proof (decimal_undotted p). pose proof (decimal_undotted scope). subst r.
         unfold scope_to_string. split; [by case_if|]. rewrite not_elem_of_app. case_if; set_solver. }
    subst r. rewrite read_scope_text by done. cbv beta iota zeta.
    rewrite read_given_lit, <-(app_nil_r (decimal p)), read_port_decimal by done. done.
Qed.

Example socket_addr_texts :
  parse_socket_addr (lit "10.0.0.1:443") = Some (mkSocketAddr (V4 [10; 0; 0; 1]) 443, 0) /\
  parse_socket_addr (lit "[::1]:080") = Some (mkSocketAddr (V6 [0; 0; 0; 0; 0; 0; 0; 1]) 80, 0) /\
  parse_socket_addr (lit "[fe80::1%3]:1") = Some (mkSocketAddr (V6 [65152; 0; 0; 0; 0; 0; 0; 1]) 1, 3) /\
  parse_socket_addr (lit "::1:80") = None /\ parse_socket_addr (lit "10.0.0.1:65536") = None /\
  parse_socket_addr (lit "10.0.0.1") = None.
Proof. by vm_compute. Qed.
