(* ===== verification/Text.v ===== *)
(** * Lines and UTF-8: what the program uses of [str::lines],
    [String::from_utf8] and [from_utf8_lossy], [char::is_whitespace] *)

From S2P Require Import Prelude Str.
From Stdlib Require Import Ascii.

Definition line_feed : ascii := "010"%char.
Definition carriage_return : ascii := "013"%char.

(** [str::lines]: split at line feeds, a carriage return before one dropped
    with it; nothing after the last line feed is no line. *)
Definition strip_cr (line : str) : str := default line (strip_suffix [carriage_return] line).

Fixpoint lines_of (pieces : list str) : list str :=
  match pieces with
  | [] => []
  | [last] => if bool_decide (last = []) then [] else [last]
  | piece :: pieces => strip_cr piece :: lines_of pieces
  end.

Definition lines (s : str) : list str := lines_of (split_on line_feed s).

(** Whether a string of bytes is UTF-8. *)
Definition continues (c : ascii) : bool := (128 <=? byte_val c) && (byte_val c <? 192).
Definition byte_in (lo hi : Z) (c : ascii) : bool := (lo <=? byte_val c) && (byte_val c <=? hi).

Fixpoint is_utf8 (s : str) : bool :=
  match s with
  | [] => true
  | a :: s =>
      if byte_val a <? 128 then is_utf8 s
      else match s with
      | [] => false
      | b :: s =>
          if byte_in 194 223 a then continues b && is_utf8 s
          else match s with
          | [] => false
          | c :: s =>
              if ((byte_val a =? 224) && byte_in 160 191 b) || (byte_in 225 236 a && continues b) ||
                 ((byte_val a =? 237) && byte_in 128 159 b) || (byte_in 238 239 a && continues b)
              then continues c && is_utf8 s
              else match s with
              | [] => false
              | d :: s =>
                  if ((byte_val a =? 240) && byte_in 144 191 b) || (byte_in 241 243 a && continues b) ||
                     ((byte_val a =? 244) && byte_in 128 143 b)
                  then continues c && continues d && is_utf8 s
                  else false
              end
          end
      end
  end.

(** [String::from_utf8_lossy]: what is not UTF-8 becomes U+FFFD, one for each
    character that breaks off. [first_char] is whether the first character
    is whole, and the bytes of it there are. *)
Definition three_start (a b : ascii) : bool :=
  ((byte_val a =? 224) && byte_in 160 191 b) || (byte_in 225 236 a && continues b) ||
  ((byte_val a =? 237) && byte_in 128 159 b) || (byte_in 238 239 a && continues b).

Definition four_start (a b : ascii) : bool :=
  ((byte_val a =? 240) && byte_in 144 191 b) || (byte_in 241 243 a && continues b) ||
  ((byte_val a =? 244) && byte_in 128 143 b).

Definition first_char (s : str) : bool * nat :=
  match s with
  | [] => (true, 0%nat)
  | a :: s =>
      if byte_val a <? 128 then (true, 1%nat)
      else match s with
      | [] => (false, 1%nat)
      | b :: s =>
          if byte_in 194 223 a then (if continues b then (true, 2%nat) else (false, 1%nat))
          else if three_start a b then
            match s with c :: _ => if continues c then (true, 3%nat) else (false, 2%nat) | [] => (false, 2%nat) end
          else if four_start a b then
            match s with
            | c :: s =>
                if continues c then
                  match s with d :: _ => if continues d then (true, 4%nat) else (false, 3%nat) | [] => (false, 3%nat) end
                else (false, 2%nat)
            | [] => (false, 2%nat)
            end
          else (false, 1%nat)
      end
  end.

Definition replacement_char : str := ["239"; "191"; "189"]%char.

Fixpoint lossy (fuel : nat) (s : str) : str :=
  match fuel, s with
  | O, _ | _, [] => []
  | S fuel, _ =>
      let (whole, n) := first_char s in
      (if whole then take n s else replacement_char) ++ lossy fuel (drop n s)
  end.

Definition from_utf8_lossy (s : str) : str := lossy (length s) s.

(** [contains(char::is_whitespace)]. *)
Fixpoint has_white_space (s : str) : bool :=
  match strip_one white_space s with
  | Some _ => true
  | None => match s with [] => false | _ :: s => has_white_space s end
  end.

(** ** Facts *)

Lemma split_on_app c p s : c ∉ p -> split_on c (p ++ c :: s) = p :: split_on c s.
Proof.
  induction p as [|d p IH]; intros Hc; simpl.
  - by rewrite bool_decide_true.
  - apply not_elem_of_cons in Hc as [Hd Hp]. rewrite bool_decide_false, IH by done. done.
Qed.

Lemma split_on_nonempty c s : split_on c s <> [].
Proof. destruct s as [|d s]; simpl; [done|]. case_bool_decide; [done|]. by destruct (split_on c s). Qed.

(** Lines written one after the other, each ended, are read back. *)
Definition line_ok (l : str) : Prop := line_feed ∉ l /\ ends_with [carriage_return] l = false.

Lemma lines_cons l s : line_ok l -> lines (l ++ [line_feed] ++ s) = l :: lines s.
Proof.
  intros [Hn Hr]. unfold lines. simpl. rewrite split_on_app by done.
  pose proof (split_on_nonempty line_feed s). destruct (split_on line_feed s) as [|p ps]; [done|].
  change (lines_of (l :: p :: ps)) with (strip_cr l :: lines_of (p :: ps)). f_equal.
  unfold strip_cr, ends_with in *. by destruct (strip_suffix _ l).
Qed.

Lemma lines_nil : lines [] = [].
Proof. reflexivity. Qed.

Lemma lines_written ls : Forall line_ok ls -> lines (concat ((fun l => l ++ [line_feed]) <$> ls)) = ls.
Proof.
  induction 1 as [|l ls Hl _ IH]; [done|]. cbn [fmap list_fmap concat].
  rewrite <-app_assoc, lines_cons by done. f_equal. apply IH.
Qed.

(** The pieces of a string are made of its characters, and the separator is
    in none. *)
Lemma split_on_pieces c s p d : p ∈ split_on c s -> d ∈ p -> d ∈ s /\ d <> c.
Proof.
  revert p. induction s as [|e s IH]; intros p; simpl.
  - intros ->%list_elem_of_singleton Hd. by apply not_elem_of_nil in Hd.
  - case_bool_decide as E.
    + intros [->|Hp]%elem_of_cons Hd; [by apply not_elem_of_nil in Hd|].
      destruct (IH p Hp Hd). split; [by right|done].
    + pose proof (split_on_nonempty c s). destruct (split_on c s) as [|q ps]; [done|].
      intros [->|Hp]%elem_of_cons Hd.
      * apply elem_of_cons in Hd as [->|Hd]; [split; [by left|congruence]|].
        destruct (IH q ltac:(by left) Hd). split; [by right|done].
      * destruct (IH p ltac:(by right) Hd). split; [by right|done].
Qed.

Lemma strip_cr_clean l : carriage_return ∉ l -> strip_cr l = l.
Proof.
  intros H. unfold strip_cr. destruct (strip_suffix _ l) as [r|] eqn:E; [|done].
  apply strip_suffix_Some in E. subst. exfalso. apply H, elem_of_app. right. by left.
Qed.

Lemma lines_of_pieces ps l :
  Forall (fun p => carriage_return ∉ p) ps -> l ∈ lines_of ps -> l ∈ ps.
Proof.
  induction 1 as [|p ps Hp Hps IH]; [done|]. destruct ps as [|q ps]; simpl in *.
  - destruct p; [by intros ?%not_elem_of_nil|]. intros ->%list_elem_of_singleton. by left.
  - rewrite strip_cr_clean by done. intros [->|Hl]%elem_of_cons; [by left|right; by apply IH].
Qed.

(** Without a carriage return in a text, its lines can be written back. *)
Lemma lines_ok s : carriage_return ∉ s -> Forall line_ok (lines s).
Proof.
  intros Hs. apply Forall_forall. intros l Hl. unfold lines in Hl.
  apply lines_of_pieces in Hl.
  - assert (Hc : carriage_return ∉ l) by (intros Hc; by apply (split_on_pieces _ _ _ _ Hl) in Hc as [? _]).
    split; [by intros Hc'; apply (split_on_pieces _ _ _ _ Hl) in Hc' as [_ ?]|].
    destruct (ends_with _ l) eqn:E; [|done]. apply ends_with_iff in E as [r ->].
    exfalso. apply Hc, elem_of_app. right. by left.
  - apply Forall_forall. intros p Hp Hc. by apply (split_on_pieces _ _ _ _ Hp) in Hc as [? _].
Qed.

Lemma is_utf8_app s t : is_utf8 s = true -> is_utf8 t = true -> is_utf8 (s ++ t) = true.
Proof.
  intros Hs Ht. remember (length s) as n eqn:Hn. assert (length s <= n)%nat as Hle by lia. clear Hn.
  revert s Hs Hle. induction n as [|n IH]; intros s Hs Hle.
  { by destruct s; simpl in *; [|lia]. }
  destruct s as [|a s]; [done|]. simpl in Hs, Hle. cbn [app is_utf8].
  destruct (byte_val a <? 128); [apply IH; [done|lia]|].
  destruct s as [|b s]; [done|]. simpl in Hle. cbn [app].
  destruct (byte_in 194 223 a); [apply andb_prop in Hs as [-> Hs]; simpl; apply IH; [done|lia]|].
  destruct s as [|c s]; [done|]. simpl in Hle. cbn [app].
  destruct (_ || _); [apply andb_prop in Hs as [-> Hs]; simpl; apply IH; [done|lia]|].
  destruct s as [|d s]; [done|]. simpl in Hle. cbn [app].
  destruct (_ || _); [|done]. apply andb_prop in Hs as [-> Hs]. simpl. apply IH; [done|lia].
Qed.

Lemma is_utf8_ascii s : Forall (fun c => byte_val c < 128) s -> is_utf8 s = true.
Proof. induction 1 as [|c s Hc _ IH]; [done|]. cbn [is_utf8]. by rewrite (proj2 (Z.ltb_lt _ _) Hc). Qed.

Lemma is_utf8_concat l : Forall (fun s => is_utf8 s = true) l -> is_utf8 (concat l) = true.
Proof. induction 1; [done|]. simpl. by apply is_utf8_app. Qed.

(** The first character of a string is UTF-8 where it is whole, and what is
    UTF-8 is a whole character and more UTF-8. *)
Lemma first_char_spec s :
  s <> [] ->
  let (whole, n) := first_char s in
  (1 <= n <= length s)%nat /\ (whole = true -> is_utf8 (take n s) = true) /\
  (is_utf8 s = true -> whole = true /\ is_utf8 (drop n s) = true).
Proof.
  destruct s as [|a s]; [done|]. intros _. unfold first_char. cbn [is_utf8 length].
  destruct (byte_val a <? 128) eqn:Ea; [cbn [take drop is_utf8]; rewrite Ea; split_and!; [lia..|done|done]|].
  destruct s as [|b s]; [split_and!; [simpl; lia..|done|done]|]. cbn [length].
  fold (three_start a b) (four_start a b).
  destruct (byte_in 194 223 a) eqn:E2.
  { destruct (continues b) eqn:Eb; [|split_and!; [lia..|done|done]].
    cbn [take drop is_utf8]. rewrite Ea, E2, Eb. split_and!; [lia..|done|done]. }
  destruct (three_start a b) eqn:E3.
  { destruct s as [|c s]; [split_and!; [simpl; lia..|done|done]|]. cbn [length].
    destruct (continues c) eqn:Ec; [|split_and!; [lia..|done|done]].
    cbn [take drop is_utf8]. rewrite Ea, E2. fold (three_start a b). rewrite E3, Ec.
    split_and!; [lia..|done|done]. }
  destruct (four_start a b) eqn:E4; [|split_and!; [lia..|done|by repeat (destruct s; try done)]].
  destruct s as [|c s]; [split_and!; [simpl; lia..|done|done]|]. cbn [length].
  destruct (continues c) eqn:Ec; [|split_and!; [lia..|done|by destruct s]].
  destruct s as [|d s]; [split_and!; [simpl; lia..|done|done]|]. cbn [length].
  destruct (continues d) eqn:Ed; [|split_and!; [lia..|done|done]].
  cbn [take drop is_utf8]. rewrite Ea, E2. fold (three_start a b) (four_start a b). rewrite E3, E4, Ec, Ed.
  split_and!; [lia..|done|done].
Qed.

Lemma lossy_spec fuel s :
  (length s <= fuel)%nat -> is_utf8 (lossy fuel s) = true /\ (is_utf8 s = true -> lossy fuel s = s).
Proof.
  revert s. induction fuel as [|fuel IH]; intros s Hs; [by destruct s; simpl in *; [|lia]|].
  destruct (decide (s = [])) as [->|Hne]; [done|].
  pose proof (first_char_spec s Hne) as Hf.
  replace (lossy (S fuel) s) with
    (let (whole, n) := first_char s in
     (if whole then take n s else replacement_char) ++ lossy fuel (drop n s)) by (by destruct s).
  destruct (first_char s) as [whole n]. destruct Hf as (Hn & Hw & Hu).
  destruct (IH (drop n s)) as [H1 H2]; [rewrite length_drop; lia|]. split.
  - apply is_utf8_app; [|done]. destruct whole; [by apply Hw|done].
  - intros H. destruct (Hu H) as [-> Hd]. by rewrite H2, take_drop.
Qed.

(** What was UTF-8 is unchanged, and what is given always is. *)
Lemma from_utf8_lossy_spec s :
  is_utf8 (from_utf8_lossy s) = true /\ (is_utf8 s = true -> from_utf8_lossy s = s).
Proof. by apply lossy_spec. Qed.

(** A word has no ASCII white space. *)
Lemma word_chars s c :
  has_white_space s = false -> [c] ∈ white_space -> c ∉ s.
Proof.
  intros Hs Hc. induction s as [|d s IH]; [set_solver|]. cbn [has_white_space] in Hs.
  destruct (strip_one white_space (d :: s)) as [r|] eqn:E; [done|].
  apply not_elem_of_cons. split; [|by apply IH]. intros ->.
  assert (H : forall spaces, [d] ∈ spaces -> strip_one spaces (d :: s) <> None).
  { induction spaces as [|w ws IHw]; [set_solver|]. intros Hin.
    change (strip_one (w :: ws) (d :: s)) with
      (match strip_prefix w (d :: s) with Some r => Some r | None => strip_one ws (d :: s) end).
    destruct (strip_prefix w (d :: s)) eqn:Ew; [done|].
    apply elem_of_cons in Hin as [<-|Hin]; [|by apply IHw].
    by rewrite (proj2 (strip_prefix_Some [d] (d :: s) s) eq_refl) in Ew. }
  by apply (H _ Hc).
Qed.

(** ** Words and fields: [str::split_whitespace], [str::rfind], [i64]'s text *)

Fixpoint words_of (fuel : nat) (word s : str) : list str :=
  let flush := if bool_decide (word = []) then [] else [word] in
  match fuel with
  | O => flush
  | S fuel =>
      match strip_one white_space s with
      | Some rest => flush ++ words_of fuel [] rest
      | None => match s with [] => flush | c :: s => words_of fuel (word ++ [c]) s end
      end
  end.

(** Each round takes at least one byte away. *)
Definition split_whitespace (s : str) : list str := words_of (S (length s)) [] s.

(** [&s[s.rfind(c)? + 1..]]. *)
Fixpoint after_last (c : ascii) (s : str) : option str :=
  match s with
  | [] => None
  | d :: s =>
      match after_last c s with
      | Some after => Some after
      | None => if bool_decide (d = c) then Some s else None
      end
  end.

(** [s.parse()] to an [i64]. *)
Definition parse_i64 (s : str) : option Z :=
  match strip_prefix (lit "-") s with
  | Some digits =>
      if bool_decide (digits = []) then None else
      match digits_val 0 digits with
      | Some n => if n <=? i64_max + 1 then Some (- n) else None
      | None => None
      end
  | None => parse_unsigned i64_max s
  end.

Definition space : ascii := " "%char.

(** ASCII white space. *)
Definition is_space (c : ascii) : bool := byte_in 9 13 c || (byte_val c =? 32).

(** A word of ASCII, a gap, and words each after a gap. *)
Definition is_word (w : str) : Prop :=
  w <> [] /\ Forall (fun c => byte_val c < 128 /\ is_space c = false) w.

Definition is_gap (g : str) : Prop := g <> [] /\ Forall (fun c => is_space c = true) g.

Definition spaced (ws : list (str * str)) : str := concat ((fun gw => gw.1 ++ gw.2) <$> ws).

Lemma strip_one_ascii c s :
  byte_val c < 128 -> strip_one white_space (c :: s) = if is_space c then Some s else None.
Proof.
  intros Hc. destruct c as [[] [] [] [] [] [] [] []]; try (exfalso; by vm_compute in Hc); reflexivity.
Qed.

Lemma words_of_app w fuel word s :
  Forall (fun c => byte_val c < 128 /\ is_space c = false) w ->
  words_of (length w + fuel) word (w ++ s) = words_of fuel (word ++ w) s.
Proof.
  intros Hw. revert word. induction Hw as [|c w [Hc Hs] _ IH]; intros word.
  - by rewrite app_nil_r.
  - cbn [length Nat.add app words_of]. rewrite strip_one_ascii, Hs by done.
    by rewrite IH, <-app_assoc.
Qed.

Lemma is_space_ascii c : is_space c = true -> byte_val c < 128.
Proof. unfold is_space, byte_in. rewrite orb_true_iff. intros []; bool_facts; lia. Qed.

Lemma words_of_gap g fuel word s :
  is_gap g -> words_of (length g + fuel) word (g ++ s) =
              (if bool_decide (word = []) then [] else [word]) ++ words_of fuel [] s.
Proof.
  intros [Hne Hg]. destruct g as [|c g]; [done|]. clear Hne.
  assert (forall g, Forall (fun c => is_space c = true) g ->
            words_of (length g + fuel) [] (g ++ s) = words_of fuel [] s) as Hskip.
  { clear. induction 1 as [|c g Hc _ IH]; [done|]. cbn [length Nat.add app words_of].
    by rewrite strip_one_ascii, Hc, IH by (by apply is_space_ascii). }
  apply Forall_cons in Hg as [Hc Hg]. cbn [length Nat.add app words_of].
  by rewrite strip_one_ascii, Hc, Hskip by (done || by apply is_space_ascii).
Qed.

Lemma words_of_spaced ws fuel word :
  Forall (fun gw => is_gap gw.1 /\ is_word gw.2) ws -> (length (spaced ws) < fuel)%nat ->
  words_of fuel word (spaced ws) = (if bool_decide (word = []) then [] else [word]) ++ ws.*2.
Proof.
  intros Hws. revert fuel word. induction Hws as [|[g w] ws [Hg [Hne Hw]] _ IH]; intros fuel word Hf.
  - destruct fuel as [|fuel]; [simpl in Hf; lia|]. cbn. by rewrite app_nil_r.
  - cbn [spaced fmap list_fmap concat fst snd] in *. fold (spaced ws) in *.
    rewrite !length_app in Hf. rewrite <-app_assoc.
    replace fuel with (length g + (length w + (fuel - length g - length w)))%nat by lia.
    rewrite words_of_gap by done. rewrite words_of_app by done. rewrite app_nil_l, IH by lia.
    by rewrite (bool_decide_false (w = [])) by done.
Qed.

(** The words are those written, whatever the gaps. *)
Lemma split_whitespace_spaced w ws :
  is_word w -> Forall (fun gw => is_gap gw.1 /\ is_word gw.2) ws ->
  split_whitespace (w ++ spaced ws) = w :: ws.*2.
Proof.
  intros [Hne Hw] Hws. unfold split_whitespace. rewrite length_app.
  replace (S (length w + length (spaced ws))) with (length w + S (length (spaced ws)))%nat by lia.
  rewrite words_of_app, app_nil_l, words_of_spaced by (done || lia). by rewrite bool_decide_false.
Qed.

Lemma split_whitespace_after ws :
  Forall (fun gw => is_gap gw.1 /\ is_word gw.2) ws -> split_whitespace (spaced ws) = ws.*2.
Proof. intros Hws. unfold split_whitespace. by rewrite words_of_spaced by (done || lia). Qed.

Lemma after_last_app c p s : c ∉ s -> after_last c (p ++ c :: s) = Some s.
Proof.
  intros Hs. assert (after_last c s = None) as Hn.
  { induction s as [|d s IH]; [done|]. apply not_elem_of_cons in Hs as [Hd Hs]. simpl.
    by rewrite IH, bool_decide_false by done. }
  induction p as [|d p IH]; simpl; [by rewrite Hn, bool_decide_true|]. by rewrite IH.
Qed.

Lemma decimal_word n : is_word (decimal n).
Proof.
  split; [apply decimal_nonempty|]. eapply Forall_impl; [apply decimal_digits|]. intros c Hc.
  unfold is_ascii_digit, is_space, byte_in in *. bool_facts. split; [lia|].
  apply orb_false_iff. split; [|lia]. apply andb_false_iff. lia.
Qed.

Lemma parse_i64_decimal n : 0 <= n <= i64_max -> parse_i64 (decimal n) = Some n.
Proof.
  intros Hn. unfold parse_i64. pose proof (decimal_digits n) as Hd. pose proof (decimal_nonempty n) as Hne.
  destruct (strip_prefix (lit "-") (decimal n)) as [r|] eqn:E.
  - apply strip_prefix_Some in E. rewrite E in Hd. by apply Forall_cons in Hd as [? _].
  - apply parse_decimal; unfold i64_max in *; lia.
Qed.

Lemma spaced_app a b : spaced (a ++ b) = spaced a ++ spaced b.
Proof. unfold spaced. by rewrite fmap_app, concat_app. Qed.
