(* ===== verification/Float64.v ===== *)
(** * [f64]: the arithmetic the load balancer's scores use

    A finite [f64] that is not negative is an integer number of [2^-1074],
    the least positive one; the order of [total_cmp] is the order of these
    numbers. A result is the exact one rounded to the nearest [f64], to the
    even one of two equally near. Infinities are not modelled: the scores
    stay far below [2^1024]. *)

From S2P Require Import Prelude.

Definition f64_unit : Z := 2 ^ 1074.

(** The integer nearest to [n / d], the even one of two equally near. *)
Definition round_half_even (n d : Z) : Z :=
  let q := n / d in
  let r := n mod d in
  if 2 * r <? d then q
  else if d <? 2 * r then q + 1
  else if Z.even q then q else q + 1.

(** The [f64] nearest to [n / d]: 53 significant bits, fewer below the
    normal range. *)
Definition f64_round (n d : Z) : Z :=
  let e := Z.max 0 (Z.log2 (n * f64_unit / d) - 52) in
  round_half_even (n * f64_unit) (d * 2 ^ e) * 2 ^ e.

(** [n as f64], [x + y], [x / y]. *)
Definition f64_of_Z (n : Z) : Z := f64_round n 1.
Definition f64_add (x y : Z) : Z := f64_round (x + y) f64_unit.
Definition f64_div (x y : Z) : Z := f64_round x y.

(** ** Facts *)

Lemma f64_unit_pos : 0 < f64_unit.
Proof. done. Qed.

#[local] Opaque f64_unit.

Lemma round_half_even_error n d : 0 < d -> 2 * Z.abs (round_half_even n d * d - n) <= d.
Proof.
  intros Hd. pose proof (Z.div_mod n d ltac:(lia)) as Hn.
  pose proof (Z.mod_pos_bound n d Hd) as Hr. unfold round_half_even.
  set (q := n / d) in *. set (r := n mod d) in *.
  clearbody q r. subst n.
  repeat case_if; rewrite ?Z.mul_add_distr_r; lia.
Qed.

Lemma round_half_even_exact q d : 0 < d -> round_half_even (q * d) d = q.
Proof.
  intros Hd. unfold round_half_even. rewrite Z.mod_mul, Z.div_mul by lia.
  by replace (2 * 0 <? d) with true by lia.
Qed.

Lemma round_half_even_scale k n d : 0 < k -> 0 < d -> round_half_even (n * k) (d * k) = round_half_even n d.
Proof.
  intros Hk Hd. unfold round_half_even. rewrite Z.div_mul_cancel_r, Z.mul_mod_distr_r by lia.
  replace (2 * (n mod d * k) <? d * k) with (2 * (n mod d) <? d) by nia.
  replace (d * k <? 2 * (n mod d * k)) with (d <? 2 * (n mod d)) by nia. done.
Qed.

(** The value rounded to depends on the quotient alone. *)
Lemma f64_round_scale k n d : 0 < k -> 0 < d -> f64_round (n * k) (d * k) = f64_round n d.
Proof.
  intros Hk Hd. unfold f64_round.
  replace (n * k * f64_unit) with (n * f64_unit * k) by ring. rewrite Z.div_mul_cancel_r by lia.
  set (e := Z.max 0 _). pose proof (Z.pow_pos_nonneg 2 e ltac:(lia) ltac:(lia)).
  replace (d * k * 2 ^ e) with (d * 2 ^ e * k) by ring.
  rewrite round_half_even_scale by nia. done.
Qed.

Lemma f64_round_ratio n d n' d' :
  0 < d -> 0 < d' -> 0 < n -> n * d' = n' * d -> f64_round n d = f64_round n' d'.
Proof.
  intros Hd Hd' Hn E. rewrite <-(f64_round_scale d' n d), <-(f64_round_scale d n' d') by lia.
  by rewrite E, (Z.mul_comm d d').
Qed.

(** An integer of at most 53 bits is an [f64]. *)
Lemma f64_of_Z_exact n : 0 <= n < 2 ^ 53 -> f64_of_Z n = n * f64_unit.
Proof.
  intros Hn. unfold f64_of_Z, f64_round. rewrite Z.div_1_r, Z.mul_1_l.
  set (e := Z.max 0 _).
  assert (exists c, f64_unit = c * 2 ^ e) as [c Hc].
  { exists (2 ^ (1074 - e)). change f64_unit with (2 ^ 1074).
    rewrite <-Z.pow_add_r; [f_equal; lia| |unfold e; lia].
    destruct (decide (n = 0)) as [->|]; [unfold e; simpl; lia|].
    assert (Z.log2 (n * f64_unit) = 1074 + Z.log2 n) as Hl.
    { change f64_unit with (2 ^ 1074). rewrite Z.log2_mul_pow2 by lia. lia. }
    assert (Z.log2 n < 53) by (apply Z.log2_lt_pow2; lia). unfold e. lia. }
  pose proof (Z.pow_pos_nonneg 2 e ltac:(lia) ltac:(unfold e; lia)).
  rewrite Hc, Z.mul_assoc, round_half_even_exact by done. lia.
Qed.

(** In the normal range a result is off by at most one part in [2^53]. *)
Lemma f64_round_error n d :
  0 < d -> d <= n * 2 ^ 1000 ->
  2 ^ 53 * Z.abs (f64_round n d * d - n * f64_unit) <= n * f64_unit.
Proof.
  intros Hd Hn. unfold f64_round. set (N := n * f64_unit).
  set (x := N / d). set (e := Z.max 0 _).
  pose proof (Z.pow_pos_nonneg 2 e ltac:(lia) ltac:(unfold e; lia)) as He.
  pose proof (round_half_even_error N (d * 2 ^ e) ltac:(nia)) as Herr.
  assert (Hx : 2 ^ 74 <= x).
  { apply Z.div_le_lower_bound; [done|]. unfold N. change f64_unit with (2 ^ 1000 * 2 ^ 74). nia. }
  assert (Hlow : 2 ^ (52 + e) <= x).
  { pose proof (Z.log2_spec x ltac:(lia)) as [Hl _].
    assert (74 <= Z.log2 x) by (apply Z.log2_le_pow2; lia).
    replace (52 + e) with (Z.log2 x); [done|]. unfold e. fold x. lia. }
  rewrite Z.pow_add_r in Hlow by (unfold e; lia).
  assert (d * (2 ^ 52 * 2 ^ e) <= N).
  { pose proof (Z.mul_div_le N d Hd). fold x in H. nia. }
  replace (round_half_even N (d * 2 ^ e) * 2 ^ e * d - N)
    with (round_half_even N (d * 2 ^ e) * (d * 2 ^ e) - N) by ring. lia.
Qed.

(** Quotients of small integers are told apart: rounding keeps their order,
    strictly. *)
Lemma f64_round_order a b a' b' :
  0 < a -> 0 < b < 2 ^ 1000 -> 0 < a' -> 0 < b' < 2 ^ 1000 ->
  a * b' < 2 ^ 52 -> a' * b < 2 ^ 52 ->
  (f64_round a b <=? f64_round a' b') = (a * b' <=? a' * b).
Proof.
  intros Ha Hb Ha' Hb' H1 H2.
  pose proof (f64_round_error a b ltac:(lia) ltac:(nia)) as E1.
  pose proof (f64_round_error a' b' ltac:(lia) ltac:(nia)) as E2.
  pose proof f64_unit_pos as Hu.
  assert (Key : forall a b a' b' R R', 0 < a -> 0 < b -> 0 < a' -> 0 < b' ->
            a * b' < 2 ^ 52 -> a' * b < 2 ^ 52 ->
            2 ^ 53 * Z.abs (R * b - a * f64_unit) <= a * f64_unit ->
            2 ^ 53 * Z.abs (R' * b' - a' * f64_unit) <= a' * f64_unit ->
            R <= R' -> a * b' <= a' * b).
  { clear -Hu. intros a b a' b' R R' Ha Hb Ha' Hb' H1 H2 E1 E2 Hle.
    assert (2 ^ 53 * (a * f64_unit - R * b) <= a * f64_unit) as F1 by lia.
    assert (2 ^ 53 * (R' * b' - a' * f64_unit) <= a' * f64_unit) as F2 by lia.
    apply (Z.mul_le_mono_nonneg_r _ _ b') in F1; [|lia].
    apply (Z.mul_le_mono_nonneg_r _ _ b) in F2; [|lia].
    assert (R * (b * b') <= R' * (b * b')) by (apply Z.mul_le_mono_nonneg_r; lia).
    assert (Hs : 2 ^ 53 * (a * b' - a' * b) * f64_unit <= (a * b' + a' * b) * f64_unit) by lia.
    apply (Z.mul_le_mono_pos_r _ _ f64_unit Hu) in Hs. lia. }
  destruct (decide (a * b' = a' * b)) as [E|E].
  - rewrite (f64_round_ratio a b a' b') by lia. lia.
  - pose proof (Key a b a' b' _ _ Ha ltac:(lia) Ha' ltac:(lia) H1 H2 E1 E2) as K.
    pose proof (Key a' b' a b _ _ Ha' ltac:(lia) Ha ltac:(lia) H2 H1 E2 E1) as K'. lia.
Qed.
