(* ===== verification/SpecF64.v ===== *)
(** * [f64] with its infinities and NaN

    The doubles the node's own figures and the load tool use: IEEE 754's
    binary64 as the standard library specifies it ([SpecFloat]), with
    Rust's conversions, comparisons, rounding and parsing of decimals. The
    scores of the load balancer, which are never negative nor infinite, have
    the simpler model of [Float64]. *)

From S2P Require Import Prelude Str Text.
From Stdlib Require Import Ascii.
From Stdlib Require Export SpecFloat.

Notation f64 := spec_float.

#[export] Instance spec_float_eq_dec : EqDecision spec_float.
Proof. solve_decision. Defined.

Definition f64_prec : Z := 53.
Definition f64_emax : Z := 1024.

(** [x + y], [x - y], [x * y], [x / y]. *)
Definition fadd : f64 -> f64 -> f64 := SFadd f64_prec f64_emax.
Definition fsub : f64 -> f64 -> f64 := SFsub f64_prec f64_emax.
Definition fmul : f64 -> f64 -> f64 := SFmul f64_prec f64_emax.
Definition fdiv : f64 -> f64 -> f64 := SFdiv f64_prec f64_emax.

(** [x > y]: false of a NaN. *)
Definition fgt (x y : f64) : bool := SFltb y x.

(** [n as f64], of an integer. *)
Definition f64_of_int (n : Z) : f64 := binary_normalize f64_prec f64_emax n 0 false.

(** The double nearest to [m * 10^e], [m] positive. *)
Definition f64_of_decimal (negative : bool) (m : positive) (e : Z) : f64 :=
  if 0 <=? e then binary_round f64_prec f64_emax negative (m * Z.to_pos (10 ^ e)) 0
  else
    let '(mz, ez, lz) := SFdiv_core_binary f64_prec f64_emax (Zpos m) 0 (10 ^ (- e)) 0 in
    binary_round_aux f64_prec f64_emax negative mz ez lz.

(** [x.total_cmp(y)] as a number: the order of IEEE 754's [totalOrder], on
    the doubles other than NaN. *)
Definition fle_total (x y : f64) : bool :=
  match x, y with
  | S754_zero s, S754_zero s' => s || negb s'
  | _, _ => match SFcompare x y with Some Gt => false | _ => true end
  end.

(** [x.round()]: to the nearest integer, halfway cases away from zero. *)
Definition round_half_away (m e : Z) : Z :=
  if 0 <=? e then m * 2 ^ e else (2 * m + 2 ^ (- e)) / 2 ^ (1 - e).

Definition fround (x : f64) : f64 :=
  match x with
  | S754_finite s m e =>
      match round_half_away (Zpos m) e with
      | Zpos n => binary_round f64_prec f64_emax s n 0
      | _ => S754_zero s
      end
  | _ => x
  end.

(** The integer part of a finite double, towards zero. *)
Definition ftrunc (x : f64) : Z :=
  match x with
  | S754_finite s m e => cond_Zopp s (if 0 <=? e then Zpos m * 2 ^ e else Zpos m / 2 ^ (- e))
  | _ => 0
  end.

(** [x as u64]: towards zero, saturating, 0 of a NaN. *)
Definition f64_as_u64 (x : f64) : Z :=
  match x with
  | S754_infinity false => u64_max
  | S754_finite false _ _ => Z.min u64_max (ftrunc x)
  | _ => 0
  end.

(** ** The text of a double: [f64::from_str] *)

Fixpoint take_digits (s : str) : str * str :=
  match s with
  | c :: s' => if is_ascii_digit c then let (d, r) := take_digits s' in (c :: d, r) else ([], s)
  | [] => ([], [])
  end.

(** A sign, if there is one: whether it is a minus. *)
Definition take_sign (s : str) : bool * str :=
  match strip_prefix (lit "-") s, strip_prefix (lit "+") s with
  | Some r, _ => (true, r)
  | None, Some r => (false, r)
  | None, None => (false, s)
  end.

(** The exponent, at the end: [e] or [E], a sign, digits. *)
Definition parse_exponent (s : str) : option Z :=
  match s with
  | [] => Some 0
  | c :: s =>
      if str_eqb (to_ascii_lowercase [c]) (lit "e") then
        let (negative, s) := take_sign s in
        match take_digits s with
        | ((_ :: _) as digits, []) => (fun n => if negative then - n else n) <$> digits_val 0 digits
        | _ => None
        end
      else None
  end.

Definition f64_parse (s : str) : option f64 :=
  let (negative, s) := take_sign s in
  if eq_ignore_ascii_case s (lit "inf") || eq_ignore_ascii_case s (lit "infinity")
  then Some (S754_infinity negative)
  else if eq_ignore_ascii_case s (lit "nan") then Some S754_nan
  else
    let (whole, s) := take_digits s in
    let (fraction, s) :=
      match strip_prefix (lit ".") s with Some s => take_digits s | None => ([], s) end in
    if bool_decide (whole ++ fraction = []) then None else
    e ← parse_exponent s;
    m ← digits_val 0 (whole ++ fraction);
    match m with
    | Zpos m => Some (f64_of_decimal negative m (e - Z.of_nat (length fraction)))
    | _ => Some (S754_zero negative)
    end.

(** ** Facts *)

Lemma take_digits_all s : Forall (fun c => is_ascii_digit c = true) s -> take_digits s = (s, []).
Proof. induction 1 as [|c s Hc _ IH]; [done|]. simpl. by rewrite Hc, IH. Qed.

Lemma digit_no_sign c s : is_ascii_digit c = true -> take_sign (c :: s) = (false, c :: s).
Proof. intros Hc. destruct c as [[] [] [] [] [] [] [] []]; done. Qed.

Lemma digit_no_letter c s d u :
  is_ascii_digit c = true -> is_ascii_lowercase d = true -> eq_ignore_ascii_case (c :: s) (d :: u) = false.
Proof.
  intros Hc Hd. destruct (eq_ignore_ascii_case _ _) eqn:E; [|done]. exfalso.
  apply eq_ignore_ascii_case_iff in E. unfold to_ascii_lowercase in E. injection E as E _. revert E.
  unfold lower, is_ascii_uppercase, is_ascii_lowercase, is_ascii_digit in *. bool_facts.
  repeat case_if; bool_facts; try lia. intros ->. lia.
Qed.

(** The text of an integer is read as its double. *)
Lemma f64_parse_decimal n : 0 <= n < 10 ^ 40 -> f64_parse (decimal n) = Some (f64_of_int n).
Proof.
  intros Hn. pose proof (decimal_digits n) as Hd.
  assert (digits_val 0 (decimal n) = Some n) as Hv.
  { unfold decimal. rewrite (digits_of_val 40 n []) by (simpl; lia). done. }
  pose proof (take_digits_all _ Hd) as Ht.
  destruct (decimal n) as [|c s] eqn:E; [by destruct (decimal_nonempty n)|]. clear E.
  apply Forall_cons in Hd as [Hc Hd]. unfold f64_parse. rewrite digit_no_sign by done.
  change (lit "inf") with ("i"%char :: lit "nf"). change (lit "infinity") with ("i"%char :: lit "nfinity").
  change (lit "nan") with ("n"%char :: lit "an"). rewrite !digit_no_letter by done. cbn [orb].
  rewrite Ht. change (strip_prefix (lit ".") []) with (@None str). cbn match.
  rewrite app_nil_r, bool_decide_false by done. cbn [parse_exponent mbind option_bind]. rewrite Hv. cbn.
  destruct n as [|m|m]; [done| |lia]. unfold f64_of_decimal. cbn. by rewrite Pos.mul_1_r.
Qed.
