(* ===== verification/RateLimiting.v ===== *)
(** * Rate limiting: [lib/rate-limiting]

    The token bucket ([token_bucket.rs]), the table of a bucket per key
    ([keyed_buckets.rs]) and the cap on how many are in use at once
    ([concurrency.rs]).

    An [Instant] is a number of nanoseconds. The two mutexes make each call
    one step, so the buckets are functions of their state; the concurrency
    limit uses an atomic counter, and its calls are interleaved by the step
    relation [limit_step]. *)

From S2P Require Import Prelude.

(** ** The level of a bucket *)

Definition UNITS_PER_PERMIT : Z := 1000000000.

Record RateLimited := { rl_per_second : Z; rl_burst : Z }.

Record Level := mkLevel {
  units : Z;
  refilled_at : option Z;
}.

Definition level_full (burst : Z) : Level :=
  {| units := burst * UNITS_PER_PERMIT; refilled_at := None |}.

Definition level_refill (now per_second burst : Z) (l : Level) : Level :=
  let elapsed :=
    match refilled_at l with
    | None => 0
    | Some then_ => saturating_duration_since now then_
    end in
  let refilled :=
    if is_none_or (fun then_ => then_ <? now) (refilled_at l)
    then Some now else refilled_at l in
  let full := burst * UNITS_PER_PERMIT in
  let earned := elapsed * per_second in
  let total := units l + earned in
  {| units := if total <=? u64_max then Z.min total full else full;
     refilled_at := refilled |}.

Definition level_take (now per_second burst : Z) (l : Level) :
    Level * result unit RateLimited :=
  let l := level_refill now per_second burst l in
  if UNITS_PER_PERMIT <=? units l
  then ({| units := units l - UNITS_PER_PERMIT; refilled_at := refilled_at l |}, Ok ())
  else (l, Err {| rl_per_second := per_second; rl_burst := burst |}).

Definition level_is_full (burst : Z) (l : Level) : bool :=
  units l =? burst * UNITS_PER_PERMIT.

(** ** The token bucket *)

Record TokenBucket := mkTokenBucket {
  tb_per_second : Z;
  tb_burst : Z;
  tb_level : Level;
}.

(** The rate and the burst are [NonZeroU32]. *)
Definition non_zero_u32 (n : Z) : Prop := 1 <= n <= u32_max.

Definition token_bucket_new (per_second burst : Z) : TokenBucket :=
  {| tb_per_second := per_second; tb_burst := burst; tb_level := level_full burst |}.

Definition token_bucket_try_acquire (now : Z) (b : TokenBucket) :
    TokenBucket * result unit RateLimited :=
  let (l, r) := level_take now (tb_per_second b) (tb_burst b) (tb_level b) in
  ({| tb_per_second := tb_per_second b; tb_burst := tb_burst b; tb_level := l |}, r).

(** A sequence of calls, and what each was told: the times given, each with
    whether a permit was taken. *)
Fixpoint token_bucket_calls (b : TokenBucket) (times : list Z) :
    TokenBucket * list (Z * bool) :=
  match times with
  | [] => (b, [])
  | now :: times =>
      let (b, r) := token_bucket_try_acquire now b in
      let (b, rest) := token_bucket_calls b times in
      (b, (now, is_ok r) :: rest)
  end.

Definition admitted (calls : list (Z * bool)) : Z :=
  sum_list ((fun c : Z * bool => if c.2 then 1 else 0) <$> calls).

Definition admitted_after (w : Z) (calls : list (Z * bool)) : Z :=
  admitted (keep (fun c => w <? c.1) calls).

(** ** A bucket per key *)

Definition SWEEP_INTERVAL : Z := from_secs 1.

Record Table (K : Type) `{Countable K} := mkTable {
  kb_levels : gmap K Level;
  swept_at : option Z;
  untracked : Z;
}.
Arguments mkTable {K _ _} _ _ _.
Arguments kb_levels {K _ _} _.
Arguments swept_at {K _ _} _.
Arguments untracked {K _ _} _.

Section KeyedBuckets.
Context {K : Type} `{Countable K}.

Record KeyedBuckets := mkKeyedBuckets {
  kb_per_second : Z;
  kb_burst : Z;
  kb_capacity : Z;
  kb_table : Table K;
}.

Definition keyed_new (per_second burst capacity : Z) : KeyedBuckets :=
  {| kb_per_second := per_second; kb_burst := burst; kb_capacity := capacity;
     kb_table := mkTable ∅ None 0 |}.

Definition keyed_tracked (b : KeyedBuckets) : Z := Z.of_nat (size (kb_levels (kb_table b))).

(** [retain] refills each level it looks at, and keeps those not full. *)
Definition keyed_forget_idle (b : KeyedBuckets) (now : Z) : Table K :=
  let table := kb_table b in
  let looked_recently :=
    is_some_and (fun then_ => saturating_duration_since now then_ <? SWEEP_INTERVAL)
      (swept_at table) in
  if looked_recently then table else
  mkTable
    (omap (fun level =>
       let level := level_refill now (kb_per_second b) (kb_burst b) level in
       if level_is_full (kb_burst b) level then None else Some level)
       (kb_levels table))
    (Some now) (untracked table).

Definition with_table (b : KeyedBuckets) (t : Table K) : KeyedBuckets :=
  {| kb_per_second := kb_per_second b; kb_burst := kb_burst b;
     kb_capacity := kb_capacity b; kb_table := t |}.

Definition keyed_try_acquire (b : KeyedBuckets) (key : K) (now : Z) :
    KeyedBuckets * result unit RateLimited :=
  let t := kb_table b in
  match kb_levels t !! key with
  | Some level =>
      let (level, r) := level_take now (kb_per_second b) (kb_burst b) level in
      (with_table b (mkTable (<[key := level]> (kb_levels t)) (swept_at t) (untracked t)), r)
  | None =>
      let t := if kb_capacity b <=? keyed_tracked b then keyed_forget_idle b now else t in
      if kb_capacity b <=? keyed_tracked (with_table b t)
      then (with_table b (mkTable (kb_levels t) (swept_at t) (untracked t + 1)), Ok ())
      else
        let (level, taken) :=
          level_take now (kb_per_second b) (kb_burst b) (level_full (kb_burst b)) in
        (with_table b (mkTable (<[key := level]> (kb_levels t)) (swept_at t) (untracked t)),
         taken)
  end.

(** *** What it promises: a bucket per key that nothing forgets

    The specification keeps a level for every key ever counted. It is told
    of the calls the table counts, and only of those. *)
Definition never_forgets (per_second burst : Z) (levels : gmap K Level) (key : K) (now : Z) :
    gmap K Level * result unit RateLimited :=
  let (level, r) := level_take now per_second burst (default (level_full burst) (levels !! key)) in
  (<[key := level]> levels, r).

(** A call of the table, with whether it was counted. *)
Definition keyed_call (b : KeyedBuckets) (key : K) (now : Z) :
    KeyedBuckets * result unit RateLimited * bool :=
  let (b', r) := keyed_try_acquire b key now in
  (b', r, untracked (kb_table b') =? untracked (kb_table b)).

Fixpoint keyed_calls (b : KeyedBuckets) (calls : list (K * Z)) :
    list (result unit RateLimited * bool) :=
  match calls with
  | [] => []
  | (key, now) :: calls =>
      let '(b, r, counted) := keyed_call b key now in
      (r, counted) :: keyed_calls b calls
  end.

(** The answers of the specification to the same calls, where [counted] says
    which of them it is told of; the others are let through. *)
Fixpoint never_forgets_calls (per_second burst : Z) (levels : gmap K Level)
    (calls : list (K * Z)) (counted : list bool) : list (result unit RateLimited) :=
  match calls, counted with
  | (key, now) :: calls, true :: counted =>
      let (levels, r) := never_forgets per_second burst levels key now in
      r :: never_forgets_calls per_second burst levels calls counted
  | _ :: calls, false :: counted =>
      Ok () :: never_forgets_calls per_second burst levels calls counted
  | _, _ => []
  end.

End KeyedBuckets.
Arguments KeyedBuckets K {_ _}.

(** ** How many are in use at once *)

Record LimitReached := { lr_max : Z }.

Record ConcurrencyLimit := mkConcurrencyLimit {
  in_use : Z;
  limit_max : option Z;
}.

Definition limit_new (max : option Z) : ConcurrencyLimit :=
  {| in_use := 0; limit_max := max |}.

(** The counter's [fetch_add(1)] and [fetch_sub(1)]. *)
Definition limit_fetch_add (s : ConcurrencyLimit) : ConcurrencyLimit :=
  {| in_use := wrap64 (in_use s + 1); limit_max := limit_max s |}.

(** [Permit::drop]. *)
Definition permit_drop (s : ConcurrencyLimit) : ConcurrencyLimit :=
  {| in_use := wrap64 (in_use s - 1); limit_max := limit_max s |}.

(** What an attempt that read [already_in_use] decides. *)
Definition limit_decide (s : ConcurrencyLimit) (already_in_use : Z) : result unit LimitReached :=
  match limit_max s with
  | Some max => if max <=? already_in_use then Err {| lr_max := max |} else Ok ()
  | None => Ok ()
  end.

(** The whole of [try_acquire], when nothing runs between its two steps: a
    refused attempt drops the permit it made. *)
Definition limit_try_acquire (s : ConcurrencyLimit) :
    ConcurrencyLimit * result unit LimitReached :=
  let already_in_use := in_use s in
  let s := limit_fetch_add s in
  match limit_decide s already_in_use with
  | Ok _ => (s, Ok ())
  | Err e => (permit_drop s, Err e)
  end.

(** Any number of threads: the counter, the permits they hold, and the
    attempts that have added to the counter and not decided yet, each with
    the number it read. *)
Record LimitState := mkLimitState {
  ls_limit : ConcurrencyLimit;
  ls_held : Z;
  ls_pending : list Z;
}.

Inductive limit_step : LimitState -> LimitState -> Prop :=
| step_attempt limit held pending :
    (* every attempt and permit is a live object: fewer than 2^64 of them *)
    held + Z.of_nat (length pending) < u64_max ->
    limit_step (mkLimitState limit held pending)
      (mkLimitState (limit_fetch_add limit) held (in_use limit :: pending))
| step_taken limit held before v after :
    limit_decide limit v = Ok () ->
    limit_step (mkLimitState limit held (before ++ v :: after))
      (mkLimitState limit (held + 1) (before ++ after))
| step_refused limit held before v after e :
    limit_decide limit v = Err e ->
    limit_step (mkLimitState limit held (before ++ v :: after))
      (mkLimitState (permit_drop limit) held (before ++ after))
| step_drop limit held pending :
    0 < held ->
    limit_step (mkLimitState limit held pending)
      (mkLimitState (permit_drop limit) (held - 1) pending).

Definition limit_start (max : option Z) : LimitState := mkLimitState (limit_new max) 0 [].

(** ** The arithmetic of a level *)

Lemma level_eq l m : units l = units m -> refilled_at l = refilled_at m -> l = m.
Proof. destruct l, m; simpl; congruence. Qed.

Section LevelFacts.
Context (per_second burst : Z).
Context (Hrate : non_zero_u32 per_second) (Hburst : non_zero_u32 burst).

Let full := burst * UNITS_PER_PERMIT.

Definition level_ok (l : Level) : Prop := 0 <= units l <= burst * UNITS_PER_PERMIT.

(** The time a level stands at; a level never asked stands at any time. *)
Definition level_before (t : Z) (l : Level) : Prop :=
  match refilled_at l with Some r => r <= t | None => True end.

Lemma full_in_u64 : 0 < full <= u64_max.
Proof using Hburst. unfold full, non_zero_u32, u64_max, u32_max, UNITS_PER_PERMIT in *. lia. Qed.

(** Past [u64::MAX] or not, a refill stops at the burst. *)
Lemma refill_units now l :
  units (level_refill now per_second burst l) =
  Z.min full (units l +
    match refilled_at l with Some r => Z.max 0 (now - r) | None => 0 end * per_second).
Proof using Hburst.
  pose proof full_in_u64. unfold level_refill, saturating_duration_since; simpl.
  fold full. case_if; lia.
Qed.

Lemma refill_at now l :
  refilled_at (level_refill now per_second burst l) =
  Some (match refilled_at l with Some r => Z.max r now | None => now end).
Proof.
  unfold level_refill; simpl. destruct (refilled_at l) as [r|]; simpl; [|done].
  case_if; f_equal; lia.
Qed.

Lemma level_full_ok : level_ok (level_full burst).
Proof using Hburst. pose proof full_in_u64. unfold level_ok; simpl. fold full. lia. Qed.

Lemma refill_ok now l : level_ok l -> level_ok (level_refill now per_second burst l).
Proof using Hrate Hburst.
  pose proof full_in_u64. unfold level_ok. rewrite refill_units. fold full.
  unfold non_zero_u32 in *. destruct (refilled_at l); nia.
Qed.

Lemma take_spec now l :
  let m := level_refill now per_second burst l in
  level_take now per_second burst l =
  if UNITS_PER_PERMIT <=? units m
  then (mkLevel (units m - UNITS_PER_PERMIT) (refilled_at m), Ok ())
  else (m, Err {| rl_per_second := per_second; rl_burst := burst |}).
Proof. done. Qed.

Lemma take_ok now l l' r :
  level_ok l -> level_take now per_second burst l = (l', r) -> level_ok l'.
Proof using Hrate Hburst.
  intros Hl. apply (refill_ok now) in Hl. rewrite take_spec; cbv zeta.
  revert Hl. generalize (level_refill now per_second burst l) as m. intros m Hl.
  case_if; intros [= <- <-]; [|done].
  unfold level_ok, UNITS_PER_PERMIT in *; simpl in *. lia.
Qed.

(** Refilling on the way changes nothing of a level that stands before:
    what two stretches of time earn is what both earn together. *)
Lemma refill_refill s t l :
  level_ok l -> level_before s l -> s <= t ->
  (refilled_at l = None -> units l = burst * UNITS_PER_PERMIT) ->
  level_refill t per_second burst (level_refill s per_second burst l) =
  level_refill t per_second burst l.
Proof using Hrate Hburst.
  intros Hok Hb Hst Hn.
  apply level_eq; rewrite ?refill_units, !refill_at.
  - unfold level_ok, level_before, non_zero_u32 in *. fold full in Hok, Hn.
    assert (0 <= (t - s) * per_second) by nia.
    destruct (refilled_at l) as [r|].
    + assert (0 <= (s - r) * per_second) by nia.
      replace (Z.max 0 (s - r)) with (s - r) by lia.
      replace (Z.max 0 (t - Z.max r s)) with (t - s) by lia.
      replace (Z.max 0 (t - r)) with ((s - r) + (t - s)) by lia. lia.
    + rewrite (Hn eq_refl), Z.max_r by lia. lia.
  - f_equal. destruct (refilled_at l); lia.
Qed.

(** A level that is full after a refill is one never asked. *)
Lemma refill_full s t l :
  level_is_full burst (level_refill s per_second burst l) = true ->
  level_before s l -> s <= t ->
  level_refill t per_second burst (level_refill s per_second burst l) =
  level_refill t per_second burst (level_full burst).
Proof using Hrate Hburst.
  unfold level_is_full. intros Hf Hb Hst. bool_facts.
  set (m := level_refill s per_second burst l) in *.
  assert (Hm : refilled_at m = Some s).
  { unfold m. rewrite refill_at. unfold level_before in Hb. f_equal.
    destruct (refilled_at l); lia. }
  clearbody m.
  apply level_eq; rewrite ?refill_units, ?refill_at, Hm; simpl; fold full.
  - rewrite Hf. fold full. unfold non_zero_u32 in *. nia.
  - f_equal. lia.
Qed.

(** What each statement of a refill computes fits its type. *)
Lemma refill_machine_ranges now l :
  level_ok l -> in_u64 now ->
  match refilled_at l with Some r => in_u64 r | None => True end ->
  in_u64 full /\
  in_u128 (match refilled_at l with Some r => Z.max 0 (now - r) | None => 0 end * per_second) /\
  in_u128 (units l +
    match refilled_at l with Some r => Z.max 0 (now - r) | None => 0 end * per_second) /\
  in_u64 (units (level_refill now per_second burst l)).
Proof using Hrate Hburst.
  intros Hok Hnow Hr. pose proof full_in_u64. pose proof (refill_ok now l Hok) as Hok'.
  unfold level_ok, non_zero_u32 in *. fold full in Hok, Hok'.
  set (e := match refilled_at l with Some r => Z.max 0 (now - r) | None => 0 end).
  assert (0 <= e <= u64_max).
  { unfold e, in_u64 in *. destruct (refilled_at l); unfold u64_max in *; lia. }
  assert (0 <= e * per_second <= u64_max * u32_max) by nia.
  unfold in_u128, in_u64, u128_max, u64_max, u32_max in *. lia.
Qed.

End LevelFacts.

(** ** The token bucket: what its calls are told *)

Definition token_bucket_ok (b : TokenBucket) : Prop :=
  non_zero_u32 (tb_per_second b) /\ non_zero_u32 (tb_burst b) /\
  level_ok (tb_burst b) (tb_level b).

(** One call: the level refilled, then a permit taken if there is one. *)
Lemma try_acquire_cases now b :
  let m := level_refill now (tb_per_second b) (tb_burst b) (tb_level b) in
  let again l := mkTokenBucket (tb_per_second b) (tb_burst b) l in
  (UNITS_PER_PERMIT <= units m /\
     token_bucket_try_acquire now b =
       (again (mkLevel (units m - UNITS_PER_PERMIT) (refilled_at m)), Ok ())) \/
  (units m < UNITS_PER_PERMIT /\
     token_bucket_try_acquire now b =
       (again m, Err {| rl_per_second := tb_per_second b; rl_burst := tb_burst b |})).
Proof.
  intros m again. unfold token_bucket_try_acquire. rewrite take_spec. cbv zeta. fold m.
  destruct (UNITS_PER_PERMIT <=? units m) eqn:E; bool_facts; [left|right]; done.
Qed.

Lemma try_acquire_ok now b b' r :
  token_bucket_ok b -> token_bucket_try_acquire now b = (b', r) -> token_bucket_ok b'.
Proof.
  intros (Hp & Hb & Hl). unfold token_bucket_try_acquire.
  destruct (level_take now (tb_per_second b) (tb_burst b) (tb_level b)) as [l q] eqn:E.
  intros [= <- <-]. exact (conj Hp (conj Hb (take_ok _ _ Hp Hb _ _ _ _ Hl E))).
Qed.

Lemma admitted_cons c calls :
  admitted (c :: calls) = (if c.2 then 1 else 0) + admitted calls.
Proof. done. Qed.

(** What a bucket that stands at [r] can give by [t1]: what it holds, and
    what is earned from [r] on. *)
Lemma calls_bound b times b' calls r t1 :
  token_bucket_ok b -> refilled_at (tb_level b) = Some r ->
  Forall (fun now => now <= t1) times ->
  token_bucket_calls b times = (b', calls) ->
  UNITS_PER_PERMIT * admitted calls <=
    units (tb_level b) + tb_per_second b * Z.max 0 (t1 - r).
Proof.
  revert b r calls. induction times as [|now times IH]; intros b r calls Hok Hr Ht E.
  - injection E as <- <-. destruct Hok as (Hp & _ & Hl).
    unfold level_ok, non_zero_u32 in *. change (admitted []) with 0. nia.
  - inversion Ht as [|? ? Hnow Ht']; subst. simpl in E.
    destruct (token_bucket_try_acquire now b) as [b1 q] eqn:E1.
    destruct (token_bucket_calls b1 times) as [b2 rest] eqn:E2. injection E as <- <-.
    rewrite admitted_cons; simpl.
    pose proof (try_acquire_ok _ _ _ _ Hok E1) as Hok1.
    destruct Hok as (Hp & Hb & Hl).
    pose proof (refill_units (tb_per_second b) _ Hb now (tb_level b)) as Hu.
    pose proof (refill_at (tb_per_second b) (tb_burst b) now (tb_level b)) as Ha.
    rewrite Hr in Hu, Ha. unfold non_zero_u32 in Hp.
    assert (Hsum : Z.max 0 (now - r) + Z.max 0 (t1 - Z.max r now) = Z.max 0 (t1 - r)) by lia.
    destruct (try_acquire_cases now b) as [[Hm Hq]|[Hm Hq]]; rewrite E1 in Hq;
      injection Hq as -> ->;
      pose proof (IH _ (Z.max r now) rest Hok1 Ha Ht' E2) as IH1; simpl in *; nia.
Qed.

(** What a bucket owes its callers, as of [w]: all it has earned since,
    less the [k] permits it gave since. *)
Definition earned_since (w k : Z) (b : TokenBucket) : Prop :=
  0 <= k /\
  match refilled_at (tb_level b) with
  | None => k = 0 /\ units (tb_level b) = tb_burst b * UNITS_PER_PERMIT
  | Some r =>
      (r <= w -> k = 0) /\
      Z.min (tb_burst b * UNITS_PER_PERMIT) (tb_per_second b * Z.max 0 (r - w)) -
        UNITS_PER_PERMIT * k <= units (tb_level b)
  end.

Lemma earned_since_new w per_second burst :
  earned_since w 0 (token_bucket_new per_second burst).
Proof. by repeat split. Qed.

(** The level at the moment a call is decided. *)
Lemma earned_since_refill w k b now :
  token_bucket_ok b -> earned_since w k b -> level_before now (tb_level b) ->
  let m := level_refill now (tb_per_second b) (tb_burst b) (tb_level b) in
  refilled_at m = Some now /\ (now <= w -> k = 0) /\
  Z.min (tb_burst b * UNITS_PER_PERMIT) (tb_per_second b * Z.max 0 (now - w)) -
    UNITS_PER_PERMIT * k <= units m.
Proof.
  intros (Hp & Hb & Hl) [Hk He] Hbefore m. unfold m.
  rewrite refill_at, refill_units by done. unfold level_before, level_ok in *.
  pose proof (full_in_u64 _ Hb). unfold non_zero_u32, UNITS_PER_PERMIT in *.
  destruct (refilled_at (tb_level b)) as [r|].
  - destruct He as [Hw He]. split; [f_equal; lia|]. split; [lia|].
    rewrite (Z.max_r 0 (now - r)) by lia.
    assert (0 <= (now - r) * tb_per_second b) by nia.
    destruct (decide (r <= w)) as [Hrw|Hrw].
    + rewrite (Hw Hrw) in *.
      assert (tb_per_second b * Z.max 0 (now - w) <= (now - r) * tb_per_second b) by nia. lia.
    + rewrite (Z.max_r 0 (r - w)) in He by lia. rewrite (Z.max_r 0 (now - w)) by lia.
      replace (now - w) with ((r - w) + (now - r)) by lia. lia.
  - destruct He as [-> ->]. split; [done|]. split; [done|]. nia.
Qed.

Lemma earned_since_call w k b now b' r :
  token_bucket_ok b -> earned_since w k b -> level_before now (tb_level b) ->
  token_bucket_try_acquire now b = (b', r) ->
  earned_since w (k + if (w <? now) && is_ok r then 1 else 0) b' /\
  level_before now (tb_level b').
Proof.
  intros Hok He Hbefore E.
  pose proof (earned_since_refill w k b now Hok He Hbefore) as (Ha & Hw & Hu).
  destruct He as [Hk _]. unfold UNITS_PER_PERMIT in *.
  destruct (try_acquire_cases now b) as [[Hm Hq]|[Hm Hq]]; rewrite E in Hq;
    injection Hq as -> ->; unfold earned_since, level_before; simpl in *; rewrite ?Ha;
    (destruct (w <? now) eqn:Hwn; bool_facts; simpl);
    repeat split; unfold UNITS_PER_PERMIT in *; try lia.
Qed.

Lemma admitted_after_cons w c calls :
  admitted_after w (c :: calls) =
  (if (w <? c.1) && c.2 then 1 else 0) + admitted_after w calls.
Proof.
  unfold admitted_after; simpl. destruct (w <? c.1); simpl; [|done].
  by rewrite admitted_cons.
Qed.

Lemma earned_since_calls w k b times t b' calls :
  token_bucket_ok b -> earned_since w k b -> level_before t (tb_level b) ->
  StronglySorted Z.le (t :: times) -> token_bucket_calls b times = (b', calls) ->
  token_bucket_ok b' /\ earned_since w (k + admitted_after w calls) b' /\
  (forall t1, Forall (fun x => x <= t1) (t :: times) -> level_before t1 (tb_level b')) /\
  tb_burst b' = tb_burst b /\ tb_per_second b' = tb_per_second b.
Proof.
  revert b k t calls. induction times as [|now times IH]; intros b k t calls Hok He Hb Hs E.
  - injection E as <- <-. change (admitted_after w []) with 0. rewrite Z.add_0_r.
    split_and!; try done. intros t1 [Ht _]%Forall_cons.
    unfold level_before in *. destruct (refilled_at (tb_level b)); [lia|done].
  - simpl in E. destruct (token_bucket_try_acquire now b) as [b1 q] eqn:E1.
    destruct (token_bucket_calls b1 times) as [b2 rest] eqn:E2. injection E as <- <-.
    inversion Hs as [|? ? Hs' Hall]; subst. inversion Hall as [|? ? Htn _]; subst.
    assert (Hbn : level_before now (tb_level b)).
    { unfold level_before in *. destruct (refilled_at (tb_level b)); [lia|done]. }
    destruct (earned_since_call w k b now b1 q Hok He Hbn E1) as [He1 Hb1].
    pose proof (try_acquire_ok _ _ _ _ Hok E1) as Hok1.
    destruct (IH _ _ _ _ Hok1 He1 Hb1 Hs' E2) as (H1 & H2 & H3 & H4 & H5).
    rewrite admitted_after_cons, Z.add_assoc; simpl. split; [done|]. split; [done|].
    assert (tb_burst b1 = tb_burst b /\ tb_per_second b1 = tb_per_second b) as [<- <-].
    { destruct (try_acquire_cases now b) as [[_ Hq]|[_ Hq]]; rewrite E1 in Hq;
        by injection Hq as -> ->. }
    split; [|done]. intros t1 [_ Ht]%Forall_cons. by apply H3.
Qed.

(** C20: over any stretch of time, whatever the bucket held at its start and
    in whatever order the calls come, the permits given number at most the
    burst plus what the rate earns over the stretch. *)
Theorem token_bucket_rate b times b' calls t0 t1 :
  token_bucket_ok b -> t0 <= t1 -> Forall (fun now => t0 <= now <= t1) times ->
  token_bucket_calls b times = (b', calls) ->
  UNITS_PER_PERMIT * admitted calls <=
    tb_burst b * UNITS_PER_PERMIT + tb_per_second b * (t1 - t0).
Proof.
  intros Hok Ht Hall E. destruct times as [|now times].
  { injection E as <- <-. destruct Hok as (Hp & Hb & _). change (admitted []) with 0.
    unfold non_zero_u32, UNITS_PER_PERMIT in *. nia. }
  simpl in E. destruct (token_bucket_try_acquire now b) as [b1 q] eqn:E1.
  destruct (token_bucket_calls b1 times) as [b2 rest] eqn:E2. injection E as <- <-.
  rewrite admitted_cons; simpl.
  pose proof (try_acquire_ok _ _ _ _ Hok E1) as Hok1. destruct Hok as (Hp & Hb & Hl).
  pose proof (refill_ok _ _ Hp Hb now _ Hl) as Hfull. unfold level_ok, non_zero_u32 in *.
  inversion Hall as [|? ? Hnow Hall']; subst.
  pose proof (refill_at (tb_per_second b) (tb_burst b) now (tb_level b)) as Ha.
  match type of Ha with _ = Some ?x => set (r := x) in Ha end.
  assert (t0 <= r) by (unfold r; destruct (refilled_at (tb_level b)); lia).
  assert (Ht1 : Forall (fun x => x <= t1) times)
    by (eapply Forall_impl; [exact Hall'|]; simpl; lia).
  assert (Hwin : tb_per_second b * Z.max 0 (t1 - r) <= tb_per_second b * (t1 - t0)) by nia.
  destruct (try_acquire_cases now b) as [[Hm Hq]|[Hm Hq]]; rewrite E1 in Hq;
    injection Hq as -> ->;
    pose proof (calls_bound _ times _ _ r t1 Hok1 Ha Ht1 E2) as Hbound; simpl in *; lia.
Qed.

Lemma token_bucket_rate_witness :
  UNITS_PER_PERMIT * admitted (token_bucket_calls (token_bucket_new 2 3) [5; 9; 7; 8; 6]).2 <=
  3 * UNITS_PER_PERMIT + 2 * (9 - 5).
Proof.
  apply (token_bucket_rate (token_bucket_new 2 3) [5; 9; 7; 8; 6]
           (token_bucket_calls (token_bucket_new 2 3) [5; 9; 7; 8; 6]).1 _ 5 9).
  - repeat split; vm_compute; congruence.
  - lia.
  - repeat constructor; lia.
  - vm_compute. reflexivity.
Defined.

(** A refusal is deserved. When the clock does not go back, a bucket
    that refuses a call has given at least as many permits as the burst or
    the rate allow, whichever is less, within the second before it. *)
Theorem token_bucket_refusal_deserved per_second burst times now b calls b' e :
  non_zero_u32 per_second -> non_zero_u32 burst ->
  StronglySorted Z.le (times ++ [now]) ->
  token_bucket_calls (token_bucket_new per_second burst) times = (b, calls) ->
  token_bucket_try_acquire now b = (b', Err e) ->
  Z.min burst per_second <= admitted_after (now - NANOS_PER_SEC) calls.
Proof.
  intros Hp Hb Hs E Er. set (w := now - NANOS_PER_SEC).
  assert (Hok : token_bucket_ok (token_bucket_new per_second burst)).
  { exact (conj Hp (conj Hb (level_full_ok burst Hb))). }
  set (t := match times with x :: _ => x | [] => now end).
  assert (Hst : StronglySorted Z.le (t :: times) /\ Forall (fun x => x <= now) (t :: times)).
  { unfold t. clear -Hs. destruct times as [|x times].
    - split; repeat constructor; lia.
    - apply StronglySorted_app in Hs as (Hcross & Hs & _).
      assert (Forall (fun y => y <= now) (x :: times)) as Hle.
      { apply Forall_forall. intros y Hy. apply Hcross; [done|constructor]. }
      inversion Hs as [|? ? _ Hx]; subst.
      split; constructor; try done; [constructor; [lia|done]|by inversion Hle]. }
  destruct Hst as [Hst Hle].
  destruct (earned_since_calls w 0 _ times t b calls Hok (earned_since_new w _ _) I Hst E)
    as (Hok' & He & Hbefore & Eb & Ep).
  destruct (earned_since_refill w _ b now Hok' He (Hbefore now Hle)) as (_ & _ & Hu).
  destruct (try_acquire_cases now b) as [[_ Hq]|[Hm _]]; [rewrite Er in Hq; discriminate|].
  simpl in Eb, Ep. rewrite Eb, Ep in *.
  unfold w, non_zero_u32, UNITS_PER_PERMIT, NANOS_PER_SEC in *.
  rewrite Z.max_r in Hu by lia. nia.
Qed.

Lemma token_bucket_refusal_deserved_witness :
  Z.min 2 1 <= admitted_after (7 - NANOS_PER_SEC)
                 (token_bucket_calls (token_bucket_new 1 2) [3; 5]).2.
Proof.
  eapply (token_bucket_refusal_deserved 1 2 [3; 5] 7
           (token_bucket_calls (token_bucket_new 1 2) [3; 5]).1).
  - split; vm_compute; congruence.
  - split; vm_compute; congruence.
  - repeat constructor; lia.
  - vm_compute. reflexivity.
  - vm_compute. reflexivity.
Defined.

(** A caller refused at [now] that asks again a second later, as
    [Retry-After: 1] tells it to, is given a permit, unless another caller
    asked in between. *)
Theorem token_bucket_recovers b now b' e later :
  token_bucket_ok b -> level_before now (tb_level b) ->
  token_bucket_try_acquire now b = (b', Err e) ->
  now + NANOS_PER_SEC <= later ->
  (token_bucket_try_acquire later b').2 = Ok ().
Proof.
  intros Hok Hbefore E Hlater. pose proof (try_acquire_ok _ _ _ _ Hok E) as (Hp & Hb & Hl).
  destruct (try_acquire_cases later b') as [[_ ->]|[Hm _]]; [done|exfalso].
  rewrite refill_units in Hm by done.
  assert (refilled_at (tb_level b') = Some now) as Hr.
  { destruct (try_acquire_cases now b) as [[_ Hq]|[_ Hq]]; rewrite E in Hq; [done|].
    injection Hq as -> _. cbn [tb_level]. rewrite refill_at. unfold level_before in Hbefore.
    f_equal. destruct (refilled_at (tb_level b)); lia. }
  rewrite Hr in Hm. unfold level_ok, non_zero_u32, UNITS_PER_PERMIT, NANOS_PER_SEC in *. nia.
Qed.

Lemma token_bucket_recovers_witness :
  (token_bucket_try_acquire (8 + NANOS_PER_SEC)
     (mkTokenBucket 1 1 (mkLevel 1 (Some 8)))).2 = Ok ().
Proof.
  eapply (token_bucket_recovers (mkTokenBucket 1 1 (mkLevel 0 (Some 7))) 8).
  - repeat split; vm_compute; congruence.
  - vm_compute. congruence.
  - vm_compute. reflexivity.
  - lia.
Defined.

(** The rate is not a cap over any one second: a bucket of 10 a second that
    has been quiet lets 19 through within nine tenths of a second. *)
Theorem token_bucket_second_exceeded :
  let first := repeat 0 10 in
  let rest := (fun i => 100000000 * i) <$> [1; 2; 3; 4; 5; 6; 7; 8; 9] in
  admitted (token_bucket_calls (token_bucket_new 10 10) (first ++ rest)).2 = 19 /\
  forallb (fun now => (0 <=? now) && (now <? NANOS_PER_SEC)) (first ++ rest) = true.
Proof. by vm_compute. Qed.

(** ** The table of buckets keeps what it promises *)

Section KeyedFacts.
Context {K : Type} `{Countable K}.
Implicit Types (b : KeyedBuckets K) (levels : gmap K Level).

(** A level that has been asked, last at or before [t]. *)
Definition level_asked (burst t : Z) (l : Level) : Prop :=
  level_ok burst l /\ exists r, refilled_at l = Some r /\ r <= t.

(** The table stands for [levels] from [t] on: no call can tell, of any key,
    the level it keeps (or has forgotten) from the one of [levels]. *)
Definition stands_for b levels (t : Z) : Prop :=
  let p := kb_per_second b in let burst := kb_burst b in
  non_zero_u32 p /\ non_zero_u32 burst /\
  map_Forall (fun _ l => level_asked burst t l) (kb_levels (kb_table b)) /\
  map_Forall (fun _ l => level_asked burst t l) levels /\
  forall key t', t <= t' ->
    level_refill t' p burst (default (level_full burst) (kb_levels (kb_table b) !! key)) =
    level_refill t' p burst (default (level_full burst) (levels !! key)).

Lemma level_asked_later burst t t' l : t <= t' -> level_asked burst t l -> level_asked burst t' l.
Proof. intros Ht [Ho (r & Hr & Hle)]. split; [done|]. exists r. split; [done|lia]. Qed.

Lemma stands_for_later b levels t t' : t <= t' -> stands_for b levels t -> stands_for b levels t'.
Proof.
  intros Ht (Hp & Hb & Htab & Hlev & Heq). refine (conj Hp (conj Hb (conj _ (conj _ _)))).
  - intros k l Hl. eapply level_asked_later; [done|by eapply Htab].
  - intros k l Hl. eapply level_asked_later; [done|by eapply Hlev].
  - intros k t'' Ht''. apply Heq. lia.
Qed.

Lemma take_asked p burst now l l' r :
  non_zero_u32 p -> non_zero_u32 burst -> level_ok burst l -> level_before now l ->
  level_take now p burst l = (l', r) -> level_asked burst now l'.
Proof.
  intros Hp Hb Hl Hbefore E. split; [by eapply (take_ok p burst)|].
  exists now. split; [|lia]. rewrite take_spec in E; cbv zeta in E.
  assert (refilled_at (level_refill now p burst l) = Some now) as Hr.
  { rewrite refill_at. unfold level_before in Hbefore. f_equal. destruct (refilled_at l); lia. }
  destruct (UNITS_PER_PERMIT <=? _); by injection E as <- <-.
Qed.

Lemma take_ext p burst now l m :
  level_refill now p burst l = level_refill now p burst m ->
  level_take now p burst l = level_take now p burst m.
Proof. unfold level_take. by intros ->. Qed.

Lemma asked_before burst t l : level_asked burst t l -> level_before t l.
Proof. intros [_ (r & Hr & Hle)]. unfold level_before. by rewrite Hr. Qed.

(** A counted call, whether its key is remembered or not. *)
Lemma counted_call b levels t key now :
  stands_for b levels t -> t <= now ->
  let p := kb_per_second b in let burst := kb_burst b in
  let (level, r) :=
    level_take now p burst (default (level_full burst) (kb_levels (kb_table b) !! key)) in
  let (levels', r') := never_forgets p burst levels key now in
  r = r' /\
  forall swept unt, stands_for
    (with_table b (mkTable (<[key := level]> (kb_levels (kb_table b))) swept unt)) levels' now.
Proof.
  intros Hs Hnow p burst. apply (stands_for_later _ _ _ _ Hnow) in Hs.
  destruct Hs as (Hp & Hb & Htab & Hlev & Heq).
  unfold never_forgets. fold p burst in Hp, Hb, Htab, Hlev, Heq |- *.
  rewrite <-(take_ext p burst now _ _ (Heq key now ltac:(lia))).
  destruct (level_take now p burst _) as [level r] eqn:E. split; [done|]. intros swept unt.
  assert (Hlevel : level_asked burst now level).
  { eapply (take_asked p burst now); [done..| | |exact E];
      destruct (kb_levels (kb_table b) !! key) as [l|] eqn:El; simpl.
    - by apply (Htab key).
    - by apply level_full_ok.
    - eapply asked_before. by apply (Htab key).
    - done. }
  refine (conj Hp (conj Hb (conj _ (conj _ _)))); simpl.
  - by apply map_Forall_insert_2.
  - by apply map_Forall_insert_2.
  - intros k t' Ht'. destruct (decide (k = key)) as [->|Hne].
    + by rewrite !lookup_insert_eq.
    + rewrite !lookup_insert_ne by done. by apply Heq.
Qed.

(** Forgetting what has refilled changes nothing a later call can see. *)
Lemma forget_idle_stands_for b levels t now :
  stands_for b levels t -> t <= now ->
  stands_for (with_table b (keyed_forget_idle b now)) levels now.
Proof.
  intros Hs Hnow. apply (stands_for_later _ _ _ _ Hnow) in Hs.
  unfold keyed_forget_idle. destruct (is_some_and _ _).
  { by destruct b. }
  destruct Hs as (Hp & Hb & Htab & Hlev & Heq).
  refine (conj Hp (conj Hb (conj _ (conj Hlev _)))); cbn [kb_levels kb_table with_table kb_burst kb_per_second].
  - intros k l Hl. rewrite lookup_omap_Some in Hl. destruct Hl as (l0 & El & Hl0).
    pose proof (Htab _ _ Hl0) as Ha.
    destruct (level_is_full _ _); [done|]. injection El as <-.
    split; [by apply refill_ok; [..|apply Ha]|]. exists now. split; [|lia].
    rewrite refill_at. destruct Ha as [_ (r & -> & Hr)]. f_equal. lia.
  - intros k t' Ht'. rewrite <-(Heq k t' Ht'), lookup_omap.
    destruct (kb_levels (kb_table b) !! k) as [l|] eqn:El; simpl; [|done].
    pose proof (Htab _ _ El) as Ha.
    assert (Hrr : level_refill t' (kb_per_second b) (kb_burst b)
                    (level_refill now (kb_per_second b) (kb_burst b) l) =
                  level_refill t' (kb_per_second b) (kb_burst b) l).
    { apply refill_refill; try done; [apply Ha|exact (asked_before _ _ _ Ha)|].
      destruct Ha as [_ (r & -> & _)]. done. }
    destruct (level_is_full _ _) eqn:Ef; simpl; [|done].
    rewrite <-Hrr. symmetry. apply refill_full; try done. exact (asked_before _ _ _ Ha).
Qed.

Lemma forget_idle_untracked b now : untracked (keyed_forget_idle b now) = untracked (kb_table b).
Proof. unfold keyed_forget_idle. by destruct (is_some_and _ _). Qed.

(** One call against the specification. *)
Lemma keyed_call_stands_for b levels t key now b' r counted :
  stands_for b levels t -> t <= now -> keyed_call b key now = (b', r, counted) ->
  (kb_per_second b' = kb_per_second b /\ kb_burst b' = kb_burst b) /\
  if counted : bool
  then exists levels', never_forgets (kb_per_second b) (kb_burst b) levels key now = (levels', r) /\
                       stands_for b' levels' now
  else r = Ok () /\ stands_for b' levels now.
Proof.
  intros Hs Hnow. unfold keyed_call, keyed_try_acquire.
  destruct (kb_levels (kb_table b) !! key) as [l|] eqn:El.
  - pose proof (counted_call b levels t key now Hs Hnow) as Hc. rewrite El in Hc. simpl in Hc.
    destruct (level_take now _ _ l) as [level q].
    destruct (never_forgets _ _ levels key now) as [levels' q']. destruct Hc as [-> Hs'].
    intros [= <- <- <-]. split; [done|]. simpl. rewrite Z.eqb_refl. eauto.
  - set (t1 := if kb_capacity b <=? keyed_tracked b then _ else _).
    assert (Hs1 : stands_for (with_table b t1) levels now).
    { unfold t1. destruct (_ <=? _); [by eapply forget_idle_stands_for|].
      destruct b. by eapply stands_for_later. }
    assert (Hu : untracked t1 = untracked (kb_table b)).
    { unfold t1. destruct (_ <=? _); [apply forget_idle_untracked|done]. }
    assert (Hn : kb_levels t1 !! key = None).
    { unfold t1. destruct (_ <=? _); [|done]. unfold keyed_forget_idle.
      destruct (is_some_and _ _); [done|]. simpl. by rewrite lookup_omap, El. }
    clearbody t1. destruct (kb_capacity b <=? keyed_tracked (with_table b t1)).
    + intros [= <- <- <-]. simpl. replace (_ =? _) with false by lia. by destruct b.
    + pose proof (counted_call _ levels now key now Hs1 ltac:(lia)) as Hc. simpl in Hc.
      rewrite Hn in Hc. simpl in Hc. destruct (level_take now _ _ _) as [level q].
      destruct (never_forgets _ _ levels key now) as [levels' q']. destruct Hc as [-> Hs'].
      intros [= <- <- <-]. split; [done|]. simpl. rewrite Hu, Z.eqb_refl. eauto.
Qed.

Lemma keyed_calls_refine b levels t calls :
  stands_for b levels t -> StronglySorted Z.le (t :: calls.*2) ->
  never_forgets_calls (kb_per_second b) (kb_burst b) levels calls (keyed_calls b calls).*2 =
  (keyed_calls b calls).*1.
Proof.
  revert b levels t. induction calls as [|[key now] calls IH]; intros b levels t Hs Ht; [done|].
  inversion Ht as [|? ? Ht' Hall]; subst. inversion Hall as [|? ? Hnow _]; subst.
  simpl. destruct (keyed_call b key now) as [[b' r] counted] eqn:E.
  destruct (keyed_call_stands_for _ _ _ _ _ _ _ _ Hs Hnow E) as [[Ep Eb] Hc].
  specialize (IH b'). rewrite Ep, Eb in IH. csimpl. destruct counted.
  - destruct Hc as (levels' & -> & Hs'). f_equal. by eapply IH.
  - destruct Hc as [-> Hs']. f_equal. by eapply IH.
Qed.

(** *** Which keys are let through uncounted

    A key is remembered while its bucket may not have refilled by the last
    sweep: with its last counted call at [t0], it earned at least what the
    rate gives since. *)
Definition remembered (asked : list (K * Z)) b (t : Z) : Prop :=
  let full := kb_burst b * UNITS_PER_PERMIT in
  (forall s, swept_at (kb_table b) = Some s -> s <= t) /\
  forall key l, kb_levels (kb_table b) !! key = Some l ->
    exists t0 r, (key, t0) ∈ asked /\ refilled_at l = Some r /\ t0 <= r <= t /\
      Z.min full ((r - t0) * kb_per_second b) <= units l /\
      forall s, swept_at (kb_table b) = Some s -> (s - t0) * kb_per_second b < full.

(** A key whose bucket was not full a sweep's interval before [now], by the
    calls alone. *)
Definition busy (per_second burst now : Z) (asked : list (K * Z)) (key : K) : Prop :=
  exists t0, (key, t0) ∈ asked /\ (now - SWEEP_INTERVAL - t0) * per_second < burst * UNITS_PER_PERMIT.

Lemma remembered_asked asked b t now key l swept unt :
  non_zero_u32 (kb_per_second b) -> non_zero_u32 (kb_burst b) -> t <= now ->
  remembered asked (with_table b (mkTable (kb_levels (kb_table b)) swept unt)) t ->
  level_ok (kb_burst b) l -> refilled_at l = Some now ->
  remembered (asked ++ [(key, now)]) (with_table b (mkTable (<[key := l]> (kb_levels (kb_table b))) swept unt)) now.
Proof.
  unfold remembered; simpl. unfold level_ok, non_zero_u32, UNITS_PER_PERMIT.
  intros Hp Hb Ht [Hsw Hrem] Hl Hat. split; [intros s Hs; specialize (Hsw s Hs); lia|]. intros k m Hm.
  destruct (decide (k = key)) as [->|Hne].
  - rewrite lookup_insert_eq in Hm. injection Hm as <-. exists now, now.
    split_and!; [set_solver|done|lia|lia|lia|]. intros s Hs. specialize (Hsw s Hs). nia.
  - rewrite lookup_insert_ne in Hm by done. destruct (Hrem k m Hm) as (t0 & r & Hin & Hr & Hle & Hu & Hf).
    exists t0, r. split_and!; [set_solver|done|lia|lia|done|done].
Qed.

Lemma remembered_later asked asked' b t now unt :
  t <= now -> remembered asked b t ->
  remembered (asked ++ asked') (with_table b (mkTable (kb_levels (kb_table b)) (swept_at (kb_table b)) unt)) now.
Proof.
  intros Ht [Hsw Hrem]. split; simpl; [intros s Hs; specialize (Hsw s Hs); lia|]. intros k m Hm.
  destruct (Hrem k m Hm) as (t0 & r & Hin & Hr & Hle & Hu & Hf).
  exists t0, r. split_and!; [set_solver|done|lia|lia|done|done].
Qed.

(** A sweep, or the one less than the interval before. *)
Lemma remembered_forget asked b t now :
  non_zero_u32 (kb_per_second b) -> non_zero_u32 (kb_burst b) -> t <= now -> remembered asked b t ->
  let b' := with_table b (keyed_forget_idle b now) in
  remembered asked b' now /\
  exists s, swept_at (kb_table b') = Some s /\ now - SWEEP_INTERVAL < s.
Proof.
  intros Hp Hb Ht Hrem. unfold keyed_forget_idle. destruct (is_some_and _ _) eqn:Es.
  - destruct (swept_at (kb_table b)) as [s|] eqn:E; simpl in Es; [|done]. split.
    + apply (remembered_later _ [] _ _ now (untracked (kb_table b)) Ht) in Hrem. rewrite app_nil_r in Hrem.
      by destruct b as [? ? ? []].
    + exists s. split; [done|]. unfold saturating_duration_since in Es. apply Z.ltb_lt in Es. lia.
  - clear Es. simpl. split; [|by exists now; unfold SWEEP_INTERVAL, from_secs, NANOS_PER_SEC; split; [done|lia]].
    split; simpl; [intros s [= <-]; lia|]. intros k m Hm. rewrite lookup_omap_Some in Hm. destruct Hm as (l & El & Hl).
    destruct (level_is_full _ _) eqn:Ef; [done|]. injection El as <-.
    destruct (proj2 Hrem k l Hl) as (t0 & r & Hin & Hr & Hle & Hu & _).
    exists t0, now. rewrite refill_at, Hr.
    pose proof (refill_units (kb_per_second b) _ Hb now l) as E. rewrite Hr, Z.max_r in E by lia.
    unfold level_is_full in Ef. apply Z.eqb_neq in Ef. unfold level_ok, non_zero_u32, UNITS_PER_PERMIT, NANOS_PER_SEC in *.
    split_and!; [done|f_equal; lia|lia|lia|nia|]. intros s [= <-]. nia.
Qed.

(** What an uncounted call says of the calls before it. *)
Lemma uncounted_busy asked b t now :
  non_zero_u32 (kb_per_second b) -> remembered asked b t -> (exists s, swept_at (kb_table b) = Some s /\ now - SWEEP_INTERVAL < s) ->
  exists others, NoDup others /\ length others = size (kb_levels (kb_table b)) /\
    forall key, (kb_levels (kb_table b) !! key = None -> key ∉ others) /\
      (key ∈ others -> busy (kb_per_second b) (kb_burst b) now asked key).
Proof.
  intros Hp [_ Hrem] (s & Hs & Hlt). exists (map_to_list (kb_levels (kb_table b))).*1.
  split_and!; [apply NoDup_fst_map_to_list|by rewrite length_fmap, length_map_to_list|].
  intros key. split; intros Hk.
  - intros ([k l] & -> & Hin)%list_elem_of_fmap. apply elem_of_map_to_list in Hin. simpl in Hk. congruence.
  - apply list_elem_of_fmap in Hk as ([k l] & -> & Hin). apply elem_of_map_to_list in Hin.
    destruct (Hrem _ _ Hin) as (t0 & r & Hin0 & _ & _ & _ & Hf). exists t0. split; [done|].
    specialize (Hf s Hs). unfold non_zero_u32 in Hp. nia.
Qed.

Lemma keyed_call_remembered asked b levels t key now b' r counted :
  1 <= kb_capacity b -> stands_for b levels t -> remembered asked b t -> keyed_tracked b <= kb_capacity b -> t <= now ->
  keyed_call b key now = (b', r, counted) ->
  remembered (asked ++ [(key, now)]) b' now /\
  (counted = false ->
   exists others, NoDup others /\ Z.of_nat (length others) = kb_capacity b /\ key ∉ others /\
     forall k, k ∈ others -> busy (kb_per_second b) (kb_burst b) now asked k).
Proof.
  intros Hcap Hs Hrem Htr Ht. destruct Hs as (Hp & Hb & Htab & _).
  assert (Htake : forall l l' q, level_ok (kb_burst b) l -> level_before now l ->
            level_take now (kb_per_second b) (kb_burst b) l = (l', q) ->
            level_ok (kb_burst b) l' /\ refilled_at l' = Some now).
  { intros l l' q Hl Hbe E. destruct (take_asked _ _ _ _ _ _ Hp Hb Hl Hbe E) as [? _]. split; [done|].
    rewrite take_spec in E. cbv zeta in E. unfold level_before in Hbe.
    assert (refilled_at (level_refill now (kb_per_second b) (kb_burst b) l) = Some now) as Ha
      by (rewrite refill_at; f_equal; destruct (refilled_at l); lia).
    destruct (UNITS_PER_PERMIT <=? _); by injection E as <- <-. }
  unfold keyed_call, keyed_try_acquire. destruct (kb_levels (kb_table b) !! key) as [l|] eqn:El.
  - destruct (level_take now _ _ l) as [level q] eqn:E. intros [= <- <- <-].
    destruct (Htake _ _ _ (proj1 (Htab _ _ El)) (asked_before _ _ _ (level_asked_later _ _ _ _ Ht (Htab _ _ El))) E).
    split; [|by simpl; rewrite Z.eqb_refl].
    eapply (remembered_asked _ _ t); try done.
  - set (t1 := if kb_capacity b <=? keyed_tracked b then _ else _).
    assert (H1 : remembered asked (with_table b t1) now /\ kb_levels t1 !! key = None /\
                 untracked t1 = untracked (kb_table b) /\
                 (size (kb_levels t1) <= size (kb_levels (kb_table b)))%nat /\
                 (kb_capacity b <= keyed_tracked (with_table b t1) ->
                  exists s, swept_at t1 = Some s /\ now - SWEEP_INTERVAL < s)).
    { unfold t1. destruct (_ <=? _) eqn:Ec.
      - destruct (remembered_forget _ _ _ _ Hp Hb Ht Hrem) as [Hr Hsw].
        split_and!; [done| |apply forget_idle_untracked| |intros _; exact Hsw].
        + unfold keyed_forget_idle. destruct (is_some_and _ _); [done|]. simpl. by rewrite lookup_omap, El.
        + unfold keyed_forget_idle. destruct (is_some_and _ _); [done|]. simpl.
          rewrite <-!size_dom. apply subseteq_size, dom_omap_subseteq.
      - split_and!; [|done|done|done|].
        2: { apply Z.leb_gt in Ec. unfold keyed_tracked, with_table in *. simpl. intros. lia. }
        apply (remembered_later _ [] _ _ now (untracked (kb_table b)) Ht) in Hrem. rewrite app_nil_r in Hrem.
        by destruct b as [? ? ? []]. }
    clearbody t1. destruct H1 as (Hr1 & Hn1 & Hu1 & Hsz & Hsw).
    destruct (kb_capacity b <=? keyed_tracked (with_table b t1)) eqn:Ec.
    + intros [= <- <- <-]. apply Z.leb_le in Ec. split.
      * by apply (remembered_later _ [(key, now)] _ _ now (untracked t1 + 1) (Z.le_refl now)) in Hr1.
      * intros _. destruct (uncounted_busy _ (with_table b t1) _ now Hp Hr1 (Hsw Ec)) as (others & Hnd & Hlen & Hk).
        exists others. unfold keyed_tracked in *. simpl in *.
        split_and!; [done|lia|by apply Hk|]. intros k. apply Hk.
    + destruct (level_take now _ _ _) as [level q] eqn:E. intros [= <- <- <-].
      destruct (Htake _ _ _ (level_full_ok _ Hb) I E) as [Ho Ha]. split; [|by simpl; rewrite Hu1, Z.eqb_refl].
      eapply (remembered_asked _ (with_table b t1) now now); try done.
Qed.

(** The table never remembers more keys than it is sized for, and lets a
    call through uncounted only for a key it does not remember while it is
    full. *)
Lemma keyed_capacity b key now b' r counted :
  1 <= kb_capacity b -> keyed_tracked b <= kb_capacity b ->
  keyed_call b key now = (b', r, counted) ->
  kb_capacity b' = kb_capacity b /\ keyed_tracked b' <= kb_capacity b /\
  (counted = false ->
     kb_levels (kb_table b) !! key = None /\ keyed_tracked b = kb_capacity b /\
     keyed_tracked b' = kb_capacity b /\
     untracked (kb_table b') = untracked (kb_table b) + 1).
Proof.
  intros Hcap Htr. unfold keyed_call, keyed_try_acquire, keyed_tracked in *.
  destruct (kb_levels (kb_table b) !! key) as [l|] eqn:El.
  - destruct (level_take _ _ _ l) as [level q]. intros [= <- <- <-]. simpl.
    rewrite map_size_insert, El, Z.eqb_refl. done.
  - assert (Hf : (size (kb_levels (keyed_forget_idle b now)) <= size (kb_levels (kb_table b)))%nat).
    { unfold keyed_forget_idle. destruct (is_some_and _ _); [done|]. simpl.
      rewrite <-!size_dom. apply subseteq_size, dom_omap_subseteq. }
    pose proof (forget_idle_untracked b now) as Hu.
    destruct (kb_capacity b <=? Z.of_nat (size (kb_levels (kb_table b)))) eqn:E1; bool_facts;
      cbn [with_table kb_table] in *.
    + destruct (_ <=? Z.of_nat (size (kb_levels (keyed_forget_idle b now)))) eqn:E2; bool_facts.
      * intros [= <- <- <-]. simpl. rewrite Hu. repeat split; lia.
      * destruct (level_take _ _ _ _) as [level q]. intros [= <- <- <-]. simpl.
        rewrite map_size_insert, Hu, Z.eqb_refl. repeat split; [|done..].
        generalize dependent (kb_levels (keyed_forget_idle b now)). intros m; intros.
        destruct (m !! key); unfold id; lia.
    + replace (_ <=? _) with false by lia.
      destruct (level_take _ _ _ _) as [level q]. intros [= <- <- <-]. simpl.
      rewrite map_size_insert, El, Z.eqb_refl. repeat split; [lia|done..].
Qed.

Lemma keyed_calls_uncounted asked b levels t calls i key now :
  1 <= kb_capacity b -> stands_for b levels t -> remembered asked b t -> keyed_tracked b <= kb_capacity b ->
  StronglySorted Z.le (t :: calls.*2) ->
  calls !! i = Some (key, now) -> (keyed_calls b calls).*2 !! i = Some false ->
  exists others, NoDup others /\ Z.of_nat (length others) = kb_capacity b /\ key ∉ others /\
    forall k, k ∈ others -> busy (kb_per_second b) (kb_burst b) now (asked ++ take i calls) k.
Proof.
  revert asked b levels t i. induction calls as [|[k0 t0] calls IH]; intros asked b levels t i Hcap Hs Hrem Htr Ht; [done|].
  inversion Ht as [|? ? Ht' Hall]; subst. inversion Hall as [|? ? Hnow _]; subst.
  simpl. destruct (keyed_call b k0 t0) as [[b' r] counted] eqn:E.
  destruct (keyed_call_remembered _ _ _ _ _ _ _ _ _ Hcap Hs Hrem Htr Hnow E) as [Hrem' Hun].
  destruct (keyed_capacity _ _ _ _ _ _ Hcap Htr E) as (Ec & Htr' & _).
  destruct (keyed_call_stands_for _ _ _ _ _ _ _ _ Hs Hnow E) as [[Ep Eb] Hc].
  assert (exists levels', stands_for b' levels' t0) as [levels' Hs'].
  { destruct counted; [destruct Hc as (levels' & _ & ?)|destruct Hc]; eauto. }
  destruct i as [|i]; csimpl.
  - intros [= <- <-] [= ->]. rewrite app_nil_r. by apply Hun.
  - intros Hi Hf. destruct (IH (asked ++ [(k0, t0)]) b' levels' t0 i) as (others & ? & Hlen & ? & Hk);
      [lia|done|done|lia|done|done|done|].
    exists others. rewrite Ec in Hlen. split_and!; [done..|]. intros k Hin. rewrite <-Ep, <-Eb.
    specialize (Hk k Hin). by rewrite <-app_assoc in Hk.
Qed.


End KeyedFacts.

Definition keyed_example : list (Z * Z) := [(1, 0); (2, 1); (1, 2); (3, 3); (3, 2000000000)].


Lemma keyed_capacity_witness :
  exists b', keyed_tracked b' <= 1 /\
    b' = (keyed_call (keyed_call (keyed_new 1 1 1) 7 0).1.1 8 0).1.1.
Proof.
  exists (keyed_call (keyed_call (keyed_new 1 1 1) 7 0).1.1 8 0).1.1. split; [|reflexivity].
  apply (keyed_capacity (keyed_call (keyed_new 1 1 1) 7 0).1.1 8 0 _ (Ok ()) false).
  - vm_compute. congruence.
  - vm_compute. congruence.
  - vm_compute. reflexivity.
Defined.

(** ** The concurrency limit under any interleaving *)

(** The attempts that have read a number under the cap and will succeed. *)
Definition winners (limit : ConcurrencyLimit) (pending : list Z) : list Z :=
  keep (fun v => is_ok (limit_decide limit v)) pending.

(** The counter counts the permits and the attempts, and the permits held
    together with those about to be never exceed the cap. *)
Definition limit_inv (max : option Z) (s : LimitState) : Prop :=
  limit_max (ls_limit s) = max /\ 0 <= ls_held s /\
  (in_use (ls_limit s) = ls_held s + Z.of_nat (length (ls_pending s)) /\
   in_use (ls_limit s) <= u64_max) /\
  match max with
  | Some m => ls_held s + Z.of_nat (length (winners (ls_limit s) (ls_pending s))) <= m
  | None => True
  end.

Lemma winners_limit l l' pending : limit_max l = limit_max l' -> winners l pending = winners l' pending.
Proof. intros E. apply keep_ext. intros v _. unfold limit_decide. by rewrite E. Qed.

Lemma winners_cons l v p :
  winners l (v :: p) = if is_ok (limit_decide l v) then v :: winners l p else winners l p.
Proof. done. Qed.

Lemma winners_app l p q : winners l (p ++ q) = winners l p ++ winners l q.
Proof. apply keep_app. Qed.

Lemma limit_start_inv max :
  match max with Some m => 0 <= m | None => True end -> limit_inv max (limit_start max).
Proof. intros H. by repeat split. Qed.

Lemma limit_step_inv max s s' : limit_inv max s -> limit_step s s' -> limit_inv max s'.
Proof.
  intros (Hmax & Hheld & [Huse Hu64] & Hcap) Hstep.
  destruct Hstep as [limit held pending Hlive|limit held before v after Hd
                    |limit held before v after e Hd|limit held pending Hpos];
    simpl in *; unfold limit_inv; cbn [ls_limit ls_held ls_pending limit_max in_use
      limit_fetch_add permit_drop]; (split; [done|]); (split; [lia|]).
  - rewrite wrap64_small by lia. split; [simpl; lia|]. destruct max as [m|]; [|done].
    rewrite (winners_limit _ limit), winners_cons by done.
    pose proof (length_keep_le (fun v => is_ok (limit_decide limit v)) pending) as Hle.
    fold (winners limit pending) in Hle. unfold limit_decide at 1. rewrite Hmax.
    destruct (m <=? in_use limit) eqn:E; bool_facts; simpl; lia.
  - rewrite length_app in *. simpl in Huse. split; [lia|]. destruct max as [m|]; [|done].
    rewrite winners_app, ?winners_cons, ?Hd, length_app in *. simpl in *. lia.
  - rewrite length_app in *. simpl in Huse. rewrite wrap64_small by lia. split; [lia|].
    destruct max as [m|]; [|done]. rewrite (winners_limit _ limit) by done.
    rewrite winners_app, winners_cons, Hd in Hcap. rewrite winners_app. done.
  - rewrite wrap64_small by lia. split; [lia|]. destruct max as [m|]; [|done].
    rewrite (winners_limit _ limit) by done. lia.
Qed.

Lemma limit_reachable_inv max s :
  match max with Some m => 0 <= m | None => True end ->
  rtc limit_step (limit_start max) s -> limit_inv max s.
Proof.
  intros Hm. apply rtc_invariant; [by apply limit_start_inv|].
  intros ? ?. apply limit_step_inv.
Qed.

(** However threads interleave, the permits held at once never number
    more than the cap, and the counter never wraps: it is exactly the
    permits held and the attempts not decided. *)
Theorem concurrency_limit_safe max s :
  0 <= max -> rtc limit_step (limit_start (Some max)) s ->
  ls_held s <= max /\
  in_use (ls_limit s) = ls_held s + Z.of_nat (length (ls_pending s)).
Proof.
  intros Hm Hr. pose proof (limit_reachable_inv (Some max) s Hm Hr) as (_ & _ & [Huse _] & Hcap).
  split; [lia|done].
Qed.

Lemma concurrency_limit_safe_witness :
  let s := mkLimitState (mkConcurrencyLimit 2 (Some 1)) 1 [1] in
  ls_held s <= 1 /\ in_use (ls_limit s) = ls_held s + Z.of_nat (length (ls_pending s)).
Proof.
  apply (concurrency_limit_safe 1). { lia. }
  eapply (rtc_l _ _ (mkLimitState (mkConcurrencyLimit 1 (Some 1)) 0 [0])).
  { apply (step_attempt (mkConcurrencyLimit 0 (Some 1)) 0 []). vm_compute. reflexivity. }
  eapply (rtc_l _ _ (mkLimitState (mkConcurrencyLimit 2 (Some 1)) 0 [1; 0])).
  { apply (step_attempt (mkConcurrencyLimit 1 (Some 1)) 0 [0]). vm_compute. reflexivity. }
  eapply rtc_l; [|apply rtc_refl].
  apply (step_taken (mkConcurrencyLimit 2 (Some 1)) 0 [1] 0 []). reflexivity.
Defined.

(** Alone, an attempt succeeds exactly when the cap is not reached, counts
    one more when it does and leaves the count as it was when it does not. *)
Theorem limit_try_acquire_spec s :
  0 <= in_use s < u64_max ->
  limit_try_acquire s =
  match limit_max s with
  | Some max =>
      if max <=? in_use s then (s, Err {| lr_max := max |})
      else (mkConcurrencyLimit (in_use s + 1) (limit_max s), Ok ())
  | None => (mkConcurrencyLimit (in_use s + 1) (limit_max s), Ok ())
  end.
Proof.
  intros Hs. unfold limit_try_acquire, limit_decide, limit_fetch_add; simpl.
  assert (wrap64 (in_use s + 1) = in_use s + 1) as -> by (apply wrap64_small; lia).
  destruct s as [n [m|]]; simpl in *; [|done].
  destruct (m <=? n); [|done]. unfold permit_drop; simpl. do 2 f_equal.
  rewrite wrap64_small; lia.
Qed.
