(* ===== verification/HealthChecking.v ===== *)
(** * Health checking: [lib/health-checking]

    The probes' verdicts ([probe.rs]), the thresholds that turn them into a
    status ([state_machine.rs]), the statuses pools read through shared
    handles ([health_map.rs]) and the set of running probe loops
    ([checker.rs]).

    A [HealthHandle] is shared by the map that writes it and the pools that
    read it: handles live in a heap, and a map entry and a pool hold the
    handle's location. The order in which a [HashMap] is iterated over is
    not specified, so of what [reconcile] tells the observer only which
    calls it makes is stated, not their order. *)

From S2P Require Import Prelude Str.

(** ** Statuses and handles *)

Inductive HealthStatus := Unknown | Healthy | Unhealthy | Draining.

#[export] Instance HealthStatus_eq_dec : EqDecision HealthStatus.
Proof. solve_decision. Defined.

Definition status_is_selectable (s : HealthStatus) : bool :=
  match s with Healthy => true | _ => false end.

Definition status_as_u8 (s : HealthStatus) : Z :=
  match s with Unknown => 0 | Healthy => 1 | Unhealthy => 2 | Draining => 3 end.

Definition status_from_u8 (n : Z) : HealthStatus :=
  match n with 1 => Healthy | 2 => Unhealthy | 3 => Draining | _ => Unknown end.

Record HealthHandle := mkHealthHandle {
  hh_status : Z;
  unknown_is_selectable : bool;
}.

Definition handle_new (unknown_is_selectable : bool) : HealthHandle :=
  mkHealthHandle (status_as_u8 Unknown) unknown_is_selectable.

Definition handle_status (h : HealthHandle) : HealthStatus := status_from_u8 (hh_status h).

Definition handle_set (s : HealthStatus) (h : HealthHandle) : HealthHandle :=
  mkHealthHandle (status_as_u8 s) (unknown_is_selectable h).

Definition handle_is_selectable (h : HealthHandle) : bool :=
  match handle_status h with
  | Healthy => true
  | Unknown => unknown_is_selectable h
  | Unhealthy | Draining => false
  end.

(** ** The map, and the heap its handles live in *)

Notation Key := (str * Z)%type.

(** The location of a handle: an [Arc<HealthHandle>]. *)
Notation HandleRef := nat.

Record HealthMap := mkHealthMap {
  hm_heap : list HealthHandle;
  hm_map : gmap Key HandleRef;
  assume_healthy_when_unknown : bool;
}.

Definition health_map_new (assume_healthy_when_unknown : bool) : HealthMap :=
  mkHealthMap [] ∅ assume_healthy_when_unknown.

Definition health_map_handle (key : Key) (m : HealthMap) : HealthMap * HandleRef :=
  match hm_map m !! key with
  | Some r => (m, r)
  | None =>
      let r := length (hm_heap m) in
      (mkHealthMap (hm_heap m ++ [handle_new (assume_healthy_when_unknown m)])
         (<[key := r]> (hm_map m)) (assume_healthy_when_unknown m), r)
  end.

Definition health_map_set (key : Key) (status : HealthStatus) (m : HealthMap) : HealthMap :=
  let (m, r) := health_map_handle key m in
  mkHealthMap (alter (handle_set status) r (hm_heap m)) (hm_map m)
    (assume_healthy_when_unknown m).

(** What whoever holds the handle at [r] reads. *)
Definition read_handle (m : HealthMap) (r : HandleRef) : option HealthHandle := hm_heap m !! r.

Definition health_map_get (key : Key) (m : HealthMap) : HealthStatus :=
  match hm_map m !! key ≫= read_handle m with
  | Some h => handle_status h
  | None => Unknown
  end.

Definition health_map_is_selectable (key : Key) (m : HealthMap) : bool :=
  match hm_map m !! key ≫= read_handle m with
  | Some h => handle_is_selectable h
  | None => assume_healthy_when_unknown m
  end.

Definition health_map_retain (keep : list Key) (m : HealthMap) : HealthMap :=
  mkHealthMap (hm_heap m) (filter (fun kr => kr.1 ∈ keep) (hm_map m))
    (assume_healthy_when_unknown m).

Definition health_map_len (m : HealthMap) : Z := Z.of_nat (size (hm_map m)).

(** Whatever is done to a map: by the checker, by pools being built and by a
    reload. *)
Inductive HealthOp :=
| OpHandle (key : Key)
| OpSet (key : Key) (status : HealthStatus)
| OpRetain (keep : list Key).

Definition health_op (o : HealthOp) (m : HealthMap) : HealthMap :=
  match o with
  | OpHandle key => (health_map_handle key m).1
  | OpSet key status => health_map_set key status m
  | OpRetain keep => health_map_retain keep m
  end.

Definition health_ops (os : list HealthOp) (m : HealthMap) : HealthMap :=
  foldl (fun m o => health_op o m) m os.

(** ** Thresholds *)

Inductive ProbeResult := Pass | Drain | Fail.

#[export] Instance ProbeResult_eq_dec : EqDecision ProbeResult.
Proof. solve_decision. Defined.

Record BackendHealth := mkBackendHealth {
  bh_status : HealthStatus;
  consecutive_success : Z;
  consecutive_failure : Z;
}.

Definition backend_health_default : BackendHealth := mkBackendHealth Unknown 0 0.

Definition backend_health_record (outcome : ProbeResult)
    (healthy_threshold unhealthy_threshold : Z) (b : BackendHealth) :
    BackendHealth * option HealthStatus :=
  match outcome with
  | Drain =>
      if bool_decide (bh_status b <> Draining)
      then (mkBackendHealth Draining 0 0, Some Draining)
      else (mkBackendHealth (bh_status b) 0 0, None)
  | Pass =>
      let success := saturating_add_u32 (consecutive_success b) 1 in
      if bool_decide (bh_status b <> Healthy) && (healthy_threshold <=? success)
      then (mkBackendHealth Healthy success 0, Some Healthy)
      else (mkBackendHealth (bh_status b) success 0, None)
  | Fail =>
      let failure := saturating_add_u32 (consecutive_failure b) 1 in
      if bool_decide (bh_status b <> Unhealthy) && (unhealthy_threshold <=? failure)
      then (mkBackendHealth Unhealthy 0 failure, Some Unhealthy)
      else (mkBackendHealth (bh_status b) 0 failure, None)
  end.

(** A probe loop from its start, outcome after outcome: where it stands, and
    what each probe committed. *)
Fixpoint backend_health_run (h u : Z) (b : BackendHealth) (outcomes : list ProbeResult) :
    BackendHealth * list (option HealthStatus) :=
  match outcomes with
  | [] => (b, [])
  | o :: outcomes =>
      let (b, t) := backend_health_record o h u b in
      let (b, ts) := backend_health_run h u b outcomes in
      (b, t :: ts)
  end.

(** *** What the thresholds promise, on the outcomes latest first *)

Fixpoint streak (o : ProbeResult) (latest_first : list ProbeResult) : Z :=
  match latest_first with
  | x :: rest => if bool_decide (x = o) then 1 + streak o rest else 0
  | [] => 0
  end.

Fixpoint committed (h u : Z) (latest_first : list ProbeResult) : HealthStatus :=
  match latest_first with
  | [] => Unknown
  | Drain :: _ => Draining
  | Pass :: rest =>
      if h <=? streak Pass latest_first then Healthy else committed h u rest
  | Fail :: rest =>
      if u <=? streak Fail latest_first then Unhealthy else committed h u rest
  end.

(** ** Probes

    What the network answers is an argument: a probe either times out or
    ends with an answer or an error. *)

Inductive Timed (A E : Type) :=
| TimedOut
| InTime (r : result A E).
Arguments TimedOut {A E}.
Arguments InTime {A E} r.

Inductive ProbeKind :=
| TcpKind
| HttpKind (path : str) (expected_status : Z) (drain_status : option Z) (tls : bool)
| GrpcKind (tls : bool).

#[export] Instance ProbeKind_eq_dec : EqDecision ProbeKind.
Proof. solve_decision. Defined.

Definition tcp_check {A E} (connect : Timed A E) : ProbeResult :=
  match connect with
  | InTime (Ok _) => Pass
  | InTime (Err _) => Fail
  | TimedOut => Fail
  end.

Definition http_check {E} (expected : Z) (drain : option Z) (answer : Timed Z E) : ProbeResult :=
  match answer with
  | InTime (Ok status) =>
      if status =? expected then Pass
      else if bool_decide (Some status = drain) then Drain
      else Fail
  | InTime (Err _) => Fail
  | TimedOut => Fail
  end.

Inductive ServingStatus := Serving | NotServing | OtherStatus.

#[export] Instance ServingStatus_eq_dec : EqDecision ServingStatus.
Proof. solve_decision. Defined.

(** [u32::from_be_bytes]. *)
Definition u32_from_be (a b c d : Z) : Z := ((a * 256 + b) * 256 + c) * 256 + d.

Definition serving_status (body : list Z) : option ServingStatus :=
  match body with
  | flag :: b1 :: b2 :: b3 :: b4 :: rest =>
      if negb (flag =? 0) then None else
      let length := u32_from_be b1 b2 b3 b4 in
      if Z.of_nat (List.length rest) <? length then None else
      match take (Z.to_nat length) rest with
      | 8 :: 1 :: _ => Some Serving
      | 8 :: 2 :: _ => Some NotServing
      | _ => Some OtherStatus
      end
  | _ => None
  end.

(** The answer to a [Check] call: the head, then the body with its
    trailers, or what went wrong reading it. *)
Record CheckResponse (E : Type) := mkCheckResponse {
  cr_status : Z;
  cr_grpc_status : option str;
  cr_collected : result (list Z * option (option str)) E;
}.
Arguments mkCheckResponse {E} _ _ _.
Arguments cr_status {E} _.
Arguments cr_grpc_status {E} _.
Arguments cr_collected {E} _.

Inductive CallError (E : Type) :=
| TransportError (e : E)
| NotAnswered200 (status : Z)
| GrpcStatus (status : option str)
| NotAHealthCheckResponse.
Arguments TransportError {E} e.
Arguments NotAnswered200 {E} status.
Arguments GrpcStatus {E} status.
Arguments NotAHealthCheckResponse {E}.

(** [GrpcProbe::call], from the moment the response's head is in. *)
Definition grpc_call {E} (sent : result (CheckResponse E) E) : result ServingStatus (CallError E) :=
  match sent with
  | Err e => Err (TransportError e)
  | Ok response =>
      if negb (cr_status response =? 200) then Err (NotAnswered200 (cr_status response)) else
      match cr_grpc_status response with
      | Some status => Err (GrpcStatus (Some status))
      | None =>
          match cr_collected response with
          | Err e => Err (TransportError e)
          | Ok (bytes, trailers) =>
              let call_status := mjoin trailers in
              if is_none_or (fun s => negb (str_eqb s (lit "0"))) call_status
              then Err (GrpcStatus call_status)
              else match serving_status bytes with
                   | Some s => Ok s
                   | None => Err NotAHealthCheckResponse
                   end
          end
      end
  end.

Definition grpc_check {E} (call : Timed ServingStatus E) : ProbeResult :=
  match call with
  | InTime (Ok Serving) => Pass
  | InTime (Ok NotServing) => Drain
  | InTime (Ok OtherStatus) => Fail
  | InTime (Err _) => Fail
  | TimedOut => Fail
  end.

(** ** The checker *)

Record CheckSpec := mkCheckSpec {
  cs_probe : ProbeKind;
  cs_interval : Z;
  cs_timeout : Z;
  cs_healthy_threshold : Z;
  cs_unhealthy_threshold : Z;
}.

#[export] Instance CheckSpec_eq_dec : EqDecision CheckSpec.
Proof. solve_decision. Defined.

Record CheckedPool := mkCheckedPool {
  cp_id : str;
  cp_check : CheckSpec;
  cp_backends : list Key;
}.

(** A running probe loop; [task] names the task it runs on. *)
Record Running := mkRunning {
  run_check : CheckSpec;
  run_pools : list str;
  run_task : Z;
}.

(** The checker's table, the loops alive on the runtime, and the name the
    next task will have. *)
Record HealthChecker := mkHealthChecker {
  hc_tasks : gmap Key Running;
  hc_alive : gset Z;
  hc_next_task : Z;
}.

Definition checker_new : HealthChecker := mkHealthChecker ∅ ∅ 0.

Definition add_desired (p : CheckedPool) (desired : gmap Key (CheckSpec * list str)) (key : Key) :
    gmap Key (CheckSpec * list str) :=
  let entry := default (cp_check p, []) (desired !! key) in
  <[key := (entry.1, entry.2 ++ [cp_id p])]> desired.

Definition desired_checks (pools : list CheckedPool) : gmap Key (CheckSpec * list str) :=
  foldl (fun desired p => foldl (add_desired p) desired (cp_backends p)) ∅ pools.

(** Whether a running loop is the one wanted. *)
Definition unchanged (desired : gmap Key (CheckSpec * list str)) (key : Key) (r : Running) : bool :=
  is_some_and (fun w => bool_decide (w.1 = run_check r) && bool_decide (w.2 = run_pools r))
    (desired !! key).

(** What the observer is told: [backend_left(pool, key)]. *)
Definition left_pools (desired : gmap Key (CheckSpec * list str)) (key : Key) (r : Running) :
    list (str * Key) :=
  if unchanged desired key r then [] else
  let kept := default [] (snd <$> desired !! key) in
  (fun p => (p, key)) <$> keep (fun p => negb (bool_decide (p ∈ kept))) (run_pools r).

(** Start a loop for every wanted backend that has none. *)
Definition start_missing (desired : list (Key * (CheckSpec * list str))) (c : HealthChecker) :
    HealthChecker :=
  foldl (fun c kw =>
    match hc_tasks c !! kw.1 with
    | Some _ => c
    | None =>
        mkHealthChecker
          (<[kw.1 := mkRunning kw.2.1 kw.2.2 (hc_next_task c)]> (hc_tasks c))
          ({[hc_next_task c]} ∪ hc_alive c) (hc_next_task c + 1)
    end) c desired.

Definition reconcile (pools : list CheckedPool) (c : HealthChecker) :
    HealthChecker * list (str * Key) :=
  let desired := desired_checks pools in
  let stopped := filter (fun kr => unchanged desired kr.1 kr.2 = false) (hc_tasks c) in
  let kept := filter (fun kr => unchanged desired kr.1 kr.2 = true) (hc_tasks c) in
  let aborted := list_to_set (run_task ∘ snd <$> map_to_list stopped) in
  (start_missing (map_to_list desired)
     (mkHealthChecker kept (hc_alive c ∖ aborted) (hc_next_task c)),
   map_to_list stopped ≫= fun kr => left_pools desired kr.1 kr.2).

Definition stop_all (c : HealthChecker) : HealthChecker :=
  mkHealthChecker ∅
    (hc_alive c ∖ list_to_set (run_task ∘ snd <$> map_to_list (hc_tasks c))) (hc_next_task c).

Definition active_probes (c : HealthChecker) : Z := Z.of_nat (size (hc_tasks c)).

(** One round of [run_probe]: what the loop of [key] does with an outcome.
    It tells the observer of the change once for each of its pools. *)
Definition probe_round (check : CheckSpec) (pools : list str) (key : Key) (outcome : ProbeResult)
    (b : BackendHealth) (m : HealthMap) :
    BackendHealth * HealthMap * list (str * Key * HealthStatus) :=
  let (b, t) :=
    backend_health_record outcome (cs_healthy_threshold check) (cs_unhealthy_threshold check) b in
  match t with
  | Some new => (b, health_map_set key new m, (fun p => (p, key, new)) <$> pools)
  | None => (b, m, [])
  end.

Fixpoint probe_rounds (check : CheckSpec) (pools : list str) (key : Key)
    (outcomes : list ProbeResult) (b : BackendHealth) (m : HealthMap) : BackendHealth * HealthMap :=
  match outcomes with
  | [] => (b, m)
  | o :: outcomes =>
      let '(b, m, _) := probe_round check pools key o b m in
      probe_rounds check pools key outcomes b m
  end.

(** ** The thresholds decide on streaks *)

Lemma streak_nonneg o l : 0 <= streak o l.
Proof. induction l as [|x l IH]; simpl; [lia|]. case_bool_decide; lia. Qed.

(** Where a loop stands after outcomes given latest first. *)
Definition stands_at (h u : Z) (hist : list ProbeResult) (b : BackendHealth) : Prop :=
  bh_status b = committed h u hist /\
  consecutive_success b = Z.min (streak Pass hist) u32_max /\
  consecutive_failure b = Z.min (streak Fail hist) u32_max.

Lemma record_stands_at h u hist b o :
  h <= u32_max -> u <= u32_max -> stands_at h u hist b ->
  stands_at h u (o :: hist) (backend_health_record o h u b).1 /\
  (backend_health_record o h u b).2 =
    if bool_decide (committed h u hist = committed h u (o :: hist)) then None
    else Some (committed h u (o :: hist)).
Proof.
  intros Hh Hu (Hst & Hs & Hf). unfold stands_at.
  pose proof (streak_nonneg Pass hist). pose proof (streak_nonneg Fail hist).
  assert (0 < u32_max) by done.
  destruct o; cbn [backend_health_record committed streak];
    rewrite ?Hs, ?Hf, Hst; unfold saturating_add_u32;
    repeat case_bool_decide; try congruence; simpl;
    try (match goal with
         | |- context [h <=? Z.min (Z.min ?s u32_max + 1) u32_max] =>
             replace (h <=? Z.min (Z.min s u32_max + 1) u32_max) with (h <=? 1 + s) by lia
         | |- context [u <=? Z.min (Z.min ?s u32_max + 1) u32_max] =>
             replace (u <=? Z.min (Z.min s u32_max + 1) u32_max) with (u <=? 1 + s) by lia
         end);
    repeat case_if; simpl in *; repeat split; try congruence; try lia.
Qed.

Lemma run_app h u b l k :
  (backend_health_run h u b (l ++ k)).1 =
  (backend_health_run h u (backend_health_run h u b l).1 k).1.
Proof.
  revert b. induction l as [|o l IH]; intros b; simpl; [done|].
  destruct (backend_health_record o h u b) as [b' t]. specialize (IH b').
  destruct (backend_health_run h u b' (l ++ k)), (backend_health_run h u b' l). done.
Qed.

Lemma run_one h u b o :
  (backend_health_run h u b [o]).1 = (backend_health_record o h u b).1.
Proof. simpl. by destruct (backend_health_record o h u b). Qed.

Lemma run_stands_at h u outcomes :
  h <= u32_max -> u <= u32_max ->
  stands_at h u (reverse outcomes) (backend_health_run h u backend_health_default outcomes).1.
Proof.
  intros Hh Hu. induction outcomes as [|o l IH] using rev_ind.
  - done.
  - rewrite reverse_app, run_app, run_one. by apply record_stands_at.
Qed.

(** The committed status is decided by streaks alone. After any outcomes,
    it is that of the latest drain, run of at least [healthy_threshold]
    passes or run of at least [unhealthy_threshold] failures; and a probe
    reports a transition exactly when it changes the committed status. *)
Theorem thresholds_commit h u outcomes o :
  h <= u32_max -> u <= u32_max ->
  let b := (backend_health_run h u backend_health_default outcomes).1 in
  bh_status b = committed h u (reverse outcomes) /\
  (backend_health_record o h u b).2 =
    let before := committed h u (reverse outcomes) in
    let after := committed h u (o :: reverse outcomes) in
    if bool_decide (before = after) then None else Some after.
Proof.
  intros Hh Hu b. pose proof (run_stands_at h u outcomes Hh Hu) as Hs.
  split; [apply Hs|]. by apply record_stands_at.
Qed.

Lemma thresholds_commit_witness :
  let b := (backend_health_run 2 3 backend_health_default [Pass; Pass; Fail; Fail]).1 in
  bh_status b = Healthy /\ (backend_health_record Fail 2 3 b).2 = Some Unhealthy.
Proof.
  destruct (thresholds_commit 2 3 [Pass; Pass; Fail; Fail] Fail) as [H1 H2].
  - vm_compute. congruence.
  - vm_compute. congruence.
  - split; [rewrite H1|rewrite H2]; vm_compute; reflexivity.
Defined.

(** ** Handles see every change *)

Lemma status_u8_roundtrip s : status_from_u8 (status_as_u8 s) = s.
Proof. by destruct s. Qed.

Lemma handle_status_set s h : handle_status (handle_set s h) = s.
Proof. apply status_u8_roundtrip. Qed.

(** Every entry of the map has a handle of its own. *)
Definition health_map_ok (m : HealthMap) : Prop :=
  (forall k r, hm_map m !! k = Some r -> (r < length (hm_heap m))%nat) /\
  (forall k k' r, hm_map m !! k = Some r -> hm_map m !! k' = Some r -> k = k').

Lemma health_map_new_ok a : health_map_ok (health_map_new a).
Proof. by split. Qed.

Lemma handle_ok key m : health_map_ok m -> health_map_ok (health_map_handle key m).1.
Proof.
  intros [Hr Hi]. unfold health_map_handle. destruct (hm_map m !! key) as [r|] eqn:E; [done|].
  split; simpl.
  - intros k r. rewrite length_app; simpl. rewrite lookup_insert_Some.
    intros [[<- <-]|[_ H]]; [lia|]. apply Hr in H. lia.
  - intros k k' r. rewrite !lookup_insert_Some.
    intros [[<- <-]|[? H]] [[<- H']|[? H']]; try done; [apply Hr in H'; lia|subst; apply Hr in H; lia|by eapply Hi].
Qed.

Lemma health_op_ok o m : health_map_ok m -> health_map_ok (health_op o m).
Proof.
  intros Hok. destruct o as [key|key status|keep]; simpl.
  - by apply handle_ok.
  - unfold health_map_set. pose proof (handle_ok key m Hok) as [Hr Hi].
    destruct (health_map_handle key m) as [m' r]. split; simpl; [|done].
    intros k r' H. rewrite length_alter. by eapply Hr.
  - destruct Hok as [Hr Hi]. split; simpl; intros *; rewrite !map_lookup_filter_Some; naive_solver.
Qed.

Lemma health_ops_ok os m : health_map_ok m -> health_map_ok (health_ops os m).
Proof. revert m. induction os as [|o os IH]; intros m H; [done|]. by apply IH, health_op_ok. Qed.

(** What a handle on [key] reads after [os]: the last status recorded for
    [key], until the map forgets it. *)
Fixpoint seen_through (key : Key) (os : list HealthOp) (current : HealthStatus) : HealthStatus :=
  match os with
  | [] => current
  | OpHandle _ :: os => seen_through key os current
  | OpSet k status :: os =>
      seen_through key os (if bool_decide (k = key) then status else current)
  | OpRetain keep :: os =>
      if bool_decide (key ∈ keep) then seen_through key os current else current
  end.

Definition status_at (m : HealthMap) (r : HandleRef) : option HealthStatus :=
  handle_status <$> read_handle m r.

Lemma status_at_handle key m r :
  (r < length (hm_heap m))%nat -> status_at (health_map_handle key m).1 r = status_at m r.
Proof.
  intros H. unfold health_map_handle, status_at, read_handle.
  destruct (hm_map m !! key); [done|]. simpl. by rewrite lookup_app_l.
Qed.

Lemma status_at_set key s m r :
  (r < length (hm_heap m))%nat ->
  status_at (health_map_set key s m) r =
  if bool_decide (hm_map m !! key = Some r) then Some s else status_at m r.
Proof.
  intros H. unfold health_map_set. rewrite <-(status_at_handle key m r H).
  unfold health_map_handle. destruct (hm_map m !! key) as [r'|] eqn:E;
    unfold status_at, read_handle; simpl; rewrite list_lookup_alter.
  - case_decide as D; case_bool_decide as B; try congruence.
    subst r'. destruct (lookup_lt_is_Some_2 _ _ H) as [h ->]. simpl. by rewrite handle_status_set.
  - case_decide; [lia|done].
Qed.

(** A handle nothing points to any more stays as it is. *)
Lemma detached os m r :
  health_map_ok m -> (r < length (hm_heap m))%nat ->
  (forall k, hm_map m !! k <> Some r) -> status_at (health_ops os m) r = status_at m r.
Proof.
  revert m. induction os as [|o os IH]; intros m Hok Hr Hnot; [done|].
  change (health_ops (o :: os) m) with (health_ops os (health_op o m)).
  assert (Hin : forall key, (r < length (hm_heap (health_map_handle key m).1))%nat /\
                 forall k, hm_map (health_map_handle key m).1 !! k <> Some r).
  { intros key. unfold health_map_handle. destruct (hm_map m !! key); [done|]. simpl.
    rewrite length_app. split; [lia|]. intros k. rewrite lookup_insert_Some.
    intros [[_ E]|[_ E]]; [lia|by apply (Hnot k)]. }
  rewrite IH; [|by apply health_op_ok|..]; destruct o as [key|key s|keep]; simpl.
  - by apply status_at_handle.
  - rewrite status_at_set, bool_decide_eq_false_2 by done. done.
  - done.
  - apply Hin.
  - unfold health_map_set. destruct (Hin key) as [Hl _].
    destruct (health_map_handle key m) as [m' r']. simpl in *. by rewrite length_alter.
  - done.
  - apply Hin.
  - unfold health_map_set. destruct (Hin key) as [_ Hl].
    destruct (health_map_handle key m) as [m' r']. done.
  - intros k. rewrite map_lookup_filter_Some. intros [E _]. by apply (Hnot k).
Qed.

Lemma attached os m key r s :
  health_map_ok m -> hm_map m !! key = Some r -> status_at m r = Some s ->
  status_at (health_ops os m) r = Some (seen_through key os s).
Proof.
  revert m s. induction os as [|o os IH]; intros m s Hok Hk Hs; [done|].
  change (health_ops (o :: os) m) with (health_ops os (health_op o m)).
  pose proof (health_op_ok o m Hok) as Hok'. pose proof (proj1 Hok _ _ Hk) as Hlt.
  assert (Hin : forall k, hm_map (health_map_handle k m).1 !! key = Some r).
  { intros k. unfold health_map_handle. destruct (hm_map m !! k) eqn:E; [done|]. simpl.
    rewrite lookup_insert_ne; [done|]. intros ->. congruence. }
  destruct o as [k|k s'|keep]; simpl.
  - apply IH; [done|apply Hin|]. simpl. by rewrite status_at_handle.
  - apply IH; [done| |].
    + simpl. unfold health_map_set. specialize (Hin k).
      destruct (health_map_handle k m) as [m' r']. done.
    + simpl. rewrite status_at_set by done. case_bool_decide as B; case_bool_decide as C; try done.
      * destruct C. by eapply (proj2 Hok).
      * subst. done.
  - case_bool_decide as B.
    + apply IH; [done| |done]. simpl. by apply map_lookup_filter_Some.
    + rewrite detached; [done|done|done|]. simpl. intros k. rewrite map_lookup_filter_Some.
      intros [E E']. destruct B. by rewrite <-(proj2 Hok k key r E Hk).
Qed.

(** A pool that keeps the handle of a backend reads, at any later time
    and whatever else is done to the map, the last status recorded for the
    backend, frozen from the moment the map forgets the backend. *)
Theorem handle_sees_every_change before assume key m r after :
  health_map_handle key (health_ops before (health_map_new assume)) = (m, r) ->
  handle_status <$> read_handle (health_ops after m) r =
    Some (seen_through key after (health_map_get key (health_ops before (health_map_new assume)))).
Proof.
  intros E. pose proof (health_ops_ok before _ (health_map_new_ok assume)) as Hok.
  set (m0 := health_ops before _) in *. pose proof (handle_ok key m0 Hok) as Hok'.
  rewrite E in Hok'. simpl in Hok'.
  apply (attached after m key r); [done|..]; unfold health_map_handle in E;
    unfold status_at, read_handle, health_map_get.
  - destruct (hm_map m0 !! key) eqn:K; injection E as <- <-; [done|]. apply lookup_insert_eq.
  - destruct (hm_map m0 !! key) as [r'|] eqn:K; injection E as <- <-; simpl.
    + unfold read_handle. destruct (lookup_lt_is_Some_2 _ _ (proj1 Hok _ _ K)) as [h ->]. done.
    + rewrite lookup_app_r by lia. by rewrite Nat.sub_diag.
Qed.

Lemma handle_sees_every_change_witness :
  let k := (lit "b", 80) in
  let m0 := health_ops [OpSet k Unhealthy] (health_map_new true) in
  handle_status <$> read_handle
    (health_ops [OpSet k Healthy; OpRetain []; OpSet k Draining] (health_map_handle k m0).1) 0
  = Some Healthy.
Proof.
  cbv zeta.
  rewrite (handle_sees_every_change [OpSet (lit "b", 80) Unhealthy] true (lit "b", 80) _ 0
    [OpSet (lit "b", 80) Healthy; OpRetain []; OpSet (lit "b", 80) Draining]).
  - vm_compute. reflexivity.
  - vm_compute. reflexivity.
Defined.

(** ** Reconciling: one loop per backend, the one wanted *)

(** The pools a backend is in, once for each time it is listed. *)
Definition pools_of (key : Key) (pools : list CheckedPool) : list CheckedPool :=
  pools ≫= fun p => (fun _ => p) <$> keep (fun k => bool_decide (k = key)) (cp_backends p).

(** The check wanted for a backend, its first pool's, and the pools to
    report it under. *)
Definition wanted (key : Key) (pools : list CheckedPool) : option (CheckSpec * list str) :=
  match pools_of key pools with
  | [] => None
  | p :: ps => Some (cp_check p, cp_id <$> p :: ps)
  end.

Definition extend (e : option (CheckSpec * list str)) (ps : list CheckedPool) :
    option (CheckSpec * list str) :=
  foldl (fun e p => let x := default (cp_check p, []) e in Some (x.1, x.2 ++ [cp_id p])) e ps.

Lemma extend_app e ps qs : extend e (ps ++ qs) = extend (extend e ps) qs.
Proof. apply foldl_app. Qed.

Lemma extend_Some c ids ps : extend (Some (c, ids)) ps = Some (c, ids ++ (cp_id <$> ps)).
Proof.
  revert ids. induction ps as [|p ps IH]; intros ids; csimpl.
  - by rewrite app_nil_r.
  - unfold extend in *. simpl. rewrite IH. by rewrite <-app_assoc.
Qed.

Lemma extend_None ps :
  extend None ps =
  match ps with [] => None | p :: ps => Some (cp_check p, cp_id <$> p :: ps) end.
Proof.
  destruct ps as [|p ps]; [done|].
  change (extend None (p :: ps)) with (extend (Some (cp_check p, [cp_id p])) ps).
  by rewrite extend_Some.
Qed.

Lemma add_backends_lookup p keys d key :
  foldl (add_desired p) d keys !! key =
  extend (d !! key) ((fun _ => p) <$> keep (fun k => bool_decide (k = key)) keys).
Proof.
  revert d. induction keys as [|k keys IH]; intros d; [done|]. simpl. rewrite IH.
  unfold add_desired. case_bool_decide as E.
  - subst k. by rewrite lookup_insert_eq.
  - by rewrite lookup_insert_ne.
Qed.

Lemma desired_lookup pools key : desired_checks pools !! key = wanted key pools.
Proof.
  assert (H : forall d, foldl (fun d p => foldl (add_desired p) d (cp_backends p)) d pools !! key =
            extend (d !! key) (pools_of key pools)).
  { unfold pools_of. induction pools as [|p pools IH]; intros d; [done|]. simpl.
    rewrite extend_app, IH. by rewrite add_backends_lookup. }
  unfold desired_checks. by rewrite H, lookup_empty, extend_None.
Qed.

(** Every loop of the table is alive, on a task of its own, and no other loop
    is. *)
Definition checker_ok (c : HealthChecker) : Prop :=
  (forall k r, hc_tasks c !! k = Some r -> run_task r ∈ hc_alive c) /\
  (forall i, i ∈ hc_alive c -> i < hc_next_task c /\
     exists k r, hc_tasks c !! k = Some r /\ run_task r = i) /\
  (forall k r k' r', hc_tasks c !! k = Some r -> hc_tasks c !! k' = Some r' ->
     run_task r = run_task r' -> k = k').

Lemma checker_new_ok : checker_ok checker_new.
Proof. split_and!; simpl; [done|set_solver|done]. Qed.

Lemma start_one_ok c k check pools :
  checker_ok c -> hc_tasks c !! k = None ->
  checker_ok (mkHealthChecker (<[k := mkRunning check pools (hc_next_task c)]> (hc_tasks c))
    ({[hc_next_task c]} ∪ hc_alive c) (hc_next_task c + 1)).
Proof.
  intros (H1 & H2 & H3) Hk. split_and!; simpl.
  - intros k' r'. rewrite lookup_insert_Some. intros [[_ <-]|[_ H]]; [set_solver|].
    apply H1 in H. set_solver.
  - intros i [->%elem_of_singleton|Hi]%elem_of_union.
    + split; [lia|]. eexists k, _. by rewrite lookup_insert_eq.
    + destruct (H2 i Hi) as (Hlt & k' & r' & Hk' & <-). split; [lia|]. exists k', r'.
      rewrite lookup_insert_ne; [done|congruence].
  - assert (Hn : forall k r, hc_tasks c !! k = Some r -> run_task r < hc_next_task c).
    { intros k' r' H%H1. by apply H2 in H as [? _]. }
    intros k1 r1 k2 r2. rewrite !lookup_insert_Some.
    intros [[<- <-]|[_ Ha]] [[<- <-]|[_ Hb]]; simpl; intros E; try done.
    + apply Hn in Hb. lia.
    + apply Hn in Ha. lia.
    + by eapply H3.
Qed.

Lemma start_missing_spec l c :
  checker_ok c -> NoDup l.*1 ->
  checker_ok (start_missing l c) /\
  (forall k r, hc_tasks c !! k = Some r -> hc_tasks (start_missing l c) !! k = Some r) /\
  (forall k, hc_tasks c !! k = None ->
     (fun r => (run_check r, run_pools r)) <$> hc_tasks (start_missing l c) !! k =
     (list_to_map l : gmap _ _) !! k).
Proof.
  revert c. induction l as [|[k w] l IH]; intros c Hok Hnd.
  { split_and!; [done|done|]. intros k Hk. simpl. by rewrite Hk, lookup_empty. }
  apply NoDup_cons in Hnd as [Hkl Hnd]. simpl.
  destruct (hc_tasks c !! k) as [r|] eqn:Ek.
  - destruct (IH c Hok Hnd) as (H1 & H2 & H3). split_and!; [done|done|].
    intros k' Hk'. rewrite lookup_insert_ne by congruence. by apply H3.
  - pose proof (start_one_ok c k w.1 w.2 Hok Ek) as Hok'.
    destruct (IH _ Hok' Hnd) as (H1 & H2 & H3). simpl in H2, H3.
    split_and!; [done|..].
    + intros k' r' Hk'. apply H2. rewrite lookup_insert_ne; [done|congruence].
    + intros k' Hk'. destruct (decide (k = k')) as [<-|Hne].
      * rewrite (H2 k (mkRunning w.1 w.2 (hc_next_task c))) by apply lookup_insert_eq.
        rewrite lookup_insert_eq. by destruct w.
      * rewrite H3 by (by rewrite lookup_insert_ne). by rewrite lookup_insert_ne.
Qed.

Lemma unchanged_iff pools key r :
  unchanged (desired_checks pools) key r = true <-> wanted key pools = Some (run_check r, run_pools r).
Proof.
  unfold unchanged. rewrite desired_lookup. destruct (wanted key pools) as [[c ps]|]; simpl; [|done].
  rewrite andb_true_iff, !bool_decide_eq_true. naive_solver.
Qed.

(** Stopping the loops not wanted leaves exactly the others alive. *)
Lemma stop_ok c (f : Key * Running -> bool) :
  checker_ok c ->
  checker_ok (mkHealthChecker (filter (fun kr => f kr = true) (hc_tasks c))
    (hc_alive c ∖ list_to_set
       (run_task ∘ snd <$> map_to_list (filter (fun kr => f kr = false) (hc_tasks c))))
    (hc_next_task c)).
Proof.
  intros (H1 & H2 & H3). split_and!; simpl.
  - intros k r [Hk Hf]%map_lookup_filter_Some. apply elem_of_difference. split; [by eapply H1|].
    intros ([k' r'] & E & Hin)%elem_of_list_to_set%list_elem_of_fmap. simpl in E.
    apply elem_of_map_to_list, map_lookup_filter_Some in Hin as [Hk' Hf'].
    pose proof (H3 k r k' r' Hk Hk' E) as <-. congruence.
  - intros i [Hi Hnot]%elem_of_difference. destruct (H2 i Hi) as (Hlt & k & r & Hk & Hr).
    split; [done|]. exists k, r. split; [|done]. apply map_lookup_filter_Some. split; [done|].
    destruct (f (k, r)) eqn:Hf; [done|]. destruct Hnot.
    apply elem_of_list_to_set, list_elem_of_fmap. exists (k, r). split; [done|].
    by apply elem_of_map_to_list, map_lookup_filter_Some.
  - intros k r k' r' [Ha _]%map_lookup_filter_Some [Hb _]%map_lookup_filter_Some. by apply H3.
Qed.

Lemma reconcile_tables pools c c' left :
  checker_ok c -> reconcile pools c = (c', left) ->
  checker_ok c' /\
  (forall key, (fun r => (run_check r, run_pools r)) <$> hc_tasks c' !! key = wanted key pools) /\
  (forall key r, hc_tasks c !! key = Some r ->
     wanted key pools = Some (run_check r, run_pools r) -> hc_tasks c' !! key = Some r) /\
  (forall p key, (p, key) ∈ left <->
     exists r, hc_tasks c !! key = Some r /\ p ∈ run_pools r /\
       p ∉ default [] (snd <$> wanted key pools)).
Proof.
  intros Hok [= <- <-].
  pose proof (stop_ok c (fun kr => unchanged (desired_checks pools) kr.1 kr.2) Hok) as Hok1.
  match goal with |- checker_ok (start_missing ?l ?s) /\ _ =>
    destruct (start_missing_spec l s Hok1 (NoDup_fst_map_to_list _)) as (H1 & H2 & H3);
    set (c1 := s) in *
  end.
  rewrite list_to_map_to_list in H3.
  assert (Hkept : forall key r, hc_tasks c !! key = Some r ->
            wanted key pools = Some (run_check r, run_pools r) -> hc_tasks c1 !! key = Some r).
  { intros key r Hk Hw. apply map_lookup_filter_Some. split; [done|]. by apply unchanged_iff. }
  split_and!; [done|..].
  - intros key. destruct (hc_tasks c1 !! key) as [r|] eqn:E.
    + rewrite (H2 _ _ E). simpl. apply map_lookup_filter_Some in E as [_ Hu].
      symmetry. by apply unchanged_iff.
    + rewrite (H3 _ E). apply desired_lookup.
  - intros key r Hk Hw. by apply H2, Hkept.
  - intros p key. rewrite list_elem_of_bind. unfold left_pools. split.
    + intros ([k r] & Hin & Hk). apply elem_of_map_to_list, map_lookup_filter_Some in Hk as [Hk Hu].
      simpl in Hin, Hu. rewrite Hu in Hin. apply list_elem_of_fmap in Hin as (q & [= <- <-] & Hq).
      apply elem_of_keep in Hq as [Hq Hb]. rewrite desired_lookup in Hb. bool_facts. eauto.
    + intros (r & Hk & Hp & Hnot). exists (key, r). simpl.
      assert (unchanged (desired_checks pools) key r = false) as Hu.
      { apply not_true_iff_false. rewrite unchanged_iff. intros E. rewrite E in Hnot. done. }
      rewrite Hu. split; [|by apply elem_of_map_to_list, map_lookup_filter_Some].
      apply list_elem_of_fmap. exists p. split; [done|]. apply elem_of_keep.
      rewrite desired_lookup. split; [done|]. by rewrite bool_decide_eq_false_2.
Qed.

(** After [reconcile], each backend of the pools has exactly one probe
    loop, running its first pool's check and reporting under every pool it
    is in, and no other backend has one; a loop that was already as wanted
    is not restarted; every other loop is aborted, so that the tasks alive
    are those of the table; and the observer is told of exactly the pools a
    backend is no longer checked under. *)
Theorem reconcile_spec pools c c' left :
  checker_ok c -> reconcile pools c = (c', left) ->
  checker_ok c' /\
  (forall key, (fun r => (run_check r, run_pools r)) <$> hc_tasks c' !! key = wanted key pools) /\
  (forall key r, hc_tasks c !! key = Some r ->
     wanted key pools = Some (run_check r, run_pools r) -> hc_tasks c' !! key = Some r) /\
  (forall p key, (p, key) ∈ left <->
     exists r, hc_tasks c !! key = Some r /\ p ∈ run_pools r /\
       p ∉ default [] (snd <$> wanted key pools)).
Proof. apply reconcile_tables. Qed.

Definition check_example (interval : Z) : CheckSpec := mkCheckSpec TcpKind interval 1 2 3.
Definition pools_before : list CheckedPool :=
  [mkCheckedPool (lit "a") (check_example 5) [(lit "x", 80); (lit "y", 80)];
   mkCheckedPool (lit "b") (check_example 7) [(lit "x", 80)]].
Definition pools_after : list CheckedPool :=
  [mkCheckedPool (lit "a") (check_example 5) [(lit "x", 80)]].

Lemma reconcile_spec_witness :
  let c := (reconcile pools_before checker_new).1 in
  checker_ok (reconcile pools_after c).1.
Proof.
  cbv zeta.
  apply (reconcile_spec pools_after (reconcile pools_before checker_new).1 _
           (reconcile pools_after (reconcile pools_before checker_new).1).2).
  - apply (reconcile_spec pools_before checker_new _ (reconcile pools_before checker_new).2).
    + apply checker_new_ok.
    + reflexivity.
  - reflexivity.
Defined.

(** ** The map agrees with the loops *)

Lemma get_set key s m : health_map_ok m -> health_map_get key (health_map_set key s m) = s.
Proof.
  intros Hok. pose proof (handle_ok key m Hok) as [Hlt _]. unfold health_map_get, health_map_set.
  assert (exists r, hm_map (health_map_handle key m).1 !! key = Some r /\
            (health_map_handle key m).2 = r) as (r & Hk & Hr).
  { unfold health_map_handle. destruct (hm_map m !! key) eqn:E; eexists; split; eauto.
    apply lookup_insert_eq. }
  destruct (health_map_handle key m) as [m' r']. simpl in *. subst r'.
  rewrite Hk. simpl. unfold read_handle; simpl.
  destruct (lookup_lt_is_Some_2 _ _ (Hlt _ _ Hk)) as [h Hh].
  rewrite (list_lookup_alter_eq _ _ _), Hh. simpl. apply handle_status_set.
Qed.

Lemma committed_unknown h u o hist :
  committed h u (o :: hist) = Unknown -> committed h u hist = Unknown.
Proof. destruct o; cbn [committed]; [case_if; done|done|case_if; done]. Qed.

(** However a loop's probes come out, the map has the status the
    thresholds committed for its backend; until they commit one, as after a
    restart, it keeps the status it had. *)
Theorem probe_rounds_commit check pools key outcomes m b m' :
  cs_healthy_threshold check <= u32_max -> cs_unhealthy_threshold check <= u32_max ->
  health_map_ok m ->
  probe_rounds check pools key outcomes backend_health_default m = (b, m') ->
  health_map_get key m' =
    match committed (cs_healthy_threshold check) (cs_unhealthy_threshold check)
            (reverse outcomes) with
    | Unknown => health_map_get key m
    | s => s
    end.
Proof.
  intros Hh Hu Hok. set (h := cs_healthy_threshold check) in *.
  set (u := cs_unhealthy_threshold check) in *.
  assert (H : forall hist b m1, stands_at h u hist b -> health_map_ok m1 ->
            (committed h u hist = Unknown -> health_map_get key m1 = health_map_get key m) ->
            (committed h u hist <> Unknown -> health_map_get key m1 = committed h u hist) ->
            forall b' m', probe_rounds check pools key outcomes b m1 = (b', m') ->
            health_map_get key m' = match committed h u (reverse outcomes ++ hist) with
                                    | Unknown => health_map_get key m | s => s end).
  { induction outcomes as [|o outcomes IH]; intros hist b0 m1 Hs Hok1 H1 H2 b' m1'.
    - intros [= <- <-]. simpl. destruct (committed h u hist) eqn:E; try (by apply H2); by apply H1.
    - simpl. unfold probe_round. fold h u.
      destruct (record_stands_at h u hist b0 o Hh Hu Hs) as [Hs' Ht].
      destruct (backend_health_record o h u b0) as [b1 t]. cbn [fst snd] in Hs', Ht. subst t.
      rewrite reverse_cons, <-app_assoc. change ([o] ++ hist) with (o :: hist).
      case_bool_decide as E.
      + apply (IH _ _ _ Hs' Hok1); rewrite <-E; done.
      + apply (IH _ _ _ Hs'); [by apply (health_op_ok (OpSet _ _))|..]; intros Hc.
        * destruct E. rewrite Hc. by apply (committed_unknown h u o).
        * by apply get_set. }
  rewrite <-(app_nil_r (reverse outcomes)). eapply (H [] _ m); try done.
Qed.

Lemma probe_rounds_commit_witness :
  let key := (lit "x", 80) in
  let m := health_map_set key Draining (health_map_new true) in
  health_map_get key (probe_rounds (check_example 5) [lit "a"] key [Pass] backend_health_default m).2
    = Draining /\
  health_map_get key (probe_rounds (check_example 5) [lit "a"] key [Pass; Pass] backend_health_default m).2
    = Healthy.
Proof.
  cbv zeta. set (m := health_map_set (lit "x", 80) Draining (health_map_new true)).
  split.
  - rewrite (probe_rounds_commit (check_example 5) [lit "a"] (lit "x", 80) [Pass] m
      (probe_rounds (check_example 5) [lit "a"] (lit "x", 80) [Pass] backend_health_default m).1).
    + vm_compute. reflexivity.
    + vm_compute. congruence.
    + vm_compute. congruence.
    + apply (health_op_ok (OpSet _ _)), health_map_new_ok.
    + reflexivity.
  - rewrite (probe_rounds_commit (check_example 5) [lit "a"] (lit "x", 80) [Pass; Pass] m
      (probe_rounds (check_example 5) [lit "a"] (lit "x", 80) [Pass; Pass] backend_health_default m).1).
    + vm_compute. reflexivity.
    + vm_compute. congruence.
    + vm_compute. congruence.
    + apply (health_op_ok (OpSet _ _)), health_map_new_ok.
    + reflexivity.
Defined.

(** ** What makes a gRPC probe pass or drain *)

(** The body of a [Check] response: one uncompressed frame, of a message of
    [len] bytes, followed by whatever else was sent. *)
Definition frame (len : Z) (rest : list Z) : list Z :=
  0 :: len / 16777216 :: (len / 65536) mod 256 :: (len / 256) mod 256 :: len mod 256 :: rest.

Lemma u32_from_be_bytes len :
  u32_from_be (len / 16777216) ((len / 65536) mod 256) ((len / 256) mod 256) (len mod 256) = len.
Proof.
  unfold u32_from_be.
  assert (len / 65536 = len / 256 / 256) as E by (by rewrite Z.div_div).
  assert (len / 16777216 = len / 65536 / 256) as -> by (by rewrite Z.div_div).
  pose proof (Z.div_mod len 256). pose proof (Z.div_mod (len / 256) 256).
  pose proof (Z.div_mod (len / 65536) 256). lia.
Qed.

Lemma serving_status_frame len rest :
  0 <= len ->
  serving_status (frame len rest) =
  if Z.of_nat (length rest) <? len then None else
  match take (Z.to_nat len) rest with
  | 8 :: 1 :: _ => Some Serving
  | 8 :: 2 :: _ => Some NotServing
  | _ => Some OtherStatus
  end.
Proof. intros H. unfold serving_status, frame. rewrite u32_from_be_bytes. done. Qed.

Lemma serving_status_known body s :
  serving_status body = Some s -> s <> OtherStatus ->
  exists b1 b2 b3 b4 tail,
    body = 0 :: b1 :: b2 :: b3 :: b4 :: 8 :: (if bool_decide (s = Serving) then 1 else 2) :: tail /\
    2 <= u32_from_be b1 b2 b3 b4 <= 2 + Z.of_nat (length tail).
Proof.
  unfold serving_status. destruct body as [|flag [|b1 [|b2 [|b3 [|b4 rest]]]]]; try done.
  destruct (flag =? 0) eqn:Ef; [|done]. bool_facts. subst flag. simpl.
  set (len := u32_from_be b1 b2 b3 b4). destruct (_ <? len) eqn:El; [done|]. bool_facts.
  intros E Hs. destruct rest as [|x [|y tail]].
  - rewrite take_nil in E. congruence.
  - destruct (Z.to_nat len) as [|[|n]]; simpl in E; try congruence;
      repeat case_match; congruence.
  - assert (exists n, Z.to_nat len = S (S n)) as [n Hn].
    { destruct (Z.to_nat len) as [|[|n]]; simpl in E; [congruence| |eauto].
      repeat case_match; congruence. }
    rewrite Hn in E. simpl in E, El. exists b1, b2, b3, b4, tail. fold len.
    split; [|lia].
    assert (x = 8) as -> by (repeat case_match; congruence).
    repeat case_match; try congruence; injection E as <-; done.
Qed.

(** A gRPC probe passes only on a complete answer that says SERVING: the
    call answered 200 and ended well in its trailers, with no status in its
    headers, and the body is an uncompressed frame, whole, whose message is
    the serving status. It drains on the same answer saying NOT_SERVING. *)
Theorem grpc_probe_sound {E} (sent : result (CheckResponse E) E) (want : ProbeResult) :
  want <> Fail -> grpc_check (InTime (grpc_call sent)) = want ->
  exists response b1 b2 b3 b4 tail,
    sent = Ok response /\ cr_status response = 200 /\ cr_grpc_status response = None /\
    cr_collected response =
      Ok (0 :: b1 :: b2 :: b3 :: b4 :: 8 :: (if bool_decide (want = Pass) then 1 else 2) :: tail,
          Some (Some (lit "0"))) /\
    2 <= u32_from_be b1 b2 b3 b4 <= 2 + Z.of_nat (length tail).
Proof.
  intros Hw. unfold grpc_check, grpc_call. destruct sent as [response|e]; [|by intros <-].
  destruct (cr_status response =? 200) eqn:E200; simpl; [|by intros <-]. bool_facts.
  destruct (cr_grpc_status response) eqn:Eg; [by intros <-|].
  destruct (cr_collected response) as [[bytes trailers]|e] eqn:Ec; [|by intros <-].
  destruct trailers as [[st|]|]; try (by intros <-).
  change (mjoin (Some (Some st))) with (Some st). cbn [is_none_or].
  destruct (str_eqb st (lit "0")) eqn:Es; simpl; [|by intros <-].
  apply str_eqb_eq in Es as ->.
  destruct (serving_status bytes) as [s|] eqn:Eb; [|by intros <-]. intros <-.
  destruct (serving_status_known bytes s Eb) as (b1 & b2 & b3 & b4 & tail & -> & Hlen);
    [by destruct s|].
  exists response, b1, b2, b3, b4, tail. split_and!; try done; [|lia..].
  rewrite Ec. by destruct s.
Qed.

Definition check_answer : result (CheckResponse unit) unit :=
  Ok (mkCheckResponse 200 None (Ok ([0; 0; 0; 0; 2; 8; 2], Some (Some (lit "0"))))).

Lemma grpc_probe_sound_witness :
  exists response b1 b2 b3 b4 tail,
    check_answer = Ok response /\ cr_status response = 200 /\ cr_grpc_status response = None /\
    cr_collected response =
      Ok (0 :: b1 :: b2 :: b3 :: b4 :: 8 :: 2 :: tail, Some (Some (lit "0"))) /\
    2 <= u32_from_be b1 b2 b3 b4 <= 2 + Z.of_nat (length tail).
Proof.
  apply (grpc_probe_sound check_answer Drain).
  - congruence.
  - vm_compute. reflexivity.
Defined.
