(* ===== verification/LoadBalancing.v ===== *)
(** * Load balancing: [lib/load-balancing]

    The pools of backends ([pool.rs]) and how one of the healthy backends is
    chosen ([policy.rs]).

    A pool's counters are part of its state, which a call takes and returns;
    the health of a backend is read through the location the pool was given
    when it was built. An index out of range would panic: the operations
    that index return an [option], and [select_total] shows that they never
    do. [hash64] is the standard library's default hasher, whose algorithm
    is not specified: it is an argument of everything that depends on it.
    The random draw of a weighted choice is an argument too. *)

From S2P Require Import Prelude Str Net Float64 RateLimiting HealthChecking.

(** ** Backends and policies *)

Record Backend := mkBackend { b_host : str; b_port : Z; b_weight : Z }.

#[export] Instance Backend_eq_dec : EqDecision Backend.
Proof. solve_decision. Defined.

Definition bracketed (host : str) : str := lit "[" ++ host ++ lit "]".

(** [Backend::authority]; [probe.rs] has the same function. *)
Definition authority (b : Backend) : str :=
  match parse_ipv6 (b_host b) with
  | Some _ => bracketed (b_host b) ++ lit ":" ++ decimal (b_port b)
  | None => b_host b ++ lit ":" ++ decimal (b_port b)
  end.

Inductive Policy := RoundRobin | LeastRequest | RingHash.

#[export] Instance Policy_eq_dec : EqDecision Policy.
Proof. solve_decision. Defined.

Definition RING_REPLICAS : Z := 160.
Definition MAX_RING_POINTS : Z := 1000000.

(** ** Choosing by weight and on the ring *)

Fixpoint weighted_from (acc : Z) (candidates : list (nat * Z)) (r : Z) : option nat :=
  match candidates with
  | [] => None
  | (idx, w) :: candidates =>
      let acc := acc + w in
      if r <? acc then Some idx else weighted_from acc candidates r
  end.

Definition weighted_pick (candidates : list (nat * Z)) (r : Z) : nat :=
  match weighted_from 0 candidates r with
  | Some idx => idx
  | None => default 0%nat (fst <$> last candidates)
  end.

(** A point of the ring: where it is, and which backend it stands for. *)
Notation RingPoint := (Z * nat)%type.

Definition ring_order : RingPoint -> RingPoint -> bool := by_key fst.

Section Ring.
Context (hash64 : str -> Z -> Z).

Definition backend_points (idx : nat) (a : str) (weight : Z) : list RingPoint :=
  (fun replica => (hash64 a replica, idx)) <$> seqZ 0 (RING_REPLICAS * weight).

Fixpoint points_from (idx : nat) (backends : list (str * Z)) : list RingPoint :=
  match backends with
  | [] => []
  | (a, w) :: backends => backend_points idx a w ++ points_from (S idx) backends
  end.

(** [build_ring], on the authorities with their weights. *)
Definition build_ring (backends : list (str * Z)) : list RingPoint :=
  sort_by ring_order (points_from 0 backends).
End Ring.

(** [slice::partition_point], on a slice it partitions: how many elements at
    its front satisfy the predicate. *)
Fixpoint partition_point {A} (p : A -> bool) (l : list A) : nat :=
  match l with
  | x :: l => if p x then S (partition_point p l) else O
  | [] => O
  end.

(** The point [off] places after [start], going round. *)
Definition ring_at {A} (ring : list A) (start off : nat) : option A :=
  ring !! ((start + off) mod length ring)%nat.

Definition ring_pick (ring : list RingPoint) (key : Z) (is_healthy : nat -> bool) : option nat :=
  if decide (ring = []) then None else
  let start := partition_point (fun point => point.1 <? key) ring in
  snd <$> find_first (fun point => is_healthy point.2) (omap (ring_at ring start) (seq 0 (length ring))).

(** ** Pools *)

Record PoolSpec (T : Type) := mkPoolSpec {
  ps_id : str;
  ps_policy : Policy;
  ps_backends : list Backend;
  ps_max_in_flight : option Z;
  ps_max_requests_per_second : option Z;
  ps_payload : T;
}.
Arguments mkPoolSpec {T} _ _ _ _ _ _.
Arguments ps_id {T} _.
Arguments ps_policy {T} _.
Arguments ps_backends {T} _.
Arguments ps_max_in_flight {T} _.
Arguments ps_max_requests_per_second {T} _.
Arguments ps_payload {T} _.

Inductive Limit := MaxInFlight | MaxRequestsPerSecond.

Inductive PoolError := RingTooLarge (pool : str) (points : Z).

Record Pool (T : Type) := mkPool {
  p_id : str;
  p_policy : Policy;
  p_backends : list Backend;
  p_payload : T;
  p_counter : Z;
  p_inflight : list Z;
  p_health : list HandleRef;
  p_ring : list RingPoint;
  p_uniform_weights : bool;
  p_in_flight : Z;
  p_max_in_flight : option Z;
  p_rate : option TokenBucket;
}.
Arguments mkPool {T} _ _ _ _ _ _ _ _ _ _ _ _.
Arguments p_id {T} _.
Arguments p_policy {T} _.
Arguments p_backends {T} _.
Arguments p_payload {T} _.
Arguments p_counter {T} _.
Arguments p_inflight {T} _.
Arguments p_health {T} _.
Arguments p_ring {T} _.
Arguments p_uniform_weights {T} _.
Arguments p_in_flight {T} _.
Arguments p_max_in_flight {T} _.
Arguments p_rate {T} _.

(** The counters a pool's methods write. *)
Definition set_counters {T} (p : Pool T) (counter : Z) (inflight : list Z) (in_flight : Z)
    (rate : option TokenBucket) : Pool T :=
  mkPool (p_id p) (p_policy p) (p_backends p) (p_payload p) counter inflight (p_health p)
    (p_ring p) (p_uniform_weights p) in_flight (p_max_in_flight p) rate.

(** What an [InflightGuard] decrements: nothing, the pool's counter, or the
    counter of a backend. *)
Inductive InflightGuard := NoCount | PoolCount | BackendCount (idx : nat).

Definition guard_drop {T} (g : InflightGuard) (p : Pool T) : Pool T :=
  match g with
  | NoCount => p
  | PoolCount =>
      set_counters p (p_counter p) (p_inflight p) (wrap64 (p_in_flight p - 1)) (p_rate p)
  | BackendCount idx =>
      set_counters p (p_counter p) (alter (fun n => wrap64 (n - 1)) idx (p_inflight p))
        (p_in_flight p) (p_rate p)
  end.

Record Selection := mkSelection { sel_backend : Backend; sel_guard : InflightGuard }.

Definition ring_points (backends : list Backend) : Z :=
  RING_REPLICAS * sum_list (b_weight <$> backends).

(** The handles of the backends, taken from the map one after the other. *)
Fixpoint take_handles (backends : list Backend) (m : HealthMap) : HealthMap * list HandleRef :=
  match backends with
  | [] => (m, [])
  | b :: backends =>
      let (m, r) := health_map_handle (b_host b, b_port b) m in
      let (m, rs) := take_handles backends m in
      (m, r :: rs)
  end.

(** [PoolSet<T>]. *)
Notation PoolSet T := (gmap str (Pool T)).

Section Pools.
Context (hash64 : str -> Z -> Z) {T : Type}.
Implicit Types p : Pool T.

Definition pool_new (s : PoolSpec T) (m : HealthMap) : HealthMap * result (Pool T) PoolError :=
  let too_large :=
    bool_decide (ps_policy s = RingHash) && (MAX_RING_POINTS <? ring_points (ps_backends s)) in
  if too_large then (m, Err (RingTooLarge (ps_id s) (ring_points (ps_backends s)))) else
  let ring :=
    if bool_decide (ps_policy s = RingHash)
    then build_ring hash64 ((fun b => (authority b, b_weight b)) <$> ps_backends s)
    else [] in
  let (m, health) := take_handles (ps_backends s) m in
  let first_weight := default 1 (b_weight <$> head (ps_backends s)) in
  let uniform := forallb (fun b => b_weight b =? first_weight) (ps_backends s) in
  (m, Ok (mkPool (ps_id s) (ps_policy s) (ps_backends s) (ps_payload s) 0
            (replicate (length (ps_backends s)) 0) health ring uniform 0 (ps_max_in_flight s)
            ((fun per_second => token_bucket_new per_second per_second)
               <$> ps_max_requests_per_second s))).

Definition pool_admit (now : Z) p : Pool T * result InflightGuard Limit :=
  let rated p guard :=
    match p_rate p with
    | None => (p, Ok guard)
    | Some rate =>
        let (rate, r) := token_bucket_try_acquire now rate in
        let p := set_counters p (p_counter p) (p_inflight p) (p_in_flight p) (Some rate) in
        (* the guard is dropped with the refusal *)
        if is_err r then (guard_drop guard p, Err MaxRequestsPerSecond) else (p, Ok guard)
    end in
  match p_max_in_flight p with
  | None => rated p NoCount
  | Some max =>
      let already_in_flight := p_in_flight p in
      let p := set_counters p (p_counter p) (p_inflight p) (wrap64 (p_in_flight p + 1)) (p_rate p) in
      if max <=? already_in_flight then (guard_drop PoolCount p, Err MaxInFlight)
      else rated p PoolCount
  end.

(** The next place of the shared counter, among [n]. *)
Definition in_turn p (healthy : list nat) : option (Pool T * nat) :=
  let n := p_counter p in
  let p := set_counters p (wrap64 (n + 1)) (p_inflight p) (p_in_flight p) (p_rate p) in
  if decide (healthy = []) then None else
  match healthy !! Z.to_nat (n mod Z.of_nat (length healthy)) with
  | Some i => Some (p, i)
  | None => None
  end.

(** The weight of each healthy backend; [None] when one is out of range. *)
Definition candidates_of p (healthy : list nat) : option (list (nat * Z)) :=
  mapM (fun i => (fun b => (i, b_weight b)) <$> p_backends p !! i) healthy.

Definition round_robin (draw : Z) (healthy : list nat) p : option (Pool T * nat) :=
  if p_uniform_weights p then in_turn p healthy else
  match candidates_of p healthy with
  | None => None
  | Some candidates =>
      let total := sum_list (candidates.*2) in
      if total =? 0 then in_turn p healthy
      else Some (p, weighted_pick candidates (draw mod total))
  end.

(** The score of [least_request]: [(in-flight + 1) / weight], as an [f64]. *)
Definition score (inflight weight : Z) : Z :=
  f64_div (f64_add (f64_of_Z inflight) (f64_of_Z 1)) (f64_of_Z (Z.max weight 1)).

Definition scored p (i : nat) : option (nat * Z) :=
  match p_inflight p !! i, p_backends p !! i with
  | Some n, Some b => Some (i, score n (b_weight b))
  | _, _ => None
  end.

Definition least_request (healthy : list nat) p : option nat :=
  match mapM (scored p) healthy with
  | None => None
  | Some scores => fst <$> min_by (by_key snd) scores
  end.

Definition is_healthy (m : HealthMap) p (i : nat) : option bool :=
  match p_health p !! i with
  | Some r => handle_is_selectable <$> read_handle m r
  | None => None
  end.

(** The backends that may be chosen now; [None] when a handle is missing. *)
Definition healthy_indices (m : HealthMap) p : option (list nat) :=
  (fun flags => fst <$> keep snd flags) <$>
    mapM (fun i => pair i <$> is_healthy m p i) (seq 0 (length (p_backends p))).

Definition choose (draw : Z) (hash_key : option Z) (healthy : list nat) p :
    option (Pool T * nat) :=
  match p_policy p with
  | RoundRobin => round_robin draw healthy p
  | LeastRequest => (fun i => (p, i)) <$> least_request healthy p
  | RingHash =>
      let key := default 0 hash_key in
      match ring_pick (p_ring p) key (fun i => bool_decide (i ∈ healthy)) with
      | Some i => Some (p, i)
      | None => round_robin draw healthy p
      end
  end.

(** [None] is a panic; [Some (p, None)] says that no backend is healthy. *)
Definition pool_select (m : HealthMap) (draw : Z) (hash_key : option Z) p :
    option (Pool T * option Selection) :=
  match healthy_indices m p with
  | None => None
  | Some [] => Some (p, None)
  | Some healthy =>
      match choose draw hash_key healthy p with
      | None => None
      | Some (p, idx) =>
          match p_backends p !! idx with
          | None => None
          | Some backend =>
              if bool_decide (p_policy p = LeastRequest)
              then
                match p_inflight p !! idx with
                | None => None
                | Some n =>
                    Some (set_counters p (p_counter p) (<[idx := wrap64 (n + 1)]> (p_inflight p))
                            (p_in_flight p) (p_rate p),
                          Some (mkSelection backend (BackendCount idx)))
                end
              else Some (p, Some (mkSelection backend NoCount))
          end
      end
  end.

(** ** Sets of pools *)

Fixpoint pool_set_build_from (specs : list (PoolSpec T)) (m : HealthMap) (pools : PoolSet T) :
    HealthMap * result (PoolSet T) PoolError :=
  match specs with
  | [] => (m, Ok pools)
  | s :: specs =>
      match pool_new s m with
      | (m, Err e) => (m, Err e)
      | (m, Ok p) => pool_set_build_from specs m (<[ps_id s := p]> pools)
      end
  end.

Definition pool_set_build (specs : list (PoolSpec T)) (m : HealthMap) :
    HealthMap * result (PoolSet T) PoolError := pool_set_build_from specs m ∅.

Definition pool_set_get (id : str) (s : PoolSet T) : option (Pool T) := s !! id.

Definition all_backends (s : PoolSet T) : list Key :=
  map_to_list s ≫= fun ip => (fun b => (b_host b, b_port b)) <$> p_backends ip.2.

End Pools.

(** ** A selection is a healthy backend, and never panics *)

Section SelectFacts.
Context {T : Type}.
Implicit Types p : Pool T.

(** The vectors of a pool are aligned, its handles exist, and its ring names
    its backends. *)
Definition pool_ok (m : HealthMap) p : Prop :=
  length (p_inflight p) = length (p_backends p) /\
  length (p_health p) = length (p_backends p) /\
  Forall (fun r => (r < length (hm_heap m))%nat) (p_health p) /\
  Forall (fun point => (point.2 < length (p_backends p))%nat) (p_ring p) /\
  Forall (fun b => 0 <= b_weight b) (p_backends p).

Lemma mapM_total {A B} (f : A -> option B) l :
  (forall x, x ∈ l -> is_Some (f x)) -> is_Some (mapM f l).
Proof. intros H. apply mapM_is_Some, Forall_forall, H. Qed.

Lemma is_healthy_total m p i :
  pool_ok m p -> (i < length (p_backends p))%nat -> is_Some (is_healthy m p i).
Proof.
  intros (_ & Hh & Hr & _) Hi. unfold is_healthy.
  destruct (lookup_lt_is_Some_2 (p_health p) i ltac:(lia)) as [r E]. rewrite E.
  rewrite Forall_lookup in Hr. destruct (lookup_lt_is_Some_2 _ _ (Hr _ _ E)) as [h Eh].
  unfold read_handle. rewrite Eh. by eexists.
Qed.

Lemma healthy_indices_spec m p :
  pool_ok m p -> exists l, healthy_indices m p = Some l /\ NoDup l /\
    forall i, i ∈ l <-> (i < length (p_backends p))%nat /\ is_healthy m p i = Some true.
Proof.
  intros Hok. unfold healthy_indices.
  destruct (mapM_total (fun i => pair i <$> is_healthy m p i) (seq 0 (length (p_backends p))))
    as [flags Hf].
  { intros i Hi%elem_of_seq. destruct (is_healthy_total m p i Hok ltac:(lia)) as [b ->].
    by eexists. }
  rewrite Hf. eexists. split; [done|]. apply mapM_Some in Hf.
  assert (Hfst : flags.*1 = seq 0 (length (p_backends p))).
  { clear -Hf. induction Hf as [|i [j b] l k H Hf IH]; [done|]. csimpl. rewrite IH.
    apply fmap_Some in H as (b' & _ & [= <- <-]). done. }
  split.
  - apply NoDup_fmap_keep. rewrite Hfst. apply NoDup_seq.
  - intros i. rewrite list_elem_of_fmap. split.
    + intros ([j b] & -> & [Hin Hb]%elem_of_keep). simpl in *. subst b.
      apply list_elem_of_lookup in Hin as [n Hn].
      destruct (Forall2_lookup_r _ _ _ _ _ Hf Hn) as (k & Hk & Hh).
      apply lookup_seq in Hk as [-> Hlt]. apply fmap_Some in Hh as (b' & Hb' & [= -> ->]).
      split; [lia|done].
    + intros [Hlt Hh]. exists (i, true). split; [done|]. apply elem_of_keep. split; [|done].
      assert (seq 0 (length (p_backends p)) !! i = Some i) as Hi by (apply lookup_seq; lia).
      destruct (Forall2_lookup_l _ _ _ _ _ Hf Hi) as ([j b] & Hj & Hb). rewrite Hh in Hb.
      injection Hb as <- <-. by eapply list_elem_of_lookup_2.
Qed.

Lemma in_turn_spec p healthy :
  healthy <> [] -> exists i, i ∈ healthy /\
    in_turn p healthy =
      Some (set_counters p (wrap64 (p_counter p + 1)) (p_inflight p) (p_in_flight p) (p_rate p), i).
Proof.
  intros Hne. unfold in_turn. rewrite decide_False by done.
  assert (0 < Z.of_nat (length healthy)) by (destruct healthy; simpl; [done|lia]).
  pose proof (Z.mod_pos_bound (p_counter p) (Z.of_nat (length healthy)) ltac:(lia)).
  destruct (lookup_lt_is_Some_2 healthy (Z.to_nat (p_counter p mod Z.of_nat (length healthy))))
    as [i Hi]; [lia|].
  exists i. rewrite Hi. split; [by eapply list_elem_of_lookup_2|done].
Qed.

Lemma weighted_from_elem acc candidates r idx :
  weighted_from acc candidates r = Some idx -> idx ∈ candidates.*1.
Proof.
  revert acc. induction candidates as [|[i w] l IH]; intros acc; [done|]. csimpl.
  case_if; [intros [= ->]; constructor|]. intros H%IH. by constructor.
Qed.

Lemma weighted_pick_elem candidates r :
  candidates <> [] -> weighted_pick candidates r ∈ candidates.*1.
Proof.
  intros Hne. unfold weighted_pick. destruct (weighted_from 0 candidates r) as [i|] eqn:E.
  - by eapply weighted_from_elem.
  - destruct (last candidates) as [[i w]|] eqn:El; [|by apply last_None in El].
    apply last_Some in El as [l ->]. rewrite fmap_app. simpl. set_solver.
Qed.

Lemma candidates_total p healthy :
  Forall (fun i => (i < length (p_backends p))%nat) healthy ->
  exists c, candidates_of p healthy = Some c /\ c.*1 = healthy.
Proof.
  intros H. unfold candidates_of.
  destruct (mapM_total (fun i => (fun b => (i, b_weight b)) <$> p_backends p !! i) healthy) as [c Hc].
  { intros i Hi. rewrite Forall_forall in H. destruct (lookup_lt_is_Some_2 _ _ (H i Hi)) as [b ->].
    by eexists. }
  exists c. split; [done|]. apply mapM_Some in Hc. clear -Hc.
  induction Hc as [|i [j w] l k Hi Hc IH]; [done|]. csimpl. rewrite IH.
  apply fmap_Some in Hi as (b & _ & [= <- _]). done.
Qed.

Lemma round_robin_total p draw healthy :
  healthy <> [] -> Forall (fun i => (i < length (p_backends p))%nat) healthy ->
  exists counter i, i ∈ healthy /\
    round_robin draw healthy p =
      Some (set_counters p counter (p_inflight p) (p_in_flight p) (p_rate p), i).
Proof.
  intros Hne Hin. unfold round_robin. destruct (in_turn_spec p healthy Hne) as (i & Hi & E).
  destruct (candidates_total p healthy Hin) as (c & -> & Hc).
  destruct (p_uniform_weights p); [eauto|]. destruct (_ =? 0); [eauto|].
  exists (p_counter p), (weighted_pick c (draw mod sum_list c.*2)). split; [|by destruct p].
  rewrite <-Hc. apply weighted_pick_elem. intros ->. done.
Qed.

Lemma least_request_total p healthy :
  length (p_inflight p) = length (p_backends p) ->
  healthy <> [] -> Forall (fun i => (i < length (p_backends p))%nat) healthy ->
  exists i, i ∈ healthy /\ least_request healthy p = Some i.
Proof.
  intros Hlen Hne Hin. unfold least_request.
  destruct (mapM_total (scored p) healthy) as [s Hs].
  { intros i Hi. rewrite Forall_forall in Hin. specialize (Hin i Hi). unfold scored.
    destruct (lookup_lt_is_Some_2 (p_inflight p) i ltac:(lia)) as [n ->].
    destruct (lookup_lt_is_Some_2 (p_backends p) i Hin) as [b ->]. by eexists. }
  rewrite Hs. apply mapM_Some in Hs.
  assert (Hfst : s.*1 = healthy).
  { clear -Hs. induction Hs as [|i [j w] l k Hi Hs IH]; [done|]. csimpl. rewrite IH.
    unfold scored in Hi. repeat case_match; try done. by injection Hi as <- _. }
  destruct (min_by (by_key snd) s) as [[i w]|] eqn:E.
  - exists i. split; [|done]. rewrite <-Hfst.
    apply (min_by_Some (by_key snd)) in E as [Hin' _].
    apply list_elem_of_fmap. by exists (i, w).
  - apply min_by_None in E as ->. by destruct healthy.
Qed.

Lemma ring_pick_healthy ring key h i : ring_pick ring key h = Some i -> h i = true /\ i ∈ ring.*2.
Proof.
  unfold ring_pick. case_decide; [done|]. intros ([x j] & E & ->)%fmap_Some.
  apply find_first_Some in E as [Hin Hh]. split; [done|].
  apply list_elem_of_omap in Hin as (n & _ & Hn). unfold ring_at in Hn.
  apply list_elem_of_lookup_2 in Hn. apply list_elem_of_fmap. by exists (x, j).
Qed.

Lemma choose_total m draw hash_key healthy p :
  pool_ok m p -> healthy <> [] -> Forall (fun i => (i < length (p_backends p))%nat) healthy ->
  exists counter i, i ∈ healthy /\
    choose draw hash_key healthy p =
      Some (set_counters p counter (p_inflight p) (p_in_flight p) (p_rate p), i).
Proof.
  intros Hok Hne Hin. pose proof (round_robin_total p draw healthy Hne Hin) as Hrr.
  unfold choose. destruct (p_policy p); [done|..].
  - destruct (least_request_total p healthy) as (i & Hi & ->); [apply Hok|done..|].
    exists (p_counter p), i. split; [done|]. by destruct p.
  - destruct (ring_pick _ _ _) as [i|] eqn:E; [|done]. apply ring_pick_healthy in E as [Hi _].
    bool_facts. exists (p_counter p), i. split; [done|]. by destruct p.
Qed.

(** What a selection gives. *)
Lemma select_ok m draw hash_key p :
  pool_ok m p ->
  exists p' o, pool_select m draw hash_key p = Some (p', o) /\ pool_ok m p' /\
    match o with
    | None => forall i, (i < length (p_backends p))%nat -> is_healthy m p i = Some false
    | Some sel => exists i, p_backends p !! i = Some (sel_backend sel) /\
                    is_healthy m p i = Some true
    end.
Proof.
  intros Hok. unfold pool_select. destruct (healthy_indices_spec m p Hok) as (l & -> & _ & Hl).
  destruct l as [|i0 l0] eqn:El; rewrite <-?El in *.
  - exists p, None. split; [done|]. split; [done|]. intros i Hi.
    destruct (is_healthy_total m p i Hok Hi) as [[] E]; [|done]. exfalso.
    rewrite El in Hl. by apply (not_elem_of_nil (A := nat) i), Hl.
  - assert (Hin : Forall (fun i => (i < length (p_backends p))%nat) l).
    { apply Forall_forall. intros i Hi. by apply Hl. }
    destruct (choose_total m draw hash_key l p Hok ltac:(by rewrite El) Hin) as (c & i & Hi & Hc).
    rewrite Hc. pose proof (proj1 (Hl i) Hi) as [Hlt Hh].
    cbn [p_backends p_policy p_inflight set_counters].
    destruct (lookup_lt_is_Some_2 (p_backends p) i Hlt) as [b Hb]. rewrite Hb.
    destruct Hok as (H1 & H2 & H3 & H4 & H5).
    case_bool_decide; [|by eexists _, (Some _); repeat split; eauto].
    destruct (lookup_lt_is_Some_2 (p_inflight p) i ltac:(lia)) as [n Hn]. rewrite Hn.
    eexists _, (Some _). split; [done|]. split; [|by eauto].
    repeat split; simpl; try done. by rewrite length_insert.
Qed.

(** That no backend is healthy is said only when none is. *)
Lemma select_none m draw hash_key p p' :
  pool_select m draw hash_key p = Some (p', None) ->
  forall i, (i < length (p_backends p))%nat -> is_healthy m p i = Some false.
Proof.
  unfold pool_select. destruct (healthy_indices m p) as [[|i0 l]|] eqn:Eh; [|by repeat case_match|done].
  intros _ i Hi. unfold healthy_indices in Eh. apply fmap_Some in Eh as (flags & Hf & Ek). apply mapM_Some in Hf.
  assert (seq 0 (length (p_backends p)) !! i = Some i) as Hs by (apply lookup_seq; lia).
  destruct (Forall2_lookup_l _ _ _ _ _ Hf Hs) as ([j b] & Hj & Hb). apply fmap_Some in Hb as (b' & Hb & [= -> ->]).
  destruct b'; [|exact Hb]. exfalso. symmetry in Ek. apply fmap_nil_inv in Ek.
  apply (not_elem_of_nil (i, true)). rewrite <-Ek. apply elem_of_keep. split; [|done]. by eapply list_elem_of_lookup_2.
Qed.

(** selection never panics, answers that there is no backend exactly
    when none of the pool's backends may be selected, and otherwise chooses
    one that may, as the health map stands at the moment of the call. *)
Theorem select_total m draw hash_key p :
  pool_ok m p ->
  exists p' o, pool_select m draw hash_key p = Some (p', o) /\ pool_ok m p' /\
    match o with
    | None => forall i, (i < length (p_backends p))%nat -> is_healthy m p i = Some false
    | Some sel => exists i, p_backends p !! i = Some (sel_backend sel) /\
                    is_healthy m p i = Some true
    end.
Proof. apply select_ok. Qed.
End SelectFacts.

(** A pool as built is one selection can use, whatever happens to the map
    afterwards. *)
Section BuildFacts.
Context (hash64 : str -> Z -> Z) {T : Type}.

Lemma health_op_heap o m : (length (hm_heap m) <= length (hm_heap (health_op o m)))%nat.
Proof.
  assert (H : forall k, (length (hm_heap m) <= length (hm_heap (health_map_handle k m).1))%nat).
  { intros k. unfold health_map_handle. destruct (hm_map m !! k); simpl; rewrite ?length_app; lia. }
  destruct o as [k|k s|l]; simpl; [apply H| |done].
  unfold health_map_set. specialize (H k). destruct (health_map_handle k m). simpl in *.
  by rewrite length_alter.
Qed.

Lemma pool_ok_later (p : Pool T) os m : pool_ok m p -> pool_ok (health_ops os m) p.
Proof.
  revert m. induction os as [|o os IH]; intros m Hok; [done|]. apply IH.
  destruct Hok as (H1 & H2 & H3 & H4). refine (conj H1 (conj H2 (conj _ H4))).
  eapply Forall_impl; [exact H3|]. intros r Hr. pose proof (health_op_heap o m). simpl in *. lia.
Qed.

Lemma take_handles_spec backends m :
  health_map_ok m ->
  let (m', rs) := take_handles backends m in
  health_map_ok m' /\ (length (hm_heap m) <= length (hm_heap m'))%nat /\
  length rs = length backends /\ Forall (fun r => (r < length (hm_heap m'))%nat) rs.
Proof.
  revert m. induction backends as [|b l IH]; intros m Hok; simpl; [done|].
  pose proof (handle_ok (b_host b, b_port b) m Hok) as Hok1.
  pose proof (health_op_heap (OpHandle (b_host b, b_port b)) m) as Hle. simpl in Hle.
  assert (Hr : ((health_map_handle (b_host b, b_port b) m).2 <
                length (hm_heap (health_map_handle (b_host b, b_port b) m).1))%nat).
  { unfold health_map_handle. destruct (hm_map m !! _) as [r|] eqn:E; simpl.
    - by eapply (proj1 Hok).
    - rewrite length_app. simpl. lia. }
  destruct (health_map_handle (b_host b, b_port b) m) as [m1 r]. simpl in *.
  specialize (IH m1 Hok1). destruct (take_handles l m1) as [m2 rs].
  destruct IH as (I1 & I2 & I3 & I4). repeat split; try apply I1; [lia|simpl; lia|].
  constructor; [lia|done].
Qed.

Lemma points_from_range idx backends :
  Forall (fun point => (point.2 < idx + length backends)%nat) (points_from hash64 idx backends).
Proof.
  revert idx. induction backends as [|[a w] l IH]; intros idx; simpl; [constructor|].
  apply Forall_app. split.
  - apply Forall_fmap, Forall_true. intros r. simpl. lia.
  - eapply Forall_impl; [apply IH|]. simpl. lia.
Qed.

Lemma pool_new_ok (s : PoolSpec T) m m' p :
  health_map_ok m -> Forall (fun b => 0 <= b_weight b) (ps_backends s) ->
  pool_new hash64 s m = (m', Ok p) -> pool_ok m' p.
Proof.
  intros Hok Hw. unfold pool_new. destruct (_ && _); [done|].
  pose proof (take_handles_spec (ps_backends s) m Hok) as Ht.
  destruct (take_handles (ps_backends s) m) as [m1 rs]. destruct Ht as (H1 & H2 & H3 & H4).
  intros [= <- <-]. repeat split; simpl; [by rewrite length_replicate|done..| |done].
  case_bool_decide; [|constructor]. unfold build_ring. rewrite sort_by_perm.
  pose proof (points_from_range 0 ((fun b => (authority b, b_weight b)) <$> ps_backends s)) as Hp.
  rewrite length_fmap in Hp. exact Hp.
Qed.
End BuildFacts.

(** A pool of the examples: three backends, of which the map says that the
    second is unhealthy. *)
Definition example_spec (policy : Policy) : PoolSpec unit :=
  mkPoolSpec (lit "web") policy
    [mkBackend (lit "a") 80 1; mkBackend (lit "b") 80 1; mkBackend (lit "::1") 80 1]
    (Some 2) (Some 10) ().

Definition example_hash (a : str) (replica : Z) : Z :=
  foldr (fun c h => (h * 31 + byte_val c) mod 1000) replica a.

Definition example_pool (policy : Policy) : HealthMap * Pool unit :=
  match pool_new example_hash (example_spec policy) (health_map_new true) with
  | (m, Ok p) => (health_map_set (lit "b", 80) Unhealthy m, p)
  | (m, Err _) => (m, mkPool [] policy [] () 0 [] [] [] true 0 None None)
  end.

Lemma select_total_witness :
  exists p' o, pool_select (example_pool RoundRobin).1 0 None (example_pool RoundRobin).2
    = Some (p', o) /\ is_Some o.
Proof.
  destruct (select_total (example_pool RoundRobin).1 0 None (example_pool RoundRobin).2)
    as (p' & o & E & _ & Ho).
  - apply (pool_ok_later _ [OpSet (lit "b", 80) Unhealthy]).
    apply (pool_new_ok example_hash (example_spec RoundRobin) (health_map_new true)).
    + apply health_map_new_ok.
    + repeat constructor; vm_compute; congruence.
    + vm_compute. reflexivity.
  - exists p', o. split; [exact E|]. destruct o; [eexists; reflexivity|].
    specialize (Ho 0%nat). vm_compute in Ho. discriminate Ho. repeat constructor.
Defined.

(** ** The ring *)

Lemma omap_seq {A} (f : nat -> option A) (l : list A) k :
  (forall i x, l !! i = Some x -> f (k + i)%nat = Some x) -> omap f (seq k (length l)) = l.
Proof.
  revert k. induction l as [|x l IH]; intros k H; [done|]. csimpl.
  rewrite <-(Nat.add_0_r k) at 1. rewrite (H 0%nat x eq_refl). f_equal. apply IH.
  intros i y Hy. rewrite Nat.add_succ_l, <-Nat.add_succ_r. by apply H.
Qed.

Lemma omap_seq_shift {A} (f g : nat -> option A) k n :
  (forall i, f (S i) = g i) -> omap f (seq (S k) n) = omap g (seq k n).
Proof.
  intros H. revert k. induction n as [|n IH]; intros k; [done|]. csimpl. rewrite H.
  by destruct (g k); rewrite IH.
Qed.

(** Going round from [start] is reading what follows it, then what precedes
    it. *)
Lemma ring_walk {A} (ring : list A) start :
  (start <= length ring)%nat ->
  omap (ring_at ring start) (seq 0 (length ring)) = drop start ring ++ take start ring.
Proof.
  intros Hs.
  replace (length ring) with (length (drop start ring ++ take start ring))
    by (rewrite length_app, length_drop, length_take; lia).
  apply omap_seq. intros i x Hx. simpl. unfold ring_at.
  pose proof (lookup_lt_Some _ _ _ Hx) as Hi. rewrite length_app, length_drop, length_take in Hi.
  apply lookup_app_Some in Hx as [Hx|[Hge Hx]].
  - pose proof (lookup_lt_Some _ _ _ Hx) as Hl. rewrite length_drop in Hl.
    rewrite lookup_drop in Hx. by rewrite Nat.mod_small by lia.
  - rewrite length_drop in Hge, Hx.
    assert (ring !! (i - (length ring - start))%nat = Some x) as Hx'.
    { by apply lookup_take_Some in Hx as [? _]. }
    replace ((start + i) mod length ring)%nat with (i - (length ring - start))%nat; [done|].
    replace (start + i)%nat with ((i - (length ring - start)) + 1 * length ring)%nat by lia.
    rewrite Nat.Div0.mod_add, Nat.mod_small by lia. done.
Qed.

Lemma partition_point_le {A} (p : A -> bool) l : (partition_point p l <= length l)%nat.
Proof. induction l as [|x l IH]; simpl; [lia|]. destruct (p x); lia. Qed.

Lemma partition_sorted {A} (R : A -> A -> Prop) (p : A -> bool) l :
  StronglySorted R l -> (forall x y, R x y -> p y = true -> p x = true) ->
  take (partition_point p l) l = keep p l /\
  drop (partition_point p l) l = keep (fun x => negb (p x)) l.
Proof.
  intros Hs Hm. induction Hs as [|x l Hs IH Hx]; simpl; [done|].
  destruct (p x) eqn:E; simpl.
  - destruct IH as [-> ->]. done.
  - assert (forall y, y ∈ l -> p y = false) as Hl.
    { intros y Hy. rewrite Forall_forall in Hx. destruct (p y) eqn:Ey; [|done].
      rewrite (Hm x y) in E; [done|by apply Hx|done]. }
    split.
    + symmetry. rewrite (keep_ext _ (fun _ => false)) by done. clear. by induction l.
    + f_equal. symmetry. apply keep_all. intros y Hy. by rewrite Hl.
Qed.

(** A sorted ring read from [key] on. *)
Definition from_key {A} (key : Z) (ring : list (Z * A)) : list (Z * A) :=
  keep (fun point => key <=? point.1) ring ++ keep (fun point => point.1 <? key) ring.

Lemma ring_pick_from_key ring key h :
  StronglySorted (fun x y => ring_order x y = true) ring ->
  ring_pick ring key h = snd <$> head (keep (fun point => h point.2) (from_key key ring)).
Proof.
  intros Hs. unfold ring_pick. case_decide as E; [by subst|].
  set (p := fun point : RingPoint => point.1 <? key).
  destruct (partition_sorted _ p ring Hs) as [Ht Hd].
  { unfold ring_order, by_key, p. intros x y ? ?. lia. }
  rewrite ring_walk by apply partition_point_le. rewrite Ht, Hd, find_first_keep.
  unfold from_key. do 4 f_equal. apply keep_ext. intros x _. unfold p. lia.
Qed.

Section RingFacts.
Context (hash64 : str -> Z -> Z).

Lemma build_ring_sorted backends :
  StronglySorted (fun x y => ring_order x y = true) (build_ring hash64 backends).
Proof. apply sort_by_sorted, by_key_preorder. Qed.

(** Affinity survives a health change. When backends stop being healthy,
    every key whose backend is not among them keeps its backend. *)
Theorem ring_hash_affinity backends key h h' i :
  ring_pick (build_ring hash64 backends) key h = Some i ->
  (forall j, h' j = true -> h j = true) -> h' i = true ->
  ring_pick (build_ring hash64 backends) key h' = Some i.
Proof.
  rewrite !ring_pick_from_key by apply build_ring_sorted.
  generalize (from_key key (build_ring hash64 backends)) as l. intros l H Hsub Hi. revert H.
  induction l as [|[x j] l IH]; [done|]. simpl.
  destruct (h j) eqn:E; simpl; [intros [= ->]; by rewrite Hi|].
  destruct (h' j) eqn:E'; [by rewrite (Hsub j E') in E|]. done.
Qed.

(** The backend a key is sent to, among those [h] accepts. *)
Definition ring_choice (backends : list (str * Z)) (h : str * Z -> bool) (key : Z) :
    option (str * Z) :=
  ring_pick (build_ring hash64 backends) key (fun i => is_some_and h (backends !! i))
    ≫= fun i => backends !! i.

(** The ring with the backends themselves on it. *)
Definition labelled_points (backends : list (str * Z)) : list (Z * (str * Z)) :=
  backends ≫= fun b => (fun replica => (hash64 b.1 replica, b)) <$> seqZ 0 (RING_REPLICAS * b.2).

Definition labelled_ring (backends : list (str * Z)) : list (Z * (str * Z)) :=
  sort_by (by_key fst) (labelled_points backends).

Lemma label_points before backends :
  (fun point => (point.1, (before ++ backends) !! point.2)) <$>
    points_from hash64 (length before) backends =
  (fun point => (point.1, Some point.2)) <$> labelled_points backends.
Proof.
  revert before. induction backends as [|[a w] l IH]; intros before; [done|].
  cbn [points_from]. unfold labelled_points. csimpl. rewrite !fmap_app. f_equal.
  - unfold backend_points. rewrite <-!list_fmap_compose. apply list_fmap_ext.
    intros _ r _. simpl. by rewrite lookup_app_r, Nat.sub_diag.
  - specialize (IH (before ++ [(a, w)])). rewrite <-app_assoc, length_app, Nat.add_1_r in IH.
    apply IH.
Qed.

Lemma label_ring backends :
  (fun point => (point.1, backends !! point.2)) <$> build_ring hash64 backends =
  (fun point => (point.1, Some point.2)) <$> labelled_ring backends.
Proof.
  unfold build_ring, labelled_ring, ring_order.
  rewrite <-!(sort_by_fmap _ (by_key fst)) by done. f_equal. apply (label_points []).
Qed.

Lemma from_key_fmap {A B} (f : A -> B) key (l : list (Z * A)) :
  from_key key ((fun x => (x.1, f x.2)) <$> l) = (fun x => (x.1, f x.2)) <$> from_key key l.
Proof. unfold from_key. rewrite fmap_app, !keep_fmap. done. Qed.

Lemma head_fmap {A B} (f : A -> B) l : head (f <$> l) = f <$> head l.
Proof. by destruct l. Qed.

Lemma ring_choice_labelled backends h key :
  ring_choice backends h key =
  snd <$> head (keep (fun x => h x.2) (from_key key (labelled_ring backends))).
Proof.
  unfold ring_choice. rewrite ring_pick_from_key by apply build_ring_sorted.
  pose proof (f_equal (fun l => head (keep (fun x => is_some_and h x.2) (from_key key l)))
                (label_ring backends)) as E. simpl in E.
  rewrite (from_key_fmap (fun i => backends !! i)), (from_key_fmap Some) in E.
  rewrite !keep_fmap, !head_fmap in E. simpl in E.
  destruct (head (keep _ (from_key key (build_ring hash64 backends)))) as [[x i]|];
    destruct (head (keep _ (from_key key (labelled_ring backends)))) as [[y b]|];
    simpl in *; congruence.
Qed.

Lemma labelled_ring_keep q backends :
  labelled_ring (keep q backends) = keep (fun x => q x.2) (labelled_ring backends).
Proof.
  unfold labelled_ring. rewrite keep_sort_by by apply by_key_preorder. f_equal.
  unfold labelled_points. induction backends as [|b l IH]; [done|].
  rewrite bind_cons, keep_app, keep_fmap, <-IH. cbn [keep]. destruct (q b) eqn:E; rewrite ?bind_cons.
  - rewrite (keep_all _ (seqZ _ _)) by (intros; exact E). done.
  - rewrite (keep_ext _ (fun _ => false) (seqZ _ _)) by (intros; exact E).
    assert (forall k : list Z, keep (fun _ => false) k = []) as -> by (by induction k). done.
Qed.

(** C21: minimal disruption. When some backends leave a pool (those [q] does
    not keep), every key that was sent to a backend that stays is still sent
    to it; read the other way, backends that join take keys only for
    themselves. *)
Theorem ring_hash_minimal_disruption backends q h key b :
  ring_choice backends h key = Some b -> q b = true ->
  ring_choice (keep q backends) h key = Some b.
Proof.
  rewrite !ring_choice_labelled, labelled_ring_keep.
  unfold from_key. rewrite !(keep_keep _ (fun x => q x.2)), <-keep_app.
  fold (from_key key (labelled_ring backends)).
  generalize (from_key key (labelled_ring backends)) as l. intros l H Hq. revert H.
  induction l as [|[x c] l IH]; [done|]. simpl.
  destruct (h c) eqn:Eh; simpl.
  - intros [= ->]. rewrite Hq. simpl. by rewrite Eh.
  - intros H. destruct (q c); simpl; rewrite ?Eh; by apply IH.
Qed.

(** A backend's share of the ring is its weight. *)
Lemma ring_share backends :
  Forall (fun b => 0 <= b.2) backends ->
  length (build_ring hash64 backends) = Z.to_nat (RING_REPLICAS * sum_list (backends.*2)).
Proof.
  intros Hw. unfold build_ring. rewrite length_sort_by. generalize 0%nat as idx.
  induction Hw as [|[a w] l Hb Hw IH]; intros idx; [done|].
  cbn [points_from]. unfold backend_points. rewrite length_app, length_fmap, length_seqZ, IH.
  csimpl. unfold RING_REPLICAS in *. simpl in Hb.
  assert (0 <= sum_list l.*2) by (apply sum_list_nonneg, Forall_fmap; done).
  rewrite Z.mul_add_distr_l, Z2Nat.inj_add by lia. done.
Qed.
End RingFacts.

Definition example_backends : list (str * Z) := [(lit "a:80", 1); (lit "b:80", 1); (lit "c:80", 2)].

Lemma ring_hash_affinity_witness :
  ring_pick (build_ring example_hash example_backends) 500 (fun i => negb (Nat.eqb i 1)) =
  ring_pick (build_ring example_hash example_backends) 500 (fun _ => true).
Proof.
  erewrite (ring_hash_affinity example_hash example_backends 500 (fun _ => true)
              (fun i => negb (Nat.eqb i 1))).
  - vm_compute. reflexivity.
  - vm_compute. reflexivity.
  - reflexivity.
  - vm_compute. reflexivity.
Defined.

Lemma ring_hash_minimal_disruption_witness :
  ring_choice example_hash (keep (fun b => negb (str_eqb b.1 (lit "b:80"))) example_backends)
    (fun _ => true) 500 = ring_choice example_hash example_backends (fun _ => true) 500.
Proof.
  erewrite (ring_hash_minimal_disruption example_hash example_backends
              (fun b => negb (str_eqb b.1 (lit "b:80"))) (fun _ => true) 500).
  - vm_compute. reflexivity.
  - vm_compute. reflexivity.
  - vm_compute. reflexivity.
Defined.

(** ** A weighted choice is in proportion to the weights *)

Lemma weighted_from_interval acc candidates r k idx w :
  acc <= r -> NoDup candidates.*1 -> Forall (fun c => 0 <= c.2) candidates ->
  candidates !! k = Some (idx, w) ->
  let before := acc + sum_list (take k candidates).*2 in
  weighted_from acc candidates r = Some idx <-> before <= r < before + w.
Proof.
  revert acc k. induction candidates as [|[i v] l IH]; intros acc k Hr Hnd Hw Hk; [done|].
  csimpl. apply NoDup_cons in Hnd as [Hi Hnd]. apply Forall_cons in Hw as [Hv Hw]. simpl in Hv.
  destruct k as [|k]; simpl in Hk.
  - injection Hk as -> ->. csimpl. case_if; [split; [lia|done]|].
    split; [|lia]. intros H%weighted_from_elem. done.
  - assert (0 <= sum_list (take k l).*2).
    { apply sum_list_nonneg, Forall_fmap. by apply Forall_take. }
    csimpl. case_if.
    + split; [|lia]. intros [= ->]. destruct Hi. apply list_elem_of_fmap. exists (idx, w).
      split; [done|]. by eapply list_elem_of_lookup_2.
    + rewrite (IH (acc + v) k) by done. lia.
Qed.

Lemma weighted_pick_interval candidates r k idx w :
  NoDup candidates.*1 -> Forall (fun c => 0 <= c.2) candidates ->
  candidates !! k = Some (idx, w) -> 0 <= r < sum_list candidates.*2 ->
  let before := sum_list (take k candidates).*2 in
  weighted_pick candidates r = idx <-> before <= r < before + w.
Proof.
  intros Hnd Hw Hk Hr. unfold weighted_pick.
  assert (is_Some (weighted_from 0 candidates r)) as [j Hj].
  { clear Hk Hnd. assert (0 <= r < 0 + sum_list candidates.*2) as Hr' by lia. clear Hr.
    revert Hr'. generalize 0 at 1 2 3 as acc. induction candidates as [|[i v] l IH]; intros acc Hr.
    - simpl in Hr. lia.
    - apply Forall_cons in Hw as [_ Hw]. csimpl. csimpl in Hr. case_if; [by eexists|].
      apply IH; [done|lia]. }
  pose proof (weighted_from_interval 0 candidates r k idx w ltac:(lia) Hnd Hw Hk) as H.
  rewrite Hj in *. simpl in H. rewrite <-H. split; [by intros ->|by intros [= ->]].
Qed.

Lemma keep_interval a n lo hi :
  a <= lo <= hi -> hi <= a + n ->
  Z.of_nat (length (keep (fun r => (lo <=? r) && (r <? hi)) (seqZ a n))) = hi - lo.
Proof.
  intros H1 H2. replace n with ((lo - a) + ((hi - lo) + (a + n - hi))) by lia.
  rewrite !seqZ_app, !keep_app, !length_app by lia.
  rewrite (keep_ext _ (fun _ => false) (seqZ a (lo - a))), (keep_ext _ (fun _ => false) (seqZ _ (a + n - hi)))
    by (intros x Hx%elem_of_seqZ; lia).
  assert (forall k : list Z, keep (fun _ => false) k = []) as Hn by (by induction k).
  rewrite !Hn, keep_all by (intros x Hx%elem_of_seqZ; lia). simpl.
  rewrite Nat.add_0_r, length_seqZ. lia.
Qed.

(** Of all the draws a weighted choice can be given, a backend is chosen
    for exactly as many as its weight. *)
Theorem weighted_pick_proportional candidates idx w :
  NoDup candidates.*1 -> Forall (fun c => 0 <= c.2) candidates -> (idx, w) ∈ candidates ->
  let draws := seqZ 0 (sum_list candidates.*2) in
  Z.of_nat (length (keep (fun r => Nat.eqb (weighted_pick candidates r) idx) draws)) = w.
Proof.
  intros Hnd Hw [k Hk]%list_elem_of_lookup draws.
  set (before := sum_list (take k candidates).*2).
  assert (0 <= before) by (apply sum_list_nonneg, Forall_fmap; by apply Forall_take).
  assert (0 <= w) by (rewrite Forall_lookup in Hw; by apply (Hw _ _ Hk)).
  assert (before + w <= sum_list candidates.*2).
  { rewrite <-(take_drop_middle _ _ _ Hk) at 1. rewrite fmap_app, fmap_cons, sum_list_app.
    simpl. fold before.
    assert (0 <= sum_list (drop (S k) candidates).*2)
      by (apply sum_list_nonneg, Forall_fmap; by apply Forall_drop). lia. }
  rewrite (keep_ext _ (fun r => (before <=? r) && (r <? before + w))).
  - unfold draws. rewrite keep_interval; lia.
  - intros r Hr%elem_of_seqZ.
    pose proof (weighted_pick_interval candidates r k idx w Hnd Hw Hk ltac:(lia)) as Hi.
    cbv zeta in Hi. fold before in Hi.
    destruct (Nat.eqb_spec (weighted_pick candidates r) idx) as [E|E]; rewrite Hi in E; lia.
Qed.

Lemma weighted_pick_proportional_witness :
  Z.of_nat (length (keep (fun r => Nat.eqb (weighted_pick [(0%nat, 3); (2%nat, 0); (5%nat, 4)] r) 5)
    (seqZ 0 7))) = 4.
Proof.
  apply (weighted_pick_proportional [(0%nat, 3); (2%nat, 0); (5%nat, 4)] 5 4).
  - repeat constructor; set_solver.
  - repeat constructor; simpl; lia.
  - set_solver.
Defined.

(** ** Round robin takes turns *)

Section Turns.
Context {T : Type}.
Implicit Types p : Pool T.

(** The backends [n] calls in a row are given, while the same are healthy. *)
Fixpoint turns (n : nat) (draws : nat -> Z) (healthy : list nat) p : option (list nat) :=
  match n with
  | O => Some []
  | S n =>
      match round_robin (draws n) healthy p with
      | None => None
      | Some (p, i) =>
          match turns n draws healthy p with
          | None => None
          | Some rest => Some (i :: rest)
          end
      end
  end.

Lemma turns_spec n draws healthy p :
  p_uniform_weights p = true -> healthy <> [] ->
  0 <= p_counter p -> p_counter p + Z.of_nat n <= u64_max ->
  turns n draws healthy p =
  Some (omap (fun off => healthy !! ((Z.to_nat (p_counter p) + off) mod length healthy)%nat) (seq 0 n)).
Proof.
  revert p. induction n as [|n IH]; intros p Hu Hne H0 Hmax; [done|].
  cbn [turns]. unfold round_robin. rewrite Hu.
  destruct (in_turn_spec p healthy Hne) as (i & Hi & E).
  assert (Hlen : (0 < length healthy)%nat) by (destruct healthy; simpl; [done|lia]).
  assert (Ei : healthy !! ((Z.to_nat (p_counter p) + 0) mod length healthy)%nat = Some i).
  { unfold in_turn in E. rewrite decide_False in E by done. rewrite Nat.add_0_r.
    replace (Z.to_nat (p_counter p) mod length healthy)%nat
      with (Z.to_nat (p_counter p mod Z.of_nat (length healthy))).
    - destruct (healthy !! _) as [j|]; [by injection E as ->|done].
    - rewrite Z2Nat.inj_mod by lia. by rewrite Nat2Z.id. }
  rewrite E, IH; cbn [p_uniform_weights p_counter set_counters]; try done.
  - rewrite wrap64_small by lia. cbn [seq]. cbn [omap list_omap]. rewrite Ei. do 2 f_equal.
    symmetry. apply omap_seq_shift. intros i'. do 2 f_equal. lia.
  - rewrite wrap64_small by lia. lia.
  - rewrite wrap64_small by lia. lia.
Qed.
End Turns.

(** Round robin is fair. In a pool of equal weights, any calls in a row,
    as many as there are healthy backends, are given each of them once
    (until the shared counter wraps around). *)
Theorem round_robin_fair {T} (p : Pool T) draws healthy :
  p_uniform_weights p = true -> healthy <> [] ->
  0 <= p_counter p -> p_counter p + Z.of_nat (length healthy) <= u64_max ->
  exists given, turns (length healthy) draws healthy p = Some given /\ given ≡ₚ healthy.
Proof.
  intros Hu Hne H0 Hmax. rewrite turns_spec by done. eexists. split; [done|].
  set (c := Z.to_nat (p_counter p)).
  assert (Hlen : length healthy <> 0%nat) by (destruct healthy; done).
  transitivity (take (c mod length healthy) healthy ++ drop (c mod length healthy) healthy);
    [|by rewrite take_drop].
  rewrite Permutation_app_comm, <-ring_walk by (apply Nat.lt_le_incl, Nat.mod_upper_bound; done).
  apply reflexive_eq. generalize (seq 0 (length healthy)) as offs. intros offs.
  induction offs as [|off offs IH]; [done|]. csimpl. rewrite IH. unfold ring_at.
  by rewrite Nat.Div0.add_mod_idemp_l.
Qed.

Lemma round_robin_fair_witness :
  exists given, turns 2 (fun _ => 0) [0%nat; 2%nat] (example_pool RoundRobin).2 = Some given /\
    given ≡ₚ [0%nat; 2%nat].
Proof.
  apply (round_robin_fair (example_pool RoundRobin).2 (fun _ => 0) [0%nat; 2%nat]).
  - vm_compute. reflexivity.
  - congruence.
  - vm_compute. congruence.
  - vm_compute. congruence.
Defined.

(** ** Least request compares the exact loads *)

Definition load_inflight {T} (p : Pool T) (i : nat) : Z := default 0 (p_inflight p !! i).
Definition load_weight {T} (p : Pool T) (i : nat) : Z :=
  Z.max (default 1 (b_weight <$> p_backends p !! i)) 1.

(** [(in-flight + 1) / weight] of [i] is at most that of [j]. *)
Definition load_le {T} (p : Pool T) (i j : nat) : bool :=
  (load_inflight p i + 1) * load_weight p j <=? (load_inflight p j + 1) * load_weight p i.

Lemma score_round n w :
  0 <= n < 2 ^ 52 -> w < 2 ^ 53 -> score n w = f64_round (n + 1) (Z.max w 1).
Proof.
  intros Hn Hw. unfold score, f64_div, f64_add. rewrite !f64_of_Z_exact by lia.
  rewrite <-Z.mul_add_distr_r.
  assert (f64_round ((n + 1) * f64_unit) f64_unit = (n + 1) * f64_unit) as ->.
  { rewrite <-(Z.mul_1_l f64_unit) at 2. rewrite f64_round_scale by (try done; lia).
    apply f64_of_Z_exact. lia. }
  apply f64_round_scale; [apply f64_unit_pos|lia].
Qed.

(** [least_request] chooses by the exact ratio of requests in flight
    (counting the new one) to weight, although it compares floating-point
    scores: as long as no backend has a million requests in flight, the one
    chosen is the first, in the pool's order, of those of least load. *)
Theorem least_request_exact {T} (p : Pool T) healthy i :
  least_request healthy p = Some i ->
  Forall (fun j => load_inflight p j < 2 ^ 20) healthy ->
  Forall (fun n => 0 <= n) (p_inflight p) ->
  Forall (fun b => b_weight b <= u32_max) (p_backends p) ->
  exists before after, healthy = before ++ i :: after /\
    (forall j, j ∈ before -> load_le p j i = false) /\
    (forall j, j ∈ after -> load_le p i j = true).
Proof.
  unfold least_request. intros Hl Hsmall Hpos Hw.
  destruct (mapM (scored p) healthy) as [s|] eqn:Hs; [|done]. apply mapM_Some in Hs.
  apply fmap_Some in Hl as ([k v] & Hmin & ->). simpl.
  apply (min_by_first (by_key snd)) in Hmin as (b & a & -> & Hb & Ha).
  apply Forall2_app_inv_r in Hs as (hb & hr & Fb & Fr & ->).
  apply Forall2_cons_inv_r in Fr as (k' & ha & Fk & Fa & ->).
  assert (Hsc : forall j x, scored p j = Some x ->
            x.1 = j /\ 0 <= load_inflight p j /\ load_weight p j <= u32_max /\
            (load_inflight p j < 2 ^ 20 ->
             x.2 = f64_round (load_inflight p j + 1) (load_weight p j))).
  { intros j x Hx. unfold scored in Hx. unfold load_inflight, load_weight.
    destruct (p_inflight p !! j) as [n|] eqn:En; [|done].
    destruct (p_backends p !! j) as [bk|] eqn:Eb; [|done]. injection Hx as <-. simpl.
    rewrite Forall_lookup in Hpos. rewrite Forall_lookup in Hw. pose proof (Hpos _ _ En). pose proof (Hw _ _ Eb).
    unfold u32_max in *. split; [done|]. split; [done|]. split; [lia|].
    intros. apply score_round; lia. }
  assert (Hord : forall j x j' x', scored p j = Some x -> scored p j' = Some x' ->
            load_inflight p j < 2 ^ 20 -> load_inflight p j' < 2 ^ 20 ->
            by_key snd x x' = load_le p j j').
  { intros j x j' x' Hj Hj' S S'. destruct (Hsc j x Hj) as (_ & P & Q & R).
    destruct (Hsc j' x' Hj') as (_ & P' & Q' & R'). unfold by_key, load_le.
    rewrite (R S), (R' S'). unfold u32_max in *.
    assert (1 <= load_weight p j /\ 1 <= load_weight p j') by (unfold load_weight; lia).
    apply f64_round_order; nia. }
  apply Forall_app in Hsmall as [Sb [Sk Sa]%Forall_cons]. rewrite Forall_forall in Sb, Sa.
  destruct (Hsc _ _ Fk) as (E & _). simpl in E. subst k'.
  exists hb, ha. split; [done|]. split; intros j Hj.
  - apply list_elem_of_lookup in Hj as [n Hn].
    destruct (Forall2_lookup_l _ _ _ _ _ Fb Hn) as (x & Hx & Hsx).
    rewrite <-(Hord j x k (k, v)) by (try done; apply Sb; by eapply list_elem_of_lookup_2).
    apply Hb. by eapply list_elem_of_lookup_2.
  - apply list_elem_of_lookup in Hj as [n Hn].
    destruct (Forall2_lookup_l _ _ _ _ _ Fa Hn) as (x & Hx & Hsx).
    rewrite <-(Hord k (k, v) j x) by (try done; apply Sa; by eapply list_elem_of_lookup_2).
    apply Ha. by eapply list_elem_of_lookup_2.
Qed.

(** Two backends of weights 3 and 1: with 5 and 1 in flight they are even,
    and the first is chosen. *)
Definition loaded_pool : Pool unit :=
  mkPool [] LeastRequest [mkBackend (lit "a") 80 3; mkBackend (lit "b") 80 1] () 0 [5; 1] [] []
    false 0 None None.

Lemma least_request_exact_witness :
  exists before after, [0; 1]%nat = before ++ 0%nat :: after /\
    (forall j, j ∈ before -> load_le loaded_pool j 0 = false) /\
    (forall j, j ∈ after -> load_le loaded_pool 0 j = true).
Proof.
  apply (least_request_exact loaded_pool [0; 1]%nat 0).
  - vm_compute. reflexivity.
  - repeat constructor; vm_compute; reflexivity.
  - repeat constructor; lia.
  - repeat constructor; vm_compute; congruence.
Defined.

(** ** Admission *)

(** The pool's in-flight count as a concurrency limit. *)
Definition pool_limit {T} (p : Pool T) : ConcurrencyLimit :=
  mkConcurrencyLimit (p_in_flight p) (p_max_in_flight p).

(** Admission checks the cap on requests in flight first, on the same
    counter protocol as a concurrency limit, and spends the rate only for a
    request that found a place; a request refused for the rate gives its
    place back, and one refused for lack of a place leaves the pool exactly
    as it was. *)
Theorem admit_spec {T} (p : Pool T) now max :
  p_max_in_flight p = Some max -> 0 <= p_in_flight p < u64_max ->
  let counted := limit_try_acquire (pool_limit p) in
  match counted.2 with
  | Err _ => pool_admit now p = (p, Err MaxInFlight)
  | Ok _ =>
      match p_rate p with
      | None =>
          pool_admit now p =
            (set_counters p (p_counter p) (p_inflight p) (in_use counted.1) None, Ok PoolCount)
      | Some rate =>
          let (rate', r) := token_bucket_try_acquire now rate in
          pool_admit now p =
            if is_ok r
            then (set_counters p (p_counter p) (p_inflight p) (in_use counted.1) (Some rate'),
                  Ok PoolCount)
            else (set_counters p (p_counter p) (p_inflight p)
                    (in_use (permit_drop counted.1)) (Some rate'),
                  Err MaxRequestsPerSecond)
      end
  end.
Proof.
  intros Hmax Hin counted. unfold counted.
  rewrite limit_try_acquire_spec by done. unfold pool_limit. cbn [limit_max in_use].
  unfold pool_admit. rewrite Hmax. destruct (max <=? p_in_flight p) eqn:E; cbn [snd fst].
  - unfold guard_drop, set_counters; simpl. do 2 f_equal. destruct p; simpl in *.
    f_equal; try done. subst. rewrite (wrap64_small (_ + 1)) by lia. rewrite wrap64_small; lia.
  - rewrite wrap64_small by lia. cbn [p_rate set_counters].
    destruct (p_rate p) as [rate|] eqn:Er; [|done].
    destruct (token_bucket_try_acquire now rate) as [rate' r].
    unfold is_ok. destruct (is_err r); simpl; unfold guard_drop, set_counters; simpl; done.
Qed.

Lemma admit_spec_witness :
  let p := (example_pool RoundRobin).2 in
  exists rate, pool_admit 7 p =
    (set_counters p (p_counter p) (p_inflight p) 1 (Some rate), Ok PoolCount).
Proof.
  cbv zeta. pose proof (admit_spec (example_pool RoundRobin).2 7 2 ltac:(vm_compute; reflexivity)
                          ltac:(vm_compute; split; congruence)) as H. cbv zeta in H.
  assert (E : limit_try_acquire (pool_limit (example_pool RoundRobin).2) =
              (mkConcurrencyLimit 1 (Some 2), Ok tt)) by (vm_compute; reflexivity).
  assert (Er : p_rate (example_pool RoundRobin).2 = Some (token_bucket_new 10 10))
    by (vm_compute; reflexivity).
  assert (Ok1 : is_ok (token_bucket_try_acquire 7 (token_bucket_new 10 10)).2 = true)
    by (vm_compute; reflexivity).
  rewrite E, Er in H. cbn [fst snd in_use] in H.
  destruct (token_bucket_try_acquire 7 (token_bucket_new 10 10)) as [rate r]. cbn [snd] in Ok1.
  rewrite Ok1 in H. exists rate. exact H.
Defined.

(** With no cap a pool admits every request and counts none. *)
Lemma admit_uncapped {T} (p : Pool T) now :
  p_max_in_flight p = None -> p_rate p = None -> pool_admit now p = (p, Ok NoCount).
Proof. intros H1 H2. unfold pool_admit. by rewrite H1, H2. Qed.

(** ** Sets of pools *)

Section SetFacts.
Context (hash64 : str -> Z -> Z) {T : Type}.

(** A pool's ring is within bounds. *)
Definition ring_fits (s : PoolSpec T) : Prop :=
  ps_policy s = RingHash -> ring_points (ps_backends s) <= MAX_RING_POINTS.

#[local] Instance ring_fits_dec s : Decision (ring_fits s).
Proof. unfold ring_fits. apply _. Defined.

(** The pool [p] was built from [s]. *)
Definition built_from (s : PoolSpec T) (p : Pool T) : Prop :=
  p_id p = ps_id s /\ p_policy p = ps_policy s /\ p_backends p = ps_backends s /\
  p_payload p = ps_payload s /\ p_max_in_flight p = ps_max_in_flight s.

Lemma pool_new_cases (s : PoolSpec T) m :
  match (pool_new hash64 s m).2 with
  | Ok p => ring_fits s /\ built_from s p
  | Err e => ~ ring_fits s /\ e = RingTooLarge (ps_id s) (ring_points (ps_backends s))
  end.
Proof.
  unfold pool_new, ring_fits. destruct (_ && _) eqn:E; simpl.
  - bool_facts. split; [|done]. intros H'. specialize (H' H). lia.
  - destruct (take_handles _ m) as [m' rs]. simpl. split; [|done].
    intros Hp. rewrite bool_decide_eq_true_2 in E by done. simpl in E. bool_facts. lia.
Qed.

(** The last spec with an id. *)
Definition last_spec (id : str) (specs : list (PoolSpec T)) : option (PoolSpec T) :=
  last (keep (fun s => str_eqb (ps_id s) id) specs).

(** Each id finds the pool built from the last of [specs] with that id. *)
Definition by_last (specs : list (PoolSpec T)) (pools : PoolSet T) : Prop :=
  forall id, match pool_set_get id pools, last_spec id specs with
             | Some p, Some s => built_from s p
             | None, None => True
             | _, _ => False
             end.

Lemma by_last_snoc specs pools s p :
  by_last specs pools -> built_from s p -> by_last (specs ++ [s]) (<[ps_id s := p]> pools).
Proof.
  intros Hl Hb id. unfold last_spec, pool_set_get. rewrite keep_app. cbn [keep].
  destruct (str_eqb (ps_id s) id) eqn:E.
  - apply str_eqb_eq in E as <-. by rewrite last_snoc, lookup_insert_eq.
  - rewrite app_nil_r, lookup_insert_ne; [apply Hl|].
    intros Heq. apply str_eqb_eq in Heq. congruence.
Qed.

Lemma pool_set_build_from_spec specs before m pools :
  Forall ring_fits before -> by_last before pools ->
  match (pool_set_build_from hash64 specs m pools).2 with
  | Ok pools => Forall ring_fits (before ++ specs) /\ by_last (before ++ specs) pools
  | Err (RingTooLarge id points) =>
      exists s, s ∈ specs /\ ~ ring_fits s /\ id = ps_id s /\ points = ring_points (ps_backends s)
  end.
Proof.
  revert before m pools. induction specs as [|s specs IH]; intros before m pools Hf Hp; simpl.
  { by rewrite app_nil_r. }
  pose proof (pool_new_cases s m) as Hn.
  destruct (pool_new hash64 s m) as [m' [p|[id points]]]; simpl in Hn.
  - destruct Hn as [Hs Hb].
    specialize (IH (before ++ [s]) m' (<[ps_id s := p]> pools)).
    rewrite <-app_assoc in IH. simpl in IH.
    assert (Forall ring_fits (before ++ [s])) as Hf' by (apply Forall_app; by repeat constructor).
    specialize (IH Hf' (by_last_snoc _ _ _ _ Hp Hb)).
    destruct (pool_set_build_from hash64 specs m' _) as [m'' [pools'|[id' pts]]]; simpl in *; [done|].
    destruct IH as (s' & Hin & Hrest). exists s'. split; [by constructor|done].
  - destruct Hn as [Hs [= -> ->]]. exists s. split; [constructor|done].
Qed.

(** Building a set of pools succeeds exactly when every ring is within
    bounds; then an id finds a pool exactly when some spec has it, and the
    pool found is the one built from the last spec with that id. *)
Theorem pool_set_build_spec (specs : list (PoolSpec T)) m :
  match (pool_set_build hash64 specs m).2 with
  | Ok pools => Forall ring_fits specs /\ by_last specs pools
  | Err (RingTooLarge id points) =>
      exists s, s ∈ specs /\ ~ ring_fits s /\ id = ps_id s /\ points = ring_points (ps_backends s)
  end.
Proof. apply (pool_set_build_from_spec specs [] m ∅); [constructor|]. done. Qed.
End SetFacts.
