(* ===== verification/Config.v ===== *)
(** * The configuration of a node: [gfe/config]

    The bootstrap config ([node.rs]) and the dynamic config ([dynamic.rs],
    [listener.rs], [route.rs], [pool.rs], [certificate.rs], [tls.rs],
    [health_check.rs]) as the records the files are read into, the text of
    durations ([duration.rs]), and the semantic checks ([validator.rs],
    [loader.rs]). Paths are strings. Deserialization itself is serde's: the
    loader takes it as an argument. An error is a value that says which
    check failed and for what, in place of its message. *)

From S2P Require Import Prelude Str Net.
From Stdlib Require Import Ascii.

(** ** Durations as text *)

Inductive DurationError := BadNumber | UnknownFormat.

Definition parse_u64 (s : str) : result Z DurationError :=
  match parse_unsigned u64_max s with Some n => Ok n | None => Err BadNumber end.

Definition parse_duration (s : str) : result Z DurationError :=
  let s := trim s in
  match strip_suffix (lit "us") s with
  | Some val => let? n := parse_u64 (trim val) in Ok (from_micros n)
  | None =>
      match strip_suffix (lit "ms") s with
      | Some val => let? n := parse_u64 (trim val) in Ok (from_millis n)
      | None =>
          match strip_suffix (lit "s") s with
          | Some val => let? n := parse_u64 (trim val) in Ok (from_secs n)
          | None => Err UnknownFormat
          end
      end
  end.

Definition serialize_duration (duration : Z) : str :=
  let micros := as_micros duration in
  if micros mod 1000000 =? 0 then decimal (micros / 1000000) ++ lit "s"
  else if micros mod 1000 =? 0 then decimal (micros / 1000) ++ lit "ms"
  else decimal micros ++ lit "us".

(** ** The dynamic config *)

Inductive ProbeType := ProbeHttp | ProbeHttps | ProbeTcp | ProbeGrpc.

Record HealthCheckConfig := mkHealthCheckConfig {
  hcc_probe_type : ProbeType;
  hcc_interval : Z;
  hcc_timeout : Z;
  hcc_healthy_threshold : Z;
  hcc_unhealthy_threshold : Z;
  hcc_path : str;
  hcc_expected_status : Z;
  hcc_drain_status : option Z;
}.

Definition health_check_default : HealthCheckConfig :=
  mkHealthCheckConfig ProbeHttp (from_secs 5) (from_secs 2) 2 3 (lit "/healthz") 200 None.

Inductive ListenProtocol := ListenHttp | ListenHttps.

Record Listener := mkListener {
  l_id : str;
  l_address : IpAddr;
  l_port : Z;
  l_protocol : ListenProtocol;
}.

Definition is_tls (l : Listener) : bool :=
  match l_protocol l with ListenHttps => true | ListenHttp => false end.

Record RedirectAction := mkRedirectAction { ra_scheme : str; ra_status : Z }.
Record FixedAction := mkFixedAction { fa_status : Z; fa_body : str }.

Inductive RouteAction :=
| Forward (pool : str)
| Redirect (redirect : RedirectAction)
| Fixed (fixed : FixedAction).

Record Route := mkRoute {
  r_id : str;
  r_listener : str;
  r_host : str;
  r_path_prefix : str;
  r_action : RouteAction;
}.

Inductive Scheme := SchemeHttp | SchemeHttps | SchemeH2c.

#[export] Instance Scheme_eq_dec : EqDecision Scheme.
Proof. solve_decision. Defined.

Inductive LbPolicy := LbRoundRobin | LbLeastRequest | LbRingHash.

Record Upstream := mkUpstream { u_host : str; u_port : Z; u_weight : Z }.

Record UpstreamPool := mkUpstreamPool {
  up_id : str;
  up_scheme : Scheme;
  up_lb_policy : LbPolicy;
  up_upstreams : list Upstream;
  up_health_check : option HealthCheckConfig;
  up_max_in_flight : option Z;
  up_max_requests_per_second : option Z;
}.

Record CertEntry := mkCertEntry {
  ce_sni : list str;
  ce_default : bool;
  ce_cert_file : str;
  ce_key_file : str;
}.

Record DynamicConfig := mkDynamicConfig {
  certificates : list CertEntry;
  listeners : list Listener;
  routes : list Route;
  pools : list UpstreamPool;
}.

(** ** The bootstrap config *)

Inductive MinVersion := Tls12 | Tls13.

Record TlsConfig := mkTlsConfig {
  min_version : MinVersion;
  hsts : str;
  ticket_key_file : option str;
}.

Record LogConfig := mkLogConfig { log_file : option str }.
Record EbpfConfig := mkEbpfConfig { ebpf_enabled : bool }.

Record UpstreamConfig := mkUpstreamConfig {
  idle_per_host : option Z;
  idle_timeout : Z;
  client_cert_file : option str;
  client_key_file : option str;
  extra_ca_file : option str;
}.

Definition upstream_config_default : UpstreamConfig :=
  mkUpstreamConfig None (from_secs 60) None None None.

Record NodeSection := mkNodeSection {
  node_id : str;
  loopback_vip : option IpAddr;
  metrics_addr : SocketAddr;
  worker_threads : Z;
}.

Definition default_metrics_addr : SocketAddr := mkSocketAddr (V4 [127; 0; 0; 1]) 9101.

Record ControlPlaneConfig := mkControlPlaneConfig {
  config_file : str;
  local_cache : option str;
  reload_debounce : Z;
}.

Definition default_reload_debounce : Z := from_millis 250.

Record LimitsConfig := mkLimitsConfig {
  max_connections : Z;
  max_connections_listener : Z;
  max_header_bytes : Z;
  max_h2_concurrent_streams : Z;
  max_upstream_connections : Z;
  client_connections_per_second : option Z;
}.

Definition limits_default : LimitsConfig := mkLimitsConfig 100000 50000 65536 256 20000 None.

Record TimeoutsConfig := mkTimeoutsConfig {
  tls_handshake : Z;
  request_header : Z;
  upstream_connect : Z;
  upstream_first_byte : Z;
  request_total : Z;
  client_idle : Z;
  drain_deadline : Z;
}.

Definition timeouts_default : TimeoutsConfig :=
  mkTimeoutsConfig (from_secs 10) (from_secs 10) (from_secs 3) (from_secs 30) (from_secs 60)
    (from_secs 75) (from_secs 30).

Record NodeConfig := mkNodeConfig {
  nc_node : NodeSection;
  nc_control_plane : ControlPlaneConfig;
  nc_tls : TlsConfig;
  nc_limits : LimitsConfig;
  nc_timeouts : TimeoutsConfig;
  nc_upstream : UpstreamConfig;
  nc_ebpf : option EbpfConfig;
  nc_log : LogConfig;
  nc_health_check_defaults : HealthCheckConfig;
}.

Inductive Deprecation := LoopbackVip | EbpfSection.

Definition deprecations (c : NodeConfig) : list Deprecation :=
  (if is_none (loopback_vip (nc_node c)) then [] else [LoopbackVip]) ++
  (if is_none (nc_ebpf c) then [] else [EbpfSection]).

(** ** Validation *)

Definition MAX_UPSTREAM_WEIGHT : Z := 1000.
Definition MIN_HEADER_BYTES : Z := 8192.
Definition MIN_HEALTH_CHECK_INTERVAL : Z := from_millis 100.

(** [HTTP_STATUS.contains]. *)
Definition is_http_status (status : Z) : bool := (100 <=? status) && (status <=? 599).

Inductive HealthCheckError :=
| ZeroProbeTimeout
| IntervalTooShort (interval : Z)
| PathNotAbsolute (path : str)
| BadExpectedStatus (status : Z)
| BadDrainStatus (status : Z).

Inductive DynamicError :=
| NoListeners
| DuplicateListener (id : str)
| ReusedAddress (id : str) (address : IpAddr) (port : Z)
| DuplicatePool (id : str)
| NoUpstreams (pool : str)
| InvalidUpstream (pool host : str) (port : Z)
| BracketedHost (pool host : str)
| NotAHost (pool host : str)
| WeightTooLarge (pool host : str) (port weight : Z)
| PoolHealthCheck (pool : str) (e : HealthCheckError)
| DuplicateRoute (id : str)
| UnknownListener (route listener : str)
| UnknownPool (route pool : str)
| EmptyHost (route : str)
| TwoDefaultCertificates
| NoCertificates.

Definition is_hostname (host : str) : bool :=
  (Z.of_nat (length host) <=? 253) &&
  forallb (fun label =>
    (1 <=? Z.of_nat (length label)) && (Z.of_nat (length label) <=? 63) &&
    forallb (fun b => is_ascii_alphanumeric b || bool_decide (b = "-"%char) ||
                      bool_decide (b = "_"%char)) label &&
    negb (starts_with (lit "-") label) && negb (ends_with (lit "-") label))
    (split_on "."%char host).

Definition validate_health_check (check : HealthCheckConfig) : result unit HealthCheckError :=
  if hcc_timeout check =? 0 then Err ZeroProbeTimeout
  else if hcc_interval check <? MIN_HEALTH_CHECK_INTERVAL
  then Err (IntervalTooShort (hcc_interval check))
  else if negb (starts_with (lit "/") (hcc_path check)) then Err (PathNotAbsolute (hcc_path check))
  else if negb (is_http_status (hcc_expected_status check))
  then Err (BadExpectedStatus (hcc_expected_status check))
  else match hcc_drain_status check with
  | Some status => if negb (is_http_status status) then Err (BadDrainStatus status) else Ok ()
  | None => Ok ()
  end.

Fixpoint validate_listeners (ls : list Listener) (ids : gset str) (addrs : gset (IpAddr * Z)) :
    result (gset str) DynamicError :=
  match ls with
  | [] => Ok ids
  | l :: ls =>
      if bool_decide (l_id l ∈ ids) then Err (DuplicateListener (l_id l))
      else if bool_decide ((l_address l, l_port l) ∈ addrs)
      then Err (ReusedAddress (l_id l) (l_address l) (l_port l))
      else validate_listeners ls ({[l_id l]} ∪ ids) ({[(l_address l, l_port l)]} ∪ addrs)
  end.

Definition validate_pool_upstream (pool : str) (u : Upstream) : result unit DynamicError :=
  if bool_decide (u_host u = []) || (u_port u =? 0)
  then Err (InvalidUpstream pool (u_host u) (u_port u))
  else if contains_char "["%char (u_host u) || contains_char "]"%char (u_host u)
  then Err (BracketedHost pool (u_host u))
  else if is_none (parse_ip (u_host u)) && negb (is_hostname (u_host u))
  then Err (NotAHost pool (u_host u))
  else if MAX_UPSTREAM_WEIGHT <? u_weight u
  then Err (WeightTooLarge pool (u_host u) (u_port u) (u_weight u))
  else Ok ().

Fixpoint validate_upstreams (pool : str) (us : list Upstream) : result unit DynamicError :=
  match us with
  | [] => Ok ()
  | u :: us => let? _ := validate_pool_upstream pool u in validate_upstreams pool us
  end.

Fixpoint validate_pools (ps : list UpstreamPool) (ids : gset str) :
    result (gset str) DynamicError :=
  match ps with
  | [] => Ok ids
  | p :: ps =>
      if bool_decide (up_id p ∈ ids) then Err (DuplicatePool (up_id p))
      else if bool_decide (up_upstreams p = []) then Err (NoUpstreams (up_id p))
      else
        let? _ := validate_upstreams (up_id p) (up_upstreams p) in
        let? _ :=
          match up_health_check p with
          | Some check => map_err (PoolHealthCheck (up_id p)) (validate_health_check check)
          | None => Ok ()
          end in
        validate_pools ps ({[up_id p]} ∪ ids)
  end.

Fixpoint validate_routes (listener_ids pool_ids : gset str) (rs : list Route) (ids : gset str) :
    result unit DynamicError :=
  match rs with
  | [] => Ok ()
  | r :: rs =>
      if bool_decide (r_id r ∈ ids) then Err (DuplicateRoute (r_id r))
      else if negb (bool_decide (r_listener r ∈ listener_ids))
      then Err (UnknownListener (r_id r) (r_listener r))
      else
        match r_action r with
        | Forward pool =>
            if negb (bool_decide (pool ∈ pool_ids)) then Err (UnknownPool (r_id r) pool)
            else if bool_decide (r_host r = []) then Err (EmptyHost (r_id r))
            else validate_routes listener_ids pool_ids rs ({[r_id r]} ∪ ids)
        | _ =>
            if bool_decide (r_host r = []) then Err (EmptyHost (r_id r))
            else validate_routes listener_ids pool_ids rs ({[r_id r]} ∪ ids)
        end
  end.

Definition validate_dynamic_config (cfg : DynamicConfig) : result unit DynamicError :=
  if bool_decide (length (listeners cfg) = 0%nat) then Err NoListeners else
  let? listener_ids := validate_listeners (listeners cfg) ∅ ∅ in
  let? pool_ids := validate_pools (pools cfg) ∅ in
  let? _ := validate_routes listener_ids pool_ids (routes cfg) ∅ in
  if Nat.ltb 1 (length (keep ce_default (certificates cfg))) then Err TwoDefaultCertificates
  else if existsb is_tls (listeners cfg) && bool_decide (length (certificates cfg) = 0%nat)
  then Err NoCertificates
  else Ok ().

Inductive NodeError :=
| HeaderBytesTooSmall (bytes : Z)
| HealthCheckDefaults (e : HealthCheckError)
| ZeroLimit (name : str)
| ZeroTimeout (name : str)
| CertWithoutKey
| KeyWithoutCert.

Definition validate_limits_and_timeouts (config : NodeConfig) : result unit NodeError :=
  let l := nc_limits config in
  let limits :=
    [(lit "max_connections", max_connections l);
     (lit "max_connections_listener", max_connections_listener l);
     (lit "max_h2_concurrent_streams", max_h2_concurrent_streams l);
     (lit "max_upstream_connections", max_upstream_connections l)] in
  let t := nc_timeouts config in
  let timeouts :=
    [(lit "tls_handshake", tls_handshake t); (lit "request_header", request_header t);
     (lit "upstream_connect", upstream_connect t);
     (lit "upstream_first_byte", upstream_first_byte t);
     (lit "request_total", request_total t); (lit "client_idle", client_idle t);
     (lit "drain_deadline", drain_deadline t)] in
  match find_first (fun nv => nv.2 =? 0) limits with
  | Some (name, _) => Err (ZeroLimit name)
  | None =>
      match find_first (fun nv => nv.2 =? 0) timeouts with
      | Some (name, _) => Err (ZeroTimeout name)
      | None => Ok ()
      end
  end.

Definition validate_upstream (upstream : UpstreamConfig) : result unit NodeError :=
  match client_cert_file upstream, client_key_file upstream with
  | Some _, None => Err CertWithoutKey
  | None, Some _ => Err KeyWithoutCert
  | _, _ => Ok ()
  end.

Definition validate_node_config (config : NodeConfig) : result unit NodeError :=
  if max_header_bytes (nc_limits config) <? MIN_HEADER_BYTES
  then Err (HeaderBytesTooSmall (max_header_bytes (nc_limits config))) else
  let? _ := map_err HealthCheckDefaults (validate_health_check (nc_health_check_defaults config)) in
  let? _ := validate_limits_and_timeouts config in
  validate_upstream (nc_upstream config).

(** ** Loading *)

Inductive ConfigError (IoError ParseError : Type) :=
| ReadError (path : str) (error : IoError)
| ParseFailed (path : str) (reason : ParseError)
| InvalidNodeConfig (path : str) (reason : NodeError)
| InvalidDynamicConfig (reason : DynamicError).
Arguments ReadError {_ _} _ _.
Arguments ParseFailed {_ _} _ _.
Arguments InvalidNodeConfig {_ _} _ _.
Arguments InvalidDynamicConfig {_ _} _.

Definition validate {I P} (cfg : DynamicConfig) : result unit (ConfigError I P) :=
  map_err InvalidDynamicConfig (validate_dynamic_config cfg).

Section Loader.
Context {IoError ParseError : Type}.
Context (read_to_string : str -> result str IoError).
Context (toml_from_str : str -> result NodeConfig ParseError).
Context (json_from_str : str -> result DynamicConfig ParseError).

Definition read_config (path : str) : result str (ConfigError IoError ParseError) :=
  map_err (ReadError path) (read_to_string path).

Definition load_node_config (path : str) : result NodeConfig (ConfigError IoError ParseError) :=
  let? text := read_config path in
  let? config := map_err (ParseFailed path) (toml_from_str text) in
  let? _ := map_err (InvalidNodeConfig path) (validate_node_config config) in
  Ok config.

Definition load_dynamic_config (path : str) :
    result DynamicConfig (ConfigError IoError ParseError) :=
  let? text := read_config path in
  map_err (ParseFailed path) (json_from_str text).
End Loader.

(** ** What validation accepts, stated once *)

Definition valid_health_check (c : HealthCheckConfig) : Prop :=
  hcc_timeout c <> 0 /\ MIN_HEALTH_CHECK_INTERVAL <= hcc_interval c /\
  (exists rest, hcc_path c = lit "/" ++ rest) /\
  is_http_status (hcc_expected_status c) = true /\
  (forall s, hcc_drain_status c = Some s -> is_http_status s = true).

Definition valid_pool_upstream (u : Upstream) : Prop :=
  u_host u <> [] /\ u_port u <> 0 /\ "["%char ∉ u_host u /\ "]"%char ∉ u_host u /\
  (is_Some (parse_ip (u_host u)) \/ is_hostname (u_host u) = true) /\
  u_weight u <= MAX_UPSTREAM_WEIGHT.

Definition valid_pool (p : UpstreamPool) : Prop :=
  up_upstreams p <> [] /\ Forall valid_pool_upstream (up_upstreams p) /\
  (forall c, up_health_check p = Some c -> valid_health_check c).

(** A route names a listener and, when it forwards, a pool of the config. *)
Definition valid_route (listener_ids pool_ids : gset str) (r : Route) : Prop :=
  r_listener r ∈ listener_ids /\
  (forall pool, r_action r = Forward pool -> pool ∈ pool_ids) /\ r_host r <> [].

Definition listener_addr (l : Listener) : IpAddr * Z := (l_address l, l_port l).

Record valid_dynamic (cfg : DynamicConfig) : Prop := {
  vd_listeners : listeners cfg <> [];
  vd_listener_ids : NoDup (l_id <$> listeners cfg);
  vd_listener_addrs : NoDup (listener_addr <$> listeners cfg);
  vd_pool_ids : NoDup (up_id <$> pools cfg);
  vd_pools : Forall valid_pool (pools cfg);
  vd_route_ids : NoDup (r_id <$> routes cfg);
  vd_routes : Forall (valid_route (list_to_set (l_id <$> listeners cfg))
                        (list_to_set (up_id <$> pools cfg))) (routes cfg);
  vd_defaults : (length (keep ce_default (certificates cfg)) <= 1)%nat;
  vd_https : Exists (fun l => is_tls l = true) (listeners cfg) -> certificates cfg <> [];
}.

Lemma validate_health_check_iff c : validate_health_check c = Ok () <-> valid_health_check c.
Proof.
  unfold validate_health_check, valid_health_check.
  rewrite <-starts_with_iff. split.
  - intros H. repeat case_if; try done. destruct (hcc_drain_status c) as [s|] eqn:Es.
    + repeat case_if; try done. repeat split; try done; try lia. by intros ? [= <-].
    + repeat split; try done; lia.
  - intros (H1 & H2 & H3 & H4 & H5). rewrite H3, H4.
    replace (hcc_timeout c =? 0) with false by lia.
    replace (hcc_interval c <? MIN_HEALTH_CHECK_INTERVAL) with false by lia. simpl.
    destruct (hcc_drain_status c) as [s|]; [|done]. by rewrite (H5 s eq_refl).
Qed.

Lemma contains_char_false c s : contains_char c s = false <-> c ∉ s.
Proof. by rewrite <-contains_char_iff, not_true_iff_false. Qed.

Lemma validate_upstream_iff pool u : validate_pool_upstream pool u = Ok () <-> valid_pool_upstream u.
Proof.
  unfold validate_pool_upstream, valid_pool_upstream. rewrite <-!contains_char_false.
  destruct (parse_ip (u_host u)) as [a|]; simpl.
  - split.
    + intros H. repeat case_if; try done. repeat split; try done; try lia. eauto.
    + intros (H1 & H2 & -> & -> & _ & H6). rewrite bool_decide_eq_false_2 by done.
      replace (u_port u =? 0) with false by lia.
      by replace (MAX_UPSTREAM_WEIGHT <? u_weight u) with false by lia.
  - split.
    + intros H. repeat case_if; try done. repeat split; try done; try lia. eauto.
    + intros (H1 & H2 & -> & -> & H5 & H6). rewrite bool_decide_eq_false_2 by done.
      destruct H5 as [[? ?]| ->]; [done|]. replace (u_port u =? 0) with false by lia.
      by replace (MAX_UPSTREAM_WEIGHT <? u_weight u) with false by lia.
Qed.

Lemma validate_upstreams_iff pool us :
  validate_upstreams pool us = Ok () <-> Forall valid_pool_upstream us.
Proof.
  induction us as [|u us IH]; simpl; [split; [constructor|done]|].
  rewrite Forall_cons, <-IH, <-(validate_upstream_iff pool).
  destruct (validate_pool_upstream pool u) as [[]|e]; naive_solver.
Qed.

(** Ids not seen before, each once. *)
Definition fresh {A} `{Countable A} (seen : gset A) (l : list A) : Prop :=
  NoDup l /\ forall x, x ∈ l -> x ∉ seen.

Lemma fresh_cons {A} `{Countable A} (seen : gset A) x l :
  fresh seen (x :: l) <-> x ∉ seen /\ fresh ({[x]} ∪ seen) l.
Proof. unfold fresh. rewrite NoDup_cons. set_solver. Qed.

Lemma fresh_empty {A} `{Countable A} (l : list A) : fresh ∅ l <-> NoDup l.
Proof. unfold fresh. set_solver. Qed.

Lemma validate_listeners_iff ls ids addrs r :
  validate_listeners ls ids addrs = Ok r <->
  fresh ids (l_id <$> ls) /\ fresh addrs (listener_addr <$> ls) /\
  r = list_to_set (l_id <$> ls) ∪ ids.
Proof.
  revert ids addrs. induction ls as [|l ls IH]; intros ids addrs; csimpl.
  - rewrite union_empty_l_L. split; [intros [= <-]|by intros (_ & _ & ->)].
    repeat split; try constructor; set_solver.
  - rewrite !fresh_cons. fold (listener_addr l).
    destruct (bool_decide (l_id l ∈ ids)) eqn:E1; bool_facts; [naive_solver|].
    destruct (bool_decide (listener_addr l ∈ addrs)) eqn:E2; bool_facts; [naive_solver|].
    rewrite IH. rewrite (union_assoc_L _ {[l_id l]}), (union_comm_L _ {[l_id l]}). naive_solver.
Qed.

Lemma validate_pools_iff ps ids r :
  validate_pools ps ids = Ok r <->
  fresh ids (up_id <$> ps) /\ Forall valid_pool ps /\ r = list_to_set (up_id <$> ps) ∪ ids.
Proof.
  revert ids. induction ps as [|p ps IH]; intros ids; csimpl.
  - rewrite union_empty_l_L. split; [intros [= <-]|by intros (_ & _ & ->)].
    repeat split; try constructor; set_solver.
  - rewrite fresh_cons, Forall_cons.
    destruct (bool_decide (up_id p ∈ ids)) eqn:E1; bool_facts; [naive_solver|].
    unfold valid_pool at 1. rewrite <-(validate_upstreams_iff (up_id p)).
    destruct (bool_decide (up_upstreams p = [])) eqn:E2; bool_facts; [naive_solver|].
    destruct (validate_upstreams _ _) as [[]|e]; [|naive_solver].
    assert (Hc : match up_health_check p with
              | Some c => map_err (PoolHealthCheck (up_id p)) (validate_health_check c)
              | None => Ok () end = Ok () <->
            forall c, up_health_check p = Some c -> valid_health_check c).
    { destruct (up_health_check p) as [c|]; [|naive_solver].
      split.
      - intros H. destruct (validate_health_check c) as [[]|] eqn:Ec; [|done].
        intros c' [= <-]. by apply validate_health_check_iff.
      - intros H. specialize (H c eq_refl). apply validate_health_check_iff in H. by rewrite H. }
    rewrite <-Hc. destruct (match up_health_check p with Some _ => _ | None => _ end) as [[]|e];
      [|naive_solver].
    rewrite IH, (union_assoc_L _ {[up_id p]}), (union_comm_L _ {[up_id p]}). naive_solver.
Qed.

Lemma validate_routes_iff lids pids rs ids :
  validate_routes lids pids rs ids = Ok () <->
  fresh ids (r_id <$> rs) /\ Forall (valid_route lids pids) rs.
Proof.
  revert ids. induction rs as [|r rs IH]; intros ids; csimpl.
  - split; [|done]. repeat split; try constructor; set_solver.
  - rewrite fresh_cons, Forall_cons. unfold valid_route at 1.
    destruct (bool_decide (r_id r ∈ ids)) eqn:E1; bool_facts; [naive_solver|].
    destruct (bool_decide (r_listener r ∈ lids)) eqn:E2; bool_facts; simpl; [|naive_solver].
    destruct (r_action r) as [pool|rd|fx] eqn:Ea.
    + destruct (bool_decide (pool ∈ pids)) eqn:E3; bool_facts; simpl; [|naive_solver].
      destruct (bool_decide (r_host r = [])) eqn:E4; bool_facts; [naive_solver|].
      rewrite IH. naive_solver.
    + destruct (bool_decide (r_host r = [])) eqn:E4; bool_facts; [naive_solver|].
      rewrite IH. naive_solver.
    + destruct (bool_decide (r_host r = [])) eqn:E4; bool_facts; [naive_solver|].
      rewrite IH. naive_solver.
Qed.

Lemma validate_dynamic_accepts cfg : validate_dynamic_config cfg = Ok () <-> valid_dynamic cfg.
Proof.
  unfold validate_dynamic_config. destruct (bool_decide (length (listeners cfg) = 0%nat)) eqn:E0; bool_facts.
  { split; [done|]. intros H. destruct (vd_listeners _ H). by apply nil_length_inv. }
  destruct (validate_listeners (listeners cfg) ∅ ∅) as [lids|e] eqn:El; [|split; [done|]].
  2: { intros H. enough (exists r, validate_listeners (listeners cfg) ∅ ∅ = Ok r) as [r E] by congruence.
       eexists. apply validate_listeners_iff. rewrite !fresh_empty.
       split; [apply H|]. split; [apply H|done]. }
  apply validate_listeners_iff in El as (L1 & L2 & ->). rewrite fresh_empty in L1. rewrite fresh_empty in L2.
  destruct (validate_pools (pools cfg) ∅) as [pids|e] eqn:Ep; [|split; [done|]].
  2: { intros H. enough (exists r, validate_pools (pools cfg) ∅ = Ok r) as [r E] by congruence.
       eexists. apply validate_pools_iff. rewrite fresh_empty.
       split; [apply H|]. split; [apply H|done]. }
  apply validate_pools_iff in Ep as (P1 & P2 & ->). rewrite fresh_empty in P1.
  rewrite !union_empty_r_L.
  destruct (validate_routes _ _ (routes cfg) ∅) as [[]|e] eqn:Er; [|split; [done|]].
  2: { intros H. enough (validate_routes (list_to_set (l_id <$> listeners cfg))
         (list_to_set (up_id <$> pools cfg)) (routes cfg) ∅ = Ok ()) by congruence.
       apply validate_routes_iff. rewrite fresh_empty. split; apply H. }
  apply validate_routes_iff in Er as (R1 & R2). rewrite fresh_empty in R1.
  destruct (Nat.ltb_spec 1 (length (keep ce_default (certificates cfg)))) as [Hd|Hd].
  { split; [done|]. intros H. pose proof (vd_defaults _ H). lia. }
  assert (Hx : existsb is_tls (listeners cfg) = true <-> Exists (fun l => is_tls l = true) (listeners cfg)).
  { rewrite existsb_exists, Exists_exists. by setoid_rewrite list_elem_of_In. }
  split.
  - intros H. constructor; try done; [intros E; apply E0; by rewrite E|].
    intros Ht%Hx E. by rewrite Ht, E in H.
  - intros H. destruct (existsb is_tls (listeners cfg)); simpl; [|done].
    rewrite bool_decide_eq_false_2; [done|]. intros E%nil_length_inv.
    by apply (vd_https _ H); [apply Hx|].
Qed.

(** C22: the validator accepts a dynamic config exactly when it makes sense:
    there is a listener, ids are unique within their kind, no two listeners
    share an address, every pool has well-formed upstreams and a sensible
    check, every route names a listener and a pool of the config, there is
    at most one default certificate, and a certificate if a listener speaks
    TLS. *)
Theorem validate_dynamic_iff cfg : validate_dynamic_config cfg = Ok () <-> valid_dynamic cfg.
Proof. apply validate_dynamic_accepts. Qed.

Lemma no_zero_iff (l : list (str * Z)) :
  find_first (fun nv => nv.2 =? 0) l = None <-> Forall (fun nv => nv.2 <> 0) l.
Proof.
  rewrite find_first_None, Forall_forall. split; intros H x Hx; specialize (H x Hx); lia.
Qed.

Lemma validate_limits_iff c :
  validate_limits_and_timeouts c = Ok () <->
  (let l := nc_limits c in
   max_connections l <> 0 /\ max_connections_listener l <> 0 /\
   max_h2_concurrent_streams l <> 0 /\ max_upstream_connections l <> 0) /\
  (let t := nc_timeouts c in
   tls_handshake t <> 0 /\ request_header t <> 0 /\ upstream_connect t <> 0 /\
   upstream_first_byte t <> 0 /\ request_total t <> 0 /\ client_idle t <> 0 /\
   drain_deadline t <> 0).
Proof.
  unfold validate_limits_and_timeouts.
  match goal with |- context [find_first _ ?l] => pose proof (no_zero_iff l) as H end.
  destruct (find_first _ _) as [[name v]|].
  { split; [done|]. intros [Hl _]. enough (Some (name, v) = None) by done. apply H.
    rewrite !Forall_cons, Forall_nil. simpl. tauto. }
  assert (Hl := proj1 H eq_refl). rewrite !Forall_cons, Forall_nil in Hl. simpl in Hl. clear H.
  match goal with |- context [find_first _ ?l] => pose proof (no_zero_iff l) as H end.
  destruct (find_first _ _) as [[name v]|].
  { split; [done|]. intros [_ Ht]. enough (Some (name, v) = None) by done. apply H.
    rewrite !Forall_cons, Forall_nil. simpl. tauto. }
  assert (Ht := proj1 H eq_refl). rewrite !Forall_cons, Forall_nil in Ht. simpl in Ht.
  simpl. tauto.
Qed.

Lemma validate_upstream_section_iff u :
  validate_upstream u = Ok () <->
  (is_Some (client_cert_file u) <-> is_Some (client_key_file u)).
Proof.
  unfold validate_upstream. rewrite !is_Some_alt.
  destruct (client_cert_file u), (client_key_file u); split; try tauto; done.
Qed.

(** What an accepted bootstrap config says of its limits, its timeouts and its
    client identity. *)
Lemma validate_node_limits c :
  validate_node_config c = Ok () ->
  MIN_HEADER_BYTES <= max_header_bytes (nc_limits c) /\ validate_limits_and_timeouts c = Ok () /\
  validate_upstream (nc_upstream c) = Ok ().
Proof.
  unfold validate_node_config.
  destruct (max_header_bytes (nc_limits c) <? MIN_HEADER_BYTES) eqn:E0; [done|]. bool_facts.
  destruct (validate_health_check _) as [[]|e]; simpl; [|done].
  destruct (validate_limits_and_timeouts c) as [[]|e]; done.
Qed.

(** A bootstrap config is accepted exactly when no limit and no timeout
    is zero, the header buffer is large enough for the HTTP server, the
    default health check makes sense and the client identity, if any, is
    whole. *)
Theorem validate_node_iff c :
  validate_node_config c = Ok () <->
  MIN_HEADER_BYTES <= max_header_bytes (nc_limits c) /\
  valid_health_check (nc_health_check_defaults c) /\
  (let l := nc_limits c in
   max_connections l <> 0 /\ max_connections_listener l <> 0 /\
   max_h2_concurrent_streams l <> 0 /\ max_upstream_connections l <> 0) /\
  (let t := nc_timeouts c in
   tls_handshake t <> 0 /\ request_header t <> 0 /\ upstream_connect t <> 0 /\
   upstream_first_byte t <> 0 /\ request_total t <> 0 /\ client_idle t <> 0 /\
   drain_deadline t <> 0) /\
  (is_Some (client_cert_file (nc_upstream c)) <-> is_Some (client_key_file (nc_upstream c))).
Proof.
  unfold validate_node_config.
  destruct (max_header_bytes (nc_limits c) <? MIN_HEADER_BYTES) eqn:E0; bool_facts.
  { split; [done|]. intros [H _]. lia. }
  rewrite <-validate_health_check_iff, <-validate_upstream_section_iff.
  pose proof (validate_limits_iff c) as Hl.
  destruct (validate_health_check _) as [[]|e]; simpl; [|split; [done|by intros (_ & ? & _)]].
  destruct (validate_limits_and_timeouts c) as [[]|e]; [|split; [done|]].
  - destruct (proj1 Hl eq_refl) as [H1 H2]. split; [|by intros (_ & _ & _ & _ & H)].
    intros H. exact (conj E0 (conj eq_refl (conj H1 (conj H2 H)))).
  - intros (_ & _ & H1 & H2 & _). by apply Hl.
Qed.

(** ** Durations read back what they write *)

Lemma strip_one_clean c s :
  is_ascii_alphanumeric c = true ->
  strip_one white_space (c :: s) = None /\ strip_one (reverse <$> white_space) (c :: s) = None.
Proof. destruct c as [[] [] [] [] [] [] [] []]; try discriminate; intros _; by split. Qed.

Lemma trim_start_with_clean fuel spaces s :
  strip_one spaces s = None -> trim_start_with fuel spaces s = s.
Proof. intros H. destruct fuel; simpl; [done|]. by rewrite H. Qed.

(** A string that begins and ends with a letter or a digit is trimmed. *)
Lemma trim_clean c s d t :
  c :: s = t ++ [d] -> is_ascii_alphanumeric c = true -> is_ascii_alphanumeric d = true ->
  trim (c :: s) = c :: s.
Proof.
  intros E Hc Hd. unfold trim, trim_start.
  rewrite trim_start_with_clean by (by apply strip_one_clean). unfold trim_end.
  rewrite E, reverse_app. simpl. rewrite trim_start_with_clean by (by apply strip_one_clean).
  rewrite <-reverse_snoc, reverse_involutive. done.
Qed.

Lemma digit_alphanumeric c : is_ascii_digit c = true -> is_ascii_alphanumeric c = true.
Proof. intros H. unfold is_ascii_alphanumeric. by rewrite H, orb_true_r. Qed.

Lemma trim_decimal n : trim (decimal n) = decimal n.
Proof.
  pose proof (decimal_digits n) as Hd. pose proof (decimal_nonempty n) as Hn.
  destruct (decimal n) as [|c s] using rev_ind; [done|]. clear IHs.
  apply Forall_app in Hd as [Hs Hc]. apply Forall_cons in Hc as [Hc _].
  destruct s as [|d s]; [|apply Forall_cons in Hs as [Hs _]]; simpl;
    eapply trim_clean; try by apply digit_alphanumeric.
  - by instantiate (1 := []).
  - by rewrite app_comm_cons.
Qed.

Lemma trim_decimal_unit n unit before u :
  unit = before ++ [u] -> is_ascii_alphanumeric u = true ->
  trim (decimal n ++ unit) = decimal n ++ unit.
Proof.
  intros -> Hu. pose proof (decimal_digits n) as Hd. pose proof (decimal_nonempty n) as Hn.
  destruct (decimal n) as [|c s]; [done|]. apply Forall_cons in Hd as [Hc _].
  rewrite app_assoc. simpl. eapply trim_clean; [|by apply digit_alphanumeric|exact Hu].
  by rewrite app_comm_cons.
Qed.

Lemma decimal_no_suffix n c r : is_ascii_digit c = false -> decimal n <> r ++ [c].
Proof.
  intros Hc E. pose proof (decimal_digits n) as Hd. rewrite E in Hd.
  apply Forall_app in Hd as [_ Hd]. apply Forall_cons in Hd as [Hd _]. congruence.
Qed.

Lemma strip_suffix_None p s : (forall r, s <> r ++ p) -> strip_suffix p s = None.
Proof.
  intros H. destruct (strip_suffix p s) as [r|] eqn:E; [|done].
  apply strip_suffix_Some in E. by apply H in E.
Qed.

Lemma strip_suffix_app p s : strip_suffix p (s ++ p) = Some s.
Proof. by apply strip_suffix_Some. Qed.

Lemma parse_u64_decimal n : 0 <= n <= u64_max -> parse_u64 (trim (decimal n)) = Ok n.
Proof.
  intros H. unfold parse_u64. rewrite trim_decimal, parse_decimal; [done|done|].
  unfold u64_max in H. lia.
Qed.

Lemma parse_secs n : 0 <= n <= u64_max -> parse_duration (decimal n ++ lit "s") = Ok (from_secs n).
Proof.
  intros H. unfold parse_duration. rewrite (trim_decimal_unit n _ [] "s"%char) by done.
  assert (Hno : forall u, is_ascii_digit u = false ->
            strip_suffix ([u] ++ lit "s") (decimal n ++ lit "s") = None).
  { intros u Hu. apply strip_suffix_None. intros r E. rewrite app_assoc in E.
    apply app_inv_tail in E. by apply decimal_no_suffix in E. }
  change (lit "us") with (["u"%char] ++ lit "s"). change (lit "ms") with (["m"%char] ++ lit "s").
  rewrite !Hno by done.
  by rewrite strip_suffix_app, parse_u64_decimal.
Qed.

Lemma parse_millis n : 0 <= n <= u64_max -> parse_duration (decimal n ++ lit "ms") = Ok (from_millis n).
Proof.
  intros H. unfold parse_duration. rewrite (trim_decimal_unit n _ ["m"%char] "s"%char) by done.
  rewrite strip_suffix_None.
  - by rewrite strip_suffix_app, parse_u64_decimal.
  - intros r E. change (lit "us") with (["u"%char] ++ lit "s") in E.
    change (lit "ms") with (["m"%char] ++ lit "s") in E. rewrite !app_assoc in E.
    apply app_inv_tail in E. by apply app_inj_tail in E as [_ ?].
Qed.

Lemma parse_micros n : 0 <= n <= u64_max -> parse_duration (decimal n ++ lit "us") = Ok (from_micros n).
Proof.
  intros H. unfold parse_duration. rewrite (trim_decimal_unit n _ ["u"%char] "s"%char) by done.
  by rewrite strip_suffix_app, parse_u64_decimal.
Qed.

(** What parsing can give: a number of units that fits [u64]. *)
Lemma parse_duration_cases s d :
  parse_duration s = Ok d ->
  exists n, 0 <= n <= u64_max /\ (d = from_secs n \/ d = from_millis n \/ d = from_micros n).
Proof.
  unfold parse_duration, parse_u64. intros H.
  repeat case_match; try done; simplify_eq; eexists; (split; [by eapply parse_unsigned_range|eauto]).
Qed.

(** Durations round-trip. A duration read from a config and written back,
    as the last-known-good cache is, reads as the same duration. *)
Theorem duration_roundtrip s d :
  parse_duration s = Ok d -> parse_duration (serialize_duration d) = Ok d.
Proof.
  intros (n & Hn & Hd)%parse_duration_cases. unfold serialize_duration, as_micros.
  unfold from_secs, from_millis, from_micros, NANOS_PER_SEC, NANOS_PER_MILLI, NANOS_PER_MICRO in *.
  assert (exists m, d = m * 1000 /\ 0 <= m /\
            (m <= u64_max \/ (m mod 1000 = 0 /\ m / 1000 <= u64_max) \/
             (m mod 1000000 = 0 /\ m / 1000000 <= u64_max))) as (m & -> & Hm & Hfit).
  { destruct Hd as [->|[->| ->]].
    - exists (n * 1000000). rewrite Z.mod_mul, Z.div_mul by lia. lia.
    - exists (n * 1000). rewrite Z.mod_mul, Z.div_mul by lia. lia.
    - exists n. lia. }
  rewrite Z.div_mul by lia.
  pose proof (Z.div_mod m 1000000 ltac:(lia)). pose proof (Z.div_mod m 1000 ltac:(lia)).
  pose proof (Z.mod_pos_bound m 1000000 ltac:(lia)). pose proof (Z.mod_pos_bound m 1000 ltac:(lia)).
  assert (m mod 1000000 = 0 -> m mod 1000 = 0).
  { intros E. rewrite E in *. replace m with (m / 1000000 * 1000 * 1000) by lia. by rewrite Z.mod_mul. }
  destruct (m mod 1000000 =? 0) eqn:E1; bool_facts.
  { rewrite parse_secs by lia. unfold from_secs, NANOS_PER_SEC. f_equal. lia. }
  destruct (m mod 1000 =? 0) eqn:E2; bool_facts.
  { rewrite parse_millis by lia. unfold from_millis, NANOS_PER_MILLI. f_equal. lia. }
  rewrite parse_micros by lia. done.
Qed.

Lemma duration_roundtrip_witness :
  parse_duration (lit " 1500 ms ") = Ok (from_millis 1500) /\
  parse_duration (serialize_duration (from_millis 1500)) = Ok (from_millis 1500).
Proof.
  split; [vm_compute; reflexivity|].
  apply (duration_roundtrip (lit " 1500 ms ")). vm_compute. reflexivity.
Defined.
