(* ===== verification/Routing.v ===== *)
(** * Routing: [gfe/proxy/src/routing]

    Host and path matching ([matcher.rs]) and the table compiled from the
    dynamic config ([table.rs]). The table keeps the routes of a listener in
    three places (exact hosts, wildcard hosts, any host) sorted by how
    specific they are, and looks them up in that order; [best_route] says
    directly which route of the config a request belongs to, and
    [match_request_best] shows that the table finds it. *)

From S2P Require Import Prelude Str Net Config.
From Stdlib Require Import Ascii.

(** ** Matching *)

(** One label before a suffix that keeps its leading dot. *)
Definition single_label_before (suffix host : str) : bool :=
  match strip_suffix suffix host with
  | Some label => negb (bool_decide (label = [])) && negb (contains_char "."%char label)
  | None => false
  end.

Definition host_matches (pattern host : str) : bool :=
  if str_eqb pattern (lit "*") then true else
  match strip_prefix (lit "*") pattern with
  | Some suffix =>
      if starts_with (lit ".") suffix then single_label_before suffix host
      else eq_ignore_ascii_case pattern host
  | None => eq_ignore_ascii_case pattern host
  end.

Definition path_prefix_matches (prefix path : str) : bool :=
  if str_eqb prefix (lit "/") || bool_decide (prefix = []) then true else
  match strip_prefix prefix path with
  | Some rest =>
      bool_decide (rest = []) || starts_with (lit "/") rest || ends_with (lit "/") prefix
  | None => false
  end.

(** ** The compiled table *)

Record CompiledRoute := mkCompiledRoute {
  cr_id : str;
  cr_host : str;
  cr_path_prefix : str;
  cr_action : RouteAction;
}.

Notation HostRoutes := (list CompiledRoute).

Definition match_path (routes : HostRoutes) (path : str) : option CompiledRoute :=
  find_first (fun r => path_prefix_matches (cr_path_prefix r) path) routes.

Record ListenerRoutes := mkListenerRoutes {
  exact_hosts : gmap str HostRoutes;
  wildcard_hosts : list (str * HostRoutes);
  any_host : HostRoutes;
}.

Definition listener_routes_default : ListenerRoutes := mkListenerRoutes ∅ [] [].

(** The wildcards in order, each with what its routes have for the path. *)
Fixpoint match_wildcards (wildcards : list (str * HostRoutes)) (host path : str) :
    option CompiledRoute :=
  match wildcards with
  | [] => None
  | (pattern, routes) :: wildcards =>
      if host_matches pattern host
      then match match_path routes path with
           | Some r => Some r
           | None => match_wildcards wildcards host path
           end
      else match_wildcards wildcards host path
  end.

Definition match_listener (lr : ListenerRoutes) (host path : str) : option CompiledRoute :=
  let host_lc := if existsb is_ascii_uppercase host then to_ascii_lowercase host else host in
  match (exact_hosts lr !! host_lc ≫= fun routes => match_path routes path) with
  | Some r => Some r
  | None =>
      match match_wildcards (wildcard_hosts lr) host_lc path with
      | Some r => Some r
      | None => match_path (any_host lr) path
      end
  end.

Record RouteTable := mkRouteTable {
  rt_listeners : gmap str ListenerRoutes;
  rt_route_count : nat;
}.

Definition compile_route (route : Route) : CompiledRoute :=
  mkCompiledRoute (r_id route) (trim (r_host route)) (r_path_prefix route) (r_action route).

(** Add a route to the wildcard with this pattern, or a wildcard. *)
Fixpoint push_wildcard (key : str) (r : CompiledRoute) (wildcards : list (str * HostRoutes)) :
    list (str * HostRoutes) :=
  match wildcards with
  | [] => [(key, [r])]
  | (p, routes) :: wildcards =>
      if str_eqb p key then (p, routes ++ [r]) :: wildcards
      else (p, routes) :: push_wildcard key r wildcards
  end.

Definition insert_route (lr : ListenerRoutes) (route : Route) : ListenerRoutes :=
  let host := trim (r_host route) in
  let compiled := compile_route route in
  if str_eqb host (lit "*")
  then mkListenerRoutes (exact_hosts lr) (wildcard_hosts lr) (any_host lr ++ [compiled])
  else if starts_with (lit "*.") host
  then mkListenerRoutes (exact_hosts lr)
         (push_wildcard (to_ascii_lowercase host) compiled (wildcard_hosts lr)) (any_host lr)
  else
    let key := to_ascii_lowercase host in
    mkListenerRoutes (<[key := default [] (exact_hosts lr !! key) ++ [compiled]]> (exact_hosts lr))
      (wildcard_hosts lr) (any_host lr).

(** [Reverse(len)]: the longest first, in the order given among equals. *)
Definition sort_routes (routes : HostRoutes) : HostRoutes :=
  sort_by (by_key (fun r => - Z.of_nat (length (cr_path_prefix r)))) routes.

Definition sort_listener (lr : ListenerRoutes) : ListenerRoutes :=
  mkListenerRoutes (sort_routes <$> exact_hosts lr)
    (sort_by (by_key (fun entry => - Z.of_nat (length entry.1)))
       ((fun entry => (entry.1, sort_routes entry.2)) <$> wildcard_hosts lr))
    (sort_routes (any_host lr)).

Definition insert_into (listeners : gmap str ListenerRoutes) (route : Route) :
    gmap str ListenerRoutes :=
  let lr := default listener_routes_default (listeners !! r_listener route) in
  <[r_listener route := insert_route lr route]> listeners.

Definition compile (config : DynamicConfig) : RouteTable :=
  mkRouteTable (sort_listener <$> foldl insert_into ∅ (routes config)) (length (routes config)).

Definition match_request (t : RouteTable) (listener host path : str) : option CompiledRoute :=
  rt_listeners t !! listener ≫= fun lr => match_listener lr host path.

(** ** What the matchers accept *)

(** A path is under a prefix: at a boundary of its segments. *)
Definition under_prefix (prefix path : str) : Prop :=
  path = prefix \/
  exists rest, path = prefix ++ rest /\
    (starts_with (lit "/") rest = true \/ ends_with (lit "/") prefix = true).

(** A wildcard covers a host: one label in the place of its star. *)
Definition wildcard_covers (pattern host : str) : Prop :=
  exists domain label, pattern = lit "*." ++ domain /\ host = label ++ lit "." ++ domain /\
    label <> [] /\ "."%char ∉ label.

Lemma single_label_before_iff suffix host :
  single_label_before suffix host = true <->
  exists label, host = label ++ suffix /\ label <> [] /\ "."%char ∉ label.
Proof.
  unfold single_label_before. destruct (strip_suffix suffix host) as [label|] eqn:E.
  - apply strip_suffix_Some in E as ->. rewrite andb_true_iff, !negb_true_iff, bool_decide_eq_false.
    rewrite <-not_true_iff_false, contains_char_iff. split; [eauto|].
    intros (l & Hl & H). by apply app_inv_tail in Hl as <-.
  - split; [done|]. intros (label & -> & _).
    by rewrite (proj2 (strip_suffix_Some suffix _ label) eq_refl) in E.
Qed.

Lemma host_matches_iff pattern host :
  host_matches pattern host = true <->
  pattern = lit "*" \/ wildcard_covers pattern host \/
  (pattern <> lit "*" /\ starts_with (lit "*.") pattern = false /\
   to_ascii_lowercase pattern = to_ascii_lowercase host).
Proof.
  unfold host_matches. destruct (str_eqb pattern (lit "*")) eqn:Es.
  { apply str_eqb_eq in Es. naive_solver. }
  assert (Hne : pattern <> lit "*") by (intros ->; by rewrite str_eqb_refl in Es).
  destruct (starts_with (lit "*.") pattern) eqn:Ew.
  - apply starts_with_iff in Ew as [domain ->].
    assert (strip_prefix (lit "*") (lit "*." ++ domain) = Some (lit "." ++ domain)) as ->
      by (by apply strip_prefix_Some).
    assert (starts_with (lit ".") (lit "." ++ domain) = true) as -> by (apply starts_with_iff; eauto).
    rewrite single_label_before_iff. unfold wildcard_covers. split.
    + intros (label & -> & H). right. left. eauto.
    + intros [E|[(d & label & E & -> & H)|(_ & H & _)]]; [done| |done].
      apply app_inv_head in E as <-. eauto.
  - assert (Hno : ~ wildcard_covers pattern host).
    { intros (domain & label & -> & _). apply not_true_iff_false in Ew. apply Ew.
      apply starts_with_iff. eauto. }
    assert (match strip_prefix (lit "*") pattern with
            | Some suffix => if starts_with (lit ".") suffix then single_label_before suffix host
                             else eq_ignore_ascii_case pattern host
            | None => eq_ignore_ascii_case pattern host
            end = eq_ignore_ascii_case pattern host) as ->.
    { destruct (strip_prefix (lit "*") pattern) as [suffix|] eqn:Ep; [|done].
      destruct (starts_with (lit ".") suffix) eqn:Ed; [|done]. exfalso.
      apply starts_with_iff in Ed as [rest ->]. apply strip_prefix_Some in Ep as ->.
      apply not_true_iff_false in Ew. apply Ew. apply starts_with_iff. by exists rest. }
    rewrite eq_ignore_ascii_case_iff. naive_solver.
Qed.

Lemma path_prefix_matches_iff prefix path :
  path_prefix_matches prefix path = true <->
  prefix = lit "/" \/ prefix = [] \/ under_prefix prefix path.
Proof.
  unfold path_prefix_matches, under_prefix.
  destruct (str_eqb prefix (lit "/") || bool_decide (prefix = [])) eqn:E.
  { apply orb_true_iff in E as [E|E]; [apply str_eqb_eq in E|bool_facts]; naive_solver. }
  bool_facts. assert (prefix <> lit "/") by (intros ->; by rewrite str_eqb_refl in H).
  destruct (strip_prefix prefix path) as [rest|] eqn:Ep.
  - apply strip_prefix_Some in Ep as ->. rewrite !orb_true_iff, bool_decide_eq_true. split.
    + intros [[->|Hs]|He]; [rewrite app_nil_r; auto|eauto 8|eauto 8].
    + intros [->|[->|[Hp|(r & Hr & Hor)]]]; try done.
      * left. left. apply (app_inv_head prefix). by rewrite app_nil_r.
      * apply app_inv_head in Hr as <-. naive_solver.
  - split; [done|]. intros [->|[->|[->|(r & -> & _)]]]; try done.
    + by rewrite (proj2 (strip_prefix_Some prefix prefix []) ltac:(by rewrite app_nil_r)) in Ep.
    + by rewrite (proj2 (strip_prefix_Some prefix _ r) eq_refl) in Ep.
Qed.

(** What the matchers accept. A host pattern is [*], a wildcard whose
    star stands for exactly one label, or the host itself in any case; a
    path prefix ends at a boundary of the path's segments, so that [/api]
    covers [/api] and [/api/v1] but not [/apis]. *)
Theorem matchers_exact pattern host prefix path :
  (host_matches pattern host = true <->
   pattern = lit "*" \/ wildcard_covers pattern host \/
   (pattern <> lit "*" /\ starts_with (lit "*.") pattern = false /\
    to_ascii_lowercase pattern = to_ascii_lowercase host)) /\
  (path_prefix_matches prefix path = true <->
   prefix = lit "/" \/ prefix = [] \/ under_prefix prefix path).
Proof. split; [apply host_matches_iff|apply path_prefix_matches_iff]. Qed.

(** ** Which route a request belongs to *)

(** How specifically a route's host covers a (lowercase) host: 0 by naming
    it, 1 by a wildcard, 2 by covering every host; [None] not at all. *)
Definition host_class (host : str) (r : Route) : option Z :=
  let pattern := trim (r_host r) in
  if str_eqb pattern (lit "*") then Some 2
  else if starts_with (lit "*.") pattern
  then if host_matches (to_ascii_lowercase pattern) host then Some 1 else None
  else if str_eqb (to_ascii_lowercase pattern) host then Some 0 else None.

Definition route_matches (host path : str) (r : Route) : bool :=
  negb (is_none (host_class host r)) && path_prefix_matches (r_path_prefix r) path.

Definition route_le (host : str) (a b : Route) : bool :=
  let ca := default 3 (host_class host a) in
  let cb := default 3 (host_class host b) in
  (ca <? cb) || ((ca =? cb) &&
    (Z.of_nat (length (r_path_prefix b)) <=? Z.of_nat (length (r_path_prefix a)))).

(** Of the routes that match: an exact host before a wildcard before any
    host, then the longest path prefix, then the first in the config. *)
Definition best_route (rs : list Route) (host path : str) : option Route :=
  let host := to_ascii_lowercase host in
  min_by (route_le host) (keep (route_matches host path) rs).

(** ** The table finds the best route *)

Lemma lowercase_cow host :
  (if existsb is_ascii_uppercase host then to_ascii_lowercase host else host) =
  to_ascii_lowercase host.
Proof.
  destruct (existsb is_ascii_uppercase host) eqn:E; [done|].
  induction host as [|c s IH]; [done|]. simpl in E. bool_facts.
  unfold to_ascii_lowercase in *. csimpl. unfold lower at 1. rewrite H. f_equal. by apply IH.
Qed.

(** What follows the first dot is the same however it is found. *)
Lemma first_dot (a b s t : str) :
  "."%char ∉ a -> "."%char ∉ b -> a ++ "."%char :: s = b ++ "."%char :: t -> s = t.
Proof.
  revert b. induction a as [|c a IH]; intros [|d b] Ha Hb E; simpl in E.
  - by injection E.
  - injection E as <- _. set_solver.
  - injection E as -> _. set_solver.
  - injection E as _ E. apply (IH b); set_solver.
Qed.

Definition is_wildcard (pattern : str) : Prop := starts_with (lit "*.") pattern = true.

Lemma wildcard_shape pattern :
  is_wildcard pattern -> exists s, pattern = "*"%char :: "."%char :: s.
Proof. intros [s Hs]%starts_with_iff. by exists s. Qed.

Lemma wildcard_matches s host :
  host_matches ("*"%char :: "."%char :: s) host = true ->
  exists label, host = label ++ "."%char :: s /\ "."%char ∉ label.
Proof.
  unfold host_matches. rewrite str_eqb_neq by done.
  change (single_label_before ("."%char :: s) host = true ->
    exists label, host = label ++ "."%char :: s /\ "."%char ∉ label).
  unfold single_label_before. destruct (strip_suffix _ host) as [label|] eqn:E; [|done].
  apply strip_suffix_Some in E as ->. intros H. bool_facts. exists label. split; [done|].
  by rewrite <-contains_char_iff, not_true_iff_false.
Qed.

(** At most one wildcard covers a host. *)
Lemma wildcard_unique p q host :
  is_wildcard p -> is_wildcard q -> host_matches p host = true -> host_matches q host = true -> p = q.
Proof.
  intros [s ->]%wildcard_shape [t ->]%wildcard_shape.
  intros (a & -> & Ha)%wildcard_matches (b & E & Hb)%wildcard_matches.
  do 2 f_equal. by apply (first_dot a b).
Qed.

(** How a route is filed. *)
Definition files_any (r : Route) : bool := str_eqb (trim (r_host r)) (lit "*").
Definition files_wildcard (key : str) (r : Route) : bool :=
  negb (files_any r) && starts_with (lit "*.") (trim (r_host r)) &&
  str_eqb (to_ascii_lowercase (trim (r_host r))) key.
Definition files_exact (key : str) (r : Route) : bool :=
  negb (files_any r) && negb (starts_with (lit "*.") (trim (r_host r))) &&
  str_eqb (to_ascii_lowercase (trim (r_host r))) key.

(** The listener's routes hold those of [rs], in order, each in its place. *)
Record holds (rs : list Route) (lr : ListenerRoutes) : Prop := {
  h_any : any_host lr = compile_route <$> keep files_any rs;
  h_exact : forall key, default [] (exact_hosts lr !! key) = compile_route <$> keep (files_exact key) rs;
  h_wild_keys : NoDup (wildcard_hosts lr).*1;
  h_wild : forall key l, (key, l) ∈ wildcard_hosts lr ->
    is_wildcard key /\ l = compile_route <$> keep (files_wildcard key) rs;
  h_wild_all : forall key r, r ∈ keep (files_wildcard key) rs -> key ∈ (wildcard_hosts lr).*1;
}.

Lemma lower_wildcard host : is_wildcard host -> is_wildcard (to_ascii_lowercase host).
Proof. intros [s ->]%wildcard_shape. by apply starts_with_iff; exists (to_ascii_lowercase s). Qed.

Lemma push_wildcard_keys key c w :
  (push_wildcard key c w).*1 = if bool_decide (key ∈ w.*1) then w.*1 else w.*1 ++ [key].
Proof.
  induction w as [|[p l] w IH]; csimpl; [done|].
  destruct (str_eqb p key) eqn:E.
  - apply str_eqb_eq in E as ->. by rewrite bool_decide_eq_true_2 by constructor.
  - csimpl. rewrite IH. assert (p <> key) by (intros ->; by rewrite str_eqb_refl in E).
    repeat case_bool_decide; set_solver.
Qed.

Lemma push_wildcard_elem key c w p l :
  NoDup w.*1 -> (p, l) ∈ push_wildcard key c w ->
  (p <> key /\ (p, l) ∈ w) \/
  (p = key /\ ((exists l', (key, l') ∈ w /\ l = l' ++ [c]) \/ (key ∉ w.*1 /\ l = [c]))).
Proof.
  induction w as [|[q k] w IH]; csimpl; intros Hnd Hin.
  - apply list_elem_of_singleton in Hin as [= -> ->]. right. set_solver.
  - apply NoDup_cons in Hnd as [Hq Hnd]. destruct (str_eqb q key) eqn:E.
    + apply str_eqb_eq in E as ->. apply elem_of_cons in Hin as [[= -> ->]|Hin].
      * right. split; [done|]. left. exists k. split; [constructor|done].
      * left. split; [|by constructor]. intros ->. destruct Hq.
        apply list_elem_of_fmap. by exists (key, l).
    + assert (q <> key) by (intros ->; by rewrite str_eqb_refl in E).
      apply elem_of_cons in Hin as [[= -> ->]|Hin]; [left; split; [done|constructor]|].
      destruct (IH Hnd Hin) as [[? ?]|[-> [(l' & ? & ->)|[? ->]]]]; set_solver.
Qed.

Lemma keep_snoc {A} (f : A -> bool) l x :
  keep f (l ++ [x]) = keep f l ++ (if f x then [x] else []).
Proof. rewrite keep_app. simpl. by destruct (f x). Qed.

Lemma insert_any rs lr r :
  holds rs lr -> files_any r = true ->
  holds (rs ++ [r]) (mkListenerRoutes (exact_hosts lr) (wildcard_hosts lr)
                       (any_host lr ++ [compile_route r])).
Proof.
  intros H Hf. constructor; simpl; intros; rewrite ?keep_snoc in *;
    unfold files_wildcard, files_exact in *; rewrite ?Hf in *; simpl in *;
    rewrite ?app_nil_r in *; try (by eapply H).
  by rewrite fmap_app, (h_any _ _ H).
Qed.

Lemma insert_exact rs lr r key :
  holds rs lr -> files_any r = false -> (forall k, files_wildcard k r = false) ->
  (forall k, files_exact k r = str_eqb key k) ->
  holds (rs ++ [r])
    (mkListenerRoutes
       (<[key := default [] (exact_hosts lr !! key) ++ [compile_route r]]> (exact_hosts lr))
       (wildcard_hosts lr) (any_host lr)).
Proof.
  intros H Hf Hw He. constructor; simpl; intros; rewrite ?keep_snoc, ?Hf, ?He, ?Hw, ?app_nil_r in *;
    try (by eapply H).
  destruct (str_eqb key key0) eqn:Ek.
  - apply str_eqb_eq in Ek as <-. rewrite lookup_insert_eq. simpl.
    by rewrite (h_exact _ _ H), fmap_app.
  - rewrite lookup_insert_ne, app_nil_r by (intros <-; by rewrite str_eqb_refl in Ek). apply H.
Qed.

Lemma insert_wildcard rs lr r key :
  holds rs lr -> is_wildcard key -> files_any r = false -> (forall k, files_exact k r = false) ->
  (forall k, files_wildcard k r = str_eqb key k) ->
  holds (rs ++ [r])
    (mkListenerRoutes (exact_hosts lr) (push_wildcard key (compile_route r) (wildcard_hosts lr))
       (any_host lr)).
Proof.
  intros H Hk Hf He Hw. pose proof (h_wild_keys _ _ H) as Hnd.
  constructor; simpl; intros; rewrite ?keep_snoc, ?Hf, ?He, ?app_nil_r in *; try (by eapply H).
  - rewrite push_wildcard_keys. case_bool_decide; [done|]. apply NoDup_app.
    split; [done|]. split; [set_solver|]. apply NoDup_singleton.
  - rewrite Hw. apply push_wildcard_elem in H0 as [[Hne Hin]|[-> Hcase]]; [..|done].
    + destruct (h_wild _ _ H _ _ Hin) as [? ->]. split; [done|].
      by rewrite str_eqb_neq, app_nil_r by congruence.
    + split; [done|]. rewrite str_eqb_refl, fmap_app.
      destruct Hcase as [(l' & Hin & ->)|[Hnot ->]].
      * by destruct (h_wild _ _ H _ _ Hin) as [_ ->].
      * destruct (keep (files_wildcard key) rs) as [|x xs] eqn:K; [done|].
        destruct Hnot. apply (h_wild_all _ _ H key x). rewrite K. constructor.
  - rewrite push_wildcard_keys. rewrite Hw in H0. apply elem_of_app in H0 as [Hin|Hin].
    + apply (h_wild_all _ _ H) in Hin. case_bool_decide; set_solver.
    + destruct (str_eqb key key0) eqn:Ek; [|set_solver]. apply str_eqb_eq in Ek as <-.
      case_bool_decide; set_solver.
Qed.

Lemma insert_holds rs lr r : holds rs lr -> holds (rs ++ [r]) (insert_route lr r).
Proof.
  intros H. unfold insert_route.
  destruct (str_eqb (trim (r_host r)) (lit "*")) eqn:E1; [by apply insert_any|].
  assert (Hf : files_any r = false) by done.
  destruct (starts_with (lit "*.") (trim (r_host r))) eqn:E2.
  - apply insert_wildcard; [done|by apply lower_wildcard|done|..];
      intros k; unfold files_wildcard, files_exact; by rewrite Hf, E2.
  - apply insert_exact; [done|done|..]; intros k; unfold files_wildcard, files_exact;
      by rewrite Hf, E2.
Qed.

Lemma default_holds : holds [] listener_routes_default.
Proof. constructor; simpl; try done; try set_solver. constructor. Qed.

Lemma insert_all_holds rs : holds rs (foldl insert_route listener_routes_default rs).
Proof.
  induction rs as [|r rs IH] using rev_ind; [apply default_holds|].
  rewrite foldl_app. simpl. by apply insert_holds.
Qed.

(** The routes of one class, and the best of them for a path. *)
Definition in_class (host : str) (c : Z) (r : Route) : bool := bool_decide (host_class host r = Some c).

Definition prefix_le (a b : Route) : bool :=
  by_key (fun r => - Z.of_nat (length (r_path_prefix r))) a b.

Definition covers_path (path : str) (r : Route) : bool := path_prefix_matches (r_path_prefix r) path.

Definition best_in_class (rs : list Route) (host path : str) (c : Z) : option Route :=
  min_by prefix_le (keep (covers_path path) (keep (in_class host c) rs)).

Lemma match_path_sorted rs path :
  match_path (sort_routes (compile_route <$> rs)) path =
  compile_route <$> min_by prefix_le (keep (covers_path path) rs).
Proof.
  unfold match_path, sort_routes. rewrite find_first_keep, keep_sort_by by apply by_key_preorder.
  rewrite head_sort_by by apply by_key_preorder. rewrite keep_fmap.
  by apply (min_by_fmap compile_route prefix_le).
Qed.

Lemma class_any host r : files_any r = in_class host 2 r.
Proof.
  unfold in_class, host_class. change (str_eqb (trim (r_host r)) (lit "*")) with (files_any r).
  destruct (files_any r); [done|]. simpl.
  destruct (starts_with _ _); simpl; [by destruct (host_matches _ _)|by destruct (str_eqb _ _)].
Qed.

Lemma class_exact host r : files_exact host r = in_class host 0 r.
Proof.
  unfold files_exact, in_class, host_class.
  change (str_eqb (trim (r_host r)) (lit "*")) with (files_any r).
  destruct (files_any r); [done|]. simpl.
  destruct (starts_with _ _); simpl; [by destruct (host_matches _ _)|by destruct (str_eqb _ _)].
Qed.

Lemma class_wildcard host r key :
  is_wildcard key -> host_matches key host = true -> files_wildcard key r = in_class host 1 r.
Proof.
  intros Hk Hm. unfold files_wildcard, in_class, host_class.
  change (str_eqb (trim (r_host r)) (lit "*")) with (files_any r).
  destruct (files_any r); [done|].
  destruct (starts_with (lit "*.") (trim (r_host r))) eqn:E; simpl.
  - destruct (host_matches (to_ascii_lowercase (trim (r_host r))) host) eqn:Hr; simpl.
    + apply str_eqb_eq. by eapply wildcard_unique; [apply lower_wildcard| |..].
    + apply str_eqb_neq. congruence.
  - by destruct (str_eqb _ _).
Qed.

Lemma match_wildcards_one w host path :
  (length (keep (fun e => host_matches e.1 host) w) <= 1)%nat ->
  match_wildcards w host path =
  head (keep (fun e => host_matches e.1 host) w) ≫= fun e => match_path e.2 path.
Proof.
  induction w as [|[p l] w IH]; simpl; [done|]. destruct (host_matches p host); simpl; [|done].
  intros Hl. destruct (keep _ w) eqn:E; simpl in *; [|lia]. rewrite IH by lia. simpl.
  by destruct (match_path l path).
Qed.

(** The wildcard that covers a host, if there is one, has all the routes of
    that class. *)
Lemma wildcard_bucket rs lr host :
  holds rs lr ->
  keep (fun e => host_matches e.1 host) (wildcard_hosts lr) = [] /\ keep (in_class host 1) rs = [] \/
  exists key, keep (fun e => host_matches e.1 host) (wildcard_hosts lr) =
    [(key, compile_route <$> keep (in_class host 1) rs)].
Proof.
  intros H. destruct (keep _ (wildcard_hosts lr)) as [|[key l] rest] eqn:K.
  - left. split; [done|]. destruct (keep (in_class host 1) rs) as [|r k] eqn:C; [done|].
    assert (r ∈ rs /\ in_class host 1 r = true) as [Hr Hc]
      by (apply elem_of_keep; rewrite C; constructor).
    unfold in_class, host_class in Hc. apply bool_decide_eq_true in Hc. exfalso.
    destruct (str_eqb (trim (r_host r)) (lit "*")) eqn:E1; [done|].
    destruct (starts_with (lit "*.") (trim (r_host r))) eqn:E2; [|by case_match].
    destruct (host_matches _ host) eqn:E3; [|done].
    set (key := to_ascii_lowercase (trim (r_host r))) in *.
    assert (key ∈ (wildcard_hosts lr).*1) as ([k' l'] & -> & Hin)%list_elem_of_fmap.
    { apply (h_wild_all _ _ H key r). apply elem_of_keep. split; [done|].
      unfold files_wildcard, files_any. rewrite E1, E2. apply str_eqb_refl. }
    apply (not_elem_of_nil (k', l')). rewrite <-K. by apply elem_of_keep.
  - right. exists key.
    assert (Hall : forall e, e ∈ (key, l) :: rest -> e ∈ wildcard_hosts lr /\ host_matches e.1 host = true).
    { intros e He. rewrite <-K in He. by apply elem_of_keep in He. }
    destruct (Hall (key, l) ltac:(constructor)) as [Hin Hm].
    destruct (h_wild _ _ H _ _ Hin) as [Hw Hl]. simpl in Hm.
    rewrite (keep_ext _ (files_wildcard key)) by (intros; symmetry; by apply class_wildcard).
    rewrite <-Hl. f_equal. destruct rest as [|[q m] rest]; [done|]. exfalso.
    destruct (Hall (q, m) ltac:(repeat constructor)) as [Hin' Hm'].
    destruct (h_wild _ _ H _ _ Hin') as [Hw' _].
    pose proof (wildcard_unique _ _ _ Hw Hw' Hm Hm') as <-.
    pose proof (NoDup_fmap_keep fst (fun e => host_matches e.1 host) _ (h_wild_keys _ _ H)) as Hnd.
    rewrite K in Hnd. csimpl in Hnd. apply NoDup_cons in Hnd as [Hnd _]. set_solver.
Qed.

Definition or_else {A} (a b : option A) : option A := match a with Some x => Some x | None => b end.

Lemma match_listener_classes rs host path :
  match_listener (sort_listener (foldl insert_route listener_routes_default rs)) host path =
  let h := to_ascii_lowercase host in
  compile_route <$> or_else (best_in_class rs h path 0)
                      (or_else (best_in_class rs h path 1) (best_in_class rs h path 2)).
Proof.
  pose proof (insert_all_holds rs) as H. revert H.
  generalize (foldl insert_route listener_routes_default rs) as lr. intros lr H.
  unfold match_listener. rewrite lowercase_cow. cbv zeta. set (h := to_ascii_lowercase host).
  unfold sort_listener. cbn [exact_hosts wildcard_hosts any_host].
  assert ((sort_routes <$> exact_hosts lr) !! h ≫= (fun routes => match_path routes path) =
          compile_route <$> best_in_class rs h path 0) as ->.
  { unfold best_in_class. rewrite <-(keep_ext (files_exact h) (in_class h 0) rs) by (intros; apply class_exact).
    rewrite <-match_path_sorted, <-(h_exact _ _ H h), lookup_fmap.
    by destruct (exact_hosts lr !! h). }
  assert (match_wildcards (sort_by (by_key (fun entry : str * HostRoutes => - Z.of_nat (length entry.1)))
            ((fun entry => (entry.1, sort_routes entry.2)) <$> wildcard_hosts lr)) h path =
          compile_route <$> best_in_class rs h path 1) as ->.
  { assert (Hk : keep (fun e => host_matches e.1 h)
      (sort_by (by_key (fun entry : str * HostRoutes => - Z.of_nat (length entry.1)))
        ((fun entry => (entry.1, sort_routes entry.2)) <$> wildcard_hosts lr)) =
      (fun entry => (entry.1, sort_routes entry.2)) <$> keep (fun e => host_matches e.1 h) (wildcard_hosts lr)).
    { rewrite keep_sort_by by apply by_key_preorder. rewrite keep_fmap. cbn [fst].
      by destruct (wildcard_bucket rs lr h H) as [[-> _]|[key ->]]. }
    rewrite match_wildcards_one, Hk; unfold best_in_class.
    - destruct (wildcard_bucket rs lr h H) as [[-> ->]|[key ->]]; [done|].
      simpl. apply match_path_sorted.
    - rewrite Hk. by destruct (wildcard_bucket rs lr h H) as [[-> _]|[key ->]]; simpl; lia. }
  rewrite (h_any _ _ H), match_path_sorted, (keep_ext files_any (in_class h 2) rs) by (intros; apply class_any).
  fold (best_in_class rs h path 2).
  by destruct (best_in_class rs h path 0), (best_in_class rs h path 1).
Qed.

#[export] Instance route_le_preorder host : TotalPreorder (route_le host).
Proof. split; unfold route_le; intros; lia. Qed.

(** The class of a route that matches, and what comes before it. *)
Definition up_to_class (host : str) (c : Z) (r : Route) : bool := default 3 (host_class host r) <=? c.

Lemma host_class_range host r c : host_class host r = Some c -> c = 0 \/ c = 1 \/ c = 2.
Proof. unfold host_class. repeat case_match; naive_solver. Qed.

Lemma best_up_to_class (l : list Route) host c :
  keep (up_to_class host c) l <> [] ->
  min_by (route_le host) l = min_by (route_le host) (keep (up_to_class host c) l).
Proof.
  apply min_by_prefer; [apply _|]. unfold up_to_class, route_le. intros x y Hx Hy. lia.
Qed.

Lemma best_same_class (l : list Route) host c :
  (forall r, r ∈ l -> host_class host r = Some c) ->
  min_by (route_le host) l = min_by prefix_le l.
Proof.
  intros H. apply min_by_ext. intros x y Hx Hy. unfold route_le, prefix_le, by_key.
  rewrite (H x Hx), (H y Hy). simpl. lia.
Qed.

Lemma matching_in_class rs host path c :
  keep (in_class host c) (keep (route_matches host path) rs) =
  keep (covers_path path) (keep (in_class host c) rs).
Proof.
  rewrite <-!keep_andb. apply keep_ext. intros r _. unfold route_matches, covers_path, in_class.
  case_bool_decide as E; [rewrite E|]; simpl; by rewrite ?andb_true_r, ?andb_false_r.
Qed.

Lemma in_class_elem host c l r : r ∈ keep (in_class host c) l -> host_class host r = Some c.
Proof. intros [_ H]%elem_of_keep. by apply bool_decide_eq_true in H. Qed.

(** The best of routes none of which is below class [c]: the best of the
    class, or else the best of the others. *)
Lemma peel_class l host c :
  (forall r, r ∈ l -> exists c', host_class host r = Some c' /\ c <= c') ->
  min_by (route_le host) l =
  or_else (min_by prefix_le (keep (in_class host c) l))
    (min_by (route_le host) (keep (fun r => negb (in_class host c r)) l)).
Proof.
  intros Hl.
  assert (Hup : keep (up_to_class host c) l = keep (in_class host c) l).
  { apply keep_ext. intros r Hr. destruct (Hl r Hr) as (c' & E & Hc).
    unfold up_to_class, in_class. rewrite E. simpl. case_bool_decide as D.
    - injection D as ->. lia.
    - assert (c' <> c) by congruence. lia. }
  destruct (keep (in_class host c) l) as [|x xs] eqn:K; simpl.
  - rewrite keep_all; [done|]. intros r Hr. destruct (in_class host c r) eqn:E; [|done].
    destruct (not_elem_of_nil r). rewrite <-K. by apply elem_of_keep.
  - rewrite (best_up_to_class l host c), Hup by (rewrite Hup; done).
    by rewrite (best_same_class _ host c)
      by (intros r Hr; rewrite <-K in Hr; by eapply in_class_elem).
Qed.

Lemma in_class_not host c d l :
  c <> d -> keep (in_class host d) (keep (fun r => negb (in_class host c r)) l) =
            keep (in_class host d) l.
Proof.
  intros Hne. rewrite <-keep_andb. apply keep_ext. intros r _. unfold in_class.
  repeat case_bool_decide; simpl; congruence.
Qed.

Lemma best_route_classes rs host path :
  let h := to_ascii_lowercase host in
  best_route rs host path =
  or_else (best_in_class rs h path 0)
    (or_else (best_in_class rs h path 1) (best_in_class rs h path 2)).
Proof.
  intros h. unfold best_route, best_in_class. fold h. rewrite <-!matching_in_class.
  set (l := keep (route_matches h path) rs).
  assert (Hl : forall r, r ∈ l -> exists c, host_class h r = Some c /\ (c = 0 \/ c = 1 \/ c = 2)).
  { intros r [_ Hm]%elem_of_keep. unfold route_matches in Hm. bool_facts.
    destruct (host_class h r) as [c|] eqn:E; [|done]. eauto using host_class_range. }
  clearbody l.
  assert (Hnot : forall c (k : list Route) r, r ∈ keep (fun r => negb (in_class h c r)) k ->
            r ∈ k /\ host_class h r <> Some c).
  { intros c k r [Hr Hn]%elem_of_keep. split; [done|]. intros E. unfold in_class in Hn.
    by rewrite bool_decide_eq_true_2 in Hn. }
  rewrite (peel_class l h 0), (peel_class _ h 1), (peel_class _ h 2), !in_class_not by first
    [done | intros r Hr; repeat apply Hnot in Hr as [Hr ?];
            destruct (Hl r Hr) as (c & E & Hc); exists c; split; [done|];
            destruct Hc as [->|[->| ->]]; first [lia | congruence]].
  do 2 f_equal.
  destruct (min_by prefix_le (keep (in_class h 2) l)); [done|]. simpl.
  destruct (keep _ (keep _ (keep _ l))) as [|x xs] eqn:K; [done|]. exfalso.
  assert (Hx : x ∈ x :: xs) by constructor. rewrite <-K in Hx.
  apply Hnot in Hx as [Hx ?]. apply Hnot in Hx as [Hx ?]. apply Hnot in Hx as [Hx ?].
  destruct (Hl x Hx) as (c & E & [->|[->| ->]]); congruence.
Qed.

Lemma compile_lookup rs listener :
  foldl insert_into ∅ rs !! listener =
  match keep (fun r => str_eqb (r_listener r) listener) rs with
  | [] => None
  | l => Some (foldl insert_route listener_routes_default l)
  end.
Proof.
  induction rs as [|r rs IH] using rev_ind; [done|].
  rewrite foldl_app, keep_snoc. simpl. unfold insert_into at 1.
  destruct (str_eqb (r_listener r) listener) eqn:E.
  - apply str_eqb_eq in E as ->. rewrite lookup_insert_eq, IH.
    destruct (keep _ rs) as [|x xs] eqn:K; [done|]. simpl. f_equal.
    change (x :: xs ++ [r]) with ((x :: xs) ++ [r]). by rewrite foldl_app.
  - rewrite lookup_insert_ne, app_nil_r by (intros <-; by rewrite str_eqb_refl in E). done.
Qed.

Lemma compiled_finds_best config listener host path :
  match_request (compile config) listener host path =
  compile_route <$>
    best_route (keep (fun r => str_eqb (r_listener r) listener) (routes config)) host path.
Proof.
  unfold match_request, compile. simpl. rewrite lookup_fmap, compile_lookup.
  destruct (keep _ (routes config)) as [|r rs] eqn:E; [done|]. simpl option_fmap.
  rewrite best_route_classes. apply match_listener_classes.
Qed.

(** C1: the compiled table is equivalent to the routing rules. A request on a
    listener is sent where the best of the config's routes for it says (an
    exact host before a wildcard before any host, then the longest path
    prefix, then the first in the file), and nowhere when none matches. *)
Theorem match_request_best config listener host path :
  match_request (compile config) listener host path =
  compile_route <$>
    best_route (keep (fun r => str_eqb (r_listener r) listener) (routes config)) host path.
Proof. apply compiled_finds_best. Qed.
