(* ===== verification/Tls.v ===== *)
(** * TLS termination: [lib/tls]

    Loading a certificate and its key ([loader.rs]), the map from SNI names
    to certificates ([cert_store.rs]), the resolver that counts misses
    ([resolver.rs]), the detection of files rotated on disk
    ([cert_files.rs]) and the labels of failed handshakes ([acceptor.rs]).

    PEM, X.509 and key handling are rustls's and x509-parser's: they are
    arguments of the loader. An [Arc<CertifiedKey>] is the number of the
    entry it was loaded for: two are the same pointer exactly when they are
    the same entry's. *)

From S2P Require Import Prelude Str Net Config.
From Stdlib Require Import Ascii.

(** ** Loading *)

Record CertSpec := mkCertSpec {
  cs_sni : list str;
  cs_default : bool;
  cs_cert_file : str;
  cs_key_file : str;
}.

Inductive PemError := ParsingCertificates | NoCertificate | ParsingX509 | NoPrivateKey |
  ParsingPrivateKey | UnsupportedKeyType | KeyMismatch.

Inductive TlsError (IoError : Type) :=
| TlsRead (path : str) (error : IoError)
| InvalidFiles (cert_file key_file : str) (reason : PemError)
| EntryError (names : list str) (error : TlsError IoError)
| TwoDefaults (first second : str).
Arguments TlsRead {_} _ _.
Arguments InvalidFiles {_} _ _ _.
Arguments EntryError {_} _ _.
Arguments TwoDefaults {_} _ _.

(** What rustls says of a chain and a key ([CertifiedKey::keys_match]). *)
Inductive KeysMatch := KeysAgree | KeysUnknown | KeysInconsistent.

Section Loading.
Context {IoError Bytes Der Key_ Signer : Type}.
Context (read : str -> result Bytes IoError).
(** rustls-pemfile: the certificates of a PEM file, its first key. *)
Context (pem_certs : Bytes -> option (list Der)) (pem_key : Bytes -> option (option Key_)).
(** x509-parser: a certificate's not-after time. *)
Context (not_after : Der -> option Z).
(** rustls: the signer of a key, and whether it matches a chain. *)
Context (any_supported_type : Key_ -> option Signer).
Context (keys_match : list Der -> Signer -> KeysMatch).

Record LoadedCert := mkLoadedCert {
  lc_chain : list Der;
  lc_signer : Signer;
  not_after_unix : Z;
}.

Definition read_certs (pem : Bytes) : result (list Der) PemError :=
  match pem_certs pem with Some certs => Ok certs | None => Err ParsingCertificates end.

Definition read_key (pem : Bytes) : result Key_ PemError :=
  match pem_key pem with
  | Some (Some key) => Ok key
  | Some None => Err NoPrivateKey
  | None => Err ParsingPrivateKey
  end.

Definition leaf_not_after (cert : Der) : result Z PemError :=
  match not_after cert with Some t => Ok t | None => Err ParsingX509 end.

Definition load_cert_pem (cert_pem key_pem : Bytes) : result LoadedCert PemError :=
  let? certs := read_certs cert_pem in
  match certs with
  | [] => Err NoCertificate
  | leaf :: _ =>
      let? not_after_unix := leaf_not_after leaf in
      let? key := read_key key_pem in
      match any_supported_type key with
      | None => Err UnsupportedKeyType
      | Some signing_key =>
          match keys_match certs signing_key with
          | KeysAgree | KeysUnknown => Ok (mkLoadedCert certs signing_key not_after_unix)
          | KeysInconsistent => Err KeyMismatch
          end
      end
  end.

Definition load_cert_files (cert_path key_path : str) : result LoadedCert (TlsError IoError) :=
  let? cert_pem := map_err (TlsRead cert_path) (read cert_path) in
  let? key_pem := map_err (TlsRead key_path) (read key_path) in
  map_err (InvalidFiles cert_path key_path) (load_cert_pem cert_pem key_pem).

(** A certificate is loaded only with a leaf that could be parsed and a key
    that does not contradict it. *)
Lemma load_cert_pem_sound cert_pem key_pem l :
  load_cert_pem cert_pem key_pem = Ok l ->
  exists leaf rest, pem_certs cert_pem = Some (lc_chain l) /\ lc_chain l = leaf :: rest /\
    not_after leaf = Some (not_after_unix l) /\
    keys_match (lc_chain l) (lc_signer l) <> KeysInconsistent.
Proof.
  unfold load_cert_pem, read_certs, leaf_not_after, read_key. intros H.
  repeat case_match; simplify_eq; eexists _, _; simpl;
    (split; [|split; [reflexivity|split]]); congruence.
Qed.
End Loading.

(** ** The certificate store *)

(** The certificate of the entry of this number. *)
Notation CertRef := nat.

Record CertStore := mkCertStore {
  cst_exact : gmap str CertRef;
  cst_wildcard : list (str * CertRef);
  cst_default : option CertRef;
  cst_expiries : list (str * Z);
}.

Definition cert_store_empty : CertStore := mkCertStore ∅ [] None [].

Definition DEFAULT_NAME : str := lit "<default>".

Definition entry_names (entry : CertSpec) : list str :=
  if bool_decide (cs_sni entry = []) then [DEFAULT_NAME] else cs_sni entry.

Definition wildcard_suffix_matches (suffix host : str) : bool :=
  match strip_suffix suffix host with
  | Some label => negb (bool_decide (label = [])) && negb (contains_char "."%char label)
  | None => false
  end.

Definition add_name (key : CertRef) (not_after : Z) (store : CertStore) (sni : str) : CertStore :=
  let name := to_ascii_lowercase sni in
  let expiries := cst_expiries store ++ [(name, not_after)] in
  match strip_prefix (lit "*") name with
  | Some suffix =>
      mkCertStore (cst_exact store) (cst_wildcard store ++ [(suffix, key)]) (cst_default store) expiries
  | None =>
      mkCertStore (<[name := key]> (cst_exact store)) (cst_wildcard store) (cst_default store) expiries
  end.

Definition set_default (key : CertRef) (not_after : Z) (store : CertStore) : CertStore :=
  mkCertStore (cst_exact store) (cst_wildcard store) (Some key)
    (cst_expiries store ++ [(DEFAULT_NAME, not_after)]).

Definition sort_wildcards (store : CertStore) : CertStore :=
  mkCertStore (cst_exact store)
    (sort_by (by_key (fun entry => - Z.of_nat (length entry.1))) (cst_wildcard store))
    (cst_default store) (cst_expiries store).

Section Store.
Context {IoError : Type}.
(** What loading an entry's files gives: its not-after time, or the error. *)
Context (load : str -> str -> result Z (TlsError IoError)).

Fixpoint cert_store_add (entries : list CertSpec) (key : CertRef) (default_file : option str)
    (store : CertStore) : result CertStore (TlsError IoError) :=
  match entries with
  | [] => Ok store
  | entry :: entries =>
      let? not_after :=
        map_err (EntryError (entry_names entry)) (load (cs_cert_file entry) (cs_key_file entry)) in
      match cs_default entry, default_file with
      | true, Some first => Err (TwoDefaults first (cs_cert_file entry))
      | is_default, _ =>
          let store := if is_default then set_default key not_after store else store in
          let default_file := if is_default then Some (cs_cert_file entry) else default_file in
          cert_store_add entries (S key) default_file
            (foldl (add_name key not_after) store (cs_sni entry))
      end
  end.

Definition cert_store_build (entries : list CertSpec) : result CertStore (TlsError IoError) :=
  let? store := cert_store_add entries 0 None cert_store_empty in
  Ok (sort_wildcards store).
End Store.

Definition cert_store_resolve (store : CertStore) (sni : option str) : option CertRef :=
  match sni with
  | Some name =>
      let name := to_ascii_lowercase name in
      match cst_exact store !! name with
      | Some k => Some k
      | None =>
          match find_first (fun entry => wildcard_suffix_matches entry.1 name) (cst_wildcard store) with
          | Some (_, k) => Some k
          | None => cst_default store
          end
      end
  | None => cst_default store
  end.

Definition same_certificate (store : CertStore) (a b : str) : bool :=
  match cert_store_resolve store (Some a), cert_store_resolve store (Some b) with
  | Some a, Some b => Nat.eqb a b
  | _, _ => false
  end.

Definition cert_store_len (store : CertStore) : nat :=
  (size (cst_exact store) + length (cst_wildcard store) +
   (if is_none (cst_default store) then 0 else 1))%nat.

(** ** The resolver *)

Record SniResolver := mkSniResolver { sr_store : CertStore; sr_misses : Z }.

Definition sni_resolver_new (store : CertStore) : SniResolver := mkSniResolver store 0.

Definition sni_resolver_swap (store : CertStore) (r : SniResolver) : SniResolver :=
  mkSniResolver store (sr_misses r).

Definition resolve_sni (sni : option str) (r : SniResolver) : SniResolver * option CertRef :=
  let resolved := cert_store_resolve (sr_store r) sni in
  (mkSniResolver (sr_store r)
     (if is_none resolved then wrap64 (sr_misses r + 1) else sr_misses r), resolved).

(** ** Files rotated on disk *)

Record FileStamp := mkFileStamp {
  fs_inode : Z;
  fs_size : Z;
  fs_modified_ns : Z * Z;
  fs_changed_ns : Z * Z;
}.

#[export] Instance FileStamp_eq_dec : EqDecision FileStamp.
Proof. solve_decision. Defined.

(** The disk: what each path's file looks like, if there is one. *)
Notation Disk := (str -> option FileStamp).

Notation CertFiles := (list (str * option FileStamp)).

Definition cert_files_snapshot (disk : Disk) (certificates : list CertSpec) : CertFiles :=
  (fun path => (path, disk path)) <$>
    (certificates ≫= fun entry => [cs_cert_file entry; cs_key_file entry]).

Definition changed_on_disk (disk : Disk) (seen : CertFiles) : bool :=
  existsb (fun ps => negb (bool_decide (disk ps.1 = ps.2))) seen.

Definition cert_files_refresh (disk : Disk) (seen : CertFiles) : CertFiles :=
  (fun ps => (ps.1, disk ps.1)) <$> seen.

(** ** Why a handshake failed *)

Inductive RustlsError := InvalidMessage | PeerIncompatible | AlertReceived | PeerMisbehaved |
  OtherTlsError.

Inductive IoKind := UnexpectedEof | ConnectionReset | BrokenPipe | OtherKind.

(** An [io::Error]: the rustls error it wraps, if any, and its kind. *)
Record HandshakeError := mkHandshakeError { he_tls : option RustlsError; he_kind : IoKind }.

Definition failure_reason (error : HandshakeError) : str :=
  match he_tls error with
  | Some InvalidMessage => lit "invalid_message"
  | Some PeerIncompatible => lit "peer_incompatible"
  | Some AlertReceived => lit "alert_received"
  | Some PeerMisbehaved => lit "peer_misbehaved"
  | Some OtherTlsError => lit "other"
  | None =>
      match he_kind error with
      | UnexpectedEof | ConnectionReset | BrokenPipe => lit "client_closed"
      | OtherKind => lit "io_error"
      end
  end.

(** ** What a name resolves to *)

(** The names of the entries, lowercased, with the entry of each. *)
Fixpoint bindings (key : CertRef) (entries : list CertSpec) : list (str * CertRef) :=
  match entries with
  | [] => []
  | entry :: entries =>
      ((fun sni => (to_ascii_lowercase sni, key)) <$> cs_sni entry) ++ bindings (S key) entries
  end.

(** The last entry that names [name] exactly. *)
Definition exact_of (bs : list (str * CertRef)) (name : str) : option CertRef :=
  snd <$> last (keep (fun b => str_eqb b.1 name && negb (starts_with (lit "*") b.1)) bs).

(** The wildcards, as suffixes. *)
Definition wildcards_of (bs : list (str * CertRef)) : list (str * CertRef) :=
  omap (fun b => (fun suffix => (suffix, b.2)) <$> strip_prefix (lit "*") b.1) bs.

Fixpoint default_of (key : CertRef) (entries : list CertSpec) : option CertRef :=
  match entries with
  | [] => None
  | entry :: entries => if cs_default entry then Some key else default_of (S key) entries
  end.

Definition suffix_le : str * CertRef -> str * CertRef -> bool :=
  by_key (fun entry => - Z.of_nat (length entry.1)).

(** The reference: the last exact name, else the longest wildcard (the first
    of equals), else the default. *)
Definition resolve_reference (entries : list CertSpec) (sni : option str) : option CertRef :=
  match sni with
  | Some name =>
      let name := to_ascii_lowercase name in
      match exact_of (bindings 0 entries) name with
      | Some k => Some k
      | None =>
          match min_by suffix_le (keep (fun e => wildcard_suffix_matches e.1 name)
                                    (wildcards_of (bindings 0 entries))) with
          | Some e => Some e.2
          | None => default_of 0 entries
          end
      end
  | None => default_of 0 entries
  end.

(** The store holds these bindings and this default. *)
Definition store_holds (bs : list (str * CertRef)) (d : option CertRef) (store : CertStore) : Prop :=
  (forall name, cst_exact store !! name = exact_of bs name) /\
  cst_wildcard store = wildcards_of bs /\ cst_default store = d.

Lemma add_name_holds bs d store key t sni :
  store_holds bs d store ->
  store_holds (bs ++ [(to_ascii_lowercase sni, key)]) d (add_name key t store sni).
Proof.
  intros (He & Hw & Hd). unfold add_name, store_holds, exact_of, wildcards_of.
  rewrite omap_app. setoid_rewrite keep_app. cbn [keep omap list_omap].
  unfold starts_with. set (name := to_ascii_lowercase sni). cbn [fst snd].
  destruct (strip_prefix (lit "*") name) as [suffix|] eqn:E; simpl;
    (split; [|split; [|done]]); intros.
  - rewrite andb_false_r, app_nil_r. apply He.
  - by rewrite Hw.
  - rewrite andb_true_r. destruct (str_eqb name name0) eqn:En.
    + apply str_eqb_eq in En as <-. by rewrite last_snoc, lookup_insert_eq.
    + rewrite app_nil_r, lookup_insert_ne by (intros <-; by rewrite str_eqb_refl in En). apply He.
  - by rewrite app_nil_r.
Qed.

Lemma add_names_holds bs d store key t snis :
  store_holds bs d store ->
  store_holds (bs ++ ((fun sni => (to_ascii_lowercase sni, key)) <$> snis)) d
    (foldl (add_name key t) store snis).
Proof.
  revert bs store. induction snis as [|sni snis IH]; intros bs store H; csimpl.
  { by rewrite app_nil_r. }
  rewrite cons_middle, app_assoc. apply IH. by apply add_name_holds.
Qed.

Section StoreFacts.
Context {IoError : Type} (load : str -> str -> result Z (TlsError IoError)).

(** How many of the entries are the default. *)
Definition defaults (entries : list CertSpec) : nat := length (keep cs_default entries).

Lemma default_of_None key entries : defaults entries = 0%nat -> default_of key entries = None.
Proof.
  revert key. induction entries as [|e es IH]; intros key; [done|]. unfold defaults in *. simpl.
  destruct (cs_default e); [done|]. apply IH.
Qed.

Lemma cert_store_add_holds entries key df bs d store store' :
  store_holds bs d store -> is_none df = is_none d ->
  cert_store_add load entries key df store = Ok store' ->
  store_holds (bs ++ bindings key entries)
    (match d with Some k => Some k | None => default_of key entries end) store' /\
  (defaults entries <= (if is_none d then 1 else 0))%nat.
Proof.
  revert key df bs d store. induction entries as [|e es IH]; intros key df bs d store Hs Hdf E.
  { injection E as <-. simpl. rewrite app_nil_r. split; [by destruct d|]. unfold defaults. simpl. lia. }
  simpl in E. destruct (load _ _) as [t|err]; simpl in E; [|done].
  destruct (cs_default e) eqn:Ed.
  - destruct df as [first|]; [done|]. destruct d as [k|]; [done|].
    assert (Hs' : store_holds bs (Some key) (set_default key t store)) by (by destruct Hs as (? & ? & _)).
    apply (add_names_holds _ _ _ key t (cs_sni e)) in Hs'.
    destruct (IH _ (Some _) _ _ _ Hs' eq_refl E) as [H1 H2]. simpl. rewrite Ed, app_assoc. split; [done|].
    unfold defaults in *. simpl. rewrite Ed. simpl in *. lia.
  - apply (add_names_holds _ _ _ key t (cs_sni e)) in Hs.
    assert (cert_store_add load es (S key) df (foldl (add_name key t) store (cs_sni e)) = Ok store') as E'
      by (by destruct df).
    destruct (IH _ _ _ _ _ Hs Hdf E') as [H1 H2]. simpl. rewrite Ed, app_assoc. split; [done|].
    unfold defaults in *. simpl. by rewrite Ed.
Qed.

(** A store resolves names as its entries say: the last entry that names
    the host, else the entry with the longest wildcard that covers it, else
    the default one; and it was built only if at most one entry is the
    default. *)
Theorem cert_store_resolve_reference entries store sni :
  cert_store_build load entries = Ok store ->
  cert_store_resolve store sni = resolve_reference entries sni /\ (defaults entries <= 1)%nat.
Proof.
  unfold cert_store_build. intros H.
  destruct (cert_store_add load entries 0 None cert_store_empty) as [s|e] eqn:E; [|done].
  injection H as <-.
  destruct (cert_store_add_holds entries 0 None [] None cert_store_empty s) as [(He & Hw & Hd) Hn];
    [done..|].
  split; [|done]. unfold cert_store_resolve, resolve_reference, sort_wildcards. simpl.
  destruct sni as [name|]; [|done]. rewrite He, Hd. simpl app.
  destruct (exact_of _ _); [done|]. rewrite find_first_keep, keep_sort_by by apply by_key_preorder.
  rewrite head_sort_by by apply by_key_preorder. rewrite Hw.
  by destruct (min_by _ _) as [[? ?]|].
Qed.

(** A second default is the only thing about the entries themselves that the
    store refuses. *)
Lemma cert_store_two_defaults entries first second :
  (defaults entries <= 1)%nat ->
  (forall c k e, load c k = Err e -> e <> TwoDefaults first second) ->
  cert_store_build load entries <> Err (TwoDefaults first second).
Proof.
  intros Hd Hload. unfold cert_store_build.
  assert (H : forall es key df store, (defaults es <= (if is_none df then 1 else 0))%nat ->
            cert_store_add load es key df store <> Err (TwoDefaults first second)).
  { induction es as [|e es IH]; intros key df store Hle; [done|]. simpl.
    destruct (load _ _) as [t|err] eqn:El; simpl; [|done].
    unfold defaults in Hle, IH. simpl in Hle. destruct (cs_default e) eqn:Ed; simpl in Hle.
    - destruct df; simpl in Hle; [lia|]. apply IH. simpl. lia.
    - destruct df; apply IH; simpl in *; lia. }
  specialize (H entries 0%nat None cert_store_empty Hd).
  by destruct (cert_store_add _ _ _ _ _).
Qed.
End StoreFacts.

(** ** A certificate is served only to the names it is for *)

(** A (lowercase) SNI name of an entry covers a (lowercase) host: it is the
    host, or a star that stands for a part without a dot. *)
Definition sni_covers (sni host : str) : Prop :=
  (sni = host /\ starts_with (lit "*") sni = false) \/
  exists suffix label, sni = lit "*" ++ suffix /\ host = label ++ suffix /\
    label <> [] /\ "."%char ∉ label.

Lemma wildcard_suffix_matches_iff suffix host :
  wildcard_suffix_matches suffix host = true <->
  exists label, host = label ++ suffix /\ label <> [] /\ "."%char ∉ label.
Proof.
  unfold wildcard_suffix_matches. destruct (strip_suffix suffix host) as [label|] eqn:E.
  - apply strip_suffix_Some in E as ->. rewrite andb_true_iff, !negb_true_iff, bool_decide_eq_false.
    rewrite <-not_true_iff_false, contains_char_iff. split; [eauto|].
    intros (l & Hl & H). by apply app_inv_tail in Hl as <-.
  - split; [done|]. intros (label & -> & _).
    by rewrite (proj2 (strip_suffix_Some suffix _ label) eq_refl) in E.
Qed.

Lemma sni_covers_wildcard suffix n host :
  strip_prefix (lit "*") n = Some suffix ->
  sni_covers n host <-> wildcard_suffix_matches suffix host = true.
Proof.
  intros Hn. rewrite wildcard_suffix_matches_iff. unfold sni_covers, starts_with. rewrite Hn.
  apply strip_prefix_Some in Hn as ->. split.
  - intros [[_ [=]]|(sfx & label & E & H)]. apply app_inv_head in E as <-. eauto.
  - intros (label & H). right. eauto.
Qed.

Lemma sni_covers_exact n host :
  strip_prefix (lit "*") n = None -> sni_covers n host <-> n = host.
Proof.
  intros Hn. unfold sni_covers, starts_with. rewrite Hn. split.
  - intros [[H _]|(sfx & label & -> & _)]; [done|].
    by rewrite (proj2 (strip_prefix_Some (lit "*") _ sfx) eq_refl) in Hn.
  - by left.
Qed.

Definition entry_covers (name : str) (entry : CertSpec) : Prop :=
  Exists (fun sni => sni_covers (to_ascii_lowercase sni) (to_ascii_lowercase name))
    (cs_sni entry).

Lemma bindings_elem n k key entries :
  (n, k) ∈ bindings key entries <->
  exists i e sni, entries !! i = Some e /\ k = (key + i)%nat /\ sni ∈ cs_sni e /\
    n = to_ascii_lowercase sni.
Proof.
  revert key. induction entries as [|e es IH]; intros key; simpl.
  { split; [set_solver|]. by intros (i & e & sni & ? & _). }
  rewrite elem_of_app, IH, list_elem_of_fmap. split.
  - intros [(sni & [= -> ->] & Hs)|(i & e' & sni & Hi & -> & Hs & ->)].
    + exists 0%nat, e, sni. rewrite Nat.add_0_r. done.
    + exists (S i), e', sni. split_and!; try done. lia.
  - intros ([|i] & e' & sni & Hi & -> & Hs & ->); simpl in Hi.
    + injection Hi as ->. left. exists sni. by rewrite Nat.add_0_r.
    + right. exists i, e', sni. split_and!; try done. lia.
Qed.

Lemma default_of_spec key entries :
  match default_of key entries with
  | Some k => exists i e, entries !! i = Some e /\ k = (key + i)%nat /\ cs_default e = true
  | None => Forall (fun e => cs_default e = false) entries
  end.
Proof.
  revert key. induction entries as [|e es IH]; intros key; simpl; [constructor|].
  destruct (cs_default e) eqn:Ed.
  - exists 0%nat, e. by rewrite Nat.add_0_r.
  - specialize (IH (S key)). destruct (default_of (S key) es) as [k|]; [|by constructor].
    destruct IH as (i & e' & Hi & -> & He). exists (S i), e'. split_and!; try done. lia.
Qed.

Lemma exact_of_spec bs name :
  match exact_of bs name with
  | Some k => (name, k) ∈ bs /\ starts_with (lit "*") name = false
  | None => forall n k, (n, k) ∈ bs -> starts_with (lit "*") n = false -> n <> name
  end.
Proof.
  unfold exact_of. destruct (last _) as [[n k]|] eqn:E; simpl.
  - apply last_Some_elem_of, elem_of_keep in E as [Hin H]. simpl in H. bool_facts.
    apply str_eqb_eq in H as ->. done.
  - apply last_None in E. intros n k Hin Hw ->. apply (not_elem_of_nil (name, k)). rewrite <-E.
    apply elem_of_keep. simpl. by rewrite str_eqb_refl, Hw.
Qed.

Lemma wildcard_of_spec bs name :
  match min_by suffix_le (keep (fun e => wildcard_suffix_matches e.1 name) (wildcards_of bs)) with
  | Some e => exists n, (n, e.2) ∈ bs /\ sni_covers n name
  | None => forall n k suffix, (n, k) ∈ bs -> strip_prefix (lit "*") n = Some suffix ->
              wildcard_suffix_matches suffix name = false
  end.
Proof.
  assert (Hel : forall sfx k, (sfx, k) ∈ wildcards_of bs <->
            exists n, (n, k) ∈ bs /\ strip_prefix (lit "*") n = Some sfx).
  { intros sfx k. unfold wildcards_of. rewrite list_elem_of_omap. split.
    - intros ([n k'] & Hin & (s & Hs & [= -> ->])%fmap_Some). eauto.
    - intros (n & Hin & Hs). exists (n, k). simpl. by rewrite Hs. }
  destruct (min_by _ _) as [[sfx k]|] eqn:E.
  - apply (min_by_Some suffix_le) in E as [[Hin Hm]%elem_of_keep _].
    apply Hel in Hin as (n & Hn & Hs). exists n. split; [done|]. by apply (sni_covers_wildcard sfx).
  - apply min_by_None in E. intros n k sfx Hn Hs. destruct (wildcard_suffix_matches sfx name) eqn:Ew; [|done].
    destruct (not_elem_of_nil (sfx, k)). rewrite <-E. apply elem_of_keep. split; [|done].
    apply Hel. eauto.
Qed.

Lemma covers_binding entries name n k :
  (n, k) ∈ bindings 0 entries -> sni_covers n (to_ascii_lowercase name) ->
  exists e, entries !! k = Some e /\ entry_covers name e.
Proof.
  intros (i & e & sni & Hi & -> & Hs & ->)%bindings_elem Hc. exists e. split; [done|].
  apply Exists_exists. eauto.
Qed.

(** What a built store serves for a name. *)
Lemma store_serves {IoError} (load : str -> str -> result Z (TlsError IoError))
    entries store name :
  cert_store_build load entries = Ok store ->
  match cert_store_resolve store (Some name) with
  | Some k => exists e, entries !! k = Some e /\
      (entry_covers name e \/ (cs_default e = true /\ Forall (fun e => ~ entry_covers name e) entries))
  | None => Forall (fun e => ~ entry_covers name e /\ cs_default e = false) entries
  end.
Proof.
  intros H. destruct (cert_store_resolve_reference load entries store (Some name) H) as [-> _].
  unfold resolve_reference. set (host := to_ascii_lowercase name).
  pose proof (exact_of_spec (bindings 0 entries) host) as He.
  destruct (exact_of _ host) as [k|].
  { destruct He as [Hin Hw]. destruct (covers_binding entries name host k Hin) as (e & Hk & Hc); [|eauto].
    unfold starts_with in Hw. apply sni_covers_exact; [|done].
    by destruct (strip_prefix _ host). }
  pose proof (wildcard_of_spec (bindings 0 entries) host) as Hw.
  destruct (min_by _ _) as [[sfx k]|].
  { destruct Hw as (n & Hin & Hc). destruct (covers_binding entries name n k Hin Hc) as (e & Hk & Hcov). eauto. }
  assert (Hno : Forall (fun e => ~ entry_covers name e) entries).
  { apply Forall_lookup. intros i e Hi (sni & Hs & Hc)%Exists_exists.
    assert (Hin : (to_ascii_lowercase sni, i) ∈ bindings 0 entries) by (apply bindings_elem; eauto 10).
    fold host in Hc. destruct (strip_prefix (lit "*") (to_ascii_lowercase sni)) as [sfx|] eqn:Es.
    - apply (sni_covers_wildcard sfx) in Hc; [|done]. by rewrite (Hw _ _ _ Hin Es) in Hc.
    - apply sni_covers_exact in Hc; [|done]. apply (He _ _ Hin); [|done].
      unfold starts_with. by rewrite Es. }
  pose proof (default_of_spec 0 entries) as Hd. destruct (default_of 0 entries) as [k|].
  - destruct Hd as (i & e & Hi & -> & Hde). exists e. eauto.
  - by apply Forall_and.
Qed.

(** C23: whatever certificate a handshake gets, its entry lists a name that
    covers the name asked for, or it is the default entry and no entry does;
    and a handshake gets none exactly when nothing covers the name and there
    is no default. *)
Theorem served_certificate_covers {IoError} (load : str -> str -> result Z (TlsError IoError))
    entries store name :
  cert_store_build load entries = Ok store ->
  match cert_store_resolve store (Some name) with
  | Some k => exists e, entries !! k = Some e /\
      (entry_covers name e \/ (cs_default e = true /\ Forall (fun e => ~ entry_covers name e) entries))
  | None => Forall (fun e => ~ entry_covers name e /\ cs_default e = false) entries
  end.
Proof. apply store_serves. Qed.

(** Three entries: a wildcard, a name it also covers, and a default. *)
Definition example_entries : list CertSpec :=
  [mkCertSpec [lit "*.Example.org"] false (lit "w.pem") (lit "w.key");
   mkCertSpec [lit "api.example.org"; lit "b.example.net"] false (lit "a.pem") (lit "a.key");
   mkCertSpec [] true (lit "d.pem") (lit "d.key")].

Definition example_load (cert key : str) : result Z (TlsError unit) := Ok 1700000000.

Definition example_store : CertStore :=
  match cert_store_build example_load example_entries with Ok s => s | Err _ => cert_store_empty end.

Lemma served_certificate_covers_witness :
  cert_store_resolve example_store (Some (lit "WWW.example.org")) = Some 0%nat /\
  exists e, example_entries !! 0%nat = Some e /\
    (entry_covers (lit "WWW.example.org") e \/
     (cs_default e = true /\ Forall (fun e => ~ entry_covers (lit "WWW.example.org") e) example_entries)).
Proof.
  split; [vm_compute; reflexivity|].
  apply (served_certificate_covers example_load example_entries example_store (lit "WWW.example.org")).
  vm_compute. reflexivity.
Defined.

(** The names of a wildcard entry are not only single-label wildcards: a star
    followed by no dot takes any label that ends like the rest. *)
Example star_without_dot :
  sni_covers (lit "*example.org") (lit "badexample.org") /\
  sni_covers (lit "*") (lit "localhost").
Proof.
  split; [apply (sni_covers_wildcard (lit "example.org"))|apply (sni_covers_wildcard [])];
    by vm_compute.
Qed.

(** ** The resolver counts the handshakes it could not serve *)

Lemma resolve_sni_counts sni r :
  0 <= sr_misses r < u64_max ->
  let (r', k) := resolve_sni sni r in
  k = cert_store_resolve (sr_store r) sni /\ sr_store r' = sr_store r /\
  sr_misses r' = sr_misses r + (if is_none k then 1 else 0).
Proof.
  intros H. unfold resolve_sni. split; [done|]. split; [done|]. simpl.
  destruct (is_none _); [apply wrap64_small|]; lia.
Qed.

(** ** Rotation is noticed *)

(** A poll sees a change exactly when some certificate or key file no
    longer looks as it did when the snapshot was taken, so a file replaced
    at any time after the snapshot is loaded again; after a refresh, exactly
    when one has changed since. *)
Theorem rotation_noticed (before now later : Disk) entries :
  let seen := cert_files_snapshot before entries in
  let differs a b := exists e path, e ∈ entries /\ (path = cs_cert_file e \/ path = cs_key_file e) /\
                       (a : Disk) path <> (b : Disk) path in
  (changed_on_disk now seen = true <-> differs now before) /\
  (changed_on_disk later (cert_files_refresh now seen) = true <-> differs later now).
Proof.
  intros seen differs.
  assert (H : forall a b : Disk, changed_on_disk a (cert_files_snapshot b entries) = true <-> differs a b).
  { intros a b. unfold changed_on_disk, cert_files_snapshot, differs.
    rewrite existsb_exists. setoid_rewrite <-list_elem_of_In.
    setoid_rewrite list_elem_of_fmap. setoid_rewrite list_elem_of_bind. split.
    - intros (ps & (path & -> & e & Hp & He) & Hd). simpl in Hd. bool_facts. set_solver.
    - intros (e & path & He & Hp & Hd). exists (path, b path). split; [|].
      + exists path. split; [done|]. exists e. set_solver.
      + simpl. by rewrite bool_decide_eq_false_2. }
  split; [apply H|]. rewrite <-H. unfold cert_files_refresh, seen, cert_files_snapshot.
  by rewrite <-list_fmap_compose.
Qed.
