(* ===== verification/Causes.v ===== *)
(** * Errors and their causes

    What the sources look at in an error: the kind of an [io::Error] and the
    TLS failure it may wrap, the flags of a [hyper::Error], and the chain of
    sources, which [server.rs] and [client/failure.rs] of [netkit-http]
    walk. [DialError] is the [ConnectError] of [client/dial.rs]. *)

From S2P Require Import Prelude Str Net Tls.

(** [io::ErrorKind], the kinds the sources tell apart. *)
Inductive IoErrorKind := IoTimedOut | IoConnectionRefused | IoConnectionReset | IoConnectionAborted |
  IoBrokenPipe | IoUnexpectedEof | IoInterrupted | IoWouldBlock | IoInvalidInput | IoInvalidData |
  IoNotFound | IoWriteZero | IoOther.

#[export] Instance IoErrorKind_eq_dec : EqDecision IoErrorKind.
Proof. solve_decision. Defined.

(** The [rustls::Error] an [io::Error] of tokio-rustls wraps. *)
Inductive RustlsFailure := NoApplicationProtocolAlert | OtherTlsFailure.

Record IoError := mkIoError { io_kind : IoErrorKind; io_tls : option RustlsFailure }.

Definition is_tls_error (e : IoError) : bool := negb (is_none (io_tls e)).

Definition is_protocol_refusal (e : IoError) : bool :=
  match io_tls e with Some NoApplicationProtocolAlert => true | _ => false end.

(** What [hyper::Error] answers about itself. *)
Record HyperError := mkHyperError {
  hy_timeout : bool;
  hy_parse : bool;
  hy_parse_too_large : bool;
  hy_incomplete_message : bool;
  hy_user : bool;
  hy_canceled : bool;
  hy_closed : bool;
}.

Inductive Alpn := Http11Protocol | H2Protocol.

#[export] Instance Alpn_eq_dec : EqDecision Alpn.
Proof. solve_decision. Defined.

Inductive DialError :=
| LimitError
| ResolveError (host : str) (port : Z) (source : IoError)
| TimedOutError (host : str) (port : Z) (after : Z)
| TcpError (address : SocketAddr) (source : IoError)
| TlsHandshakeError (server_name : str) (source : IoError)
| AlpnError (server_name : str) (offered : Alpn).

(** One error of a chain, as [downcast_ref] finds it. *)
Inductive Cause :=
| CauseConnect (e : DialError)
| CauseIo (e : IoError)
| CauseHyper (e : HyperError)
| CauseOther.

(** An error and its sources, outermost first. *)
Notation Causes := (list Cause).

(** What an error says that ends a chain in each way. *)
Definition plain_io (kind : IoErrorKind) : IoError := mkIoError kind None.
Definition hyper_quiet : HyperError := mkHyperError false false false false false false false.
