(* ===== verification/TlsPolicy.v ===== *)
(** * TLS settings: [connector.rs], [policy.rs] and [acceptor.rs] of [lib/tls]

    What a client is configured with ([Connector::new]: which authorities are
    trusted, which certificate is presented), what a server is configured
    with ([server_config]) and what is read off an established session
    ([TlsInfo::of]).

    Parsing PEM, the stores of roots and the negotiation are rustls's: a
    [RustlsClient] and a [RustlsServer] are the calls made of it, and
    [RustlsClientLaws] and [NegotiatesWithin] what its documentation says of
    them. *)

From S2P Require Import Prelude Str Text Net Config Tls Causes.
From Stdlib Require Import Ascii.

(** ** Application protocols *)

Definition alpn_id (a : Alpn) : str :=
  match a with Http11Protocol => lit "http/1.1" | H2Protocol => lit "h2" end.

Definition alpn_of (id : str) : option Alpn :=
  find_first (fun a => bool_decide (alpn_id a = id)) [Http11Protocol; H2Protocol].

(** ** Being a client: [Connector::new] *)

Inductive Trust := TrustSystem | TrustSystemAnd (bundle : str) | TrustUnverified.

Record Identity := mkIdentity { id_cert_chain_pem : str; id_key_pem : str }.

Record ConnectorOptions := mkConnectorOptions { co_trust : Trust; co_identity : option Identity }.

(** The errors [Connector::new] and [server_config] give, and how they read. *)
Inductive ConnectorError :=
| InvalidPem (reason : str)
| PolicyError (e : str).

Definition connector_error_text (e : ConnectorError) : str :=
  match e with
  | InvalidPem reason => reason
  | PolicyError e => lit "invalid TLS policy: " ++ e
  end.

(** What [Connector::new] calls of rustls, rustls-pemfile and
    rustls-native-certs. Errors are the text they display as. *)
Class RustlsClient (Der PrivateKey Roots : Type) := {
  safe_default_versions : result unit str;
  native_certs : list Der;
  native_errors : list str;
  roots_empty : Roots;
  roots_add : Der -> Roots -> result Roots str;
  roots_add_parsable : list Der -> Roots -> Roots * (nat * nat);
  pem_certs : str -> list (result Der str);
  pem_private_key : str -> result (option PrivateKey) str;
  usable_client_auth : list Der -> PrivateKey -> result unit str;
}.

(** The store of roots, as documented: [add] takes a certificate that is a
    trust anchor or fails, [add_parsable_certificates] takes those that are
    and counts the others. *)
Class RustlsClientLaws (Der PrivateKey Roots : Type) `{!RustlsClient Der PrivateKey Roots} := {
  anchor : Der -> bool;
  roots_of : Roots -> list Der;
  roots_of_empty : roots_of roots_empty = [];
  roots_of_add d r :
    match roots_add d r with
    | Ok r' => anchor d = true /\ roots_of r' = roots_of r ++ [d]
    | Err _ => anchor d = false
    end;
  roots_of_add_parsable ds r :
    roots_of (roots_add_parsable ds r).1 = roots_of r ++ keep anchor ds;
}.

(** What [tracing] is given. *)
Inductive TlsWarning :=
| NativeCertsUnread (error : str)
| NativeCertsSkipped (skipped : nat).

(** The verifier of a server's certificate: rustls's own over a store of
    roots, or [Unverified]. *)
Inductive ServerCertVerifier (Roots : Type) := WebPki (roots : Roots) | Unverified.
Arguments WebPki {_} _.
Arguments Unverified {_}.

Record ClientConfig (Der PrivateKey Roots : Type) := mkClientConfig {
  cc_verifier : ServerCertVerifier Roots;
  cc_client_auth : option (list Der * PrivateKey);
}.
Arguments mkClientConfig {_ _ _} _ _.
Arguments cc_verifier {_ _ _} _.
Arguments cc_client_auth {_ _ _} _.

(** [collect::<Result<Vec<_>, _>>]. *)
Fixpoint collect_results {A E} (items : list (result A E)) : result (list A) E :=
  match items with
  | [] => Ok []
  | item :: rest => let? a := item in let? more := collect_results rest in Ok (a :: more)
  end.

Section Client.
Context `{RC : RustlsClient Der PrivateKey Roots}.

(** [system_roots], with the warnings it logs. *)
Definition system_roots : Roots * list TlsWarning :=
  let (roots, counts) := roots_add_parsable native_certs roots_empty in
  (roots, (NativeCertsUnread <$> native_errors) ++
          (if (0 <? counts.2)%nat then [NativeCertsSkipped counts.2] else [])).

Definition connector_read_certs (pem what : str) : result (list Der) ConnectorError :=
  let? certs := map_err (fun e => InvalidPem (what ++ lit ": " ++ e)) (collect_results (pem_certs pem)) in
  match certs with
  | [] => Err (InvalidPem (what ++ lit " has no certificate"))
  | _ => Ok certs
  end.

Definition connector_read_key (pem : str) : result PrivateKey ConnectorError :=
  match pem_private_key pem with
  | Ok (Some key) => Ok key
  | Ok None => Err (InvalidPem (lit "client identity has no private key"))
  | Err e => Err (InvalidPem (lit "client identity key: " ++ e))
  end.

(** The loop over the certificates of the bundle. *)
Fixpoint add_all (extra : list Der) (roots : Roots) : result Roots ConnectorError :=
  match extra with
  | [] => Ok roots
  | cert :: rest =>
      let? roots :=
        map_err (fun e => InvalidPem (lit "trust bundle: unusable certificate: " ++ e)) (roots_add cert roots) in
      add_all rest roots
  end.

Definition connector_verifier (trust : Trust) : result (ServerCertVerifier Roots) ConnectorError :=
  match trust with
  | TrustSystem => Ok (WebPki system_roots.1)
  | TrustSystemAnd bundle =>
      let? extra := connector_read_certs bundle (lit "trust bundle") in
      let? roots := add_all extra system_roots.1 in
      Ok (WebPki roots)
  | TrustUnverified => Ok Unverified
  end.

Definition connector_identity (identity : option Identity) : result (option (list Der * PrivateKey)) ConnectorError :=
  match identity with
  | Some identity =>
      let? chain := connector_read_certs (id_cert_chain_pem identity) (lit "client certificate") in
      let? key := connector_read_key (id_key_pem identity) in
      let? _ := map_err (fun e => InvalidPem (lit "client identity: " ++ e)) (usable_client_auth chain key) in
      Ok (Some (chain, key))
  | None => Ok None
  end.

(** [Connector::new]. *)
Definition connector_new (options : ConnectorOptions) : result (ClientConfig Der PrivateKey Roots) ConnectorError :=
  let? _ := map_err PolicyError safe_default_versions in
  let? verifier := connector_verifier (co_trust options) in
  let? client_auth := connector_identity (co_identity options) in
  Ok (mkClientConfig verifier client_auth).
End Client.

(** *** What a verifier answers *)

(** [trait ServerCertVerifier], its methods. *)
Record Verifier (Der Name Ocsp Signed Scheme : Type) := mkVerifier {
  verify_server_cert : Der -> list Der -> Name -> Ocsp -> Z -> result unit str;
  verify_tls12_signature : str -> Der -> Signed -> result unit str;
  verify_tls13_signature : str -> Der -> Signed -> result unit str;
  supported_verify_schemes : list Scheme;
}.
Arguments mkVerifier {_ _ _ _ _} _ _ _ _.
Arguments verify_server_cert {_ _ _ _ _} _ _ _ _ _ _.
Arguments verify_tls12_signature {_ _ _ _ _} _ _ _ _.
Arguments verify_tls13_signature {_ _ _ _ _} _ _ _ _.
Arguments supported_verify_schemes {_ _ _ _ _} _.

(** [impl ServerCertVerifier for Unverified], with the provider's checks. *)
Definition unverified {Der Name Ocsp Signed Scheme} (tls12 tls13 : str -> Der -> Signed -> result unit str)
    (schemes : list Scheme) : Verifier Der Name Ocsp Signed Scheme :=
  mkVerifier (fun _ _ _ _ _ => Ok ()) tls12 tls13 schemes.

(** ** Being a server: [server_config] *)

Definition ALPN_PROTOCOLS : list str := [lit "h2"; lit "http/1.1"].

Inductive ProtocolVersion := TLSv1_2 | TLSv1_3 | OtherVersion (code : Z).

#[export] Instance ProtocolVersion_eq_dec : EqDecision ProtocolVersion.
Proof. solve_decision. Defined.

(** What [server_config] calls: [with_protocol_versions] and the ticketer. *)
Class RustlsServer (Ticketer : Type) := {
  ALL_VERSIONS : list ProtocolVersion;
  with_protocol_versions : list ProtocolVersion -> result unit str;
  ticketer_new : result Ticketer str;
}.

(** [R] is a reference to the resolver, shared with whoever swaps its store. *)
Record ServerConfig (R Ticketer : Type) := mkServerConfig {
  sc_versions : list ProtocolVersion;
  sc_resolver : R;
  sc_alpn_protocols : list str;
  sc_ticketer : Ticketer;
}.
Arguments mkServerConfig {_ _} _ _ _ _.
Arguments sc_versions {_ _} _.
Arguments sc_resolver {_ _} _.
Arguments sc_alpn_protocols {_ _} _.
Arguments sc_ticketer {_ _} _.

Definition server_config {R} `{RustlsServer Ticketer} (resolver : R) (min_version : MinVersion) :
    result (ServerConfig R Ticketer) ConnectorError :=
  let versions := match min_version with Tls12 => ALL_VERSIONS | Tls13 => [TLSv1_3] end in
  let? _ := map_err PolicyError (with_protocol_versions versions) in
  let? ticketer := map_err PolicyError ticketer_new in
  Ok (mkServerConfig versions resolver ALPN_PROTOCOLS ticketer).

(** ** What a handshake settled on: [TlsInfo] *)

(** An established session: what [ServerConnection] answers of it. *)
Record Session := mkSession {
  ss_server_name : option str;
  ss_version : option ProtocolVersion;
  ss_cipher : option str;
  ss_alpn : option str;
  ss_resumed : bool;
}.

Record TlsInfo := mkTlsInfo {
  ti_sni : option str;
  ti_version : str;
  ti_cipher : str;
  ti_alpn : option str;
  ti_resumed : bool;
}.

(** [TlsInfo::of]. *)
Definition tls_info_of (session : Session) : TlsInfo :=
  mkTlsInfo
    (to_ascii_lowercase <$> ss_server_name session)
    (match ss_version session with
     | Some TLSv1_3 => lit "TLSv1.3"
     | Some TLSv1_2 => lit "TLSv1.2"
     | _ => lit "unknown"
     end)
    (default (lit "unknown") (ss_cipher session))
    (from_utf8_lossy <$> ss_alpn session)
    (ss_resumed session).

(** [Acceptor::accept], over what rustls's handshake gives. *)
Definition acceptor_accept (handshake : result Session HandshakeError) : result TlsInfo HandshakeError :=
  let? session := handshake in Ok (tls_info_of session).

(** ** What a connector trusts and presents *)

Lemma collect_results_spec {A E} (items : list (result A E)) :
  match collect_results items with
  | Ok l => items = Ok <$> l
  | Err e => Err e ∈ items
  end.
Proof.
  induction items as [|[a|e] items IH]; simpl; [done| |by left].
  destruct (collect_results items) as [l|e]; simpl; [by rewrite IH|by right].
Qed.

Section ClientFacts.
Context `{RustlsClientLaws Der PrivateKey Roots}.
Implicit Types (c : ClientConfig Der PrivateKey Roots).

(** Certificates cannot be read of a PEM that has none, or one that is
    broken. *)
Definition pem_unusable (pem : str) : Prop := pem_certs pem = [] \/ exists e, Err e ∈ pem_certs pem.

Definition bundle_unusable (bundle : str) : Prop :=
  pem_unusable bundle \/ exists extra d, pem_certs bundle = Ok <$> extra /\ d ∈ extra /\ anchor d = false.

Definition identity_unusable (i : Identity) : Prop :=
  pem_unusable (id_cert_chain_pem i) \/
  pem_private_key (id_key_pem i) = Ok None \/
  (exists e, pem_private_key (id_key_pem i) = Err e) \/
  (exists chain key e, pem_certs (id_cert_chain_pem i) = Ok <$> chain /\
     pem_private_key (id_key_pem i) = Ok (Some key) /\ usable_client_auth chain key = Err e).

(** Which authorities a configuration trusts, and what it presents. *)
Definition trusts (trust : Trust) c : Prop :=
  match trust with
  | TrustSystem => exists roots, cc_verifier c = WebPki roots /\ roots_of roots = keep anchor native_certs
  | TrustSystemAnd bundle =>
      exists roots extra, cc_verifier c = WebPki roots /\ pem_certs bundle = Ok <$> extra /\ extra <> [] /\
        roots_of roots = keep anchor native_certs ++ extra
  | TrustUnverified => cc_verifier c = Unverified
  end.

Definition presents (identity : option Identity) c : Prop :=
  match identity with
  | None => cc_client_auth c = None
  | Some i =>
      exists chain key, cc_client_auth c = Some (chain, key) /\ chain <> [] /\
        pem_certs (id_cert_chain_pem i) = Ok <$> chain /\ pem_private_key (id_key_pem i) = Ok (Some key) /\
        usable_client_auth chain key = Ok ()
  end.

Lemma connector_read_certs_spec pem what :
  match connector_read_certs pem what with
  | Ok certs => certs <> [] /\ pem_certs pem = Ok <$> certs
  | Err (InvalidPem _) => pem_unusable pem
  | Err (PolicyError _) => False
  end.
Proof.
  unfold connector_read_certs. pose proof (collect_results_spec (pem_certs pem)) as Hc.
  destruct (collect_results (pem_certs pem)) as [[|d l]|e]; simpl; [by left|done|right; eauto].
Qed.

Lemma system_roots_trusted : roots_of system_roots.1 = keep anchor native_certs.
Proof.
  unfold system_roots. pose proof (roots_of_add_parsable native_certs roots_empty) as Ha.
  destruct (roots_add_parsable _ _). simpl in *. by rewrite Ha, roots_of_empty.
Qed.

Lemma add_all_spec extra roots :
  match add_all extra roots with
  | Ok roots' => roots_of roots' = roots_of roots ++ extra
  | Err (InvalidPem _) => exists d, d ∈ extra /\ anchor d = false
  | Err (PolicyError _) => False
  end.
Proof.
  revert roots. induction extra as [|d extra IH]; intros roots; simpl; [by rewrite app_nil_r|].
  pose proof (roots_of_add d roots) as Ha. destruct (roots_add d roots) as [roots'|e]; simpl.
  - specialize (IH roots'). destruct (add_all extra roots') as [?|[]]; [|set_solver|done].
    rewrite IH, (proj2 Ha), <-app_assoc. done.
  - exists d. split; [by left|done].
Qed.

Lemma connector_verifier_spec trust auth :
  match connector_verifier trust with
  | Ok v => trusts trust (mkClientConfig v auth)
  | Err (InvalidPem _) => exists bundle, trust = TrustSystemAnd bundle /\ bundle_unusable bundle
  | Err (PolicyError _) => False
  end.
Proof.
  destruct trust as [|bundle|]; simpl; [eexists; split; [done|apply system_roots_trusted]| |done].
  pose proof (connector_read_certs_spec bundle (lit "trust bundle")) as Hr.
  destruct (connector_read_certs _ _) as [extra|[]]; simpl; [|eexists; split; [done|by left]|done].
  destruct Hr as [Hne Hp]. pose proof (add_all_spec extra system_roots.1) as Ha.
  destruct (add_all _ _) as [roots|[]]; simpl; [| |done].
  - eexists roots, extra. split_and!; [done..|]. by rewrite Ha, system_roots_trusted.
  - destruct Ha as (d & Hd & Hn). eexists. split; [done|]. right. eauto.
Qed.

#[local] Arguments connector_identity : simpl never.

Lemma connector_identity_spec identity v :
  match connector_identity identity with
  | Ok auth => presents identity (mkClientConfig v auth)
  | Err (InvalidPem _) => exists i, identity = Some i /\ identity_unusable i
  | Err (PolicyError _) => False
  end.
Proof.
  destruct identity as [i|]; [|done]. unfold connector_identity.
  pose proof (connector_read_certs_spec (id_cert_chain_pem i) (lit "client certificate")) as Hr.
  destruct (connector_read_certs _ _) as [chain|[]]; simpl; [|eexists; split; [done|by left]|done].
  unfold connector_read_key. destruct (pem_private_key (id_key_pem i)) as [[key|]|e] eqn:Ek; simpl.
  - destruct (usable_client_auth chain key) as [[]|e] eqn:Eu; simpl.
    + exists chain, key. naive_solver.
    + exists i. split; [done|]. do 3 right. exists chain, key, e. naive_solver.
  - exists i. split; [done|]. by right; left.
  - exists i. split; [done|]. right; right; left. by exists e.
Qed.

(** A connector trusts and presents what it was told to, or is refused for a
    reason that is true. *)
Lemma connector_new_spec (options : ConnectorOptions) :
  match connector_new options with
  | Ok c => trusts (co_trust options) c /\ presents (co_identity options) c
  | Err (PolicyError e) => safe_default_versions = Err e
  | Err (InvalidPem _) =>
      (exists bundle, co_trust options = TrustSystemAnd bundle /\ bundle_unusable bundle) \/
      (exists i, co_identity options = Some i /\ identity_unusable i)
  end.
Proof.
  unfold connector_new. destruct safe_default_versions as [[]|] eqn:Es; simpl; [|done].
  pose proof (connector_verifier_spec (co_trust options)) as Hv.
  destruct (connector_verifier _) as [v|[]]; simpl; [|left; exact (Hv None)|by destruct (Hv None)].
  pose proof (connector_identity_spec (co_identity options) v) as Hi.
  destruct (connector_identity _) as [auth|[]]; simpl; [by split|by right|done].
Qed.

(** Where the trust alone is usable, a refusal is the identity's fault. *)
Lemma identity_at_fault trust i trusted e :
  connector_new (mkConnectorOptions trust None) = Ok trusted ->
  connector_new (mkConnectorOptions trust (Some i)) = Err e -> identity_unusable i.
Proof.
  unfold connector_new. destruct safe_default_versions as [[]|]; simpl; [|done].
  destruct (connector_verifier trust) as [v|]; [|done]. cbn [co_trust co_identity]. intros _.
  pose proof (connector_identity_spec (Some i) v) as Hi.
  destruct (connector_identity (Some i)) as [auth|[]]; intros [=].
  - by destruct Hi as (i' & [= <-] & Hi).
  - done.
Qed.
End ClientFacts.

(** ** What a session may have settled on *)

Section ServerFacts.
Context {R : Type} `{RustlsServer Ticketer}.

(** As documented: rustls's versions are 1.2 and 1.3; a session that is
    established under a configuration has one of its versions, a cipher
    suite, and no protocol but one the configuration advertises. *)
Class NegotiatesWithin (established : ServerConfig R Ticketer -> Session -> Prop) := {
  all_versions_known v : v ∈ ALL_VERSIONS -> v = TLSv1_2 \/ v = TLSv1_3;
  version_offered config session :
    established config session -> exists v, ss_version session = Some v /\ v ∈ sc_versions config;
  cipher_known config session : established config session -> is_Some (ss_cipher session);
  alpn_offered config session protocol :
    established config session -> ss_alpn session = Some protocol -> protocol ∈ sc_alpn_protocols config;
}.

Definition allowed_versions (min : MinVersion) : list str :=
  match min with Tls12 => [lit "TLSv1.2"; lit "TLSv1.3"] | Tls13 => [lit "TLSv1.3"] end.

Lemma advertised_utf8 protocol : protocol ∈ ALPN_PROTOCOLS -> is_utf8 protocol = true.
Proof. unfold ALPN_PROTOCOLS. rewrite !elem_of_cons. intros [->|[->|[]%elem_of_nil]]; by vm_compute. Qed.

(** A handshake that completes under the server's configuration is reported
    with a version no older than the minimum, the name of its cipher suite,
    and a protocol that is h2, http/1.1 or none. *)
Lemma session_within_policy established `{!NegotiatesWithin established} resolver min config session :
  server_config resolver min = Ok config -> established config session ->
  let info := tls_info_of session in
  sc_resolver config = resolver /\
  ti_version info ∈ allowed_versions min /\ Some (ti_cipher info) = ss_cipher session /\
  (forall p, ti_alpn info = Some p -> p ∈ ALPN_PROTOCOLS) /\
  to_ascii_lowercase <$> ti_sni info = ti_sni info.
Proof.
  unfold server_config. set (versions := match min with Tls12 => _ | Tls13 => _ end).
  destruct (with_protocol_versions versions) as [[]|]; [|done].
  destruct ticketer_new as [ticketer|]; [|done]. cbn. intros E He. injection E as <-.
  destruct (version_offered _ _ He) as (v & Ev & Hv), (cipher_known _ _ He) as [suite Es].
  split_and!; [done| | | |].
  - rewrite Ev. unfold versions in Hv. destruct min; [|by apply list_elem_of_singleton in Hv as ->; left].
    by destruct (all_versions_known _ Hv) as [->| ->]; [left|right; left].
  - by rewrite Es.
  - intros p. destruct (ss_alpn session) as [q|] eqn:Ea; [|done]. intros E. injection E as <-.
    pose proof (alpn_offered _ _ _ He Ea) as Hq.
    by rewrite (proj2 (from_utf8_lossy_spec q) (advertised_utf8 _ Hq)).
  - destruct (ss_server_name session); [|done]. simpl. f_equal. apply to_ascii_lowercase_idem.
Qed.
End ServerFacts.

(** ** An instance *)

(** Certificates and keys as numbers: a PEM is a list of bytes, each a
    certificate (those above 200 broken) and its own key, 0 no anchor; a
    store is the list of its roots. *)
#[export] Instance example_client : RustlsClient Z Z (list Z) := {
  safe_default_versions := Ok ();
  native_certs := [1; 0; 2];
  native_errors := [];
  roots_empty := [];
  roots_add d r := if d =? 0 then Err (lit "BadEncoding") else Ok (r ++ [d]);
  roots_add_parsable ds r :=
    let good := keep (fun d => negb (d =? 0)) ds in
    (r ++ good, (length good, (length ds - length good)%nat));
  pem_certs pem := (fun c => if 200 <? byte_val c then Err (lit "bad PEM") else Ok (byte_val c)) <$> pem;
  pem_private_key pem := Ok (byte_val <$> head pem);
  usable_client_auth chain key := if bool_decide (head chain = Some key) then Ok () else Err (lit "KeyMismatch");
}.

#[export] Instance example_client_laws : RustlsClientLaws Z Z (list Z).
Proof.
  refine {| anchor d := negb (d =? 0); roots_of r := r |}; [done| |done].
  intros d r. simpl. by destruct (d =? 0).
Defined.

#[export] Instance example_server : RustlsServer unit := {
  ALL_VERSIONS := [TLSv1_3; TLSv1_2];
  with_protocol_versions vs := if bool_decide (vs = []) then Err (lit "no versions") else Ok ();
  ticketer_new := Ok ();
}.

(** A session of the newest version offered, with no protocol. *)
Definition example_session (config : ServerConfig unit unit) : Session :=
  mkSession (Some (lit "API.example.org")) (head (sc_versions config)) (Some (lit "TLS13_AES_256_GCM_SHA384"))
    (head (sc_alpn_protocols config)) false.

Definition example_established (config : ServerConfig unit unit) (session : Session) : Prop :=
  sc_versions config <> [] /\ session = example_session config.

#[export] Instance example_negotiates : NegotiatesWithin example_established.
Proof.
  split.
  - simpl. intros v. rewrite !elem_of_cons. intros [->|[->|[]%elem_of_nil]]; auto.
  - intros config session [Hne ->]. simpl. destruct (sc_versions config) as [|v vs]; [done|].
    exists v. split; [done|by left].
  - intros config session [_ ->]. by eexists.
  - intros config session protocol [_ ->]. simpl. destruct (sc_alpn_protocols config); [done|].
    intros [= ->]. by left.
Defined.
