(* ===== verification/Http.v ===== *)
(** * HTTP messages: what the handler uses of the [http] crate

    The crate's types are re-exported by [netkit-http] and are not part of
    the sources: a header map, header names and values, and authorities are
    what the class [HttpLib] declares, and [HttpLaws] states what its
    documentation promises of them. A header name is its lowercase text, a
    value its bytes, an authority its text. [assoc_http] is an instance that
    satisfies the laws, on which examples are evaluated. *)

From S2P Require Import Prelude Str Net.
From Stdlib Require Import Ascii.

Inductive Method := GET | HEAD | POST | PUT | DELETE | CONNECT | OPTIONS | TRACE | PATCH |
  Extension (name : str).

#[export] Instance Method_eq_dec : EqDecision Method.
Proof. solve_decision. Defined.

Inductive Version := HTTP_09 | HTTP_10 | HTTP_11 | HTTP_2 | HTTP_3.

#[export] Instance Version_eq_dec : EqDecision Version.
Proof. solve_decision. Defined.

(** A request target. *)
Record Uri := mkUri {
  uri_authority : option str;
  uri_path : str;
  uri_path_and_query : option str;
}.

Definition HOST : str := lit "host".
Definition CONNECTION : str := lit "connection".
Definition CONTENT_TYPE : str := lit "content-type".
Definition LOCATION : str := lit "location".
Definition RETRY_AFTER : str := lit "retry-after".
Definition STRICT_TRANSPORT_SECURITY : str := lit "strict-transport-security".
Definition TE : str := lit "te".
Definition UPGRADE : str := lit "upgrade".
Definition USER_AGENT : str := lit "user-agent".

Class HttpLib := {
  HeaderMap : Type;
  headers_new : HeaderMap;
  (** [HeaderMap::get_all]: the values of a name, in order. *)
  headers_get_all : HeaderMap -> str -> list str;
  headers_remove : str -> HeaderMap -> HeaderMap;
  (** [HeaderMap::insert]: replaces every value the name had. *)
  headers_insert : str -> str -> HeaderMap -> HeaderMap;
  (** [HeaderName::from_bytes]. *)
  name_of_bytes : str -> option str;
  (** [HeaderValue::to_str] and [HeaderValue::from_str]. *)
  value_to_str : str -> option str;
  value_of_str : str -> option str;
  (** [str::parse::<Authority>], [Authority::host], [Authority::port_u16]. *)
  authority_of_str : str -> option str;
  authority_host : str -> str;
  authority_port : str -> option Z;
}.

(** [HeaderMap::get]: the first value. *)
Definition headers_get `{HttpLib} (h : HeaderMap) (name : str) : option str :=
  head (headers_get_all h name).

Definition headers_contains `{HttpLib} (h : HeaderMap) (name : str) : bool :=
  negb (bool_decide (headers_get_all h name = [])).

(** [rsplit('@').next()]: what follows the last [@]. *)
Definition after_userinfo (a : str) : str := default [] (last (split_on "@"%char a)).

(** The visible ASCII characters and the tab. *)
Definition is_value_char (c : ascii) : bool :=
  ((32 <=? byte_val c) && (byte_val c <? 127)) || (byte_val c =? 9).

Class HttpLaws (L : HttpLib) : Prop := {
  get_all_new n : headers_get_all headers_new n = [];
  get_all_remove n m h :
    headers_get_all (headers_remove n h) m = if decide (m = n) then [] else headers_get_all h m;
  get_all_insert n m v h :
    headers_get_all (headers_insert n v h) m =
      if decide (m = n) then [v] else headers_get_all h m;
  value_to_str_same v s : value_to_str v = Some s -> s = v;
  value_of_str_same s v : value_of_str s = Some v -> v = s;
  (** Visible ASCII is what [to_str] yields and what a value may be. *)
  value_to_str_visible v s : value_to_str v = Some s -> forallb is_value_char s = true;
  value_to_visible v : forallb is_value_char v = true -> value_to_str v = Some v;
  value_of_visible s : forallb is_value_char s = true -> value_of_str s = Some s;
  authority_of_str_same s a : authority_of_str s = Some a -> a = s;
  (** [authority = [ userinfo "@" ] host [ ":" port ]]. *)
  authority_userinfo a b :
    authority_of_str (after_userinfo a) = Some b -> authority_host b = authority_host a;
}.

(** ** A request and a response *)

(** The head of a request ([request::Parts]). *)
Record Parts `{HttpLib} := mkParts {
  rq_method : Method;
  rq_uri : Uri;
  rq_version : Version;
  rq_headers : HeaderMap;
}.

Section Heads.
Context `{HttpLaws}.

Lemma headers_get_insert n m v h :
  headers_get (headers_insert n v h) m = if decide (m = n) then Some v else headers_get h m.
Proof using Type*. unfold headers_get. rewrite get_all_insert. by case_decide. Qed.

Lemma headers_get_remove n m h :
  headers_get (headers_remove n h) m = if decide (m = n) then None else headers_get h m.
Proof using Type*. unfold headers_get. rewrite get_all_remove. by case_decide. Qed.

Lemma headers_contains_get h n : headers_contains h n = negb (is_none (headers_get h n)).
Proof. unfold headers_contains, headers_get. by destruct (headers_get_all h n). Qed.

Lemma get_all_remove_all names h n :
  headers_get_all (foldl (fun h name => headers_remove name h) h names) n =
    if decide (n ∈ names) then [] else headers_get_all h n.
Proof using Type*.
  revert h. induction names as [|m names IH]; intros h; cbn [foldl].
  { case_decide; [set_solver|done]. }
  rewrite IH, get_all_remove. repeat case_decide; set_solver.
Qed.
End Heads.

(** ** An instance *)

Definition is_token_char (c : ascii) : bool :=
  is_ascii_alphanumeric c || contains_char c (lit "!#$%&'*+-.^_`|~").

Definition checked (ok : str -> bool) (s : str) : option str := if ok s then Some s else None.

(** The host of [host[:port]]: a bracketed literal, or what is before the
    colon. *)
Definition host_part (s : str) : str :=
  if starts_with (lit "[") s
  then match split_once "]"%char s with Some (l, _) => l ++ lit "]" | None => s end
  else match split_once ":"%char s with Some (h, _) => h | None => s end.

Definition port_part (s : str) : option Z :=
  let after := drop (length (host_part s)) s in
  strip_prefix (lit ":") after ≫= parse_unsigned u16_max.

#[export] Instance assoc_http : HttpLib := {
  HeaderMap := list (str * str);
  headers_new := [];
  headers_get_all h n := (keep (fun nv => str_eqb nv.1 n) h).*2;
  headers_remove n h := keep (fun nv => negb (str_eqb nv.1 n)) h;
  headers_insert n v h := keep (fun nv => negb (str_eqb nv.1 n)) h ++ [(n, v)];
  name_of_bytes s :=
    to_ascii_lowercase <$> checked (fun s => forallb is_token_char s && negb (bool_decide (s = []))) s;
  value_to_str := checked (forallb is_value_char);
  value_of_str := checked (forallb is_value_char);
  authority_of_str := checked (fun s => negb (contains_char "/"%char s) && negb (bool_decide (s = [])));
  authority_host a := host_part (after_userinfo a);
  authority_port a := port_part (after_userinfo a);
}.

Lemma split_on_free c s : c ∉ s -> split_on c s = [s].
Proof.
  induction s as [|d s IH]; intros Hc; [done|]. simpl. apply not_elem_of_cons in Hc as [Hd Hs].
  rewrite bool_decide_false by done. by rewrite IH.
Qed.

Lemma split_on_piece_free c s : Forall (fun p => c ∉ p) (split_on c s).
Proof.
  induction s as [|d s IH]; simpl; [repeat constructor; set_solver|]. case_bool_decide.
  - constructor; [set_solver|done].
  - destruct (split_on c s) as [|p ps]; [repeat constructor; set_solver|].
    inversion_clear IH. constructor; [set_solver|done].
Qed.

Lemma after_userinfo_idem a : after_userinfo (after_userinfo a) = after_userinfo a.
Proof.
  unfold after_userinfo at 1. rewrite split_on_free; [done|]. unfold after_userinfo.
  destruct (last (split_on "@"%char a)) as [p|] eqn:E; [|set_solver].
  apply last_Some_elem_of in E. simpl.
  pose proof (split_on_piece_free "@"%char a) as F. rewrite Forall_forall in F. by apply F.
Qed.

Lemma checked_Some ok s v : checked ok s = Some v <-> ok s = true /\ v = s.
Proof. unfold checked. destruct (ok s); naive_solver. Qed.

#[export] Instance assoc_http_laws : HttpLaws assoc_http.
Proof.
  assert (Hother : forall n m (h : list (str * str)), m <> n ->
    keep (fun nv => str_eqb nv.1 m) (keep (fun nv => negb (str_eqb nv.1 n)) h) =
    keep (fun nv => str_eqb nv.1 m) h).
  { intros n m h Hne. rewrite keep_keep. apply keep_all. intros [k v] [_ Hk]%elem_of_keep.
    apply str_eqb_eq in Hk. simpl in *. subst. by rewrite str_eqb_neq. }
  assert (Hself : forall n (h : list (str * str)),
    keep (fun nv => str_eqb nv.1 n) (keep (fun nv => negb (str_eqb nv.1 n)) h) = []).
  { intros n h. destruct (keep _ _) as [|x l] eqn:E; [done|]. exfalso.
    assert (x ∈ x :: l) as Hx by constructor. rewrite <-E in Hx.
    apply elem_of_keep in Hx as [[_ H1]%elem_of_keep H2]. by rewrite H2 in H1. }
  split; simpl; try done.
  - intros n m h. case_decide as Hd; [subst; by rewrite Hself|by rewrite Hother].
  - intros n m v h. rewrite keep_app, fmap_app. case_decide as Hd; simpl.
    + subst. by rewrite Hself, str_eqb_refl.
    + rewrite Hother, str_eqb_neq by done. by rewrite app_nil_r.
  - intros v s H. by apply checked_Some in H as [_ ->].
  - intros v s H. by apply checked_Some in H as [_ ->].
  - intros v s H. by apply checked_Some in H as [H ->].
  - intros v H. by apply checked_Some.
  - intros s H. by apply checked_Some.
  - intros s a H. by apply checked_Some in H as [_ ->].
  - intros a b H. apply checked_Some in H as [_ ->]. by rewrite after_userinfo_idem.
Qed.
