(* ===== verification/Server.v ===== *)
(** * Serving a connection: [lib/http/src/server.rs] and [server/activity.rs]

    The wire protocols are hyper's. Modelled is what is decided around them:
    which requests are in flight on a connection ([ConnActivity]), what is
    due ([verdict]), and the loop of [serve] that reacts to the connection,
    to the drain signal and to its watchdog. What hyper, the handler and the
    caller do arrives as events, each at a time; HTTP/2 streams are tasks of
    their own, so the reading of the clock and the two writes with which a
    request ends are events of their own, in any interleaving, and the loop
    may see the writes, which are relaxed, in either order. Times are
    nanoseconds on one clock. *)

From S2P Require Import Prelude Str Http Causes.

(** ** The options *)

Record ServerOptions := mkServerOptions {
  so_header_timeout : Z;
  so_idle_timeout : Z;
  so_keep_alive_timeout : Z;
  so_drain_idle_grace : Z;
  so_max_header_bytes : Z;
  so_max_concurrent_streams : Z;
}.

Definition CLOSE_GRACE : Z := from_secs 5.
Definition SERVER_MIN_HEADER_BYTES : Z := 8192.

Inductive InvalidOptions := ZeroDuration (name : str) | HeaderBytesBelow (bytes : Z) | NoStreams.

Definition options_validate (o : ServerOptions) : result unit InvalidOptions :=
  let durations :=
    [(lit "header_timeout", so_header_timeout o); (lit "idle_timeout", so_idle_timeout o);
     (lit "keep_alive_timeout", so_keep_alive_timeout o);
     (lit "drain_idle_grace", so_drain_idle_grace o)] in
  match find_first (fun nd => nd.2 =? 0) durations with
  | Some (name, _) => Err (ZeroDuration name)
  | None =>
      if so_max_header_bytes o <? SERVER_MIN_HEADER_BYTES
      then Err (HeaderBytesBelow (so_max_header_bytes o))
      else if so_max_concurrent_streams o =? 0 then Err NoStreams
      else Ok ()
  end.

(** What hyper is told ([http_builder]). *)
Record HyperSettings := mkHyperSettings {
  hs_h1_header_read_timeout : Z;
  hs_h1_max_buf_size : Z;
  hs_h2_keep_alive_interval : option Z;
  hs_h2_keep_alive_timeout : Z;
  hs_h2_max_concurrent_streams : Z;
  hs_h2_max_header_list_size : Z;
}.

Definition http_builder (o : ServerOptions) : HyperSettings :=
  mkHyperSettings (so_idle_timeout o) (so_max_header_bytes o) (Some (so_idle_timeout o))
    (so_keep_alive_timeout o) (so_max_concurrent_streams o)
    (if so_max_header_bytes o <=? u32_max then so_max_header_bytes o else u32_max).

(** ** Request activity: [activity.rs] *)

Inductive Verdict := HeaderTimeoutDue | IdleTimeoutDue | CheckAgainAt (at_ : Z).

Record ConnActivity := mkConnActivity {
  ac_accepted_at : Z;
  ac_header_timeout : Z;
  ac_idle_timeout : Z;
  ac_requests : Z;
  ac_in_flight : Z;
  ac_idle_since_ms : Z;
}.

Definition activity_new (accepted_at header_timeout idle_timeout : Z) : ConnActivity :=
  mkConnActivity accepted_at header_timeout idle_timeout 0 0 0.

Definition begin_request (a : ConnActivity) : ConnActivity :=
  mkConnActivity (ac_accepted_at a) (ac_header_timeout a) (ac_idle_timeout a)
    (wrap64 (ac_requests a + 1)) (wrap64 (ac_in_flight a + 1)) (ac_idle_since_ms a).

Definition has_request_in_flight (a : ConnActivity) : bool := 0 <? ac_in_flight a.

Definition verdict (now : Z) (a : ConnActivity) : Verdict :=
  let at_most deadline :=
    if (now <? deadline) && (ac_requests a =? 0)
    then CheckAgainAt (Z.min deadline (now + ac_idle_timeout a))
    else if now <? deadline then CheckAgainAt deadline
    else if ac_requests a =? 0 then HeaderTimeoutDue
    else IdleTimeoutDue in
  if ac_requests a =? 0 then at_most (ac_accepted_at a + ac_header_timeout a)
  else if has_request_in_flight a then CheckAgainAt (now + ac_idle_timeout a)
  else at_most (ac_accepted_at a + from_millis (ac_idle_since_ms a) + ac_idle_timeout a).

(** [RequestGuard::drop]: the idle start is read, and stored, and the request
    is no longer in flight. The two writes are relaxed, of two cells: which
    of them the loop sees first is open. *)
Definition guard_reads (now : Z) (a : ConnActivity) : Z :=
  let millis := as_millis (saturating_duration_since now (ac_accepted_at a)) in
  if millis <=? u64_max then millis else u64_max.

Definition guard_stores (idle_since : Z) (a : ConnActivity) : ConnActivity :=
  mkConnActivity (ac_accepted_at a) (ac_header_timeout a) (ac_idle_timeout a) (ac_requests a)
    (ac_in_flight a) idle_since.

Definition guard_decrements (a : ConnActivity) : ConnActivity :=
  mkConnActivity (ac_accepted_at a) (ac_header_timeout a) (ac_idle_timeout a) (ac_requests a)
    (wrap64 (ac_in_flight a - 1)) (ac_idle_since_ms a).

(** ** The loop *)

Inductive CloseReason := ClosedByClient | ClosedForDrain | IdleTimeout | HeaderTimeout | ClientAbort |
  ClientUnresponsive | ProtocolError | CloseError.

#[export] Instance CloseReason_eq_dec : EqDecision CloseReason.
Proof. solve_decision. Defined.

(** How a connection ended; the error stands for its text. *)
Record Closed := mkClosed {
  cl_reason : CloseReason;
  cl_requests : Z;
  cl_error : option Causes;
}.

(** A subscriber's view of the drain channel ([watch::Receiver]). *)
Record DrainSignal := mkDrainSignal {
  dr_value : bool;
  dr_unseen : bool;
  dr_sender_gone : bool;
}.

Definition is_draining (d : DrainSignal) : bool := dr_sender_gone d || dr_value d.

(** [drain.changed()]: at once for an unseen value; an error when the sender
    is gone; otherwise it waits ([None]). *)
Definition drain_changed (d : DrainSignal) : option (DrainSignal * bool) :=
  if dr_unseen d then Some (mkDrainSignal (dr_value d) false (dr_sender_gone d), true)
  else if dr_sender_gone d then Some (d, false)
  else None.

(** A guard being dropped: what it read, and which of its writes the loop has
    seen. *)
Record GuardDrop := mkGuardDrop { gd_idle_since : Z; gd_stored : bool; gd_decremented : bool }.

Record Serving := mkServing {
  sv_activity : ConnActivity;
  sv_told_to_close : bool;
  sv_http2 : bool;
  sv_drain : DrainSignal;
  sv_watchdog : Z;
  sv_shut_down_for : option CloseReason;
  sv_draining : bool;
  sv_leave_by : option Z;
  sv_guards : list GuardDrop;
}.

Definition put_activity (a : ConnActivity) (s : Serving) : Serving :=
  mkServing a (sv_told_to_close s) (sv_http2 s) (sv_drain s) (sv_watchdog s) (sv_shut_down_for s)
    (sv_draining s) (sv_leave_by s) (sv_guards s).

Definition put_drain (d : DrainSignal) (s : Serving) : Serving :=
  mkServing (sv_activity s) (sv_told_to_close s) (sv_http2 s) d (sv_watchdog s) (sv_shut_down_for s)
    (sv_draining s) (sv_leave_by s) (sv_guards s).

(** [graceful_shutdown], and why. *)
Definition shut_down (why : CloseReason) (s : Serving) : Serving :=
  mkServing (sv_activity s) (sv_told_to_close s) (sv_http2 s) (sv_drain s) (sv_watchdog s) (Some why)
    (sv_draining s) (sv_leave_by s) (sv_guards s).

Definition put_watchdog (at_ : Z) (s : Serving) : Serving :=
  mkServing (sv_activity s) (sv_told_to_close s) (sv_http2 s) (sv_drain s) at_ (sv_shut_down_for s)
    (sv_draining s) (sv_leave_by s) (sv_guards s).

Definition put_guards (guards : list GuardDrop) (s : Serving) : Serving :=
  mkServing (sv_activity s) (sv_told_to_close s) (sv_http2 s) (sv_drain s) (sv_watchdog s) (sv_shut_down_for s)
    (sv_draining s) (sv_leave_by s) guards.

Definition is_http1 (v : Version) : bool :=
  match v with HTTP_09 | HTTP_10 | HTTP_11 => true | HTTP_2 | HTTP_3 => false end.

(** What [serve] sets up before its loop. *)
Definition serve_start (o : ServerOptions) (now : Z) (d : DrainSignal) : Serving :=
  mkServing (activity_new now (so_header_timeout o) (so_idle_timeout o)) false false
    (mkDrainSignal (dr_value d) true (dr_sender_gone d))
    (now + Z.min (so_header_timeout o) (so_idle_timeout o)) None false None [].

Definition is_cancelled (e : Causes) : bool :=
  match e with CauseIo io :: _ => bool_decide (io_kind io = IoInterrupted) | _ => false end.

(** The first [io::Error] of the chain decides. *)
Fixpoint io_close_reason (e : Causes) : CloseReason :=
  match e with
  | [] => CloseError
  | CauseIo io :: _ =>
      match io_kind io with
      | IoConnectionReset | IoConnectionAborted | IoBrokenPipe | IoUnexpectedEof => ClientAbort
      | IoTimedOut => ClientUnresponsive
      | _ => CloseError
      end
  | _ :: e => io_close_reason e
  end.

Definition error_close_reason (e : Causes) (http2 : bool) : CloseReason :=
  match e with
  | CauseHyper h :: _ =>
      if hy_timeout h then (if http2 then ClientUnresponsive else IdleTimeout)
      else if hy_parse h || hy_parse_too_large h then ProtocolError
      else if hy_incomplete_message h then ClientAbort
      else io_close_reason e
  | _ => io_close_reason e
  end.

(** ** The arms of the [select!] *)

Definition connection_ended (r : result unit Causes) (s : Serving) : Closed :=
  let requests := ac_requests (sv_activity s) in
  match r with
  | Ok _ =>
      if sv_told_to_close s then mkClosed ClosedForDrain requests None
      else mkClosed (unwrap_or ClosedByClient (sv_shut_down_for s)) requests None
  | Err e =>
      match sv_shut_down_for s with
      | Some reason =>
          if is_cancelled e then mkClosed reason requests None
          else mkClosed (error_close_reason e (sv_http2 s)) requests (Some e)
      | None => mkClosed (error_close_reason e (sv_http2 s)) requests (Some e)
      end
  end.

Definition drain_arm (o : ServerOptions) (now : Z) (s : Serving) : option Serving :=
  if sv_draining s then None else
  match drain_changed (sv_drain s) with
  | None => None
  | Some (d, changed) =>
      let draining := negb changed || dr_value d in
      let s := mkServing (sv_activity s) (sv_told_to_close s) (sv_http2 s) d (sv_watchdog s)
                 (sv_shut_down_for s) draining (sv_leave_by s) (sv_guards s) in
      if draining && is_none (sv_shut_down_for s) then
        if has_request_in_flight (sv_activity s) then Some (shut_down ClosedForDrain s)
        else
          let deadline := now + so_drain_idle_grace o in
          Some (mkServing (sv_activity s) (sv_told_to_close s) (sv_http2 s) (sv_drain s)
                  (if deadline <? sv_watchdog s then deadline else sv_watchdog s)
                  (sv_shut_down_for s) (sv_draining s) (Some deadline) (sv_guards s))
      else Some s
  end.

Definition watchdog_arm (now : Z) (s : Serving) : Serving + Closed :=
  let s := if is_none (sv_shut_down_for s) && is_some_and (fun d => d <=? now) (sv_leave_by s)
           then shut_down ClosedForDrain s else s in
  let reset at_ s :=
    let at_ := match sv_leave_by s with
               | Some d => if is_none (sv_shut_down_for s) then Z.min at_ d else at_
               | None => at_
               end in
    inl (put_watchdog at_ s) in
  let requests := ac_requests (sv_activity s) in
  match verdict now (sv_activity s) with
  | CheckAgainAt at_ => reset at_ s
  | IdleTimeoutDue =>
      if is_none (sv_shut_down_for s) then reset (now + CLOSE_GRACE) (shut_down IdleTimeout s)
      else inr (mkClosed IdleTimeout requests None)
  | HeaderTimeoutDue => inr (mkClosed HeaderTimeout requests None)
  end.

(** ** Everything that happens to a connection *)

Inductive ServerEvent :=
| RequestArrives (v : Version)
| HandlerAnswers (v : Version)
| GuardReads
| GuardStores (k : nat)
| GuardDecrements (k : nat)
| DrainSends (value : bool)
| DrainSenderDrops
| ConnectionEnds (r : result unit Causes)
| DrainChanges
| WatchdogFires.

Definition serve_event (o : ServerOptions) (now : Z) (ev : ServerEvent) (s : Serving) :
    option (Serving + Closed) :=
  match ev with
  | RequestArrives v =>
      Some (inl (mkServing (begin_request (sv_activity s)) (sv_told_to_close s)
                   (sv_http2 s || negb (is_http1 v)) (sv_drain s) (sv_watchdog s)
                   (sv_shut_down_for s) (sv_draining s) (sv_leave_by s) (sv_guards s)))
  | HandlerAnswers v =>
      Some (inl (mkServing (sv_activity s)
                   (sv_told_to_close s || (is_http1 v && is_draining (sv_drain s))) (sv_http2 s)
                   (sv_drain s) (sv_watchdog s) (sv_shut_down_for s) (sv_draining s) (sv_leave_by s)
                   (sv_guards s)))
  | GuardReads => Some (inl (put_guards (sv_guards s ++ [mkGuardDrop (guard_reads now (sv_activity s)) false false]) s))
  | GuardStores k =>
      match sv_guards s !! k with
      | Some (mkGuardDrop idle_since false decremented) =>
          Some (inl (put_guards (<[k := mkGuardDrop idle_since true decremented]> (sv_guards s))
                       (put_activity (guard_stores idle_since (sv_activity s)) s)))
      | _ => None
      end
  | GuardDecrements k =>
      match sv_guards s !! k with
      | Some (mkGuardDrop idle_since stored false) =>
          Some (inl (put_guards (<[k := mkGuardDrop idle_since stored true]> (sv_guards s))
                       (put_activity (guard_decrements (sv_activity s)) s)))
      | _ => None
      end
  | DrainSends value =>
      if dr_sender_gone (sv_drain s) then None
      else Some (inl (put_drain (mkDrainSignal value true false) s))
  | DrainSenderDrops =>
      Some (inl (put_drain (mkDrainSignal (dr_value (sv_drain s)) (dr_unseen (sv_drain s)) true) s))
  | ConnectionEnds r => Some (inr (connection_ended r s))
  | DrainChanges => inl <$> drain_arm o now s
  | WatchdogFires => if sv_watchdog s <=? now then Some (watchdog_arm now s) else None
  end.

(** The headers of a response as it is sent. *)
Definition served_headers `{HttpLib} (v : Version) (d : DrainSignal) (h : HeaderMap) : HeaderMap :=
  if is_http1 v && is_draining d then headers_insert CONNECTION (lit "close") h else h.

(** [serve] with options that cannot be served with. *)
Definition serve_invalid (o : ServerOptions) : option InvalidOptions :=
  match options_validate o with Ok _ => None | Err e => Some e end.

(** ** Every history of a connection

    hyper calls the service, which begins a request, from the connection the
    loop polls; a request's guard is dropped by whichever task held its
    response body. [reach o t0 d now l s]: a connection served from [t0] on
    with the drain channel as in [d] can be in state [s] at [now]. The ledger
    [l] counts the requests begun and, of those, the ones the loop has seen
    to be no longer in flight; it has when each guard read the clock, and the
    reading of the store that was last seen, or the start before there is
    one. *)

Record Ledger := mkLedger {
  lg_begun : Z;
  lg_reads : list Z;
  lg_ended : Z;
  lg_since : Z;
  lg_drained : bool;
}.

Definition ledger_new (now : Z) (d : DrainSignal) : Ledger := mkLedger 0 [] 0 now (is_draining d).

(** A guard is dropped once, for a request that began. *)
Definition enabled (ev : ServerEvent) (l : Ledger) : Prop :=
  match ev with
  | GuardReads => Z.of_nat (length (lg_reads l)) < lg_begun l
  | _ => True
  end.

Definition note (now : Z) (ev : ServerEvent) (l : Ledger) : Ledger :=
  match ev with
  | RequestArrives _ => mkLedger (lg_begun l + 1) (lg_reads l) (lg_ended l) (lg_since l) (lg_drained l)
  | GuardReads => mkLedger (lg_begun l) (lg_reads l ++ [now]) (lg_ended l) (lg_since l) (lg_drained l)
  | GuardStores k => mkLedger (lg_begun l) (lg_reads l) (lg_ended l) (default (lg_since l) (lg_reads l !! k)) (lg_drained l)
  | GuardDecrements _ => mkLedger (lg_begun l) (lg_reads l) (lg_ended l + 1) (lg_since l) (lg_drained l)
  | DrainSends v => mkLedger (lg_begun l) (lg_reads l) (lg_ended l) (lg_since l) (lg_drained l || v)
  | DrainSenderDrops => mkLedger (lg_begun l) (lg_reads l) (lg_ended l) (lg_since l) true
  | _ => l
  end.

Inductive reach (o : ServerOptions) (t0 : Z) (d : DrainSignal) : Z -> Ledger -> Serving -> Prop :=
| reach_start : reach o t0 d t0 (ledger_new t0 d) (serve_start o t0 d)
| reach_step now now' ev l s s' :
    reach o t0 d now l s -> now <= now' -> enabled ev l ->
    serve_event o now' ev s = Some (inl s') ->
    reach o t0 d now' (note now' ev l) s'.

(** What holds of the counters, the timers and the drain at any time. *)
Record counted (o : ServerOptions) (t0 now : Z) (l : Ledger) (a : ConnActivity) : Prop := {
  cn_accepted : ac_accepted_at a = t0;
  cn_header : ac_header_timeout a = so_header_timeout o;
  cn_idle : ac_idle_timeout a = so_idle_timeout o;
  cn_requests : ac_requests a = lg_begun l;
  cn_in_flight : ac_in_flight a = lg_begun l - lg_ended l;
  cn_order : 0 <= lg_ended l <= lg_begun l;
  cn_last : t0 <= lg_since l <= now;
  cn_since : ac_idle_since_ms a = as_millis (lg_since l - t0);
}.

(** The guards being dropped, or dropped, and their readings. *)
Record dropping (t0 now : Z) (l : Ledger) (guards : list GuardDrop) : Prop := {
  dg_length : length guards = length (lg_reads l);
  dg_begun : Z.of_nat (length (lg_reads l)) <= lg_begun l;
  dg_ended : lg_ended l = count_if gd_decremented guards;
  dg_since : lg_since l = t0 \/ lg_since l ∈ lg_reads l;
  dg_read : forall k g, guards !! k = Some g -> exists t, lg_reads l !! k = Some t /\ t0 <= t <= now /\
    gd_idle_since g = as_millis (t - t0);
}.

Record timed (o : ServerOptions) (t0 now : Z) (l : Ledger) (s : Serving) : Prop := {
  tm_first : lg_begun l = 0 -> sv_watchdog s <= t0 + so_header_timeout o;
  tm_open : sv_shut_down_for s = None -> sv_watchdog s <= now + so_idle_timeout o;
  tm_any : sv_watchdog s <= now + Z.max (so_idle_timeout o) CLOSE_GRACE;
  tm_leave : sv_shut_down_for s = None -> forall at_, sv_leave_by s = Some at_ ->
    sv_watchdog s <= at_ /\ at_ <= now + so_drain_idle_grace o;
  tm_draining : sv_shut_down_for s = None -> (sv_draining s = true <-> sv_leave_by s <> None);
  tm_draining_seen : sv_draining s = true -> lg_drained l = true;
  tm_why : forall why, sv_shut_down_for s = Some why ->
    (why = ClosedForDrain /\ lg_drained l = true) \/ (why = IdleTimeout /\ 0 < lg_begun l);
  tm_told : sv_told_to_close s = true -> lg_drained l = true;
  tm_signal : is_draining (sv_drain s) = true -> lg_drained l = true;
  tm_seen : dr_value (sv_drain s) = true -> dr_unseen (sv_drain s) = false -> sv_draining s = true;
}.

Definition sane (o : ServerOptions) : Prop :=
  0 < so_header_timeout o /\ 0 < so_idle_timeout o /\ 0 < so_drain_idle_grace o.

(** [Serving] a connection stays within the widths of its counters. *)
Definition within (t0 now : Z) (l : Ledger) : Prop :=
  lg_begun l <= u64_max /\ as_millis (now - t0) <= u64_max.

Lemma as_millis_mono a b : a <= b -> as_millis a <= as_millis b.
Proof. intros H. apply Z.div_le_mono; [done|lia]. Qed.

Lemma as_millis_bounds d : d - NANOS_PER_MILLI < from_millis (as_millis d) <= d.
Proof.
  unfold from_millis, as_millis, NANOS_PER_MILLI.
  pose proof (Z.div_mod d 1000000). pose proof (Z.mod_pos_bound d 1000000). lia.
Qed.

Lemma note_begun now ev l : lg_begun l <= lg_begun (note now ev l).
Proof. destruct ev; simpl; lia. Qed.

Lemma within_before t0 now now' ev l :
  now <= now' -> within t0 now' (note now' ev l) -> within t0 now l.
Proof.
  intros Hle [H1 H2]. pose proof (note_begun now' ev l).
  pose proof (as_millis_mono (now - t0) (now' - t0)). split; lia.
Qed.

Section Histories.
Context (o : ServerOptions) (t0 : Z) (d : DrainSignal).
Hypothesis Hsane : sane o.

Lemma dropping_later now now' l guards : now <= now' -> dropping t0 now l guards -> dropping t0 now' l guards.
Proof.
  intros Hle []. constructor; try done. intros k g Hg. destruct (dg_read0 k g Hg) as (t & ? & ? & ?).
  exists t. split_and!; done || lia.
Qed.

(** What leaves the guards alone. *)
Lemma dropping_same now l l' guards :
  lg_reads l' = lg_reads l -> lg_ended l' = lg_ended l -> lg_since l' = lg_since l -> lg_begun l <= lg_begun l' ->
  dropping t0 now l guards -> dropping t0 now l' guards.
Proof. intros E1 E2 E3 Hb []. constructor; rewrite ?E1, ?E2, ?E3; try done. lia. Qed.

Lemma dropping_step now now' ev l s s' :
  counted o t0 now l (sv_activity s) -> dropping t0 now l (sv_guards s) -> now <= now' -> enabled ev l ->
  within t0 now' (note now' ev l) ->
  serve_event o now' ev s = Some (inl s') -> dropping t0 now' (note now' ev l) (sv_guards s').
Proof using Hsane.
  intros Hc Hd Hle Hen [_ Hw] Hev. apply (dropping_later now now') in Hd; [|done]. pose proof (cn_last _ _ _ _ _ Hc).
  assert (Hsame : forall l', lg_reads l' = lg_reads l -> lg_ended l' = lg_ended l -> lg_since l' = lg_since l ->
    lg_begun l <= lg_begun l' -> sv_guards s' = sv_guards s -> dropping t0 now' l' (sv_guards s')).
  { intros l' E1 E2 E3 Hb ->. by eapply dropping_same. }
  destruct ev as [v|v| |k|k|v| |r| |]; simpl in Hev, Hen; try discriminate.
  - injection Hev as <-. apply Hsame; done || (simpl; lia).
  - injection Hev as <-. apply Hsame; done || (simpl; lia).
  - injection Hev as <-. destruct Hd. constructor; simpl; rewrite ?length_app; simpl; try lia.
    + rewrite count_if_app. unfold count_if at 2. simpl. lia.
    + destruct dg_since0 as [E|E]; [by left|right; set_solver].
    + intros k g [Hg|[Hge Hg]]%lookup_app_Some.
      * destruct (dg_read0 k g Hg) as (t & Ht & ? & ?). exists t. split_and!; try done; try lia. by apply lookup_app_l_Some.
      * apply list_lookup_singleton_Some in Hg as [Ek <-]. exists now'. rewrite lookup_app_r by lia.
        rewrite dg_length0 in Hge, Ek. replace (k - length (lg_reads l))%nat with 0%nat by lia. split_and!; [done|lia..|].
        simpl. unfold guard_reads, saturating_duration_since. rewrite (cn_accepted _ _ _ _ _ Hc), Z.max_r by lia.
        case_if; [done|lia].
  - destruct (sv_guards s !! k) as [[i [] dec]|] eqn:Hk; try done. injection Hev as <-.
    destruct Hd. destruct (dg_read0 _ _ Hk) as (t & Ht & Hrange & Ei). constructor; simpl; rewrite ?length_insert; try done.
    + by rewrite (count_if_insert _ _ _ _ _ Hk), Z.sub_add.
    + rewrite Ht. simpl. right. by eapply list_elem_of_lookup_2.
    + intros j g [[-> [<- _]]|[_ Hj]]%list_lookup_insert_Some; [by exists t|by apply dg_read0].
  - destruct (sv_guards s !! k) as [[i st []]|] eqn:Hk; try done. injection Hev as <-.
    destruct Hd. destruct (dg_read0 _ _ Hk) as (t & Ht & Hrange & Ei). constructor; simpl; rewrite ?length_insert; try done.
    + rewrite (count_if_insert _ _ _ _ _ Hk). simpl. lia.
    + intros j g [[-> [<- _]]|[_ Hj]]%list_lookup_insert_Some; [by exists t|by apply dg_read0].
  - case_if; [discriminate|]. injection Hev as <-. apply Hsame; done || (simpl; lia).
  - injection Hev as <-. apply Hsame; done || (simpl; lia).
  - apply fmap_Some in Hev as (s1 & Hdr & [= <-]). apply Hsame; try done. revert Hdr. unfold drain_arm.
    repeat case_match; intros [= <-]; done.
  - case_if; [|discriminate]. injection Hev as Hwd. apply Hsame; try done. revert Hwd.
    unfold watchdog_arm. repeat case_match; intros [= <-]; done.
Qed.

Lemma counted_step now now' ev l s s' :
  counted o t0 now l (sv_activity s) -> dropping t0 now l (sv_guards s) -> now <= now' -> enabled ev l ->
  within t0 now' (note now' ev l) ->
  serve_event o now' ev s = Some (inl s') -> counted o t0 now' (note now' ev l) (sv_activity s').
Proof.
  intros [] Hd Hle Hen [Hw1 Hw2] Hev.
  assert (Hsame : sv_activity s' = sv_activity s -> lg_begun (note now' ev l) = lg_begun l ->
    lg_ended (note now' ev l) = lg_ended l -> lg_since (note now' ev l) = lg_since l ->
    counted o t0 now' (note now' ev l) (sv_activity s')).
  { intros -> E1 E2 E3. constructor; rewrite ?E1, ?E2, ?E3; try done; lia. }
  destruct ev as [v|v| |k|k|v| |r| |]; simpl in *; try discriminate.
  - injection Hev as <-. constructor; simpl; try done; try lia; rewrite wrap64_small; lia.
  - injection Hev as <-. by apply Hsame.
  - injection Hev as <-. by apply Hsame.
  - destruct (sv_guards s !! k) as [[i [] dec]|] eqn:Hk; try done. injection Hev as <-.
    destruct (dg_read _ _ _ _ Hd _ _ Hk) as (t & Ht & Hrange & Ei). rewrite Ht. simpl in Ei.
    constructor; simpl; try done; lia.
  - destruct (sv_guards s !! k) as [[i st []]|] eqn:Hk; try done. injection Hev as <-.
    assert (lg_ended l < lg_begun l).
    { destruct Hd. rewrite dg_ended0. rewrite <-dg_length0 in dg_begun0.
      pose proof (count_if_insert gd_decremented _ _ _ (mkGuardDrop i st true) Hk) as E. simpl in E.
      pose proof (count_if_range gd_decremented (<[k:=mkGuardDrop i st true]> (sv_guards s))) as [_ Hr].
      rewrite length_insert in Hr. lia. }
    constructor; simpl; try done; try lia. rewrite wrap64_small; lia.
  - case_if; [discriminate|]. injection Hev as <-. by apply Hsame.
  - injection Hev as <-. by apply Hsame.
  - apply fmap_Some in Hev as (s1 & Hdr & [= <-]). apply Hsame; try done. revert Hdr. unfold drain_arm.
    repeat case_match; intros [= <-]; done.
  - case_if; [|discriminate]. injection Hev as Hw. apply Hsame; try done. revert Hw.
    unfold watchdog_arm. repeat case_match; intros [= <-]; done.
Qed.

(** What a verdict says, of a connection whose counters are right. *)
Lemma verdict_says now l a :
  counted o t0 now l a ->
  match verdict now a with
  | CheckAgainAt at_ =>
      now < at_ <= now + so_idle_timeout o /\ (lg_begun l = 0 -> at_ <= t0 + so_header_timeout o)
  | HeaderTimeoutDue => lg_begun l = 0 /\ t0 + so_header_timeout o <= now
  | IdleTimeoutDue =>
      0 < lg_begun l /\ lg_ended l = lg_begun l /\
      lg_since l + so_idle_timeout o - NANOS_PER_MILLI < now
  end.
Proof using Hsane.
  intros []. destruct Hsane as (? & ? & ?). unfold verdict, has_request_in_flight.
  rewrite cn_requests0, cn_in_flight0, cn_accepted0, cn_header0, cn_idle0.
  destruct (lg_begun l =? 0) eqn:Hb; bool_facts; simpl.
  - rewrite andb_true_r. case_if; lia.
  - case_if; [lia|]. rewrite cn_since0. rewrite andb_false_r.
    pose proof (as_millis_bounds (lg_since l - t0)). case_if; lia.
Qed.

(** The watchdog shuts down for the drain first, then acts on the verdict. *)
Lemma watchdog_arm_timed now l s s' :
  counted o t0 now l (sv_activity s) -> timed o t0 now l s ->
  watchdog_arm now s = inl s' -> timed o t0 now l s'.
Proof using Hsane.
  intros Hc [] Hw. pose proof (verdict_says _ _ _ Hc) as Hv. unfold watchdog_arm in Hw.
  pose proof Hsane as (? & ? & ?). assert (0 < CLOSE_GRACE) by done.
  destruct (sv_shut_down_for s) as [why|] eqn:Hs; simpl in Hw.
  - destruct (verdict now (sv_activity s)); rewrite ?Hs in Hw; try discriminate.
    injection Hw as <-. constructor; simpl; rewrite ?Hs; try done; eauto;
      destruct (sv_leave_by s); lia.
  - specialize (tm_leave0 eq_refl). specialize (tm_draining0 eq_refl).
    assert (Hdr : forall at_, sv_leave_by s = Some at_ -> lg_drained l = true).
    { intros at_ Hl. apply tm_draining_seen0, tm_draining0. by rewrite Hl. }
    destruct (sv_leave_by s) as [by_|] eqn:Hl; simpl in Hw; [destruct (by_ <=? now) eqn:Hby|];
      simpl in Hw; bool_facts; destruct (verdict now (sv_activity s));
      rewrite ?Hs, ?Hl in Hw; simpl in Hw; try discriminate; injection Hw as <-;
      constructor; simpl; rewrite ?Hs, ?Hl; try done; try lia;
      try (intros ? [= <-]); eauto; try (right; split; [done|lia]).
    intros _ ? [= <-]. specialize (tm_leave0 _ eq_refl). lia.
Qed.

Lemma timed_later now now' l s : now <= now' -> timed o t0 now l s -> timed o t0 now' l s.
Proof.
  intros Hle []. constructor; try done; try lia; [intros H; specialize (tm_open0 H); lia|].
  intros H ? Hl. specialize (tm_leave0 H _ Hl). lia.
Qed.

(** The drain arm looks at the signal, and a drain is either for later (the
    connection leaves already), for now or for the end of the grace. *)
Lemma drain_arm_cases now s s' :
  drain_arm o now s = Some s' ->
  sv_draining s = false /\
  sv_activity s' = sv_activity s /\ sv_told_to_close s' = sv_told_to_close s /\
  is_draining (sv_drain s') = is_draining (sv_drain s) /\
  (sv_draining s' = true -> is_draining (sv_drain s) = true) /\
  (dr_value (sv_drain s') = true -> sv_draining s' = true) /\
  ((sv_shut_down_for s' = sv_shut_down_for s /\ sv_watchdog s' = sv_watchdog s /\
    sv_leave_by s' = sv_leave_by s /\ (sv_draining s' = false \/ sv_shut_down_for s <> None)) \/
   (sv_shut_down_for s = None /\ sv_draining s' = true /\
    ((sv_shut_down_for s' = Some ClosedForDrain /\ sv_watchdog s' = sv_watchdog s) \/
     (sv_shut_down_for s' = None /\ sv_leave_by s' = Some (now + so_drain_idle_grace o) /\
      sv_watchdog s' = Z.min (sv_watchdog s) (now + so_drain_idle_grace o))))).
Proof.
  unfold drain_arm, drain_changed, is_draining. destruct s as [a tc h2 [v u g] w sd dr lb gs]; simpl.
  destruct dr; [discriminate|].
  assert (Hmin : forall x, (if x <? w then x else w) = Z.min w x) by (intros; case_if; lia).
  destruct u, v, g; simpl; try discriminate; destruct sd as [why|]; simpl;
    try destruct (has_request_in_flight a); intros [= <-]; simpl; rewrite ?Hmin;
    (do 6 (split; [done|]));
    solve [(left + right); repeat split; first [by left | by right]].
Qed.

Lemma drain_arm_timed now l s s' :
  timed o t0 now l s -> drain_arm o now s = Some s' -> timed o t0 now l s'.
Proof using Hsane.
  intros [] Hd. pose proof Hsane as (? & ? & ?).
  apply drain_arm_cases in Hd as (Hdr & _ & Ht & Hi & Hb & Hseen & Hcases).
  assert (Hl : sv_shut_down_for s = None -> sv_leave_by s = None).
  { intros H'. destruct (sv_leave_by s) eqn:E; [|done]. destruct (tm_draining0 H') as [_ Hx].
    rewrite Hdr in Hx. by discriminate Hx. }
  destruct Hcases as [(Hs & Hw & Hlv & Hor)|(Hs & Hdr' & [[Hs' Hw]|(Hs' & Hlv & Hw)])];
    constructor; rewrite ?Ht, ?Hi, ?Hs, ?Hs', ?Hw, ?Hlv; try done; eauto; try lia.
  - intros H'. destruct Hor as [->|]; [|done]. split; [done|]. by rewrite Hl.
  - intros ? [= <-]. eauto.
  - intros _. specialize (tm_open0 Hs). lia.
  - intros _ ? [= <-]. lia.
Qed.

(** What the client, the handler and the caller do moves no timer. *)
Lemma timed_notes now l l' s s' :
  timed o t0 now l s ->
  (lg_begun l <= lg_begun l') -> (lg_drained l = true -> lg_drained l' = true) ->
  (0 <= lg_begun l) ->
  sv_watchdog s' = sv_watchdog s -> sv_shut_down_for s' = sv_shut_down_for s ->
  sv_draining s' = sv_draining s -> sv_leave_by s' = sv_leave_by s ->
  (sv_told_to_close s' = true -> sv_told_to_close s = true \/ is_draining (sv_drain s) = true) ->
  (is_draining (sv_drain s') = true -> is_draining (sv_drain s) = true \/ lg_drained l' = true) ->
  (dr_unseen (sv_drain s') = false ->
   dr_unseen (sv_drain s) = false /\ dr_value (sv_drain s') = dr_value (sv_drain s)) ->
  timed o t0 now l' s'.
Proof.
  intros [] Hb Hd H0 Hw Hs Hdr Hl Ht Hi Hu. constructor; rewrite ?Hw, ?Hs, ?Hdr, ?Hl; try done; eauto.
  - intros H. apply tm_first0. lia.
  - intros why Hwhy. destruct (tm_why0 _ Hwhy) as [[-> H]|[-> H]]; [left|right]; split; auto; lia.
  - intros H. destruct (Ht H) as [H'|H']; eauto.
  - intros H. destruct (Hi H) as [H'|H']; eauto.
  - intros Hv Hn. destruct (Hu Hn) as [? Hv']. apply tm_seen0; congruence.
Qed.

Lemma timed_step now now' ev l s s' :
  counted o t0 now l (sv_activity s) -> timed o t0 now l s -> now <= now' -> enabled ev l ->
  serve_event o now' ev s = Some (inl s') -> timed o t0 now' (note now' ev l) s'.
Proof using Hsane.
  intros Hc Ht Hle Hen Hev. apply (timed_later now now') in Ht; [|done].
  pose proof (cn_order _ _ _ _ _ Hc).
  destruct ev as [v|v| |k|k|v| |r| |]; simpl in *; try discriminate.
  - injection Hev as <-. eapply timed_notes; eauto; simpl; auto; lia.
  - injection Hev as <-. eapply timed_notes; eauto; simpl; try lia.
    intros H1. apply orb_prop in H1 as [?|[]%andb_prop]; auto.
  - injection Hev as <-. eapply timed_notes; eauto; simpl; auto; lia.
  - destruct (sv_guards s !! k) as [[i [] dec]|]; try done. injection Hev as <-. eapply timed_notes; eauto; simpl; auto; lia.
  - destruct (sv_guards s !! k) as [[i st []]|]; try done. injection Hev as <-. eapply timed_notes; eauto; simpl; auto; lia.
  - case_if; [discriminate|]. injection Hev as <-. eapply timed_notes; eauto; simpl; auto; try lia.
    + intros ->. done.
    + unfold is_draining at 1. simpl. intros ->. right. apply orb_true_r.
  - injection Hev as <-. eapply timed_notes; eauto; simpl; auto; lia.
  - apply fmap_Some in Hev as (s1 & Hd & [= <-]). by eapply drain_arm_timed.
  - case_if; [|discriminate]. injection Hev as Hw. eapply watchdog_arm_timed; [|done..].
    destruct Hc. constructor; done || lia.
Qed.

Lemma reach_inv_all now l s :
  reach o t0 d now l s -> within t0 now l ->
  counted o t0 now l (sv_activity s) /\ dropping t0 now l (sv_guards s) /\ timed o t0 now l s.
Proof using Hsane.
  induction 1 as [|now now' ev l s s' Hr IH Hle Hen Hev]; intros Hw.
  - pose proof Hsane as (? & ? & ?). split; [|split]; constructor; simpl; done || lia || (by left) || (by rewrite Z.sub_diag).
  - destruct IH as (Hc & Hd & Ht); [by eapply within_before|].
    split; [|split]; [by eapply counted_step|by eapply dropping_step|by eapply timed_step].
Qed.

Lemma reach_inv now l s :
  reach o t0 d now l s -> within t0 now l -> counted o t0 now l (sv_activity s) /\ timed o t0 now l s.
Proof using Hsane. intros Hr Hw. by destruct (reach_inv_all _ _ _ Hr Hw) as (? & _ & ?). Qed.
End Histories.

(** ** When nothing else happens

    [watch fuel now s]: the watchdog fires on time, and nothing else does. *)
Fixpoint watch (fuel : nat) (now : Z) (s : Serving) : option (Z * Closed) :=
  match fuel with
  | O => None
  | S fuel =>
      let at_ := Z.max now (sv_watchdog s) in
      match watchdog_arm at_ s with
      | inl s => watch fuel at_ s
      | inr c => Some (at_, c)
      end
  end.

(** What the watchdog does to a connection that leaves already, to one whose
    drain is over, and to another. *)
Lemma watchdog_leaving now s why :
  sv_shut_down_for s = Some why ->
  watchdog_arm now s =
    match verdict now (sv_activity s) with
    | CheckAgainAt at_ => inl (put_watchdog at_ s)
    | IdleTimeoutDue => inr (mkClosed IdleTimeout (ac_requests (sv_activity s)) None)
    | HeaderTimeoutDue => inr (mkClosed HeaderTimeout (ac_requests (sv_activity s)) None)
    end.
Proof.
  intros Hs. unfold watchdog_arm. rewrite Hs. simpl. rewrite Hs.
  destruct (verdict _ _); [done..|]. by destruct (sv_leave_by s).
Qed.

Lemma watchdog_leave_by now s by_ :
  sv_shut_down_for s = None -> sv_leave_by s = Some by_ -> by_ <= now ->
  watchdog_arm now s = watchdog_arm now (shut_down ClosedForDrain s).
Proof.
  intros Hs Hl Hle. unfold watchdog_arm. rewrite Hs, Hl. simpl. rewrite (proj2 (Z.leb_le _ _) Hle).
  done.
Qed.

Definition or_leave (s : Serving) (at_ : Z) : Z :=
  match sv_leave_by s with Some by_ => Z.min at_ by_ | None => at_ end.

Lemma watchdog_open now s :
  sv_shut_down_for s = None -> (forall by_, sv_leave_by s = Some by_ -> now < by_) ->
  watchdog_arm now s =
    match verdict now (sv_activity s) with
    | CheckAgainAt at_ => inl (put_watchdog (or_leave s at_) s)
    | IdleTimeoutDue => inl (put_watchdog (now + CLOSE_GRACE) (shut_down IdleTimeout s))
    | HeaderTimeoutDue => inr (mkClosed HeaderTimeout (ac_requests (sv_activity s)) None)
    end.
Proof.
  intros Hs Hl. unfold watchdog_arm, or_leave. rewrite Hs. simpl.
  replace (is_some_and (fun d => d <=? now) (sv_leave_by s)) with false.
  - rewrite Hs. destruct (verdict _ _); [done| |]; by destruct (sv_leave_by s).
  - destruct (sv_leave_by s) as [by_|]; [|done]. simpl. specialize (Hl _ eq_refl).
    symmetry. apply Z.leb_gt. lia.
Qed.

Lemma watch_more n fuel now s r : watch fuel now s = Some r -> watch (fuel + n) now s = Some r.
Proof.
  revert now s. induction fuel as [|fuel IH]; intros now s; simpl; [done|].
  destruct (watchdog_arm _ s); [apply IH|done].
Qed.

Section Quiet.
Context (o : ServerOptions) (t0 : Z) (l : Ledger).
Hypothesis Hsane : sane o.

(** With every request ended, the connection is idle as of a fixed time. *)
Lemma idle_verdict now a :
  counted o t0 now l a -> lg_ended l = lg_begun l -> 0 < lg_begun l ->
  exists due, due <= now + so_idle_timeout o /\
    forall t, verdict t a = if t <? due then CheckAgainAt due else IdleTimeoutDue.
Proof.
  intros [] He Hb. exists (t0 + from_millis (ac_idle_since_ms a) + so_idle_timeout o).
  rewrite cn_since0. pose proof (as_millis_bounds (lg_since l - t0)). split; [lia|].
  intros t. unfold verdict, has_request_in_flight.
  rewrite cn_requests0, cn_in_flight0, cn_idle0, cn_accepted0, cn_since0.
  rewrite (proj2 (Z.eqb_neq _ _)), (proj2 (Z.ltb_ge _ _)), andb_false_r by lia. done.
Qed.

Definition idle_ends (fuel : nat) (now by_ : Z) (s : Serving) : Prop :=
  exists t c, watch fuel now s = Some (t, c) /\ t <= by_ /\ cl_reason c = IdleTimeout.

Section Idle.
Context (a : ConnActivity) (due : Z).
Hypothesis Hv : forall t, verdict t a = if t <? due then CheckAgainAt due else IdleTimeoutDue.

Lemma leaving_ends now s :
  sv_activity s = a -> sv_shut_down_for s <> None ->
  idle_ends 2 now (Z.max (Z.max now (sv_watchdog s)) due) s.
Proof using Hv.
  intros Ha Hs. destruct (sv_shut_down_for s) as [why|] eqn:Hwhy; [|done].
  unfold idle_ends. cbn [watch]. rewrite (watchdog_leaving _ _ _ Hwhy), Ha, Hv. case_if.
  - rewrite (watchdog_leaving _ _ why) by done. simpl. rewrite Ha, Hv, (proj2 (Z.ltb_ge _ _)) by lia.
    eexists _, _. split_and!; [done|lia|done].
  - eexists _, _. split_and!; [done|lia|done].
Qed.

Lemma open_fires t by_ s :
  sv_activity s = a -> sv_shut_down_for s = None -> t <= by_ -> due <= by_ ->
  match watchdog_arm t s with
  | inr c => cl_reason c = IdleTimeout
  | inl s' =>
      sv_activity s' = a /\
      ((sv_shut_down_for s' <> None /\ sv_watchdog s' <= by_ + CLOSE_GRACE) \/
       (s' = put_watchdog (or_leave s due) s /\ t < or_leave s due))
  end.
Proof using Hv.
  intros Ha Hs Ht Hdue. assert (0 < CLOSE_GRACE) by done.
  destruct (sv_leave_by s) as [lb|] eqn:Hl; [destruct (Z.le_gt_cases lb t)|].
  - rewrite (watchdog_leave_by _ _ lb), (watchdog_leaving _ _ ClosedForDrain) by done.
    simpl. rewrite Ha, Hv. case_if; [|done]. split; [done|left; split; [done|simpl; lia]].
  - rewrite watchdog_open, Ha, Hv by (congruence || (intros ? [= <-]%(eq_trans (eq_sym Hl)); lia)).
    unfold or_leave. rewrite Hl. case_if; (split; [done|]); [right|left]; split; simpl; done || lia.
  - rewrite watchdog_open, Ha, Hv by congruence.
    unfold or_leave. rewrite Hl. case_if; (split; [done|]); [right|left]; split; simpl; done || lia.
Qed.

Lemma open_ends now by_ s :
  sv_activity s = a -> sv_shut_down_for s = None ->
  Z.max now (sv_watchdog s) <= by_ -> due <= by_ -> idle_ends 4 now (by_ + CLOSE_GRACE) s.
Proof using Hv.
  intros Ha Hs Hw Hdue. assert (Hgrace : 0 < CLOSE_GRACE) by done.
  assert (Hthen : forall t s', sv_activity s' = a -> sv_shut_down_for s' <> None -> t <= by_ ->
    sv_watchdog s' <= by_ + CLOSE_GRACE -> idle_ends 2 t (by_ + CLOSE_GRACE) s').
  { intros t s' Ha' Hs' ? ?. destruct (leaving_ends t s' Ha' Hs') as (t' & c & ? & ? & ?).
    exists t', c. split_and!; [done|lia|done]. }
  pose proof (open_fires _ by_ s Ha Hs Hw Hdue) as H1. unfold idle_ends. cbn [watch].
  destruct (watchdog_arm _ s) as [s1|c]; [|eexists _, _; split_and!; [done|lia|done]].
  destruct H1 as [Ha1 [[Hs1 Hw1]|[-> Hlt]]].
  { destruct (Hthen _ _ Ha1 Hs1 Hw Hw1) as (t & c & Hr & ?). exists t, c. split; [|done].
    exact (watch_more 1 2 _ _ _ Hr). }
  assert (or_leave s due <= by_) by (unfold or_leave; destruct (sv_leave_by s); lia).
  pose proof (open_fires (Z.max (Z.max now (sv_watchdog s)) (or_leave s due)) by_
    (put_watchdog (or_leave s due) s) Ha Hs ltac:(lia) Hdue) as H2.
  cbn [sv_watchdog put_watchdog].
  destruct (watchdog_arm _ _) as [s2|c]; [|eexists _, _; split_and!; [done|lia|done]].
  destruct H2 as [Ha2 [[Hs2 Hw2]|[-> Hlt2]]]; [refine (Hthen _ s2 Ha2 Hs2 _ Hw2); lia|].
  unfold or_leave in *. simpl in *. lia.
Qed.
End Idle.

(** Before the first request, the watchdog is never late for the header
    deadline, and each firing comes later than the one before. *)
Lemma header_fires t s :
  ac_requests (sv_activity s) = 0 -> 0 < ac_idle_timeout (sv_activity s) ->
  let due := ac_accepted_at (sv_activity s) + ac_header_timeout (sv_activity s) in
  match watchdog_arm t s with
  | inr c => cl_reason c = HeaderTimeout /\ due <= t
  | inl s' => sv_activity s' = sv_activity s /\ t < sv_watchdog s' <= due
  end.
Proof.
  intros Hreq Hidle due.
  assert (Hv : verdict t (sv_activity s) = if t <? due
    then CheckAgainAt (Z.min due (t + ac_idle_timeout (sv_activity s))) else HeaderTimeoutDue).
  { unfold verdict. rewrite Hreq. simpl. rewrite andb_true_r. fold due. by case_if. }
  destruct (sv_shut_down_for s) as [why|] eqn:Hs; [|destruct (sv_leave_by s) as [lb|] eqn:Hl;
    [destruct (Z.le_gt_cases lb t)|]].
  - rewrite (watchdog_leaving _ _ _ Hs), Hv. case_if; (split; [done|simpl; lia]).
  - rewrite (watchdog_leave_by _ _ lb), (watchdog_leaving _ _ ClosedForDrain) by done.
    simpl. rewrite Hv. case_if; (split; [done|simpl; lia]).
  - rewrite watchdog_open, Hv by (congruence || (intros ? [= <-]%(eq_trans (eq_sym Hl)); lia)).
    unfold or_leave. rewrite Hl. case_if; (split; [done|simpl; lia]).
  - rewrite watchdog_open, Hv by congruence.
    unfold or_leave. rewrite Hl. case_if; (split; [done|simpl; lia]).
Qed.

Lemma header_ends n now s :
  ac_requests (sv_activity s) = 0 -> 0 < ac_idle_timeout (sv_activity s) ->
  let due := ac_accepted_at (sv_activity s) + ac_header_timeout (sv_activity s) in
  sv_watchdog s <= due -> (Z.to_nat (due - Z.max now (sv_watchdog s)) <= n)%nat ->
  exists c, watch (S n) now s = Some (Z.max now due, c) /\ cl_reason c = HeaderTimeout.
Proof.
  revert now s. induction n as [|n IH]; intros now s Hreq Hidle due Hw Hn; cbn [watch];
    pose proof (header_fires (Z.max now (sv_watchdog s)) s Hreq Hidle) as Hf;
    cbv zeta in Hf; fold due in Hf; destruct (watchdog_arm _ s) as [s'|c]; try lia.
  1, 3: destruct Hf as [? ?]; exists c; split; [do 2 f_equal; lia|done].
  destruct Hf as [Ha Hlt]. destruct (IH (Z.max now (sv_watchdog s)) s') as (c & Hc & ?);
    rewrite ?Ha; fold due; try done; try lia.
  exists c. split; [|done]. cbn [watch] in Hc. rewrite Ha in Hc. fold due in Hc. rewrite Hc. do 2 f_equal; lia.
Qed.
End Quiet.

(** ** What a connection is held to *)

(** Durations are not negative; [validate] refuses the ones that are zero. *)
Definition options_typed (o : ServerOptions) : Prop :=
  0 <= so_header_timeout o /\ 0 <= so_idle_timeout o /\ 0 <= so_keep_alive_timeout o /\
  0 <= so_drain_idle_grace o.

Lemma valid_sane o : options_typed o -> options_validate o = Ok () -> sane o.
Proof.
  intros (? & ? & ? & ?). unfold options_validate, sane. simpl.
  repeat (case_if; [discriminate|]). intros _. lia.
Qed.

Lemma options_validate_ok o :
  options_validate o = Ok () <->
  so_header_timeout o <> 0 /\ so_idle_timeout o <> 0 /\ so_keep_alive_timeout o <> 0 /\
  so_drain_idle_grace o <> 0 /\ SERVER_MIN_HEADER_BYTES <= so_max_header_bytes o /\
  so_max_concurrent_streams o <> 0.
Proof.
  unfold options_validate. simpl. split.
  - repeat (case_if; [discriminate|]). intros _. lia.
  - intros. repeat (rewrite (proj2 (Z.eqb_neq _ _)) by lia).
    by rewrite (proj2 (Z.ltb_ge _ _)) by lia.
Qed.

(** The counters are right later, too. *)
Lemma counted_later o t0 now now' l a : now <= now' -> counted o t0 now l a -> counted o t0 now' l a.
Proof. intros ? []. constructor; done || lia. Qed.

(** C16: The watchdog never ends a connection with a request in flight, in
    whatever order the loop sees the writes of the guards that are dropped.
    When it closes one, every request that began is no longer in flight, the
    number reported is how many began, and either none began within the
    header timeout, or some did, the idle start last stored (that of a
    request's end, or the connection's own start while no store is seen) is at
    least the idle timeout ago, to the millisecond it is kept in, and the
    connection has been told to leave before or has now outstayed its drain.
    (hyper's own PING and header timers are not the watchdog: what they do
    reaches the loop as the connection's end.) *)
Theorem timers_spare_requests o t0 d now now' l s c :
  options_typed o -> options_validate o = Ok () ->
  reach o t0 d now l s -> now <= now' -> within t0 now l ->
  serve_event o now' WatchdogFires s = Some (inr c) ->
  lg_ended l = lg_begun l /\ cl_requests c = lg_begun l /\
  ((cl_reason c = HeaderTimeout /\ lg_begun l = 0 /\ t0 + so_header_timeout o <= now') \/
   (cl_reason c = IdleTimeout /\ 0 < lg_begun l /\
    (lg_since l = t0 \/ lg_since l ∈ lg_reads l) /\
    lg_since l + so_idle_timeout o - NANOS_PER_MILLI < now' /\
    (sv_shut_down_for s <> None \/
     exists by_, sv_leave_by s = Some by_ /\ by_ <= now' /\ lg_drained l = true))).
Proof.
  intros Hty Hval Hr Hle Hw Hev. pose proof (valid_sane _ Hty Hval) as Hs.
  destruct (reach_inv_all _ _ _ Hs _ _ _ Hr Hw) as (Hc & Hd & Ht). pose proof (dg_since _ _ _ _ Hd).
  pose proof (counted_later _ _ _ _ _ _ Hle Hc) as Hc'.
  pose proof (verdict_says _ _ Hs _ _ _ Hc') as Hv. simpl in Hev. case_if; [|done].
  injection Hev as Hev. pose proof (cn_order _ _ _ _ _ Hc). pose proof (cn_requests _ _ _ _ _ Hc).
  assert (Hleave : forall by_, sv_shut_down_for s = None -> sv_leave_by s = Some by_ ->
    lg_drained l = true).
  { intros by_ Hn Hb. apply (tm_draining_seen _ _ _ _ _ Ht), (tm_draining _ _ _ _ _ Ht Hn). congruence. }
  destruct (sv_shut_down_for s) as [why|] eqn:Hwhy.
  - rewrite (watchdog_leaving _ _ _ Hwhy) in Hev.
    destruct (verdict _ _); simplify_eq; simpl; split_and!; try lia; [left|right]; split_and!; auto; lia.
  - destruct (sv_leave_by s) as [lb|] eqn:Hl; [destruct (Z.le_gt_cases lb now')|].
    + rewrite (watchdog_leave_by _ _ lb), (watchdog_leaving _ _ ClosedForDrain) in Hev by done.
      simpl in Hev. destruct (verdict _ _); simplify_eq; simpl; split_and!; try lia; [left|right];
        split_and!; eauto 8; lia.
    + rewrite watchdog_open in Hev by (congruence || (intros ? [= <-]%(eq_trans (eq_sym Hl)); lia)).
      destruct (verdict _ _); simplify_eq; simpl; split_and!; try lia. left. split_and!; auto; lia.
    + rewrite watchdog_open in Hev by congruence.
      destruct (verdict _ _); simplify_eq; simpl; split_and!; try lia. left. split_and!; auto; lia.
Qed.

Lemma quiet_ends o t0 now l s :
  sane o -> counted o t0 now l (sv_activity s) -> timed o t0 now l s -> lg_ended l = lg_begun l ->
  (0 < lg_begun l ->
   exists t c, watch 4 now s = Some (t, c) /\ t <= now + so_idle_timeout o + CLOSE_GRACE /\
               cl_reason c = IdleTimeout) /\
  (lg_begun l = 0 ->
   exists fuel c, watch fuel now s = Some (Z.max now (t0 + so_header_timeout o), c) /\
                  cl_reason c = HeaderTimeout).
Proof.
  intros Hs Hc Ht He. pose proof Hs as (? & ? & ?). split; intros Hb.
  - destruct (idle_verdict _ _ _ _ _ Hc He Hb) as (due & Hdue & Hv).
    destruct (sv_shut_down_for s) as [why|] eqn:Hwhy.
    + destruct (leaving_ends _ due Hv now s eq_refl ltac:(congruence)) as (t & c & Hr' & ? & ?).
      exists t, c. split; [exact (watch_more 2 2 _ _ _ Hr')|].
      pose proof (tm_any _ _ _ _ _ Ht). assert (0 < CLOSE_GRACE) by done. split; [lia|done].
    + pose proof (tm_open _ _ _ _ _ Ht Hwhy).
      apply (open_ends _ due Hv now (now + so_idle_timeout o)); done || lia.
  - pose proof (tm_first _ _ _ _ _ Ht Hb). destruct Hc.
    pose proof (fun n => header_ends n now s ltac:(congruence) ltac:(congruence)) as Hend.
    cbv zeta in Hend. rewrite cn_accepted0, cn_header0 in Hend.
    destruct (Hend _ ltac:(done) (le_n _)) as (c & Hc & ?). by eexists _, c.
Qed.

(** C29: A connection with nothing in flight ends, whatever the client does
    not do: once no request is in flight and none arrives, the watchdog alone
    closes it. One that carried requests is closed for being idle, within
    the idle timeout and [CLOSE_GRACE] from now and in four firings; one that
    never sent a request at the header deadline. *)
Theorem quiet_connection_ends o t0 d now l s :
  options_typed o -> options_validate o = Ok () ->
  reach o t0 d now l s -> within t0 now l -> lg_ended l = lg_begun l ->
  (0 < lg_begun l ->
   exists t c, watch 4 now s = Some (t, c) /\ t <= now + so_idle_timeout o + CLOSE_GRACE /\
               cl_reason c = IdleTimeout) /\
  (lg_begun l = 0 ->
   exists fuel c, watch fuel now s = Some (Z.max now (t0 + so_header_timeout o), c) /\
                  cl_reason c = HeaderTimeout).
Proof.
  intros Hty Hval Hr Hw. pose proof (valid_sane _ Hty Hval) as Hs.
  destruct (reach_inv _ _ _ Hs _ _ _ Hr Hw) as [Hc Ht]. by apply quiet_ends.
Qed.

(** Nothing is due while a request is in flight. *)
Lemma verdict_spares o t0 now l a t :
  counted o t0 now l a ->
  match verdict t a with CheckAgainAt _ => True | _ => lg_ended l = lg_begun l end.
Proof.
  intros []. unfold verdict, has_request_in_flight. rewrite cn_requests0, cn_in_flight0.
  repeat case_if; lia || done.
Qed.

(** The drain arm is ready while a drain is not yet taken up. *)
Lemma drain_arm_ready o now s :
  is_draining (sv_drain s) = true -> sv_draining s = false ->
  (dr_value (sv_drain s) = true -> dr_unseen (sv_drain s) = false -> sv_draining s = true) ->
  exists s', drain_arm o now s = Some s' /\
    (dr_value (sv_drain s) = true \/ dr_unseen (sv_drain s) = false -> sv_draining s' = true) /\
    (sv_draining s' = true -> sv_shut_down_for s = None ->
     if has_request_in_flight (sv_activity s) then sv_shut_down_for s' = Some ClosedForDrain
     else sv_shut_down_for s' = None /\ sv_leave_by s' = Some (now + so_drain_idle_grace o) /\
          sv_watchdog s' <= now + so_drain_idle_grace o).
Proof.
  unfold drain_arm, drain_changed, is_draining. intros Hd Hnot Hseen. rewrite Hnot in *.
  destruct (sv_drain s) as [v u g]; simpl in *.
  destruct u, v, g; simpl in *; try discriminate; try (by discriminate Hseen);
    destruct (sv_shut_down_for s) eqn:E, (has_request_in_flight (sv_activity s)); simpl;
    eexists; (split; [done|]); simpl; split; try congruence; try (by intros [?|?]);
    intros _ _; split_and!; try done; case_if; lia.
Qed.

(** The watchdog ends nothing with a request in flight, and before the time
    to leave by it shuts nothing down for the drain. *)
Lemma watchdog_arm_leaves o t0 now l t s :
  counted o t0 now l (sv_activity s) -> sv_shut_down_for s <> Some ClosedForDrain ->
  (forall by_, sv_leave_by s = Some by_ -> t < by_) ->
  match watchdog_arm t s with
  | inl s' => sv_shut_down_for s' <> Some ClosedForDrain /\ sv_leave_by s' = sv_leave_by s
  | inr _ => lg_ended l = lg_begun l
  end.
Proof.
  intros Hc Hs Hl. pose proof (verdict_spares _ _ _ _ _ t Hc) as Hv. destruct (sv_shut_down_for s) as [why|] eqn:Hwhy.
  - rewrite (watchdog_leaving _ _ _ Hwhy). destruct (verdict _ _); [done..|]. simpl. by rewrite Hwhy.
  - rewrite watchdog_open by done. destruct (verdict _ _); [done|done|]. simpl. by rewrite Hwhy.
Qed.

Lemma watchdog_arm_spares o t0 now l t s c :
  counted o t0 now l (sv_activity s) -> watchdog_arm t s = inr c -> lg_ended l = lg_begun l.
Proof.
  intros Hc. pose proof (verdict_spares _ _ _ _ _ t Hc) as Hv. unfold watchdog_arm.
  case_if; simpl; destruct (verdict _ _); done || (case_match; done).
Qed.

(** With a request in flight, the loop ends when the connection does. *)
Lemma in_flight_kept o t0 now l t ev s c :
  counted o t0 now l (sv_activity s) -> 0 < lg_begun l - lg_ended l -> serve_event o t ev s = Some (inr c) ->
  exists r, ev = ConnectionEnds r.
Proof.
  intros Hc Hf Hev. destruct ev as [v|v| |k|k|v| |r| |]; simpl in Hev; try done; try (repeat case_match; done).
  - eauto.
  - by destruct (drain_arm o t s).
  - case_if; [|done]. injection Hev as Hev. pose proof (watchdog_arm_spares _ _ _ _ _ _ _ Hc Hev). lia.
Qed.

(** Past the time to leave by, the watchdog asks, or ends what is idle. *)
Lemma leave_by_asks o t0 now l t by_ s :
  counted o t0 now l (sv_activity s) -> sv_shut_down_for s = None -> sv_leave_by s = Some by_ -> by_ <= t ->
  match watchdog_arm t s with
  | inl s' => sv_shut_down_for s' = Some ClosedForDrain
  | inr _ => lg_ended l = lg_begun l
  end.
Proof.
  intros Hc Hn Hl Hle. rewrite (watchdog_leave_by _ _ by_), (watchdog_leaving _ _ ClosedForDrain) by done.
  pose proof (verdict_spares _ _ _ _ _ t Hc). simpl. by destruct (verdict t _).
Qed.

(** C30: A drain asks every connection to leave, at the right time, and ends
    none with a request in flight. Once the drain is signalled the loop takes
    it up: a connection with a request in flight is shut down gracefully at
    once, and one with none is given exactly [drain_idle_grace] from then, the
    watchdog set for no later. Until that time nothing shuts it down for the
    drain, so that a request on its way is taken, and the time does not move;
    from that time on the watchdog shuts it down gracefully, or it is gone.
    With a request in flight the loop is left only when hyper says that the
    connection ended. No connection is shut down for the drain, or told to
    close, without one. *)
Theorem drain_asks_to_leave o t0 d now l s :
  options_typed o -> options_validate o = Ok () ->
  reach o t0 d now l s -> within t0 now l ->
  (is_draining (sv_drain s) = true -> sv_draining s = false ->
   exists s', serve_event o now DrainChanges s = Some (inl s') /\
     (dr_value (sv_drain s) = true \/ dr_unseen (sv_drain s) = false -> sv_draining s' = true) /\
     (sv_draining s' = true -> sv_shut_down_for s = None ->
      if 0 <? lg_begun l - lg_ended l then sv_shut_down_for s' = Some ClosedForDrain
      else sv_shut_down_for s' = None /\ sv_leave_by s' = Some (now + so_drain_idle_grace o) /\
           sv_watchdog s' <= now + so_drain_idle_grace o)) /\
  (sv_draining s = true -> sv_shut_down_for s = None ->
   exists by_, sv_leave_by s = Some by_ /\ sv_watchdog s <= by_ <= now + so_drain_idle_grace o /\
     (forall t ev s', t < by_ -> serve_event o t ev s = Some (inl s') ->
        sv_shut_down_for s' <> Some ClosedForDrain /\ sv_leave_by s' = Some by_) /\
     forall t, by_ <= t ->
       match watchdog_arm t s with
       | inl s' => sv_shut_down_for s' = Some ClosedForDrain
       | inr _ => lg_ended l = lg_begun l
       end) /\
  (forall t ev c, 0 < lg_begun l - lg_ended l -> serve_event o t ev s = Some (inr c) ->
     exists r, ev = ConnectionEnds r) /\
  (sv_shut_down_for s = Some ClosedForDrain \/ sv_told_to_close s = true -> lg_drained l = true).
Proof.
  intros Hty Hval Hr Hw. pose proof (valid_sane _ Hty Hval) as Hs.
  destruct (reach_inv _ _ _ Hs _ _ _ Hr Hw) as [Hc Ht]. split; [|split; [|split]].
  - intros Hd Hnot.
    destruct (drain_arm_ready o now s Hd Hnot (tm_seen _ _ _ _ _ Ht)) as (s' & Hs' & H1 & H2).
    exists s'. simpl. rewrite Hs'. unfold has_request_in_flight in H2.
    rewrite (cn_in_flight _ _ _ _ _ Hc) in H2. done.
  - intros Hd Hn. destruct (sv_leave_by s) as [by_|] eqn:Hl.
    2: { exfalso. by apply (tm_draining _ _ _ _ _ Ht Hn) in Hd. }
    exists by_. destruct (tm_leave _ _ _ _ _ Ht Hn _ Hl). split; [done|]. split; [done|]. split.
    + intros t ev s' Hlt Hev. destruct ev as [v|v| |k|k|v| |r| |]; simpl in Hev; try discriminate;
        try (injection Hev as <-; simpl; by rewrite Hn).
      * destruct (sv_guards s !! k) as [[? [] ?]|]; try done. injection Hev as <-. simpl. by rewrite Hn.
      * destruct (sv_guards s !! k) as [[? ? []]|]; try done. injection Hev as <-. simpl. by rewrite Hn.
      * case_if; [done|]. injection Hev as <-. simpl. by rewrite Hn.
      * unfold drain_arm in Hev. by rewrite Hd in Hev.
      * case_if; [|done]. injection Hev as Hev.
        pose proof (watchdog_arm_leaves o t0 now l t s Hc) as Hwd. rewrite Hev, Hn, Hl in Hwd.
        apply Hwd; [done|]. by intros ? [= <-].
    + intros t Hle. by eapply leave_by_asks.
  - intros t ev c. by eapply in_flight_kept.
  - intros [H|H]; [|by apply (tm_told _ _ _ _ _ Ht)].
    by destruct (tm_why _ _ _ _ _ Ht _ H) as [[_ ?]|[? _]].
Qed.

(** A response sent while the connection drains tells an HTTP/1 client to
    close it, and is otherwise the handler's. *)
Lemma served_headers_get `{HttpLaws} v d h n :
  headers_get (served_headers v d h) n =
    if is_http1 v && is_draining d && bool_decide (n = CONNECTION) then Some (lit "close")
    else headers_get h n.
Proof.
  unfold served_headers. destruct (is_http1 v && is_draining d); simpl; [|done].
  rewrite headers_get_insert. by repeat case_decide; case_bool_decide.
Qed.

(** ** Concrete histories *)

Definition enabledb (ev : ServerEvent) (l : Ledger) : bool :=
  match ev with
  | GuardReads => Z.of_nat (length (lg_reads l)) <? lg_begun l
  | _ => true
  end.

Lemma enabledb_enabled ev l : enabledb ev l = true -> enabled ev l.
Proof. destruct ev; simpl; intros H; bool_facts; done. Qed.

Fixpoint history (o : ServerOptions) (evs : list (Z * ServerEvent)) (now : Z) (l : Ledger)
    (s : Serving) : option (Z * Ledger * Serving) :=
  match evs with
  | [] => Some (now, l, s)
  | (now', ev) :: evs =>
      if (now <=? now') && enabledb ev l then
        match serve_event o now' ev s with
        | Some (inl s') => history o evs now' (note now' ev l) s'
        | _ => None
        end
      else None
  end.

Lemma history_reach o t0 d evs now l s now' l' s' :
  reach o t0 d now l s -> history o evs now l s = Some (now', l', s') -> reach o t0 d now' l' s'.
Proof.
  revert now l s. induction evs as [|[t ev] evs IH]; intros now l s Hr; simpl; [by intros [= <- <- <-]|].
  case_if; [|done]. destruct (serve_event o t ev s) as [[s1|]|] eqn:E; try done.
  bool_facts. apply IH. eapply reach_step; [done..| |done]. by apply enabledb_enabled.
Qed.

Definition example_options : ServerOptions :=
  mkServerOptions (from_secs 10) (from_secs 60) (from_secs 20) (from_secs 1) 65536 100.
Definition not_draining : DrainSignal := mkDrainSignal false false false.

(** One request, from the first to the second second; the watchdog finds the
    connection idle at 62 s. *)
Definition example_history : list (Z * ServerEvent) :=
  [(from_secs 1, RequestArrives HTTP_11); (from_secs 2, HandlerAnswers HTTP_11);
   (from_secs 2, GuardReads); (from_secs 2, GuardStores 0); (from_secs 2, GuardDecrements 0);
   (from_secs 10, WatchdogFires);
   (from_secs 62, WatchdogFires)].

Definition example_end (evs : list (Z * ServerEvent)) : Z * Ledger * Serving :=
  default (0, ledger_new 0 not_draining, serve_start example_options 0 not_draining)
    (history example_options evs 0 (ledger_new 0 not_draining)
       (serve_start example_options 0 not_draining)).

Lemma example_reach evs st :
  history example_options evs 0 (ledger_new 0 not_draining)
    (serve_start example_options 0 not_draining) = Some st ->
  reach example_options 0 not_draining st.1.1 st.1.2 st.2.
Proof. destruct st as [[now l] s]. apply history_reach. constructor. Qed.

Definition shut_down_state : Z * Ledger * Serving := Eval vm_compute in example_end example_history.
Definition idle_state : Z * Ledger * Serving :=
  Eval vm_compute in example_end (take 5 example_history).
Definition drain_history : list (Z * ServerEvent) :=
  take 5 example_history ++ [(from_secs 3, DrainSends true); (from_secs 3, DrainChanges)].
Definition drain_state : Z * Ledger * Serving := Eval vm_compute in example_end drain_history.

Lemma timers_spare_requests_witness :
  exists c, serve_event example_options (from_secs 67) WatchdogFires shut_down_state.2 = Some (inr c) /\
    cl_requests c = lg_begun shut_down_state.1.2.
Proof.
  eexists. split; [reflexivity|].
  refine (proj1 (proj2 (timers_spare_requests example_options 0 not_draining shut_down_state.1.1
    (from_secs 67) shut_down_state.1.2 shut_down_state.2 _
    ltac:(by repeat split) _ (example_reach example_history _ _) ltac:(done)
    ltac:(by split) _))); vm_compute; reflexivity.
Defined.

Lemma quiet_connection_ends_witness :
  exists t c, watch 4 (from_secs 2) idle_state.2 = Some (t, c) /\
    t <= from_secs 2 + from_secs 60 + CLOSE_GRACE /\ cl_reason c = IdleTimeout.
Proof.
  refine (proj1 (quiet_connection_ends example_options 0 not_draining idle_state.1.1
    idle_state.1.2 idle_state.2 ltac:(by repeat split) _
    (example_reach (take 5 example_history) _ _) ltac:(by split) _) _); vm_compute; reflexivity.
Defined.

Lemma drain_asks_to_leave_witness :
  exists by_, sv_leave_by drain_state.2 = Some by_ /\ by_ <= from_secs 3 + from_secs 1 /\
    forall t ev s', t < by_ -> serve_event example_options t ev drain_state.2 = Some (inl s') ->
      sv_shut_down_for s' <> Some ClosedForDrain /\ sv_leave_by s' = Some by_.
Proof.
  edestruct (proj1 (proj2 (drain_asks_to_leave example_options 0 not_draining drain_state.1.1
    drain_state.1.2 drain_state.2 ltac:(by repeat split) ltac:(vm_compute; reflexivity)
    (example_reach drain_history _ ltac:(vm_compute; reflexivity)) ltac:(by split))))
    as (by_ & Hl & [_ H] & Hu & _); [vm_compute; reflexivity..|].
  exists by_. exact (conj Hl (conj H Hu)).
Defined.

(** The loop may see a request to be no longer in flight before it sees when
    it ended: a connection whose request took long is then found idle since it
    was accepted, and shut down, where it would have had the idle timeout. *)
Example decrement_seen_first :
  let before := [(from_secs 1, RequestArrives HTTP_2); (from_secs 90, GuardReads); (from_secs 90, GuardDecrements 0);
                 (from_secs 90, WatchdogFires)] in
  let after := [(from_secs 1, RequestArrives HTTP_2); (from_secs 90, GuardReads); (from_secs 90, GuardStores 0);
                (from_secs 90, GuardDecrements 0); (from_secs 90, WatchdogFires)] in
  sv_shut_down_for (example_end before).2 = Some IdleTimeout /\
  sv_shut_down_for (example_end after).2 = None /\ sv_watchdog (example_end after).2 = from_secs 150.
Proof. vm_compute. done. Qed.
