(* ===== verification/Request.v ===== *)
(** * Requests and answers: [gfe/proxy/src/handler], its [host.rs],
    [request.rs], [failure.rs] and [respond.rs]

    Which host a request is for and whether its connection may serve it, the
    head the backend gets, and the answers written without a backend. The
    body of an answer is its text; the two random numbers of a request id
    are arguments. *)

From S2P Require Import Prelude Str Net Tls Http.
From Stdlib Require Import Ascii.

(** ** Failures of a backend: [failure.rs] *)

(** The kinds [netkit-http]'s client reports. *)
Inductive LibraryKind := LConnectTimeout | LConnectRefused | LConnectError | LTls |
  LProtocolRefused | LReset | LConnectionLimit | LOther.

Inductive FailureKind := ConnectTimeout | ConnectRefused | ConnectError | TlsFailure | Reset |
  ConnectionLimit | Timeout | OtherFailure.

#[export] Instance FailureKind_eq_dec : EqDecision FailureKind.
Proof. solve_decision. Defined.

Definition kind_as_str (k : FailureKind) : str :=
  match k with
  | ConnectTimeout => lit "connect_timeout"
  | ConnectRefused => lit "connect_refused"
  | ConnectError => lit "connect_error"
  | TlsFailure => lit "tls"
  | Reset => lit "reset"
  | ConnectionLimit => lit "connection_limit"
  | Timeout => lit "timeout"
  | OtherFailure => lit "other"
  end.

Definition kind_reason (k : FailureKind) : str :=
  match k with
  | ConnectTimeout => lit "upstream_connect_timeout"
  | ConnectRefused => lit "upstream_connect_refused"
  | ConnectError => lit "upstream_connect_error"
  | TlsFailure => lit "upstream_tls"
  | Reset => lit "upstream_reset"
  | ConnectionLimit => lit "upstream_connection_limit"
  | Timeout => lit "upstream_timeout"
  | OtherFailure => lit "upstream_error"
  end.

Definition is_the_backends (k : FailureKind) : bool := negb (bool_decide (k = ConnectionLimit)).

Definition is_retryable (k : FailureKind) : bool :=
  match k with ConnectionLimit | Timeout => false | _ => true end.

Definition classify (reported : LibraryKind) : FailureKind :=
  match reported with
  | LConnectTimeout => ConnectTimeout
  | LConnectRefused => ConnectRefused
  | LConnectError => ConnectError
  | LTls => TlsFailure
  | LProtocolRefused => OtherFailure
  | LReset => Reset
  | LConnectionLimit => ConnectionLimit
  | LOther => OtherFailure
  end.

(** ** Refusals: [respond.rs] *)

Inductive Refusal := HostConflict | HostMissing | MisdirectedRequest | NoRoute |
  UnsupportedTarget | UpgradeNotSupported | PoolNotFound | PoolFull | PoolRateLimited |
  NoHealthyUpstream | RequestBodyTimeout | UpstreamFailed (kind : FailureKind).

#[export] Instance Refusal_eq_dec : EqDecision Refusal.
Proof. solve_decision. Defined.

Definition refusal_status (r : Refusal) : Z :=
  match r with
  | HostConflict | HostMissing | UnsupportedTarget => 400
  | MisdirectedRequest => 421
  | NoRoute => 404
  | UpgradeNotSupported => 501
  | PoolNotFound => 502
  | PoolFull | NoHealthyUpstream => 503
  | PoolRateLimited => 429
  | RequestBodyTimeout => 408
  | UpstreamFailed ConnectionLimit => 503
  | UpstreamFailed Timeout => 504
  | UpstreamFailed _ => 502
  end.

Definition refusal_reason (r : Refusal) : str :=
  match r with
  | HostConflict => lit "host_conflict"
  | HostMissing => lit "host_missing"
  | MisdirectedRequest => lit "misdirected_request"
  | NoRoute => lit "no_route"
  | UnsupportedTarget => lit "unsupported_request_target"
  | UpgradeNotSupported => lit "upgrade_not_supported"
  | PoolNotFound => lit "pool_not_found"
  | PoolFull => lit "upstream_pool_full"
  | PoolRateLimited => lit "upstream_pool_rate_limited"
  | NoHealthyUpstream => lit "no_healthy_upstream"
  | RequestBodyTimeout => lit "request_body_timeout"
  | UpstreamFailed kind => kind_reason kind
  end.

Definition refusal_message (r : Refusal) : str :=
  match r with
  | HostConflict => lit "conflicting host"
  | HostMissing => lit "missing host"
  | MisdirectedRequest => lit "misdirected request"
  | NoRoute => lit "no route"
  | UnsupportedTarget => lit "unsupported request target"
  | UpgradeNotSupported => lit "protocol upgrade not supported"
  | PoolNotFound => lit "pool not found"
  | PoolFull => lit "upstream pool full"
  | PoolRateLimited => lit "upstream pool rate limited"
  | NoHealthyUpstream => lit "no healthy upstream"
  | RequestBodyTimeout => lit "request body timeout"
  | UpstreamFailed ConnectionLimit => lit "upstream connection limit"
  | UpstreamFailed Timeout => lit "upstream timeout"
  | UpstreamFailed _ => lit "upstream error"
  end.

Definition refusal_retry_after (r : Refusal) : option Z :=
  match r with PoolRateLimited => Some 1 | _ => None end.

Inductive GrpcCode := GrpcUnknown | GrpcPermissionDenied | GrpcUnimplemented | GrpcInternal |
  GrpcUnavailable | GrpcUnauthenticated.

Definition grpc_code_num (c : GrpcCode) : Z :=
  match c with
  | GrpcUnknown => 2
  | GrpcPermissionDenied => 7
  | GrpcUnimplemented => 12
  | GrpcInternal => 13
  | GrpcUnavailable => 14
  | GrpcUnauthenticated => 16
  end.

Definition for_http_status (status : Z) : GrpcCode :=
  if status =? 400 then GrpcInternal
  else if status =? 401 then GrpcUnauthenticated
  else if status =? 403 then GrpcPermissionDenied
  else if status =? 404 then GrpcUnimplemented
  else if (status =? 429) || (status =? 502) || (status =? 503) || (status =? 504)
  then GrpcUnavailable
  else GrpcUnknown.

(** [StatusCode::from_u16]: a status has three digits. *)
Definition status_from_u16 (n : Z) : option Z :=
  if (100 <=? n) && (n <=? 999) then Some n else None.

(** The headers the handler reads and writes. *)
Definition X_REQUEST_ID : str := lit "x-request-id".
Definition X_FORWARDED_FOR : str := lit "x-forwarded-for".
Definition X_FORWARDED_PROTO : str := lit "x-forwarded-proto".
Definition X_FORWARDED_HOST : str := lit "x-forwarded-host".
Definition FORWARDED : str := lit "forwarded".
Definition GRPC_STATUS : str := lit "grpc-status".
Definition GRPC_MESSAGE : str := lit "grpc-message".

Section Answers.
Context `{HttpLib}.

(** An answer written without a backend: [Response<BoxBody>] with its text. *)
Record Answer := mkAnswer { an_status : Z; an_headers : HeaderMap; an_text : str }.

Definition with_header (name value : str) (a : Answer) : Answer :=
  mkAnswer (an_status a) (headers_insert name value (an_headers a)) (an_text a).

(** The header is left out when its value cannot be one. *)
Definition with_text_header (name value : str) (a : Answer) : Answer :=
  match value_of_str value with Some v => with_header name v a | None => a end.

Definition answer (status : Z) (content request_id : str) : Answer :=
  with_text_header X_REQUEST_ID request_id (mkAnswer status headers_new content).

Definition newline : str := [ascii_of_N 10].

Definition synthetic (status : Z) (message request_id : str) : Answer :=
  let text := decimal status ++ lit " " ++ message ++ newline ++ lit "request-id: " ++
              request_id ++ newline in
  with_header CONTENT_TYPE (lit "text/plain; charset=utf-8") (answer status text request_id).

Definition grpc_failure (code : GrpcCode) (message request_id : str) : Answer :=
  with_text_header GRPC_MESSAGE message
    (with_header GRPC_STATUS (decimal (grpc_code_num code))
       (with_header CONTENT_TYPE (lit "application/grpc") (answer 200 [] request_id))).

Definition refusal (r : Refusal) (request_id : str) (grpc : bool) : Answer :=
  if grpc
  then grpc_failure (for_http_status (refusal_status r)) (lit "gfe: " ++ refusal_reason r) request_id
  else
    let response := synthetic (refusal_status r) (refusal_message r) request_id in
    match refusal_retry_after r with
    | Some seconds => with_header RETRY_AFTER (decimal seconds) response
    | None => response
    end.

Definition redirect (scheme : str) (status : Z) (host path_and_query request_id : str) : Answer :=
  let status := unwrap_or 308 (status_from_u16 status) in
  with_text_header LOCATION (scheme ++ lit "://" ++ host ++ path_and_query)
    (answer status [] request_id).

Definition fixed (status : Z) (text request_id : str) : Answer :=
  answer (unwrap_or 200 (status_from_u16 status)) text request_id.
End Answers.

(** ** The host of a request: [host.rs] *)

Inductive HostError := Conflict (target : str) | Missing | Misdirected (host : str).

Definition host_error_refusal (e : HostError) : Refusal :=
  match e with
  | Conflict _ => HostConflict
  | Missing => HostMissing
  | Misdirected _ => MisdirectedRequest
  end.

Definition host_error_into_host (e : HostError) : str :=
  match e with Conflict target => target | Missing => [] | Misdirected host => host end.

Section Requests.
Context `{HttpLib}.
Implicit Types headers : HeaderMap.

(** The [Host] header as an authority, if there is one. *)
Definition host_header headers : option (option str) :=
  (fun value => value_to_str value ≫= authority_of_str) <$> headers_get headers HOST.

(** The header and the target name the same host, and the same port when
    both carry one. *)
Definition authorities_agree (header target : str) : bool :=
  eq_ignore_ascii_case (authority_host header) (authority_host target) &&
  match authority_port header, authority_port target with
  | Some a, Some b => a =? b
  | _, _ => true
  end.

Definition request_host (uri : Uri) headers (version : Version) (sni : option str) :
    result str HostError :=
  match uri_authority uri, host_header headers with
  | Some target, Some header =>
      let agree := is_some_and (fun header => authorities_agree header target) header in
      let target := to_ascii_lowercase (authority_host target) in
      if agree then Ok target else Err (Conflict target)
  | Some target, None => Ok (to_ascii_lowercase (authority_host target))
  | None, Some (Some header) => Ok (to_ascii_lowercase (authority_host header))
  | None, Some None => Err Missing
  | None, None =>
      match sni with
      | Some sni => Ok (to_ascii_lowercase sni)
      | None => if bool_decide (version = HTTP_10) then Ok [] else Err Missing
      end
  end.

Definition covered_by_sni (sni : option str) (host : str) (certificates : CertStore) :
    result str HostError :=
  match sni with
  | Some sni =>
      if negb (eq_ignore_ascii_case sni host) && negb (same_certificate certificates sni host)
      then Err (Misdirected host)
      else Ok host
  | None => Ok host
  end.

(** The first step of [Proxy::handle]. *)
Definition accepted_host (uri : Uri) headers (version : Version) (sni : option str)
    (certificates : CertStore) : result str HostError :=
  let? host := request_host uri headers version sni in
  match sni with
  | Some _ => covered_by_sni sni host certificates
  | None => Ok host
  end.

(** ** The request as it is read and sent on: [request.rs] *)

Definition MAX_REQUEST_ID_LEN : Z := 128.

Definition HOP_BY_HOP : list str :=
  [CONNECTION; lit "proxy-connection"; lit "keep-alive"; lit "proxy-authenticate";
   lit "proxy-authorization"; TE; lit "trailer"; lit "transfer-encoding"; UPGRADE].

Definition is_ascii (s : str) : bool := forallb (fun c => byte_val c <? 128) s.

(** [a] and [b] are the two random numbers drawn for a new id. *)
Definition request_id (a b : Z) headers : str :=
  let usable id :=
    negb (bool_decide (id = [])) && (Z.of_nat (length id) <=? MAX_REQUEST_ID_LEN) && is_ascii id in
  match headers_get headers X_REQUEST_ID ≫= value_to_str with
  | Some id => if usable id then id else hex_padded 16 a (hex_padded 16 b [])
  | None => hex_padded 16 a (hex_padded 16 b [])
  end.

Definition is_grpc headers : bool :=
  is_some_and (starts_with (lit "application/grpc")) (headers_get headers CONTENT_TYPE).

Definition names_a_path (target : Uri) : bool := starts_with (lit "/") (uri_path target).

(** The comma-separated items of every value of a header. *)
Definition list_items headers (name : str) : list str :=
  omap value_to_str (headers_get_all headers name) ≫= split_on ","%char.

Definition asks_for_upgrade headers : bool :=
  let names_upgrade :=
    existsb (fun option => eq_ignore_ascii_case (trim option) (lit "upgrade"))
      (list_items headers CONNECTION) in
  let to_another_protocol :=
    existsb (fun protocol => negb (eq_ignore_ascii_case (trim protocol) (lit "h2c")))
      (list_items headers UPGRADE) in
  names_upgrade && to_another_protocol.

Definition asks_for_trailers headers : bool :=
  match headers_get_all headers TE with
  | [only] => eq_ignore_ascii_case only (lit "trailers")
  | _ => false
  end.

(** The headers [Connection] names. *)
Definition connection_named headers : list str :=
  omap (fun token => name_of_bytes (trim token)) (list_items headers CONNECTION).

Definition strip_hop_by_hop headers : HeaderMap :=
  let named := connection_named headers in
  let remove_all := foldl (fun headers name => headers_remove name headers) in
  remove_all (remove_all headers HOP_BY_HOP) named.

Record Forwarding := mkForwarding {
  fw_client : IpAddr;
  fw_proto : str;
  fw_host : str;
  fw_request_id : str;
}.

(** [set]: the header is left as it was when the value cannot be one. *)
Definition set_header (name value : str) headers : HeaderMap :=
  match value_of_str value with
  | Some value => headers_insert name value headers
  | None => headers
  end.

Definition to_backend (head : Parts) (forwarding : Forwarding) : Parts :=
  let asks_for_trailers := asks_for_trailers (rq_headers head) in
  let headers := strip_hop_by_hop (rq_headers head) in
  let headers := if asks_for_trailers then headers_insert TE (lit "trailers") headers else headers in
  let client := ip_to_string (fw_client forwarding) in
  let forwarded_for :=
    match headers_get headers X_FORWARDED_FOR ≫= value_to_str with
    | Some existing => existing ++ lit ", " ++ client
    | None => client
    end in
  let headers := set_header X_FORWARDED_FOR forwarded_for headers in
  let headers := set_header X_FORWARDED_PROTO (fw_proto forwarding) headers in
  let headers := set_header X_FORWARDED_HOST (fw_host forwarding) headers in
  let forwarded := lit "for=" ++ client ++ lit ";host=" ++ fw_host forwarding ++
                   lit ";proto=" ++ fw_proto forwarding in
  let headers := set_header FORWARDED forwarded headers in
  let headers :=
    if headers_contains headers X_REQUEST_ID then headers
    else set_header X_REQUEST_ID (fw_request_id forwarding) headers in
  let target_host :=
    uri_authority (rq_uri head) ≫= fun authority => value_of_str (after_userinfo authority) in
  let headers :=
    match target_host with Some host => headers_insert HOST host headers | None => headers end in
  mkParts _ (rq_method head) (rq_uri head) (rq_version head) headers.
End Requests.

(** ** A request is served only over a certificate its client accepted *)

Section HostFacts.
Context `{HttpLib}.

Lemma request_host_lowercase uri headers version sni h :
  request_host uri headers version sni = Ok h -> to_ascii_lowercase h = h.
Proof.
  unfold request_host. intros E. repeat case_match; simplify_eq; try apply to_ascii_lowercase_idem.
  done.
Qed.

Lemma same_certificate_iff store a b :
  same_certificate store a b = true <->
  exists k, cert_store_resolve store (Some a) = Some k /\ cert_store_resolve store (Some b) = Some k.
Proof.
  unfold same_certificate. destruct (cert_store_resolve store (Some a)) as [k|], (cert_store_resolve store (Some b)) as [k'|];
    [|naive_solver..]. rewrite Nat.eqb_eq. naive_solver.
Qed.

(** C2: on a connection made for a name, a request is served only for that
    name or for a host that has the same certificate as the name, in the
    store in force when the request is read; that certificate's entry then
    lists a name covering the host, or is the default entry and no entry
    does. For any other host it is refused as misdirected, and only then.
    On a connection that gave no name it is for whatever host it names, and
    a request whose own host cannot be told is refused for that. *)
Theorem coalescing_safe {IoError} (load : str -> str -> result Z (TlsError IoError))
    entries store uri headers version sni :
  cert_store_build load entries = Ok store ->
  match accepted_host uri headers version sni store with
  | Ok host =>
      request_host uri headers version sni = Ok host /\
      match sni with
      | Some name =>
          host = to_ascii_lowercase name \/
          exists k e, cert_store_resolve store (Some name) = Some k /\
            cert_store_resolve store (Some host) = Some k /\ entries !! k = Some e /\
            (entry_covers host e \/
             (cs_default e = true /\ Forall (fun e => ~ entry_covers host e) entries))
      | None => True
      end
  | Err (Misdirected host) =>
      request_host uri headers version sni = Ok host /\
      exists name, sni = Some name /\ host <> to_ascii_lowercase name /\
        ~ exists k, cert_store_resolve store (Some name) = Some k /\ cert_store_resolve store (Some host) = Some k
  | Err e => request_host uri headers version sni = Err e
  end.
Proof.
  intros Hb. unfold accepted_host, covered_by_sni.
  destruct (request_host uri headers version sni) as [h|e] eqn:E.
  2: { destruct e; try done. exfalso. revert E. unfold request_host. by repeat case_match. }
  destruct sni as [name|]; [|done].
  assert (Hl : to_ascii_lowercase h = h) by (by eapply request_host_lowercase).
  destruct (negb _ && negb _) eqn:C.
  - apply andb_true_iff in C as [C1 C2]. apply negb_true_iff in C1, C2. split; [done|]. exists name. split_and!; [done|..].
    + intros Eh. apply not_true_iff_false in C1. apply C1, eq_ignore_ascii_case_iff. by rewrite Hl.
    + rewrite <-same_certificate_iff. by rewrite C2.
  - split; [done|]. apply andb_false_iff in C as [C|C]; apply negb_false_iff in C.
    + left. apply eq_ignore_ascii_case_iff in C. by rewrite C.
    + right. apply same_certificate_iff in C as (k & Hk & Hk').
      pose proof (store_serves load entries store h Hb) as Hs. rewrite Hk' in Hs.
      destruct Hs as (e & He & Hc). eauto 10.
Qed.
End HostFacts.

(** A connection made for [b.example.net] serves the other host of its
    certificate, and no host of another one. *)
Lemma coalescing_safe_witness :
  let ask host := headers_insert HOST host headers_new : HeaderMap in
  let uri := mkUri None (lit "/") (Some (lit "/")) in
  let sni := Some (lit "b.example.net") in
  (accepted_host uri (ask (lit "Api.example.org:443")) HTTP_2 sni example_store = Ok (lit "api.example.org") /\
   exists k e, cert_store_resolve example_store sni = Some k /\
     cert_store_resolve example_store (Some (lit "api.example.org")) = Some k /\ example_entries !! k = Some e) /\
  accepted_host uri (ask (lit "www.example.org")) HTTP_2 sni example_store = Err (Misdirected (lit "www.example.org")).
Proof.
  cbv zeta. split; [|vm_compute; reflexivity].
  pose proof (coalescing_safe example_load example_entries example_store
           (mkUri None (lit "/") (Some (lit "/")))
           (headers_insert HOST (lit "Api.example.org:443") headers_new) HTTP_2 (Some (lit "b.example.net"))
           ltac:(vm_compute; reflexivity)) as H.
  assert (accepted_host (mkUri None (lit "/") (Some (lit "/"))) (headers_insert HOST (lit "Api.example.org:443") headers_new)
            HTTP_2 (Some (lit "b.example.net")) example_store = Ok (lit "api.example.org")) as E
    by (vm_compute; reflexivity).
  rewrite E in H. split; [exact E|]. destruct H as [_ [H|(k & e & H1 & H2 & H3 & _)]].
  - exfalso. revert H. vm_compute. discriminate.
  - exists k, e. split; [exact H1|]. split; [exact H2|exact H3].
Defined.

(** The store is the one in force when the request is read, and not the one
    of the handshake. Here two names shared no certificate when the client
    connected for the first, and share one since the last reload: the
    connection, over the certificate of before, now serves the other. *)
Definition regrouped_entries : list CertSpec :=
  [mkCertSpec [lit "b.example.net"; lit "www.example.org"] false (lit "n.pem") (lit "n.key")].

Definition regrouped_store : CertStore :=
  match cert_store_build example_load regrouped_entries with Ok s => s | Err _ => cert_store_empty end.

Example accepted_after_reload :
  let ask : HeaderMap := headers_insert HOST (lit "www.example.org") headers_new in
  let accepted := accepted_host (mkUri None (lit "/") (Some (lit "/"))) ask HTTP_2 (Some (lit "b.example.net")) in
  accepted example_store = Err (Misdirected (lit "www.example.org")) /\
  accepted regrouped_store = Ok (lit "www.example.org").
Proof. split; vm_compute; reflexivity. Qed.

(** ** What crosses the proxy *)

(** Two of the literal names are different. *)
Ltac names_differ :=
  match goal with
  | H : @eq (list ascii) ?a ?b |- _ => exfalso; revert H; vm_compute; discriminate
  | H : @eq (list ascii) ?a ?b -> False |- _ => exfalso; apply H; vm_compute; reflexivity
  end.

Section CrossingFacts.
Context `{HttpLaws}.
Implicit Types headers : HeaderMap.

Lemma get_all_set_header name value headers n :
  headers_get_all (set_header name value headers) n =
    if decide (n = name) then
      match value_of_str value with Some v => [v] | None => headers_get_all headers n end
    else headers_get_all headers n.
Proof using Type*.
  unfold set_header. destruct (value_of_str value); [|by case_decide]. apply get_all_insert.
Qed.

(** The values of a header that outlive the hop. *)
Definition crossing headers (n : str) : list str :=
  if decide (n ∈ HOP_BY_HOP ++ connection_named headers) then [] else headers_get_all headers n.

Lemma strip_get_all headers n : headers_get_all (strip_hop_by_hop headers) n = crossing headers n.
Proof using Type*.
  unfold strip_hop_by_hop, crossing. rewrite !get_all_remove_all.
  repeat case_decide; set_solver.
Qed.

Definition target_host (rq : Parts) : option str :=
  uri_authority (rq_uri rq) ≫= fun authority => value_of_str (after_userinfo authority).

Definition forwarded_for (rq : Parts) (fw : Forwarding) : str :=
  match head (crossing (rq_headers rq) X_FORWARDED_FOR) ≫= value_to_str with
  | Some existing => existing ++ lit ", " ++ ip_to_string (fw_client fw)
  | None => ip_to_string (fw_client fw)
  end.

Definition forwarded_element (fw : Forwarding) : str :=
  lit "for=" ++ ip_to_string (fw_client fw) ++ lit ";host=" ++ fw_host fw ++
  lit ";proto=" ++ fw_proto fw.

Lemma request_host_of_header rq sni host a :
  host_header (rq_headers rq) = Some (Some a) ->
  request_host (rq_uri rq) (rq_headers rq) (rq_version rq) sni = Ok host ->
  to_ascii_lowercase (authority_host a) = host.
Proof using Type.
  unfold request_host. intros ->. destruct (uri_authority (rq_uri rq)) as [t|]; [|by intros [= <-]].
  simpl. destruct (authorities_agree a t) eqn:E; [|done]. intros [= <-].
  unfold authorities_agree in E. bool_facts. by apply eq_ignore_ascii_case_iff.
Qed.

Lemma visible_ip a : forallb is_value_char (ip_to_string a) = true.
Proof using Type.
  apply forallb_forall. intros c Hc%list_elem_of_In. revert c Hc. apply Forall_forall.
  apply ip_to_string_all; [|done]. intros c Hc. unfold is_value_char.
  apply orb_true_iff. left. apply andb_true_iff. lia.
Qed.

(** Each header the backend gets. *)
Definition backend_header (rq : Parts) (fw : Forwarding) (n : str) : list str :=
  let kept := crossing (rq_headers rq) n in
  let set value := match value_of_str value with Some v => [v] | None => kept end in
  if decide (n = HOST) then match target_host rq with Some host => [host] | None => kept end
  else if decide (n = TE) then
    if asks_for_trailers (rq_headers rq) then [lit "trailers"] else kept
  else if decide (n = X_FORWARDED_FOR) then set (forwarded_for rq fw)
  else if decide (n = X_FORWARDED_PROTO) then set (fw_proto fw)
  else if decide (n = X_FORWARDED_HOST) then set (fw_host fw)
  else if decide (n = FORWARDED) then set (forwarded_element fw)
  else if decide (n = X_REQUEST_ID) then
    if bool_decide (kept = []) then set (fw_request_id fw) else kept
  else kept.

(** What is left of the client's headers, with [te: trailers] put back. *)
Lemma stripped_get_all rq m :
  headers_get_all (if asks_for_trailers (rq_headers rq)
                   then headers_insert TE (lit "trailers") (strip_hop_by_hop (rq_headers rq))
                   else strip_hop_by_hop (rq_headers rq)) m =
  if decide (m = TE) then if asks_for_trailers (rq_headers rq) then [lit "trailers"]
                          else crossing (rq_headers rq) m
  else crossing (rq_headers rq) m.
Proof using Type*.
  destruct (asks_for_trailers _).
  - rewrite get_all_insert, strip_get_all. done.
  - rewrite strip_get_all. by case_decide.
Qed.

Lemma to_backend_get_all rq fw n :
  headers_get_all (rq_headers (to_backend rq fw)) n = backend_header rq fw n.
Proof using Type*.
  unfold to_backend, headers_contains. cbv zeta. cbn [rq_headers]. fold (target_host rq).
  pose proof (stripped_get_all rq) as Hs.
  set (stripped := if asks_for_trailers (rq_headers rq) then _ else _) in *.
  assert (Hf : match headers_get stripped X_FORWARDED_FOR ≫= value_to_str with
               | Some existing => existing ++ lit ", " ++ ip_to_string (fw_client fw)
               | None => ip_to_string (fw_client fw)
               end = forwarded_for rq fw).
  { unfold headers_get. rewrite Hs. by rewrite decide_False by (vm_compute; discriminate). }
  rewrite Hf. fold (forwarded_element fw). clearbody stripped. clear Hf.
  set (named := set_header FORWARDED _ _).
  assert (Hid : headers_get_all named X_REQUEST_ID = crossing (rq_headers rq) X_REQUEST_ID).
  { unfold named. rewrite !get_all_set_header, Hs.
    by repeat (rewrite decide_False by (vm_compute; discriminate)). }
  rewrite Hid.
  set (ided := if negb _ then _ else _).
  assert (Hi : headers_get_all ided n =
    if decide (n = X_REQUEST_ID) then
      if bool_decide (crossing (rq_headers rq) n = []) then
        match value_of_str (fw_request_id fw) with Some v => [v] | None => crossing (rq_headers rq) n end
      else crossing (rq_headers rq) n
    else headers_get_all named n).
  { unfold ided. case_decide as Hn.
    - subst n. case_bool_decide as Hb; simpl; [|done].
      rewrite get_all_set_header, decide_True, Hid by done. done.
    - case_bool_decide; simpl; [|done]. by rewrite get_all_set_header, decide_False. }
  clearbody ided. clear Hid.
  assert (Hl : headers_get_all (match target_host rq with
                 | Some host => headers_insert HOST host ided | None => ided end) n =
    if decide (n = HOST) then
      match target_host rq with Some host => [host] | None => headers_get_all ided n end
    else headers_get_all ided n).
  { clear Hi. destruct (target_host rq); [apply get_all_insert|by case_decide]. }
  rewrite Hl, Hi. unfold named, backend_header. rewrite !get_all_set_header, Hs. clear.
  repeat case_decide; subst; try names_differ; done.
Qed.

(** the backend is told the host the request was routed by: whatever
    [Host] header it gets names that host, whether it comes from the target
    or from the client's header; it gets none only when the target names no
    host and the client sent no [Host] or declared it a header of its hop. *)
Theorem forwarded_host_routed rq fw sni host :
  request_host (rq_uri rq) (rq_headers rq) (rq_version rq) sni = Ok host ->
  match headers_get (rq_headers (to_backend rq fw)) HOST with
  | Some v => forall a, value_to_str v ≫= authority_of_str = Some a ->
                to_ascii_lowercase (authority_host a) = host
  | None => target_host rq = None /\
      (headers_get (rq_headers rq) HOST = None \/ HOST ∈ connection_named (rq_headers rq))
  end.
Proof using Type*.
  intros Hh. unfold headers_get. rewrite to_backend_get_all. unfold backend_header.
  rewrite decide_True by done.
  assert (Hclient : forall v a, head (crossing (rq_headers rq) HOST) = Some v ->
    value_to_str v ≫= authority_of_str = Some a -> host_header (rq_headers rq) = Some (Some a)).
  { intros v a Hv Ha. unfold host_header, headers_get. unfold crossing in Hv.
    case_decide; [done|]. rewrite Hv. simpl. by rewrite Ha. }
  destruct (target_host rq) as [t|] eqn:Et; simpl.
  - intros a Ha. unfold target_host in Et.
    unfold request_host in Hh. destruct (uri_authority (rq_uri rq)) as [target|]; [|done].
    simpl in Et. apply value_of_str_same in Et. subst t.
    destruct (value_to_str _) as [s|] eqn:Es; [|done]. simpl in Ha.
    apply value_to_str_same in Es. subst s. rewrite (authority_userinfo target a Ha).
    repeat case_match; simplify_eq; done.
  - destruct (head (crossing (rq_headers rq) HOST)) as [v|] eqn:Ev.
    + intros a Ha. rewrite (request_host_of_header rq sni host a (Hclient v a eq_refl Ha) Hh). done.
    + split; [done|]. unfold crossing in Ev. case_decide as Hd; [|by left].
      right. apply elem_of_app in Hd as [Hd|Hd]; [|done]. exfalso. revert Hd.
      apply (bool_decide_eq_false_1 (HOST ∈ HOP_BY_HOP)). by vm_compute.
Qed.

(** C39: what the backend reads about the client is what the proxy saw: the
    scheme and host headers and [Forwarded] hold the proxy's values alone,
    whatever the client sent, and the last address of [X-Forwarded-For] is
    the client's. *)
Theorem forwarding_headers_authentic rq fw :
  forallb is_value_char (fw_proto fw) = true -> forallb is_value_char (fw_host fw) = true ->
  let got := headers_get_all (rq_headers (to_backend rq fw)) in
  got X_FORWARDED_PROTO = [fw_proto fw] /\ got X_FORWARDED_HOST = [fw_host fw] /\
  got FORWARDED = [forwarded_element fw] /\
  exists before, got X_FORWARDED_FOR = [before ++ ip_to_string (fw_client fw)] /\
    (before = [] \/
     exists existing, head (headers_get_all (rq_headers rq) X_FORWARDED_FOR) = Some existing /\
       before = existing ++ lit ", ").
Proof using Type*.
  intros Hp Hh got. unfold got. rewrite !to_backend_get_all. unfold backend_header.
  repeat first [rewrite (decide_True (P := X_FORWARDED_FOR = X_FORWARDED_FOR)) by done
               |rewrite decide_False by (vm_compute; discriminate)
               |rewrite decide_True by done].
  assert (Hv : forallb is_value_char (ip_to_string (fw_client fw)) = true) by apply visible_ip.
  rewrite (value_of_visible (fw_proto fw)), (value_of_visible (fw_host fw)) by done.
  rewrite (value_of_visible (forwarded_element fw)).
  2: { unfold forwarded_element. rewrite !forallb_app, Hv, Hp, Hh. done. }
  split; [done|]. split; [done|]. split; [done|]. unfold forwarded_for.
  destruct (head (crossing (rq_headers rq) X_FORWARDED_FOR)) as [v|] eqn:Ev; cbn [mbind option_bind].
  2: { exists []. rewrite value_of_visible by done. eauto. }
  destruct (value_to_str v) as [existing|] eqn:Et.
  2: { exists []. rewrite value_of_visible by done. eauto. }
  exists (existing ++ lit ", "). rewrite value_of_visible.
  - split; [by rewrite <-app_assoc|]. right. exists existing. split; [|done].
    rewrite (value_to_str_same v existing Et). unfold crossing in Ev. by case_decide.
  - rewrite !forallb_app, Hv, (value_to_str_visible v existing Et). done.
Qed.
End CrossingFacts.

(** A request in absolute form, with a [Host] of its own and forged
    forwarding headers. *)
Definition example_request : Parts :=
  mkParts assoc_http GET
    (mkUri (Some (lit "user@Www.example.org:8443")) (lit "/") (Some (lit "/"))) HTTP_11
    [(HOST, lit "www.EXAMPLE.org"); (CONNECTION, lit "close, X-Trace"); (lit "x-trace", lit "1");
     (X_FORWARDED_FOR, lit "198.51.100.1"); (X_FORWARDED_PROTO, lit "forged")].

Definition example_forwarding : Forwarding :=
  mkForwarding (V4 [192; 0; 2; 1]) (lit "https") (lit "www.example.org") (lit "id").

Lemma forwarded_host_routed_witness :
  headers_get (rq_headers (to_backend example_request example_forwarding)) HOST =
    Some (lit "Www.example.org:8443") /\
  (forall a, value_to_str (lit "Www.example.org:8443") ≫= authority_of_str = Some a ->
     to_ascii_lowercase (authority_host a) = lit "www.example.org").
Proof.
  pose proof (forwarded_host_routed example_request example_forwarding None
                (lit "www.example.org") ltac:(vm_compute; reflexivity)) as H.
  assert (E : headers_get (rq_headers (to_backend example_request example_forwarding)) HOST =
                Some (lit "Www.example.org:8443")) by (vm_compute; reflexivity).
  rewrite E in H. exact (conj E H).
Defined.

Lemma forwarding_headers_authentic_witness :
  let got := headers_get_all (rq_headers (to_backend example_request example_forwarding)) in
  got (lit "x-trace") = [] /\ got X_FORWARDED_PROTO = [lit "https"] /\
  exists before, got X_FORWARDED_FOR = [before ++ lit "192.0.2.1"].
Proof.
  pose proof (forwarding_headers_authentic example_request example_forwarding
                eq_refl eq_refl) as (Hp & _ & _ & before & Hf & _).
  split; [vm_compute; reflexivity|]. split; [exact Hp|]. exists before. exact Hf.
Defined.

(** Of several [X-Forwarded-For] lines the first is kept. *)
Example second_forwarded_for_line_is_lost :
  let rq := mkParts assoc_http GET (mkUri None (lit "/") (Some (lit "/"))) HTTP_11
    [(HOST, lit "a"); (X_FORWARDED_FOR, lit "198.51.100.1"); (X_FORWARDED_FOR, lit "203.0.113.9")] in
  headers_get_all (rq_headers (to_backend rq example_forwarding)) X_FORWARDED_FOR =
    [lit "198.51.100.1, 192.0.2.1"].
Proof. by vm_compute. Qed.

(** A second [Host] line is not looked at, and is forwarded. *)
Example second_host_line_is_forwarded :
  let rq := mkParts assoc_http GET (mkUri None (lit "/") (Some (lit "/"))) HTTP_11
    [(HOST, lit "a"); (HOST, lit "b")] in
  request_host (rq_uri rq) (rq_headers rq) HTTP_11 None = Ok (lit "a") /\
  headers_get_all (rq_headers (to_backend rq example_forwarding)) HOST = [lit "a"; lit "b"].
Proof. by vm_compute. Qed.
