(* ===== verification/Forward.v ===== *)
(** * Serving a request: [gfe/proxy/src/handler], its [retry.rs],
    [progress.rs], [record.rs], [forward.rs] and [mod.rs], and
    [edge/conn_info.rs]

    A request is served by one call of [handle], which takes and returns the
    state it shares with others: the pool it is forwarded to and the count
    of references to the place it holds there. What is outside the program
    comes in through an environment: for each attempt, how the backends'
    health stands, what the other requests did to the pool meanwhile, and
    what became of the attempt. Metrics are the list of what was counted. *)

From S2P Require Import Prelude Str Net RateLimiting HealthChecking LoadBalancing.
From S2P Require Import Config Routing Tls TlsPolicy Http Request.

(** ** What may be retried: [retry.rs] *)

Definition MAX_ATTEMPTS : Z := 2.

Definition is_replayable (method : Method) (has_body : bool) : bool :=
  let idempotent :=
    match method with GET | HEAD | OPTIONS | TRACE | DELETE => true | _ => false end in
  idempotent && negb has_body.

Record Attempted := mkAttempted {
  at_replayable : bool;
  at_attempts : Z;
  at_response_started : bool;
  at_failure : FailureKind;
}.

Definition may_retry (a : Attempted) : bool :=
  at_replayable a && negb (at_response_started a) && is_retryable (at_failure a) &&
  (at_attempts a <? MAX_ATTEMPTS).

(** ** How far a request has got: [progress.rs] *)

Definition NOT_COMPLETED : Z := u64_max.

Record SendProgress := mkSendProgress {
  sp_started : Z;
  sp_last_sent_ms : Z;
  sp_completed_ms : Z;
  sp_waiting_for_client : bool;
  sp_client_failed : bool;
}.

Definition progress_begin (now : Z) (has_body : bool) : SendProgress :=
  mkSendProgress now 0 (if has_body then NOT_COMPLETED else 0) false false.

Definition elapsed_ms (p : SendProgress) (now : Z) : Z :=
  Z.min (as_millis (saturating_duration_since now (sp_started p))) u64_max.

Definition attempt_started (now : Z) (p : SendProgress) : SendProgress :=
  mkSendProgress (sp_started p) (elapsed_ms p now) (sp_completed_ms p)
    (sp_waiting_for_client p) (sp_client_failed p).

Definition body_progressed (now : Z) (p : SendProgress) : SendProgress :=
  mkSendProgress (sp_started p) (elapsed_ms p now) (sp_completed_ms p)
    (sp_waiting_for_client p) (sp_client_failed p).

Definition body_ended (now : Z) (p : SendProgress) : SendProgress :=
  let now_ms := elapsed_ms p now in
  mkSendProgress (sp_started p) now_ms now_ms (sp_waiting_for_client p) (sp_client_failed p).

Definition body_polled (pending : bool) (p : SendProgress) : SendProgress :=
  mkSendProgress (sp_started p) (sp_last_sent_ms p) (sp_completed_ms p) pending
    (sp_client_failed p).

Definition body_failed (p : SendProgress) : SendProgress :=
  mkSendProgress (sp_started p) (sp_last_sent_ms p) (sp_completed_ms p)
    (sp_waiting_for_client p) true.

Definition response_deadline (timeouts : TimeoutsConfig) (p : SendProgress) : Z :=
  let since_start ms := sp_started p + from_millis ms in
  let first_byte := since_start (sp_last_sent_ms p) + upstream_first_byte timeouts in
  if sp_completed_ms p =? NOT_COMPLETED then first_byte
  else Z.min first_byte (since_start (sp_completed_ms p) + request_total timeouts).

(** [overdue], started at [now]: the progress is read at each waking, which
    is [late] after the deadline last read. [None] says that [fuel] readings
    were not enough. *)
Fixpoint overdue (fuel : nat) (timeouts : TimeoutsConfig) (late : Z -> Z)
    (progress : Z -> SendProgress) (now : Z) : option Z :=
  match fuel with
  | O => None
  | S fuel =>
      let deadline := response_deadline timeouts (progress now) in
      if deadline <=? now then Some now
      else overdue fuel timeouts late progress (deadline + late deadline)
  end.

(** ** Bodies *)

Section Bodies.
Context `{HttpLib}.

Inductive Frame := Data (len : Z) | Trailers (trailers : HeaderMap).

(** What one poll of a body gives. *)
Inductive Polled := Pending | ReadyFrame (f : Frame) | ReadyError | ReadyEnd.

(** A body: what the polls to come give, each with whether the body says
    that it has ended afterwards, and whether it says so now. *)
Record Body := mkBody { bd_polls : list (Polled * bool); bd_is_end_stream : bool }.

(** [body::empty] and [body::full]. *)
Definition body_empty : Body := mkBody [] true.

Definition body_full (text : str) : Body :=
  if bool_decide (text = []) then body_empty
  else mkBody [(ReadyFrame (Data (Z.of_nat (length text))), true)] false.

Definition data_len (f : Frame) : Z := match f with Data len => len | Trailers _ => 0 end.

(** [CountedBody::poll_frame], polled at [now]: the bytes counted and the
    progress noted. *)
Definition counted_poll (now : Z) (polled : Polled) (ended : bool) (bytes : Z) (p : SendProgress) :
    Z * SendProgress :=
  let pending := match polled with Pending => true | _ => false end in
  let p := body_polled pending p in
  match polled with
  | Pending => (bytes, p)
  | ReadyFrame f =>
      (wrap64 (bytes + data_len f), if ended then body_ended now p else body_progressed now p)
  | ReadyError => (bytes, body_failed p)
  | ReadyEnd => (bytes, body_ended now p)
  end.

(** [CountedBody::new]. *)
Definition counted_new (now : Z) (inner : Body) (p : SendProgress) : SendProgress :=
  if bd_is_end_stream inner then body_ended now p else p.
End Bodies.

(** ** The connection of a request: [conn_info.rs] *)

Record ConnInfo := mkConnInfo {
  ci_client : SocketAddr;
  ci_local : SocketAddr;
  ci_listener : Listener;
  ci_tls : option TlsInfo;
}.

Definition canonical (address : SocketAddr) : SocketAddr :=
  mkSocketAddr (to_canonical (sa_ip address)) (sa_port address).

Definition conn_info_new (client local : SocketAddr) (listener : Listener) (tls : option TlsInfo) :
    ConnInfo := mkConnInfo (canonical client) (canonical local) listener tls.

Definition conn_is_tls (c : ConnInfo) : bool := negb (is_none (ci_tls c)).
Definition conn_sni (c : ConnInfo) : option str := ci_tls c ≫= ti_sni.

(** ** The record of a request: [record.rs] *)

Definition CLIENT_CLOSED_REQUEST : Z := 499.
Definition MAX_GRPC_STATUS : Z := 16.
Definition NO_ROUTE : str := lit "none".

Inductive Termination := Complete | ClientAbort | UpstreamAbort.

#[export] Instance Termination_eq_dec : EqDecision Termination.
Proof. solve_decision. Defined.

Definition termination_as_str (t : Termination) : str :=
  match t with
  | Complete => lit "complete"
  | ClientAbort => lit "client_abort"
  | UpstreamAbort => lit "upstream_abort"
  end.

Definition aborted_by (t : Termination) : option str :=
  match t with
  | Complete => None
  | ClientAbort => Some (lit "client")
  | UpstreamAbort => Some (lit "upstream")
  end.

(** What marks a backend as busy with a request: [BackendBusy], its gauge
    named by the pool and the backend. It holds a reference to the place
    among the pool's requests, which the request's attempts share. *)
Record BackendBusy := mkBackendBusy {
  bb_least_request : InflightGuard;
  bb_gauge : str * str;
}.

Record UpstreamLeg := mkUpstreamLeg {
  ul_pool : str;
  ul_backend : option str;
  ul_attempts : Z;
  ul_time_to_first_byte : option Z;
  ul_busy : option BackendBusy;
}.

Record RequestRecord := mkRequestRecord {
  rr_started : Z;
  rr_conn : ConnInfo;
  rr_listener : str;
  rr_request_id : str;
  rr_method : Method;
  rr_http_version : Version;
  rr_host : str;
  rr_path : str;
  rr_user_agent : option str;
  rr_is_grpc : bool;
  rr_route : option CompiledRoute;
  rr_upstream : option UpstreamLeg;
  rr_status : option Z;
  rr_error : option str;
  rr_grpc_status : option Z;
  rr_request_bytes : Z;
  rr_response_bytes : Z;
  rr_termination : Termination;
}.

(** What is reported of a request: the labels of its metrics and the fields
    of its access event. *)
Record Report := mkReport {
  rp_record : RequestRecord;
  rp_route : str;
  rp_vhost : str;
  rp_status : Z;
  rp_aborted_by : option str;
  rp_elapsed : Z;
}.

(** What is counted while a request is served. *)
Inductive Event :=
| RequestsInFlight (delta : Z)
| UpstreamInFlight (gauge : str * str) (delta : Z)
| NoRouteCounted
| PoolFullCounted (pool : str)
| PoolRateLimitedCounted (pool : str)
| NoHealthyUpstreamCounted
| RetriesCounted (pool : str)
| DurationObserved (gauge : str * str)
| UpstreamRequests (gauge : str * str) (status : Z)
| UpstreamErrors (gauge : str * str) (kind : str)
| ConnectErrorsCounted
| Reported (report : Report).

Section Serving.
Context `{L : HttpLib}.

Record Response := mkResponse { rs_status : Z; rs_headers : HeaderMap; rs_body : Body }.

(** A request handed to the client: whether it carries the streamed body. *)
Record Sent := mkSent {
  sn_scheme : Scheme;
  sn_authority : str;
  sn_method : Method;
  sn_version : Version;
  sn_path_and_query : str;
  sn_headers : HeaderMap;
  sn_streamed : bool;
}.

(** What serving a request touches: the pool it is forwarded to, the place
    it holds there with the number of references to it, what was counted
    and what was sent. *)
Record World := mkWorld {
  w_pool : option (Pool Scheme);
  w_admitted : option (InflightGuard * Z);
  w_events : list Event;
  w_sent : list Sent;
}.

Definition world_start : World := mkWorld None None [] [].

Definition emit (e : Event) (w : World) : World :=
  mkWorld (w_pool w) (w_admitted w) (w_events w ++ [e]) (w_sent w).

Definition send (s : Sent) (w : World) : World :=
  mkWorld (w_pool w) (w_admitted w) (w_events w) (w_sent w ++ [s]).

Definition put_pool (p : Pool Scheme) (w : World) : World :=
  mkWorld (Some p) (w_admitted w) (w_events w) (w_sent w).

Definition drop_guard (g : InflightGuard) (w : World) : World :=
  match w_pool w with Some p => put_pool (guard_drop g p) w | None => w end.

(** [Arc::clone] and the drop of an [Arc], on the place in the pool. *)
Definition admitted_clone (w : World) : World :=
  match w_admitted w with
  | Some (g, refs) => mkWorld (w_pool w) (Some (g, refs + 1)) (w_events w) (w_sent w)
  | None => w
  end.

Definition admitted_drop (w : World) : World :=
  match w_admitted w with
  | Some (g, refs) =>
      if refs =? 1
      then drop_guard g (mkWorld (w_pool w) None (w_events w) (w_sent w))
      else mkWorld (w_pool w) (Some (g, refs - 1)) (w_events w) (w_sent w)
  | None => w
  end.

(** [BackendBusy::new], given a clone of the place, and its drop. *)
Definition busy_new (least_request : InflightGuard) (gauge : str * str) (w : World) :
    World * BackendBusy :=
  (emit (UpstreamInFlight gauge 1) (admitted_clone w), mkBackendBusy least_request gauge).

Definition busy_drop (b : BackendBusy) (w : World) : World :=
  admitted_drop (drop_guard (bb_least_request b) (emit (UpstreamInFlight (bb_gauge b) (-1)) w)).

Definition drop_busy (busy : option BackendBusy) (w : World) : World :=
  match busy with Some b => busy_drop b w | None => w end.

(** ** The methods of a record *)

(** A record with the fields that change replaced. *)
Definition set_record (r : RequestRecord) (route : option CompiledRoute)
    (upstream : option UpstreamLeg) (status : option Z) (error : option str)
    (grpc_status : option Z) (response_bytes : Z) (termination : Termination) : RequestRecord :=
  mkRequestRecord (rr_started r) (rr_conn r) (rr_listener r) (rr_request_id r) (rr_method r)
    (rr_http_version r) (rr_host r) (rr_path r) (rr_user_agent r) (rr_is_grpc r) route upstream
    status error grpc_status (rr_request_bytes r) response_bytes termination.

Definition grpc_status (headers : HeaderMap) : option Z :=
  match (headers_get headers GRPC_STATUS ≫= value_to_str) ≫= parse_unsigned u8_max with
  | Some status => if status <=? MAX_GRPC_STATUS then Some status else None
  | None => None
  end.

Definition record_begin (now : Z) (conn : ConnInfo) (rq : Parts) (host request_id : str) (w : World) :
    World * RequestRecord :=
  (emit (RequestsInFlight 1) w,
   mkRequestRecord now conn (l_id (ci_listener conn)) request_id (rq_method rq) (rq_version rq) host
     (uri_path (rq_uri rq)) (headers_get (rq_headers rq) USER_AGENT ≫= value_to_str)
     (is_grpc (rq_headers rq)) None None None None None 0 0 ClientAbort).

Definition record_matched (route : CompiledRoute) (r : RequestRecord) : RequestRecord :=
  set_record r (Some route) (rr_upstream r) (rr_status r) (rr_error r) (rr_grpc_status r)
    (rr_response_bytes r) (rr_termination r).

Definition set_upstream (upstream : option UpstreamLeg) (r : RequestRecord) : RequestRecord :=
  set_record r (rr_route r) upstream (rr_status r) (rr_error r) (rr_grpc_status r)
    (rr_response_bytes r) (rr_termination r).

Definition set_busy (busy : option BackendBusy) (u : UpstreamLeg) : UpstreamLeg :=
  mkUpstreamLeg (ul_pool u) (ul_backend u) (ul_attempts u) (ul_time_to_first_byte u) busy.

Definition record_failed (reason : str) (r : RequestRecord) (w : World) : World * RequestRecord :=
  let r := set_record r (rr_route r) (rr_upstream r) (rr_status r) (Some reason)
             (rr_grpc_status r) (rr_response_bytes r) (rr_termination r) in
  match rr_upstream r with
  | Some u => (drop_busy (ul_busy u) w, set_upstream (Some (set_busy None u)) r)
  | None => (w, r)
  end.

(** The leg of a record of before is replaced; there is none. *)
Definition record_forwarding_to (pool : str) (r : RequestRecord) : RequestRecord :=
  set_upstream (Some (mkUpstreamLeg pool None 0 None None)) r.

Definition record_attempting (backend : str) (busy : BackendBusy) (r : RequestRecord) (w : World) :
    World * RequestRecord :=
  match rr_upstream r with
  | Some u =>
      (drop_busy (ul_busy u) w,
       set_upstream (Some (mkUpstreamLeg (ul_pool u) (Some backend) (ul_attempts u + 1)
                             (ul_time_to_first_byte u) (Some busy))) r)
  | None => (busy_drop busy w, r)
  end.

Definition record_upstream_responded (elapsed : Z) (r : RequestRecord) : RequestRecord :=
  match rr_upstream r with
  | Some u => set_upstream (Some (mkUpstreamLeg (ul_pool u) (ul_backend u) (ul_attempts u)
                                    (Some elapsed) (ul_busy u))) r
  | None => r
  end.

Definition set_termination (t : Termination) (r : RequestRecord) : RequestRecord :=
  set_record r (rr_route r) (rr_upstream r) (rr_status r) (rr_error r) (rr_grpc_status r)
    (rr_response_bytes r) t.

(** The counter of the request body's bytes is shared with the body. *)
Definition set_request_bytes (bytes : Z) (r : RequestRecord) : RequestRecord :=
  mkRequestRecord (rr_started r) (rr_conn r) (rr_listener r) (rr_request_id r) (rr_method r)
    (rr_http_version r) (rr_host r) (rr_path r) (rr_user_agent r) (rr_is_grpc r) (rr_route r)
    (rr_upstream r) (rr_status r) (rr_error r) (rr_grpc_status r) bytes (rr_response_bytes r)
    (rr_termination r).

(** [ObservedBody::note_if_ended]. *)
Definition note_if_ended (ended : bool) (r : RequestRecord) : RequestRecord :=
  if ended then set_termination Complete r else r.

(** [RequestRecord::respond]: the record travels with the body. *)
Definition record_respond (response : Response) (r : RequestRecord) : RequestRecord :=
  let grpc := if rr_is_grpc r then grpc_status (rs_headers response) else rr_grpc_status r in
  note_if_ended (bd_is_end_stream (rs_body response))
    (set_record r (rr_route r) (rr_upstream r) (Some (rs_status response)) (rr_error r) grpc
       (rr_response_bytes r) (rr_termination r)).

(** [ObservedBody::poll_frame]. *)
Definition observed_poll (r : RequestRecord) (poll : Polled * bool) : RequestRecord :=
  match poll.1 with
  | Pending => r
  | ReadyFrame f =>
      let grpc :=
        match rr_is_grpc r, f with
        | true, Trailers trailers => grpc_status trailers
        | _, _ => rr_grpc_status r
        end in
      note_if_ended poll.2
        (set_record r (rr_route r) (rr_upstream r) (rr_status r) (rr_error r) grpc
           (rr_response_bytes r + data_len f) (rr_termination r))
  | ReadyError => set_termination UpstreamAbort r
  | ReadyEnd => set_termination Complete r
  end.

Definition record_report (now : Z) (r : RequestRecord) : Report :=
  let labels := match rr_route r with
    | Some route => (cr_id route, cr_host route)
    | None => (NO_ROUTE, NO_ROUTE)
    end in
  mkReport r labels.1 labels.2 (unwrap_or CLIENT_CLOSED_REQUEST (rr_status r))
    (aborted_by (rr_termination r)) (saturating_duration_since now (rr_started r)).

(** The drop of a record: it reports itself, then its fields are dropped. *)
Definition record_drop (now : Z) (r : RequestRecord) (w : World) : World :=
  let w := emit (Reported (record_report now r)) (emit (RequestsInFlight (-1)) w) in
  match rr_upstream r with Some u => drop_busy (ul_busy u) w | None => w end.

(** ** Forwarding: [forward.rs] *)

(** Why a forward ended without a response: the two of the code, or because
    the handler itself was dropped while it waited for the backend, as it is
    when the client goes away. *)
Inductive Unanswered := Refused (refusal : Refusal) | ClientGone | Cancelled.

(** What other requests do to the pool: its turn and its rate stand as they
    left them, and its counts have moved. *)
Record Meanwhile := mkMeanwhile {
  mw_counter : Z;
  mw_rate : option TokenBucket;
  mw_in_flight : Z;
  mw_inflight : nat -> Z;
}.

Definition meanwhile (d : Meanwhile) (p : Pool Scheme) : Pool Scheme :=
  set_counters p (mw_counter d) (imap (fun i n => wrap64 (n + mw_inflight d i)) (p_inflight p))
    (wrap64 (p_in_flight p + mw_in_flight d)) (mw_rate d).

(** What an attempt meets: the backends' health and the random draw when its
    backend is selected, what the others did to the pool before; how the
    exchange ends if it is waited for, whether the backend is overdue before
    that, and whether the handler is dropped before either; when it is over,
    the progress of the request and the time since forwarding started; and
    the bytes read from the request's body by the time the count is next
    looked at, which a backend that answers early may make later still. *)
Record AttemptEnv := mkAttemptEnv {
  ae_meanwhile : Meanwhile;
  ae_health : HealthMap;
  ae_draw : Z;
  ae_result : result Response LibraryKind;
  ae_overdue_first : bool;
  ae_cancelled : bool;
  ae_progress : SendProgress;
  ae_request_bytes : Z;
  ae_elapsed : Z;
}.

Definition to_client (response : Response) (is_tls : bool) (hsts request_id : str) : Response :=
  let headers := strip_hop_by_hop (rs_headers response) in
  let headers :=
    if is_tls && negb (bool_decide (hsts = []))
    then set_header STRICT_TRANSPORT_SECURITY hsts headers
    else headers in
  let headers :=
    if headers_contains headers X_REQUEST_ID then headers
    else set_header X_REQUEST_ID request_id headers in
  mkResponse (rs_status response) headers (rs_body response).

(** What does not change from one attempt to the next. *)
Record Attempting := mkAttempting {
  ag_is_tls : bool;
  ag_hsts : str;
  ag_method : Method;
  ag_version : Version;
  ag_path_and_query : str;
  ag_replayable : bool;
  ag_hash_key : Z;
}.

(** Count a failure of the attempt; [None] when it may be tried again. *)
Definition attempt_failed (a : Attempting) (kind : FailureKind) (attempts : Z) (gauge : str * str)
    (w : World) : World * option Unanswered :=
  let w := emit (UpstreamErrors gauge (kind_as_str kind)) w in
  if negb (is_the_backends kind) then (w, Some (Refused (UpstreamFailed kind)))
  else
    let w := emit (UpstreamRequests gauge 502) (emit ConnectErrorsCounted w) in
    let again := may_retry (mkAttempted (ag_replayable a) attempts false kind) in
    (w, if again then None else Some (Refused (UpstreamFailed kind))).

(** The loop of [forward], from the [attempts]th attempt on. [headers] and
    [streamed] are what is left of the request's head and body. [None] is a
    panic, or more than [fuel] attempts. *)
Fixpoint forward_loop (fuel : nat) (env : nat -> AttemptEnv) (a : Attempting) (attempts : nat)
    (headers : HeaderMap) (streamed : bool) (r : RequestRecord) (w : World) :
    option (World * RequestRecord * result Response Unanswered) :=
  match fuel, w_pool w with
  | S fuel, Some p =>
      let e := env attempts in
      match pool_select (ae_health e) (ae_draw e) (Some (ag_hash_key a))
              (meanwhile (ae_meanwhile e) p) with
      | None => None
      | Some (p, None) =>
          Some (emit NoHealthyUpstreamCounted (put_pool p w), r, Err (Refused NoHealthyUpstream))
      | Some (p, Some selection) =>
          let w := put_pool p w in
          let attempts := S attempts in
          let gauge := (p_id p, authority (sel_backend selection)) in
          let w := if Nat.ltb 1 attempts then emit (RetriesCounted (p_id p)) w else w in
          let (w, busy) := busy_new (sel_guard selection) gauge w in
          let (w, r) := record_attempting (authority (sel_backend selection)) busy r w in
          let may_follow := ag_replayable a && (Z.of_nat attempts <? MAX_ATTEMPTS) in
          let w := send (mkSent (p_payload p) (authority (sel_backend selection)) (ag_method a)
                           (ag_version a) (ag_path_and_query a) headers streamed) w in
          let headers := if may_follow then headers else headers_new in
          let r := set_request_bytes (ae_request_bytes e) r in
          if ae_cancelled e then Some (w, r, Err Cancelled) else
          let outcome :=
            if negb (rr_is_grpc r) && ae_overdue_first e then None else Some (ae_result e) in
          let w := emit (DurationObserved gauge) w in
          match outcome with
          | Some (Ok response) =>
              Some (emit (UpstreamRequests gauge (rs_status response)) w,
                    record_upstream_responded (ae_elapsed e) r,
                    Ok (to_client response (ag_is_tls a) (ag_hsts a) (rr_request_id r)))
          | Some (Err failure) =>
              if sp_client_failed (ae_progress e) then Some (w, r, Err ClientGone)
              else
                match attempt_failed a (classify failure) (Z.of_nat attempts) gauge w with
                | (w, Some unanswered) => Some (w, r, Err unanswered)
                | (w, None) => forward_loop fuel env a attempts headers false r w
                end
          | None =>
              if sp_waiting_for_client (ae_progress e)
              then Some (w, r, Err (Refused RequestBodyTimeout))
              else Some (emit (UpstreamRequests gauge 504)
                           (emit (UpstreamErrors gauge (kind_as_str Timeout)) w),
                         r, Err (Refused (UpstreamFailed Timeout)))
          end
      end
  | _, _ => None
  end.

(** What serving a request reads of the node: [State], with the routes and
    pools of one config ([Routing]). *)
Record State := mkState {
  st_routes : RouteTable;
  st_pools : PoolSet Scheme;
  st_certificates : CertStore;
  st_hsts : str;
}.

Section Node.
(** [hash64] of the client's address, by the standard library's hasher. *)
Context (hash_ip : IpAddr -> Z).

Definition forwarding_of (conn : ConnInfo) (r : RequestRecord) : Forwarding :=
  mkForwarding (sa_ip (ci_client conn)) (if conn_is_tls conn then lit "https" else lit "http")
    (rr_host r) (rr_request_id r).

Definition attempting_of (st : State) (conn : ConnInfo) (head : Parts) (has_body : bool)
    (r : RequestRecord) : Attempting :=
  mkAttempting (conn_is_tls conn) (st_hsts st) (rq_method head)
    (if rr_is_grpc r then HTTP_2 else HTTP_11)
    (unwrap_or (lit "/") (uri_path_and_query (rq_uri head)))
    (is_replayable (rq_method head) has_body) (hash_ip (sa_ip (ci_client conn))).

(** The request, with whether it has a body, forwarded at [now] to the pool
    [p]. Two attempts are the most there are ([forward_attempts]). *)
Definition forward (env : nat -> AttemptEnv) (st : State) (conn : ConnInfo) (p : Pool Scheme)
    (now : Z) (rq : Parts) (has_body : bool) (r : RequestRecord) (w : World) :
    option (World * RequestRecord * result Response Unanswered) :=
  let w := put_pool p w in
  if negb (names_a_path (rq_uri rq)) then Some (w, r, Err (Refused UnsupportedTarget))
  else if asks_for_upgrade (rq_headers rq) then Some (w, r, Err (Refused UpgradeNotSupported))
  else
    let r := record_forwarding_to (p_id p) r in
    match pool_admit now p with
    | (p, Err MaxInFlight) =>
        Some (emit (PoolFullCounted (p_id p)) (put_pool p w), r, Err (Refused PoolFull))
    | (p, Err MaxRequestsPerSecond) =>
        Some (emit (PoolRateLimitedCounted (p_id p)) (put_pool p w), r, Err (Refused PoolRateLimited))
    | (p, Ok guard) =>
        let w := mkWorld (Some p) (Some (guard, 1)) (w_events w) (w_sent w) in
        let head := to_backend rq (forwarding_of conn r) in
        let a := attempting_of st conn head has_body r in
        match forward_loop 2 env a 0 (rq_headers head) (negb (ag_replayable a)) r w with
        | Some (w, r, result) => Some (admitted_drop w, r, result)
        | None => None
        end
    end.

(** ** The handler: [mod.rs] *)

(** The response to a request, with the record it carries; an abandoned
    request has already been reported, and so has one whose handler was
    dropped before there was a response. *)
Inductive Handled :=
| Observed (response : Response) (record : RequestRecord)
| Abandoned (response : Response)
| Vanished.

Definition own_answer (a : Answer) : Response :=
  mkResponse (an_status a) (an_headers a) (body_full (an_text a)).

Definition respond_with (response : Response) (r : RequestRecord) : Handled :=
  Observed response (record_respond response r).

Definition refuse (why : Refusal) (r : RequestRecord) (w : World) : World * Handled :=
  let (w, r) := record_failed (refusal_reason why) r w in
  (w, respond_with (own_answer (refusal why (rr_request_id r) (rr_is_grpc r))) r).

Definition abandoned (now : Z) (r : RequestRecord) (w : World) : World * Handled :=
  (record_drop now r w, Abandoned (mkResponse 400 headers_new body_empty)).

(** When the last attempt was over. *)
Definition over_at (env : nat -> AttemptEnv) (now : Z) (r : RequestRecord) : Z :=
  match rr_upstream r with
  | Some u => now + ae_elapsed (env (pred (Z.to_nat (ul_attempts u))))
  | None => now
  end.

Definition route (env : nat -> AttemptEnv) (st : State) (conn : ConnInfo) (now : Z) (rq : Parts)
    (has_body : bool) (r : RequestRecord) (w : World) : option (World * Handled) :=
  match match_request (st_routes st) (l_id (ci_listener conn)) (rr_host r) (uri_path (rq_uri rq)) with
  | None => Some (refuse NoRoute r (emit NoRouteCounted w))
  | Some matched =>
      let r := record_matched matched r in
      match cr_action matched with
      | Redirect action =>
          let path_and_query := unwrap_or (lit "/") (uri_path_and_query (rq_uri rq)) in
          Some (w, respond_with (own_answer (redirect (ra_scheme action) (ra_status action)
                     (rr_host r) path_and_query (rr_request_id r))) r)
      | Fixed action =>
          Some (w, respond_with (own_answer (fixed (fa_status action) (fa_body action)
                     (rr_request_id r))) r)
      | Forward pool =>
          match pool_set_get pool (st_pools st) with
          | None => Some (refuse PoolNotFound r w)
          | Some p =>
              match forward env st conn p now rq has_body r w with
              | None => None
              | Some (w, r, Ok response) => Some (w, respond_with response r)
              | Some (w, r, Err (Refused why)) => Some (refuse why r w)
              | Some (w, r, Err ClientGone) => Some (abandoned (over_at env now r) r w)
              | Some (w, r, Err Cancelled) => Some (record_drop (over_at env now r) r w, Vanished)
              end
          end
      end
  end.

(** [Proxy::handle]; [random] are the numbers drawn for a request id. *)
Definition handle (env : nat -> AttemptEnv) (st : State) (conn : ConnInfo) (now : Z)
    (random : Z * Z) (rq : Parts) (has_body : bool) : option (World * Handled) :=
  let host := accepted_host (rq_uri rq) (rq_headers rq) (rq_version rq) (conn_sni conn)
                (st_certificates st) in
  let '(host, refused) :=
    match host with
    | Ok host => (host, None)
    | Err error => (host_error_into_host error, Some (host_error_refusal error))
    end in
  let (w, r) := record_begin now conn rq host (request_id random.1 random.2 (rq_headers rq))
                  world_start in
  match refused with
  | Some why => Some (refuse why r w)
  | None => route env st conn now rq has_body r w
  end.

(** The rest of the exchange: the response's body is polled as the client
    takes it, and dropped. *)
Definition finish (now : Z) (polls : list (Polled * bool)) (h : Handled) (w : World) : World :=
  match h with
  | Observed _ r => record_drop now (foldl observed_poll r polls) w
  | Abandoned _ | Vanished => w
  end.
End Node.
End Serving.

(** ** The deadline follows the request's progress *)

Section Deadline.
Context `{HttpLib} (timeouts : TimeoutsConfig).

(** A poll of a request's body: when, what it gave, whether the body then
    says that it has ended. *)
Notation BodyPoll := (Z * Polled * bool)%type.

Definition run_poll (p : SendProgress) (poll : BodyPoll) : SendProgress :=
  (counted_poll poll.1.1 poll.1.2 poll.2 0 p).2.

(** When something was last sent, counting from the start of the attempt. *)
Definition sent_at (last : Z) (poll : BodyPoll) : Z :=
  match poll.1.2 with ReadyFrame _ | ReadyEnd => poll.1.1 | _ => last end.

(** When the request was last complete, if it is. *)
Definition complete_at (complete : option Z) (poll : BodyPoll) : option Z :=
  match poll.1.2, poll.2 with
  | ReadyFrame _, true | ReadyEnd, _ => Some poll.1.1
  | _, _ => complete
  end.

(** The deadline without the rounding to milliseconds. *)
Definition exact_deadline (last : Z) (complete : option Z) : Z :=
  match complete with
  | None => last + upstream_first_byte timeouts
  | Some t => Z.min (last + upstream_first_byte timeouts) (t + request_total timeouts)
  end.

(** A time the progress can tell from "not complete". *)
Definition tellable (started t : Z) : Prop := started <= t < started + from_millis u64_max.

Definition tracks (p : SendProgress) (last : Z) (complete : option Z) : Prop :=
  sp_last_sent_ms p = as_millis (last - sp_started p) /\ tellable (sp_started p) last /\
  match complete with
  | None => sp_completed_ms p = NOT_COMPLETED
  | Some t => sp_completed_ms p = as_millis (t - sp_started p) /\ tellable (sp_started p) t
  end.

Lemma elapsed_tellable p t :
  tellable (sp_started p) t -> elapsed_ms p t = as_millis (t - sp_started p).
Proof.
  unfold tellable, elapsed_ms, saturating_duration_since, as_millis, from_millis. intros Ht.
  rewrite Z.max_r by lia. apply Z.min_l.
  assert ((t - sp_started p) / NANOS_PER_MILLI < u64_max); [|lia].
  apply Z.div_lt_upper_bound; unfold NANOS_PER_MILLI in *; lia.
Qed.

Lemma run_poll_started p poll : sp_started (run_poll p poll) = sp_started p.
Proof. unfold run_poll, counted_poll. destruct poll as [[t []] []]; reflexivity. Qed.

Lemma run_poll_tracks p poll last complete :
  tracks p last complete -> tellable (sp_started p) poll.1.1 ->
  tracks (run_poll p poll) (sent_at last poll) (complete_at complete poll).
Proof.
  destruct poll as [[t polled] ended]. intros Ht Hp. pose proof (elapsed_tellable p t Hp) as He.
  unfold elapsed_ms in He. destruct Ht as (Hl & Ht & Hc).
  unfold run_poll, counted_poll, sent_at, complete_at, tracks in *. cbn [fst snd] in *.
  destruct polled as [|f| |]; [split; auto|destruct ended|split; auto|];
    unfold body_ended, body_progressed, elapsed_ms; simpl; rewrite ?He; auto.
Qed.

Lemma as_millis_close d : 0 <= d -> d - NANOS_PER_MILLI < from_millis (as_millis d) <= d.
Proof.
  intros Hd. unfold from_millis, as_millis, NANOS_PER_MILLI.
  pose proof (Z.div_mod d 1000000 ltac:(lia)). pose proof (Z.mod_pos_bound d 1000000 ltac:(lia)). lia.
Qed.

(** While a request is being sent, the deadline for its response follows
    what was last sent, and once it is sent in full also the moment it was:
    to the millisecond, [upstream_first_byte] after the former and
    [request_total] after the latter, whichever is sooner. *)
Theorem deadline_tracks_progress now has_body start polls :
  tellable now start -> Forall (fun poll => tellable now poll.1.1) polls ->
  let p := foldl run_poll (attempt_started start (progress_begin now has_body)) polls in
  let exact :=
    exact_deadline (foldl sent_at start polls)
      (foldl complete_at (if has_body then None else Some now) polls) in
  exact - NANOS_PER_MILLI < response_deadline timeouts p <= exact.
Proof.
  intros Hs Hpolls p exact.
  assert (Ht : tracks p (foldl sent_at start polls)
                 (foldl complete_at (if has_body then None else Some now) polls) /\
               sp_started p = now).
  { unfold p. set (q := attempt_started start (progress_begin now has_body)).
    assert (Hq : tracks q start (if has_body then None else Some now) /\ sp_started q = now).
    { unfold q, tracks, attempt_started, progress_begin. cbn [sp_last_sent_ms sp_completed_ms sp_started].
      rewrite elapsed_tellable by done. simpl. split; [|done]. split; [done|]. split; [done|].
      destruct has_body; [done|]. rewrite Z.sub_diag. split; [done|].
      unfold tellable, from_millis, NANOS_PER_MILLI, u64_max. lia. }
    clearbody q. clear p exact. revert q start Hs Hq. generalize (if has_body then None else Some now).
    induction Hpolls as [|poll polls Hp Hpolls IH]; intros c q start Hs [Hq Hn]; [done|]. cbn [foldl].
    apply IH; [|split; [apply run_poll_tracks; [done|by rewrite Hn]|by rewrite run_poll_started]].
    unfold sent_at. destruct poll as [[t []] e]; done. }
  clearbody p. destruct Ht as [(Hl & Hlt & Hc) Hst]. unfold response_deadline, exact, exact_deadline.
  set (last := foldl sent_at start polls) in *. clearbody last.
  set (complete := foldl complete_at _ polls) in *. clearbody complete.
  unfold tellable in *. rewrite Hl, Hst in *.
  pose proof (as_millis_close (last - now) ltac:(lia)).
  destruct complete as [t|]; [destruct Hc as [-> Hct]|rewrite Hc, Z.eqb_refl; lia].
  pose proof (as_millis_close (t - now) ltac:(lia)) as Hm.
  assert (as_millis (t - now) <> NOT_COMPLETED) as Hne.
  { intros E. rewrite E in Hm. unfold NOT_COMPLETED in Hm. lia. }
  apply Z.eqb_neq in Hne. rewrite Hne. lia.
Qed.
End Deadline.

(** An upload of two pieces, the second the last. *)
Lemma deadline_tracks_progress_witness :
  let polls := [(from_millis 10, ReadyFrame (Data 5), false); (from_millis 15, Pending, false);
                (from_millis 40, ReadyFrame (Data 7), true)] in
  let p := foldl run_poll (attempt_started 0 (progress_begin 0 true)) polls in
  let exact := exact_deadline timeouts_default (from_millis 40) (Some (from_millis 40)) in
  exact - NANOS_PER_MILLI < response_deadline timeouts_default p <= exact.
Proof.
  apply (deadline_tracks_progress timeouts_default 0 true 0
    [(from_millis 10, ReadyFrame (Data 5), false); (from_millis 15, Pending, false);
     (from_millis 40, ReadyFrame (Data 7), true)]);
    [|repeat constructor]; unfold tellable; vm_compute; intuition congruence.
Defined.

Section Overdue.
Context (timeouts : TimeoutsConfig) (late : Z -> Z) (progress : Z -> SendProgress).

(** A backend is found overdue only at a moment past the deadline as it
    then stands, however often the deadline moved; and if the request stops
    making progress it is found overdue, however late the sleeps wake. *)
Theorem overdue_exact now stalled p :
  (forall t, 0 <= late t) -> (forall t, stalled <= t -> progress t = p) ->
  let rounds := S (Z.to_nat (Z.max stalled (response_deadline timeouts p) - now)) in
  exists w, overdue rounds timeouts late progress now = Some w /\ now <= w /\
    response_deadline timeouts (progress w) <= w.
Proof.
  intros Hlate Hp. set (settled := Z.max stalled (response_deadline timeouts p)).
  cbv zeta. remember (Z.to_nat (settled - now)) as n eqn:En.
  assert (Hn : settled - now <= Z.of_nat n) by lia. clear En. revert now Hn.
  induction n as [|n IH]; intros now Hn; cbn [overdue].
  - exists now. rewrite (Hp now) by lia.
    replace (response_deadline timeouts p <=? now) with true by (symmetry; apply Z.leb_le; lia).
    split; [done|]. lia.
  - destruct (response_deadline timeouts (progress now) <=? now) eqn:E; bool_facts.
    { exists now. split; [done|]. lia. }
    specialize (Hlate (response_deadline timeouts (progress now))) as Hl.
    destruct (IH (response_deadline timeouts (progress now) +
                    late (response_deadline timeouts (progress now)))) as (w & Hw & Hle & Hd); [lia|].
    exists w. split; [done|]. split; [lia|done].
Qed.
End Overdue.

(** The deadline moves once, when a piece is sent ten milliseconds in. *)
Lemma overdue_exact_witness :
  let p0 := progress_begin 0 true in
  let progress t := if t <? from_millis 10 then p0 else body_progressed (from_millis 10) p0 in
  let p := progress (from_millis 10) in
  let rounds := S (Z.to_nat (Z.max (from_millis 10) (response_deadline timeouts_default p) - 0)) in
  exists w, overdue rounds timeouts_default (fun _ => 1) progress 0 = Some w /\ 0 <= w /\
    response_deadline timeouts_default (progress w) <= w.
Proof.
  apply (overdue_exact timeouts_default (fun _ => 1)
    (fun t => if t <? from_millis 10 then progress_begin 0 true
              else body_progressed (from_millis 10) (progress_begin 0 true)) 0 (from_millis 10)).
  - intros _. lia.
  - intros t Ht. replace (t <? from_millis 10) with false by (symmetry; apply Z.ltb_ge; lia). reflexivity.
Defined.

(** ** What a request holds, and gives back *)

(** The counts of a pool: of its requests in flight, of a backend's. *)
Inductive Slot := PoolSlot | BackendSlot (idx : nat).

Definition count {T} (p : Pool T) (k : Slot) : Z :=
  match k with
  | PoolSlot => p_in_flight p
  | BackendSlot i => default 0 (p_inflight p !! i)
  end.

Definition slot_ok {T} (p : Pool T) (k : Slot) : Prop :=
  match k with PoolSlot => True | BackendSlot i => (i < length (p_inflight p))%nat end.

(** What a guard counts for. *)
Definition weight (g : InflightGuard) (k : Slot) : Z :=
  match g, k with
  | PoolCount, PoolSlot => 1
  | BackendCount i, BackendSlot j => if Nat.eqb i j then 1 else 0
  | _, _ => 0
  end.

Definition moved_by (d : Meanwhile) (k : Slot) : Z :=
  match k with PoolSlot => mw_in_flight d | BackendSlot i => mw_inflight d i end.

(** Two counts are the same: counters wrap around. *)
Definition same_count (a b : Z) : Prop := wrap64 a = wrap64 b.

#[export] Instance same_count_equivalence : Equivalence same_count.
Proof. unfold same_count. split; congruence. Qed.

#[export] Instance same_count_add : Proper (same_count ==> same_count ==> same_count) Z.add.
Proof.
  unfold same_count, wrap64. intros a b E c d F.
  rewrite (Z.add_mod a), (Z.add_mod b), E, F by lia. done.
Qed.

Lemma same_count_wrap a : same_count (wrap64 a) a.
Proof. unfold same_count, wrap64. apply Z.mod_mod. lia. Qed.

Lemma same_count_refl_eq a b : a = b -> same_count a b.
Proof. by intros ->. Qed.

#[export] Hint Resolve same_count_wrap : gfe.

Section Counts.
Context {T : Type}.
Implicit Types p : Pool T.

Lemma length_guard_drop g p : length (p_inflight (guard_drop g p)) = length (p_inflight p).
Proof. destruct g; simpl; [done..|]. by rewrite length_alter. Qed.

Lemma count_guard_drop g p k :
  slot_ok p k -> same_count (count (guard_drop g p) k) (count p k + - weight g k).
Proof.
  intros Hk. destruct g as [| |i], k as [|j]; simpl; rewrite ?Z.add_0_r; try done.
  - apply same_count_wrap.
  - destruct (Nat.eqb_spec i j) as [->|Hne].
    + rewrite list_lookup_alter_eq. destruct (lookup_lt_is_Some_2 _ _ Hk) as [n ->]. simpl.
      apply same_count_wrap.
    + rewrite list_lookup_alter_ne by done. by rewrite Z.add_0_r.
Qed.

Lemma admit_counts now p p' r k :
  pool_admit now p = (p', r) -> slot_ok p k ->
  length (p_inflight p') = length (p_inflight p) /\
  same_count (count p' k) (count p k + match r with Ok g => weight g k | Err _ => 0 end).
Proof.
  assert (Hrated : forall q g p' r,
    match p_rate q with
    | None => (q, Ok g)
    | Some rate =>
        let (rate, r) := token_bucket_try_acquire now rate in
        let q := set_counters q (p_counter q) (p_inflight q) (p_in_flight q) (Some rate) in
        if is_err r then (guard_drop g q, Err MaxRequestsPerSecond) else (q, Ok g)
    end = (p', r) -> slot_ok q k ->
    length (p_inflight p') = length (p_inflight q) /\
    same_count (count p' k + weight g k)
      (count q k + match r with Ok g => weight g k | Err _ => 0 end)).
  { clear. intros q g p' r E Hk. destruct (p_rate q) as [rate|].
    2: { by injection E as <- <-. }
    destruct (token_bucket_try_acquire now rate) as [rate' res]. cbv zeta in E.
    set (q' := set_counters q _ _ _ _) in E.
    assert (Hc : count q' k = count q k) by (by destruct k).
    destruct (is_err res); injection E as <- <-.
    - split; [by rewrite length_guard_drop|]. rewrite count_guard_drop by (by destruct k).
      rewrite Hc. apply same_count_refl_eq. lia.
    - by rewrite Hc. }
  unfold pool_admit. intros E Hk. destruct (p_max_in_flight p) as [max|].
  2: { destruct (Hrated _ NoCount _ _ E Hk) as [Hl Hc]. split; [done|]. rewrite <-Hc.
       apply same_count_refl_eq. simpl. lia. }
  set (q := set_counters p _ _ _ _) in E.
  assert (Hq : same_count (count q k) (count p k + weight PoolCount k)).
  { destruct k; simpl; rewrite ?Z.add_0_r; [apply same_count_wrap|done]. }
  assert (Hkq : slot_ok q k) by (by destruct k).
  destruct (max <=? p_in_flight p).
  - assert (p' = guard_drop PoolCount q /\ r = Err MaxInFlight) as [-> ->] by (split; congruence).
    split; [by rewrite length_guard_drop|]. rewrite count_guard_drop, Hq by done. apply same_count_refl_eq. lia.
  - destruct (Hrated q PoolCount _ _ E Hkq) as [Hl Hc]. split; [done|].
    rewrite Hq in Hc. replace (count p' k) with (count p' k + weight PoolCount k + - weight PoolCount k) by lia.
    rewrite Hc. apply same_count_refl_eq. lia.
Qed.

Lemma same_counters p : set_counters p (p_counter p) (p_inflight p) (p_in_flight p) (p_rate p) = p.
Proof. by destruct p. Qed.

(** Choosing a backend moves the pool's turn at most. *)
Lemma choose_keeps draw key healthy p p' i :
  choose draw key healthy p = Some (p', i) ->
  exists c, p' = set_counters p c (p_inflight p) (p_in_flight p) (p_rate p).
Proof.
  assert (Hturn : forall p p' i, in_turn p healthy = Some (p', i) ->
    exists c, p' = set_counters p c (p_inflight p) (p_in_flight p) (p_rate p)).
  { clear. intros p p' i. unfold in_turn. case_decide; [done|].
    destruct (healthy !! _); [|done]. intros [= <- <-]. eauto. }
  assert (Hrr : forall p p' i, round_robin draw healthy p = Some (p', i) ->
    exists c, p' = set_counters p c (p_inflight p) (p_in_flight p) (p_rate p)).
  { clear -Hturn. intros p p' i. unfold round_robin. destruct (p_uniform_weights p); [apply Hturn|].
    destruct (candidates_of p healthy); [|done]. destruct (_ =? 0); [apply Hturn|].
    intros [= <- <-]. exists (p_counter p). by rewrite same_counters. }
  unfold choose. intros E. destruct (p_policy p).
  - by eapply Hrr.
  - apply fmap_Some in E as (j & _ & [= -> ->]). exists (p_counter p). by rewrite same_counters.
  - cbv zeta in E. destruct (ring_pick _ _ _); [|by eapply Hrr].
    injection E as <- <-. exists (p_counter p). by rewrite same_counters.
Qed.

Lemma select_counts m draw key p p' o k :
  pool_select m draw key p = Some (p', o) -> slot_ok p k ->
  length (p_inflight p') = length (p_inflight p) /\ p_id p' = p_id p /\
  same_count (count p' k)
    (count p k + match o with Some sel => weight (sel_guard sel) k | None => 0 end).
Proof.
  intros E Hk. unfold pool_select in E. destruct (healthy_indices m p) as [[|i0 l]|]; [|..|done].
  { injection E as <- <-. by rewrite Z.add_0_r. }
  destruct (choose draw key (i0 :: l) p) as [[q idx]|] eqn:C; [|done].
  apply choose_keeps in C as [c ->]. cbn [p_backends p_policy p_inflight set_counters] in E.
  destruct (p_backends p !! idx); [|done]. case_bool_decide.
  - destruct (p_inflight p !! idx) as [n|] eqn:Hn; [|done]. injection E as <- <-. simpl.
    rewrite length_insert. split; [done|]. split; [done|]. destruct k as [|j]; simpl; [by rewrite Z.add_0_r|].
    destruct (Nat.eqb_spec idx j) as [->|Hne].
    + rewrite list_lookup_insert_eq by done. rewrite Hn. simpl. apply same_count_wrap.
    + rewrite list_lookup_insert_ne by done. by rewrite Z.add_0_r.
  - injection E as <- <-. destruct k; simpl; by rewrite Z.add_0_r.
Qed.
End Counts.

Lemma meanwhile_counts d p k :
  slot_ok p k -> same_count (count (meanwhile d p) k) (count p k + moved_by d k).
Proof.
  intros Hk. destruct k as [|i]; simpl; [apply same_count_wrap|].
  rewrite list_lookup_imap. destruct (lookup_lt_is_Some_2 _ _ Hk) as [n ->]. apply same_count_wrap.
Qed.

Section Ledger.
Context `{L : HttpLib}.
Implicit Types (w : World) (r : RequestRecord) (marks : list BackendBusy).

(** What the events add up to. *)
Definition tally (f : Event -> Z) (events : list Event) : Z := sum_list (f <$> events).

Definition in_flight_of (e : Event) : Z := match e with RequestsInFlight d => d | _ => 0 end.
Definition report_of (e : Event) : Z := match e with Reported _ => 1 | _ => 0 end.
Definition backend_gauge (g : str * str) (e : Event) : Z :=
  match e with UpstreamInFlight g' d => if decide (g = g') then d else 0 | _ => 0 end.

Lemma tally_snoc f events e : tally f (events ++ [e]) = tally f events + f e.
Proof. unfold tally. rewrite fmap_app, sum_list_app. simpl. lia. Qed.

Definition busy_of r : option BackendBusy := rr_upstream r ≫= ul_busy.

(** What the request holds of the pool: its place, and its backends'. *)
Definition held w (marks : list BackendBusy) (k : Slot) : Z :=
  match w_admitted w with Some (g, _) => weight g k | None => 0 end +
  sum_list ((fun b => weight (bb_least_request b) k) <$> marks).

Definition gauge_held (marks : list BackendBusy) (g : str * str) : Z :=
  sum_list ((fun b => if decide (g = bb_gauge b) then 1 else 0) <$> marks).

(** The requests in flight and the reports made, of this request. *)
Context (flights reports : Z).

(** The books of a request being served: the pool's counts are those of
    before ([p0]), what the others did ([others]) and what the request
    holds; its place is referred to by the forward, while it runs
    ([local]), and by its busy marks; and the gauge of a backend shows the
    marks. *)
Record Ledger (p0 : Pool Scheme) (others : Slot -> Z) (local : bool)
    (marks : list BackendBusy) w : Prop := mkLedger {
  lg_pool : exists p, w_pool w = Some p /\ length (p_inflight p) = length (p_inflight p0) /\
    forall k, slot_ok p0 k -> same_count (count p k) (count p0 k + others k + held w marks k);
  lg_refs : match w_admitted w with
    | Some (_, refs) => refs = (if local then 1 else 0) + Z.of_nat (length marks) /\ 0 < refs
    | None => local = false /\ marks = []
    end;
  lg_gauges : forall g, tally (backend_gauge g) (w_events w) = gauge_held marks g;
  lg_in_flight : tally in_flight_of (w_events w) = flights;
  lg_reports : tally report_of (w_events w) = reports;
}.

(** The events that no book is kept of. *)
Definition unbooked (e : Event) : bool :=
  match e with RequestsInFlight _ | UpstreamInFlight _ _ | Reported _ => false | _ => true end.

Lemma ledger_emit p0 others local marks e w :
  unbooked e = true -> Ledger p0 others local marks w -> Ledger p0 others local marks (emit e w).
Proof.
  intros He [Hp Hr Hg Hi Hn]. split; simpl; try done; intros; rewrite tally_snoc, ?Hg, ?Hi, ?Hn;
    destruct e; simpl in *; first [done|lia].
Qed.

Lemma ledger_send p0 others local marks s w :
  Ledger p0 others local marks w -> Ledger p0 others local marks (send s w).
Proof. by intros [Hp Hr Hg Hi Hn]. Qed.

Lemma slot_ok_length {T} (p q : Pool T) k :
  length (p_inflight p) = length (p_inflight q) -> slot_ok q k -> slot_ok p k.
Proof. intros E. destruct k; simpl; [done|]. by rewrite E. Qed.

(** The place is dropped by the forward or with a mark: the pool gets it back
    with the last reference. *)
Lemma ledger_admitted_drop p0 others (local : bool) marks g refs w :
  w_admitted w = Some (g, refs) -> 0 < refs ->
  refs - 1 = (if local then 1 else 0) + Z.of_nat (length marks) ->
  (exists p, w_pool w = Some p /\ length (p_inflight p) = length (p_inflight p0) /\
    forall k, slot_ok p0 k -> same_count (count p k) (count p0 k + others k + held w marks k)) ->
  (forall g, tally (backend_gauge g) (w_events w) = gauge_held marks g) ->
  tally in_flight_of (w_events w) = flights -> tally report_of (w_events w) = reports ->
  Ledger p0 others local marks (admitted_drop w).
Proof.
  intros Ha Hpos Hrefs (p & Hp & Hl & Hc) Hg Hi Hn. unfold admitted_drop, held in *.
  rewrite Ha in *. destruct (Z.eqb_spec refs 1) as [->|Hne].
  - assert (local = false /\ marks = []) as [-> ->]
      by (destruct local, marks; simpl in *; (done || lia)).
    unfold drop_guard. simpl. rewrite Hp. split; simpl; try done.
    eexists. split; [done|]. split; [by rewrite length_guard_drop|]. intros k Hk.
    rewrite count_guard_drop by (by eapply slot_ok_length). rewrite Hc by done.
    unfold held. simpl. apply same_count_refl_eq. lia.
  - split; simpl; try done; [eauto|lia].
Qed.

Lemma ledger_busy_drop p0 others local b marks w :
  Ledger p0 others local (b :: marks) w -> Ledger p0 others local marks (busy_drop b w).
Proof.
  intros [(p & Hp & Hl & Hc) Hr Hg Hi Hn]. unfold busy_drop.
  destruct (w_admitted w) as [[g refs]|] eqn:Ha; [|naive_solver]. destruct Hr as [Hr Hpos].
  unfold drop_guard. simpl. rewrite Hp. eapply (ledger_admitted_drop _ _ _ _ g refs); simpl; try done.
  - simpl in Hr. lia.
  - eexists. split; [done|]. split; [by rewrite length_guard_drop|]. intros k Hk.
    rewrite count_guard_drop by (by eapply slot_ok_length). rewrite Hc by done.
    unfold held. csimpl. rewrite Ha. apply same_count_refl_eq. lia.
  - intros g'. rewrite tally_snoc, Hg. unfold gauge_held. csimpl. case_decide; lia.
  - rewrite tally_snoc, Hi. simpl. lia.
  - rewrite tally_snoc, Hn. simpl. lia.
Qed.

Lemma ledger_forward_drop p0 others marks w :
  Ledger p0 others true marks w -> Ledger p0 others false marks (admitted_drop w).
Proof.
  intros [Hp Hr Hg Hi Hn]. destruct (w_admitted w) as [[g refs]|] eqn:Ha; [|naive_solver].
  destruct Hr as [Hr Hpos]. eapply (ledger_admitted_drop _ _ _ _ g refs); try done. simpl. lia.
Qed.

(** A new mark refers to the place too. *)
Lemma ledger_busy_new p0 others others' p p' d guard gauge marks w :
  Ledger p0 others true marks w -> w_pool w = Some p ->
  (forall k, slot_ok p0 k -> same_count (count p' k) (count p k + moved_by d k + weight guard k)) ->
  length (p_inflight p') = length (p_inflight p) ->
  (forall k, others' k = others k + moved_by d k) ->
  Ledger p0 others' true (mkBackendBusy guard gauge :: marks)
    (busy_new guard gauge (put_pool p' w)).1.
Proof.
  intros [(q & Hq & Hl & Hc) Hr Hg Hi Hn] Hp Hc' Hl' Ho. assert (q = p) as -> by congruence.
  unfold busy_new, admitted_clone. simpl. destruct (w_admitted w) as [[g refs]|] eqn:Ha; [|naive_solver].
  destruct Hr as [Hr Hpos]. split; simpl.
  - eexists. split; [done|]. split; [congruence|]. intros k Hk. rewrite Hc', Hc by done.
    unfold held. rewrite Ha. csimpl. apply same_count_refl_eq. rewrite Ho. lia.
  - lia.
  - intros g'. rewrite tally_snoc, Hg. unfold gauge_held. csimpl. case_decide; lia.
  - rewrite tally_snoc, Hi. simpl. lia.
  - rewrite tally_snoc, Hn. simpl. lia.
Qed.

Lemma ledger_swap p0 others local b c marks w :
  Ledger p0 others local (b :: c :: marks) w -> Ledger p0 others local (c :: b :: marks) w.
Proof.
  intros [(p & Hp & Hl & Hc) Hr Hg Hi Hn]. split; try done.
  - exists p. split; [done|]. split; [done|]. intros k Hk. rewrite Hc by done. unfold held. csimpl.
    apply same_count_refl_eq. lia.
  - destruct (w_admitted w) as [[]|]; [done|naive_solver].
  - intros g. rewrite Hg. unfold gauge_held. csimpl. lia.
Qed.

Lemma ledger_put_pool p0 others others' d p p' local marks w :
  Ledger p0 others local marks w -> w_pool w = Some p ->
  (forall k, slot_ok p0 k -> same_count (count p' k) (count p k + moved_by d k)) ->
  length (p_inflight p') = length (p_inflight p) ->
  (forall k, others' k = others k + moved_by d k) ->
  Ledger p0 others' local marks (put_pool p' w).
Proof.
  intros [(q & Hq & Hl & Hc) Hr Hg Hi Hn] Hp Hc' Hl' Ho. assert (q = p) as -> by congruence.
  split; simpl; try done. eexists. split; [done|]. split; [congruence|]. intros k Hk.
  rewrite Hc', Hc by done. unfold held. simpl. apply same_count_refl_eq. rewrite Ho. lia.
Qed.

Definition marks_of r : list BackendBusy := option_list (busy_of r).

Lemma ledger_drop_busy p0 others local busy marks w :
  Ledger p0 others local (option_list busy ++ marks) w ->
  Ledger p0 others local marks (drop_busy busy w).
Proof. destruct busy; [apply ledger_busy_drop|done]. Qed.

(** What the others did before the first [n] attempts. *)
Definition moved (env : nat -> AttemptEnv) (n : nat) (k : Slot) : Z :=
  sum_list ((fun i => moved_by (ae_meanwhile (env i)) k) <$> seq 0 n).

Lemma moved_S env n k : moved env (S n) k = moved env n k + moved_by (ae_meanwhile (env n)) k.
Proof. unfold moved. rewrite seq_S, fmap_app, sum_list_app. simpl. lia. Qed.

(** Selecting a backend after the others did something. *)
Lemma select_meanwhile m draw key d p p' o k :
  pool_select m draw key (meanwhile d p) = Some (p', o) -> slot_ok p k ->
  length (p_inflight p') = length (p_inflight p) /\
  same_count (count p' k)
    (count p k + moved_by d k + match o with Some sel => weight (sel_guard sel) k | None => 0 end).
Proof.
  intros E Hk. assert (Hl : length (p_inflight (meanwhile d p)) = length (p_inflight p)).
  { simpl. by rewrite length_imap. }
  assert (Hk' : slot_ok (meanwhile d p) k) by (by eapply slot_ok_length).
  destruct (select_counts _ _ _ _ _ _ k E Hk') as (Hl' & _ & Hc). split; [congruence|].
  by rewrite Hc, meanwhile_counts.
Qed.

Lemma attempting_ledger p0 others backend b r w :
  is_Some (rr_upstream r) -> Ledger p0 others true (b :: marks_of r) w ->
  let (w', r') := record_attempting backend b r w in
  Ledger p0 others true (marks_of r') w' /\ is_Some (rr_upstream r').
Proof.
  intros [u Hu] Hl. unfold record_attempting. rewrite Hu. split; [|done]. cbn.
  apply ledger_drop_busy. unfold marks_of, busy_of in Hl. rewrite Hu in Hl. simpl in Hl.
  destruct (ul_busy u); [|done]. by apply ledger_swap.
Qed.

Lemma failed_ledger p0 others a kind attempts gauge marks w :
  Ledger p0 others true marks w ->
  Ledger p0 others true marks (attempt_failed a kind attempts gauge w).1.
Proof.
  intros Hl. unfold attempt_failed. destruct (negb _); simpl; by repeat apply ledger_emit.
Qed.

(** A backend is selected and marked busy, a retry counted first. *)
Lemma selected_ledger env attempts key r w p0 p p' sel gauge :
  Ledger p0 (moved env attempts) true (marks_of r) w -> w_pool w = Some p ->
  pool_select (ae_health (env attempts)) (ae_draw (env attempts)) key
    (meanwhile (ae_meanwhile (env attempts)) p) = Some (p', Some sel) ->
  Ledger p0 (moved env (S attempts)) true (mkBackendBusy (sel_guard sel) gauge :: marks_of r)
    (busy_new (sel_guard sel) gauge
      (let w := put_pool p' w in
       if Nat.ltb 1 (S attempts) then emit (RetriesCounted (p_id p')) w else w)).1.
Proof.
  intros Hl Hp Esel. destruct (lg_pool _ _ _ _ _ Hl) as (p1 & Hp1 & Hlen & _).
  rewrite Hp in Hp1. injection Hp1 as <-. cbv zeta. set (w1 := if Nat.ltb 1 (S attempts) then _ else _).
  assert (exists w0, w1 = put_pool p' w0 /\ w_pool w0 = Some p /\
            Ledger p0 (moved env attempts) true (marks_of r) w0) as (w0 & -> & Hp0 & Hl0).
  { unfold w1. destruct (Nat.ltb _ _); [|by exists w].
    exists (emit (RetriesCounted (p_id p')) w). split; [done|]. split; [done|]. by apply ledger_emit. }
  eapply (ledger_busy_new _ _ _ p p' (ae_meanwhile (env attempts))); [done|done| | |apply moved_S].
  - intros k Hk. eapply select_meanwhile in Esel as [_ Hc]; [|by eapply slot_ok_length]. done.
  - by destruct (select_meanwhile _ _ _ _ _ _ _ PoolSlot Esel I).
Qed.

Lemma loop_ledger fuel env a attempts headers streamed r w p0 w' r' res :
  Ledger p0 (moved env attempts) true (marks_of r) w -> is_Some (rr_upstream r) ->
  forward_loop fuel env a attempts headers streamed r w = Some (w', r', res) ->
  exists n, Ledger p0 (moved env n) true (marks_of r') w' /\ is_Some (rr_upstream r').
Proof.
  revert attempts headers streamed r w.
  induction fuel as [|fuel IH]; intros attempts headers streamed r w Hl Hu; [done|].
  cbn [forward_loop]. destruct (lg_pool _ _ _ _ _ Hl) as (p & Hp & Hlen & _). rewrite Hp.
  set (e := env attempts). destruct (pool_select _ _ _ _) as [[p' [sel|]]|] eqn:Esel; [| |done].
  2: { intros [= <- <- <-]. exists (S attempts). split; [|done]. apply ledger_emit; [done|].
       eapply (ledger_put_pool _ _ _ (ae_meanwhile e)); [done|done| | |apply moved_S].
       - intros k Hk. eapply select_meanwhile in Esel as [_ Hc]; [|by eapply slot_ok_length].
         by rewrite Hc, Z.add_0_r.
       - by destruct (select_meanwhile _ _ _ _ _ _ _ PoolSlot Esel I). }
  set (gauge := (p_id p', authority (sel_backend sel))).
  set (w1 := if Nat.ltb 1 (S attempts) then _ else _).
  assert (Hl1 := selected_ledger env attempts _ r w p0 p p' sel gauge Hl Hp Esel).
  cbv zeta in Hl1. fold w1 in Hl1.
  destruct (busy_new (sel_guard sel) gauge w1) as [w2 busy] eqn:Eb. unfold busy_new in Eb.
  injection Eb as <- <-. cbn [fst] in Hl1.
  pose proof (attempting_ledger p0 _ (authority (sel_backend sel)) _ r _ Hu Hl1) as Hl2.
  destruct (record_attempting _ _ r _) as [w3 r3]. destruct Hl2 as [Hl3 Hu3].
  set (w4 := send _ w3).
  assert (Hl4 : Ledger p0 (moved env (S attempts)) true (marks_of r3) w4) by (by apply ledger_send).
  clearbody w4. set (r4 := set_request_bytes _ r3).
  assert (Hm4 : marks_of r4 = marks_of r3) by done. assert (Hu4 : is_Some (rr_upstream r4)) by done.
  clearbody r4. rewrite <-Hm4 in Hl4.
  destruct (ae_cancelled e); [intros [= <- <- <-]; by exists (S attempts)|].
  apply (ledger_emit _ _ _ _ (DurationObserved gauge)) in Hl4; [|done].
  set (w4' := emit (DurationObserved gauge) w4) in *. clearbody w4'. clear w4. rename w4' into w4.
  destruct (negb _ && _) eqn:Eo.
  { destruct (sp_waiting_for_client _); intros [= <- <- <-]; exists (S attempts); split; try done.
    by do 2 (apply ledger_emit; [done|]). }
  destruct (ae_result e) as [response|failure].
  { intros [= <- <- <-]. exists (S attempts). unfold record_upstream_responded.
    destruct Hu4 as [u Hu4]. rewrite Hu4. split; [|done]. apply ledger_emit; [done|].
    unfold marks_of, busy_of in *. by rewrite Hu4 in Hl4. }
  destruct (sp_client_failed _); [intros [= <- <- <-]; eauto|].
  pose proof (failed_ledger p0 _ a (classify failure) (Z.of_nat (S attempts)) gauge _ w4 Hl4) as Hl5.
  destruct (attempt_failed _ _ _ _ w4) as [w5 [unanswered|]]; cbn [fst] in Hl5.
  - intros [= <- <- <-]. eauto.
  - by apply IH.
Qed.
End Ledger.

Section Exchange.
Context `{L : HttpLib} (hash_ip : IpAddr -> Z).
Implicit Types (w : World) (r : RequestRecord).

(** Before anything is forwarded. *)
Record Idle (flights reports : Z) w : Prop := mkIdle {
  id_pool : w_pool w = None;
  id_admitted : w_admitted w = None;
  id_gauges : forall g, tally (backend_gauge g) (w_events w) = 0;
  id_in_flight : tally in_flight_of (w_events w) = flights;
  id_reports : tally report_of (w_events w) = reports;
}.

(** The books of an exchange: nothing was forwarded, or the request was to a
    pool of the config. *)
Definition Books (flights reports : Z) (env : nat -> AttemptEnv) (st : State)
    (marks : list BackendBusy) w : Prop :=
  (Idle flights reports w /\ marks = []) \/
  exists id p n, st_pools st !! id = Some p /\
    Ledger flights reports p (moved env n) false marks w.

Lemma idle_ledger flights reports p others w :
  Idle flights reports w -> (forall k, others k = 0) ->
  Ledger flights reports p others false [] (put_pool p w).
Proof.
  intros [Hp Ha Hg Hi Hn] Ho. split; simpl; try done; [|by rewrite Ha].
  exists p. split; [done|]. split; [done|]. intros k _. unfold held. simpl. rewrite Ha, Ho.
  apply same_count_refl_eq. simpl. lia.
Qed.

Lemma forward_ledger flights reports env st conn p now rq has_body r w w' r' res :
  Idle flights reports w -> marks_of r = [] ->
  forward hash_ip env st conn p now rq has_body r w = Some (w', r', res) ->
  exists n, Ledger flights reports p (moved env n) false (marks_of r') w'.
Proof.
  intros Hi Hm. unfold forward. set (w0 := put_pool p w).
  assert (Hl0 : Ledger flights reports p (moved env 0) false [] w0) by (by apply idle_ledger).
  destruct (negb (names_a_path _)); [intros [= <- <- <-]; exists 0%nat; by rewrite Hm|].
  destruct (asks_for_upgrade _); [intros [= <- <- <-]; exists 0%nat; by rewrite Hm|].
  destruct (pool_admit now p) as [p' [guard|limit]] eqn:Ea.
  - set (w1 := mkWorld _ _ _ _).
    assert (Hl1 : Ledger flights reports p (moved env 0) true
                    (marks_of (record_forwarding_to (p_id p) r)) w1).
    { destruct Hl0 as [_ _ Hg Hf Hn]. split; simpl; try done.
      exists p'. split; [done|]. split; [by destruct (admit_counts _ _ _ _ PoolSlot Ea I)|].
      intros k Hk. destruct (admit_counts _ _ _ _ k Ea Hk) as [_ Hc]. rewrite Hc. unfold held, moved.
      simpl. apply same_count_refl_eq. lia. }
    destruct (forward_loop _ _ _ _ _ _ _ w1) as [[[w2 r2] res2]|] eqn:El; [|done].
    intros [= <- <- <-].
    destruct (loop_ledger _ _ _ _ _ _ _ _ _ _ _ _ _ _ Hl1 ltac:(done) El) as (n & Hl2 & _).
    exists n. by apply ledger_forward_drop.
  - assert (Hl1 : Ledger flights reports p (moved env 0) false [] (put_pool p' w0)).
    { destruct Hi as [Hp Hadm Hg Hf Hn]. split; simpl; try done; [|by rewrite Hadm].
      exists p'. split; [done|]. split; [by destruct (admit_counts _ _ _ _ PoolSlot Ea I)|].
      intros k Hk. destruct (admit_counts _ _ _ _ k Ea Hk) as [_ Hc]. rewrite Hc. unfold held, moved.
      simpl. rewrite Hadm. apply same_count_refl_eq. simpl. lia. }
    destruct limit; intros [= <- <- <-]; exists 0%nat; by apply ledger_emit.
Qed.

Lemma books_drop_busy flights reports env st busy w :
  Books flights reports env st (option_list busy) w ->
  Books flights reports env st [] (drop_busy busy w).
Proof.
  intros [[Hi Hm]|(id & p & n & Hp & Hl)]; [left; by destruct busy|].
  right. exists id, p, n. split; [done|]. apply ledger_drop_busy. by rewrite app_nil_r.
Qed.

Lemma books_emit flights reports env st marks e w :
  unbooked e = true -> Books flights reports env st marks w ->
  Books flights reports env st marks (emit e w).
Proof.
  intros He [[[Hp Ha Hg Hi Hn] Hm]|(id & p & n & Hp & Hl)].
  - left. split; [|done]. split; simpl; try done; intros; rewrite tally_snoc, ?Hg, ?Hi, ?Hn;
      destruct e; simpl in *; first [done|lia].
  - right. exists id, p, n. split; [done|]. by apply ledger_emit.
Qed.

Lemma books_report env st marks now r w :
  Books 1 0 env st marks w ->
  Books 0 1 env st marks (emit (Reported (record_report now r)) (emit (RequestsInFlight (-1)) w)).
Proof.
  intros [[[Hp Ha Hg Hi Hn] Hm]|(id & p & n & Hp & [Hpool Hr Hg Hi Hn])].
  - left. split; [|done]. split; simpl; try done; intros; rewrite !tally_snoc, ?Hg, ?Hi, ?Hn; done.
  - right. exists id, p, n. split; [done|].
    split; simpl; try done; intros; rewrite !tally_snoc, ?Hg, ?Hi, ?Hn; simpl; lia.
Qed.

Lemma books_record_drop env st now r w :
  Books 1 0 env st (marks_of r) w -> Books 0 1 env st [] (record_drop now r w).
Proof.
  intros H. apply (books_report _ _ _ now r) in H. unfold record_drop. revert H.
  unfold marks_of, busy_of. destruct (rr_upstream r); [apply books_drop_busy|done].
Qed.

(** The books of what the handler returns. *)
Definition handled_books env st (h : Handled) w : Prop :=
  match h with
  | Observed _ r => Books 1 0 env st (marks_of r) w
  | Abandoned _ | Vanished => Books 0 1 env st [] w
  end.

Lemma respond_marks response r : marks_of (record_respond response r) = marks_of r.
Proof. unfold record_respond, note_if_ended. by destruct (bd_is_end_stream _). Qed.

Lemma observed_marks r polls : marks_of (foldl observed_poll r polls) = marks_of r.
Proof.
  revert r. induction polls as [|[polled ended] polls IH]; intros r; [done|]. cbn [foldl].
  rewrite IH. unfold observed_poll, note_if_ended. simpl.
  destruct polled; [done|destruct ended; done|done|done].
Qed.

Lemma refuse_books env st why r w w' h :
  refuse why r w = (w', h) -> Books 1 0 env st (marks_of r) w -> handled_books env st h w'.
Proof.
  intros E Hb. change (handled_books env st (w', h).2 (w', h).1). rewrite <-E.
  unfold refuse, record_failed, marks_of, busy_of in *. simpl.
  destruct (rr_upstream r) as [u|] eqn:Hu; simpl in *; rewrite respond_marks;
    unfold marks_of, busy_of; simpl; [by apply books_drop_busy|done].
Qed.

Lemma route_books env st conn now rq has_body r w w' h :
  Idle 1 0 w -> rr_upstream r = None ->
  route hash_ip env st conn now rq has_body r w = Some (w', h) -> handled_books env st h w'.
Proof.
  intros Hi Hu. assert (Hm : marks_of r = []) by (unfold marks_of, busy_of; by rewrite Hu).
  assert (Hb : Books 1 0 env st (marks_of r) w) by (left; done).
  unfold route. destruct (match_request _ _ _ _) as [matched|].
  2: { intros [= E]. eapply refuse_books; [exact E|]. by apply books_emit. }
  set (r1 := record_matched matched r).
  assert (Hm1 : marks_of r1 = []) by done. assert (Hb1 : Books 1 0 env st (marks_of r1) w) by done.
  destruct (cr_action matched) as [pool|redirect|fixed].
  - unfold pool_set_get. destruct (st_pools st !! pool) as [p|] eqn:Ep.
    2: { intros [= E]. by eapply refuse_books. }
    destruct (forward _ _ _ _ _ _ _ _ _ _) as [[[w2 r2] res]|] eqn:Ef; [|done].
    apply (forward_ledger 1 0) in Ef as [n Hl]; [|done|done].
    assert (Hb2 : Books 1 0 env st (marks_of r2) w2) by (right; eauto).
    destruct res as [response|[why| |]]; intros [= E].
    + subst. simpl. by rewrite respond_marks.
    + by eapply refuse_books.
    + subst. by apply books_record_drop.
    + subst. by apply books_record_drop.
  - intros [= <- <-]. simpl. by rewrite respond_marks.
  - intros [= <- <-]. simpl. by rewrite respond_marks.
Qed.

(** C3: when an exchange is over, however it went, whether the handler was
    dropped and however much of the response was taken, the request has been reported exactly once and is no
    longer in flight, no backend is marked busy with it, and the pool it was
    forwarded to has every place back: its counts are those of before and
    what other requests did. *)
Theorem exchange_balanced env st conn now random rq has_body later polls w h :
  handle hash_ip env st conn now random rq has_body = Some (w, h) ->
  let w' := finish later polls h w in
  tally report_of (w_events w') = 1 /\ tally in_flight_of (w_events w') = 0 /\
  (forall gauge, tally (backend_gauge gauge) (w_events w') = 0) /\ w_admitted w' = None /\
  forall p', w_pool w' = Some p' -> exists id p n, st_pools st !! id = Some p /\
    forall k, slot_ok p k -> same_count (count p' k) (count p k + moved env n k).
Proof.
  intros Hh w'. assert (Hb : handled_books env st h w).
  { revert Hh. unfold handle. cbv zeta. set (host := accepted_host _ _ _ _ _).
    destruct host as [host|error]; intros Hh.
    - by eapply route_books; [| |exact Hh].
    - apply (inj Some) in Hh. eapply refuse_books; [exact Hh|]. left. done. }
  assert (Hb' : Books 0 1 env st [] w').
  { unfold w', finish. destruct h as [response r|response|]; [|done..].
    apply books_record_drop. by rewrite observed_marks. }
  clearbody w'. destruct Hb' as [[[Hp Ha Hg Hi Hn] _]|(id & p & n & Hp & [(q & Hq & Hl & Hc) Hr Hg Hi Hn])].
  - split; [done|]. split; [done|]. split; [done|]. split; [done|]. congruence.
  - destruct (w_admitted w') as [[g refs]|] eqn:Ha; [simpl in Hr; lia|].
    split; [done|]. split; [done|]. split; [done|]. split; [done|].
    intros p' [= <-]%(eq_trans (eq_sym Hq)). exists id, p, n. split; [done|].
    intros k Hk. rewrite Hc by done. unfold held. rewrite Ha. apply same_count_refl_eq. simpl. lia.
Qed.
End Exchange.

(** ** A request is sent at most twice, and only what can be replayed *)

(** The same pool with other counters. *)
Definition alike {T} (p q : Pool T) : Prop :=
  exists counter inflight in_flight rate, q = set_counters p counter inflight in_flight rate /\
    length inflight = length (p_inflight p).

Section Alike.
Context {T : Type}.
Implicit Types p q : Pool T.

Lemma alike_refl p : alike p p.
Proof. exists (p_counter p), (p_inflight p), (p_in_flight p), (p_rate p). by destruct p. Qed.

Lemma alike_trans p q q' : alike p q -> alike q q' -> alike p q'.
Proof.
  intros (c & l & n & r & -> & H) (c' & l' & n' & r' & -> & H'). exists c', l', n', r'.
  split; [done|]. simpl in H'. congruence.
Qed.

Lemma alike_set p counter inflight in_flight rate :
  length inflight = length (p_inflight p) -> alike p (set_counters p counter inflight in_flight rate).
Proof. intros H. by exists counter, inflight, in_flight, rate. Qed.

Lemma alike_ok m p q : alike p q -> pool_ok m p -> pool_ok m q.
Proof.
  intros (c & l & n & r & -> & H) (H1 & H2 & H3 & H4 & H5).
  split; [simpl; congruence|]. split; [done|]. split; [done|]. split; done.
Qed.

Lemma alike_healthy m p q i : alike p q -> is_healthy m q i = is_healthy m p i.
Proof. by intros (c & l & n & r & -> & H). Qed.

Lemma guard_drop_alike g p : alike p (guard_drop g p).
Proof.
  destruct g as [| |i]; [apply alike_refl|by apply alike_set|]. apply alike_set. by rewrite length_alter.
Qed.

Lemma admit_alike now p : alike p (pool_admit now p).1.
Proof.
  assert (Hrated : forall q guard, alike p q ->
    alike p (match p_rate q with
     | None => (q, Ok guard)
     | Some rate =>
        let (rate, r) := token_bucket_try_acquire now rate in
        let q := set_counters q (p_counter q) (p_inflight q) (p_in_flight q) (Some rate) in
        if is_err r then (guard_drop guard q, Err MaxRequestsPerSecond) else (q, Ok guard)
    end).1).
  { intros q guard Hq. destruct (p_rate q) as [rate|]; [|done].
    destruct (token_bucket_try_acquire now rate) as [rate' r]. cbv zeta.
    assert (Hq' : alike p (set_counters q (p_counter q) (p_inflight q) (p_in_flight q) (Some rate')))
      by (eapply alike_trans; [done|by apply alike_set]).
    destruct (is_err r); [|done]. cbn [fst]. eapply alike_trans; [done|apply guard_drop_alike]. }
  unfold pool_admit. destruct (p_max_in_flight p); [|apply Hrated, alike_refl].
  destruct (_ <=? _); [|apply Hrated; by apply alike_set]. cbn [fst].
  eapply alike_trans; [|apply guard_drop_alike]. by apply alike_set.
Qed.

Lemma select_alike m draw key p p' o : pool_select m draw key p = Some (p', o) -> alike p p'.
Proof.
  unfold pool_select. destruct (healthy_indices m p) as [[|i0 l]|]; [|..|done].
  { intros [= <- <-]. apply alike_refl. }
  destruct (choose draw key (i0 :: l) p) as [[q idx]|] eqn:C; [|done].
  apply choose_keeps in C as [c ->]. cbn [p_backends p_policy p_inflight set_counters].
  assert (Hc : alike p (set_counters p c (p_inflight p) (p_in_flight p) (p_rate p)))
    by (by apply alike_set).
  destruct (p_backends p !! idx); [|done]. case_bool_decide.
  - destruct (p_inflight p !! idx); [|done]. intros [= <- <-]. eapply alike_trans; [exact Hc|].
    apply alike_set. simpl. by rewrite length_insert.
  - by intros [= <- <-].
Qed.
End Alike.

Lemma meanwhile_alike d p : alike p (meanwhile d p).
Proof. apply alike_set. by rewrite length_imap. Qed.

Section Attempts.
Context `{L : HttpLib} (hash_ip : IpAddr -> Z).
Implicit Types (w : World) (r : RequestRecord).

(** The pool of a world, up to its counters. *)
Definition serves (p : Pool Scheme) w : Prop := exists q, w_pool w = Some q /\ alike p q.

Lemma serves_drop_guard p g w : serves p w -> serves p (drop_guard g w).
Proof.
  intros (q & Hq & Ha). unfold drop_guard. rewrite Hq. exists (guard_drop g q). split; [done|].
  eapply alike_trans; [done|apply guard_drop_alike].
Qed.

Lemma serves_admitted_drop p w : serves p w -> serves p (admitted_drop w).
Proof.
  intros H. unfold admitted_drop. destruct (w_admitted w) as [[g refs]|]; [|done].
  destruct (refs =? 1); [|done]. by apply serves_drop_guard.
Qed.

Lemma serves_drop_busy p busy w : serves p w -> serves p (drop_busy busy w).
Proof.
  intros H. destruct busy as [b|]; [|done]. by apply serves_admitted_drop, serves_drop_guard.
Qed.

Lemma drop_busy_sent busy w : w_sent (drop_busy busy w) = w_sent w.
Proof.
  destruct busy as [b|]; [|done]. unfold drop_busy, busy_drop, drop_guard, admitted_drop. simpl.
  destruct (w_pool w); simpl; destruct (w_admitted w) as [[g refs]|]; simpl; try done;
    destruct (refs =? 1); try done; unfold drop_guard; simpl; by destruct (w_pool w).
Qed.

Lemma attempting_serves p backend b r w :
  is_Some (rr_upstream r) -> serves p w ->
  serves p (record_attempting backend b r w).1 /\
  w_sent (record_attempting backend b r w).1 = w_sent w /\
  is_Some (rr_upstream (record_attempting backend b r w).2).
Proof.
  intros [u Hu] H. unfold record_attempting. rewrite Hu. simpl. rewrite drop_busy_sent.
  split; [by apply serves_drop_busy|done].
Qed.

(** An attempt as it should be: the request whole, to a backend of the pool
    that is healthy when it is selected. *)
Definition attempt_ok (env : nat -> AttemptEnv) (a : Attempting) (p : Pool Scheme)
    (headers : HeaderMap) (i : nat) (s : Sent) : Prop :=
  sn_headers s = headers /\ sn_streamed s = negb (ag_replayable a) /\
  sn_method s = ag_method a /\ sn_version s = ag_version a /\
  sn_path_and_query s = ag_path_and_query a /\ sn_scheme s = p_payload p /\
  exists idx b, p_backends p !! idx = Some b /\ sn_authority s = authority b /\
    is_healthy (ae_health (env i)) p idx = Some true.

(** An attempt that failed in a way another backend could fare better at. *)
Definition worth_retrying (e : AttemptEnv) : Prop :=
  exists kind, ae_result e = Err kind /\ is_retryable (classify kind) = true /\
    sp_client_failed (ae_progress e) = false /\ ae_cancelled e = false.

Lemma attempt_failed_again a kind attempts gauge w w' o :
  attempt_failed a kind attempts gauge w = (w', o) ->
  w_sent w' = w_sent w /\ w_pool w' = w_pool w /\
  (o = None -> ag_replayable a = true /\ is_retryable kind = true /\ attempts < MAX_ATTEMPTS).
Proof.
  unfold attempt_failed, may_retry. cbn. destruct (negb (is_the_backends kind)).
  { intros [= <- <-]. done. }
  destruct (_ && _) eqn:E; intros [= <- <-]; bool_facts; done.
Qed.

(** What a forward makes of the attempts from [attempts] on. *)
Definition attempts_made (env : nat -> AttemptEnv) (a : Attempting) (p : Pool Scheme)
    (headers : HeaderMap) (attempts : nat) (w : World)
    (out : option (World * RequestRecord * result Response Unanswered)) : Prop :=
  exists w' r' res sent,
    out = Some (w', r', res) /\
    w_sent w' = w_sent w ++ sent /\ (length sent <= 2 - attempts)%nat /\
    (ag_replayable a = false -> (length sent <= 1)%nat) /\
    (forall i s, sent !! i = Some s -> attempt_ok env a p headers (attempts + i) s) /\
    ((1 < length sent)%nat -> worth_retrying (env attempts)).

(** The attempt is the last. *)
Lemma attempts_made_one env a p headers attempts request w w1 w' r' res :
  (attempts < 2)%nat -> attempt_ok env a p headers attempts request ->
  w_sent w1 = w_sent w ++ [request] -> w_sent w' = w_sent w1 ->
  attempts_made env a p headers attempts w (Some (w', r', res)).
Proof.
  intros H2 Hreq Hs Hw'. exists w', r', res, [request]. rewrite Hw', Hs. simpl.
  split; [done|]. split; [done|]. split; [lia|]. split; [lia|]. split; [|lia].
  intros [|i] s; [|done]. intros [= <-]. by rewrite Nat.add_0_r.
Qed.

(** The attempt is followed by another. *)
Lemma attempts_made_again env a p headers request w w1 out :
  attempt_ok env a p headers 0 request -> ag_replayable a = true -> worth_retrying (env 0%nat) ->
  w_sent w1 = w_sent w ++ [request] -> attempts_made env a p headers 1 w1 out ->
  attempts_made env a p headers 0 w out.
Proof.
  intros Hreq Hrep Hw Hs (w' & r' & res & sent & -> & Hsent & Hlen & _ & Hall & _).
  exists w', r', res, (request :: sent). rewrite Hsent, Hs, <-app_assoc. simpl.
  split; [done|]. split; [done|]. split; [lia|]. split; [congruence|]. split; [|done].
  intros [|i] s; [by intros [= <-]|]. by apply Hall.
Qed.

Lemma busy_new_serves p g gauge w : serves p w ->
  serves p (busy_new g gauge w).1 /\ w_sent (busy_new g gauge w).1 = w_sent w.
Proof.
  intros (q & Hq & Ha). unfold busy_new, admitted_clone. simpl.
  destruct (w_admitted w) as [[]|]; (split; [by exists q|done]).
Qed.

Lemma loop_attempts env a p headers (Hok : forall i, pool_ok (ae_health (env i)) p)
    fuel attempts r w :
  serves p w -> is_Some (rr_upstream r) -> (attempts < 2)%nat -> (2 <= fuel + attempts)%nat ->
  attempts_made env a p headers attempts w
    (forward_loop fuel env a attempts headers (negb (ag_replayable a)) r w).
Proof.
  revert attempts r w. induction fuel as [|fuel IH]; intros attempts r w (q & Hq & Ha) Hu H2 Hf; [lia|].
  cbn [forward_loop]. rewrite Hq. set (e := env attempts).
  assert (Ha' : alike p (meanwhile (ae_meanwhile e) q))
    by (eapply alike_trans; [done|apply meanwhile_alike]).
  destruct (select_ok (ae_health e) (ae_draw e) (Some (ag_hash_key a)) (meanwhile (ae_meanwhile e) q))
    as (q' & o & Hsel & _ & Ho); [eapply alike_ok; [exact Ha'|apply Hok]|]. rewrite Hsel.
  pose proof (alike_trans _ _ _ Ha' (select_alike _ _ _ _ _ _ Hsel)) as Hq'.
  destruct o as [sel|].
  2: { eexists _, _, _, []. split; [done|]. rewrite app_nil_r. repeat split; simpl; try done; lia. }
  destruct Ho as (idx & Hb & Hh). rewrite (alike_healthy _ _ _ _ Ha') in Hh.
  set (gauge := (p_id q', _)). set (w1 := if Nat.ltb 1 (S attempts) then _ else _).
  assert (Hw1 : serves p w1) by (exists q'; unfold w1; by destruct (Nat.ltb _ _)).
  assert (Hs1 : w_sent w1 = w_sent w) by (unfold w1; by destruct (Nat.ltb _ _)).
  destruct (busy_new_serves p (sel_guard sel) gauge w1 Hw1) as [Hw2 Hs2].
  destruct (busy_new (sel_guard sel) gauge w1) as [w2 busy]. cbn [fst] in Hw2, Hs2.
  destruct (attempting_serves p (authority (sel_backend sel)) busy r w2 Hu Hw2) as (Hw3 & Hs3 & Hu3).
  destruct (record_attempting _ _ r w2) as [w3 r3]. cbn [fst snd] in Hw3, Hs3, Hu3.
  set (request := mkSent _ _ _ _ _ _ _). set (w4 := send request w3).
  assert (Hw4 : serves p w4) by done.
  assert (Hs4 : w_sent w4 = w_sent w ++ [request]) by (simpl; by rewrite Hs3, Hs2, Hs1).
  assert (Hreq : attempt_ok env a p headers attempts request).
  { do 5 (split; [done|]). destruct Hq' as (? & ? & ? & ? & -> & _). split; [done|].
    exists idx, (sel_backend sel). destruct Ha' as (? & ? & ? & ? & Em & _). by rewrite Em in Hb. }
  clearbody request w4. set (r4 := set_request_bytes _ r3).
  assert (Hu4 : is_Some (rr_upstream r4)) by done. clearbody r4.
  pose proof (fun w' r' res => attempts_made_one env a p headers attempts request w w4 w' r' res H2 Hreq Hs4)
    as Hone.
  destruct (ae_cancelled e) eqn:Ec; [by apply Hone|].
  destruct (negb (rr_is_grpc r4) && _); [destruct (sp_waiting_for_client _); by apply Hone|].
  destruct (ae_result e) as [response|failure] eqn:Er; [by apply Hone|].
  destruct (sp_client_failed _) eqn:Ef; [by apply Hone|].
  destruct (attempt_failed _ _ _ gauge _) as [w5 o] eqn:E5.
  apply attempt_failed_again in E5 as (Hs5 & Hp5 & Hagain). simpl in Hs5, Hp5.
  destruct o as [unanswered|]; [by apply Hone|].
  destruct (Hagain eq_refl) as (Hrep & Hretry & Hlt). unfold MAX_ATTEMPTS in *.
  assert (attempts = 0%nat) as -> by lia. clear Hone Hagain.
  apply (attempts_made_again env a p headers request w w5); [done|done|by exists failure|congruence|].
  rewrite Hrep. cbn [andb]. replace (Z.of_nat 1 <? 2) with true by done.
  specialize (IH 1%nat r4 w5). rewrite Hrep in IH. apply IH; [|done|lia|lia].
  destruct Hw4 as (q4 & Hq4 & Ha4). exists q4. by rewrite Hp5.
Qed.

Lemma admitted_drop_sent w : w_sent (admitted_drop w) = w_sent w.
Proof.
  unfold admitted_drop. destruct (w_admitted w) as [[g refs]|]; [|done].
  destruct (refs =? 1); [|done]. unfold drop_guard. simpl. by destruct (w_pool w).
Qed.

(** C4: a forward always ends, after at most two attempts, each a whole copy
    of the request sent to a backend of the pool that is healthy when it is
    selected; a request that cannot be replayed, because of its method or
    because it has a body, is sent at most once; and there is a second
    attempt only when the first failed in a way another backend could fare
    better at. *)
Theorem forward_attempts env st conn p now rq has_body r w :
  (forall i, pool_ok (ae_health (env i)) p) ->
  let head := to_backend rq (forwarding_of conn r) in
  exists w' r' res sent,
    forward hash_ip env st conn p now rq has_body r w = Some (w', r', res) /\
    w_sent w' = w_sent w ++ sent /\ (length sent <= 2)%nat /\
    (is_replayable (rq_method rq) has_body = false -> (length sent <= 1)%nat) /\
    (forall i s, sent !! i = Some s ->
       attempt_ok env (attempting_of hash_ip st conn head has_body r) p (rq_headers head) i s) /\
    ((1 < length sent)%nat -> worth_retrying (env 0%nat)).
Proof.
  intros Hok head. unfold forward.
  assert (Hnone : forall w' r' (res : result Response Unanswered), w_sent w' = w_sent w ->
    exists w'' r'' res' sent, Some (w', r', res) = Some (w'', r'', res') /\
      w_sent w'' = w_sent w ++ sent /\ (length sent <= 2)%nat /\
      (is_replayable (rq_method rq) has_body = false -> (length sent <= 1)%nat) /\
      (forall i s, sent !! i = Some s ->
         attempt_ok env (attempting_of hash_ip st conn head has_body r) p (rq_headers head) i s) /\
      ((1 < length sent)%nat -> worth_retrying (env 0%nat))).
  { intros w' r' res Hw'. exists w', r', res, []. rewrite app_nil_r. simpl.
    split; [done|]. split; [done|]. split; [lia|]. split; [lia|]. split; [done|lia]. }
  destruct (negb (names_a_path _)); [by apply Hnone|].
  destruct (asks_for_upgrade _); [by apply Hnone|].
  pose proof (admit_alike now p) as Ha. destruct (pool_admit now p) as [p' [guard|[]]]; cbn [fst] in Ha;
    [|by apply Hnone..].
  set (r1 := record_forwarding_to (p_id p) r). set (w1 := mkWorld _ _ _ _).
  change (to_backend rq (forwarding_of conn r1)) with head.
  change (attempting_of hash_ip st conn head has_body r1)
    with (attempting_of hash_ip st conn head has_body r).
  set (a := attempting_of hash_ip st conn head has_body r).
  destruct (loop_attempts env a p (rq_headers head) Hok 2 0 r1 w1)
    as (w' & r' & res & sent & Hloop & Hsent & Hlen & Hrep & Hall & Hre); [by exists p'|done|lia|lia|].
  rewrite Hloop. exists (admitted_drop w'), r', res, sent. rewrite admitted_drop_sent.
  split; [done|]. split; [done|]. split; [lia|]. split; [done|]. split; [|done].
  intros i s Hs. by apply Hall.
Qed.
End Attempts.

(** ** Nothing of a hop crosses the proxy, and everything else does *)

Section Crossing.
Context `{HttpLaws}.

(** The headers of a request the proxy writes itself. *)
Definition REQUEST_NAMES : list str :=
  [HOST; TE; X_FORWARDED_FOR; X_FORWARDED_PROTO; X_FORWARDED_HOST; FORWARDED; X_REQUEST_ID].

Lemma to_client_get_all response is_tls hsts id n :
  headers_get_all (rs_headers (to_client response is_tls hsts id)) n =
    let kept := crossing (rs_headers response) n in
    if decide (n = X_REQUEST_ID) then
      if bool_decide (kept = []) then match value_of_str id with Some v => [v] | None => [] end
      else kept
    else if decide (n = STRICT_TRANSPORT_SECURITY) then
      if is_tls && negb (bool_decide (hsts = []))
      then match value_of_str hsts with Some v => [v] | None => kept end
      else kept
    else kept.
Proof using Type*.
  unfold to_client, headers_contains. cbv zeta. cbn [rs_headers].
  set (stripped := if is_tls && _ then _ else _).
  assert (Hs : forall m, headers_get_all stripped m =
    if decide (m = STRICT_TRANSPORT_SECURITY) then
      if is_tls && negb (bool_decide (hsts = []))
      then match value_of_str hsts with Some v => [v] | None => crossing (rs_headers response) m end
      else crossing (rs_headers response) m
    else crossing (rs_headers response) m).
  { intros m. unfold stripped. destruct (is_tls && _).
    - rewrite get_all_set_header, strip_get_all. done.
    - rewrite strip_get_all. by case_decide. }
  clearbody stripped.
  assert (Hid : headers_get_all stripped X_REQUEST_ID = crossing (rs_headers response) X_REQUEST_ID).
  { rewrite Hs. by rewrite decide_False by (vm_compute; discriminate). }
  rewrite Hid. destruct (decide (n = X_REQUEST_ID)) as [->|Hn].
  - clear Hs. case_bool_decide as Hk; simpl; [|exact Hid].
    rewrite get_all_set_header, decide_True, Hid, Hk by done. done.
  - rewrite <-Hs. clear Hs. case_bool_decide; simpl; [|done].
    by rewrite get_all_set_header, decide_False.
Qed.

(** C38: in both directions a header the sender declared for its hop, in the
    standard's list or in [Connection], does not cross, and every other
    header crosses unchanged, with the exceptions the proxy writes itself:
    of [TE] only [trailers] is sent on, and a response keeps its status and
    body, and its request id if it has one. *)
Theorem hop_by_hop_never_crosses rq fw response is_tls hsts id n :
  let sent := headers_get_all (rq_headers (to_backend rq fw)) in
  let relayed := to_client response is_tls hsts id in
  let got := headers_get_all (rs_headers relayed) in
  (n ∉ REQUEST_NAMES -> sent n = crossing (rq_headers rq) n) /\
  sent TE = (if asks_for_trailers (rq_headers rq) then [lit "trailers"] else []) /\
  (n ∉ [STRICT_TRANSPORT_SECURITY; X_REQUEST_ID] -> got n = crossing (rs_headers response) n) /\
  (crossing (rs_headers response) X_REQUEST_ID <> [] ->
     got X_REQUEST_ID = crossing (rs_headers response) X_REQUEST_ID) /\
  rs_status relayed = rs_status response /\ rs_body relayed = rs_body response.
Proof using Type*.
  intros sent relayed got. unfold sent, got, relayed. rewrite !to_backend_get_all, !to_client_get_all.
  split; [|split; [|split; [|split; [|done]]]].
  - intros Hn. unfold backend_header, REQUEST_NAMES in *. rewrite !not_elem_of_cons in Hn.
    destruct Hn as (H1 & H2 & H3 & H4 & H5 & H6 & H7 & _).
    do 7 (rewrite decide_False by done). done.
  - unfold backend_header. rewrite decide_False by (vm_compute; discriminate).
    rewrite decide_True by done. destruct (asks_for_trailers _); [done|].
    unfold crossing. rewrite decide_True; [done|]. apply elem_of_app. left.
    apply (bool_decide_eq_true_1 (TE ∈ HOP_BY_HOP)). by vm_compute.
  - intros Hn. rewrite !not_elem_of_cons in Hn. destruct Hn as (H1 & H2 & _). cbv zeta.
    by rewrite !decide_False by done.
  - intros Hn. cbv zeta. rewrite decide_True by done. by rewrite bool_decide_false.
Qed.
End Crossing.

(** The request of the host example, and a response with headers of its hop. *)
Lemma hop_by_hop_never_crosses_witness :
  let response :=
    mkResponse (L := assoc_http) 200 [(CONNECTION, lit "x-hop"); (lit "x-hop", lit "1"); (lit "server", lit "x")]
      body_empty in
  let got := headers_get_all (rs_headers (to_client response true [] (lit "id"))) in
  headers_get_all (rq_headers (to_backend example_request example_forwarding)) TE = [] /\
  got (lit "x-hop") = [] /\ rs_status (to_client response true [] (lit "id")) = 200.
Proof.
  cbv zeta.
  destruct (hop_by_hop_never_crosses example_request example_forwarding
    (mkResponse (L := assoc_http) 200 [(CONNECTION, lit "x-hop"); (lit "x-hop", lit "1"); (lit "server", lit "x")]
       body_empty) true [] (lit "id") (lit "x-hop")) as (_ & Ht & Hg & _ & Hs & _).
  split; [exact Ht|]. split; [|exact Hs]. rewrite Hg; [vm_compute; reflexivity|].
  apply (bool_decide_eq_false_1 (lit "x-hop" ∈ [STRICT_TRANSPORT_SECURITY; X_REQUEST_ID])).
  vm_compute. reflexivity.
Defined.

(** ** Every answer is accounted for *)

Section AnswerFacts.
Context `{L : HttpLib} (hash_ip : IpAddr -> Z).
Implicit Types (w : World) (r : RequestRecord).

(** What forwarding leaves of a record as it was. *)
Definition same_request r r' : Prop :=
  rr_request_id r' = rr_request_id r /\ rr_is_grpc r' = rr_is_grpc r /\ rr_host r' = rr_host r /\
  rr_route r' = rr_route r /\ rr_error r' = rr_error r.

Lemma attempting_same backend b r w : same_request r (record_attempting backend b r w).2.
Proof. unfold record_attempting. by destruct (rr_upstream r). Qed.

Lemma responded_same elapsed r : same_request r (record_upstream_responded elapsed r).
Proof. unfold record_upstream_responded. by destruct (rr_upstream r). Qed.

Lemma same_request_trans r r' r'' : same_request r r' -> same_request r' r'' -> same_request r r''.
Proof. unfold same_request. intuition congruence. Qed.

(** How an attempt ended. *)
Inductive Ended := EndedCancelled | EndedOverdue | EndedResponse (response : Response) | EndedFailure (k : LibraryKind).

Definition ended (grpc : bool) (e : AttemptEnv) : Ended :=
  if ae_cancelled e then EndedCancelled
  else if negb grpc && ae_overdue_first e then EndedOverdue
  else match ae_result e with Ok response => EndedResponse response | Err k => EndedFailure k end.

(** What becomes of a forward that made [n] attempts. *)
Definition loop_ended (env : nat -> AttemptEnv) (a : Attempting) (p : Pool Scheme) (grpc : bool) (id : str)
    (n : nat) (res : result Response Unanswered) : Prop :=
  match res with
  | Ok response => exists i backend, n = S i /\ ended grpc (env i) = EndedResponse backend /\
      response = to_client backend (ag_is_tls a) (ag_hsts a) id
  | Err (Refused NoHealthyUpstream) =>
      forall i, (i < length (p_backends p))%nat -> is_healthy (ae_health (env n)) p i = Some false
  | Err (Refused RequestBodyTimeout) =>
      exists i, n = S i /\ ended grpc (env i) = EndedOverdue /\ sp_waiting_for_client (ae_progress (env i)) = true
  | Err (Refused (UpstreamFailed k)) => exists i, n = S i /\
      ((k = Timeout /\ ended grpc (env i) = EndedOverdue /\ sp_waiting_for_client (ae_progress (env i)) = false) \/
       exists failure, k = classify failure /\ ended grpc (env i) = EndedFailure failure /\
         sp_client_failed (ae_progress (env i)) = false)
  | Err (Refused _) => False
  | Err ClientGone => exists i failure, n = S i /\ ended grpc (env i) = EndedFailure failure /\
      sp_client_failed (ae_progress (env i)) = true
  | Err Cancelled => exists i, n = S i /\ ended grpc (env i) = EndedCancelled
  end.

Lemma attempt_failed_why a kind attempts gauge w w' why :
  attempt_failed a kind attempts gauge w = (w', Some why) -> why = Refused (UpstreamFailed kind).
Proof. unfold attempt_failed. destruct (negb _); [|destruct (may_retry _)]; by intros [= _ <-]. Qed.

Lemma loop_result p fuel env a headers streamed r w w' r' res :
  serves p w -> is_Some (rr_upstream r) ->
  forward_loop fuel env a (length (w_sent w)) headers streamed r w = Some (w', r', res) ->
  same_request r r' /\ loop_ended env a p (rr_is_grpc r) (rr_request_id r) (length (w_sent w')) res.
Proof.
  revert headers streamed r w.
  induction fuel as [|fuel IH]; intros headers streamed r w (q & Hq & Ha) Hu; [done|].
  cbn [forward_loop]. rewrite Hq. set (n := length (w_sent w)). set (e := env n).
  assert (Ha' : alike p (meanwhile (ae_meanwhile e) q)) by (eapply alike_trans; [done|apply meanwhile_alike]).
  destruct (pool_select _ _ _ _) as [[q' o]|] eqn:Hsel; [|done].
  pose proof (alike_trans _ _ _ Ha' (select_alike _ _ _ _ _ _ Hsel)) as Hq'.
  destruct o as [sel|].
  2: { intros [= <- <- <-]. split; [done|]. intros i Hi. simpl. rewrite <-(alike_healthy _ _ _ _ Ha').
       eapply select_none; [exact Hsel|]. destruct Ha' as (?c & ?l & ?m & ?rt & Em & _). by rewrite Em. }
  set (gauge := (p_id q', _)). set (w1 := if Nat.ltb 1 (S n) then _ else _).
  assert (Hw1 : serves p w1) by (exists q'; unfold w1; by destruct (Nat.ltb _ _)).
  assert (Hs1 : w_sent w1 = w_sent w) by (unfold w1; by destruct (Nat.ltb _ _)).
  destruct (busy_new_serves p (sel_guard sel) gauge w1 Hw1) as [Hw2 Hs2].
  destruct (busy_new (sel_guard sel) gauge w1) as [w2 busy]. cbn [fst] in Hw2, Hs2.
  destruct (attempting_serves p (authority (sel_backend sel)) busy r w2 Hu Hw2) as (Hw3 & Hs3 & Hu3).
  pose proof (attempting_same (authority (sel_backend sel)) busy r w2) as Hr3.
  destruct (record_attempting _ _ r w2) as [w3 r3]. cbn [fst snd] in Hw3, Hs3, Hu3, Hr3.
  set (w4 := send _ w3). assert (Hw4 : serves p w4) by done.
  assert (Hn : length (w_sent w4) = S n) by (simpl; rewrite length_app, Hs3, Hs2, Hs1; simpl; unfold n; lia).
  clearbody w4. set (r4 := set_request_bytes _ r3).
  assert (Hu4 : is_Some (rr_upstream r4)) by done. assert (Hr4 : same_request r r4) by done. clearbody r4.
  assert (Eg : rr_is_grpc r4 = rr_is_grpc r) by apply Hr4. assert (Ei : rr_request_id r4 = rr_request_id r) by apply Hr4.
  rewrite Eg, Ei. destruct (ae_cancelled e) eqn:Ec.
  { intros [= <- <- <-]. split; [done|]. exists n. split; [done|]. unfold ended. fold e. by rewrite Ec. }
  destruct (negb (rr_is_grpc r) && ae_overdue_first e) eqn:Eo.
  { assert (Ee : ended (rr_is_grpc r) (env n) = EndedOverdue) by (unfold ended; fold e; by rewrite Ec, Eo).
    destruct (sp_waiting_for_client _) eqn:Ew; intros [= <- <- <-]; (split; [done|]); exists n;
      (split; [done|]); [done|]. left. done. }
  destruct (ae_result e) as [backend|failure] eqn:Er.
  { intros [= <- <- <-]. split; [eapply same_request_trans; [done|apply responded_same]|].
    exists n, backend. split_and!; [done| |done]. unfold ended. fold e. by rewrite Ec, Eo, Er. }
  assert (Ee : ended (rr_is_grpc r) (env n) = EndedFailure failure) by (unfold ended; fold e; by rewrite Ec, Eo, Er).
  destruct (sp_client_failed _) eqn:Ef.
  { intros [= <- <- <-]. split; [done|]. by exists n, failure. }
  destruct (attempt_failed _ _ _ gauge _) as [w5 o] eqn:E5.
  pose proof (attempt_failed_again _ _ _ _ _ _ _ E5) as (Hs5 & Hp5 & _). simpl in Hs5, Hp5.
  destruct o as [why|].
  { apply attempt_failed_why in E5 as ->. intros [= <- <- <-]. rewrite Hs5. split; [done|]. exists n.
    split; [done|]. right. by exists failure. }
  rewrite <-Hn, <-Hs5. intros Hl. apply IH in Hl as [Hs' Hres]; [| |done].
  2: { destruct Hw4 as (q4 & Hq4 & Ha4). exists q4. by rewrite Hp5. }
  split; [by eapply same_request_trans|]. by rewrite Eg, Ei in Hres.
Qed.

(** The host a request is for, and the pool it is to be forwarded to. *)
Definition host_of (st : State) (conn : ConnInfo) (rq : Parts) : result str HostError :=
  accepted_host (rq_uri rq) (rq_headers rq) (rq_version rq) (conn_sni conn) (st_certificates st).

Definition matches (st : State) (conn : ConnInfo) (rq : Parts) (matched : CompiledRoute) : Prop :=
  exists host, host_of st conn rq = Ok host /\
    match_request (st_routes st) (l_id (ci_listener conn)) host (uri_path (rq_uri rq)) = Some matched.

Definition forwards (st : State) (conn : ConnInfo) (rq : Parts) (p : Pool Scheme) : Prop :=
  exists matched id, matches st conn rq matched /\ cr_action matched = Forward id /\ st_pools st !! id = Some p.

(** It can be forwarded, and the pool has a place for it. *)
Definition sends (st : State) (conn : ConnInfo) (now : Z) (rq : Parts) (p : Pool Scheme) : Prop :=
  forwards st conn rq p /\ names_a_path (rq_uri rq) = true /\ asks_for_upgrade (rq_headers rq) = false /\
  exists guard, (pool_admit now p).2 = Ok guard.

(** Why a request is refused, after so many attempts to forward it. *)
Inductive refused_for (env : nat -> AttemptEnv) (st : State) (conn : ConnInfo) (now : Z) (rq : Parts) : nat -> Refusal -> Prop :=
| for_conflict target :
    host_of st conn rq = Err (Conflict target) -> refused_for env st conn now rq 0 HostConflict
| for_missing_host :
    host_of st conn rq = Err Missing -> refused_for env st conn now rq 0 HostMissing
| for_misdirected host :
    host_of st conn rq = Err (Misdirected host) -> refused_for env st conn now rq 0 MisdirectedRequest
| for_no_route host :
    host_of st conn rq = Ok host ->
    match_request (st_routes st) (l_id (ci_listener conn)) host (uri_path (rq_uri rq)) = None ->
    refused_for env st conn now rq 0 NoRoute
| for_no_pool matched id :
    matches st conn rq matched -> cr_action matched = Forward id -> st_pools st !! id = None ->
    refused_for env st conn now rq 0 PoolNotFound
| for_target p :
    forwards st conn rq p -> names_a_path (rq_uri rq) = false -> refused_for env st conn now rq 0 UnsupportedTarget
| for_upgrade p :
    forwards st conn rq p -> names_a_path (rq_uri rq) = true -> asks_for_upgrade (rq_headers rq) = true ->
    refused_for env st conn now rq 0 UpgradeNotSupported
| for_full p :
    forwards st conn rq p -> names_a_path (rq_uri rq) = true -> asks_for_upgrade (rq_headers rq) = false ->
    (pool_admit now p).2 = Err MaxInFlight -> refused_for env st conn now rq 0 PoolFull
| for_rate p :
    forwards st conn rq p -> names_a_path (rq_uri rq) = true -> asks_for_upgrade (rq_headers rq) = false ->
    (pool_admit now p).2 = Err MaxRequestsPerSecond -> refused_for env st conn now rq 0 PoolRateLimited
| for_health p n :
    sends st conn now rq p ->
    (forall i, (i < length (p_backends p))%nat -> is_healthy (ae_health (env n)) p i = Some false) ->
    refused_for env st conn now rq n NoHealthyUpstream
| for_stalled_body p i :
    sends st conn now rq p -> ended (is_grpc (rq_headers rq)) (env i) = EndedOverdue ->
    sp_waiting_for_client (ae_progress (env i)) = true -> refused_for env st conn now rq (S i) RequestBodyTimeout
| for_silence p i :
    sends st conn now rq p -> ended (is_grpc (rq_headers rq)) (env i) = EndedOverdue ->
    sp_waiting_for_client (ae_progress (env i)) = false -> refused_for env st conn now rq (S i) (UpstreamFailed Timeout)
| for_failure p i failure :
    sends st conn now rq p -> ended (is_grpc (rq_headers rq)) (env i) = EndedFailure failure ->
    sp_client_failed (ae_progress (env i)) = false -> refused_for env st conn now rq (S i) (UpstreamFailed (classify failure)).

(** What is answered, and noted, of a request. *)
Definition accounted (env : nat -> AttemptEnv) (st : State) (conn : ConnInfo) (now : Z) (random : Z * Z) (rq : Parts)
    (h : Handled) w : Prop :=
  let id := request_id random.1 random.2 (rq_headers rq) in
  let grpc := is_grpc (rq_headers rq) in
  let attempts := length (w_sent w) in
  match h with
  | Observed response r =>
      rr_status r = Some (rs_status response) /\ rr_request_id r = id /\
      match rr_error r with
      | Some e => exists why, refused_for env st conn now rq attempts why /\ e = refusal_reason why /\
          response = own_answer (refusal why id grpc)
      | None => exists host matched, host_of st conn rq = Ok host /\ rr_host r = host /\ rr_route r = Some matched /\
          match_request (st_routes st) (l_id (ci_listener conn)) host (uri_path (rq_uri rq)) = Some matched /\
          match cr_action matched with
          | Redirect action => attempts = 0%nat /\ response = own_answer (redirect (ra_scheme action) (ra_status action)
              host (unwrap_or (lit "/") (uri_path_and_query (rq_uri rq))) id)
          | Fixed action => attempts = 0%nat /\ response = own_answer (fixed (fa_status action) (fa_body action) id)
          | Forward _ => exists p i backend, sends st conn now rq p /\ attempts = S i /\
              ended grpc (env i) = EndedResponse backend /\
              response = to_client backend (conn_is_tls conn) (st_hsts st) id
          end
      end
  | Abandoned response => rs_status response = 400 /\
      exists p i failure, sends st conn now rq p /\ attempts = S i /\ ended grpc (env i) = EndedFailure failure /\
        sp_client_failed (ae_progress (env i)) = true
  | Vanished => exists p i, sends st conn now rq p /\ attempts = S i /\ ended grpc (env i) = EndedCancelled
  end.

Lemma respond_same response r :
  same_request r (record_respond response r) /\
  rr_status (record_respond response r) = Some (rs_status response).
Proof. unfold record_respond, note_if_ended. by destruct (bd_is_end_stream _). Qed.

Lemma refuse_accounted env st conn now random rq why r w w' h :
  refuse why r w = (w', h) -> rr_request_id r = request_id random.1 random.2 (rq_headers rq) ->
  rr_is_grpc r = is_grpc (rq_headers rq) -> refused_for env st conn now rq (length (w_sent w)) why ->
  accounted env st conn now random rq h w'.
Proof.
  unfold refuse. destruct (record_failed _ r w) as [w1 r1] eqn:E. intros [= <- <-] Hid Hgr Hwhy.
  assert (rr_error r1 = Some (refusal_reason why) /\ rr_request_id r1 = rr_request_id r /\
          rr_is_grpc r1 = rr_is_grpc r /\ w_sent w1 = w_sent w) as (He & Hi & Hg & Hs).
  { unfold record_failed in E. simpl in E. destruct (rr_upstream r); injection E as <- <-;
      rewrite ?drop_busy_sent; done. }
  unfold respond_with, accounted.
  destruct (respond_same (own_answer (refusal why (rr_request_id r1) (rr_is_grpc r1))) r1)
    as [(Hi' & _ & _ & _ & Herr) Hst]. split_and!; [done|congruence|]. rewrite Herr, He. exists why.
  split_and!; [by rewrite Hs|done|congruence].
Qed.

(** What forwarding a request to a pool comes to. *)
Lemma forward_result env st conn p now rq has_body r w w' r' res :
  w_sent w = [] -> rr_is_grpc r = is_grpc (rq_headers rq) -> forwards st conn rq p ->
  forward hash_ip env st conn p now rq has_body r w = Some (w', r', res) ->
  same_request r r' /\
  let n := length (w_sent w') in
  match res with
  | Ok response => exists i backend, sends st conn now rq p /\ n = S i /\
      ended (rr_is_grpc r) (env i) = EndedResponse backend /\
      response = to_client backend (conn_is_tls conn) (st_hsts st) (rr_request_id r)
  | Err (Refused why) => refused_for env st conn now rq n why
  | Err ClientGone => exists i failure, sends st conn now rq p /\ n = S i /\
      ended (rr_is_grpc r) (env i) = EndedFailure failure /\ sp_client_failed (ae_progress (env i)) = true
  | Err Cancelled => exists i, sends st conn now rq p /\ n = S i /\ ended (rr_is_grpc r) (env i) = EndedCancelled
  end.
Proof.
  intros Hw Hg Hf. unfold forward. destruct (names_a_path _) eqn:En; simpl negb; cbn iota.
  2: { intros [= <- <- <-]. split; [done|]. simpl. rewrite Hw. by eapply for_target. }
  destruct (asks_for_upgrade _) eqn:Eu.
  { intros [= <- <- <-]. split; [done|]. simpl. rewrite Hw. by eapply for_upgrade. }
  pose proof (admit_alike now p) as Ha. destruct (pool_admit now p) as [p' [guard|limit]] eqn:Ead; cbn [fst] in Ha.
  2: { destruct limit; intros [= <- <- <-]; (split; [done|]); simpl; rewrite Hw;
       [eapply for_full|eapply for_rate]; try done; by rewrite Ead. }
  assert (Hsend : sends st conn now rq p) by (split_and!; [done..|exists guard; by rewrite Ead]).
  set (r1 := record_forwarding_to (p_id p) r). set (w1 := mkWorld _ _ _ _).
  assert (H0 : length (w_sent w1) = 0%nat) by (simpl; by rewrite Hw).
  destruct (forward_loop _ _ _ _ _ _ _ _) as [[[w2 r2] res2]|] eqn:El; [|done]. rewrite <-H0 in El.
  apply (loop_result p) in El as [Hs Hl]; [|by exists p'|done]. intros [= <- <- <-]. split; [exact Hs|].
  rewrite admitted_drop_sent. simpl in Hl. rewrite Hg in *.
  destruct res2 as [response|[why| |]]; simpl in Hl |- *; [naive_solver| |naive_solver..].
  destruct why; try done.
  - by eapply for_health.
  - destruct Hl as (i & -> & ? & ?). by eapply for_stalled_body.
  - destruct Hl as (i & -> & [(-> & ? & ?)|(failure & -> & ? & ?)]); [by eapply for_silence|by eapply for_failure].
Qed.

Lemma respond_accounted env st conn now random rq response r w host matched :
  rr_error r = None -> rr_request_id r = request_id random.1 random.2 (rq_headers rq) ->
  host_of st conn rq = Ok host -> rr_host r = host -> rr_route r = Some matched ->
  match_request (st_routes st) (l_id (ci_listener conn)) host (uri_path (rq_uri rq)) = Some matched ->
  match cr_action matched with
  | Redirect action => w_sent w = [] /\ response = own_answer (redirect (ra_scheme action) (ra_status action)
      host (unwrap_or (lit "/") (uri_path_and_query (rq_uri rq))) (rr_request_id r))
  | Fixed action => w_sent w = [] /\ response = own_answer (fixed (fa_status action) (fa_body action) (rr_request_id r))
  | Forward _ => exists p i backend, sends st conn now rq p /\ length (w_sent w) = S i /\
      ended (is_grpc (rq_headers rq)) (env i) = EndedResponse backend /\
      response = to_client backend (conn_is_tls conn) (st_hsts st) (rr_request_id r)
  end ->
  accounted env st conn now random rq (respond_with response r) w.
Proof.
  intros He Hid Hh Hr Hm Hmr Ha. unfold respond_with, accounted.
  destruct (respond_same response r) as [(Hi & _ & Hh' & Hro & Herr) Hst]. split_and!; [done|congruence|].
  rewrite Herr, He. exists host, matched. split_and!; [done|congruence|congruence|done|].
  rewrite <-Hid. destruct (cr_action matched); [done|..]; destruct Ha as [-> ->]; done.
Qed.

Lemma route_accounted env st conn now random rq has_body r w w' h host :
  rr_error r = None -> rr_request_id r = request_id random.1 random.2 (rq_headers rq) ->
  rr_is_grpc r = is_grpc (rq_headers rq) -> host_of st conn rq = Ok host -> rr_host r = host -> w_sent w = [] ->
  route hash_ip env st conn now rq has_body r w = Some (w', h) -> accounted env st conn now random rq h w'.
Proof.
  intros He Hid Hg Hh Hr Hw. unfold route. rewrite Hr. destruct (match_request _ _ _ _) as [matched|] eqn:Em.
  2: { intros [= E]. eapply refuse_accounted; [exact E|done|done|]. simpl. rewrite Hw. by eapply for_no_route. }
  set (r1 := record_matched matched r). assert (Hmat : matches st conn rq matched) by (by exists host).
  destruct (cr_action matched) as [pool|action|action] eqn:Ea.
  - unfold pool_set_get. destruct (st_pools st !! pool) as [p|] eqn:Ep.
    2: { intros [= E]. eapply refuse_accounted; [exact E|done|done|]. rewrite Hw. by eapply for_no_pool. }
    assert (Hf : forwards st conn rq p) by (by exists matched, pool).
    destruct (forward _ _ _ _ _ _ _ _ _ _) as [[[w2 r2] res]|] eqn:Ef; [|done].
    apply forward_result in Ef as [(Hi & Hg' & Hh' & Hro & Herr) Hres]; [|done|done|done]. cbv zeta in Hres.
    change (rr_is_grpc r1) with (rr_is_grpc r) in Hres. rewrite Hg in Hres.
    assert (Hd : forall t, w_sent (record_drop t r2 w2) = w_sent w2).
    { intros t. unfold record_drop. destruct (rr_upstream r2); [by rewrite drop_busy_sent|done]. }
    destruct res as [response|[why| |]]; intros [= E].
    + subst. eapply respond_accounted; [by rewrite Herr|by rewrite Hi|done|by rewrite Hh'|by rewrite Hro|done|].
      rewrite Ea. exists p. by rewrite Hi.
    + eapply refuse_accounted; [exact E|by rewrite Hi|by rewrite Hg'|done].
    + subst. unfold abandoned, accounted. rewrite Hd. split; [done|]. by exists p.
    + subst. unfold accounted. rewrite Hd. by exists p.
  - intros [= <- <-]. eapply respond_accounted; try done. rewrite Ea. split; [done|]. by subst.
  - intros [= <- <-]. eapply respond_accounted; try done. rewrite Ea. split; [done|]. by subst.
Qed.

(** C31: every answer is accounted for. The status reported is the status
    sent, under the request's own id. A request is refused only for the
    reason it is refused with ([refused_for]): its host, no route, no such
    pool, a target or an upgrade that cannot be forwarded, the pool's cap or
    rate, no healthy backend, or how the last of the attempts that were made
    ended; the log and the client are told that reason, in gRPC's terms to a
    gRPC call. Any other answer is that of the route of the accepted host:
    its redirect or its fixed answer, with nothing sent, or what the backend
    of the last attempt answered. An exchange is given up only when the
    client broke its body or the handler was dropped. *)
Theorem answers_accounted env st conn now random rq has_body w h :
  handle hash_ip env st conn now random rq has_body = Some (w, h) -> accounted env st conn now random rq h w.
Proof.
  unfold handle. cbv zeta. destruct (accepted_host _ _ _ _ _) as [host|error] eqn:Eh; intros Hh.
  - by eapply route_accounted in Hh.
  - apply (inj Some) in Hh. eapply refuse_accounted; [exact Hh|done|done|].
    destruct error; [by eapply for_conflict|by eapply for_missing_host|by eapply for_misdirected].
Qed.
End AnswerFacts.

(** ** What a refused client is told *)

Section RefusalFacts.
Context `{HttpLaws}.

Lemma answer_headers_get name value a n :
  forallb is_value_char value = true ->
  headers_get (an_headers (with_text_header name value a)) n =
    if decide (n = name) then Some value else headers_get (an_headers a) n.
Proof using Type*.
  intros Hv. unfold with_text_header. rewrite value_of_visible by done. apply headers_get_insert.
Qed.

Lemma with_header_get name value a n :
  headers_get (an_headers (with_header name value a)) n =
    if decide (n = name) then Some value else headers_get (an_headers a) n.
Proof using Type*. apply headers_get_insert. Qed.

(** A refusal is answered with an HTTP error of its own and the request's
    id; a gRPC call is answered with a [200] whose headers hold a valid gRPC
    status, which is read back as the one its HTTP status stands for, and
    the reason that is logged. *)
Theorem refusal_says_why why id :
  forallb is_value_char id = true ->
  let plain := refusal why id false in
  let grpc := refusal why id true in
  an_status plain = refusal_status why /\ 400 <= refusal_status why <= 599 /\
  headers_get (an_headers plain) X_REQUEST_ID = Some id /\
  an_status grpc = 200 /\ an_text grpc = [] /\
  headers_get (an_headers grpc) X_REQUEST_ID = Some id /\
  headers_get (an_headers grpc) GRPC_MESSAGE = Some (lit "gfe: " ++ refusal_reason why) /\
  grpc_status (an_headers grpc) = Some (grpc_code_num (for_http_status (refusal_status why))).
Proof using Type*.
  intros Hid plain grpc.
  assert (Hm : forallb is_value_char (lit "gfe: " ++ refusal_reason why) = true)
    by (destruct why as [| | | | | | | | | | |[]]; vm_compute; reflexivity).
  assert (Hst : forall name value a, an_status (with_text_header name value a) = an_status a)
    by (intros; unfold with_text_header; by destruct (value_of_str _)).
  assert (Htx : forall name value a, an_text (with_text_header name value a) = an_text a)
    by (intros; unfold with_text_header; by destruct (value_of_str _)).
  unfold plain, grpc, refusal, grpc_failure, synthetic, answer.
  split; [|split; [|split; [|split; [|split; [|split; [|split]]]]]].
  - destruct (refusal_retry_after why); simpl; by rewrite Hst.
  - destruct why as [| | | | | | | | | | |[]]; simpl; lia.
  - assert (Hp : headers_get (an_headers (with_header CONTENT_TYPE (lit "text/plain; charset=utf-8")
        (with_text_header X_REQUEST_ID id (mkAnswer (refusal_status why) headers_new
          (decimal (refusal_status why) ++ lit " " ++ refusal_message why ++ newline ++
           lit "request-id: " ++ id ++ newline))))) X_REQUEST_ID = Some id).
    { rewrite with_header_get, decide_False by (vm_compute; discriminate).
      by rewrite answer_headers_get, decide_True by done. }
    destruct (refusal_retry_after why); [|exact Hp].
    by rewrite with_header_get, decide_False by (vm_compute; discriminate).
  - rewrite Hst. simpl. by rewrite Hst.
  - rewrite Htx. simpl. by rewrite Htx.
  - rewrite answer_headers_get, decide_False by first [done|vm_compute; discriminate].
    rewrite !with_header_get, !decide_False by (vm_compute; discriminate).
    by rewrite answer_headers_get, decide_True by done.
  - by rewrite answer_headers_get, decide_True by done.
  - unfold grpc_status. rewrite answer_headers_get, decide_False by first [done|vm_compute; discriminate].
    rewrite with_header_get, decide_True by done. cbn [mbind option_bind].
    rewrite value_to_visible by (destruct (for_http_status _); vm_compute; reflexivity).
    destruct (for_http_status _); vm_compute; reflexivity.
Qed.
End RefusalFacts.

Lemma refusal_says_why_witness :
  grpc_status (an_headers (refusal (H := assoc_http) PoolFull (lit "id") true)) = Some 14.
Proof. apply (refusal_says_why (L := assoc_http) PoolFull (lit "id") eq_refl). Defined.

(** ** A request served: the first backend resets the connection, the second
    answers *)

Definition example_pool_spec : PoolSpec Scheme :=
  mkPoolSpec (lit "web") LeastRequest
    [mkBackend (lit "10.0.0.1") 8080 1; mkBackend (lit "10.0.0.2") 8080 1]
    (Some 100) None SchemeHttp.

Definition example_backends_pool : HealthMap * Pool Scheme :=
  match pool_new example_hash example_pool_spec (health_map_new true) with
  | (m, Ok p) => (m, p)
  | (m, Err _) => (m, mkPool [] RoundRobin [] SchemeHttp 0 [] [] [] true 0 None None)
  end.

Definition example_config : DynamicConfig :=
  mkDynamicConfig [] []
    [mkRoute (lit "r1") (lit "l1") (lit "www.example.org") (lit "/") (Forward (lit "web"))] [].

Definition example_state : State :=
  mkState (compile example_config) {[lit "web" := example_backends_pool.2]} cert_store_empty [].

Definition example_conn : ConnInfo :=
  conn_info_new (mkSocketAddr (V4 [192; 0; 2; 1]) 4711) (mkSocketAddr (V4 [10; 0; 0; 9]) 80)
    (mkListener (lit "l1") (V4 [0; 0; 0; 0]) 80 ListenHttp) None.

Definition example_get : Parts :=
  mkParts assoc_http GET (mkUri None (lit "/index.html") (Some (lit "/index.html"))) HTTP_11
    [(HOST, lit "www.example.org")].

Definition example_record : RequestRecord :=
  (record_begin 0 example_conn example_get (lit "www.example.org") (lit "id") world_start).2.

Definition quiet : Meanwhile := mkMeanwhile 0 None 0 (fun _ => 0).

Definition example_env (i : nat) : AttemptEnv (L := assoc_http) :=
  mkAttemptEnv quiet example_backends_pool.1 0
    (match i with
     | O => Err LReset
     | _ => Ok (mkResponse 200 [(lit "server", lit "x"); (CONNECTION, lit "close")] body_empty)
     end) false false (progress_begin 0 false) 0 5.

Definition example_exchange : option (World * Handled) :=
  handle (fun _ => 0) example_env example_state example_conn 0 (1, 2) example_get false.

Lemma example_served : is_none example_exchange = false.
Proof. vm_compute. reflexivity. Qed.

Lemma exchange_balanced_witness :
  match example_exchange with
  | Some (w, h) =>
      let w' := finish 9 [(ReadyEnd, true)] h w in
      length (w_sent w') = 2%nat /\ tally report_of (w_events w') = 1 /\
      tally in_flight_of (w_events w') = 0
  | None => False
  end.
Proof.
  pose proof example_served as Hs.
  destruct example_exchange as [[w h]|] eqn:E; [|discriminate Hs].
  cbv zeta. split.
  - assert (length (w_sent (finish 9 [(ReadyEnd, true)] h w)) =
            length (from_option (fun wh => w_sent (finish 9 [(ReadyEnd, true)] wh.2 wh.1)) []
                      example_exchange)) as -> by (rewrite E; reflexivity).
    vm_compute. reflexivity.
  - destruct (exchange_balanced (fun _ => 0) example_env example_state example_conn 0 (1, 2) example_get
                false 9 [(ReadyEnd, true)] w h E) as (H1 & H2 & _).
    split; [exact H1|exact H2].
Defined.

Lemma answers_accounted_witness :
  match example_exchange with
  | Some (w, h) => accounted example_env example_state example_conn 0 (1, 2) example_get h w
  | None => False
  end.
Proof.
  pose proof example_served as Hs.
  destruct example_exchange as [[w h]|] eqn:E; [|discriminate Hs].
  apply (answers_accounted (fun _ => 0) example_env example_state example_conn 0 (1, 2) example_get
           false w h E).
Defined.

Lemma forward_attempts_witness :
  exists w' r' res sent,
    forward (fun _ => 0) example_env example_state example_conn example_backends_pool.2 0 example_get
      false example_record world_start = Some (w', r', res) /\
    w_sent w' = sent /\ (length sent <= 2)%nat.
Proof.
  destruct (forward_attempts (fun _ => 0) example_env example_state example_conn
              example_backends_pool.2 0 example_get false example_record world_start)
    as (w' & r' & res & sent & H1 & H2 & H3 & _).
  - intros i. repeat split; vm_compute; repeat constructor; discriminate.
  - exists w', r', res, sent. split; [exact H1|]. split; [exact H2|exact H3].
Defined.
