(* ===== verification/Bodies.v ===== *)
(** * Bodies and what wraps them: [lib/http/src/body.rs], with
    [ObservedBody] ([handler/record.rs]), [CountedBody]
    ([handler/progress.rs]) and [InFlightBody] ([server/activity.rs])

    The trait [Body] as a class. Boxing a body is the http-body-util
    library's, behind an interface with what it documents: a boxed body is
    the body it was made of, frame for frame, its errors converted. What the
    program wraps around a body answers every call as the body under it
    does; beyond that, the record of a request sees every frame of its
    response, the progress of a request every frame of its body, and a
    request stays in flight until its response body is dropped. *)

From S2P Require Import Prelude Str Http Server.
From S2P Require Import Forward.

(** ** The trait *)

Section Trait.
Context `{L : HttpLib}.

Inductive BodyFrame := DataFrame (data : str) | TrailersFrame (trailers : HeaderMap).

(** [Poll<Option<Result<Frame, E>>>]. *)
Inductive FramePoll (E : Type) := FramePending | FrameReady (f : BodyFrame) | FrameError (e : E) | FrameEnd.

(** [SizeHint]: the bytes there are at least, and at most. *)
Record SizeHint := mkSizeHint { sh_lower : Z; sh_upper : option Z }.

Class HttpBody (B E : Type) := {
  poll_frame : Z -> B -> B * FramePoll E;
  is_end_stream : B -> bool;
  size_hint : B -> SizeHint;
}.

(** A call, a poll at a time, and what it comes to. *)
Inductive BodyCall := PollFrame (now : Z) | AskEnd | AskHint.

Inductive BodyAnswer (E : Type) := Polled_ (p : FramePoll E) | Ended (b : bool) | Hinted (h : SizeHint).
End Trait.

Arguments FramePending {L E}.
Arguments FrameReady {L E} _.
Arguments FrameError {L E} _.
Arguments FrameEnd {L E}.
Arguments Polled_ {L E} _.
Arguments Ended {L E} _.
Arguments Hinted {L E} _.

Definition on_body_call `{L : HttpLib} {B E} `{!HttpBody B E} (c : BodyCall) (b : B) : B * BodyAnswer E :=
  match c with
  | PollFrame now => let (b, p) := poll_frame now b in (b, Polled_ p)
  | AskEnd => (b, Ended (is_end_stream b))
  | AskHint => (b, Hinted (size_hint b))
  end.

Fixpoint on_body_calls `{L : HttpLib} {B E} `{!HttpBody B E} (cs : list BodyCall) (b : B) : B * list (BodyAnswer E) :=
  match cs with
  | [] => (b, [])
  | c :: cs =>
      let (b, a) := on_body_call c b in
      let (b, answers) := on_body_calls cs b in (b, a :: answers)
  end.

Definition poll_map `{HttpLib} {E F} (into : E -> F) (p : FramePoll E) : FramePoll F :=
  match p with
  | FramePending => FramePending
  | FrameReady f => FrameReady f
  | FrameError e => FrameError (into e)
  | FrameEnd => FrameEnd
  end.

Definition answer_map `{HttpLib} {E F} (into : E -> F) (a : BodyAnswer E) : BodyAnswer F :=
  match a with
  | Polled_ p => Polled_ (poll_map into p)
  | Ended b => Ended b
  | Hinted h => Hinted h
  end.

(** [under] gives the body a wrapper is around: every call comes to the same
    on it, up to the errors' conversion, and leaves it the same. *)
Class BodyWraps `{L : HttpLib} {W B E F} `{!HttpBody W F} `{!HttpBody B E} (under : W -> B) (into : E -> F) : Prop :=
  body_wraps c w :
    (on_body_call c w).2 = answer_map into (on_body_call c (under w)).2 /\
    under (on_body_call c w).1 = (on_body_call c (under w)).1.

(** ** Boxing: [body.rs] *)

(** [Into]. *)
Class IntoError (E F : Type) := into : E -> F.

#[export] Instance into_itself E : IntoError E E := fun e => e.
#[export] Instance into_never F : IntoError Empty_set F := fun e => match e with end.

(** What is used of http-body-util, [BoxError] being the errors of boxed
    bodies: [map_err] with [boxed], and the bodies [Empty] and [Full], which
    cannot fail. *)
Class BodyLib `{L : HttpLib} (BoxError : Type) := {
  Boxed : Type -> Type;
  map_err_boxed : forall {B}, B -> Boxed B;
  unboxed : forall {B}, Boxed B -> B;
  boxed_body :: forall B E, HttpBody B E -> IntoError E BoxError -> HttpBody (Boxed B) BoxError;
  EmptyBody : Type;
  empty_new : EmptyBody;
  empty_body :: HttpBody EmptyBody Empty_set;
  FullBody : Type;
  full_new : str -> FullBody;
  full_body :: HttpBody FullBody Empty_set;
}.

Definition exactly (n : Z) : SizeHint := mkSizeHint n (Some n).

Class BodyLaws `{L : HttpLib} BoxError `{!BodyLib BoxError} : Prop := {
  unboxed_box B (b : B) : unboxed (map_err_boxed b) = b;
  boxed_wraps B E (I : HttpBody B E) (C : IntoError E BoxError) :: BodyWraps (unboxed (B := B)) (into (E := E));
  empty_ends : is_end_stream empty_new = true /\ size_hint empty_new = exactly 0;
  empty_polled now : poll_frame now empty_new = (empty_new, FrameEnd);
  full_nothing : is_end_stream (full_new []) = true;
  full_hint text : size_hint (full_new text) = exactly (Z.of_nat (length text));
  full_polled text now : text <> [] ->
    is_end_stream (full_new text) = false /\
    poll_frame now (full_new text) = (full_new [], FrameReady (DataFrame text));
  full_over now : poll_frame now (full_new []) = (full_new [], FrameEnd);
}.

Section Bodies.
Context `{L : HttpLib} {BoxError : Type} `{!BodyLib BoxError}.

(** [body::boxed], [empty] and [full]. *)
Definition boxed {B E} `{!HttpBody B E} `{!IntoError E BoxError} (body : B) : Boxed B := map_err_boxed body.
Definition empty_ : Boxed EmptyBody := boxed empty_new.
Definition full (bytes : str) : Boxed FullBody := boxed (full_new bytes).
End Bodies.

(** ** What the program wraps around a body *)

(** A poll as [Forward] sees it. *)
Definition seen `{HttpLib} {E} (p : FramePoll E) : Polled :=
  match p with
  | FramePending => Pending
  | FrameReady (DataFrame data) => ReadyFrame (Data (Z.of_nat (length data)))
  | FrameReady (TrailersFrame trailers) => ReadyFrame (Trailers trailers)
  | FrameError _ => ReadyError
  | FrameEnd => ReadyEnd
  end.

Record ObservedBody (B : Type) := mkObservedBody { ob_inner : B; ob_record : RequestRecord }.
Arguments mkObservedBody {B} _ _.
Arguments ob_inner {B} _.
Arguments ob_record {B} _.

#[export] Instance observed_body `{L : HttpLib} {B E} `{!HttpBody B E} : HttpBody (ObservedBody B) E := {|
  poll_frame now o :=
    let (inner, frame) := poll_frame now (ob_inner o) in
    (mkObservedBody inner (observed_poll (ob_record o) (seen frame, is_end_stream inner)), frame);
  is_end_stream o := is_end_stream (ob_inner o);
  size_hint o := size_hint (ob_inner o);
|}.

(** [RequestRecord::respond], on the body of a response. *)
Definition observe `{L : HttpLib} {BoxError} `{!BodyLib BoxError} {B E} `{!HttpBody B E} `{!IntoError E BoxError}
    (inner : B) (r : RequestRecord) : Boxed (ObservedBody B) :=
  boxed (mkObservedBody inner (note_if_ended (is_end_stream inner) r)).

(** The count of the bytes and the progress are shared with the record and
    with whoever waits for the response. *)
Record CountedBody (B : Type) := mkCountedBody { cb_inner : B; cb_bytes : Z; cb_progress : SendProgress }.
Arguments mkCountedBody {B} _ _ _.
Arguments cb_inner {B} _.
Arguments cb_bytes {B} _.
Arguments cb_progress {B} _.

Definition counted_body_new `{L : HttpLib} {B E} `{!HttpBody B E} (now : Z) (inner : B) (bytes : Z)
    (progress : SendProgress) : CountedBody B :=
  mkCountedBody inner bytes (if is_end_stream inner then body_ended now progress else progress).

#[export] Instance counted_body `{L : HttpLib} {B E} `{!HttpBody B E} : HttpBody (CountedBody B) E := {|
  poll_frame now o :=
    let (inner, frame) := poll_frame now (cb_inner o) in
    let (bytes, progress) := counted_poll now (seen frame) (is_end_stream inner) (cb_bytes o) (cb_progress o) in
    (mkCountedBody inner bytes progress, frame);
  is_end_stream o := is_end_stream (cb_inner o);
  size_hint o := size_hint (cb_inner o);
|}.

(** [G] stands for the guard of the request, which the activity of its
    connection is behind. *)
Record InFlightBody (B G : Type) := mkInFlightBody { if_inner : B; if_guard : G }.
Arguments mkInFlightBody {B G} _ _.
Arguments if_inner {B G} _.
Arguments if_guard {B G} _.

#[export] Instance in_flight_body `{L : HttpLib} {B G E} `{!HttpBody B E} : HttpBody (InFlightBody B G) E := {|
  poll_frame now o :=
    let (inner, frame) := poll_frame now (if_inner o) in (mkInFlightBody inner (if_guard o), frame);
  is_end_stream o := is_end_stream (if_inner o);
  size_hint o := size_hint (if_inner o);
|}.

(** ** Wrappers are transparent *)

Section Wrapping.
Context `{L : HttpLib}.

Lemma answer_map_id {E} (a : BodyAnswer E) : answer_map id a = a.
Proof. by destruct a as [[]| |]. Qed.

Lemma answer_map_compose {E F G} (f : E -> F) (g : F -> G) a : answer_map g (answer_map f a) = answer_map (g ∘ f) a.
Proof. by destruct a as [[]| |]. Qed.

#[export] Instance body_wraps_compose {W V B E F G} `{!HttpBody W G} `{!HttpBody V F} `{!HttpBody B E}
    (f : W -> V) (g : V -> B) (i : F -> G) (j : E -> F) :
  BodyWraps f i -> BodyWraps g j -> BodyWraps (g ∘ f) (i ∘ j).
Proof.
  intros Hf Hg c w. destruct (Hf c w) as [A1 S1], (Hg c (f w)) as [A2 S2]. unfold compose.
  by rewrite A1, A2, answer_map_compose, S1, S2.
Qed.

Lemma body_wraps_calls {W B E F} `{!HttpBody W F} `{!HttpBody B E} (under : W -> B) (into : E -> F)
    `{!BodyWraps under into} cs w :
  (on_body_calls cs w).2 = answer_map into <$> (on_body_calls cs (under w)).2 /\
  under (on_body_calls cs w).1 = (on_body_calls cs (under w)).1.
Proof.
  revert w. induction cs as [|c cs IH]; intros w; [done|]. cbn [on_body_calls].
  destruct (body_wraps (under := under) (into := into) c w) as [A1 S1].
  destruct (on_body_call c w) as [w1 a], (on_body_call c (under w)) as [b1 a']. cbn [fst snd] in A1, S1. subst b1 a.
  destruct (IH w1) as [A2 S2].
  destruct (on_body_calls cs w1), (on_body_calls cs (under w1)). cbn in *. by subst.
Qed.

Context {B E : Type} `{!HttpBody B E}.

#[export] Instance observed_wraps : BodyWraps (ob_inner (B := B)) (id (A := E)).
Proof. intros [| |] o; cbn; [destruct (poll_frame now (ob_inner o)) as [? []]|..]; done. Qed.

#[export] Instance counted_wraps : BodyWraps (cb_inner (B := B)) (id (A := E)).
Proof.
  intros [| |] o; cbn; [|done..].
  destruct (poll_frame now (cb_inner o)) as [inner frame]. destruct (counted_poll _ _ _ _ _). by destruct frame.
Qed.

#[export] Instance in_flight_wraps {G} : BodyWraps (if_inner (B := B) (G := G)) (id (A := E)).
Proof. intros [| |] o; cbn; [destruct (poll_frame now (if_inner o)) as [? []]|..]; done. Qed.

Lemma in_flight_guard {G} cs (o : InFlightBody B G) : if_guard (on_body_calls cs o).1 = if_guard o.
Proof.
  revert o. induction cs as [|c cs IH]; intros o; [done|]. cbn [on_body_calls].
  assert (if_guard (on_body_call c o).1 = if_guard o) as Hc
    by (destruct c; cbn; [destruct (poll_frame now (if_inner o))|..]; done).
  destruct (on_body_call c o) as [o1 a]. specialize (IH o1). destruct (on_body_calls cs o1). cbn in *. congruence.
Qed.
End Wrapping.

(** ** What is seen of the frames *)

(** The polls of a body among some calls, as [Forward] sees them, each with
    whether the body then says that it has ended. *)
Fixpoint body_polls `{L : HttpLib} {B E} `{!HttpBody B E} (cs : list BodyCall) (b : B) : list (Polled * bool) :=
  match cs with
  | [] => []
  | PollFrame now :: cs =>
      let (b, p) := poll_frame now b in (seen p, is_end_stream b) :: body_polls cs b
  | _ :: cs => body_polls cs b
  end.

(** The bytes of data among some answers. *)
Definition data_of `{HttpLib} {E} (a : BodyAnswer E) : str :=
  match a with Polled_ (FrameReady (DataFrame data)) => data | _ => [] end.
Definition data_bytes `{HttpLib} {E} (answers : list (BodyAnswer E)) : Z :=
  Z.of_nat (length (answers ≫= data_of)).

(** What a poll says of how the exchange ends, and of a gRPC call's status. *)
Definition poll_ends `{HttpLib} (poll : Polled * bool) : option Termination :=
  match poll.1 with
  | Pending => None
  | ReadyFrame _ => if poll.2 then Some Complete else None
  | ReadyError => Some UpstreamAbort
  | ReadyEnd => Some Complete
  end.

Definition poll_status `{HttpLib} (poll : Polled * bool) : option (option Z) :=
  match poll.1 with ReadyFrame (Trailers trailers) => Some (grpc_status trailers) | _ => None end.

Definition poll_fails `{HttpLib} (poll : Polled * bool) : bool :=
  match poll.1 with ReadyError => true | _ => false end.
Definition poll_waits `{HttpLib} (poll : Polled * bool) : bool :=
  match poll.1 with Pending => true | _ => false end.

Section Seen.
Context `{L : HttpLib}.

Lemma seen_map {E F} (f : E -> F) (p : FramePoll E) : seen (poll_map f p) = seen p.
Proof. by destruct p. Qed.

Lemma body_polls_under {W B E F} `{!HttpBody W F} `{!HttpBody B E} (under : W -> B) (into : E -> F)
    `{!BodyWraps under into} cs w : body_polls cs w = body_polls cs (under w).
Proof.
  revert w. induction cs as [|[now| |] cs IH]; intros w; [done| |apply IH..]. cbn [body_polls].
  destruct (body_wraps (under := under) (into := into) (PollFrame now) w) as [A S]. cbn in A, S.
  destruct (poll_frame now w) as [w1 p], (poll_frame now (under w)) as [b1 p']. cbn in A, S.
  injection A as ->. subst b1. rewrite seen_map, IH. do 2 f_equal.
  destruct (body_wraps (under := under) (into := into) AskEnd w1) as [A _]. cbn in A. by injection A.
Qed.

Lemma data_bytes_map {E F} (f : E -> F) answers : data_bytes (answer_map f <$> answers) = data_bytes answers.
Proof.
  unfold data_bytes. do 2 f_equal. induction answers as [|a answers IH]; [done|]. csimpl. rewrite IH.
  by destruct a as [[| [] | |]| |].
Qed.

Lemma seen_bytes {B E} `{!HttpBody B E} cs (b : B) :
  sum_list ((fun poll => match poll.1 with ReadyFrame f => data_len f | _ => 0 end) <$> body_polls cs b) =
  data_bytes (on_body_calls cs b).2.
Proof.
  unfold data_bytes. revert b. induction cs as [|c cs IH]; intros b; [done|].
  destruct c as [now| |]; cbn [body_polls on_body_calls on_body_call].
  - destruct (poll_frame now b) as [b1 p]. csimpl. specialize (IH b1).
    destruct (on_body_calls cs b1) as [b2 answers]. csimpl in *. rewrite length_app, Nat2Z.inj_add, <-IH.
    destruct p as [| [] | |]; done.
  - specialize (IH b). by destruct (on_body_calls cs b).
  - specialize (IH b). by destruct (on_body_calls cs b).
Qed.
End Seen.

(** ** The record and the progress see every frame *)

Section Told.
Context `{L : HttpLib}.
Implicit Types (r : RequestRecord) (polls : list (Polled * bool)).

Lemma last_default_cons {A} (x d : A) l : default d (last (x :: l)) = default x (last l).
Proof. rewrite last_cons. by destruct (last l). Qed.

Lemma observed_bytes r polls :
  rr_response_bytes (foldl observed_poll r polls) =
  rr_response_bytes r + sum_list ((fun poll => match poll.1 with ReadyFrame f => data_len f | _ => 0 end) <$> polls).
Proof.
  revert r. induction polls as [|[[|f| |] ended] polls IH]; intros r; csimpl; [lia|..]; rewrite IH; cbn; try lia.
  destruct ended; cbn; lia.
Qed.

Lemma observed_ends r polls :
  rr_termination (foldl observed_poll r polls) = default (rr_termination r) (last (omap poll_ends polls)).
Proof.
  revert r. induction polls as [|[[|f| |] ended] polls IH]; intros r; [done|..]; csimpl; rewrite IH; cbn -[last];
    try destruct ended; rewrite ?last_default_cons; done.
Qed.

Lemma observed_is_grpc r poll : rr_is_grpc (observed_poll r poll) = rr_is_grpc r.
Proof. destruct poll as [[] []]; done. Qed.

Lemma observed_status r polls : rr_is_grpc r = true ->
  rr_grpc_status (foldl observed_poll r polls) = default (rr_grpc_status r) (last (omap poll_status polls)).
Proof.
  revert r. induction polls as [|[[|[|]| |] ended] polls IH]; intros r Hg; [done|..]; csimpl;
    rewrite IH by (by rewrite observed_is_grpc); cbn -[last]; rewrite ?Hg; destruct ended; cbn -[last];
    rewrite ?last_default_cons; done.
Qed.

Context {B E : Type} `{!HttpBody B E}.

(** The record of a body is told of each of its polls. *)
Lemma observed_calls cs (o : ObservedBody B) :
  ob_record (on_body_calls cs o).1 = foldl observed_poll (ob_record o) (body_polls cs (ob_inner o)).
Proof.
  revert o. induction cs as [|[now| |] cs IH]; intros o; [done|..]; cbn [on_body_calls body_polls on_body_call].
  - cbn [poll_frame observed_body]. destruct (poll_frame now (ob_inner o)) as [inner p].
    set (o1 := mkObservedBody inner _). specialize (IH o1). destruct (on_body_calls cs o1). cbn in *. by rewrite IH.
  - specialize (IH o). by destruct (on_body_calls cs o).
  - specialize (IH o). by destruct (on_body_calls cs o).
Qed.

Lemma counted_calls cs (o : CountedBody B) (o' := (on_body_calls cs o).1) (polls := body_polls cs (cb_inner o)) :
  wrap64 (cb_bytes o') = wrap64 (cb_bytes o + data_bytes (on_body_calls cs (cb_inner o)).2) /\
  sp_client_failed (cb_progress o') = sp_client_failed (cb_progress o) || existsb poll_fails polls /\
  sp_waiting_for_client (cb_progress o') =
    default (sp_waiting_for_client (cb_progress o)) (last (poll_waits <$> polls)).
Proof.
  subst o' polls. rewrite <-seen_bytes. revert o.
  induction cs as [|[now| |] cs IH]; intros o; cbn [on_body_calls body_polls on_body_call].
  - cbn. by rewrite Z.add_0_r, orb_false_r.
  - cbn [poll_frame counted_body]. destruct (poll_frame now (cb_inner o)) as [inner p].
    destruct (counted_poll _ _ _ _ _) as [bytes progress] eqn:Hp. set (o1 := mkCountedBody inner bytes progress).
    destruct (IH o1) as (I1 & I2 & I3). destruct (on_body_calls cs o1) as [o2 answers].
    cbn [fst snd cb_bytes cb_progress cb_inner] in *. csimpl. rewrite I1, I2, I3, last_default_cons.
    cbn [cb_bytes cb_progress cb_inner o1]. unfold wrap64. rewrite Z.add_assoc, orb_assoc.
    destruct p as [|[data|trailers]|e|]; unfold counted_poll in Hp; cbn in Hp; repeat case_if; simplify_eq; cbn;
      rewrite ?orb_false_r, ?orb_true_r, ?Z.add_0_r; split_and!; try done; unfold wrap64;
      by rewrite Zplus_mod_idemp_l.
  - destruct (IH o) as (? & ? & ?). by destruct (on_body_calls cs o).
  - destruct (IH o) as (? & ? & ?). by destruct (on_body_calls cs o).
Qed.
End Told.

Section Transparent.
Context `{L : HttpLib} {BoxError : Type} `{!BodyLib BoxError} `{!BodyLaws BoxError}.
Context {B E : Type} `{!HttpBody B E} `{!IntoError E BoxError}.


(** A boxed body is the body in the box. *)
Lemma boxed_calls {X F} `{!HttpBody X F} `{!IntoError F BoxError} cs (x : X) :
  (on_body_calls cs (boxed x)).2 = answer_map into <$> (on_body_calls cs x).2 /\
  unboxed (on_body_calls cs (boxed x)).1 = (on_body_calls cs x).1.
Proof using Type*.
  pose proof (body_wraps_calls (unboxed (B := X)) (into (E := F)) cs (boxed x)) as H.
  unfold boxed in *. by rewrite unboxed_box in H.
Qed.

Lemma boxed_ends {X F} `{!HttpBody X F} `{!IntoError F BoxError} (x : X) :
  is_end_stream (boxed x) = is_end_stream x.
Proof using Type*.
  destruct (boxed_calls [AskEnd] x) as [H _]. cbn in H. by injection H.
Qed.

Lemma boxed_polls {X F} `{!HttpBody X F} `{!IntoError F BoxError} cs (x : X) :
  body_polls cs (boxed x) = body_polls cs x.
Proof using Type*.
  pose proof (body_polls_under (unboxed (B := X)) (into (E := F)) cs (boxed x)) as H.
  unfold boxed in *. by rewrite unboxed_box in H.
Qed.

Lemma answers_into_itself (answers : list (BodyAnswer BoxError)) : answer_map into <$> answers = answers.
Proof using Type. transitivity (id <$> answers); [|by rewrite list_fmap_id]. apply list_fmap_ext. intros _ a _. apply answer_map_id. Qed.

Lemma observe_calls cs (b : B) r (observed := (on_body_calls cs (observe (boxed b) r)).1) :
  (on_body_calls cs (observe (boxed b) r)).2 = answer_map into <$> (on_body_calls cs b).2 /\
  unboxed (ob_inner (unboxed observed)) = (on_body_calls cs b).1 /\
  ob_record (unboxed observed) = foldl observed_poll (note_if_ended (is_end_stream b) r) (body_polls cs b).
Proof using Type*.
  subst observed. unfold observe. rewrite boxed_ends.
  set (o := mkObservedBody (boxed b) _). destruct (boxed_calls cs o) as [A S].
  rewrite A, S, answers_into_itself.
  destruct (body_wraps_calls (ob_inner (B := Boxed B)) (id (A := BoxError)) cs o) as [A' S'].
  destruct (boxed_calls cs b) as [A2 S2]. rewrite observed_calls, S', A'. cbn [ob_inner ob_record o].
  rewrite boxed_polls, A2, S2. split_and!; [|done..].
  rewrite <-list_fmap_compose. apply list_fmap_ext. intros _ a _. apply answer_map_id.
Qed.

Lemma sent_calls cs (b : B) now n p (sent := on_body_calls cs (boxed (counted_body_new now b n p))) :
  sent.2 = answer_map into <$> (on_body_calls cs b).2 /\ cb_inner (unboxed sent.1) = (on_body_calls cs b).1 /\
  unboxed sent.1 = (on_body_calls cs (counted_body_new now b n p)).1.
Proof using Type*.
  subst sent. destruct (boxed_calls cs (counted_body_new now b n p)) as [A S]. rewrite A, S.
  destruct (body_wraps_calls (cb_inner (B := B)) (id (A := E)) cs (counted_body_new now b n p)) as [A' S'].
  rewrite A', S'. split_and!; [|done..].
  rewrite <-list_fmap_compose. apply list_fmap_ext. intros _ a _. by destruct a as [[]| |].
Qed.

Lemma own_texts now text :
  (text <> [] -> (on_body_calls [AskHint; PollFrame now; AskEnd; PollFrame now] (full text)).2 =
     [Hinted (exactly (Z.of_nat (length text))); Polled_ (FrameReady (DataFrame text)); Ended true; Polled_ FrameEnd]) /\
  (on_body_calls [AskHint; AskEnd; PollFrame now] empty_).2 = [Hinted (exactly 0); Ended true; Polled_ FrameEnd].
Proof using Type*.
  split; [intros Ht; unfold full|unfold empty_]; rewrite (proj1 (boxed_calls _ _)).
  - destruct (full_polled text now Ht) as [_ Hp]. cbn. rewrite Hp. cbn. rewrite full_over. cbn.
    by rewrite full_hint, full_nothing.
  - destruct empty_ends as [He Hh]. cbn. rewrite He, Hh, empty_polled. done.
Qed.

(** [Forward]'s bodies of the proxy's own answers are these. *)
Lemma own_bodies now text :
  is_end_stream (full text) = bd_is_end_stream (body_full text) /\
  is_end_stream empty_ = bd_is_end_stream body_empty /\
  (text <> [] -> body_polls [PollFrame now] (full text) = bd_polls (body_full text)).
Proof using Type*.
  unfold full, empty_, body_full. rewrite !boxed_ends, boxed_polls. split_and!.
  - case_bool_decide as E1; [by rewrite E1, full_nothing|]. by destruct (full_polled text now E1).
  - by destruct empty_ends.
  - intros Ht. rewrite bool_decide_false by done. destruct (full_polled text now Ht) as [_ Hp].
    cbn. rewrite Hp. by rewrite full_nothing.
Qed.

(** C12: Bodies cross the proxy whole, and what is noted of them is what
    crossed. However hyper polls a response, and whatever it asks of it, it
    gets the backend's frames, in order and unchanged, its hints and its end,
    and an error only as the backend's body failed; meanwhile the request's
    record counts the very bytes that were passed on, and ends as the body
    did: complete once it said so, aborted by the upstream once it failed,
    and otherwise still the client's to abandon. In the other direction the
    backend is sent the client's frames; the bytes counted are those, and
    the progress says that the client failed exactly when its body did, and
    that it is waited for exactly when it had nothing the last time. The
    proxy's own texts are sent in one frame, with their length. *)
Theorem bodies_transparent {G} cs (b : B) r (guard : G) now n p text :
  let polls := body_polls cs b in
  let given := on_body_calls cs b in
  let relayed := on_body_calls cs (mkInFlightBody (observe (boxed b) r) guard) in
  let observed := unboxed (if_inner relayed.1) in
  let sent := on_body_calls cs (boxed (counted_body_new now b n p)) in
  let counted := unboxed sent.1 in
  relayed.2 = answer_map into <$> given.2 /\ if_guard relayed.1 = guard /\
  unboxed (ob_inner observed) = given.1 /\
  ob_record observed = foldl observed_poll (note_if_ended (is_end_stream b) r) polls /\
  rr_response_bytes (ob_record observed) = rr_response_bytes r + data_bytes given.2 /\
  rr_termination (ob_record observed) =
    default (if is_end_stream b then Complete else rr_termination r) (last (omap poll_ends polls)) /\
  sent.2 = answer_map into <$> given.2 /\ cb_inner counted = given.1 /\
  wrap64 (cb_bytes counted) = wrap64 (n + data_bytes given.2) /\
  sp_client_failed (cb_progress counted) = sp_client_failed p || existsb poll_fails polls /\
  sp_waiting_for_client (cb_progress counted) = default (sp_waiting_for_client p) (last (poll_waits <$> polls)) /\
  (text <> [] -> (on_body_calls [AskHint; PollFrame now; AskEnd; PollFrame now] (full text)).2 =
     [Hinted (exactly (Z.of_nat (length text))); Polled_ (FrameReady (DataFrame text)); Ended true; Polled_ FrameEnd]) /\
  (on_body_calls [AskHint; AskEnd; PollFrame now] empty_).2 = [Hinted (exactly 0); Ended true; Polled_ FrameEnd].
Proof using Type*.
  intros polls given relayed observed sent counted.
  destruct (body_wraps_calls if_inner (id (A := BoxError)) cs (mkInFlightBody (observe (boxed b) r) guard)) as [A S].
  fold relayed in A, S. cbn [if_inner] in A, S.
  destruct (observe_calls cs b r) as (A1 & S1 & R1). rewrite <-S in S1, R1. fold observed in S1, R1.
  destruct (sent_calls cs b now n p) as (A2 & S2 & C2). fold sent in A2, S2, C2. fold counted in S2, C2.
  destruct (counted_calls cs (counted_body_new now b n p)) as (B3 & F3 & W3). rewrite <-C2 in B3, F3, W3.
  cbn [counted_body_new cb_bytes cb_inner cb_progress] in B3, F3, W3.
  rewrite A, A1, R1, observed_bytes, observed_ends, seen_bytes.
  split_and!; [|by apply in_flight_guard|done|done| | |done|done|done| | |apply own_texts|apply (own_texts now text)].
  - rewrite <-list_fmap_compose. apply list_fmap_ext. intros _ a _. apply answer_map_id.
  - by destruct (is_end_stream b).
  - by destruct (is_end_stream b).
  - by rewrite F3; destruct (is_end_stream b).
  - by rewrite W3; destruct (is_end_stream b).
Qed.
End Transparent.

(** ** A concrete library, and a body that fails halfway *)

(** A box is what is in it. *)
#[local] Instance plain_boxes : BodyLib (L := assoc_http) str := {
  Boxed B := B;
  map_err_boxed _ b := b;
  unboxed _ b := b;
  boxed_body B E I C := {|
    poll_frame now b := let (b, p) := poll_frame now b in (b, poll_map (into (F := str)) p);
    is_end_stream := is_end_stream;
    size_hint := size_hint |};
  EmptyBody := unit;
  empty_new := ();
  empty_body := {| poll_frame _ b := (b, FrameEnd); is_end_stream _ := true; size_hint _ := exactly 0 |};
  FullBody := str;
  full_new text := text;
  full_body := {|
    poll_frame _ text := match text with [] => ([], FrameEnd) | _ => ([], FrameReady (DataFrame text)) end;
    is_end_stream text := bool_decide (text = []);
    size_hint text := exactly (Z.of_nat (length text)) |};
}.

#[local] Instance plain_boxes_laws : BodyLaws (L := assoc_http) str.
Proof.
  constructor; try done.
  - intros B E I C [| |] w; cbn; [destruct (poll_frame (HttpBody := I) now w)|..]; split; reflexivity.
  - intros text now Ht. by destruct text.
Qed.

(** A body that gives what it is told to, and fails with a number. *)
#[local] Instance scripted_body : HttpBody (L := assoc_http) (list (FramePoll (L := assoc_http) Z)) Z := {|
  poll_frame _ polls := match polls with [] => ([], FrameEnd) | p :: polls => (polls, p) end;
  is_end_stream polls := false;
  size_hint polls := mkSizeHint 0 None |}.

#[local] Instance error_text : IntoError Z str := decimal.

Definition example_frames : list (FramePoll (L := assoc_http) Z) :=
  [FramePending; FrameReady (DataFrame (lit "hello ")); FrameReady (DataFrame (lit "world")); FrameError 104].

Definition example_calls : list BodyCall := [AskHint; PollFrame 0; PollFrame 1; AskEnd; PollFrame 2; PollFrame 3].

Definition relayed_example : list (BodyAnswer (L := assoc_http) str) :=
  (on_body_calls example_calls (mkInFlightBody (observe (boxed example_frames) example_record) ())).2.

Lemma bodies_transparent_witness :
  relayed_example =
    [Hinted (mkSizeHint 0 None); Polled_ FramePending; Polled_ (FrameReady (DataFrame (lit "hello ")));
     Ended false; Polled_ (FrameReady (DataFrame (lit "world"))); Polled_ (FrameError (lit "104"))] /\
  (on_body_calls [AskHint; PollFrame 0; AskEnd; PollFrame 0] (full (lit "no route"))).2 =
    [Hinted (exactly 8); Polled_ (FrameReady (DataFrame (lit "no route"))); Ended true; Polled_ FrameEnd].
Proof.
  destruct (bodies_transparent (BoxError := str) example_calls example_frames example_record () 0 0
              (progress_begin 0 true) (lit "no route")) as (H & _ & _ & _ & _ & _ & _ & _ & _ & _ & _ & Htext & _).
  split; [unfold relayed_example; rewrite H; reflexivity|].
  refine (eq_trans (Htext _) _); [discriminate|reflexivity].
Defined.
