(* ===== verification/Dns.v ===== *)
(** * Name lookup: [lib/dns]

    The cache of addresses ([cache.rs]). The resolver behind it is the
    operating system's: what it would answer is an argument of each call,
    used only if the call looks the name up. A call is one step; the map is
    not held during a lookup, which [address_after_lookup], given the map as
    it is by then, makes explicit. *)

From S2P Require Import Prelude Str Net.

Section Cache.
Context {E : Type}.

(** Why there is no address: the resolver's error, or an empty answer. *)
Inductive LookupError := ResolverError (e : E) | NoAddress (host : str).

Record Entry := mkEntry { en_address : SocketAddr; en_looked_up : Z }.

Record Cache := mkCache { ca_ttl : Z; ca_entries : gmap (str * Z) Entry }.

Definition cache_new (ttl : Z) : Cache := mkCache ttl ∅.

(** The first address of the resolver's answer. *)
Definition first_address (host : str) (answer : result (list SocketAddr) E) :
    result SocketAddr LookupError :=
  match answer with
  | Ok (a :: _) => Ok a
  | Ok [] => Err (NoAddress host)
  | Err e => Err (ResolverError e)
  end.

(** What is returned without a lookup, or the entry the lookup falls back on. *)
Inductive Found := Known (a : SocketAddr) | Lookup (cached : option Entry).

Definition address_before_lookup (host : str) (port now : Z) (c : Cache) : Found :=
  match parse_ip host with
  | Some ip => Known (mkSocketAddr ip port)
  | None =>
      match ca_entries c !! (host, port) with
      | Some entry =>
          if saturating_duration_since now (en_looked_up entry) <? ca_ttl c
          then Known (en_address entry) else Lookup (Some entry)
      | None => Lookup None
      end
  end.

Definition address_after_lookup (host : str) (port now : Z) (cached : option Entry)
    (answer : result (list SocketAddr) E) (c : Cache) : Cache * result SocketAddr LookupError :=
  match first_address host answer, cached with
  | Ok a, _ => (mkCache (ca_ttl c) (<[(host, port) := mkEntry a now]> (ca_entries c)), Ok a)
  | Err _, Some stale => (c, Ok (en_address stale))
  | Err e, None => (c, Err e)
  end.

(** [Cache::address], alone on the cache. *)
Definition address (host : str) (port now : Z) (answer : result (list SocketAddr) E) (c : Cache) :
    Cache * result SocketAddr LookupError :=
  match address_before_lookup host port now c with
  | Known a => (c, Ok a)
  | Lookup cached => address_after_lookup host port now cached answer c
  end.

(** ** A history of calls *)

Record Call := mkCall {
  cl_host : str;
  cl_port : Z;
  cl_now : Z;
  cl_answer : result (list SocketAddr) E;
}.

Definition call (c : Cache) (l : Call) : Cache * result SocketAddr LookupError :=
  address (cl_host l) (cl_port l) (cl_now l) (cl_answer l) c.

Definition run_calls (c : Cache) (calls : list Call) : Cache := foldl (fun c l => (call c l).1) c calls.

(** Whether a call looks its name up, in the cache it finds. *)
Definition looks_up (c : Cache) (l : Call) : bool :=
  match address_before_lookup (cl_host l) (cl_port l) (cl_now l) c with
  | Known _ => false
  | Lookup _ => true
  end.

(** The last lookup of a name that succeeded in a history: its address and
    its time. *)
Fixpoint last_lookup (c : Cache) (key : str * Z) (found : option Entry) (calls : list Call) :
    option Entry :=
  match calls with
  | [] => found
  | l :: calls =>
      let found :=
        match looks_up c l && bool_decide ((cl_host l, cl_port l) = key),
              first_address (cl_host l) (cl_answer l) with
        | true, Ok a => Some (mkEntry a (cl_now l))
        | _, _ => found
        end in
      last_lookup (call c l).1 key found calls
  end.

Lemma call_ttl c l : ca_ttl (call c l).1 = ca_ttl c.
Proof.
  unfold call, address, address_after_lookup. destruct (address_before_lookup _ _ _ _) as [|cached]; [done|].
  destruct (first_address _ _); [done|]. by destruct cached.
Qed.

Lemma call_entries c l key :
  ca_entries (call c l).1 !! key =
  match looks_up c l && bool_decide ((cl_host l, cl_port l) = key),
        first_address (cl_host l) (cl_answer l) with
  | true, Ok a => Some (mkEntry a (cl_now l))
  | _, _ => ca_entries c !! key
  end.
Proof.
  unfold call, address, address_after_lookup, looks_up.
  destruct (address_before_lookup _ _ _ _) as [|cached]; [done|]. simpl.
  destruct (first_address _ _) as [a|e].
  - case_bool_decide; simpl; [subst; by rewrite lookup_insert_eq|by rewrite lookup_insert_ne].
  - destruct cached; by case_bool_decide.
Qed.

Lemma entries_last_lookup c calls key found :
  ca_entries c !! key = found ->
  ca_entries (run_calls c calls) !! key = last_lookup c key found calls.
Proof.
  revert c found. induction calls as [|l calls IH]; intros c found Hf; [done|].
  cbn [run_calls foldl last_lookup]. apply IH. rewrite call_entries, <-Hf. done.
Qed.

(** What the cache promises, after any history of calls. An IP literal is
    its own address. A name's answer is kept: while it is fresh it is given
    without a lookup; afterwards a lookup replaces it, and if that fails the
    answer of the last lookup that succeeded is given, however old. There is
    an error only for a name no lookup of which has ever succeeded. *)
Theorem address_contract ttl calls l :
  let c := run_calls (cache_new ttl) calls in
  let last := last_lookup (cache_new ttl) (cl_host l, cl_port l) None calls in
  let answer := first_address (cl_host l) (cl_answer l) in
  (call c l).2 =
    match parse_ip (cl_host l), last with
    | Some ip, _ => Ok (mkSocketAddr ip (cl_port l))
    | None, Some entry =>
        if saturating_duration_since (cl_now l) (en_looked_up entry) <? ttl
        then Ok (en_address entry)
        else Ok (match answer with Ok a => a | Err _ => en_address entry end)
    | None, None => answer
    end /\
  looks_up c l =
    match parse_ip (cl_host l), last with
    | Some _, _ => false
    | None, Some entry => negb (saturating_duration_since (cl_now l) (en_looked_up entry) <? ttl)
    | None, None => true
    end.
Proof.
  intros c last answer.
  assert (Ht : ca_ttl c = ttl).
  { unfold c, run_calls. generalize (cache_new ttl) as c0, (eq_refl : ca_ttl (cache_new ttl) = ttl).
    induction calls as [|k calls IH]; intros c0 H0; [done|]. simpl. apply IH. by rewrite call_ttl. }
  assert (He : ca_entries c !! (cl_host l, cl_port l) = last) by (by apply entries_last_lookup).
  clearbody c last. unfold call, address, looks_up, address_before_lookup.
  destruct (parse_ip (cl_host l)) as [ip|]; [done|]. rewrite He, Ht. destruct last as [entry|].
  - destruct (_ <? ttl); [done|]. unfold address_after_lookup. fold answer. by destruct answer.
  - unfold address_after_lookup. fold answer. by destruct answer.
Qed.
End Cache.
