(* ===== verification/Client.v ===== *)
(** * The client: [lib/http/src/client]

    Opening a connection ([dial.rs], with [Connector::connect] of
    [lib/tls/src/connector.rs]), the pooled client ([pool.rs]), the
    connection of a probe ([connection.rs]) and why an exchange failed
    ([failure.rs]). The pool that keeps and reuses connections is
    hyper-util's: modelled is the request it is handed and the connector it
    opens connections with. What a server and the operating system answer,
    and how long they take, is the [DialEnv] of a dial. *)

From S2P Require Import Prelude Str Net RateLimiting Config Tls Http Request Dns Causes TlsPolicy.
From Stdlib Require Import Ascii.

(** ** Why an exchange failed: [failure.rs] *)

Definition of_connect (e : DialError) : LibraryKind :=
  match e with
  | LimitError => LConnectionLimit
  | TimedOutError _ _ _ => LConnectTimeout
  | ResolveError _ _ _ => LConnectError
  | TcpError _ source =>
      match io_kind source with
      | IoConnectionRefused => LConnectRefused
      | IoTimedOut => LConnectTimeout
      | _ => LConnectError
      end
  | TlsHandshakeError _ source =>
      if is_protocol_refusal source then LProtocolRefused
      else if is_tls_error source then LTls
      else LConnectError
  | AlpnError _ _ => LProtocolRefused
  end.

(** What one error of the chain settles, if it does. *)
Definition settles (connecting : bool) (c : Cause) : option LibraryKind :=
  match c with
  | CauseConnect connect => Some (of_connect connect)
  | CauseIo io =>
      if is_tls_error io then Some LTls
      else match io_kind io with
           | IoTimedOut => if connecting then Some LConnectTimeout else None
           | IoConnectionRefused => Some LConnectRefused
           | IoConnectionReset | IoConnectionAborted | IoBrokenPipe | IoUnexpectedEof =>
               if negb connecting then Some LReset else None
           | _ => None
           end
  | CauseHyper http =>
      if hy_user http then Some LOther
      else
        let died := negb connecting && hy_timeout http in
        if died || hy_incomplete_message http || hy_canceled http || hy_closed http
        then Some LReset else None
  | CauseOther => None
  end.

(** [FailureKind::of]. *)
Fixpoint failure_of (error : Causes) (connecting : bool) : LibraryKind :=
  match error with
  | [] => if connecting then LConnectError else LOther
  | current :: source =>
      match settles connecting current with
      | Some kind => kind
      | None => failure_of source connecting
      end
  end.

Definition kind_display (k : LibraryKind) : str :=
  match k with
  | LConnectTimeout => lit "connect timeout"
  | LConnectRefused => lit "connection refused"
  | LConnectError => lit "connect error"
  | LTls => lit "TLS failure"
  | LProtocolRefused => lit "protocol refused"
  | LReset => lit "connection reset"
  | LConnectionLimit => lit "connection limit reached"
  | LOther => lit "request failed"
  end.

(** [Failure]'s text, given that of its source and of every cause under it. *)
Definition failure_display (k : LibraryKind) (source : str) (causes : list str) : str :=
  foldl (fun text cause => text ++ lit ": " ++ cause) (kind_display k ++ lit ": " ++ source) causes.

(** ** Opening a connection: [dial.rs] *)

(** What the resolver answers, TCP and the TLS handshake, each with the time
    it takes. *)
Record DialEnv := mkDialEnv {
  de_resolved : Z * result (list SocketAddr) IoError;
  de_connect : SocketAddr -> Z * result unit IoError;
  de_set_nodelay : result unit IoError;
  (** [ServerName::try_from]. *)
  de_is_server_name : str -> bool;
  (** The handshake with a server name and the protocols offered: the
      protocol settled on. *)
  de_handshake : str -> list str -> Z * result (option str) IoError;
}.

(** [Connector::connect]. *)
Definition tls_connect (env : DialEnv) (server_name : str) (alpn : list Alpn) :
    Z * result (option Alpn) IoError :=
  if negb (de_is_server_name env server_name) then (0, Err (plain_io IoInvalidInput))
  else
    let (took, stream) := de_handshake env server_name (alpn_id <$> alpn) in
    (took, match stream with
           | Err e => Err e
           | Ok negotiated => Ok (negotiated ≫= alpn_of)
           end).

(** Where addresses come from: each lookup from the system, or the cache. *)
Inductive Lookups := SystemLookups | CachedLookups (cache : Cache).

Definition lookup_error (e : LookupError (E := IoError)) : IoError :=
  match e with ResolverError e => e | NoAddress _ => plain_io IoNotFound end.

(** [Lookup::address]: the time taken, the answer, and the cache then. *)
Definition lookup_address (env : DialEnv) (now : Z) (host : str) (port : Z) (l : Lookups) :
    Z * Lookups * result SocketAddr IoError :=
  match l with
  | SystemLookups =>
      ((de_resolved env).1, SystemLookups, map_err lookup_error (first_address host (de_resolved env).2))
  | CachedLookups cache =>
      let (cache', r) := address host port now (de_resolved env).2 cache in
      (match address_before_lookup host port now cache with
       | Known _ => 0
       | Lookup _ => (de_resolved env).1
       end, CachedLookups cache', map_err lookup_error r)
  end.

Inductive Stream :=
| PlainStream (address : SocketAddr)
| TlsStream (address : SocketAddr) (server_name : str) (negotiated : option Alpn).

Definition agreed (offered : Alpn) (negotiated : option Alpn) : bool :=
  match offered with
  | H2Protocol => bool_decide (negotiated = Some H2Protocol)
  | Http11Protocol => negb (bool_decide (negotiated = Some H2Protocol))
  end.

(** TCP, then TLS, once the address is known. *)
Definition open_at (env : DialEnv) (host : str) (tls : option Alpn) (a : SocketAddr) :
    Z * result Stream DialError :=
  let (tcp_took, tcp) := de_connect env a in
  match (match tcp with Ok _ => de_set_nodelay env | Err e => Err e end) with
  | Err source => (tcp_took, Err (TcpError a source))
  | Ok _ =>
      match tls with
      | None => (tcp_took, Ok (PlainStream a))
      | Some alpn =>
          let (tls_took, stream) := tls_connect env host [alpn] in
          (tcp_took + tls_took,
           match stream with
           | Err source => Err (TlsHandshakeError host source)
           | Ok negotiated =>
               if negb (agreed alpn negotiated) then Err (AlpnError host alpn)
               else Ok (TlsStream a host negotiated)
           end)
      end
  end.

(** [open_now]: the time it takes and its outcome, and the cache, with the
    time by which it is up to date. *)
Definition open_now (env : DialEnv) (now : Z) (host : str) (port : Z) (tls : option Alpn) (l : Lookups) :
    Z * (Z * Lookups) * result Stream DialError :=
  match lookup_address env now host port l with
  | (looked, l', Err source) => (looked, (looked, l'), Err (ResolveError host port source))
  | (looked, l', Ok a) =>
      let (took, r) := open_at env host tls a in (looked + took, (looked, l'), r)
  end.

Definition unbracketed (host : str) : str :=
  default host (strip_prefix (lit "[") host ≫= strip_suffix (lit "]")).

(** [Dialer::open]: an opening not done by the deadline is dropped. *)
Definition dial (connect_timeout : option Z) (env : DialEnv) (now : Z) (host : str) (port : Z)
    (tls : option Alpn) (l : Lookups) : Lookups * result Stream DialError :=
  let host := unbracketed host in
  let '(took, (looked, l'), r) := open_now env now host port tls l in
  match connect_timeout with
  | None => (l', r)
  | Some after =>
      if took <=? after then (l', r)
      else (if looked <=? after then l' else l, Err (TimedOutError host port after))
  end.

(** ** The pooled client: [pool.rs] *)

Section Client.
Context `{L : HttpLib}.

(** The request as hyper's client gets it: on which of the two clients, and
    with the target built from its parts. *)
Record Outbound := mkOutbound {
  ob_http2 : bool;
  ob_https : bool;
  ob_authority : str;
  ob_path_and_query : str;
  ob_method : Method;
  ob_version : Version;
  ob_headers : HeaderMap;
}.

Definition path_and_query (u : Uri) : str := default (lit "/") (uri_path_and_query u).

(** [Client::send], up to the request being handed over. *)
Definition client_send (scheme : Scheme) (authority : str) (request : Parts) :
    result Outbound LibraryKind :=
  let needs_http2 := bool_decide (rq_version request = HTTP_2) in
  let '(http2, https) :=
    match scheme with
    | SchemeHttp => (false, false)
    | SchemeHttps => (needs_http2, true)
    | SchemeH2c => (true, false)
    end in
  let version := if http2 then rq_version request else HTTP_11 in
  let headers := if http2 then headers_remove HOST (rq_headers request) else rq_headers request in
  match authority_of_str authority with
  | None => Err LOther
  | Some authority =>
      Ok (mkOutbound http2 https authority (path_and_query (rq_uri request)) (rq_method request)
            version headers)
  end.

(** The scheme and authority a connection is opened for. *)
Record Destination := mkDestination { ds_https : bool; ds_authority : str }.

Definition destination (o : Outbound) : Destination := mkDestination (ob_https o) (ob_authority o).

(** [ServerConnector::call], once it has its permit. *)
Definition connector_open (connect_timeout : option Z) (env : DialEnv) (now : Z) (alpn : Alpn)
    (d : Destination) (l : Lookups) : Lookups * result Stream DialError :=
  let tls := if ds_https d then Some alpn else None in
  let host := authority_host (ds_authority d) in
  let port := default (if ds_https d then 443 else 80) (authority_port (ds_authority d)) in
  dial connect_timeout env now host port tls l.

(** The connections of a client: those being opened, and those open, each
    with its permit. *)
Record ClientConns := mkClientConns {
  cc_limit : ConcurrencyLimit;
  cc_lookups : Lookups;
  cc_opening : list (Destination * Alpn);
  cc_open : list (Destination * Alpn * Stream);
}.

Definition conns_new (max_connections : option Z) (ttl : Z) : ClientConns :=
  mkClientConns (limit_new max_connections) (CachedLookups (cache_new ttl)) [] [].

(** hyper-util calls the connector; a dial ends, or is dropped unfinished;
    a connection closes. *)
Inductive ClientEvent :=
| ConnectorCalled (d : Destination) (alpn : Alpn)
| DialEnds (i : nat) (env : DialEnv) (now : Z)
| DialDropped (i : nat)
| ConnectionCloses (i : nat).

(** What happens, and what a call or a dial that failed reports. *)
Definition client_event (connect_timeout : option Z) (ev : ClientEvent) (c : ClientConns) :
    option (ClientConns * option DialError) :=
  match ev with
  | ConnectorCalled d alpn =>
      match limit_try_acquire (cc_limit c) with
      | (limit, Ok _) =>
          Some (mkClientConns limit (cc_lookups c) (cc_opening c ++ [(d, alpn)]) (cc_open c), None)
      | (limit, Err _) =>
          Some (mkClientConns limit (cc_lookups c) (cc_opening c) (cc_open c), Some LimitError)
      end
  | DialEnds i env now =>
      match cc_opening c !! i with
      | None => None
      | Some (d, alpn) =>
          let opening := delete i (cc_opening c) in
          match connector_open connect_timeout env now alpn d (cc_lookups c) with
          | (l, Ok stream) =>
              Some (mkClientConns (cc_limit c) l opening (cc_open c ++ [(d, alpn, stream)]), None)
          | (l, Err e) => Some (mkClientConns (permit_drop (cc_limit c)) l opening (cc_open c), Some e)
          end
      end
  | DialDropped i =>
      match cc_opening c !! i with
      | None => None
      | Some _ =>
          Some (mkClientConns (permit_drop (cc_limit c)) (cc_lookups c) (delete i (cc_opening c))
                  (cc_open c), None)
      end
  | ConnectionCloses i =>
      match cc_open c !! i with
      | None => None
      | Some _ =>
          Some (mkClientConns (permit_drop (cc_limit c)) (cc_lookups c) (cc_opening c)
                  (delete i (cc_open c)), None)
      end
  end.

Definition open_connections (c : ClientConns) : Z := in_use (cc_limit c).
Definition max_connections (c : ClientConns) : option Z := limit_max (cc_limit c).

Inductive conns_reach (connect_timeout max : option Z) (ttl : Z) : ClientConns -> Prop :=
| conns_start : conns_reach connect_timeout max ttl (conns_new max ttl)
| conns_step c ev c' r :
    conns_reach connect_timeout max ttl c -> client_event connect_timeout ev c = Some (c', r) ->
    conns_reach connect_timeout max ttl c'.

(** ** One connection to one server: [connection.rs] *)

Inductive Protocol := ProtocolHttp11 | ProtocolHttp2.

(** [authority]: brackets around an IPv6 address. *)
Definition authority_text (host : str) (port : Z) : str :=
  let host := unbracketed host in
  if contains_char ":"%char host then lit "[" ++ host ++ lit "]:" ++ decimal port
  else host ++ lit ":" ++ decimal port.

Record Connection := mkConnection {
  cx_protocol : Protocol;
  cx_https : bool;
  cx_authority : str;
}.

Definition protocol_alpn (p : Protocol) : Alpn :=
  match p with ProtocolHttp11 => Http11Protocol | ProtocolHttp2 => H2Protocol end.

(** [Connection::open]; [handshake] is how hyper's goes. *)
Definition connection_open (env : DialEnv) (handshake : Stream -> result unit Causes) (now : Z)
    (host : str) (port : Z) (protocol : Protocol) (tls : bool) (connect_timeout : option Z) :
    result (Connection * Stream) LibraryKind :=
  match authority_of_str (authority_text host port) with
  | None => Err LOther
  | Some authority =>
      let alpn := if tls then Some (protocol_alpn protocol) else None in
      match (dial connect_timeout env now host port alpn SystemLookups).2 with
      | Err e => Err (failure_of [CauseConnect e] true)
      | Ok stream =>
          match handshake stream with
          | Err e => Err (failure_of e true)
          | Ok _ => Ok (mkConnection protocol tls authority, stream)
          end
      end
  end.

(** [Connection::send], up to the request being handed over: its version,
    its target (whole on HTTP/2, the path and query on HTTP/1.1) and its
    headers. *)
Definition connection_send (c : Connection) (request : Parts) : result Outbound LibraryKind :=
  let pq := path_and_query (rq_uri request) in
  match cx_protocol c with
  | ProtocolHttp11 =>
      match value_of_str (cx_authority c) with
      | None => Err LOther
      | Some host =>
          let headers := if headers_contains (rq_headers request) HOST then rq_headers request
                         else headers_insert HOST host (rq_headers request) in
          Ok (mkOutbound false (cx_https c) (cx_authority c) pq (rq_method request) HTTP_11 headers)
      end
  | ProtocolHttp2 =>
      Ok (mkOutbound true (cx_https c) (cx_authority c) pq (rq_method request) HTTP_2
            (headers_remove HOST (rq_headers request)))
  end.
End Client.

(** ** Failures are reported for what they are *)

(** What is a reason for each kind, as the kinds are documented. *)
Definition reason (connecting : bool) (k : LibraryKind) (e : Cause) : Prop :=
  match k with
  | LConnectTimeout =>
      (exists host port after, e = CauseConnect (TimedOutError host port after)) \/
      exists io, io_kind io = IoTimedOut /\
        ((exists a, e = CauseConnect (TcpError a io)) \/
         (e = CauseIo io /\ connecting = true /\ is_tls_error io = false))
  | LConnectRefused =>
      exists io, io_kind io = IoConnectionRefused /\
        ((exists a, e = CauseConnect (TcpError a io)) \/ (e = CauseIo io /\ is_tls_error io = false))
  | LConnectError =>
      (exists host port io, e = CauseConnect (ResolveError host port io)) \/
      (exists a io, e = CauseConnect (TcpError a io) /\ io_kind io <> IoConnectionRefused /\ io_kind io <> IoTimedOut) \/
      exists name io, e = CauseConnect (TlsHandshakeError name io) /\ is_tls_error io = false /\ is_protocol_refusal io = false
  | LTls =>
      exists io, is_tls_error io = true /\
        (e = CauseIo io \/ exists name, e = CauseConnect (TlsHandshakeError name io) /\ is_protocol_refusal io = false)
  | LProtocolRefused =>
      (exists name offered, e = CauseConnect (AlpnError name offered)) \/
      exists name io, e = CauseConnect (TlsHandshakeError name io) /\ is_protocol_refusal io = true
  | LReset =>
      (exists io, e = CauseIo io /\ connecting = false /\ is_tls_error io = false /\
         io_kind io ∈ [IoConnectionReset; IoConnectionAborted; IoBrokenPipe; IoUnexpectedEof]) \/
      exists h, e = CauseHyper h /\ hy_user h = false /\
        (hy_incomplete_message h = true \/ hy_canceled h = true \/ hy_closed h = true \/
         (hy_timeout h = true /\ connecting = false))
  | LConnectionLimit => e = CauseConnect LimitError
  | LOther => exists h, e = CauseHyper h /\ hy_user h = true
  end.

Ltac reasons :=
  repeat match goal with
  | H : _ \/ _ |- _ => destruct H
  | H : _ /\ _ |- _ => destruct H
  | H : exists _, _ |- _ => destruct H
  end; simplify_eq/=.

Lemma of_connect_reason connecting e : reason connecting (of_connect e) (CauseConnect e).
Proof.
  destruct e as [|host port io|host port after|a io|name io|name offered]; simpl; [naive_solver..| | |naive_solver].
  - destruct (io_kind io) eqn:E; simpl;
      first [by right; left; exists a, io; rewrite E|right; exists io; split; [done|left; by exists a]
            |exists io; split; [done|left; by exists a]].
  - destruct (is_protocol_refusal io) eqn:Er; [|destruct (is_tls_error io) eqn:Et]; simpl; naive_solver.
Qed.

Lemma of_connect_only connecting e k : reason connecting k (CauseConnect e) -> of_connect e = k.
Proof.
  destruct k; simpl; intros; reasons; try done;
    repeat match goal with H : io_kind _ = _ |- _ => rewrite H | H : is_protocol_refusal _ = _ |- _ => rewrite H
           | H : is_tls_error _ = _ |- _ => rewrite H end; try done.
  by destruct (io_kind _).
Qed.

(** An error settles what it is a reason for, and nothing else. *)
Lemma settles_reason connecting e k : settles connecting e = Some k <-> reason connecting k e.
Proof.
  destruct e as [e|io|h|]; simpl.
  - split; [intros [= <-]; apply of_connect_reason|intros ?; f_equal; by eapply of_connect_only].
  - split.
    + destruct (is_tls_error io) eqn:Et; [intros [= <-]; simpl; naive_solver|].
      destruct (io_kind io) eqn:Ek, connecting; intros [=]; subst k; simpl;
        first [left; exists io; rewrite Ek; split_and!; [done..|set_solver]|right; exists io; tauto|exists io; tauto].
    + destruct k; simpl; intros; reasons; repeat match goal with H : is_tls_error _ = _ |- _ => rewrite H | H : io_kind _ = _ |- _ => rewrite H end;
        try done.
      match goal with H : io_kind ?x ∈ _ |- _ =>
        destruct (io_kind x); try done; exfalso; set_solver end.
  - split.
    + destruct (hy_user h) eqn:Hu; [intros [= <-]; simpl; naive_solver|].
      destruct connecting, (hy_timeout h) eqn:?, (hy_incomplete_message h) eqn:?, (hy_canceled h) eqn:?, (hy_closed h) eqn:?;
        intros [=]; subst k; simpl; right; exists h; tauto.
    + destruct k; simpl; intros; reasons;
        repeat match goal with H : hy_user _ = _ |- _ => rewrite H | H : hy_incomplete_message _ = _ |- _ => rewrite H
          | H : hy_canceled _ = _ |- _ => rewrite H | H : hy_closed _ = _ |- _ => rewrite H
          | H : hy_timeout _ = _ |- _ => rewrite H end; by rewrite ?orb_true_r.
  - split; [done|]. destruct k; simpl; intros; by reasons.
Qed.

Lemma settles_none connecting e : settles connecting e = None <-> forall k, ~ reason connecting k e.
Proof.
  setoid_rewrite <-settles_reason. destruct (settles connecting e); naive_solver.
Qed.

(** The first error of the chain that is a reason for anything. *)
Definition decided (c : Causes) (connecting : bool) (k : LibraryKind) : Prop :=
  (exists outer e inner, c = outer ++ e :: inner /\
     (forall e' k', e' ∈ outer -> ~ reason connecting k' e') /\ reason connecting k e) \/
  ((forall e' k', e' ∈ c -> ~ reason connecting k' e') /\ k = if connecting then LConnectError else LOther).

Lemma failure_of_decided c connecting : decided c connecting (failure_of c connecting).
Proof.
  induction c as [|e c IH]; simpl.
  { right. split; [|done]. intros ? ? ?%not_elem_of_nil. done. }
  destruct (settles connecting e) as [k|] eqn:E.
  - left. exists [], e, c. split; [done|]. split; [by intros ? ? ?%not_elem_of_nil|]. by apply settles_reason.
  - rewrite settles_none in E. destruct IH as [(outer & e0 & inner & -> & Ho & Hk)|[Hn Hk]].
    + left. exists (e :: outer), e0, inner. split_and!; [done| |done].
      intros e' k' [->|?]%elem_of_cons; [apply E|by eapply Ho].
    + right. split; [|done]. intros e' k' [->|?]%elem_of_cons; [apply E|by eapply Hn].
Qed.

Lemma decided_failure_of c connecting k : decided c connecting k -> failure_of c connecting = k.
Proof.
  intros [(outer & e & inner & -> & Ho & Hk)|[Hn ->]].
  - induction outer as [|e' outer IH]; simpl.
    + apply settles_reason in Hk. by rewrite Hk.
    + rewrite (proj2 (settles_none connecting e')) by (intros k'; apply Ho; set_solver).
      apply IH. intros e0 k' ?. apply Ho. set_solver.
  - induction c as [|e c IH]; simpl; [done|].
    rewrite (proj2 (settles_none connecting e)) by (intros k'; apply Hn; set_solver).
    apply IH. intros e0 k' ?. apply Hn. set_solver.
Qed.

(** C28: A failed exchange is reported for exactly what happened: by the
    first error of its chain that is a documented reason for a kind
    ([reason]), or, when none is, as a connection that could not be
    established while one was being opened and as another failure
    otherwise. So the cap is reported only when it was reached, and nothing
    else spares the backend the blame; a connection that broke is a reset
    only once it was open; and a request whose own body failed is never a
    reset, whatever the body's error wraps. (A protocol TLS did not settle
    on is a refused protocol, as [FailureKind] says, not a TLS failure, as
    [Client::send] says.) *)
Theorem failure_kind_sound c connecting k :
  (failure_of c connecting = k <-> decided c connecting k) /\
  (is_the_backends (classify (failure_of c connecting)) = false -> CauseConnect LimitError ∈ c) /\
  (forall outer h inner, (forall e k', e ∈ outer -> ~ reason connecting k' e) -> hy_user h = true ->
     c = outer ++ CauseHyper h :: inner -> failure_of c connecting = LOther).
Proof.
  split_and!; [split; [intros <-; apply failure_of_decided|apply decided_failure_of]| |].
  - intros Hb. destruct (failure_of_decided c connecting) as [(outer & e & inner & -> & _ & Hk)|[_ Hk]];
      destruct (failure_of _ connecting); try done; simpl in Hk; [subst e; set_solver|by destruct connecting].
  - intros outer h inner Ho Hu ->. apply decided_failure_of. left.
    exists outer, (CauseHyper h), inner. split_and!; [done..|]. by exists h.
Qed.

(** ** Requests reach the server they are for *)

(** The protocol a stream speaks, and to whom: over TLS HTTP/2 exactly when
    both sides settled on it. *)
Definition stream_for (https : bool) (host : str) (alpn : Alpn) (s : Stream) : Prop :=
  match s with
  | PlainStream _ => https = false
  | TlsStream _ server_name negotiated =>
      https = true /\ server_name = unbracketed host /\ (negotiated = Some H2Protocol <-> alpn = H2Protocol)
  end.

Lemma agreed_iff alpn negotiated : agreed alpn negotiated = true <-> (negotiated = Some H2Protocol <-> alpn = H2Protocol).
Proof. unfold agreed. destruct alpn; case_bool_decide; simpl; intuition congruence. Qed.

(** The address a name stands for at the time. *)
Definition address_of (env : DialEnv) (now : Z) (host : str) (port : Z) (l : Lookups) (s : Stream) : Prop :=
  (lookup_address env now (unbracketed host) port l).2 =
    Ok (match s with PlainStream a => a | TlsStream a _ _ => a end).

Lemma open_at_ok env host tls a took s :
  open_at env host tls a = (took, Ok s) ->
  match tls with
  | None => s = PlainStream a
  | Some alpn => exists negotiated, s = TlsStream a host negotiated /\ agreed alpn negotiated = true
  end.
Proof.
  unfold open_at. destruct (de_connect env a) as [t [[]|]]; [|done]. destruct (de_set_nodelay env) as [[]|]; [|done].
  destruct tls as [alpn|]; [|by intros [= _ <-]].
  destruct (tls_connect _ _ _) as [t' [negotiated|]]; [|done].
  destruct (agreed alpn negotiated) eqn:E; [|done]. intros [= _ <-]. eauto.
Qed.

Lemma dial_ok connect_timeout env now host port https alpn l l' s :
  dial connect_timeout env now host port (if https : bool then Some alpn else None) l = (l', Ok s) ->
  stream_for https host alpn s /\ address_of env now host port l s.
Proof.
  unfold dial, open_now, address_of. intros H.
  destruct (lookup_address env now (unbracketed host) port l) as [[looked l1] [a|e]] eqn:El; simpl in H.
  - destruct (open_at _ _ _ _) as [took r] eqn:Eo.
    assert (r = Ok s) as ->.
    { destruct connect_timeout; [case_match|]; simplify_eq/=; done. }
    apply open_at_ok in Eo. destruct https; simpl.
    + destruct Eo as (negotiated & -> & Ha%agreed_iff). done.
    + by subst s.
  - destruct connect_timeout; [case_match|]; simplify_eq/=.
Qed.

Section Sending.
Context `{HttpLaws}.

Definition client_alpn (o : Outbound) : Alpn := if ob_http2 o then H2Protocol else Http11Protocol.

(** C27: A request goes to the server it is sent to, whatever its target or
    its headers say: the scheme and authority it is handed to hyper with are
    the caller's, of its target only the path and query are kept, and every
    connection opened for it is to the address of that authority's host, in
    the clear or over TLS as the scheme says, the host being the name the
    certificate must be for. It goes over HTTP/2 exactly when the scheme is
    [h2c], or is [https] and the request is one of HTTP/2, in which case TLS
    settled on it; otherwise over HTTP/1.1, never on a connection that
    settled on HTTP/2. Over HTTP/2 [Host] does not contradict the authority,
    and over HTTP/1.1 no header is touched. Nothing is refused but what is
    no authority. *)
Theorem requests_reach_their_server scheme authority request :
  match client_send scheme authority request with
  | Err k => k = LOther /\ authority_of_str authority = None
  | Ok o =>
      destination o = mkDestination (bool_decide (scheme = SchemeHttps)) authority /\
      ob_method o = rq_method request /\ ob_path_and_query o = path_and_query (rq_uri request) /\
      (ob_http2 o = true <-> scheme = SchemeH2c \/ (scheme = SchemeHttps /\ rq_version request = HTTP_2)) /\
      (ob_http2 o = false -> ob_version o = HTTP_11 /\ ob_headers o = rq_headers request) /\
      (ob_http2 o = true -> ob_version o = rq_version request /\
         forall n, headers_get_all (ob_headers o) n =
           if decide (n = HOST) then [] else headers_get_all (rq_headers request) n) /\
      forall connect_timeout env now l l' s,
        connector_open connect_timeout env now (client_alpn o) (destination o) l = (l', Ok s) ->
        stream_for (bool_decide (scheme = SchemeHttps)) (authority_host authority)
          (if ob_http2 o then H2Protocol else Http11Protocol) s /\
        address_of env now (authority_host authority)
          (default (if decide (scheme = SchemeHttps) then 443 else 80) (authority_port authority)) l s
  end.
Proof using Type*.
  destruct (client_send scheme authority request) as [o|k] eqn:Ho; unfold client_send in Ho;
    destruct (authority_of_str authority) as [a|] eqn:Ea; try (by destruct scheme; simplify_eq).
  apply authority_of_str_same in Ea as ->.
  assert (Hd : destination o = mkDestination (bool_decide (scheme = SchemeHttps)) authority).
  { destruct scheme; injection Ho as <-; done. }
  split_and!; [done|destruct scheme; injection Ho as <-; done..| | | |].
  - destruct scheme; injection Ho as <-; simpl; rewrite ?bool_decide_eq_true; intuition congruence.
  - intros Hh. destruct scheme; injection Ho as <-; simpl in *; rewrite ?Hh; done.
  - intros Hh. destruct scheme; injection Ho as <-; simpl in *; bool_facts; try done;
      rewrite ?bool_decide_true by done; (split; [done|]); intros n; by rewrite get_all_remove.
  - intros timeout env now l l' s Hs. rewrite Hd in Hs. unfold connector_open in Hs. simpl in Hs.
    apply dial_ok in Hs. by destruct scheme.
Qed.
End Sending.

(** ** The connections of a client *)

Section Conns.
Context `{L : HttpLib} (connect_timeout : option Z) (max : Z) (ttl : Z).
Hypothesis Hmax : 0 <= max <= u64_max.

Definition conns_count (c : ClientConns) : Z :=
  Z.of_nat (length (cc_opening c)) + Z.of_nat (length (cc_open c)).

Record conns_inv (c : ClientConns) : Prop := {
  ci_max : limit_max (cc_limit c) = Some max;
  ci_count : in_use (cc_limit c) = conns_count c;
  ci_cap : conns_count c <= max;
  ci_open : Forall (fun '(d, alpn, s) => stream_for (ds_https d) (authority_host (ds_authority d)) alpn s)
              (cc_open c);
}.

(** A permit more, if the cap is not reached, or one less. *)
Lemma capped_acquire limit n :
  limit_max limit = Some max -> in_use limit = n -> 0 <= n <= max ->
  limit_try_acquire limit =
    if max <=? n then (limit, Err {| lr_max := max |})
    else (mkConcurrencyLimit (n + 1) (Some max), Ok ()).
Proof using Hmax.
  destruct limit as [u m]; simpl. intros -> -> Hn. unfold limit_try_acquire, limit_decide; simpl.
  case_if.
  - unfold permit_drop, limit_fetch_add; simpl. do 2 f_equal. assert (n = max) as -> by lia.
    unfold wrap64. rewrite Zminus_mod_idemp_l, Z.add_simpl_r. apply Z.mod_small. unfold u64_max in *. lia.
  - unfold limit_fetch_add. simpl. by rewrite wrap64_small by lia.
Qed.

Lemma permit_dropped limit n :
  limit_max limit = Some max -> in_use limit = n -> 0 < n <= max ->
  permit_drop limit = mkConcurrencyLimit (n - 1) (Some max).
Proof using Hmax.
  destruct limit as [u m]; simpl. intros -> -> Hn. unfold permit_drop. simpl. by rewrite wrap64_small by lia.
Qed.

Lemma client_event_inv ev c c' r :
  conns_inv c -> client_event connect_timeout ev c = Some (c', r) -> conns_inv c'.
Proof using Hmax.
  intros [Hm Hc Hcap Ho] Hev. unfold conns_count in *.
  assert (Hdel : forall {A} i (l : list A) x, l !! i = Some x ->
    Z.of_nat (length (delete i l)) = Z.of_nat (length l) - 1 /\ 0 < Z.of_nat (length l)).
  { intros A i l x Hx. pose proof (lookup_lt_Some _ _ _ Hx). rewrite length_delete by eauto. lia. }
  destruct ev as [d alpn|i env now|i|i]; simpl in Hev.
  - rewrite (capped_acquire _ _ Hm Hc) in Hev by lia. case_if; simplify_eq/=.
    + constructor; simpl; done || lia.
    + constructor; unfold conns_count; simpl; rewrite ?length_app; simpl; done || lia.
  - destruct (cc_opening c !! i) as [[d alpn]|] eqn:Hi; [|done].
    destruct (Hdel _ _ _ _ Hi) as [Hl ?].
    destruct (connector_open _ _ _ _ _ _) as [l' [s|e]] eqn:Hs; simplify_eq/=.
    + constructor; unfold conns_count; simpl; rewrite ?length_app, ?Hl; simpl; try done; try lia.
      apply Forall_app. split; [done|]. constructor; [|constructor]. by apply dial_ok in Hs as [? _].
    + rewrite (permit_dropped _ _ Hm Hc) by lia.
      constructor; unfold conns_count; simpl; rewrite ?Hl; done || lia.
  - destruct (cc_opening c !! i) as [x|] eqn:Hi; [|done]. destruct (Hdel _ _ _ _ Hi) as [Hl ?].
    simplify_eq/=. rewrite (permit_dropped _ _ Hm Hc) by lia.
    constructor; unfold conns_count; simpl; rewrite ?Hl; done || lia.
  - destruct (cc_open c !! i) as [x|] eqn:Hi; [|done]. destruct (Hdel _ _ _ _ Hi) as [Hl ?].
    simplify_eq/=. rewrite (permit_dropped _ _ Hm Hc) by lia.
    constructor; unfold conns_count; simpl; rewrite ?Hl; try done; try lia. by apply Forall_delete.
Qed.

(** However the pool opens, drops and closes connections, no more are
    open or being opened at once than the cap allows, [open_connections]
    says exactly how many, a call is refused exactly when the cap is
    reached, and every open connection speaks, to the server it was opened
    for, the protocol its client needs. *)
Theorem connections_capped c :
  conns_reach connect_timeout (Some max) ttl c ->
  open_connections c = conns_count c /\ conns_count c <= max /\
  (forall d alpn, exists c', client_event connect_timeout (ConnectorCalled d alpn) c =
     Some (c', if max <=? conns_count c then Some LimitError else None) /\
     conns_count c' = if max <=? conns_count c then conns_count c else conns_count c + 1) /\
  (forall d alpn s, (d, alpn, s) ∈ cc_open c ->
     stream_for (ds_https d) (authority_host (ds_authority d)) alpn s).
Proof using Hmax.
  intros Hr. assert (Hi : conns_inv c).
  { induction Hr as [|c ev c' r _ IH Hev]; [|by eapply client_event_inv].
    constructor; unfold conns_count; simpl; try done; lia. }
  destruct Hi as [Hm Hc Hcap Ho]. split_and!; [done..| |].
  - intros d alpn. simpl. rewrite (capped_acquire _ _ Hm Hc) by (unfold conns_count in *; lia).
    unfold conns_count in *. case_if; eexists; (split; [done|]); simpl; rewrite ?length_app; simpl; lia.
  - intros d alpn s Hin. rewrite Forall_forall in Ho. by apply (Ho _ Hin).
Qed.
End Conns.

(** ** The connection of a probe *)

(** A probe's server is named alike with and without brackets. *)
Lemma unbracketed_brackets host :
  starts_with (lit "[") host = false -> unbracketed (lit "[" ++ host ++ lit "]") = unbracketed host.
Proof.
  intros Hs. unfold unbracketed. rewrite (proj2 (strip_prefix_Some _ _ (host ++ lit "]")) eq_refl). simpl.
  rewrite (proj2 (strip_suffix_Some _ _ host) eq_refl). simpl. unfold starts_with in Hs.
  by destruct (strip_prefix _ host).
Qed.

Lemma authority_text_brackets host port :
  starts_with (lit "[") host = false ->
  authority_text (lit "[" ++ host ++ lit "]") port = authority_text host port.
Proof. intros Hs. unfold authority_text. by rewrite (unbracketed_brackets host Hs). Qed.

(** ** Examples *)

Definition example_peer : DialEnv :=
  mkDialEnv (from_millis 5, Ok [mkSocketAddr (V4 [10; 0; 0; 1]) 8443])
    (fun _ => (from_millis 1, Ok ())) (Ok ()) (fun _ => true)
    (fun _ offered => (from_millis 10, Ok (head offered))).

Definition example_grpc_request : Parts (H := assoc_http) :=
  mkParts assoc_http POST (mkUri (Some (lit "elsewhere:1")) (lit "/svc/Method") (Some (lit "/svc/Method")))
    HTTP_2 [(HOST, lit "elsewhere"); (lit "te", lit "trailers")].

Lemma requests_reach_their_server_witness :
  exists o, client_send (L := assoc_http) SchemeHttps (lit "backend:8443") example_grpc_request = Ok o /\
    destination o = mkDestination true (lit "backend:8443").
Proof.
  eexists. split; [reflexivity|].
  exact (proj1 (requests_reach_their_server (L := assoc_http) SchemeHttps (lit "backend:8443")
    example_grpc_request)).
Defined.

Definition example_dest : Destination := mkDestination true (lit "backend:8443").
Definition capped_one : ClientConns :=
  mkClientConns (mkConcurrencyLimit 1 (Some 1)) (CachedLookups (cache_new 0)) [(example_dest, H2Protocol)] [].

Lemma connections_capped_witness :
  open_connections capped_one = 1 /\
  exists c', client_event (L := assoc_http) None (ConnectorCalled example_dest H2Protocol) capped_one =
    Some (c', Some LimitError) /\ conns_count c' = 1.
Proof.
  destruct (connections_capped (L := assoc_http) None 1 0 ltac:(done) capped_one) as (Ho & _ & Hc & _).
  - eapply conns_step; [apply conns_start|].
    exact (eq_refl : client_event None (ConnectorCalled example_dest H2Protocol) (conns_new (Some 1) 0) =
      Some (capped_one, None)).
  - exact (conj Ho (Hc example_dest H2Protocol)).
Defined.

(** A request that needs HTTP/2, to a server that settles on nothing: the
    protocol was refused, which is not reported as a TLS failure. *)
Example unsettled_protocol_is_refused :
  let env := mkDialEnv (de_resolved example_peer) (de_connect example_peer) (Ok ()) (fun _ => true)
               (fun _ _ => (0, Ok None)) in
  exists e, (connector_open (L := assoc_http) None env 0 H2Protocol example_dest SystemLookups).2 = Err e /\
    failure_of [CauseOther; CauseConnect e] true = LProtocolRefused.
Proof. eexists. split; reflexivity. Qed.
