(* ===== verification/Probes.v ===== *)
(** * The probes over the network: [lib/health-checking/src/probe.rs]

    What a probe sends, on which connection, and what it makes of the answer
    within its timeout: the checks of [HealthChecking] over the connections
    of [Client] and the TLS settings of [TlsPolicy]. What the network answers,
    and when, is a [ProbeEnv]. *)

From S2P Require Import Prelude Str Net HealthChecking Config Tls Causes TlsPolicy Http Request Client.
From Stdlib Require Import Ascii.

Definition PROBE_USER_AGENT : str := lit "netkit-health-checking/0.1".
Definition CHECK_REQUEST : list Z := [0; 0; 0; 0; 0].
Definition CHECK_PATH : str := lit "/grpc.health.v1.Health/Check".

(** Something that takes time, and its outcome; what is given up on. *)
Notation Taking A E := (Z * result A E)%type.

Definition then_ {A B E} (t : Taking A E) (k : A -> Taking B E) : Taking B E :=
  match t with
  | (took, Ok a) => let (more, r) := k a in (took + more, r)
  | (took, Err e) => (took, Err e)
  end.

(** [tokio::time::timeout]. *)
Definition under {A E} (timeout : Z) (t : Taking A E) : Timed A E :=
  if t.1 <=? timeout then InTime t.2 else TimedOut.

(** Why a probe did not get an answer. *)
Inductive ProbeFailure :=
| ConnectionFailed (k : LibraryKind)
| RequestInvalid
| CallFailed (e : CallError LibraryKind).

Section Probing.
Context `{L : HttpLib} `{RustlsClient Der PrivateKey Roots}.

(** The network: TCP, the dials (under the TLS configuration, if any), HTTP's
    own handshake, the answers to what is sent, and how a request target is
    read. *)
Record ProbeEnv := mkProbeEnv {
  pe_tcp : str -> Z -> Taking unit IoError;
  pe_dial : option (ClientConfig Der PrivateKey Roots) -> DialEnv;
  pe_handshake : Stream -> Taking unit Causes;
  pe_status : Stream -> Outbound -> Taking Z LibraryKind;
  pe_check : Stream -> Outbound -> list Z -> Taking (CheckResponse LibraryKind) LibraryKind;
  pe_uri : str -> option Uri;
}.

(** [tls_connector]: [None] where the [expect] panics. *)
Definition probe_connector : option (ClientConfig Der PrivateKey Roots) :=
  match connector_new (mkConnectorOptions TrustUnverified None) with Ok c => Some c | Err _ => None end.

(** [open]: the time is that of the dial and of the handshake. *)
Definition probe_open (env : ProbeEnv) (tls : option (ClientConfig Der PrivateKey Roots)) (protocol : Protocol)
    (host : str) (port : Z) : Taking (Connection * Stream) ProbeFailure :=
  let dial := pe_dial env tls in
  let encrypted := negb (is_none tls) in
  let alpn := if encrypted then Some (protocol_alpn protocol) else None in
  let opened := connection_open dial (fun s => (pe_handshake env s).2) 0 host port protocol encrypted None in
  let '(dialled, _, stream) := open_now dial 0 (unbracketed host) port alpn SystemLookups in
  (if is_none (authority_of_str (authority_text host port)) then 0
   else dialled + match stream with Ok s => (pe_handshake env s).1 | Err _ => 0 end,
   map_err ConnectionFailed opened).

(** [Request::builder]: a target, then headers of different names, each of
    which may not be one. *)
Definition build_request (method : Method) (uri : option Uri) (headers : list (str * str)) :
    result Parts ProbeFailure :=
  match uri with
  | None => Err RequestInvalid
  | Some uri =>
      let add h nv :=
        match h, value_of_str nv.2 with
        | Some h, Some v => Some (headers_insert nv.1 v h)
        | _, _ => None
        end in
      match foldl add (Some headers_new) headers with
      | Some h => Ok (mkParts _ method uri HTTP_11 h)
      | None => Err RequestInvalid
      end
  end.

Definition at_once {A} (r : result A ProbeFailure) : Taking A ProbeFailure := (0, r).

(** [HttpProbe::status]. *)
Definition http_status (env : ProbeEnv) (tls : option (ClientConfig Der PrivateKey Roots)) (path host : str)
    (port : Z) : Taking Z ProbeFailure :=
  then_ (probe_open env tls ProtocolHttp11 host port) (fun '(connection, stream) =>
  then_ (at_once (build_request GET (pe_uri env path) [(HOST, host); (USER_AGENT, PROBE_USER_AGENT)])) (fun request =>
  then_ (at_once (map_err ConnectionFailed (connection_send connection request))) (fun sent =>
    let (took, status) := pe_status env stream sent in (took, map_err ConnectionFailed status)))).

(** [GrpcProbe::call]. *)
Definition grpc_answer (env : ProbeEnv) (tls : option (ClientConfig Der PrivateKey Roots)) (host : str) (port : Z) :
    Taking ServingStatus ProbeFailure :=
  then_ (probe_open env tls ProtocolHttp2 host port) (fun '(connection, stream) =>
  then_ (at_once (build_request POST (pe_uri env CHECK_PATH)
    [(CONTENT_TYPE, lit "application/grpc"); (TE, lit "trailers"); (USER_AGENT, PROBE_USER_AGENT)])) (fun request =>
  then_ (at_once (map_err ConnectionFailed (connection_send connection request))) (fun sent =>
    let (took, answer) := pe_check env stream sent CHECK_REQUEST in (took, map_err CallFailed (grpc_call answer))))).

(** [make_probe], then [check]: [None] where the connector panics. *)
Definition probe_check (kind : ProbeKind) (env : ProbeEnv) (timeout : Z) (host : str) (port : Z) :
    option ProbeResult :=
  let with_tls (tls : bool) (check : option (ClientConfig Der PrivateKey Roots) -> ProbeResult) :=
    if tls then (fun c => check (Some c)) <$> probe_connector else Some (check None) in
  match kind with
  | TcpKind => Some (tcp_check (under timeout (pe_tcp env host port)))
  | HttpKind path expected drain tls =>
      with_tls tls (fun c => http_check expected drain (under timeout (http_status env c path host port)))
  | GrpcKind tls => with_tls tls (fun c => grpc_check (under timeout (grpc_answer env c host port)))
  end.
End Probing.

(** ** What a probe that does not fail has seen *)

Section ProbeFacts.
Context `{HttpLaws} `{RustlsClientLaws Der PrivateKey Roots}.
Notation config := (ClientConfig Der PrivateKey Roots).
Implicit Types (env : ProbeEnv (L := L) (Der := Der) (PrivateKey := PrivateKey) (Roots := Roots)).

(** The TLS a probe speaks: none, or one that verifies and presents nothing. *)
Definition probe_tls (tls : bool) (c : option config) : Prop :=
  match c with
  | None => tls = false
  | Some c => tls = true /\ cc_verifier c = Unverified /\ cc_client_auth c = None
  end.

Lemma probe_connector_built :
  safe_default_versions = Ok () ->
  exists c : config, probe_connector = Some c /\ cc_verifier c = Unverified /\ cc_client_auth c = None.
Proof. intros Hv. unfold probe_connector, connector_new. rewrite Hv. simpl. by eexists. Qed.

Lemma then_Ok {A B E} (t : Taking A E) (k : A -> Taking B E) took b :
  then_ t k = (took, Ok b) -> exists t1 a t2, t = (t1, Ok a) /\ k a = (t2, Ok b) /\ took = t1 + t2.
Proof.
  unfold then_. destruct t as [t1 [a|e]]; [|done]. destruct (k a) as [t2 r] eqn:Ek. intros. simplify_eq.
  by exists t1, a, t2.
Qed.

(** The headers of a request, each with its one value. *)
Lemma build_request_spec method uri headers request :
  NoDup headers.*1 -> build_request method uri headers = Ok request ->
  rq_method request = method /\ Some (rq_uri request) = uri /\
  (forall n v, (n, v) ∈ headers -> headers_get_all (rq_headers request) n = [v]) /\
  (forall n, n ∉ headers.*1 -> headers_get_all (rq_headers request) n = []).
Proof using Type*.
  intros Hn. unfold build_request. destruct uri as [u|]; [|done].
  assert (Hf : forall h h', NoDup headers.*1 ->
    foldl (fun h nv => match h, value_of_str nv.2 with
           | Some h, Some v => Some (headers_insert nv.1 v h) | _, _ => None end) (Some h) headers = Some h' ->
    (forall n v, (n, v) ∈ headers -> headers_get_all h' n = [v]) /\
    (forall n, n ∉ headers.*1 -> headers_get_all h' n = headers_get_all h n)).
  { clear Hn. induction headers as [|[n v] headers IH]; intros h h' Hn; simpl; [intros [= ->]; split; [set_solver|done]|].
    apply NoDup_cons in Hn as [Hx Hn]. destruct (value_of_str v) as [w|] eqn:Ev.
    - apply value_of_str_same in Ev as ->. intros Hf. destruct (IH _ _ Hn Hf) as [H1' H2']. split.
      + intros m w [[= -> ->]|Hin]%elem_of_cons; [|by apply H1']. rewrite H2' by done.
        rewrite get_all_insert. by rewrite decide_True.
      + intros m Hm. rewrite H2' by set_solver. rewrite get_all_insert. rewrite decide_False by set_solver. done.
    - intros Hf. exfalso. clear -Hf. induction headers as [|x headers IH]; [done|]. by apply IH. }
  destruct (foldl _ _ headers) as [h'|] eqn:Ef; [|done]. intros [= <-]. simpl.
  destruct (Hf headers_new h' Hn Ef) as [H1' H2']. split_and!; [done..|].
  intros n Hx. rewrite H2' by done. apply get_all_new.
Qed.

(** The connection a probe opens: to the address the backend's host stands
    for, over TLS for that name exactly when there is a configuration for it,
    with the protocol settled on. *)
Definition opened_to env (c : option config) (tls : bool) (protocol : Protocol) (host : str) (port : Z) (s : Stream) : Prop :=
  probe_tls tls c /\ (match s with PlainStream _ => false | TlsStream _ _ _ => true end) = tls /\
  stream_for tls host (protocol_alpn protocol) s /\ address_of (pe_dial env c) 0 host port SystemLookups s /\
  exists shaken, pe_handshake env s = (shaken, Ok ()).

Lemma probe_open_spec env c protocol host port took connection stream :
  probe_open env c protocol host port = (took, Ok (connection, stream)) ->
  cx_protocol connection = protocol /\ cx_https connection = negb (is_none c) /\
  cx_authority connection = authority_text host port /\
  forall tls, probe_tls tls c -> opened_to env c tls protocol host port stream.
Proof using Type*.
  unfold probe_open. destruct (open_now _ _ _ _ _ _) as [[d l] s]. unfold connection_open.
  destruct (authority_of_str _) as [a|] eqn:Ea; simpl; [|done]. apply authority_of_str_same in Ea as ->.
  destruct (dial _ _ _ _ _ _ _) as [l' [st|]] eqn:Ed; simpl; [|done]. apply dial_ok in Ed as [Hs Ha].
  destruct (pe_handshake env st) as [shaken [[]|]] eqn:Eh; simpl; [|done]. intros. simplify_eq/=.
  split_and!; [done..|]. intros tls Hc.
  assert (Ht : negb (is_none c) = tls) by (destruct c; naive_solver). rewrite Ht in Hs.
  split_and!; [done| |done|done|by eexists].
  destruct stream; simpl in Hs; naive_solver.
Qed.

(** What the backend is asked. *)
Definition asks_http (o : Outbound) (tls : bool) (path_uri : option Uri) (host : str) (port : Z) : Prop :=
  ob_http2 o = false /\ ob_https o = tls /\ ob_authority o = authority_text host port /\
  ob_method o = GET /\ ob_version o = HTTP_11 /\ Some (ob_path_and_query o) = path_and_query <$> path_uri /\
  headers_get_all (ob_headers o) HOST = [host] /\ headers_get_all (ob_headers o) USER_AGENT = [PROBE_USER_AGENT].

Definition asks_grpc (o : Outbound) (tls : bool) (path_uri : option Uri) (host : str) (port : Z) : Prop :=
  ob_http2 o = true /\ ob_https o = tls /\ ob_authority o = authority_text host port /\
  ob_method o = POST /\ ob_version o = HTTP_2 /\ Some (ob_path_and_query o) = path_and_query <$> path_uri /\
  headers_get_all (ob_headers o) HOST = [] /\ headers_get_all (ob_headers o) TE = [lit "trailers"] /\
  headers_get_all (ob_headers o) CONTENT_TYPE = [lit "application/grpc"] /\
  headers_get_all (ob_headers o) USER_AGENT = [PROBE_USER_AGENT].

(** The requests the probes build, as they are handed over. *)
Lemma http_request_asks connection uri host request o :
  cx_protocol connection = ProtocolHttp11 ->
  build_request GET uri [(HOST, host); (USER_AGENT, PROBE_USER_AGENT)] = Ok request ->
  connection_send connection request = Ok o ->
  forall port, cx_authority connection = authority_text host port -> asks_http o (cx_https connection) uri host port.
Proof using Type*.
  intros Hp Er Es port Ha.
  apply build_request_spec in Er as (Hm & Hu & Hg & _);
    [|apply (bool_decide_eq_true_1 (NoDup _)); vm_compute; reflexivity].
  unfold connection_send in Es. rewrite Hp in Es.
  destruct (value_of_str _) as [v|]; simpl in Es; [|done]. injection Es as <-.
  assert (HH : headers_get_all (rq_headers request) HOST = [host]) by (apply Hg; by left).
  unfold asks_http, headers_contains. rewrite HH, bool_decide_false by done. simpl. rewrite <-Hu.
  split_and!; try done. apply Hg. right. by left.
Qed.

Lemma grpc_request_asks connection uri host request o :
  cx_protocol connection = ProtocolHttp2 ->
  build_request POST uri
    [(CONTENT_TYPE, lit "application/grpc"); (TE, lit "trailers"); (USER_AGENT, PROBE_USER_AGENT)] = Ok request ->
  connection_send connection request = Ok o ->
  forall port, cx_authority connection = authority_text host port -> asks_grpc o (cx_https connection) uri host port.
Proof using Type*.
  intros Hp Er Es port Ha.
  apply build_request_spec in Er as (Hm & Hu & Hg & _);
    [|apply (bool_decide_eq_true_1 (NoDup _)); vm_compute; reflexivity].
  unfold connection_send in Es. rewrite Hp in Es. simpl in Es. injection Es as <-.
  unfold asks_grpc. cbn [ob_http2 ob_https ob_authority ob_method ob_version ob_path_and_query ob_headers].
  rewrite <-Hu, !get_all_remove. repeat (rewrite decide_False by done). rewrite decide_True by done.
  split_and!; try done; apply Hg.
  - right. by left.
  - by left.
  - right. right. by left.
Qed.

Lemma http_status_spec env c path host port took status :
  http_status env c path host port = (took, Ok status) ->
  exists stream o answered, pe_status env stream o = (answered, Ok status) /\
    asks_http o (negb (is_none c)) (pe_uri env path) host port /\
    forall tls, probe_tls tls c -> opened_to env c tls ProtocolHttp11 host port stream.
Proof using Type*.
  unfold http_status. intros (t1 & [connection stream] & t2 & Eo & E & _)%then_Ok.
  apply probe_open_spec in Eo as (Hp & Hh & Ha & Hs).
  apply then_Ok in E as (t3 & request & t4 & Er & E & _). unfold at_once in Er. injection Er as _ Er.
  apply then_Ok in E as (t5 & o & t6 & Es & E & _). unfold at_once in Es. injection Es as _ Es.
  destruct (connection_send connection request) as [o'|] eqn:Ec; simpl in Es; [|done]. injection Es as ->.
  destruct (pe_status _ _ _) as [answered [s|]] eqn:Ep; simpl in E; [|done]. simplify_eq.
  eexists _, _, _. split; [exact Ep|]. rewrite <-Hh. split; [by eapply http_request_asks|done].
Qed.

Lemma grpc_answer_spec env c host port took status :
  grpc_answer env c host port = (took, Ok status) ->
  exists stream o answered answer, pe_check env stream o CHECK_REQUEST = (answered, answer) /\
    grpc_call answer = Ok status /\ asks_grpc o (negb (is_none c)) (pe_uri env CHECK_PATH) host port /\
    forall tls, probe_tls tls c -> opened_to env c tls ProtocolHttp2 host port stream.
Proof using Type*.
  unfold grpc_answer. intros (t1 & [connection stream] & t2 & Eo & E & _)%then_Ok.
  apply probe_open_spec in Eo as (Hp & Hh & Ha & Hs).
  apply then_Ok in E as (t3 & request & t4 & Er & E & _). unfold at_once in Er. injection Er as _ Er.
  apply then_Ok in E as (t5 & o & t6 & Es & E & _). unfold at_once in Es. injection Es as _ Es.
  destruct (connection_send connection request) as [o'|] eqn:Ec; simpl in Es; [|done]. injection Es as ->.
  destruct (pe_check _ _ _ _) as [answered answer] eqn:Ep. injection E as _ E.
  destruct (grpc_call answer) as [s|] eqn:Eg; simpl in E; [|done]. simplify_eq.
  eexists _, _, _, _. split; [exact Ep|]. split; [done|]. rewrite <-Hh. split; [by eapply grpc_request_asks|done].
Qed.

Lemma with_tls_checked (tls : bool) (check : option config -> ProbeResult) :
  safe_default_versions = Ok () ->
  exists c, probe_tls tls c /\
    (if tls then (fun c => check (Some c)) <$> probe_connector else Some (check None)) = Some (check c).
Proof.
  intros Hv. destruct tls; [|by exists None].
  destruct (probe_connector_built Hv) as (c & Ec & H1 & H2). exists (Some c). rewrite Ec. done.
Qed.

End ProbeFacts.

(** ** A probe *)

(** A backend that answers every request 200 within 40 ms, SERVING. *)
Definition example_probe_env : ProbeEnv (L := assoc_http) (Der := Z) (PrivateKey := Z) (Roots := list Z) :=
  mkProbeEnv (L := assoc_http) (fun _ _ => (from_millis 1, Ok ())) (fun _ => example_peer)
    (fun _ => (from_millis 1, Ok ())) (fun _ _ => (from_millis 20, Ok 200))
    (fun _ _ _ => (from_millis 20, Ok (mkCheckResponse 200 None (Ok ([0; 0; 0; 0; 2; 8; 1], Some (Some (lit "0")))))))
    (fun path => Some (mkUri None path (Some path))).

