(* ===== verification/MockBackend.v ===== *)
(** * The backends the probes are tried on: [lib/health-checking/src/mock_backend.rs]

    Servers whose answer can be changed, speaking HTTP/1.1 or HTTP/2 with or
    without TLS, one that never answers and a port nothing listens on. What a
    probe makes of each is the other half of [Probes]: there a result that is
    not a failure is shown to stand for something, here each backend is shown
    to get the result it stands for. The network and hyper in between are a
    [ProbeEnv]; [Reaches] is what they promise. *)

From S2P Require Import Prelude Str Net HealthChecking Config Tls Causes TlsPolicy Http Request Dns Client Probes.
From Stdlib Require Import Ascii.

Definition LOOPBACK : str := lit "127.0.0.1".

Section Backends.
Context `{L : HttpLib}.

(** An HTTP backend: its port, the status it answers and the [Host] of the
    last request. How many connections are open is a [Counting] below. *)
Record HttpBackend := mkHttpBackend {
  hb_port : Z;
  hb_status : Z;
  hb_host : str;
}.

Record MockResponse := mkMockResponse {
  mr_status : Z;
  mr_headers : HeaderMap;
  mr_body : list Z;
  mr_trailers : option HeaderMap;
}.

(** [HttpBackend::answer] and [last_host]. *)
Definition hb_answer (status : Z) (b : HttpBackend) : HttpBackend := mkHttpBackend (hb_port b) status (hb_host b).

Definition last_host (b : HttpBackend) : str := hb_host b.

(** [StatusCode::from_u16]. *)
Definition status_from_u16 (status : Z) : option Z :=
  if (100 <=? status) && (status <? 1000) then Some status else None.

(** The closure of [serve_http]: the host is recorded, then the status is
    answered, or the [expect] panics ([None]). *)
Definition respond_http (request : HeaderMap) (b : HttpBackend) : HttpBackend * option MockResponse :=
  let host := default [] (headers_get request HOST ≫= value_to_str) in
  let b := mkHttpBackend (hb_port b) (hb_status b) host in
  (b, (fun status => mkMockResponse status headers_new [111; 107] None) <$> status_from_u16 (hb_status b)).

(** A server: what it answers with, and whether over TLS. *)
Inductive Mock :=
| MockHttp (b : HttpBackend) (tls : bool)
| MockGrpc (port : Z) (message : list Z) (call_status : str) (tls : bool)
| MockSilent (port : Z)
| MockClosed (port : Z).

Definition serve_http (port : Z) (status : Z) (tls : bool) : Mock := MockHttp (mkHttpBackend port status []) tls.
Definition mock_http (port status : Z) : Mock := serve_http port status false.
Definition mock_https (port status : Z) : Mock := serve_http port status true.

(** The closure of [grpc]: every call is answered with the message, and its
    status in the trailers. *)
Definition respond_grpc (message : list Z) (call_status : str) : MockResponse :=
  mkMockResponse 200 (headers_insert CONTENT_TYPE (lit "application/grpc") headers_new) message
    (Some (headers_insert (lit "grpc-status") call_status headers_new)).

Definition grpc_health (port : Z) (status : option Z) (tls : bool) : Mock :=
  let message := match status with Some status => [0; 0; 0; 0; 2; 8; status] | None => [] end in
  MockGrpc port message (if negb (is_none status) then lit "0" else lit "12") tls.

Definition grpc_answering (port : Z) (message : list Z) : Mock := MockGrpc port message (lit "0") false.

(** What a server answers to a request, and how it is left. *)
Definition respond (m : Mock) (request : HeaderMap) : Mock * option MockResponse :=
  match m with
  | MockHttp b tls => let (b, r) := respond_http request b in (MockHttp b tls, r)
  | MockGrpc _ message call_status _ => (m, Some (respond_grpc message call_status))
  | MockSilent _ | MockClosed _ => (m, None)
  end.

Definition mock_port (m : Mock) : Z :=
  match m with MockHttp b _ => hb_port b | MockGrpc port _ _ _ | MockSilent port | MockClosed port => port end.

Definition listens (m : Mock) : bool := match m with MockClosed _ => false | _ => true end.

(** The TLS a server speaks: none of its own where it does not serve. *)
Definition serves_over (m : Mock) : option bool :=
  match m with MockHttp _ tls | MockGrpc _ _ _ tls => Some tls | MockSilent _ | MockClosed _ => None end.

(** [tls_acceptor]: the protocols it offers, in its order. *)
Definition ACCEPTOR_ALPN : list str := [lit "h2"; lit "http/1.1"].

(** ** The connections of [serve] *)

(** The accept loop counts a connection in before its task starts, and the
    task counts it out when it has served it: not when it panics. *)
Record Counting := mkCounting { ct_open : Z; ct_serving : nat; ct_panicked : nat }.

Definition counting_new : Counting := mkCounting 0 0 0.

Inductive CountingEvent := MockAccepts | MockServed | MockPanics.

Definition counting_event (ev : CountingEvent) (c : Counting) : option Counting :=
  match ev with
  | MockAccepts => Some (mkCounting (ct_open c + 1) (S (ct_serving c)) (ct_panicked c))
  | MockServed =>
      match ct_serving c with S n => Some (mkCounting (ct_open c - 1) n (ct_panicked c)) | O => None end
  | MockPanics =>
      match ct_serving c with S n => Some (mkCounting (ct_open c) n (S (ct_panicked c))) | O => None end
  end.

Fixpoint counting_run (evs : list CountingEvent) (c : Counting) : option Counting :=
  match evs with
  | [] => Some c
  | ev :: evs => match counting_event ev c with Some c => counting_run evs c | None => None end
  end.

(** [all_connections_closed] returns. *)
Definition all_connections_closed (c : Counting) : bool := ct_open c =? 0.

Lemma counting_exact evs c :
  counting_run evs counting_new = Some c -> ct_open c = Z.of_nat (ct_serving c) + Z.of_nat (ct_panicked c).
Proof.
  assert (forall c0, ct_open c0 = Z.of_nat (ct_serving c0) + Z.of_nat (ct_panicked c0) ->
            counting_run evs c0 = Some c -> ct_open c = Z.of_nat (ct_serving c) + Z.of_nat (ct_panicked c)) as H.
  { induction evs as [|ev evs IH]; intros [o s p] H0; simpl; [by intros [= <-]|].
    destruct ev; simpl; [|destruct s; [done|]..]; apply IH; simpl in *; lia. }
  by apply H.
Qed.
End Backends.

(** ** What is in between *)

Lemma offered_known protocol : exists p, p ∈ (alpn_id <$> [protocol_alpn protocol]) /\ p ∈ ACCEPTOR_ALPN.
Proof. exists (alpn_id (protocol_alpn protocol)). split; [by left|]. destruct protocol; set_solver. Qed.

(** Whichever of its protocols is offered, that is the one settled on. *)
Lemma offered_agreed protocol :
  find_first (fun p => bool_decide (p ∈ (alpn_id <$> [protocol_alpn protocol]))) ACCEPTOR_ALPN ≫= alpn_of =
  Some (protocol_alpn protocol).
Proof. destruct protocol; vm_compute; reflexivity. Qed.

Section Reaching.
Context `{L : HttpLib} `{!HttpLaws L} `{RustlsClientLaws Der PrivateKey Roots}.
Notation config := (ClientConfig Der PrivateKey Roots).
Implicit Types (env : ProbeEnv (L := L) (Der := Der) (PrivateKey := PrivateKey) (Roots := Roots)) (c : option config).

(** The answer to a Check call, as the client reads it. *)
Definition as_check (r : MockResponse) : CheckResponse LibraryKind :=
  mkCheckResponse (mr_status r) (headers_get (mr_headers r) (lit "grpc-status"))
    (Ok (mr_body r, (fun t => headers_get t (lit "grpc-status")) <$> mr_trailers r)).

Definition encrypted (s : Stream) : bool := match s with TlsStream _ _ _ => true | PlainStream _ => false end.

(** The network and the libraries, between a probe and a server that is [m]:
    each step is done within [delay]; a port nothing listens on refuses; a
    TLS handshake takes the first protocol of the acceptor's that is offered,
    and its certificate passes where none is verified; the end that speaks
    TLS and the end that does not fail with each other; a request reaches the
    server, and its answer comes back; a server that never answers makes
    what waits for it wait past [timeout]. *)
Record Reaches env (m : Mock) (delay timeout : Z) (host : str) (port : Z) : Prop := {
  rc_tcp : match pe_tcp env host port with
           | (took, Ok _) => listens m = true /\ took <= delay
           | (_, Err _) => listens m = false
           end;
  rc_resolved c : exists a more took, de_resolved (pe_dial env c) = (took, Ok (a :: more)) /\ 0 <= took <= delay /\
    match de_connect (pe_dial env c) a with
    | (took, Ok _) => listens m = true /\ 0 <= took <= delay /\ de_set_nodelay (pe_dial env c) = Ok ()
    | (_, Err _) => listens m = false
    end;
  rc_name c : de_is_server_name (pe_dial env c) (unbracketed host) = true;
  rc_tls (c : config) offered : cc_verifier c = Unverified -> (exists p, p ∈ offered /\ p ∈ ACCEPTOR_ALPN) ->
    match serves_over m with
    | Some true => exists took, 0 <= took <= delay /\
        de_handshake (pe_dial env (Some c)) (unbracketed host) offered =
          (took, Ok (find_first (fun p => bool_decide (p ∈ offered)) ACCEPTOR_ALPN))
    | Some false => exists took e, de_handshake (pe_dial env (Some c)) (unbracketed host) offered = (took, Err e)
    | None => listens m = true -> timeout < (de_handshake (pe_dial env (Some c)) (unbracketed host) offered).1
    end;
  rc_handshake stream : serves_over m <> None -> exists took, 0 <= took <= delay /\
    pe_handshake env stream = (took, Ok ());
  rc_handshake_time stream : 0 <= (pe_handshake env stream).1;
  rc_status stream o :
    match serves_over m with
    | Some tls =>
        if Bool.eqb tls (encrypted stream) then
          match (respond m (ob_headers o)).2 with
          | Some r => exists took, 0 <= took <= delay /\ pe_status env stream o = (took, Ok (mr_status r))
          | None => exists took e, pe_status env stream o = (took, Err e)
          end
        else exists took e, pe_status env stream o = (took, Err e)
    | None => listens m = true -> timeout < (pe_status env stream o).1
    end;
  rc_check stream o body :
    match serves_over m with
    | Some tls =>
        if Bool.eqb tls (encrypted stream) then
          match (respond m (ob_headers o)).2 with
          | Some r => exists took, 0 <= took <= delay /\ pe_check env stream o body = (took, Ok (as_check r))
          | None => exists took e, pe_check env stream o body = (took, Err e)
          end
        else exists took e, pe_check env stream o body = (took, Err e)
    | None => listens m = true -> timeout < (pe_check env stream o body).1
    end;
}.

(** What each kind of probe is to make of each server. *)
Definition meant (kind : ProbeKind) (m : Mock) : ProbeResult :=
  match kind, m with
  | TcpKind, MockClosed _ => Fail
  | TcpKind, _ => Pass
  | HttpKind _ expected drain tls, MockHttp b tls' =>
      if Bool.eqb tls tls' && negb (is_none (status_from_u16 (hb_status b))) then
        if hb_status b =? expected then Pass else if bool_decide (Some (hb_status b) = drain) then Drain else Fail
      else Fail
  | HttpKind _ expected drain tls, MockGrpc _ _ _ tls' =>
      if Bool.eqb tls tls' then
        if 200 =? expected then Pass else if bool_decide (Some 200 = drain) then Drain else Fail
      else Fail
  | GrpcKind tls, MockGrpc _ message call_status tls' =>
      if Bool.eqb tls tls' && str_eqb call_status (lit "0") then
        match serving_status message with Some Serving => Pass | Some NotServing => Drain | _ => Fail end
      else Fail
  | _, _ => Fail
  end.

Section Network.
Context env m delay timeout host port (Hreach : Reaches env m delay timeout host port).
Context (Hdelay : 0 <= delay) (Htimeout : 5 * delay <= timeout).
Context (Hauthority : authority_of_str (authority_text host port) <> None).
Context (Hvisible : forallb is_value_char host = true /\ forallb is_value_char (authority_text host port) = true).

Definition dialled c protocol : Z * (Z * Lookups) * result Stream DialError :=
  open_now (pe_dial env c) 0 (unbracketed host) port
    (if negb (is_none c) then Some (protocol_alpn protocol) else None) SystemLookups.

Lemma dialled_refused c protocol : listens m = false -> exists e, (dialled c protocol).2 = Err e.
Proof using Hreach.
  intros Hl. destruct (rc_resolved _ _ _ _ _ _ Hreach c) as (a & more & took & Er & _ & Hc).
  unfold dialled, open_now, lookup_address, open_at. rewrite Er. simpl.
  destruct (de_connect _ a) as [t [[]|e]]; [destruct Hc; congruence|]. by eexists.
Qed.

Lemma dialled_plain protocol :
  listens m = true -> exists took l a, dialled None protocol = (took, l, Ok (PlainStream a)) /\ 0 <= took <= 2 * delay.
Proof using Hreach.
  intros Hl. destruct (rc_resolved _ _ _ _ _ _ Hreach None) as (a & more & took & Er & Ht & Hc).
  unfold dialled, open_now, lookup_address, open_at. rewrite Er. simpl.
  destruct (de_connect _ a) as [t [[]|e]]; [|congruence]. destruct Hc as (_ & ? & ->).
  do 3 eexists. split; [done|]. lia.
Qed.

Lemma dialled_tls (c : config) protocol :
  listens m = true -> cc_verifier c = Unverified ->
  match serves_over m with
  | Some true => exists took l a h alpn, dialled (Some c) protocol = (took, l, Ok (TlsStream a h alpn)) /\ 0 <= took <= 3 * delay
  | Some false => exists e, (dialled (Some c) protocol).2 = Err e
  | None => timeout < (dialled (Some c) protocol).1.1
  end.
Proof using Hreach.
  intros Hl Hv. destruct (rc_resolved _ _ _ _ _ _ Hreach (Some c)) as (a & more & took & Er & Ht & Hc).
  pose proof (rc_tls _ _ _ _ _ _ Hreach c _ Hv (offered_known protocol)) as Hs.
  unfold dialled, open_now, lookup_address, open_at, tls_connect. rewrite Er. cbn [first_address map_err is_none negb fst snd].
  destruct (de_connect _ a) as [t [[]|e]]; [|congruence]. destruct Hc as (_ & Ht' & ->).
  rewrite (rc_name _ _ _ _ _ _ Hreach). cbn [negb].
  destruct (serves_over m) as [[]|].
  - destruct Hs as (t2 & Ht2 & ->). rewrite offered_agreed.
    assert (agreed (protocol_alpn protocol) (Some (protocol_alpn protocol)) = true) as -> by by destruct protocol.
    do 5 eexists. split; [done|]. lia.
  - destruct Hs as (t2 & e & ->). by eexists.
  - specialize (Hs Hl). destruct (de_handshake _ _ _) as [t2 [n|e]]; simpl in *; lia.
Qed.

(** Then hyper's handshake. *)
Lemma probe_open_dialled c protocol :
  exists authority, authority = authority_text host port /\
  probe_open env c protocol host port =
    ((dialled c protocol).1.1 + match (dialled c protocol).2 with Ok s => (pe_handshake env s).1 | Err _ => 0 end,
     map_err ConnectionFailed
       match (dialled c protocol).2 with
       | Err e => Err (failure_of [CauseConnect e] true)
       | Ok stream =>
           match (pe_handshake env stream).2 with
           | Err e => Err (failure_of e true)
           | Ok _ => Ok (mkConnection protocol (negb (is_none c)) authority, stream)
           end
       end).
Proof using Hauthority HttpLaws0.
  unfold probe_open, connection_open, dial. fold (dialled c protocol).
  destruct (authority_of_str _) as [authority|] eqn:E; [|done]. apply authority_of_str_same in E as ->.
  eexists. split; [done|]. destruct (dialled c protocol) as [[t [l l']] r]. done.
Qed.

(** The probe's side of TLS fits its configuration. *)
Definition trusts_any c : Prop := match c with Some c => cc_verifier c = Unverified | None => True end.

Lemma open_fits c protocol :
  trusts_any c -> serves_over m = Some (negb (is_none c)) ->
  exists took connection stream, probe_open env c protocol host port = (took, Ok (connection, stream)) /\
    0 <= took <= 4 * delay /\ encrypted stream = negb (is_none c).
Proof using Hreach Hauthority HttpLaws0.
  intros Hv Hs. assert (listens m = true) as Hl by (by destruct m).
  destruct (probe_open_dialled c protocol) as (authority & _ & ->).
  assert (exists took l s, dialled c protocol = (took, l, Ok s) /\ 0 <= took <= 3 * delay /\
            encrypted s = negb (is_none c)) as (took & l & s & -> & Ht & He).
  { destruct c as [c|].
    - pose proof (dialled_tls c protocol Hl Hv) as Hd. rewrite Hs in Hd. destruct Hd as (t & l & a & h & alpn & -> & ?).
      by exists t, l, (TlsStream a h alpn).
    - destruct (dialled_plain protocol Hl) as (t & l & a & -> & ?). exists t, l, (PlainStream a). split_and!; done || lia. }
  destruct (rc_handshake _ _ _ _ _ _ Hreach s) as (t & Ht' & E); [by rewrite Hs|]. simpl. rewrite E. simpl.
  do 3 eexists. split; [done|]. split; [lia|done].
Qed.

(** A mismatch, a refusal and a silence: the connection is not opened, or
    what it is opened on does not answer in time. *)
Lemma open_misfits c protocol took connection stream :
  trusts_any c -> serves_over m <> Some (negb (is_none c)) ->
  probe_open env c protocol host port = (took, Ok (connection, stream)) ->
  listens m = true /\ 0 <= took /\ (serves_over m = None \/ serves_over m = Some true /\ encrypted stream = false).
Proof using Hreach Hauthority HttpLaws0 Hdelay Htimeout.
  intros Hv Hs. destruct (probe_open_dialled c protocol) as (authority & _ & ->).
  pose proof (fun s => rc_handshake_time _ _ _ _ _ _ Hreach s) as Hh.
  destruct (listens m) eqn:Hl.
  2: { destruct (dialled_refused c protocol Hl) as [e ->]. done. }
  destruct c as [c|].
  - pose proof (dialled_tls c protocol Hl Hv) as Hd. destruct (serves_over m) as [[]|]; simpl in Hs; [done| |].
    + destruct Hd as [e ->]. done.
    + destruct (dialled (Some c) protocol) as [[t l] [s|e]]; simpl in *; [|done]. specialize (Hh s).
      destruct (pe_handshake env s) as [t2 [[]|e]]; simpl in *; [|done]. intros [= <- _ _]. split_and!; [done|lia|by left].
  - destruct (dialled_plain protocol Hl) as (t & l & a & -> & ?). simpl. specialize (Hh (PlainStream a)).
    destruct (pe_handshake env _) as [t2 [[]|e]]; simpl in *; [|done]. intros [= <- _ <-].
    split; [done|]. split; [lia|]. destruct (serves_over m) as [[]|]; [by right|done|by left].
Qed.

(** What is built of visible text is a request. *)
Lemma build_request_visible method u headers :
  Forall (fun nv => forallb is_value_char nv.2 = true) headers ->
  exists request, build_request method (Some u) headers = Ok request.
Proof using HttpLaws0.
  intros Hv. unfold build_request. generalize headers_new. induction headers as [|[n v] headers IH]; intros h; simpl.
  { by eexists. }
  apply Forall_cons in Hv as [Hv Hvs]. simpl in Hv. rewrite (value_of_visible v Hv). by apply IH.
Qed.

(** On a connection that is open, the request is sent and the answer is the
    probe's. *)
Lemma http_status_opened c path took connection stream :
  pe_uri env path <> None -> probe_open env c ProtocolHttp11 host port = (took, Ok (connection, stream)) ->
  exists o, asks_http o (negb (is_none c)) (pe_uri env path) host port /\
    http_status env c path host port =
      (took + (pe_status env stream o).1, map_err ConnectionFailed (pe_status env stream o).2).
Proof using Type*.
  intros Hu Ho. destruct (pe_uri env path) as [u|] eqn:Eu; [|done].
  destruct (build_request_visible GET u [(HOST, host); (USER_AGENT, PROBE_USER_AGENT)]) as [request Er].
  { constructor; [apply Hvisible|]. by repeat constructor. }
  pose proof (probe_open_spec _ _ _ _ _ _ _ _ Ho) as (Hp & Hh & Ha & _).
  assert (exists o, connection_send connection request = Ok o) as [o Es].
  { unfold connection_send. rewrite Hp, Ha, value_of_visible by apply Hvisible. by eexists. }
  exists o. split; [rewrite <-Hh; by eapply http_request_asks|].
  unfold http_status, at_once. rewrite Ho, Eu. cbn [then_]. rewrite Er. cbn [then_]. rewrite Es. cbn [then_ map_err].
  destruct (pe_status env stream o) as [t r]. simpl. f_equal.
Qed.

Lemma grpc_answer_opened c took connection stream :
  pe_uri env CHECK_PATH <> None -> probe_open env c ProtocolHttp2 host port = (took, Ok (connection, stream)) ->
  exists o, asks_grpc o (negb (is_none c)) (pe_uri env CHECK_PATH) host port /\
    grpc_answer env c host port =
      (took + (pe_check env stream o CHECK_REQUEST).1,
       map_err CallFailed (grpc_call (pe_check env stream o CHECK_REQUEST).2)).
Proof using Type*.
  intros Hu Ho. destruct (pe_uri env CHECK_PATH) as [u|] eqn:Eu; [|done].
  destruct (build_request_visible POST u [(CONTENT_TYPE, lit "application/grpc"); (TE, lit "trailers");
    (USER_AGENT, PROBE_USER_AGENT)]) as [request Er]; [by repeat constructor|].
  pose proof (probe_open_spec _ _ _ _ _ _ _ _ Ho) as (Hp & Hh & Ha & _).
  assert (exists o, connection_send connection request = Ok o) as [o Es].
  { unfold connection_send. rewrite Hp. by eexists. }
  exists o. split; [rewrite <-Hh; by eapply grpc_request_asks|].
  unfold grpc_answer, at_once. rewrite Ho, Eu. cbn [then_]. rewrite Er. cbn [then_]. rewrite Es. cbn [then_ map_err].
  destruct (pe_check env stream o CHECK_REQUEST) as [t r]. simpl. f_equal.
Qed.

(** A probe that does not fit what it is sent to gets no answer in time. *)
Lemma under_never {A E} (t : Taking A E) : timeout < t.1 \/ (exists e, t.2 = Err e) ->
  match under timeout t with InTime (Ok _) => False | _ => True end.
Proof using Type. unfold under. destruct t as [took [a|e]]; simpl; destruct (Z.leb_spec took timeout); intros [?|[? ?]]; done || lia. Qed.

Lemma http_misfit c path :
  trusts_any c -> serves_over m <> Some (negb (is_none c)) -> pe_uri env path <> None ->
  match under timeout (http_status env c path host port) with InTime (Ok _) => False | _ => True end.
Proof using Type*.
  intros Hv Hs Hu. destruct (probe_open env c ProtocolHttp11 host port) as [took [[connection stream]|e]] eqn:Eo.
  - destruct (open_misfits _ _ _ _ _ Hv Hs Eo) as (Hl & Ht & Hw).
    destruct (http_status_opened c path took connection stream Hu Eo) as (o & _ & ->).
    pose proof (rc_status _ _ _ _ _ _ Hreach stream o) as Hr. apply under_never. destruct Hw as [Hn|[Hn He]]; rewrite Hn in Hr.
    + left. simpl. specialize (Hr Hl). lia.
    + rewrite He in Hr. destruct Hr as (t & e & ->). right. by eexists.
  - apply under_never. right. unfold http_status. rewrite Eo. by eexists.
Qed.

Lemma grpc_misfit c :
  trusts_any c -> serves_over m <> Some (negb (is_none c)) -> pe_uri env CHECK_PATH <> None ->
  match under timeout (grpc_answer env c host port) with InTime (Ok _) => False | _ => True end.
Proof using Type*.
  intros Hv Hs Hu. destruct (probe_open env c ProtocolHttp2 host port) as [took [[connection stream]|e]] eqn:Eo.
  - destruct (open_misfits _ _ _ _ _ Hv Hs Eo) as (Hl & Ht & Hw).
    destruct (grpc_answer_opened c took connection stream Hu Eo) as (o & _ & ->).
    pose proof (rc_check _ _ _ _ _ _ Hreach stream o CHECK_REQUEST) as Hr. apply under_never.
    destruct Hw as [Hn|[Hn He]]; rewrite Hn in Hr.
    + left. simpl. specialize (Hr Hl). lia.
    + rewrite He in Hr. destruct Hr as (t & e & ->). right. by eexists.
  - apply under_never. right. unfold grpc_answer. rewrite Eo. by eexists.
Qed.

(** One that fits gets the server's answer, within its timeout. *)
Lemma http_fit c path :
  trusts_any c -> serves_over m = Some (negb (is_none c)) -> pe_uri env path <> None ->
  exists o, asks_http o (negb (is_none c)) (pe_uri env path) host port /\
    match (respond m (ob_headers o)).2 with
    | Some r => under timeout (http_status env c path host port) = InTime (Ok (mr_status r))
    | None => match under timeout (http_status env c path host port) with InTime (Ok _) => False | _ => True end
    end.
Proof using Type*.
  intros Hv Hs Hu. destruct (open_fits c ProtocolHttp11 Hv Hs) as (took & connection & stream & Eo & Ht & He).
  destruct (http_status_opened c path took connection stream Hu Eo) as (o & Ho & ->). exists o. split; [done|].
  pose proof (rc_status _ _ _ _ _ _ Hreach stream o) as Hr. rewrite Hs, He, Bool.eqb_reflx in Hr.
  destruct (respond m (ob_headers o)).2 as [r|].
  - destruct Hr as (t & Ht' & ->). unfold under. simpl. rewrite (proj2 (Z.leb_le _ _)) by lia. done.
  - destruct Hr as (t & e & ->). apply under_never. right. by eexists.
Qed.

Lemma grpc_fit c :
  trusts_any c -> serves_over m = Some (negb (is_none c)) -> pe_uri env CHECK_PATH <> None ->
  exists o, asks_grpc o (negb (is_none c)) (pe_uri env CHECK_PATH) host port /\
    match (respond m (ob_headers o)).2 with
    | Some r => under timeout (grpc_answer env c host port) =
                  InTime (map_err CallFailed (grpc_call (Ok (as_check r))))
    | None => match under timeout (grpc_answer env c host port) with InTime (Ok _) => False | _ => True end
    end.
Proof using Type*.
  intros Hv Hs Hu. destruct (open_fits c ProtocolHttp2 Hv Hs) as (took & connection & stream & Eo & Ht & He).
  destruct (grpc_answer_opened c took connection stream Hu Eo) as (o & Ho & ->). exists o. split; [done|].
  pose proof (rc_check _ _ _ _ _ _ Hreach stream o CHECK_REQUEST) as Hr. rewrite Hs, He, Bool.eqb_reflx in Hr.
  destruct (respond m (ob_headers o)).2 as [r|].
  - destruct Hr as (t & Ht' & ->). unfold under. cbn [fst snd]. rewrite (proj2 (Z.leb_le _ _)) by lia. done.
  - destruct Hr as (t & e & ->). apply under_never. right. by eexists.
Qed.

(** What the answers of the two kinds of server are to the two probes. *)
Lemma http_meant c path expected drain :
  trusts_any c -> pe_uri env path <> None ->
  http_check expected drain (under timeout (http_status env c path host port)) =
  meant (HttpKind path expected drain (negb (is_none c))) m.
Proof using Type*.
  intros Hv Hu. destruct (decide (serves_over m = Some (negb (is_none c)))) as [Hs|Hs].
  - destruct (http_fit c path Hv Hs Hu) as (o & _ & Hr).
    destruct m as [b tls|p message call tls|p|p]; simplify_eq/=; rewrite Bool.eqb_reflx.
    + destruct (status_from_u16 (hb_status b)) as [s|] eqn:Eb; simpl in Hr.
      * unfold status_from_u16 in Eb. case_match; simplify_eq. by rewrite Hr.
      * simpl. destruct (under _ _) as [|[]]; done.
    + by rewrite Hr.
  - pose proof (http_misfit c path Hv Hs Hu) as Hr.
    assert (meant (HttpKind path expected drain (negb (is_none c))) m = Fail) as ->.
    { destruct m; simpl in *; try done; rewrite (proj2 (Bool.eqb_false_iff _ _)) by congruence; done. }
    destruct (under _ _) as [|[]]; done.
Qed.

Lemma grpc_meant c :
  trusts_any c -> pe_uri env CHECK_PATH <> None ->
  grpc_check (under timeout (grpc_answer env c host port)) = meant (GrpcKind (negb (is_none c))) m.
Proof using Type*.
  intros Hv Hu. destruct (decide (serves_over m = Some (negb (is_none c)))) as [Hs|Hs].
  - destruct (grpc_fit c Hv Hs Hu) as (o & _ & Hr).
    destruct m as [b tls|p message call tls|p|p]; simplify_eq/=; rewrite ?Bool.eqb_reflx.
    + destruct (status_from_u16 (hb_status b)) as [s|] eqn:Eb; simpl in Hr.
      * rewrite Hr. unfold as_check, headers_get. simpl. rewrite get_all_new. by destruct (s =? 200).
      * destruct (under _ _) as [|[]]; done.
    + rewrite Hr. unfold as_check, headers_get, grpc_call. simpl. rewrite !get_all_insert, get_all_new.
      rewrite decide_False by done. rewrite decide_True by done. simpl. destruct (str_eqb call _); simpl; [|done].
      by destruct (serving_status message) as [[]|].
  - pose proof (grpc_misfit c Hv Hs Hu) as Hr.
    assert (meant (GrpcKind (negb (is_none c))) m = Fail) as ->.
    { destruct m; simpl in *; try done; rewrite (proj2 (Bool.eqb_false_iff _ _)) by congruence; done. }
    destruct (under _ _) as [|[]]; done.
Qed.

(** A server of the health-checking protocol is taken at its word. *)
Lemma grpc_health_meant p status tls :
  meant (GrpcKind tls) (grpc_health p status tls) =
  match status with Some 1 => Pass | Some 2 => Drain | _ => Fail end.
Proof using Type.
  unfold meant, grpc_health. rewrite Bool.eqb_reflx. destruct status as [s|]; [|done]. simpl.
  destruct s as [|[p'|[p'|p'|]|]|]; done.
Qed.

Lemma host_recorded o tls uri b :
  asks_http o tls uri host port -> last_host (respond_http (ob_headers o) b).1 = host.
Proof using Type*.
  intros (_ & _ & _ & _ & _ & _ & Hh & _). unfold last_host, respond_http, headers_get. simpl. rewrite Hh. simpl.
  by rewrite value_to_visible by apply Hvisible.
Qed.

(** Every probe makes of every backend what the backend stands for. Over
    a network that delivers within the timeout: a TCP probe passes whatever
    listens and fails what does not; an HTTP probe passes, drains or fails by
    the status it is answered, over TLS exactly when the backend speaks it; a
    gRPC probe passes a server that reports SERVING, drains one that reports
    NOT_SERVING, and fails one that reports anything else, fails the call, or
    is not a gRPC server; all but the TCP probe fail a backend that never
    answers, and one of the other kind of transport. An HTTP backend has seen
    the probe's host, without the port, in Host. *)
Theorem probes_meet_backends kind :
  safe_default_versions = Ok () ->
  match kind with
  | TcpKind => True
  | HttpKind path _ _ _ => pe_uri env path <> None
  | GrpcKind _ => pe_uri env CHECK_PATH <> None
  end ->
  probe_check kind env timeout host port = Some (meant kind m) /\
  (forall p status tls, m = grpc_health p status tls -> kind = GrpcKind tls ->
     meant kind m = match status with Some 1 => Pass | Some 2 => Drain | _ => Fail end) /\
  (forall o tls uri b, asks_http o tls uri host port -> last_host (respond_http (ob_headers o) b).1 = host).
Proof using Type*.
  intros Hv Hu. split; [|split; [intros p status tls -> ->; apply grpc_health_meant|apply host_recorded]].
  unfold probe_check. destruct kind as [|path expected drain tls|tls].
  - f_equal. pose proof (rc_tcp _ _ _ _ _ _ Hreach) as Ht. unfold under.
    destruct (pe_tcp env host port) as [took [[]|e]]; simpl.
    + destruct Ht as [Hl Ht]. rewrite (proj2 (Z.leb_le _ _)) by lia. by destruct m.
    + destruct (took <=? timeout), m; done.
  - destruct (with_tls_checked tls (fun c => http_check expected drain
      (under timeout (http_status env c path host port))) Hv) as (c & Hc & ->). f_equal.
    assert (negb (is_none c) = tls) as <- by (destruct c; naive_solver).
    apply http_meant; [|done]. destruct c; naive_solver.
  - destruct (with_tls_checked tls (fun c => grpc_check (under timeout (grpc_answer env c host port))) Hv)
      as (c & Hc & ->). f_equal.
    assert (negb (is_none c) = tls) as <- by (destruct c; naive_solver).
    apply grpc_meant; [|done]. destruct c; naive_solver.
Qed.
End Network.
End Reaching.

(** ** A backend, probed *)

(** A gRPC server that is going away, over TLS, three steps away. *)
Definition going_away : Mock := grpc_health 50051 (Some 2) true.

Definition mock_env : ProbeEnv (L := assoc_http) (Der := Z) (PrivateKey := Z) (Roots := list Z) :=
  mkProbeEnv (L := assoc_http) (fun _ _ => (from_millis 1, Ok ()))
    (fun _ => mkDialEnv (from_millis 1, Ok [mkSocketAddr (V4 [127; 0; 0; 1]) 50051])
      (fun _ => (from_millis 1, Ok ())) (Ok ()) (fun _ => true)
      (fun _ offered => (from_millis 1, Ok (find_first (fun p => bool_decide (p ∈ offered)) ACCEPTOR_ALPN))))
    (fun _ => (from_millis 1, Ok ()))
    (fun s o => if encrypted s then
                  match (respond going_away (ob_headers o)).2 with
                  | Some r => (from_millis 1, Ok (mr_status r))
                  | None => (0, Err LOther)
                  end
                else (0, Err LOther))
    (fun s o _ => if encrypted s then
                    match (respond going_away (ob_headers o)).2 with
                    | Some r => (from_millis 1, Ok (as_check r))
                    | None => (0, Err LOther)
                    end
                  else (0, Err LOther))
    (fun path => Some (mkUri None path (Some path))).

Lemma mock_env_reaches :
  Reaches mock_env going_away (from_millis 1) (from_millis 10) LOOPBACK 50051.
Proof.
  constructor; try (intros; simpl; done).
  - intros c. do 3 eexists. split; [done|]. done.
  - intros c offered _ _. eexists. split; [|done]. done.
  - intros s _. eexists. split; [|done]. done.
  - intros s o. simpl. destruct (encrypted s); simpl; [|by do 2 eexists]. eexists. split; [|done]. done.
  - intros s o body. simpl. destruct (encrypted s); simpl; [|by do 2 eexists]. eexists. split; [|done]. done.
Qed.

Lemma probes_meet_backends_witness :
  probe_check (GrpcKind true) mock_env (from_millis 10) LOOPBACK 50051 = Some Drain.
Proof.
  destruct (probes_meet_backends mock_env going_away (from_millis 1) (from_millis 10) LOOPBACK 50051
    mock_env_reaches ltac:(discriminate) ltac:(discriminate) ltac:(discriminate)
    (conj eq_refl eq_refl) (GrpcKind true) (eq_refl : safe_default_versions (RustlsClient := example_client) = Ok ())
    ltac:(discriminate)) as (E & Hg & _).
  rewrite E, (Hg 50051 (Some 2) true eq_refl eq_refl). reflexivity.
Defined.
