(* ===== verification/Listen.v ===== *)
(** * Listening sockets: [lib/listen]

    Admission of connections under the caps ([accept.rs]), an operation on a
    counter at a time, and the set of listening sockets reconciled against
    the config ([listeners.rs]). A socket is a number; what the operating
    system answers when one is bound is an argument, a record [Os]. A
    caller's attachment to a listener is its [T]. The sockets the set lets go
    of are listed as closed. *)

From S2P Require Import Prelude Str Net RateLimiting.

(** ** Admission: [accept.rs] *)

Record PeerRate := mkPeerRate { pr_per_second : Z; pr_burst : Z; pr_tracked_peers : Z }.

Record ListenLimits := mkListenLimits {
  lm_max_connections : Z;
  lm_max_connections_per_listener : Z;
  lm_connections_per_peer : option PeerRate;
}.

Inductive ListenLimit := ConnectionsPerPeer | MaxConnections | MaxConnectionsPerListener.

(** [Admission], its shared counters, with the count of the one listener a
    connection arrives on kept apart. *)
Record Admission := mkAdmission {
  ad_open : ConcurrencyLimit;
  ad_max_per_listener : Z;
  ad_peer_rate : option (KeyedBuckets IpAddr);
}.

Definition admission_new (limits : ListenLimits) : Admission :=
  mkAdmission (limit_new (Some (lm_max_connections limits))) (lm_max_connections_per_listener limits)
    ((fun rate => keyed_new (pr_per_second rate) (pr_burst rate) (pr_tracked_peers rate))
       <$> lm_connections_per_peer limits).

Definition untracked_connections (a : Admission) : Z :=
  match ad_peer_rate a with Some rate => untracked (kb_table rate) | None => 0 end.

(** [Admission::admit] is a sequence of steps on counters that other loops
    and the connections that end step on at the same time. Where it stands,
    once the peer's rate has let the connection pass: about to be counted
    under the cap on all connections; counted, with the count it found; in
    place there; counted under the listener's cap, with the count it found;
    refused there, its first place not yet given back. *)
Inductive Admitting :=
| Rated
| TakingTotal (already_in_use : Z)
| HasTotal
| TakingHere (already_in_use : Z)
| GivingTotalBack.

Inductive AdmitOutcome := StillAdmitting (s : Admitting) | IsAdmitted | IsRefused (limit : ListenLimit).

(** The first step: the peer's rate, whose table is under a lock. *)
Definition admit_rate (peer : IpAddr) (now : Z) (a : Admission) : Admission * AdmitOutcome :=
  match ad_peer_rate a with
  | Some rate =>
      let (rate, r) := keyed_try_acquire rate (to_canonical peer) now in
      (mkAdmission (ad_open a) (ad_max_per_listener a) (Some rate),
       if is_err r then IsRefused ConnectionsPerPeer else StillAdmitting Rated)
  | None => (a, StillAdmitting Rated)
  end.

Definition put_open (open : ConcurrencyLimit) (a : Admission) : Admission :=
  mkAdmission open (ad_max_per_listener a) (ad_peer_rate a).

(** The steps after it: first the cap on all connections, then the
    listener's own. Each is one operation on one counter. *)
Definition admit_step (s : Admitting) (a : Admission) (here : ConcurrencyLimit) :
    Admission * ConcurrencyLimit * AdmitOutcome :=
  match s with
  | Rated => (put_open (limit_fetch_add (ad_open a)) a, here, StillAdmitting (TakingTotal (in_use (ad_open a))))
  | TakingTotal already_in_use =>
      match limit_decide (ad_open a) already_in_use with
      | Ok _ => (a, here, StillAdmitting HasTotal)
      | Err _ => (put_open (permit_drop (ad_open a)) a, here, IsRefused MaxConnections)
      end
  | HasTotal => (a, limit_fetch_add here, StillAdmitting (TakingHere (in_use here)))
  | TakingHere already_in_use =>
      match limit_decide here already_in_use with
      | Ok _ => (a, here, IsAdmitted)
      | Err _ => (a, permit_drop here, StillAdmitting GivingTotalBack)
      end
  | GivingTotalBack => (put_open (permit_drop (ad_open a)) a, here, IsRefused MaxConnectionsPerListener)
  end.

(** The drop of a connection's [Slot]: its place under the cap on all
    connections, then the one under its listener's. *)
Definition slot_drops_total (a : Admission) : Admission := put_open (permit_drop (ad_open a)) a.
Definition slot_drops_here (here : ConcurrencyLimit) : ConcurrencyLimit := permit_drop here.

(** ** The set of listening sockets: [listeners.rs] *)

Section Sockets.
Context {T E : Type}.

Notation Socket := nat.

(** What the operating system answers: to binding an address, to accepting
    on a socket that is already bound, and where a socket is bound. *)
Record Os := mkOs {
  os_bind : SocketAddr -> result Socket E;
  os_listen_on : Socket -> result unit E;
  os_local_addr : Socket -> option SocketAddr;
}.

Record RunningSocket := mkRunningSocket {
  rn_listener : T;
  rn_socket : Socket;
  rn_local_addr : SocketAddr;
}.

Record ListenerSet := mkListenerSet {
  ls_running : gmap SocketAddr RunningSocket;
  ls_adopted : gmap SocketAddr Socket;
  ls_closed : list Socket;
}.

Definition listeners_new : ListenerSet := mkListenerSet ∅ ∅ [].

Record Staged := mkStaged {
  sg_desired : list (SocketAddr * T);
  sg_bound : gmap SocketAddr Socket;
}.

Inductive StageError :=
| NamedTwice (addr : SocketAddr)
| ListeningOnAdopted (addr : SocketAddr) (e : E)
| Binding (addr : SocketAddr) (e : E).

(** Later sockets of an address replace earlier ones, which are closed. *)
Definition adopt (sockets : list (SocketAddr * Socket)) (ls : ListenerSet) : ListenerSet :=
  foldl (fun ls s =>
    mkListenerSet (ls_running ls) (<[s.1 := s.2]> (ls_adopted ls))
      (ls_closed ls ++ option_list (ls_adopted ls !! s.1))) ls sockets.

(** [sockets], each a duplicate of a running one. *)
Definition lend (ls : ListenerSet) : list (SocketAddr * Socket) :=
  map_to_list (rn_socket <$> ls_running ls).

(** The first address already named. *)
Fixpoint named_twice (named : gset SocketAddr) (desired : list (SocketAddr * T)) :
    option SocketAddr :=
  match desired with
  | [] => None
  | (addr, _) :: desired =>
      if bool_decide (addr ∈ named) then Some addr else named_twice ({[addr]} ∪ named) desired
  end.

(** The sockets for the addresses that are not running: what is left of the
    adopted ones, and the sockets got, or the error and the sockets got
    before it, which are closed with the one that failed. *)
Fixpoint get_sockets (os : Os) (running : gmap SocketAddr RunningSocket)
    (desired : list (SocketAddr * T)) (adopted bound : gmap SocketAddr Socket) :
    gmap SocketAddr Socket * result (gmap SocketAddr Socket) (StageError * list Socket) :=
  match desired with
  | [] => (adopted, Ok bound)
  | (addr, _) :: desired =>
      match running !! addr with
      | Some _ => get_sockets os running desired adopted bound
      | None =>
          match adopted !! addr with
          | Some socket =>
              let adopted := delete addr adopted in
              match os_listen_on os socket with
              | Ok _ => get_sockets os running desired adopted (<[addr := socket]> bound)
              | Err e => (adopted, Err (ListeningOnAdopted addr e, socket :: (map_to_list bound).*2))
              end
          | None =>
              match os_bind os addr with
              | Ok socket => get_sockets os running desired adopted (<[addr := socket]> bound)
              | Err e => (adopted, Err (Binding addr e, (map_to_list bound).*2))
              end
          end
      end
  end.

Definition stage (os : Os) (desired : list (SocketAddr * T)) (ls : ListenerSet) :
    ListenerSet * result Staged StageError :=
  match named_twice ∅ desired with
  | Some addr => (ls, Err (NamedTwice addr))
  | None =>
      match get_sockets os (ls_running ls) desired (ls_adopted ls) ∅ with
      | (adopted, Ok bound) =>
          (mkListenerSet (ls_running ls) adopted (ls_closed ls), Ok (mkStaged desired bound))
      | (adopted, Err (e, dropped)) =>
          (mkListenerSet (ls_running ls) adopted (ls_closed ls ++ dropped), Err e)
      end
  end.

(** One listener of a staged config joins the running set. *)
Definition commit_one (os : Os) (rb : gmap SocketAddr RunningSocket * gmap SocketAddr Socket)
    (d : SocketAddr * T) : gmap SocketAddr RunningSocket * gmap SocketAddr Socket :=
  let (running, bound) := rb in
  match running !! d.1 with
  | Some kept =>
      (<[d.1 := mkRunningSocket d.2 (rn_socket kept) (rn_local_addr kept)]> running, bound)
  | None =>
      match bound !! d.1 with
      | None => (running, bound)
      | Some socket =>
          (<[d.1 := mkRunningSocket d.2 socket (unwrap_or d.1 (os_local_addr os socket))]> running,
           delete d.1 bound)
      end
  end.

Definition commit (os : Os) (staged : Staged) (ls : ListenerSet) : ListenerSet :=
  let named := (sg_desired staged).*1 in
  let kept := filter (fun ar => ar.1 ∈ named) (ls_running ls) in
  let stopped := filter (fun ar => ar.1 ∉ named) (ls_running ls) in
  let (running, bound) := foldl (commit_one os) (kept, sg_bound staged) (sg_desired staged) in
  mkListenerSet running ∅
    (ls_closed ls ++ (rn_socket <$> (map_to_list stopped).*2) ++ (map_to_list bound).*2 ++
     (map_to_list (ls_adopted ls)).*2).

Definition local_addr (configured : SocketAddr) (ls : ListenerSet) : option SocketAddr :=
  rn_local_addr <$> ls_running ls !! configured.
End Sockets.

(** ** A reload of the listeners is all or nothing, and disturbs nothing *)

Section SocketFacts.
Context {T E : Type}.
Implicit Types (os : Os (E := E)) (desired : list (SocketAddr * T)).

Definition attached desired (addr : SocketAddr) : option T :=
  snd <$> find_first (fun d => bool_decide (d.1 = addr)) desired.

(** The socket a new listener gets: the adopted one, else a bound one. *)
Definition socket_for os (adopted : gmap SocketAddr nat) (addr : SocketAddr) : option nat :=
  match adopted !! addr with
  | Some socket => Some socket
  | None => match os_bind os addr with Ok socket => Some socket | Err _ => None end
  end.

(** A listener the config adds. *)
Definition added (running : gmap SocketAddr (RunningSocket (T := T))) desired (addr : SocketAddr) : Prop :=
  addr ∈ desired.*1 /\ running !! addr = None.

Lemma attached_None desired addr : attached desired addr = None <-> addr ∉ desired.*1.
Proof.
  unfold attached. rewrite fmap_None, find_first_None. split.
  - intros H (d & -> & Hd)%list_elem_of_fmap. specialize (H d Hd).
    by rewrite bool_decide_true in H.
  - intros H d Hd. apply bool_decide_eq_false. intros <-. apply H. apply list_elem_of_fmap. eauto.
Qed.

Lemma attached_cons addr t desired a :
  attached ((addr, t) :: desired) a = if decide (addr = a) then Some t else attached desired a.
Proof. unfold attached. simpl. case_bool_decide; by case_decide. Qed.

Lemma named_twice_None named desired :
  named_twice named desired = None <-> NoDup desired.*1 /\ forall a, a ∈ desired.*1 -> a ∉ named.
Proof.
  revert named. induction desired as [|[addr t] desired IH]; intros named; csimpl.
  { split; [|done]. intros _. split; [constructor|]. intros a Ha. by apply not_elem_of_nil in Ha. }
  rewrite NoDup_cons. case_bool_decide as Hd.
  - split; [done|]. intros [_ H]. by destruct (H addr ltac:(by constructor)).
  - rewrite IH. set_solver.
Qed.

Lemma get_sockets_Ok os running desired adopted bound adopted' bound' :
  NoDup desired.*1 -> get_sockets os running desired adopted bound = (adopted', Ok bound') ->
  forall a,
    (added running desired a ->
       is_Some (socket_for os adopted a) /\ bound' !! a = socket_for os adopted a /\ adopted' !! a = None) /\
    (~ added running desired a -> bound' !! a = bound !! a /\ adopted' !! a = adopted !! a).
Proof.
  revert adopted bound. induction desired as [|[addr t] desired IH]; intros adopted bound Hn H a;
    cbn [get_sockets] in H.
  { injection H as <- <-. split; [|done]. intros [Ha _]. by apply not_elem_of_nil in Ha. }
  csimpl in Hn. apply NoDup_cons in Hn as [Hnot Hn].
  assert (Hadd : added running ((addr, t) :: desired) a <->
                 (a = addr /\ running !! addr = None) \/ added running desired a).
  { unfold added. csimpl. rewrite elem_of_cons. naive_solver. }
  assert (Hother : forall adopted1 bound1, running !! addr = None ->
    get_sockets os running desired adopted1 bound1 = (adopted', Ok bound') ->
    is_Some (socket_for os adopted addr) -> bound1 = <[addr := default 0%nat (socket_for os adopted addr)]> bound ->
    adopted1 = delete addr adopted ->
    (added running ((addr, t) :: desired) a ->
       is_Some (socket_for os adopted a) /\ bound' !! a = socket_for os adopted a /\ adopted' !! a = None) /\
    (~ added running ((addr, t) :: desired) a -> bound' !! a = bound !! a /\ adopted' !! a = adopted !! a)).
  { intros adopted1 bound1 Hr Hg [s Hs] -> ->. rewrite Hadd. destruct (IH _ _ Hn Hg a) as [H1 H2].
    destruct (decide (a = addr)) as [->|Hne].
    - destruct H2 as [H2 H2']; [by intros [? _]|]. split; [|tauto]. intros _.
      rewrite H2, H2', Hs. simpl. rewrite lookup_insert_eq, lookup_delete_eq. eauto.
    - unfold socket_for in *. rewrite lookup_delete_ne, lookup_insert_ne in * by done.
      split; [|tauto]. intros [[? _]|Ha]; [done|]. by apply H1. }
  destruct (running !! addr) as [kept|] eqn:Er.
  { rewrite Hadd. destruct (IH _ _ Hn H a) as [H1 H2]. split; [|tauto].
    intros [[_ ?]|Ha]; [done|by apply H1]. }
  destruct (adopted !! addr) as [socket|] eqn:Ea.
  - destruct (os_listen_on os socket); [|done].
    eapply Hother; [done|exact H| | |done]; unfold socket_for; rewrite Ea; [eauto|done].
  - destruct (os_bind os addr) as [socket|e] eqn:Eb; [|done].
    eapply Hother; [done|exact H| | |by rewrite delete_id]; unfold socket_for; rewrite Ea, Eb; [eauto|done].
Qed.

Lemma commit_fold os desired running bound :
  NoDup desired.*1 ->
  forall a,
    (foldl (commit_one os) (running, bound) desired).1 !! a =
      match attached desired a with
      | None => running !! a
      | Some t =>
          match running !! a with
          | Some kept => Some (mkRunningSocket t (rn_socket kept) (rn_local_addr kept))
          | None => (fun s => mkRunningSocket t s (unwrap_or a (os_local_addr os s))) <$> bound !! a
          end
      end /\
    (added running desired a -> (foldl (commit_one os) (running, bound) desired).2 !! a = None) /\
    (~ added running desired a ->
       (foldl (commit_one os) (running, bound) desired).2 !! a = bound !! a).
Proof.
  revert running bound. induction desired as [|[addr t] desired IH]; intros running bound Hn a;
    csimpl in Hn.
  { split; [done|]. split; [|done]. intros [Hd _]. by apply not_elem_of_nil in Hd. }
  apply NoDup_cons in Hn as [Hnot Hn]. cbn [foldl].
  destruct (commit_one os (running, bound) (addr, t)) as [running1 bound1] eqn:E1.
  destruct (IH running1 bound1 Hn a) as (-> & H1 & H2). rewrite attached_cons.
  apply attached_None in Hnot as Hat. unfold commit_one in E1. cbn [fst snd] in E1.
  assert (Hadd : added running ((addr, t) :: desired) a <->
                 (a = addr /\ running !! addr = None) \/ added running desired a).
  { unfold added. csimpl. rewrite elem_of_cons. naive_solver. }
  rewrite Hadd. clear Hadd IH. destruct (decide (addr = a)) as [<-|Hne].
  - assert (Hno : ~ added running1 desired addr) by (intros [? _]; done).
    assert (Hno' : ~ added running desired addr) by (intros [? _]; done).
    rewrite Hat. specialize (H2 Hno). clear H1. destruct (running !! addr) as [kept|] eqn:Er;
      [|destruct (bound !! addr) as [s|] eqn:Eb]; injection E1 as <- <-; rewrite H2;
      rewrite ?lookup_insert_eq, ?lookup_delete_eq, ?Er, ?Eb; split; try done; split; naive_solver.
  - assert (running1 !! a = running !! a /\ bound1 !! a = bound !! a) as [Hr Hb].
    { destruct (running !! addr) as [kept|]; [|destruct (bound !! addr) as [s|]]; injection E1 as <- <-;
        by rewrite ?lookup_insert_ne, ?lookup_delete_ne. }
    unfold added in *. rewrite Hr, Hb in *. split; [done|]. split; [|tauto].
    intros [[? _]|Ha]; [done|]. by apply H1.
Qed.

(** What a failed [stage] says of the sockets it needed. *)
Definition stage_failed os (ls : ListenerSet (T := T)) desired (e : StageError) : Prop :=
  match e with
  | NamedTwice _ => ~ NoDup desired.*1
  | ListeningOnAdopted a e =>
      added (ls_running ls) desired a /\
      exists s, ls_adopted ls !! a = Some s /\ os_listen_on os s = Err e
  | Binding a e =>
      added (ls_running ls) desired a /\ ls_adopted ls !! a = None /\ os_bind os a = Err e
  end.

Lemma added_cons running addr t desired a :
  added running desired a -> added running ((addr, t) :: desired) a.
Proof. intros [? ?]. split; [|done]. csimpl. by constructor. Qed.

Lemma stage_failed_cons os running addr t desired adopted adopted0 e :
  addr ∉ desired.*1 -> (forall a, a <> addr -> adopted0 !! a = adopted !! a) ->
  stage_failed os (mkListenerSet running adopted0 []) desired e ->
  stage_failed os (mkListenerSet running adopted []) ((addr, t) :: desired) e.
Proof.
  intros Hnot Hsame. destruct e as [a|a e|a e]; simpl.
  - intros Hn Hd. csimpl in Hd. by apply NoDup_cons in Hd as [_ ?].
  - intros [Ha (s & Hs & ?)]. rewrite Hsame in Hs by (intros ->; by destruct Ha). eauto using added_cons.
  - intros (Ha & Hs & ?). rewrite Hsame in Hs by (intros ->; by destruct Ha). eauto using added_cons.
Qed.

Lemma elem_of_sockets (m : gmap SocketAddr nat) s : s ∈ (map_to_list m).*2 <-> exists a, m !! a = Some s.
Proof.
  rewrite list_elem_of_fmap. setoid_rewrite elem_of_map_to_list'. split.
  - intros ([a s'] & -> & Ha). eauto.
  - intros [a Ha]. by exists (a, s).
Qed.

Lemma get_sockets_Err os running desired adopted bound adopted' e dropped :
  NoDup desired.*1 -> (forall a, a ∈ desired.*1 -> bound !! a = None) ->
  get_sockets os running desired adopted bound = (adopted', Err (e, dropped)) ->
  stage_failed os (mkListenerSet running adopted []) desired e /\
  (forall a s, adopted !! a = Some s -> adopted' !! a = Some s \/ s ∈ dropped) /\
  (forall a s, bound !! a = Some s -> s ∈ dropped).
Proof.
  revert adopted bound. induction desired as [|[addr t] desired IH]; intros adopted bound Hn Hb H;
    cbn [get_sockets] in H; [done|].
  csimpl in Hn. apply NoDup_cons in Hn as [Hnot Hn].
  assert (Hb0 : bound !! addr = None) by (apply Hb; csimpl; constructor).
  assert (Hb1 : forall s a, a ∈ desired.*1 -> <[addr := s]> bound !! a = None).
  { intros s a Ha. rewrite lookup_insert_ne by congruence. apply Hb. csimpl. by constructor. }
  assert (Hb2 : forall s a s', bound !! a = Some s' -> <[addr := s]> bound !! a = Some s').
  { intros s a s' Ha. rewrite lookup_insert_ne; [done|congruence]. }
  destruct (running !! addr) as [kept|] eqn:Er.
  { destruct (IH _ _ Hn ltac:(intros; apply Hb; csimpl; by constructor) H) as (H1 & H2 & H3).
    split; [|done]. by eapply stage_failed_cons. }
  assert (Hhere : added running ((addr, t) :: desired) addr) by (split; [csimpl; constructor|done]).
  destruct (adopted !! addr) as [socket|] eqn:Ea;
    [destruct (os_listen_on os socket) as [[]|oe] eqn:Eo|destruct (os_bind os addr) as [socket|oe] eqn:Eo].
  - destruct (IH _ _ Hn (Hb1 socket) H) as (H1 & H2 & H3). split; [|split; [|eauto]].
    + eapply stage_failed_cons; [done| |done]. intros a Ha. by rewrite lookup_delete_ne.
    + intros a s Hs. destruct (decide (a = addr)) as [->|Hne].
      * right. apply (H3 addr). rewrite lookup_insert_eq. congruence.
      * apply H2. by rewrite lookup_delete_ne.
  - injection H as <- <- <-. split; [simpl; eauto|]. split.
    + intros a s Hs. rewrite elem_of_cons. destruct (decide (a = addr)) as [->|Hne]; [naive_solver|].
      left. by rewrite lookup_delete_ne.
    + intros a s Hs. constructor. apply elem_of_sockets. eauto.
  - destruct (IH _ _ Hn (Hb1 socket) H) as (H1 & H2 & H3). split; [|split; [done|eauto]].
    by eapply stage_failed_cons.
  - injection H as <- <- <-. split; [simpl; eauto|]. split; [eauto|].
    intros a s Hs. apply elem_of_sockets. eauto.
Qed.

Lemma elem_of_stopped (running : gmap SocketAddr (RunningSocket (T := T))) (named : list SocketAddr) s :
  s ∈ rn_socket <$> (map_to_list (filter (fun ar => ar.1 ∉ named) running)).*2 <->
  exists a r, running !! a = Some r /\ a ∉ named /\ rn_socket r = s.
Proof.
  rewrite <- list_fmap_compose, list_elem_of_fmap. split.
  - intros ([a r] & -> & Ha%elem_of_map_to_list%map_lookup_filter_Some). naive_solver.
  - intros (a & r & Hr & Ha & <-). exists (a, r). split; [done|].
    by apply elem_of_map_to_list, map_lookup_filter_Some.
Qed.

Lemma commit_sockets os desired ls adopted' bound' :
  NoDup desired.*1 ->
  get_sockets os (ls_running ls) desired (ls_adopted ls) ∅ = (adopted', Ok bound') ->
  let ls' := commit os (mkStaged desired bound') (mkListenerSet (ls_running ls) adopted' (ls_closed ls)) in
  (forall a, ls_running ls' !! a =
     t ← attached desired a;
     match ls_running ls !! a with
     | Some kept => Some (mkRunningSocket t (rn_socket kept) (rn_local_addr kept))
     | None => (fun s => mkRunningSocket t s (unwrap_or a (os_local_addr os s)))
                 <$> socket_for os (ls_adopted ls) a
     end) /\
  ls_adopted ls' = ∅ /\
  (forall s, s ∈ ls_closed ls' <->
     s ∈ ls_closed ls \/
     (exists a r, ls_running ls !! a = Some r /\ a ∉ desired.*1 /\ rn_socket r = s) \/
     (exists a, ls_adopted ls !! a = Some s /\ ~ added (ls_running ls) desired a)).
Proof.
  intros Hn Hg. pose proof (get_sockets_Ok os _ _ _ _ _ _ Hn Hg) as HG. clear Hg.
  unfold commit. cbn [sg_desired sg_bound ls_running ls_adopted ls_closed].
  set (kept := filter (fun ar : SocketAddr * RunningSocket => ar.1 ∈ desired.*1) (ls_running ls)).
  pose proof (commit_fold os desired kept bound' Hn) as HF.
  destruct (foldl (commit_one os) (kept, bound') desired) as [running left] eqn:EF. cbn [fst snd] in HF.
  assert (Hkept : forall a, a ∈ desired.*1 -> kept !! a = ls_running ls !! a).
  { intros a Ha. apply option_eq. intros r. unfold kept. rewrite map_lookup_filter_Some. naive_solver. }
  assert (Hadded : forall a, added kept desired a <-> added (ls_running ls) desired a).
  { intros a. unfold added. split; intros [Ha Hr]; (split; [done|]); [rewrite <- Hkept|rewrite Hkept]; done. }
  assert (Hleft : left = ∅).
  { apply map_eq. intros a. rewrite lookup_empty. destruct (HF a) as (_ & H1 & H2).
    destruct (decide (a ∈ desired.*1)) as [Ha|Ha]; [destruct (kept !! a) eqn:Ek; [|by apply H1]|];
      (rewrite H2; [|unfold added; naive_solver]); destruct (HG a) as [_ G2];
      (destruct G2 as [-> _]; [rewrite <- Hadded; unfold added; naive_solver|apply lookup_empty]). }
  cbn [ls_running ls_adopted ls_closed]. split; [|split; [done|]].
  - intros a. destruct (HF a) as (-> & _ & _). destruct (attached desired a) as [t|] eqn:Et; simpl.
    + assert (Ha : a ∈ desired.*1).
      { destruct (decide (a ∈ desired.*1)) as [|Hc]; [done|]. apply attached_None in Hc. congruence. }
      rewrite Hkept by done. destruct (ls_running ls !! a) eqn:Er; [done|].
      destruct (HG a) as [G1 _]. destruct G1 as (_ & -> & _); [by split|done].
    + apply attached_None in Et. unfold kept. apply map_lookup_filter_None. right. naive_solver.
  - intros s. rewrite Hleft, map_to_list_empty, !elem_of_app. simpl.
    rewrite elem_of_sockets, elem_of_nil.
    rewrite elem_of_stopped. assert (Had : (exists a, adopted' !! a = Some s) <->
      exists a, ls_adopted ls !! a = Some s /\ ~ added (ls_running ls) desired a); [|naive_solver].
    split.
    + intros [a Ha]. exists a. destruct (HG a) as [G1 G2].
      assert (Hna : ~ added (ls_running ls) desired a) by (intros Hc; apply G1 in Hc as (_ & _ & ?); congruence).
      destruct (G2 Hna) as [_ <-]. done.
    + intros (a & Ha & Hna). exists a. destruct (HG a) as [_ G2]. by destruct (G2 Hna) as [_ ->].
Qed.

Lemma reconcile_listeners os desired ls :
  match stage os desired ls with
  | (ls', Err e) =>
      ls_running ls' = ls_running ls /\ stage_failed os ls desired e /\
      forall a s, ls_adopted ls !! a = Some s -> ls_adopted ls' !! a = Some s \/ s ∈ ls_closed ls'
  | (ls', Ok staged) =>
      let ls'' := commit os staged ls' in
      ls_running ls' = ls_running ls /\ NoDup desired.*1 /\
      (forall a, ls_running ls'' !! a =
         t ← attached desired a;
         match ls_running ls !! a with
         | Some kept => Some (mkRunningSocket t (rn_socket kept) (rn_local_addr kept))
         | None => (fun s => mkRunningSocket t s (unwrap_or a (os_local_addr os s)))
                     <$> socket_for os (ls_adopted ls) a
         end) /\
      (forall a, is_Some (ls_running ls'' !! a) <-> a ∈ desired.*1) /\
      ls_adopted ls'' = ∅ /\
      (forall s, s ∈ ls_closed ls'' <->
         s ∈ ls_closed ls \/
         (exists a r, ls_running ls !! a = Some r /\ a ∉ desired.*1 /\ rn_socket r = s) \/
         (exists a, ls_adopted ls !! a = Some s /\ ~ added (ls_running ls) desired a))
  end.
Proof.
  unfold stage. pose proof (named_twice_None ∅ desired) as Ht.
  destruct (named_twice ∅ desired) as [addr|] eqn:En.
  { split; [done|]. split; [|eauto]. intros Hn. enough (Some addr = None) by done. apply Ht.
    split; [done|set_solver]. }
  destruct Ht as [Ht _]. destruct (Ht eq_refl) as [Hn _]. clear Ht.
  destruct (get_sockets os (ls_running ls) desired (ls_adopted ls) ∅) as [adopted' [bound'|[e dropped]]] eqn:Eg.
  - destruct (commit_sockets os desired ls adopted' bound' Hn Eg) as (H1 & H2 & H3).
    split; [done|]. split; [done|]. split; [exact H1|]. split; [|split; [exact H2|exact H3]].
    intros a. rewrite H1. destruct (attached desired a) as [t|] eqn:Et; simpl.
    + assert (Ha : a ∈ desired.*1) by (apply dec_stable; rewrite <- attached_None; congruence).
      split; [done|]. intros _. destruct (ls_running ls !! a) eqn:Er; [eauto|].
      destruct (get_sockets_Ok os _ _ _ _ _ _ Hn Eg a) as [G1 _].
      destruct G1 as ([s ->] & _); [by split|]. eauto.
    + apply attached_None in Et. split; [|done]. by intros [? ?].
  - destruct (get_sockets_Err os _ _ _ _ _ _ _ Hn ltac:(intros; apply lookup_empty) Eg) as (H1 & H2 & _).
    split; [done|]. split; [exact H1|]. intros a s Hs. cbn. rewrite elem_of_app.
    destruct (H2 a s Hs); eauto.
Qed.

(** C35: Reconciling the listeners with a config ([Listeners::stage], then
    [commit]). A stage that fails leaves the running sockets alone, names
    an address that is really named twice, or a needed socket that really
    could not be had, and loses no adopted socket: each is kept for a later
    config or closed. After a stage that succeeds, the commit makes the
    running listeners exactly the config's, each with what the config
    attaches to it: a listener that was running keeps its socket, a new one
    has the adopted socket of its address if there is one and a bound one
    otherwise. The sockets closed are exactly those of the listeners the
    config no longer names and the adopted ones it had no use for. *)
Theorem reconcile_sockets os desired ls :
  match stage os desired ls with
  | (ls', Err e) =>
      ls_running ls' = ls_running ls /\ stage_failed os ls desired e /\
      forall a s, ls_adopted ls !! a = Some s -> ls_adopted ls' !! a = Some s \/ s ∈ ls_closed ls'
  | (ls', Ok staged) =>
      let ls'' := commit os staged ls' in
      ls_running ls' = ls_running ls /\ NoDup desired.*1 /\
      (forall a, ls_running ls'' !! a =
         t ← attached desired a;
         match ls_running ls !! a with
         | Some kept => Some (mkRunningSocket t (rn_socket kept) (rn_local_addr kept))
         | None => (fun s => mkRunningSocket t s (unwrap_or a (os_local_addr os s)))
                     <$> socket_for os (ls_adopted ls) a
         end) /\
      (forall a, is_Some (ls_running ls'' !! a) <-> a ∈ desired.*1) /\
      ls_adopted ls'' = ∅ /\
      (forall s, s ∈ ls_closed ls'' <->
         s ∈ ls_closed ls \/
         (exists a r, ls_running ls !! a = Some r /\ a ∉ desired.*1 /\ rn_socket r = s) \/
         (exists a, ls_adopted ls !! a = Some s /\ ~ added (ls_running ls) desired a))
  end.
Proof. exact (reconcile_listeners os desired ls). Qed.

End SocketFacts.
