(* ===== verification/Streams.v ===== *)
(** * Byte streams and what wraps them

    The traits [AsyncRead] and [AsyncWrite] as a class, and the streams of
    the program that pass them on: [Metered] ([lib/listen/src/metered.rs]),
    [CloseNotify] ([edge/connection.rs]), the two kinds of a dialled
    [Stream] ([client/dial.rs]) and [Pooled] ([client/pool.rs]). A wrapper
    answers every call as the stream under it does, and leaves that stream
    as the call would have; beyond that, a meter counts what flows and a
    TLS stream that is dropped says goodbye once. *)

From S2P Require Import Prelude Str Causes.

(** ** The traits *)

(** [Poll<io::Result<A>>]. *)
Inductive Polling (A : Type) := PollPending | PollOk (a : A) | PollErr (e : IoError).
Arguments PollPending {A}.
Arguments PollOk {A} _.
Arguments PollErr {A} _.

(** [ReadBuf]: what has been filled, and how much more there is room for. *)
Record ReadBuf := mkReadBuf { rb_filled : str; rb_remaining : nat }.

Class AsyncStream (T : Type) := {
  poll_read : ReadBuf -> T -> T * ReadBuf * Polling unit;
  poll_write : str -> T -> T * Polling Z;
  poll_write_vectored : list str -> T -> T * Polling Z;
  is_write_vectored : T -> bool;
  poll_flush : T -> T * Polling unit;
  poll_shutdown : T -> T * Polling unit;
}.

(** A call, and what it comes to. *)
Inductive Call :=
| CallRead (buf : ReadBuf)
| CallWrite (buf : str)
| CallWriteVectored (bufs : list str)
| CallIsVectored
| CallFlush
| CallShutdown.

Inductive Answered :=
| AnsweredRead (buf : ReadBuf) (r : Polling unit)
| AnsweredWritten (r : Polling Z)
| AnsweredVectored (b : bool)
| AnsweredDone (r : Polling unit).

Definition on_call `{AsyncStream T} (c : Call) (s : T) : T * Answered :=
  match c with
  | CallRead buf => let '(s, buf, r) := poll_read buf s in (s, AnsweredRead buf r)
  | CallWrite buf => let (s, r) := poll_write buf s in (s, AnsweredWritten r)
  | CallWriteVectored bufs => let (s, r) := poll_write_vectored bufs s in (s, AnsweredWritten r)
  | CallIsVectored => (s, AnsweredVectored (is_write_vectored s))
  | CallFlush => let (s, r) := poll_flush s in (s, AnsweredDone r)
  | CallShutdown => let (s, r) := poll_shutdown s in (s, AnsweredDone r)
  end.

Fixpoint on_calls `{AsyncStream T} (cs : list Call) (s : T) : T * list Answered :=
  match cs with
  | [] => (s, [])
  | c :: cs =>
      let (s, a) := on_call c s in
      let (s, answers) := on_calls cs s in (s, a :: answers)
  end.

(** ** Counting bytes: [metered.rs] *)

Record Counts := mkCounts { ct_read : Z; ct_written : Z }.

(** A stream with its counts, and the tally of its listener, if it has one. *)
Record Metered (T : Type) := mkMetered { mt_inner : T; mt_counts : Counts; mt_tally : option Counts }.
Arguments mkMetered {T} _ _ _.
Arguments mt_inner {T} _.
Arguments mt_counts {T} _.
Arguments mt_tally {T} _.

(** [Metered::with_tally]; [new] has none. *)
Definition metered_with_tally {T} (inner : T) (tally : option Counts) : Metered T :=
  mkMetered inner (mkCounts 0 0) tally.

Definition add_read (n : Z) (c : Counts) : Counts := mkCounts (wrap64 (ct_read c + n)) (ct_written c).
Definition add_written (n : Z) (c : Counts) : Counts := mkCounts (ct_read c) (wrap64 (ct_written c + n)).

Definition count_read {T} (read : Z) (m : Metered T) : Metered T :=
  if read =? 0 then m
  else mkMetered (mt_inner m) (add_read read (mt_counts m)) (add_read read <$> mt_tally m).

Definition count_written {T} (result : Polling Z) (m : Metered T) : Metered T :=
  match result with
  | PollOk written =>
      if written =? 0 then m
      else mkMetered (mt_inner m) (add_written written (mt_counts m)) (add_written written <$> mt_tally m)
  | _ => m
  end.

Definition put_inner {T} (s : T) (m : Metered T) : Metered T := mkMetered s (mt_counts m) (mt_tally m).

#[export] Instance metered_stream `{AsyncStream T} : AsyncStream (Metered T) := {|
  poll_read buf m :=
    let before := Z.of_nat (length (rb_filled buf)) in
    let '(s, buf, result) := poll_read buf (mt_inner m) in
    let m := put_inner s m in
    (match result with
     | PollOk _ => count_read (wrap64 (Z.of_nat (length (rb_filled buf)) - before)) m
     | _ => m
     end, buf, result);
  poll_write buf m :=
    let (s, result) := poll_write buf (mt_inner m) in (count_written result (put_inner s m), result);
  poll_write_vectored bufs m :=
    let (s, result) := poll_write_vectored bufs (mt_inner m) in (count_written result (put_inner s m), result);
  is_write_vectored m := is_write_vectored (mt_inner m);
  poll_flush m := let (s, r) := poll_flush (mt_inner m) in (put_inner s m, r);
  poll_shutdown m := let (s, r) := poll_shutdown (mt_inner m) in (put_inner s m, r);
|}.

(** ** Saying goodbye: [CloseNotify] *)

Record CloseNotify (T : Type) := mkCloseNotify { cn_inner : T }.
Arguments mkCloseNotify {T} _.
Arguments cn_inner {T} _.

#[export] Instance close_notify_stream `{AsyncStream T} : AsyncStream (CloseNotify T) := {|
  poll_read buf m := let '(s, buf, r) := poll_read buf (cn_inner m) in (mkCloseNotify s, buf, r);
  poll_write buf m := let (s, r) := poll_write buf (cn_inner m) in (mkCloseNotify s, r);
  poll_write_vectored bufs m := let (s, r) := poll_write_vectored bufs (cn_inner m) in (mkCloseNotify s, r);
  is_write_vectored m := is_write_vectored (cn_inner m);
  poll_flush m := let (s, r) := poll_flush (cn_inner m) in (mkCloseNotify s, r);
  poll_shutdown m := let (s, r) := poll_shutdown (cn_inner m) in (mkCloseNotify s, r);
|}.

(** Its drop: one attempt to shut the stream under it down, which is then
    dropped. *)
Definition close_notify_drop `{AsyncStream T} (m : CloseNotify T) : T := (poll_shutdown (cn_inner m)).1.

(** ** A dialled connection: [dial.rs], and one of the pool: [pool.rs] *)

Inductive ByteStream (Tcp Tls : Type) := OverTcp (tcp : Tcp) | OverTls (tls : Tls).
Arguments OverTcp {Tcp Tls} _.
Arguments OverTls {Tcp Tls} _.

#[export] Instance dialled_stream {Tcp Tls} `{AsyncStream Tcp} `{AsyncStream Tls} : AsyncStream (ByteStream Tcp Tls) := {|
  poll_read buf m :=
    match m with
    | OverTcp tcp => let '(tcp, buf, r) := poll_read buf tcp in (OverTcp tcp, buf, r)
    | OverTls tls => let '(tls, buf, r) := poll_read buf tls in (OverTls tls, buf, r)
    end;
  poll_write buf m :=
    match m with
    | OverTcp tcp => let (tcp, r) := poll_write buf tcp in (OverTcp tcp, r)
    | OverTls tls => let (tls, r) := poll_write buf tls in (OverTls tls, r)
    end;
  poll_write_vectored bufs m :=
    match m with
    | OverTcp tcp => let (tcp, r) := poll_write_vectored bufs tcp in (OverTcp tcp, r)
    | OverTls tls => let (tls, r) := poll_write_vectored bufs tls in (OverTls tls, r)
    end;
  is_write_vectored m :=
    match m with OverTcp tcp => is_write_vectored tcp | OverTls tls => is_write_vectored tls end;
  poll_flush m :=
    match m with
    | OverTcp tcp => let (tcp, r) := poll_flush tcp in (OverTcp tcp, r)
    | OverTls tls => let (tls, r) := poll_flush tls in (OverTls tls, r)
    end;
  poll_shutdown m :=
    match m with
    | OverTcp tcp => let (tcp, r) := poll_shutdown tcp in (OverTcp tcp, r)
    | OverTls tls => let (tls, r) := poll_shutdown tls in (OverTls tls, r)
    end;
|}.

(** The stream, adapted to hyper's traits, and the permit it is counted by. *)
Record Pooled (T P : Type) := mkPooled { po_io : T; po_permit : P }.
Arguments mkPooled {T P} _ _.
Arguments po_io {T P} _.
Arguments po_permit {T P} _.

#[export] Instance pooled_stream {P} `{AsyncStream T} : AsyncStream (Pooled T P) := {|
  poll_read buf m := let '(s, buf, r) := poll_read buf (po_io m) in (mkPooled s (po_permit m), buf, r);
  poll_write buf m := let (s, r) := poll_write buf (po_io m) in (mkPooled s (po_permit m), r);
  poll_write_vectored bufs m :=
    let (s, r) := poll_write_vectored bufs (po_io m) in (mkPooled s (po_permit m), r);
  is_write_vectored m := is_write_vectored (po_io m);
  poll_flush m := let (s, r) := poll_flush (po_io m) in (mkPooled s (po_permit m), r);
  poll_shutdown m := let (s, r) := poll_shutdown (po_io m) in (mkPooled s (po_permit m), r);
|}.

(** ** Wrappers are transparent *)

(** [under] gives the stream a wrapper is around: every call comes to the
    same, and leaves that stream the same, as when made on it directly. *)
Class Wraps {W T} `{AsyncStream W} `{AsyncStream T} (under : W -> T) : Prop :=
  wraps_call c w : on_call c (under w) = (under (on_call c w).1, (on_call c w).2).

(** Split on what the call on the stream under a wrapper comes to. *)
Ltac on_inner :=
  match goal with
  | |- context [poll_read ?buf ?s] => destruct (poll_read buf s) as [[? ?] []]
  | |- context [poll_write ?buf ?s] => destruct (poll_write buf s)
  | |- context [poll_write_vectored ?bufs ?s] => destruct (poll_write_vectored bufs s)
  | |- context [poll_flush ?s] => destruct (poll_flush s)
  | |- context [poll_shutdown ?s] => destruct (poll_shutdown s)
  | _ => idtac
  end.

Ltac solve_wraps := intros c w; destruct c; cbn; on_inner; cbn; done.

Lemma count_read_inner {T} n (m : Metered T) : mt_inner (count_read n m) = mt_inner m.
Proof. unfold count_read. by case_if. Qed.

Lemma count_written_inner {T} r (m : Metered T) : mt_inner (count_written r m) = mt_inner m.
Proof. unfold count_written. destruct r; try done. by case_if. Qed.

#[export] Instance metered_wraps `{AsyncStream T} : Wraps (mt_inner (T := T)).
Proof.
  intros c m. destruct c; cbn; on_inner; cbn; by rewrite ?count_read_inner, ?count_written_inner.
Qed.

#[export] Instance close_notify_wraps `{AsyncStream T} : Wraps (cn_inner (T := T)).
Proof. solve_wraps. Qed.

#[export] Instance pooled_wraps {P} `{AsyncStream T} : Wraps (po_io (T := T) (P := P)).
Proof. solve_wraps. Qed.

#[export] Instance wraps_compose {W V T} `{AsyncStream W} `{AsyncStream V} `{AsyncStream T}
    (f : W -> V) (g : V -> T) `{!Wraps f} `{!Wraps g} : Wraps (g ∘ f).
Proof. intros c w. unfold compose. by rewrite wraps_call, (wraps_call (under := f)). Qed.

Lemma wraps_calls {W T} `{AsyncStream W} `{AsyncStream T} (under : W -> T) `{!Wraps under} cs w :
  on_calls cs (under w) = (under (on_calls cs w).1, (on_calls cs w).2).
Proof.
  revert w. induction cs as [|c cs IH]; intros w; [done|]. cbn [on_calls]. rewrite wraps_call.
  destruct (on_call c w) as [w1 a]. cbn [fst snd]. rewrite IH. by destruct (on_calls cs w1).
Qed.

Lemma calls_app `{AsyncStream T} cs cs' (s : T) :
  on_calls (cs ++ cs') s =
  let (s1, answers) := on_calls cs s in let (s2, answers') := on_calls cs' s1 in (s2, answers ++ answers').
Proof.
  revert s. induction cs as [|c cs IH]; intros s; cbn [app on_calls]; [by destruct (on_calls cs' s)|].
  destruct (on_call c s) as [s1 a]. rewrite IH. destruct (on_calls cs s1) as [s2 answers].
  by destruct (on_calls cs' s2).
Qed.

(** A pooled connection keeps its permit. *)
Lemma permit_kept {P} `{AsyncStream T} cs (s : Pooled T P) : po_permit (on_calls cs s).1 = po_permit s.
Proof.
  revert s. induction cs as [|c cs IH]; intros s; [done|]. cbn [on_calls].
  assert (po_permit (on_call c s).1 = po_permit s) as Hc by (destruct c; cbn; on_inner; done).
  destruct (on_call c s) as [s1 a]. specialize (IH s1). destruct (on_calls cs s1). cbn in *. congruence.
Qed.

(** A dialled connection is the stream it holds, and stays of its kind. *)
Lemma dialled_calls {Tcp Tls} `{AsyncStream Tcp} `{AsyncStream Tls} cs :
  (forall tcp : Tcp, on_calls cs (OverTcp (Tls := Tls) tcp) = (OverTcp (on_calls cs tcp).1, (on_calls cs tcp).2)) /\
  (forall tls : Tls, on_calls cs (OverTls (Tcp := Tcp) tls) = (OverTls (on_calls cs tls).1, (on_calls cs tls).2)).
Proof.
  induction cs as [|c cs [IHp IHs]]; [done|]. split; intros s; cbn [on_calls].
  - assert (on_call c (OverTcp (Tls := Tls) s) = (OverTcp (on_call c s).1, (on_call c s).2)) as ->
      by (revert c s; solve_wraps).
    destruct (on_call c s) as [s1 a]. cbn [fst snd]. rewrite IHp. by destruct (on_calls cs s1).
  - assert (on_call c (OverTls (Tcp := Tcp) s) = (OverTls (on_call c s).1, (on_call c s).2)) as ->
      by (revert c s; solve_wraps).
    destruct (on_call c s) as [s1 a]. cbn [fst snd]. rewrite IHs. by destruct (on_calls cs s1).
Qed.

(** ** What a meter counts *)

(** The bytes a call read, or wrote. *)
Definition bytes_read (c : Call) (a : Answered) : Z :=
  match c, a with
  | CallRead buf, AnsweredRead buf' (PollOk _) =>
      Z.of_nat (length (rb_filled buf')) - Z.of_nat (length (rb_filled buf))
  | _, _ => 0
  end.

Definition bytes_written (a : Answered) : Z :=
  match a with AnsweredWritten (PollOk n) => n | _ => 0 end.

Definition read_by (cs : list Call) (answers : list Answered) : Z := sum_list (zip_with bytes_read cs answers).
Definition written_by (answers : list Answered) : Z := sum_list (bytes_written <$> answers).

(** [c'] is [c] after these bytes. *)
Definition counted (read written : Z) (c c' : Counts) : Prop :=
  wrap64 (ct_read c') = wrap64 (ct_read c + read) /\ wrap64 (ct_written c') = wrap64 (ct_written c + written).

Lemma counted_trans r w r' w' c1 c2 c3 :
  counted r w c1 c2 -> counted r' w' c2 c3 -> counted (r + r') (w + w') c1 c3.
Proof.
  intros [H1 H2] [H3 H4].
  split; [rewrite H3, (wrap64_add _ _ r' H1)|rewrite H4, (wrap64_add _ _ w' H2)]; f_equal; lia.
Qed.

Lemma counted_none c : counted 0 0 c c.
Proof. split; by rewrite Z.add_0_r. Qed.

Lemma counted_read n c : counted n 0 c (add_read (wrap64 n) c).
Proof.
  split; cbn; [|by rewrite Z.add_0_r]. unfold wrap64. by rewrite Z.mod_mod, Zplus_mod_idemp_r.
Qed.

Lemma counted_whole n c : wrap64 n = 0 -> counted n 0 c c.
Proof.
  intros E. split; [|by rewrite Z.add_0_r]. unfold wrap64 in *. by rewrite <-Zplus_mod_idemp_r, E, Z.add_0_r.
Qed.

Lemma counted_written n c : counted 0 n c (add_written n c).
Proof. split; cbn; [by rewrite Z.add_0_r|]. unfold wrap64. by rewrite Z.mod_mod. Qed.

(** The counts and the tally moved by these bytes. *)
Definition moved {T} (read written : Z) (m m' : Metered T) : Prop :=
  counted read written (mt_counts m) (mt_counts m') /\
  option_Forall2 (counted read written) (mt_tally m) (mt_tally m').

Lemma moved_by {T} read written (f : Counts -> Counts) (m m' : Metered T) :
  (forall c, counted read written c (f c)) -> mt_counts m' = f (mt_counts m) -> mt_tally m' = f <$> mt_tally m ->
  moved read written m m'.
Proof.
  intros Hf H1 H2. unfold moved. rewrite H1, H2. split; [apply Hf|]. destruct (mt_tally m); by constructor.
Qed.

Lemma moved_none {T} s (m : Metered T) : moved 0 0 m (put_inner s m).
Proof. apply (moved_by _ _ id); [apply counted_none|done|]. by rewrite option_fmap_id. Qed.

Lemma moved_read {T} n s (m : Metered T) : moved n 0 m (count_read (wrap64 n) (put_inner s m)).
Proof.
  unfold count_read. case_if; bool_facts.
  - apply (moved_by _ _ id); [intros; by apply counted_whole|done|]. by rewrite option_fmap_id.
  - by apply (moved_by _ _ (add_read (wrap64 n))); [apply counted_read|..].
Qed.

Lemma moved_written {T} r s (m : Metered T) :
  moved 0 (bytes_written (AnsweredWritten r)) m (count_written r (put_inner s m)).
Proof.
  destruct r as [|n|e]; cbn; [apply moved_none| |apply moved_none]. case_if; bool_facts; subst; [apply moved_none|].
  by apply (moved_by _ _ (add_written n)); [apply counted_written|..].
Qed.

(** One call moves the counts and the tally by its bytes. *)
Lemma metered_call `{AsyncStream T} c (m : Metered T) :
  moved (bytes_read c (on_call c m).2) (bytes_written (on_call c m).2) m (on_call c m).1.
Proof.
  destruct c; cbn; on_inner; cbn; try apply moved_none; try apply moved_read; try apply moved_written.
  destruct m. apply (moved_none mt_inner0).
Qed.

Lemma moved_trans {T} r w r' w' (m1 m2 m3 : Metered T) :
  moved r w m1 m2 -> moved r' w' m2 m3 -> moved (r + r') (w + w') m1 m3.
Proof.
  intros [H1 H2] [H3 H4]. split; [by eapply counted_trans|].
  destruct H2; inversion H4; constructor. by eapply counted_trans.
Qed.

(** C24: The streams wrapped around a connection change nothing of what flows
    through them. Over any sequence of calls, a metered stream, a TLS stream
    that says goodbye, and a pooled connection, whatever it was dialled
    over, answer as the stream under them answers and leave it as it would
    be; the meter and its listener's tally move by exactly the bytes read
    and written, modulo [2^64]; and dropping a TLS stream tries to shut it
    down, once. *)
Theorem streams_transparent `{AsyncStream T} `{AsyncStream U} {P : Type} cs :
  (forall m : Metered T,
     on_calls cs (mt_inner m) = (mt_inner (on_calls cs m).1, (on_calls cs m).2) /\
     let answers := (on_calls cs m).2 in
     moved (read_by cs answers) (written_by answers) m (on_calls cs m).1) /\
  (forall s : CloseNotify T,
     on_calls cs (cn_inner s) = (cn_inner (on_calls cs s).1, (on_calls cs s).2) /\
     on_calls (cs ++ [CallShutdown]) (cn_inner s) =
       (close_notify_drop (on_calls cs s).1,
        (on_calls cs s).2 ++ [AnsweredDone (poll_shutdown (cn_inner (on_calls cs s).1)).2])) /\
  (forall (permit : P) (tcp : T) (tls : U),
     on_calls cs (mkPooled (OverTcp (Tls := U) tcp) permit) =
       (mkPooled (OverTcp (on_calls cs tcp).1) permit, (on_calls cs tcp).2) /\
     on_calls cs (mkPooled (OverTls (Tcp := T) tls) permit) =
       (mkPooled (OverTls (on_calls cs tls).1) permit, (on_calls cs tls).2)).
Proof.
  split_and!.
  - intros m. split; [apply (wraps_calls mt_inner)|]. cbv zeta. revert m.
    induction cs as [|c cs IH]; intros m; [destruct m; apply (moved_none mt_inner0)|].
    cbn [on_calls]. pose proof (metered_call c m) as Hc. destruct (on_call c m) as [m1 a].
    specialize (IH m1). destruct (on_calls cs m1) as [m2 answers]. by eapply moved_trans.
  - intros s. split; [apply (wraps_calls cn_inner)|]. rewrite calls_app, (wraps_calls cn_inner).
    cbn. unfold close_notify_drop. by destruct (poll_shutdown _).
  - intros permit tcp tls. pose proof (dialled_calls (Tcp := T) (Tls := U) cs) as [H1 H2].
    pose proof (permit_kept cs (mkPooled (OverTcp (Tls := U) tcp) permit)) as K1.
    pose proof (permit_kept cs (mkPooled (OverTls (Tcp := T) tls) permit)) as K2.
    pose proof (wraps_calls po_io cs (mkPooled (OverTcp (Tls := U) tcp) permit)) as W1.
    pose proof (wraps_calls po_io cs (mkPooled (OverTls (Tcp := T) tls) permit)) as W2.
    cbn [po_io] in W1, W2. rewrite H1 in W1. rewrite H2 in W2.
    split; [destruct (on_calls cs (mkPooled (OverTcp tcp) permit)) as [[]]|
            destruct (on_calls cs (mkPooled (OverTls tls) permit)) as [[]]]; cbn in *; by simplify_eq.
Qed.
