(* ===== verification/Accept.v ===== *)
(** * Accepting connections: [lib/listen]'s [accept.rs], [drain.rs],
    [keep_alive.rs] and the drain of [listeners.rs]

    [Listen] has the admission of one connection and the set of sockets.
    Here, the accept loops and the connections they spawn, each a task that
    ends by itself or is cut ([accept_event], one thing that happens); the
    wait for the last connection, with its wake-ups. The streams of the
    connections are in [Streams]. *)

From S2P Require Import Prelude Str Net RateLimiting Listen Causes.

(** ** The accept loops *)

(** A loop: the count of its own connections, whether it runs, and where the
    admission of a connection stands that it is in the middle of. *)
Record Loop := mkLoop { lp_here : ConcurrencyLimit; lp_running : bool; lp_admitting : option Admitting }.

(** The loops; the connections open, each by its loop; those that are over,
    by their loop and whether they still hold their place under the cap on
    all connections; and what [serve] was told of refused connections. *)
Record Accepting := mkAccepting {
  ap_admission : Admission;
  ap_loops : list Loop;
  ap_open : list nat;
  ap_closing : list (nat * bool);
  ap_draining : bool;
  ap_cut : bool;
  ap_refused : list (nat * ListenLimit);
}.

Definition accepting_new (limits : ListenLimits) : Accepting :=
  mkAccepting (admission_new limits) [] [] [] false false [].

Definition put_loop (i : nat) (l : Loop) (p : Accepting) : Accepting :=
  mkAccepting (ap_admission p) (<[i := l]> (ap_loops p)) (ap_open p) (ap_closing p) (ap_draining p) (ap_cut p)
    (ap_refused p).

(** A loop stops where it waits: for a connection, or after an error. *)
Definition stop_loop (i : nat) (p : Accepting) : option Accepting :=
  match ap_loops p !! i with
  | Some (mkLoop here true None) => Some (put_loop i (mkLoop here false None) p)
  | _ => None
  end.

(** What becomes of the connection a loop admits: the next step, its own task,
    or a refusal. *)
Definition admission_goes (i : nat) (a : Admission) (here : ConcurrencyLimit) (r : AdmitOutcome) (p : Accepting) : Accepting :=
  let goes (s : option Admitting) (open : list nat) (refused : list (nat * ListenLimit)) :=
    mkAccepting a (<[i := mkLoop here true s]> (ap_loops p)) open (ap_closing p) (ap_draining p) (ap_cut p) refused in
  match r with
  | StillAdmitting s => goes (Some s) (ap_open p) (ap_refused p)
  | IsAdmitted => goes None (ap_open p ++ [i]) (ap_refused p)
  | IsRefused limit => goes None (ap_open p) (ap_refused p ++ [(i, limit)])
  end.

(** [accept] returned a connection. *)
Definition on_accept (i : nat) (peer : IpAddr) (now : Z) (p : Accepting) : option Accepting :=
  match ap_loops p !! i with
  | Some (mkLoop here true None) =>
      let (a, r) := admit_rate peer now (ap_admission p) in Some (admission_goes i a here r p)
  | _ => None
  end.

Definition on_admission (i : nat) (p : Accepting) : option Accepting :=
  match ap_loops p !! i with
  | Some (mkLoop here true (Some s)) =>
      let '(a, here, r) := admit_step s (ap_admission p) here in Some (admission_goes i a here r p)
  | _ => None
  end.

(** The [j]th connection's task ends. *)
Definition on_task_end (j : nat) (p : Accepting) : option Accepting :=
  match ap_open p !! j with
  | None => None
  | Some i =>
      Some (mkAccepting (ap_admission p) (ap_loops p) (delete j (ap_open p)) (ap_closing p ++ [(i, true)])
              (ap_draining p) (ap_cut p) (ap_refused p))
  end.

(** The next step of the drop of the [k]th slot being dropped. *)
Definition on_slot_drop (k : nat) (p : Accepting) : option Accepting :=
  match ap_closing p !! k with
  | Some (i, true) =>
      Some (mkAccepting (slot_drops_total (ap_admission p)) (ap_loops p) (ap_open p) (<[k := (i, false)]> (ap_closing p))
              (ap_draining p) (ap_cut p) (ap_refused p))
  | Some (i, false) =>
      match ap_loops p !! i with
      | Some l =>
          Some (mkAccepting (ap_admission p)
                  (<[i := mkLoop (slot_drops_here (lp_here l)) (lp_running l) (lp_admitting l)]> (ap_loops p))
                  (ap_open p) (delete k (ap_closing p)) (ap_draining p) (ap_cut p) (ap_refused p))
      | None => None
      end
  | None => None
  end.

Inductive AcceptEvent :=
| LoopStarts
| AcceptReturns (i : nat) (r : result (IpAddr * Z) IoErrorKind)
| AdmissionSteps (i : nat)
| LoopSeesDrain (i : nat)
| LoopAborts (i : nat)
| ServeReturns (j : nat)
| CutSignalled (j : nat)
| SlotDrops (k : nat)
| DrainTriggered
| DeadlinePasses.

(** One thing that happens. After an accept error a loop pauses, and goes on
    unless it drains. *)
Definition accept_event (ev : AcceptEvent) (p : Accepting) : option Accepting :=
  match ev with
  | LoopStarts =>
      let here := limit_new (Some (ad_max_per_listener (ap_admission p))) in
      Some (mkAccepting (ap_admission p) (ap_loops p ++ [mkLoop here true None]) (ap_open p) (ap_closing p)
              (ap_draining p) (ap_cut p) (ap_refused p))
  | AcceptReturns i (Ok (peer, now)) => on_accept i peer now p
  | AcceptReturns i (Err _) =>
      match ap_loops p !! i with
      | Some (mkLoop _ true None) => Some p
      | _ => None
      end
  | AdmissionSteps i => on_admission i p
  | LoopSeesDrain i => if ap_draining p then stop_loop i p else None
  | LoopAborts i => stop_loop i p
  | ServeReturns j => on_task_end j p
  | CutSignalled j => if ap_cut p then on_task_end j p else None
  | SlotDrops k => on_slot_drop k p
  | DrainTriggered =>
      Some (mkAccepting (ap_admission p) (ap_loops p) (ap_open p) (ap_closing p) true (ap_cut p) (ap_refused p))
  | DeadlinePasses =>
      Some (mkAccepting (ap_admission p) (ap_loops p) (ap_open p) (ap_closing p) (ap_draining p) true (ap_refused p))
  end.

Inductive accept_reach (limits : ListenLimits) : Accepting -> Prop :=
| accept_start : accept_reach limits (accepting_new limits)
| accept_step ev p p' :
    accept_reach limits p -> accept_event ev p = Some p' -> accept_reach limits p'.

Definition open_count (p : Accepting) : Z := in_use (ad_open (ap_admission p)).

(** The connections of loop [i]. *)
Definition on_loop (i : nat) (open : list nat) : Z := Z.of_nat (length (keep (Nat.eqb i) open)).

(** ** Never more than the limits, and counted exactly *)

(** Who holds a place under the cap on all connections, or asks for one: the
    connections open, those over that have not given it back, and the loops
    in the middle of an admission. *)
Definition still_held (c : nat * bool) : bool := c.2.

Definition holds_total (l : Loop) : bool :=
  match lp_admitting l with Some HasTotal | Some (TakingHere _) | Some GivingTotalBack => true | _ => false end.

Definition asks_total (l : Loop) : option Z :=
  match lp_admitting l with Some (TakingTotal v) => Some v | _ => None end.

Definition asks_here (l : Loop) : option Z :=
  match lp_admitting l with Some (TakingHere v) => Some v | _ => None end.

Definition total_held (p : Accepting) : Z :=
  Z.of_nat (length (ap_open p)) + count_if still_held (ap_closing p) + count_if holds_total (ap_loops p).

Definition total_state (p : Accepting) : LimitState :=
  mkLimitState (ad_open (ap_admission p)) (total_held p) (omap asks_total (ap_loops p)).

(** The same under the cap of loop [i]. *)
Definition here_held (i : nat) (p : Accepting) : Z := on_loop i (ap_open p) + on_loop i (ap_closing p).*1.

Definition here_state (i : nat) (l : Loop) (p : Accepting) : LimitState :=
  mkLimitState (lp_here l) (here_held i p) (option_list (asks_here l)).

Lemma limit_inv_perm max limit held pending pending' :
  pending ≡ₚ pending' -> limit_inv max (mkLimitState limit held pending) -> limit_inv max (mkLimitState limit held pending').
Proof.
  intros Hp (H1 & H2 & H3 & H4). unfold limit_inv in *. cbn in *. split; [done|]. split; [done|].
  split; [by rewrite <-(Permutation_length Hp)|]. destruct max as [m|]; [|done]. unfold winners in *. by rewrite <-(Permutation_length (keep_perm _ _ _ Hp)).
Qed.

Section Limits.
Context (limits : ListenLimits).
Hypothesis Hmax : 0 <= lm_max_connections limits.
Hypothesis Hper : 0 <= lm_max_connections_per_listener limits < u64_max.

(** Every loop admits one connection at a time: the places and the attempts
    together are fewer than the counter can count. *)
Definition countable (p : Accepting) : Prop :=
  lm_max_connections limits + Z.of_nat (length (ap_loops p)) < u64_max.

Record accept_inv (p : Accepting) : Prop := {
  ai_total : limit_inv (Some (lm_max_connections limits)) (total_state p);
  ai_per : ad_max_per_listener (ap_admission p) = lm_max_connections_per_listener limits;
  ai_loops : forall i l, ap_loops p !! i = Some l ->
    limit_inv (Some (lm_max_connections_per_listener limits)) (here_state i l p) /\
    (lp_running l = false -> lp_admitting l = None);
  ai_known : Forall (fun i => (i < length (ap_loops p))%nat) (ap_open p ++ (ap_closing p).*1);
}.

Lemma on_loop_snoc i open j : on_loop i (open ++ [j]) = on_loop i open + Z.b2z (Nat.eqb i j).
Proof.
  change (count_if (Nat.eqb i) (open ++ [j]) = count_if (Nat.eqb i) open + Z.b2z (Nat.eqb i j)).
  rewrite count_if_app, count_if_cons. unfold count_if. cbn. lia.
Qed.

Lemma on_loop_delete i open j k : open !! j = Some k -> on_loop i (delete j open) = on_loop i open - Z.b2z (Nat.eqb i k).
Proof. apply (count_if_delete (Nat.eqb i)). Qed.

Lemma on_loop_pos i open : 0 <= on_loop i open.
Proof. apply (count_if_range (Nat.eqb i)). Qed.

(** A loop moves on, perhaps with a connection more. *)
Lemma loop_moves i l l' a open refused p :
  accept_inv p -> ap_loops p !! i = Some l -> (lp_running l' = false -> lp_admitting l' = None) ->
  ad_max_per_listener a = ad_max_per_listener (ap_admission p) ->
  (forall k, k <> i -> on_loop k open = on_loop k (ap_open p)) ->
  Forall (fun i => (i < length (ap_loops p))%nat) open ->
  limit_inv (Some (lm_max_connections limits))
    (mkLimitState (ad_open a)
       (Z.of_nat (length open) + count_if still_held (ap_closing p) +
        (count_if holds_total (ap_loops p) - Z.b2z (holds_total l) + Z.b2z (holds_total l')))
       (omap asks_total (<[i := l']> (ap_loops p)))) ->
  limit_inv (Some (lm_max_connections_per_listener limits))
    (mkLimitState (lp_here l') (on_loop i open + on_loop i (ap_closing p).*1) (option_list (asks_here l'))) ->
  accept_inv (mkAccepting a (<[i := l']> (ap_loops p)) open (ap_closing p) (ap_draining p) (ap_cut p) refused).
Proof.
  intros [] Hl Hrun Ha Ho Hk Ht Hh. constructor; unfold total_state, total_held, here_state, here_held; cbn.
  - by rewrite (count_if_insert _ _ _ _ _ Hl).
  - by rewrite Ha.
  - intros k l'' [[-> [<- _]]|[Hne Hk']]%list_lookup_insert_Some; [done|].
    rewrite Ho by done. by apply (ai_loops0 _ _ Hk').
  - rewrite length_insert. apply Forall_app. split; [done|]. by apply Forall_app in ai_known0 as [_ ?].
Qed.

Lemma known_open p : accept_inv p -> Forall (fun i => (i < length (ap_loops p))%nat) (ap_open p).
Proof. intros []. by apply Forall_app in ai_known0 as [? _]. Qed.

Lemma asks_length p : Z.of_nat (length (omap asks_total (ap_loops p))) <= Z.of_nat (length (ap_loops p)).
Proof. induction (ap_loops p) as [|l ls IH]; [done|]. cbn. destruct (asks_total l); cbn; lia. Qed.

Lemma admission_inv i p p' : countable p -> accept_inv p -> on_admission i p = Some p' -> accept_inv p'.
Proof using Hmax Hper.
  intros Hc Hi H. pose proof Hi as [Ht _ Hls _]. pose proof (asks_length p) as Hn. unfold countable in Hc.
  pose proof (known_open p Hi) as Hk. unfold on_admission in H.
  destruct (ap_loops p !! i) as [[here [] [s|]]|] eqn:Hl; try done. destruct (Hls _ _ Hl) as [Hh _].
  pose proof Ht as (_ & Hpos & [Huse _] & Hcap). pose proof Hh as (_ & Hhpos & [Hhuse _] & Hhcap).
  unfold total_state, total_held, here_state, here_held in *. cbn [ls_held ls_pending ls_limit lp_here] in *.
  destruct s as [|v| |u|]; cbn [admit_step] in H.
  - injection H as <-. set (l' := mkLoop _ _ _). apply (loop_moves i _ l' _ _ _ p Hi Hl); try done.
    destruct (omap_insert_split asks_total (ap_loops p) i _ l' Hl) as (before & after & E1 & E2).
    rewrite E2. rewrite E1 in Ht, Hn. cbn in *. rewrite Z.sub_0_r, Z.add_0_r.
    eapply limit_inv_perm; [apply Permutation_middle|]. eapply limit_step_inv; [exact Ht|]. apply step_attempt. lia.
  - destruct (omap_insert_split asks_total (ap_loops p) i _ (mkLoop here true None) Hl) as (before & after & E1 & E2).
    destruct (omap_insert_split asks_total (ap_loops p) i _ (mkLoop here true (Some HasTotal)) Hl) as (before' & after' & E1' & E2').
    cbn [asks_total lp_admitting option_list app] in *.
    destruct (limit_decide (ad_open (ap_admission p)) v) as [[]|e] eqn:Ed; injection H as <-.
    + apply (loop_moves i _ (mkLoop here true (Some HasTotal)) _ _ _ p Hi Hl); try done. rewrite E2'. rewrite E1' in Ht.
      replace (_ + _ + _) with (Z.of_nat (length (ap_open p)) + count_if still_held (ap_closing p) + count_if holds_total (ap_loops p) + 1)
        by (cbn; lia). eapply limit_step_inv; [exact Ht|]. by apply step_taken.
    + apply (loop_moves i _ (mkLoop here true None) _ _ _ p Hi Hl); try done. rewrite E2. rewrite E1 in Ht.
      cbn [holds_total lp_admitting Z.b2z]. rewrite Z.sub_0_r, Z.add_0_r. eapply limit_step_inv; [exact Ht|]. by eapply step_refused.
  - injection H as <-. set (l' := mkLoop _ _ _). apply (loop_moves i _ l' _ _ _ p Hi Hl); try done.
    + destruct (omap_insert_split asks_total (ap_loops p) i _ l' Hl) as (before & after & E1 & E2).
      rewrite E2. rewrite E1 in Ht. cbn in *. replace (_ - 1 + 1) with (count_if holds_total (ap_loops p)) by lia. done.
    + cbn in *. eapply limit_step_inv; [exact Hh|]. apply step_attempt. cbn. lia.
  - destruct (limit_decide here u) as [[]|e] eqn:Ed; injection H as <-.
    + set (l' := mkLoop _ _ _). apply (loop_moves i _ l' _ _ _ p Hi Hl); try done.
      * intros k Hne. rewrite on_loop_snoc, (proj2 (Nat.eqb_neq _ _)) by done. cbn. lia.
      * apply Forall_app. split; [done|]. constructor; [by eapply lookup_lt_Some|done].
      * destruct (omap_insert_split asks_total (ap_loops p) i _ l' Hl) as (before & after & E1 & E2).
        rewrite E2. rewrite E1 in Ht. cbn in *. rewrite length_app. cbn.
        replace (_ + _ + _) with (Z.of_nat (length (ap_open p)) + count_if still_held (ap_closing p) + count_if holds_total (ap_loops p))
          by lia. done.
      * rewrite on_loop_snoc, Nat.eqb_refl. cbn in *.
        replace (_ + _ + _) with (on_loop i (ap_open p) + on_loop i (ap_closing p).*1 + 1) by lia.
        eapply limit_step_inv; [exact Hh|]. by apply (step_taken _ _ [] u []).
    + set (l' := mkLoop _ _ _). apply (loop_moves i _ l' _ _ _ p Hi Hl); try done.
      * destruct (omap_insert_split asks_total (ap_loops p) i _ l' Hl) as (before & after & E1 & E2).
        rewrite E2. rewrite E1 in Ht. cbn in *. replace (_ - 1 + 1) with (count_if holds_total (ap_loops p)) by lia. done.
      * cbn in *. eapply limit_step_inv; [exact Hh|]. by apply (step_refused _ _ [] u [] e).
  - injection H as <-. set (l' := mkLoop _ _ _). apply (loop_moves i _ l' _ _ _ p Hi Hl); try done.
    destruct (omap_insert_split asks_total (ap_loops p) i _ l' Hl) as (before & after & E1 & E2).
    rewrite E2. rewrite E1 in Ht. cbn in *.
    replace (_ + _ + _) with (Z.of_nat (length (ap_open p)) + count_if still_held (ap_closing p) + count_if holds_total (ap_loops p) - 1)
      by lia. eapply limit_step_inv; [exact Ht|]. apply step_drop.
    pose proof (count_if_pos holds_total _ _ _ Hl eq_refl). pose proof (count_if_range still_held (ap_closing p)). lia.
Qed.

Lemma on_accept_inv i peer now p p' : accept_inv p -> on_accept i peer now p = Some p' -> accept_inv p'.
Proof.
  intros Hi H. unfold on_accept in H. destruct (ap_loops p !! i) as [[here [] []]|] eqn:Hl; try done.
  pose proof Hi as [Ht _ Hls _]. destruct (Hls _ _ Hl) as [Hh _].
  assert (Ha : ad_open (admit_rate peer now (ap_admission p)).1 = ad_open (ap_admission p) /\
               ad_max_per_listener (admit_rate peer now (ap_admission p)).1 = ad_max_per_listener (ap_admission p) /\
               match (admit_rate peer now (ap_admission p)).2 with
               | StillAdmitting s => s = Rated
               | IsAdmitted => False
               | IsRefused _ => True
               end).
  { unfold admit_rate. destruct (ad_peer_rate _); [|done]. destruct (keyed_try_acquire _ _ _) as [rate [[]|e]]; done. }
  destruct (admit_rate _ _ _) as [a r]. cbn [fst snd] in Ha. destruct Ha as (Ea & Em & Hr). injection H as <-.
  assert (Hmove : forall l' refused, l' = mkLoop here true None \/ l' = mkLoop here true (Some Rated) ->
    accept_inv (mkAccepting a (<[i := l']> (ap_loops p)) (ap_open p) (ap_closing p) (ap_draining p) (ap_cut p) refused)).
  { intros l' refused Hl'. assert (Hl2 : holds_total l' = false /\ asks_total l' = None /\ asks_here l' = None /\ lp_here l' = here /\ lp_running l' = true)
      by (by destruct Hl' as [-> | ->]). destruct Hl2 as (L1 & L2 & L3 & L4 & L5).
    apply (loop_moves i _ l' _ _ _ p Hi Hl); try done; [by rewrite L5|by apply known_open| |by rewrite L3, L4].
    destruct (omap_insert_split asks_total (ap_loops p) i _ l' Hl) as (before & after & E1 & E2).
    rewrite E2, L1, L2, Ea. unfold total_state, total_held in Ht. rewrite E1 in Ht. cbn in *. by rewrite Z.sub_0_r, Z.add_0_r. }
  destruct r as [s| |limit]; [subst s|done|]; apply Hmove; auto.
Qed.

Lemma stop_loop_inv i p p' : accept_inv p -> stop_loop i p = Some p' -> accept_inv p'.
Proof.
  intros Hi H. unfold stop_loop in H. destruct (ap_loops p !! i) as [[here [] []]|] eqn:Hl; try done. injection H as <-.
  pose proof Hi as [Ht _ Hls _]. destruct (Hls _ _ Hl) as [Hh _]. set (l' := mkLoop _ _ _).
  apply (loop_moves i _ l' _ _ _ p Hi Hl); try done; [by apply known_open|].
  destruct (omap_insert_split asks_total (ap_loops p) i _ l' Hl) as (before & after & E1 & E2).
  rewrite E2. unfold total_state, total_held in Ht. rewrite E1 in Ht. cbn in *. by rewrite Z.sub_0_r, Z.add_0_r.
Qed.

Lemma task_end_inv j p p' : accept_inv p -> on_task_end j p = Some p' -> accept_inv p'.
Proof.
  intros Hi H. unfold on_task_end in H. destruct (ap_open p !! j) as [i|] eqn:Hj; [|done]. injection H as <-.
  destruct Hi as [Ht Hp Hls Hk]. apply Forall_app in Hk as [Hk1 Hk2].
  constructor; unfold total_state, total_held, here_state, here_held in *; cbn in *; [|done|..].
  - rewrite count_if_app, count_if_cons. cbn. rewrite length_delete by eauto.
    pose proof (lookup_lt_Some _ _ _ Hj). unfold count_if at 2. cbn.
    replace (_ + _ + _) with (Z.of_nat (length (ap_open p)) + count_if still_held (ap_closing p) + count_if holds_total (ap_loops p))
      by lia. done.
  - intros k l Hl. destruct (Hls k l Hl) as [Hh Hr]. split; [|done].
    rewrite fmap_app, (on_loop_delete k _ _ _ Hj). cbn. rewrite on_loop_snoc.
    replace (_ - _ + _) with (on_loop k (ap_open p) + on_loop k (ap_closing p).*1) by lia. done.
  - rewrite fmap_app. apply Forall_app. split; [by apply Forall_delete|]. apply Forall_app. split; [done|].
    constructor; [|done]. by apply (proj1 (Forall_lookup _ _) Hk1 j).
Qed.

Lemma slot_drop_inv k p p' : accept_inv p -> on_slot_drop k p = Some p' -> accept_inv p'.
Proof.
  intros Hi H. unfold on_slot_drop in H. destruct (ap_closing p !! k) as [[i held]|] eqn:Hk; [|done].
  destruct Hi as [Ht Hp Hls Hkn]. apply Forall_app in Hkn as [Hk1 Hk2]. destruct held.
  - injection H as <-. assert (Hsame : (<[k := (i, false)]> (ap_closing p)).*1 = (ap_closing p).*1).
    { rewrite list_fmap_insert. apply list_insert_id. rewrite list_lookup_fmap, Hk. done. }
    constructor; unfold total_state, total_held, here_state, here_held in *; cbn in *; [|done|by rewrite Hsame..|].
    + rewrite (count_if_insert _ _ _ _ _ Hk). cbn.
      replace (_ + _ + _) with (Z.of_nat (length (ap_open p)) + count_if still_held (ap_closing p) + count_if holds_total (ap_loops p) - 1)
        by lia. eapply limit_step_inv; [exact Ht|]. apply step_drop.
      pose proof (count_if_pos still_held _ _ _ Hk eq_refl). pose proof (count_if_range holds_total (ap_loops p)). lia.
    + rewrite Hsame. by apply Forall_app.
  - destruct (ap_loops p !! i) as [l|] eqn:Hl; [|done]. injection H as <-. destruct (Hls _ _ Hl) as [Hh Hr].
    assert (Hd : (delete k (ap_closing p)).*1 = delete k (ap_closing p).*1).
    { rewrite !delete_take_drop, fmap_app, fmap_take, fmap_drop. done. }
    assert (Hk' : (ap_closing p).*1 !! k = Some i) by (by rewrite list_lookup_fmap, Hk).
    set (l' := mkLoop _ _ _). constructor; unfold total_state, total_held, here_state, here_held in *; cbn in *; [|done|..].
    + rewrite (count_if_delete _ _ _ _ Hk), (count_if_insert _ _ _ _ _ Hl). cbn.
      destruct (omap_insert_split asks_total (ap_loops p) i _ l' Hl) as (before & after & E1 & E2). rewrite E2. rewrite E1 in Ht.
      replace (_ + _ + _) with (Z.of_nat (length (ap_open p)) + count_if still_held (ap_closing p) + count_if holds_total (ap_loops p))
        by (unfold holds_total; cbn; lia). done.
    + intros j l'' [[-> [<- _]]|[Hne Hj]]%list_lookup_insert_Some; rewrite Hd, (on_loop_delete _ _ _ _ Hk').
      * rewrite Nat.eqb_refl. split; [|done]. cbn.
        replace (_ + _) with (on_loop j (ap_open p) + on_loop j (ap_closing p).*1 - 1) by lia.
        eapply limit_step_inv; [exact Hh|]. apply step_drop.
        pose proof (count_if_pos (Nat.eqb j) _ _ _ Hk' (Nat.eqb_refl j)). pose proof (on_loop_pos j (ap_open p)).
        unfold on_loop, count_if in *. lia.
      * rewrite (proj2 (Nat.eqb_neq j i)) by done. cbn. rewrite Z.sub_0_r. by apply Hls.
    + rewrite length_insert, Hd. apply Forall_app. split; [done|]. by apply Forall_delete.
Qed.

Lemma accept_event_inv ev p p' : countable p -> accept_inv p -> accept_event ev p = Some p' -> accept_inv p'.
Proof using Hmax Hper.
  intros Hc Hi Hev. destruct ev as [|i [[peer now]|e]|i|i|i|j|j|k| |]; simpl in Hev.
  - injection Hev as <-. destruct Hi as [Ht Hp Hls Hk].
    constructor; unfold total_state, total_held, here_state, here_held in *; cbn in *; [|done|..].
    + rewrite count_if_app, omap_app. cbn. rewrite app_nil_r, Z.add_0_r. done.
    + intros i l [Hl|[Hge Hl]]%lookup_app_Some; [by apply Hls|].
      apply list_lookup_singleton_Some in Hl as [E <-]. split; [|done]. rewrite Hp. cbn.
      assert (forall open, Forall (fun i => (i < length (ap_loops p))%nat) open -> on_loop i open = 0) as Hz.
      { intros open Ho. unfold on_loop. rewrite keep_none; [done|]. intros k Hin.
        rewrite Forall_forall in Ho. specialize (Ho k Hin). apply Nat.eqb_neq. lia. }
      apply Forall_app in Hk as [Hk1 Hk2]. rewrite !Hz by done. apply (limit_start_inv (Some _)). lia.
    + eapply Forall_impl; [exact Hk|]. intros k Hk'. cbn in Hk'. rewrite length_app. cbn. lia.
  - by eapply on_accept_inv.
  - by repeat case_match; simplify_eq.
  - by eapply admission_inv.
  - case_match; [|done]. by eapply stop_loop_inv.
  - by eapply stop_loop_inv.
  - by eapply task_end_inv.
  - case_match; [|done]. by eapply task_end_inv.
  - by eapply slot_drop_inv.
  - injection Hev as <-. by destruct Hi.
  - injection Hev as <-. by destruct Hi.
Qed.

Lemma accept_event_loops ev p p' :
  accept_event ev p = Some p' -> (length (ap_loops p) <= length (ap_loops p'))%nat.
Proof.
  destruct ev as [|i [[peer now]|e]|i|i|i|j|j|k| |]; simpl; unfold on_accept, on_admission, stop_loop, on_task_end, on_slot_drop,
    admission_goes; intros; repeat case_match; simplify_eq; cbn; rewrite ?length_app, ?length_insert; lia.
Qed.

Lemma accept_reach_inv p : countable p -> accept_reach limits p -> accept_inv p.
Proof using Hmax Hper.
  intros Hc Hr. induction Hr as [|ev p p' _ IH Hev].
  - constructor; [|done|done|constructor]. apply (limit_start_inv (Some _)). done.
  - pose proof (accept_event_loops _ _ _ Hev). assert (countable p) by (unfold countable in *; lia).
    by eapply accept_event_inv, Hev; [|apply IH].
Qed.

(** Nothing is on its way in or out: no loop is in the middle of an
    admission, and no slot in the middle of its drop. *)
Definition settled (p : Accepting) : Prop :=
  ap_closing p = [] /\ Forall (fun l => lp_admitting l = None) (ap_loops p).

Lemma settled_counts p :
  settled p -> total_held p = Z.of_nat (length (ap_open p)) /\ omap asks_total (ap_loops p) = [] /\
    forall i l, ap_loops p !! i = Some l -> here_held i p = on_loop i (ap_open p) /\ asks_here l = None.
Proof.
  intros [Hc Hl]. unfold total_held, here_held. rewrite Hc. split_and!.
  - unfold count_if at 2. rewrite keep_none; [cbn; unfold count_if; cbn; lia|]. intros l Hin. rewrite Forall_forall in Hl.
    unfold holds_total. by rewrite (Hl l Hin).
  - induction Hl as [|l ls E _ IH]; [done|]. cbn. unfold asks_total at 1. by rewrite E.
  - intros i l Hi. pose proof (proj1 (Forall_lookup _ _) Hl _ _ Hi) as E. cbn in E. unfold asks_here. rewrite E.
    split; [|done]. change (on_loop i (ap_open p) + 0 = on_loop i (ap_open p)). lia.
Qed.

(** With a place free under both caps, and no rate per peer, a connection
    that arrives at a loop that waits for one is admitted. *)
Lemma arrival_admitted i here peer now p :
  ap_loops p !! i = Some (mkLoop here true None) -> ad_peer_rate (ap_admission p) = None ->
  is_ok (limit_decide (ad_open (ap_admission p)) (open_count p)) = true -> is_ok (limit_decide here (in_use here)) = true ->
  exists p1 p2 p3 p4 p5, accept_event (AcceptReturns i (Ok (peer, now))) p = Some p1 /\
    accept_event (AdmissionSteps i) p1 = Some p2 /\ accept_event (AdmissionSteps i) p2 = Some p3 /\
    accept_event (AdmissionSteps i) p3 = Some p4 /\ accept_event (AdmissionSteps i) p4 = Some p5 /\
    ap_open p5 = ap_open p ++ [i].
Proof.
  intros Hl Hr Ht Hh. pose proof (lookup_lt_Some _ _ _ Hl) as Hlt. do 5 eexists. cbn [accept_event].
  split. { unfold on_accept, admit_rate. by rewrite Hl, Hr. }
  split. { unfold on_admission. cbn [admission_goes ap_loops]. by rewrite list_lookup_insert_eq. }
  split. { unfold on_admission. cbn [admission_goes ap_loops]. rewrite list_insert_insert_eq, list_lookup_insert_eq by done.
    cbn. unfold limit_decide, open_count in *. cbn. destruct (limit_max _); [|done]. by destruct (_ <=? _). }
  split. { unfold on_admission. cbn [admission_goes ap_loops]. by rewrite !list_insert_insert_eq, list_lookup_insert_eq. }
  split. { unfold on_admission. cbn [admission_goes ap_loops]. rewrite !list_insert_insert_eq, list_lookup_insert_eq by done.
    cbn. unfold limit_decide in *. cbn. destruct (limit_max here); [|done]. by destruct (_ <=? _). }
  done.
Qed.

(** C26: However connections arrive, end and are cut, loops start and stop,
    and the loops and the ending connections step on the counters in
    between: no more connections are open than the limits allow, over all
    listeners and on each. [open_connections] counts them, those that are
    over and have not given their place back, and the loops that hold a place
    for a connection or are asking for one, each once; with nothing on its
    way in or out it says exactly how many are open, over all and on each.
    What a connection asks under a cap is the count it finds, and it is
    refused exactly when as many places were taken, or being asked for, as
    the cap allows. *)
Theorem connections_within_limits p :
  accept_reach limits p -> countable p ->
  Z.of_nat (length (ap_open p)) <= lm_max_connections limits /\
  open_count p = total_held p + Z.of_nat (length (omap asks_total (ap_loops p))) /\
  (settled p -> open_count p = Z.of_nat (length (ap_open p))) /\
  (forall i l, ap_loops p !! i = Some l ->
     on_loop i (ap_open p) <= lm_max_connections_per_listener limits /\
     in_use (lp_here l) = here_held i p + Z.of_nat (length (option_list (asks_here l))) /\
     (settled p -> in_use (lp_here l) = on_loop i (ap_open p))) /\
  (forall i here s, ap_loops p !! i = Some (mkLoop here true (Some s)) ->
     exists p' l', on_admission i p = Some p' /\ ap_loops p' !! i = Some l' /\
       match s with
       | Rated => lp_admitting l' = Some (TakingTotal (open_count p)) /\ ap_refused p' = ap_refused p
       | TakingTotal v =>
           if lm_max_connections limits <=? v
           then lp_admitting l' = None /\ ap_refused p' = ap_refused p ++ [(i, MaxConnections)]
           else lp_admitting l' = Some HasTotal /\ ap_refused p' = ap_refused p
       | HasTotal => lp_admitting l' = Some (TakingHere (in_use here)) /\ ap_refused p' = ap_refused p
       | TakingHere v =>
           ap_refused p' = ap_refused p /\
           if lm_max_connections_per_listener limits <=? v
           then lp_admitting l' = Some GivingTotalBack /\ ap_open p' = ap_open p
           else lp_admitting l' = None /\ ap_open p' = ap_open p ++ [i]
       | GivingTotalBack =>
           lp_admitting l' = None /\ ap_refused p' = ap_refused p ++ [(i, MaxConnectionsPerListener)]
       end).
Proof using Hmax Hper.
  intros Hr Hc. pose proof (accept_reach_inv p Hc Hr) as [Ht Hp Hls Hk].
  destruct Ht as (Hm & H0 & [Hu _] & Hcap). cbn in Hm, H0, Hu, Hcap.
  pose proof (count_if_range still_held (ap_closing p)). pose proof (count_if_range holds_total (ap_loops p)).
  split_and!.
  - unfold total_held in Hcap. lia.
  - exact Hu.
  - intros Hs. destruct (settled_counts p Hs) as (E1 & E2 & _). unfold open_count. rewrite Hu, E1, E2. cbn. lia.
  - intros i l Hl. destruct (Hls i l Hl) as [(_ & _ & [Hu' _] & Hcap') _]. cbn in Hu', Hcap'.
    pose proof (on_loop_pos i (ap_closing p).*1). split_and!; [unfold here_held in Hcap'; lia|exact Hu'|].
    intros Hs. destruct (settled_counts p Hs) as (_ & _ & E). destruct (E i l Hl) as [E1 E2]. rewrite Hu', E1, E2. cbn. lia.
  - intros i here s Hl. destruct (Hls _ _ Hl) as [(Hm' & _) _]. cbn in Hm'. pose proof (lookup_lt_Some _ _ _ Hl) as Hlt.
    unfold on_admission. rewrite Hl. destruct s as [|v| |u|]; cbn [admit_step].
    2, 4: unfold limit_decide; rewrite ?Hm, ?Hm'; destruct (_ <=? _).
    all: cbn [admission_goes]; do 2 eexists; (split; [done|]); cbn [ap_loops ap_refused ap_open];
         rewrite list_lookup_insert_eq by done; (split; [done|]); by split_and!.
Qed.
End Limits.
(** ** Waiting for the last connection: [OpenConnections::all_closed]

    A slot's drop gives its place back, then wakes the waiters; the two are
    steps of their own. The waiter registers, looks, and waits to be woken.
    [dw_count] is the count it looks at, [dw_dropping] the slots between
    their two steps. *)

Inductive Waiter :=
| WRegisters
| WLooks (notified : bool)
| WWaits (notified : bool)
| WReturned.

Record DrainWait := mkDrainWait { dw_count : nat; dw_dropping : nat; dw_waiter : Waiter }.

(** [notify_waiters]: every registered waiter is woken. *)
Definition woken (w : Waiter) : Waiter :=
  match w with WLooks _ => WLooks true | WWaits _ => WWaits true | w => w end.

Inductive DrainWaitEvent := SlotGivesBack | SlotNotifies | WaiterSteps.

Definition drain_wait_event (ev : DrainWaitEvent) (d : DrainWait) : option DrainWait :=
  match ev with
  | SlotGivesBack =>
      match dw_count d with
      | O => None
      | S n => Some (mkDrainWait n (S (dw_dropping d)) (dw_waiter d))
      end
  | SlotNotifies =>
      match dw_dropping d with
      | O => None
      | S n => Some (mkDrainWait (dw_count d) n (woken (dw_waiter d)))
      end
  | WaiterSteps =>
      match dw_waiter d with
      | WRegisters => Some (mkDrainWait (dw_count d) (dw_dropping d) (WLooks false))
      | WLooks notified =>
          let w := match dw_count d with O => WReturned | S _ => WWaits notified end in
          Some (mkDrainWait (dw_count d) (dw_dropping d) w)
      | WWaits true => Some (mkDrainWait (dw_count d) (dw_dropping d) WRegisters)
      | WWaits false | WReturned => None
      end
  end.

Inductive drain_wait_reach (open : nat) : DrainWait -> Prop :=
| drain_wait_start : drain_wait_reach open (mkDrainWait open 0 WRegisters)
| drain_wait_step ev d d' :
    drain_wait_reach open d -> drain_wait_event ev d = Some d' -> drain_wait_reach open d'.

(** The waiter alone, for as long as it can step. *)
Fixpoint waiter_runs (fuel : nat) (d : DrainWait) : DrainWait :=
  match fuel with
  | O => d
  | S fuel => match drain_wait_event WaiterSteps d with Some d => waiter_runs fuel d | None => d end
  end.

Lemma drain_wait_inv open d :
  drain_wait_reach open d ->
  (dw_waiter d = WWaits false -> (0 < dw_count d + dw_dropping d)%nat) /\
  (dw_waiter d = WReturned -> dw_count d = 0%nat).
Proof.
  induction 1 as [|ev [n k w] d' _ [IH1 IH2] Hev]; [done|]. simpl in *.
  destruct ev; simpl in Hev.
  - destruct n; [done|]. injection Hev as <-. simpl. split; [lia|]. intros Hw. by specialize (IH2 Hw).
  - destruct k; [done|]. injection Hev as <-. destruct w; simpl in *; split; try done.
  - destruct w as [|nt|[]|]; simplify_eq/=; try done. destruct n; split; simpl; done || lia.
Qed.

(** C40: The wait for the open connections ends when the last one does, and
    no sooner: however slots are dropped around the waiter's registering and
    looking, once every slot has been given back and has notified, the
    waiter is never left asleep and returns in four steps of its own; and
    when it has returned no connection is open. *)
Theorem drain_wait_wakes open d :
  drain_wait_reach open d ->
  (dw_count d = 0%nat -> dw_dropping d = 0%nat -> dw_waiter (waiter_runs 4 d) = WReturned) /\
  (dw_waiter d = WReturned -> dw_count d = 0%nat).
Proof.
  intros Hr. destruct (drain_wait_inv _ _ Hr) as [H1 H2]. split; [|done].
  destruct d as [n k w]. simpl in *. intros -> ->.
  destruct w as [|[]|[]|]; try done. by specialize (H1 eq_refl); lia.
Qed.

Lemma drain_wait_wakes_witness :
  dw_waiter (waiter_runs 4 (mkDrainWait 0 0 (WWaits true))) = WReturned.
Proof.
  apply (proj1 (drain_wait_wakes 1 (mkDrainWait 0 0 (WWaits true))
    ltac:(eapply (drain_wait_step _ SlotNotifies (mkDrainWait 0 1 (WWaits false))); [|reflexivity];
          eapply (drain_wait_step _ SlotGivesBack (mkDrainWait 1 0 (WWaits false))); [|reflexivity];
          eapply (drain_wait_step _ WaiterSteps (mkDrainWait 1 0 (WLooks false))); [|reflexivity];
          eapply (drain_wait_step _ WaiterSteps (mkDrainWait 1 0 WRegisters)); [|reflexivity];
          constructor))); reflexivity.
Defined.

(** [serve_until_drained], once every loop has ended: whether the connections
    closed by the deadline, how many were open then, and how many a moment
    after they were cut. *)
Record Drained := mkDrained { dn_cut : Z; dn_stuck : Z }.

Definition CUT_GRACE : Z := from_secs 1.

Definition drained (closed_by_deadline : bool) (open_at_deadline : Z) (closed_by_grace : bool)
    (open_after_grace : Z) : Drained :=
  if closed_by_deadline then mkDrained 0 0
  else mkDrained open_at_deadline (if closed_by_grace then 0 else open_after_grace).

(** ** The drain signal: [drain.rs] *)

(** [Drain::trigger]: the signal then, and whether subscribers are told. *)
Definition drain_trigger (draining : bool) : bool * bool := (true, negb draining).

(** ** Which listener an address belongs to: [Listeners::listener_at]

    The running listeners, in the order the map happens to hold them, each
    with the address it is bound to. *)
Definition is_unspecified (a : IpAddr) : bool :=
  match a with V4 o => forallb (Z.eqb 0) o | V6 g => forallb (Z.eqb 0) g end.

Definition serves_address (local bound : SocketAddr) : bool :=
  (sa_port bound =? sa_port local) &&
  (is_unspecified (sa_ip bound) ||
   bool_decide (to_canonical (sa_ip bound) = to_canonical (sa_ip local))).

Definition listener_at {T} (local : SocketAddr) (running : list (SocketAddr * T)) : option T :=
  snd <$> find_first (fun r => serves_address local r.1) running.

(** Whatever the order, when no two listeners serve an address. *)
Lemma listener_at_order {T} local (running running' : list (SocketAddr * T)) :
  running ≡ₚ running' ->
  (forall r r', r ∈ running -> r' ∈ running -> serves_address local r.1 = true ->
     serves_address local r'.1 = true -> r = r') ->
  listener_at local running = listener_at local running'.
Proof.
  intros Hp Hu. unfold listener_at. f_equal.
  destruct (find_first _ running) as [r|] eqn:E, (find_first _ running') as [r'|] eqn:E'; [|exfalso..|done].
  - apply find_first_Some in E as [? ?], E' as [? ?]. f_equal. apply Hu; try done. by rewrite Hp.
  - apply find_first_Some in E as [Hin Hs]. rewrite Hp in Hin.
    rewrite (proj1 (find_first_None _ _) E' _ Hin) in Hs. done.
  - apply find_first_Some in E' as [Hin Hs]. rewrite <-Hp in Hin.
    rewrite (proj1 (find_first_None _ _) E _ Hin) in Hs. done.
Qed.

(** ** Probing silent peers: [keep_alive.rs]

    What the kernel is told, in whole seconds, or nothing. *)
Definition keep_alive (idle interval probes : Z) : result (Z * Z * Z) IoErrorKind :=
  if (idle <? from_secs 1) || (interval <? from_secs 1) || (probes =? 0) then Err IoInvalidInput
  else Ok (idle / NANOS_PER_SEC, interval / NANOS_PER_SEC, probes).

(** ** Two listeners at their limits *)

Definition example_limits : ListenLimits := mkListenLimits 3 2 None.
Definition example_peer_ip : IpAddr := V4 [10; 0; 0; 7].

(** Two connections on the first loop, which has a third on its way out, in
    the middle of its slot's drop, when a fourth arrives. *)
Definition busy_loops : list AcceptEvent :=
  let arrives := [AcceptReturns 0 (Ok (example_peer_ip, 0)); AdmissionSteps 0; AdmissionSteps 0; AdmissionSteps 0;
                  AdmissionSteps 0] in
  [LoopStarts; LoopStarts] ++ arrives ++ arrives ++ [ServeReturns 0; SlotDrops 0;
   AcceptReturns 0 (Ok (example_peer_ip, 0)); AdmissionSteps 0; AdmissionSteps 0; AdmissionSteps 0].

Fixpoint accept_run (evs : list AcceptEvent) (p : Accepting) : option Accepting :=
  match evs with
  | [] => Some p
  | ev :: evs => match accept_event ev p with Some p => accept_run evs p | None => None end
  end.

Lemma accept_run_reach limits evs p p' : accept_reach limits p -> accept_run evs p = Some p' -> accept_reach limits p'.
Proof.
  revert p. induction evs as [|ev evs IH]; intros p Hr; cbn; [by intros [= <-]|].
  destruct (accept_event ev p) as [p1|] eqn:E; [|done]. apply IH. by eapply accept_step.
Qed.

Definition two_loops : Accepting :=
  mkAccepting (mkAdmission (mkConcurrencyLimit 2 (Some 3)) 2 None)
    [mkLoop (mkConcurrencyLimit 3 (Some 2)) true (Some (TakingHere 2)); mkLoop (mkConcurrencyLimit 0 (Some 2)) true None]
    [0%nat] [(0%nat, false)] false false [].

(** One is open, and the arriving one, which holds a place under the cap on
    all, is about to be refused under the listener's. *)
Lemma connections_within_limits_witness :
  open_count two_loops = 2 /\ on_loop 0 (ap_open two_loops) = 1 /\
  exists p' l', on_admission 0 two_loops = Some p' /\ ap_loops p' !! 0%nat = Some l' /\
    lp_admitting l' = Some GivingTotalBack /\ ap_open p' = [0%nat].
Proof.
  assert (Hr : accept_reach example_limits two_loops).
  { apply (accept_run_reach _ busy_loops (accepting_new example_limits)); [constructor|reflexivity]. }
  destruct (connections_within_limits example_limits ltac:(done) ltac:(done) two_loops Hr ltac:(reflexivity))
    as (_ & Ho & _ & _ & Hstep).
  split; [exact Ho|]. split; [reflexivity|].
  destruct (Hstep 0%nat _ (TakingHere 2) eq_refl) as (p' & l' & H1 & H2 & _ & H3 & H4).
  exists p', l'. split; [exact H1|]. split; [exact H2|]. split; [exact H3|exact H4].
Defined.
