(* ===== verification/Edge.v ===== *)
(** * Client connections: [gfe/proxy/src/edge]

    What a client connection is held to ([connection.rs]), from the accepted
    socket to its end, and how it is accounted for ([conn_record.rs],
    [shared.rs]). HTTP on it is [Server]'s, its bytes [Streams]'s, the
    handshake's failures [Tls]'s. What a connection meets is an argument:
    how its handshake and its HTTP end, unless its task is dropped (at the
    drain deadline) or panics first. *)

From S2P Require Import Prelude Str Net RateLimiting Config Tls Causes TlsPolicy Http Server Listen Streams Accept.

(** ** What a connection is held to: [connection.rs] *)

Definition KEEPALIVE_PROBES : Z := 3.

Record TcpKeepalive := mkTcpKeepalive { tk_idle : Z; tk_interval : Z; tk_probes : Z }.

Definition tcp_keepalive (client_idle : Z) : TcpKeepalive :=
  let second := from_secs 1 in
  mkTcpKeepalive (Z.max client_idle second) (Z.max (client_idle / 4) second) KEEPALIVE_PROBES.

(** [set_socket_options]: whether Nagle's delay is off, which the socket may
    refuse, and the keepalive the kernel is told. *)
Definition set_socket_options (set_nodelay set_keepalive : bool) (t : TimeoutsConfig) :
    bool * option (Z * Z * Z) :=
  let keepalive := tcp_keepalive (client_idle t) in
  (set_nodelay,
   match keep_alive (tk_idle keepalive) (tk_interval keepalive) (tk_probes keepalive) with
   | Ok told => if set_keepalive then Some told else None
   | Err _ => None
   end).

Definition http_options (t : TimeoutsConfig) (l : LimitsConfig) : ServerOptions :=
  mkServerOptions (request_header t) (client_idle t) (client_idle t / 4) (drain_deadline t / 2)
    (max_header_bytes l) (max_h2_concurrent_streams l).

(** [Edge::new]: what its connections are served with. *)
Definition new_edge (t : TimeoutsConfig) (l : LimitsConfig) : result ServerOptions InvalidOptions :=
  let http := http_options t l in
  let? _ := options_validate http in Ok http.

(** The label of a connection refused under a limit. *)
Definition refused_reason (limit : ListenLimit) : str :=
  match limit with
  | ConnectionsPerPeer => lit "client_rate"
  | MaxConnections | MaxConnectionsPerListener => lit "limit"
  end.

(** ** What the connections share: [shared.rs] *)


(** The connection metrics: gauges, and counters by their labels; what was
    observed in each histogram; the bytes of each listener, told of as they
    flow. *)
Record EdgeMetrics := mkEdgeMetrics {
  em_connections_limit : Z;
  em_listener_connections_limit : Z;
  em_connections_active : Z;
  em_listener_active : gmap str Z;
  em_accepted : gmap str Z;
  em_closed : gmap (str * str) Z;
  em_rejected : gmap str Z;
  em_handshakes : gmap str Z;
  em_handshake_failures : gmap str Z;
  em_tls_connections : list (str * str * str * bool);
  em_sni_no_cert : Z;
  em_accept_waits : list (str * Z);
  em_handshake_times : list Z;
  em_durations : list (str * Z);
  em_bytes : gmap str Counts;
}.

(** [Shared::new] publishes the limits. *)
Definition shared_new (l : LimitsConfig) : EdgeMetrics :=
  mkEdgeMetrics (gauge_i64 (max_connections l)) (gauge_i64 (max_connections_listener l)) 0 ∅ ∅ ∅ ∅ ∅ ∅ [] 0 [] [] [] ∅.

(** [refused]. *)
Definition count_refused (limit : ListenLimit) (m : EdgeMetrics) : EdgeMetrics :=
  mkEdgeMetrics (em_connections_limit m) (em_listener_connections_limit m) (em_connections_active m)
    (em_listener_active m) (em_accepted m) (em_closed m) (bump (refused_reason limit) 1 (em_rejected m))
    (em_handshakes m) (em_handshake_failures m) (em_tls_connections m) (em_sni_no_cert m)
    (em_accept_waits m) (em_handshake_times m) (em_durations m) (em_bytes m).

(** What tells how long a connection waited to be accepted ([AcceptQueue]),
    if anything does: asked with both ends of the connection. *)
Notation AcceptQueue := (SocketAddr -> SocketAddr -> option Z).

Definition accept_wait (accept_queue : option AcceptQueue) (local peer : SocketAddr) : option Z :=
  match accept_queue with Some waited => waited local peer | None => None end.

(** ** The record of a connection: [conn_record.rs] *)

Definition close_reason (reason : CloseReason) : str :=
  match reason with
  | ClosedByClient => lit "closed"
  | ClosedForDrain => lit "drain"
  | IdleTimeout => lit "idle_timeout"
  | HeaderTimeout => lit "header_timeout"
  | ClientAbort => lit "client_abort"
  | ClientUnresponsive => lit "client_unresponsive"
  | ProtocolError => lit "protocol_error"
  | CloseError => lit "error"
  end.

Definition record_canonical (a : SocketAddr) : SocketAddr := mkSocketAddr (to_canonical (sa_ip a)) (sa_port a).

(** What a connection failed with; it is logged as its text. *)
Inductive ConnError := FailedHandshake (e : HandshakeError) | FailedHttp (e : Causes).

Record ConnRecord := mkConnRecord {
  cr_listener : str;
  cr_client : SocketAddr;
  cr_is_tls : bool;
  cr_opened : Z;
  cr_meter : option Counts;
  cr_tls : option TlsInfo;
  cr_tls_handshake : option Z;
  cr_tls_error : option str;
  cr_accept_wait : option Z;
  cr_requests : Z;
  cr_reason : option str;
  cr_error : option ConnError;
}.

(** [ConnRecord::open]. *)
Definition record_open (accept_queue : option AcceptQueue) (l : Listener) (local client : SocketAddr) (now : Z)
    (m : EdgeMetrics) : EdgeMetrics * ConnRecord :=
  let client := record_canonical client in
  let waited := accept_wait accept_queue (record_canonical local) client in
  (mkEdgeMetrics (em_connections_limit m) (em_listener_connections_limit m) (em_connections_active m + 1)
     (bump (l_id l) 1 (em_listener_active m)) (bump (l_id l) 1 (em_accepted m)) (em_closed m)
     (em_rejected m) (em_handshakes m) (em_handshake_failures m) (em_tls_connections m) (em_sni_no_cert m)
     (em_accept_waits m ++ match waited with Some w => [(l_id l, w)] | None => [] end)
     (em_handshake_times m) (em_durations m) (em_bytes m),
   mkConnRecord (l_id l) client (is_tls l) now None None None None waited 0 None None).

(** [meter]: the counts start at zero; the listener's are the ones its
    connections have added to. *)
Definition record_meter (r : ConnRecord) : ConnRecord :=
  mkConnRecord (cr_listener r) (cr_client r) (cr_is_tls r) (cr_opened r) (Some (mkCounts 0 0)) (cr_tls r)
    (cr_tls_handshake r) (cr_tls_error r) (cr_accept_wait r) (cr_requests r) (cr_reason r) (cr_error r).

(** Bytes that flow: the meter counts them, and tells [ListenerBytes]. *)
Definition flow (read written : Z) (c : Counts) : Counts := add_written written (add_read read c).

Definition listener_bytes (l : str) (m : EdgeMetrics) : Counts := default (mkCounts 0 0) (em_bytes m !! l).

Definition bytes_flow (read written : Z) (r : ConnRecord) (m : EdgeMetrics) : EdgeMetrics * ConnRecord :=
  (mkEdgeMetrics (em_connections_limit m) (em_listener_connections_limit m) (em_connections_active m)
     (em_listener_active m) (em_accepted m) (em_closed m) (em_rejected m) (em_handshakes m)
     (em_handshake_failures m) (em_tls_connections m) (em_sni_no_cert m) (em_accept_waits m)
     (em_handshake_times m) (em_durations m)
     (<[cr_listener r := flow read written (listener_bytes (cr_listener r) m)]> (em_bytes m)),
   mkConnRecord (cr_listener r) (cr_client r) (cr_is_tls r) (cr_opened r) (flow read written <$> cr_meter r)
     (cr_tls r) (cr_tls_handshake r) (cr_tls_error r) (cr_accept_wait r) (cr_requests r) (cr_reason r)
     (cr_error r)).

Definition tls_established (tls : TlsInfo) (elapsed : Z) (r : ConnRecord) (m : EdgeMetrics) :
    EdgeMetrics * ConnRecord :=
  (mkEdgeMetrics (em_connections_limit m) (em_listener_connections_limit m) (em_connections_active m)
     (em_listener_active m) (em_accepted m) (em_closed m) (em_rejected m)
     (bump (lit "ok") 1 (em_handshakes m)) (em_handshake_failures m)
     (em_tls_connections m ++ [(ti_version tls, ti_cipher tls, default (lit "none") (ti_alpn tls), ti_resumed tls)])
     (em_sni_no_cert m) (em_accept_waits m) (em_handshake_times m ++ [elapsed]) (em_durations m) (em_bytes m),
   mkConnRecord (cr_listener r) (cr_client r) (cr_is_tls r) (cr_opened r) (cr_meter r) (Some tls)
     (Some elapsed) (cr_tls_error r) (cr_accept_wait r) (cr_requests r) (cr_reason r) (cr_error r)).

Definition tls_failed (error : HandshakeError) (r : ConnRecord) (m : EdgeMetrics) :
    EdgeMetrics * ConnRecord :=
  let reason := failure_reason error in
  (mkEdgeMetrics (em_connections_limit m) (em_listener_connections_limit m) (em_connections_active m)
     (em_listener_active m) (em_accepted m) (em_closed m) (em_rejected m)
     (bump (lit "failed") 1 (em_handshakes m)) (bump reason 1 (em_handshake_failures m))
     (em_tls_connections m) (em_sni_no_cert m) (em_accept_waits m) (em_handshake_times m) (em_durations m)
     (em_bytes m),
   mkConnRecord (cr_listener r) (cr_client r) (cr_is_tls r) (cr_opened r) (cr_meter r) (cr_tls r)
     (cr_tls_handshake r) (Some reason) (cr_accept_wait r) (cr_requests r)
     (Some (lit "tls_handshake_failed")) (Some (FailedHandshake error))).

Definition tls_timed_out (r : ConnRecord) (m : EdgeMetrics) : EdgeMetrics * ConnRecord :=
  (mkEdgeMetrics (em_connections_limit m) (em_listener_connections_limit m) (em_connections_active m)
     (em_listener_active m) (em_accepted m) (em_closed m)
     (bump (lit "handshake_timeout") 1 (em_rejected m)) (em_handshakes m) (em_handshake_failures m)
     (em_tls_connections m) (em_sni_no_cert m) (em_accept_waits m) (em_handshake_times m) (em_durations m)
     (em_bytes m),
   mkConnRecord (cr_listener r) (cr_client r) (cr_is_tls r) (cr_opened r) (cr_meter r) (cr_tls r)
     (cr_tls_handshake r) (cr_tls_error r) (cr_accept_wait r) (cr_requests r)
     (Some (lit "tls_handshake_timeout")) (cr_error r)).

Definition record_closed (c : Closed) (r : ConnRecord) : ConnRecord :=
  mkConnRecord (cr_listener r) (cr_client r) (cr_is_tls r) (cr_opened r) (cr_meter r) (cr_tls r)
    (cr_tls_handshake r) (cr_tls_error r) (cr_accept_wait r) (cl_requests c)
    (Some (close_reason (cl_reason c))) (FailedHttp <$> cl_error c).

(** The [gfe::conn] event. *)
Record ConnEvent := mkConnEvent {
  ev_record : ConnRecord;
  ev_bytes_in : Z;
  ev_bytes_out : Z;
  ev_duration : Z;
  ev_reason : str;
}.

(** [ConnRecord::drop]. *)
Definition conn_record_drop (now : Z) (panicking : bool) (r : ConnRecord) (m : EdgeMetrics) :
    EdgeMetrics * ConnEvent :=
  let reason := default (if panicking then lit "error" else lit "shutdown") (cr_reason r) in
  let elapsed := saturating_duration_since now (cr_opened r) in
  let '(bytes_in, bytes_out) :=
    match cr_meter r with Some c => (ct_read c, ct_written c) | None => (0, 0) end in
  (mkEdgeMetrics (em_connections_limit m) (em_listener_connections_limit m) (em_connections_active m - 1)
     (bump (cr_listener r) (-1) (em_listener_active m)) (em_accepted m)
     (bump (cr_listener r, reason) 1 (em_closed m)) (em_rejected m) (em_handshakes m)
     (em_handshake_failures m) (em_tls_connections m) (em_sni_no_cert m) (em_accept_waits m)
     (em_handshake_times m) (em_durations m ++ [(cr_listener r, elapsed)]) (em_bytes m),
   mkConnEvent r bytes_in bytes_out elapsed reason).

(** ** The connections of a node *)

Inductive ConnPhase := Handshaking (started : Z) | ServingHttp.

(** How a handshake ends under its timeout. *)
Inductive HandshakeEnd :=
| HandshakeOk (tls : TlsInfo)
| HandshakeErr (e : HandshakeError)
| HandshakeTimeout.

Record EdgeState := mkEdgeState {
  es_metrics : EdgeMetrics;
  es_conns : list (ConnRecord * ConnPhase);
  es_events : list ConnEvent;
}.

Definition edge_start (l : LimitsConfig) : EdgeState := mkEdgeState (shared_new l) [] [].

(** A connection is accepted and served: bytes flow on it, its handshake
    ends, then its HTTP; or its task is dropped, or panics. *)
Inductive EdgeEvent :=
| EdgeAccepts (accept_queue : option AcceptQueue) (l : Listener) (local client : SocketAddr)
| EdgeRefuses (limit : ListenLimit)
| BytesFlow (j : nat) (read written : Z)
| HandshakeEnds (j : nat) (h : HandshakeEnd)
| HttpEnds (j : nat) (c : Closed)
| TaskDropped (j : nat) (panicking : bool).

(** The connection's record, dropped with its task. *)
Definition conn_over (now : Z) (j : nat) (panicking : bool) (r : ConnRecord) (m : EdgeMetrics)
    (s : EdgeState) : EdgeState :=
  let (m, ev) := conn_record_drop now panicking r m in
  mkEdgeState m (delete j (es_conns s)) (es_events s ++ [ev]).

Definition edge_event (now : Z) (ev : EdgeEvent) (s : EdgeState) : option EdgeState :=
  match ev with
  | EdgeAccepts accept_queue l local client =>
      let (m, r) := record_open accept_queue l local client now (es_metrics s) in
      let r := record_meter r in
      Some (mkEdgeState m (es_conns s ++ [(r, if is_tls l then Handshaking now else ServingHttp)]) (es_events s))
  | EdgeRefuses limit =>
      Some (mkEdgeState (count_refused limit (es_metrics s)) (es_conns s) (es_events s))
  | BytesFlow j read written =>
      match es_conns s !! j with
      | Some (r, ph) =>
          let (m, r) := bytes_flow read written r (es_metrics s) in
          Some (mkEdgeState m (<[j := (r, ph)]> (es_conns s)) (es_events s))
      | None => None
      end
  | HandshakeEnds j h =>
      match es_conns s !! j with
      | Some (r, Handshaking started) =>
          match h with
          | HandshakeOk tls =>
              let (m, r) := tls_established tls (saturating_duration_since now started) r (es_metrics s) in
              Some (mkEdgeState m (<[j := (r, ServingHttp)]> (es_conns s)) (es_events s))
          | HandshakeErr e =>
              let (m, r) := tls_failed e r (es_metrics s) in Some (conn_over now j false r m s)
          | HandshakeTimeout =>
              let (m, r) := tls_timed_out r (es_metrics s) in Some (conn_over now j false r m s)
          end
      | _ => None
      end
  | HttpEnds j c =>
      match es_conns s !! j with
      | Some (r, ServingHttp) => Some (conn_over now j false (record_closed c r) (es_metrics s) s)
      | _ => None
      end
  | TaskDropped j panicking =>
      match es_conns s !! j with
      | Some (r, _) => Some (conn_over now j panicking r (es_metrics s) s)
      | None => None
      end
  end.

Inductive edge_reach (l : LimitsConfig) : EdgeState -> Prop :=
| edge_reach_start : edge_reach l (edge_start l)
| edge_reach_step now ev s s' :
    edge_reach l s -> edge_event now ev s = Some s' -> edge_reach l s'.

(** ** Every connection is accounted for, once *)

Definition open_on (l : str) (conns : list (ConnRecord * ConnPhase)) : Z :=
  Z.of_nat (length (keep (fun c => str_eqb (cr_listener c.1) l) conns)).
Definition ended_on (l : str) (events : list ConnEvent) : Z :=
  Z.of_nat (length (keep (fun e => str_eqb (cr_listener (ev_record e)) l) events)).
Definition ended_for (l reason : str) (events : list ConnEvent) : Z :=
  Z.of_nat (length (keep (fun e => str_eqb (cr_listener (ev_record e)) l && str_eqb (ev_reason e) reason) events)).

Definition reasons : list str :=
  [lit "closed"; lit "drain"; lit "idle_timeout"; lit "header_timeout"; lit "client_abort";
   lit "client_unresponsive"; lit "protocol_error"; lit "error"; lit "tls_handshake_failed";
   lit "tls_handshake_timeout"; lit "shutdown"].

(** The sum of [f] over what is [on] a listener. *)
Definition total {A} (on : A -> bool) (f : A -> Z) (xs : list A) : Z := sum_list (f <$> keep on xs).

Definition meter_of (r : ConnRecord) : Counts := default (mkCounts 0 0) (cr_meter r).
Definition ev_counts (e : ConnEvent) : Counts := mkCounts (ev_bytes_in e) (ev_bytes_out e).

(** The bytes one way, or the other. *)
Definition way (side : Counts -> Z) : Prop := side = ct_read \/ side = ct_written.

Definition open_bytes (side : Counts -> Z) (l : str) (conns : list (ConnRecord * ConnPhase)) : Z :=
  total (fun c => str_eqb (cr_listener c.1) l) (fun c => side (meter_of c.1)) conns.
Definition ended_bytes (side : Counts -> Z) (l : str) (events : list ConnEvent) : Z :=
  total (fun e => str_eqb (cr_listener (ev_record e)) l) (fun e => side (ev_counts e)) events.

Record conns_accounted (s : EdgeState) : Prop := {
  ac_active : em_connections_active (es_metrics s) = Z.of_nat (length (es_conns s));
  ac_listener : forall l, value l (em_listener_active (es_metrics s)) = open_on l (es_conns s);
  ac_accepted : forall l, value l (em_accepted (es_metrics s)) =
    ended_on l (es_events s) + open_on l (es_conns s);
  ac_closed : forall l reason, value (l, reason) (em_closed (es_metrics s)) =
    ended_for l reason (es_events s);
  ac_open_reason : Forall (fun c => cr_reason c.1 = None /\ is_Some (cr_meter c.1)) (es_conns s);
  ac_reasons : Forall (fun e => ev_reason e ∈ reasons) (es_events s);
  ac_durations : em_durations (es_metrics s) =
    (fun e => (cr_listener (ev_record e), ev_duration e)) <$> es_events s;
  ac_bytes : forall side l, way side -> wrap64 (side (listener_bytes l (es_metrics s))) =
    wrap64 (ended_bytes side l (es_events s) + open_bytes side l (es_conns s));
}.

Lemma open_on_app l conns c :
  open_on l (conns ++ [c]) = open_on l conns + (if decide (l = cr_listener c.1) then 1 else 0).
Proof.
  unfold open_on. rewrite keep_app, length_app. cbn [keep].
  destruct (str_eqb (cr_listener c.1) l) eqn:E; destruct (decide (l = cr_listener c.1)) as [D|D]; simpl; try lia.
  - apply str_eqb_eq in E. congruence.
  - subst. by rewrite str_eqb_refl in E.
Qed.

Lemma open_on_delete l conns j c :
  conns !! j = Some c ->
  open_on l (delete j conns) = open_on l conns - (if decide (l = cr_listener c.1) then 1 else 0).
Proof.
  intros Hj. rewrite <-(take_drop_middle conns j c Hj) at 2. rewrite delete_take_drop.
  unfold open_on. rewrite !keep_app, !length_app. cbn [keep].
  destruct (str_eqb (cr_listener c.1) l) eqn:E; destruct (decide (l = cr_listener c.1)) as [D|D]; simpl; try lia.
  - apply str_eqb_eq in E. congruence.
  - subst. by rewrite str_eqb_refl in E.
Qed.

Lemma open_on_insert l conns j c c' :
  conns !! j = Some c -> cr_listener c'.1 = cr_listener c.1 ->
  open_on l (<[j := c']> conns) = open_on l conns.
Proof.
  intros Hj Hl. pose proof (lookup_lt_Some _ _ _ Hj).
  rewrite <-(take_drop_middle conns j c Hj) at 2. rewrite insert_take_drop by done.
  unfold open_on. rewrite !keep_app, !length_app. cbn [keep]. rewrite Hl.
  by destruct (str_eqb (cr_listener c.1) l).
Qed.

Lemma total_app {A} on f (xs ys : list A) : total on f (xs ++ ys) = total on f xs + total on f ys.
Proof. unfold total. by rewrite keep_app, fmap_app, sum_list_app. Qed.

Lemma total_one {A} on f (x : A) : total on f [x] = if on x then f x else 0.
Proof. unfold total. cbn [keep]. destruct (on x); cbn; lia. Qed.

Lemma total_delete {A} on f (xs : list A) j x : xs !! j = Some x ->
  total on f (delete j xs) = total on f xs - (if on x then f x else 0).
Proof.
  intros Hj. rewrite <-(take_drop_middle xs j x Hj) at 2. rewrite delete_take_drop.
  change (x :: drop (S j) xs) with ([x] ++ drop (S j) xs). rewrite !total_app, total_one. lia.
Qed.

Lemma total_insert {A} on f (xs : list A) j x y : xs !! j = Some x ->
  total on f (<[j := y]> xs) = total on f xs - (if on x then f x else 0) + (if on y then f y else 0).
Proof.
  intros Hj. pose proof (lookup_lt_Some _ _ _ Hj).
  rewrite <-(take_drop_middle xs j x Hj) at 2. rewrite insert_take_drop by done.
  change (x :: drop (S j) xs) with ([x] ++ drop (S j) xs). change (y :: drop (S j) xs) with ([y] ++ drop (S j) xs).
  rewrite !total_app, !total_one. lia.
Qed.

(** Bytes that flow count once, whichever way they go. *)
Lemma flow_way side read written c :
  way side -> wrap64 (side (flow read written c)) = wrap64 (side c + side (mkCounts read written)).
Proof. intros [->| ->]; unfold flow; cbn; unfold wrap64; by rewrite Z.mod_mod. Qed.

(** What the drop of a record does, whatever its reason. *)
Lemma conn_over_accounted now j (panicking : bool) r r0 ph m s :
  conns_accounted s -> es_conns s !! j = Some (r0, ph) -> cr_listener r = cr_listener r0 ->
  cr_meter r = cr_meter r0 ->
  default (if panicking then lit "error" else lit "shutdown") (cr_reason r) ∈ reasons ->
  em_connections_active m = em_connections_active (es_metrics s) ->
  em_listener_active m = em_listener_active (es_metrics s) ->
  em_accepted m = em_accepted (es_metrics s) -> em_closed m = em_closed (es_metrics s) ->
  em_durations m = em_durations (es_metrics s) -> em_bytes m = em_bytes (es_metrics s) ->
  conns_accounted (conn_over now j panicking r m s).
Proof.
  intros [] Hj Hl Hme Hr M1 M2 M3 M4 M5 M6. pose proof (lookup_lt_Some _ _ _ Hj).
  unfold conn_over, conn_record_drop. set (reason := default _ (cr_reason r)) in *.
  assert (match cr_meter r with Some c => (ct_read c, ct_written c) | None => (0, 0) end =
          (ct_read (meter_of r0), ct_written (meter_of r0))) as ->
    by (unfold meter_of; rewrite Hme; by destruct (cr_meter r0)).
  assert (Hd : forall l, open_on l (delete j (es_conns s)) =
    open_on l (es_conns s) - (if decide (l = cr_listener r) then 1 else 0)).
  { intros l. rewrite (open_on_delete l _ j _ Hj). by rewrite Hl. }
  constructor; simpl.
  - rewrite M1, ac_active0, length_delete by eauto. lia.
  - intros l. rewrite M2, value_bump, ac_listener0, Hd. case_decide; lia.
  - intros l. rewrite M3, ac_accepted0, Hd. unfold ended_on. rewrite keep_app, length_app. simpl.
    destruct (str_eqb (cr_listener r) l) eqn:E; destruct (decide (l = cr_listener r)) as [D|D]; simpl; try lia.
    + apply str_eqb_eq in E. congruence.
    + subst. by rewrite str_eqb_refl in E.
  - intros l why. rewrite M4, value_bump, ac_closed0. unfold ended_for. rewrite keep_app, length_app. simpl.
    destruct (str_eqb (cr_listener r) l && str_eqb reason why) eqn:E; case_decide as D; simpl; try lia.
    + bool_facts. rewrite !str_eqb_eq in *. destruct D. congruence.
    + injection D as -> ->. by rewrite !str_eqb_refl in E.
  - by apply Forall_delete.
  - apply Forall_app. split; [done|]. by constructor.
  - by rewrite M5, ac_durations0, fmap_app.
  - intros side l Hw. specialize (ac_bytes0 side l Hw). unfold listener_bytes in *. cbn [em_bytes].
    rewrite M6, ac_bytes0.
    unfold ended_bytes, open_bytes. rewrite total_app, total_one, (total_delete _ _ _ _ _ Hj). cbn [ev_record fst].
    rewrite Hl. destruct (str_eqb (cr_listener r0) l); f_equal; [|lia].
    destruct Hw as [->| ->]; cbn; lia.
Qed.

Lemma close_reason_known reason : close_reason reason ∈ reasons.
Proof. apply (bool_decide_unpack _). destruct reason; vm_compute; exact I. Qed.

(** A connection whose record changes, not its listener nor its bytes. *)
Lemma conn_kept_accounted j r r' ph ph' m s :
  conns_accounted s -> es_conns s !! j = Some (r, ph) -> cr_listener r' = cr_listener r ->
  cr_reason r' = None -> is_Some (cr_meter r') ->
  em_connections_active m = em_connections_active (es_metrics s) ->
  em_listener_active m = em_listener_active (es_metrics s) ->
  em_accepted m = em_accepted (es_metrics s) -> em_closed m = em_closed (es_metrics s) ->
  em_durations m = em_durations (es_metrics s) ->
  (forall side l, way side -> wrap64 (side (listener_bytes l m)) = wrap64 (side (listener_bytes l (es_metrics s)) +
     if str_eqb (cr_listener r) l then side (meter_of r') - side (meter_of r) else 0)) ->
  conns_accounted (mkEdgeState m (<[j := (r', ph')]> (es_conns s)) (es_events s)).
Proof.
  intros [] Hj Hl Hr Hme M1 M2 M3 M4 M5 M6. constructor; simpl.
  - by rewrite M1, length_insert.
  - intros l. rewrite M2, ac_listener0. symmetry. by eapply open_on_insert.
  - intros l. rewrite M3, ac_accepted0. f_equal. symmetry. by eapply open_on_insert.
  - intros l why. by rewrite M4.
  - by apply Forall_insert.
  - done.
  - by rewrite M5.
  - intros side l Hw. rewrite M6 by done. rewrite (wrap64_add _ _ _ (ac_bytes0 side l Hw)).
    unfold open_bytes. rewrite (total_insert _ _ _ _ _ _ Hj). cbn [fst]. rewrite Hl.
    f_equal. destruct (str_eqb (cr_listener r) l); lia.
Qed.

Lemma accepts_accounted now accept_queue l local client s s' :
  conns_accounted s -> edge_event now (EdgeAccepts accept_queue l local client) s = Some s' -> conns_accounted s'.
Proof.
  intros [] [= <-]. constructor; simpl; try done.
  - rewrite ac_active0, length_app. simpl. lia.
  - intros k. rewrite value_bump, ac_listener0, open_on_app. simpl. done.
  - intros k. rewrite value_bump, ac_accepted0, open_on_app. simpl. case_decide; lia.
  - apply Forall_app. split; [done|]. by repeat constructor.
  - intros side k Hw. unfold listener_bytes in *. cbn [em_bytes]. rewrite ac_bytes0 by done.
    unfold open_bytes. rewrite total_app, total_one. cbn. f_equal.
    destruct Hw as [->| ->]; destruct (str_eqb (l_id l) k); cbn; lia.
Qed.

Lemma flows_accounted now j read written s s' :
  conns_accounted s -> edge_event now (BytesFlow j read written) s = Some s' -> conns_accounted s'.
Proof.
  intros Hs Hev. pose proof Hs as []. simpl in Hev. destruct (es_conns s !! j) as [[r ph]|] eqn:Hj; [|done].
  destruct (Forall_lookup_1 _ _ _ _ ac_open_reason0 Hj) as [Hn [c Hc]]. cbn in Hn, Hc. injection Hev as <-.
  eapply conn_kept_accounted; try done; cbn [cr_meter]; [rewrite Hc; by eexists|].
  intros side l Hw. unfold listener_bytes, meter_of. cbn. rewrite Hc. cbn.
  destruct (str_eqb (cr_listener r) l) eqn:E.
  - apply str_eqb_eq in E as <-. rewrite lookup_insert, decide_True by done. cbn. rewrite flow_way by done.
    pose proof (flow_way side read written c Hw) as Hf. rewrite (Z.add_comm (side _)), (Z.add_comm (side _) (_ - _)).
    apply wrap64_add. unfold wrap64 in *.
    rewrite Zminus_mod, Hf, <-Zminus_mod. f_equal. lia.
  - rewrite lookup_insert_ne by (intros D; rewrite D, str_eqb_refl in E; discriminate E). by rewrite Z.add_0_r.
Qed.

Lemma edge_event_accounted now ev s s' :
  conns_accounted s -> edge_event now ev s = Some s' -> conns_accounted s'.
Proof.
  intros Hs Hev. pose proof Hs as [].
  assert (Hmem : forall t, bool_decide (t ∈ reasons) = true -> t ∈ reasons)
    by (intros t Ht; by apply bool_decide_eq_true_1 in Ht).
  destruct ev as [q l local client|limit|j read written|j h|j c|j panicking].
  - by eapply accepts_accounted.
  - injection Hev as <-. by constructor.
  - by eapply flows_accounted.
  - simpl in Hev. destruct (es_conns s !! j) as [[r [started|]]|] eqn:Hj; try done.
    destruct (Forall_lookup_1 _ _ _ _ ac_open_reason0 Hj) as [Hn Hme]. cbn in Hn, Hme.
    destruct h as [tls|e|]; injection Hev as <-.
    + eapply conn_kept_accounted; try done. intros side l _. rewrite Z.sub_diag. case_if; by rewrite Z.add_0_r.
    + eapply conn_over_accounted; try done. by apply Hmem.
    + eapply conn_over_accounted; try done. by apply Hmem.
  - simpl in Hev. destruct (es_conns s !! j) as [[r [|]]|] eqn:Hj; try done. injection Hev as <-.
    eapply conn_over_accounted; try done. apply close_reason_known.
  - simpl in Hev. destruct (es_conns s !! j) as [[r ph]|] eqn:Hj; try done. injection Hev as <-.
    destruct (Forall_lookup_1 _ _ _ _ ac_open_reason0 Hj) as [Hn _]. cbn in Hn.
    eapply conn_over_accounted; try done. simpl. rewrite Hn. destruct panicking; by apply Hmem.
Qed.

(** C32: Every client connection is accounted for exactly once, however it
    ends: by itself, at its handshake, cut at the drain deadline or by a
    panic. At any time the gauges are the connections still open, in all and
    by listener; the connections accepted on a listener are those open plus
    those reported; those closed for a reason are the events that report it;
    each one's duration was observed once; the bytes of a listener, told of
    as they flow, are those its open connections have moved plus those
    reported; and every reason is one of the eleven documented. *)
Theorem connections_accounted limits s :
  edge_reach limits s ->
  em_connections_active (es_metrics s) = Z.of_nat (length (es_conns s)) /\
  (forall l, value l (em_listener_active (es_metrics s)) = open_on l (es_conns s)) /\
  (forall l, value l (em_accepted (es_metrics s)) =
     open_on l (es_conns s) + ended_on l (es_events s)) /\
  (forall l reason, value (l, reason) (em_closed (es_metrics s)) = ended_for l reason (es_events s)) /\
  em_durations (es_metrics s) = (fun e => (cr_listener (ev_record e), ev_duration e)) <$> es_events s /\
  (forall side l, way side -> wrap64 (side (listener_bytes l (es_metrics s))) =
     wrap64 (open_bytes side l (es_conns s) + ended_bytes side l (es_events s))) /\
  (forall e, e ∈ es_events s -> ev_reason e ∈ reasons).
Proof.
  intros Hr. assert (Ha : conns_accounted s).
  { induction Hr as [|now ev s s' _ IH Hev]; [|by eapply edge_event_accounted].
    constructor; try done; simpl; try constructor. by intros side l [->| ->]. }
  destruct Ha. split_and!; try done.
  - intros l. rewrite ac_accepted0. lia.
  - intros side l Hw. rewrite ac_bytes0 by done. f_equal. lia.
  - by apply Forall_forall.
Qed.

(** ** The options of every node config *)

Lemma parse_duration_micros s d :
  parse_duration s = Ok d -> exists n, 0 <= n /\ d = n * NANOS_PER_MICRO.
Proof.
  intros (n & Hn & [->|[->| ->]])%parse_duration_cases;
    unfold from_secs, from_millis, from_micros, NANOS_PER_SEC, NANOS_PER_MILLI, NANOS_PER_MICRO.
  - exists (n * 1000000). lia.
  - exists (n * 1000). lia.
  - exists n. lia.
Qed.

(** A duration that was not zero leaves a quarter, and a half, that are not. *)
Lemma fraction_nonzero k n :
  0 < k <= 4 -> 0 <= n -> n * NANOS_PER_MICRO <> 0 -> 0 < n * NANOS_PER_MICRO / k.
Proof.
  unfold NANOS_PER_MICRO. intros Hk Hn H0. apply Z.div_str_pos. lia.
Qed.

Lemma max_second d :
  Z.max d (from_secs 1) / NANOS_PER_SEC = Z.max 1 (d / NANOS_PER_SEC).
Proof.
  unfold from_secs, NANOS_PER_SEC. destruct (Z.max_spec d (1 * 1000000000)) as [[H ->]|[H ->]].
  - assert (d / 1000000000 < 1) by (apply Z.div_lt_upper_bound; lia). rewrite Z.div_mul; lia.
  - assert (1 <= d / 1000000000) by (apply Z.div_le_lower_bound; lia). lia.
Qed.

(** The options of every accepted config are well formed and valid. *)
Lemma accepted_options c header idle deadline (t := nc_timeouts c) :
  validate_node_config c = Ok () ->
  parse_duration header = Ok (request_header t) ->
  parse_duration idle = Ok (client_idle t) ->
  parse_duration deadline = Ok (drain_deadline t) ->
  let o := http_options t (nc_limits c) in
  new_edge t (nc_limits c) = Ok o /\ options_typed o /\ options_validate o = Ok ().
Proof.
  intros (Hb & [(_ & _ & Hs & _) (_ & Hh & _ & _ & _ & Hi & Hd)]%validate_limits_iff & _)%validate_node_limits.
  intros (h & Hh0 & Eh)%parse_duration_micros (i & Hi0 & Ei)%parse_duration_micros
    (d & Hd0 & Ed)%parse_duration_micros.
  fold t in Hh, Hi, Hd. simpl.
  assert (0 < client_idle t / 4) by (rewrite Ei in *; by apply fraction_nonzero).
  assert (0 < drain_deadline t / 2) by (rewrite Ed in *; by apply fraction_nonzero).
  assert (Hv : options_validate (http_options t (nc_limits c)) = Ok ()).
  { apply options_validate_ok. simpl. unfold SERVER_MIN_HEADER_BYTES, MIN_HEADER_BYTES in *. lia. }
  unfold new_edge. rewrite Hv. split_and!; [done| |done].
  unfold options_typed, NANOS_PER_MICRO in *. simpl. lia.
Qed.

Lemma tcp_keepalive_taken client_idle (k := tcp_keepalive client_idle) :
  keep_alive (tk_idle k) (tk_interval k) (tk_probes k) =
    Ok (Z.max 1 (client_idle / NANOS_PER_SEC), Z.max 1 (client_idle / 4 / NANOS_PER_SEC), 3).
Proof.
  unfold k, keep_alive, tcp_keepalive, KEEPALIVE_PROBES. cbn [tk_idle tk_interval tk_probes].
  rewrite !(proj2 (Z.ltb_ge _ _)) by lia. cbn [orb Z.eqb]. by rewrite !max_second.
Qed.

(** A socket the kernel does not refuse is probed: the times passed are never
    refused before they reach it. *)
Lemma keepalive_set set_nodelay t :
  (set_socket_options set_nodelay true t).2 =
  Some (Z.max 1 (client_idle t / NANOS_PER_SEC),
        Z.max 1 (client_idle t / 4 / NANOS_PER_SEC), KEEPALIVE_PROBES).
Proof. unfold set_socket_options. by rewrite tcp_keepalive_taken. Qed.

(** A node whose config is accepted can serve: the options its
    connections are served with are well formed and pass the server's own
    validation, whatever durations were read, and the keepalive its sockets
    are given is one the system takes, a whole number of seconds that is
    never zero. *)
Theorem accepted_config_serves c header idle deadline (t := nc_timeouts c) :
  validate_node_config c = Ok () ->
  parse_duration header = Ok (request_header t) ->
  parse_duration idle = Ok (client_idle t) ->
  parse_duration deadline = Ok (drain_deadline t) ->
  exists o, new_edge t (nc_limits c) = Ok o /\ options_typed o /\ options_validate o = Ok () /\
  let k := tcp_keepalive (client_idle t) in
  keep_alive (tk_idle k) (tk_interval k) (tk_probes k) =
    Ok (Z.max 1 (client_idle t / NANOS_PER_SEC), Z.max 1 (client_idle t / 4 / NANOS_PER_SEC), 3).
Proof.
  intros Hc Hh Hi Hd. destruct (accepted_options c header idle deadline Hc Hh Hi Hd) as (Ho & Ht & Hv).
  eexists. split_and!; [exact Ho|done|done|]. apply tcp_keepalive_taken.
Qed.

(** ** The misses of the certificate resolver: [export_sni_misses]

    The atomics of many calls at once. A call reads the resolver's count,
    moves the mark up to it ([fetch_max], which returns what the mark was),
    and counts the difference. A relaxed read may be of an earlier count. *)

Inductive ExportCall := MissesRead (misses : Z) | MarkMoved (misses exported : Z).

Record SniMisses := mkSniMisses {
  sm_resolver : Z;
  sm_exported : Z;
  sm_metric : Z;
  sm_calls : list ExportCall;
  sm_read : Z;
}.

Definition sni_start : SniMisses := mkSniMisses 0 0 0 [] 0.

Inductive SniEvent :=
| SniMissed
| ExportReads (misses : Z)
| ExportMarks (j : nat)
| ExportCounts (j : nat).

(** [sm_read] is the highest count a call has read. *)
Definition sni_event (ev : SniEvent) (s : SniMisses) : option SniMisses :=
  let (resolver, exported, metric, calls, read) := s in
  match ev with
  | SniMissed => Some (mkSniMisses (resolver + 1) exported metric calls read)
  | ExportReads misses =>
      if (0 <=? misses) && (misses <=? resolver)
      then Some (mkSniMisses resolver exported metric (calls ++ [MissesRead misses]) (Z.max read misses))
      else None
  | ExportMarks j =>
      match calls !! j with
      | Some (MissesRead misses) =>
          Some (mkSniMisses resolver (Z.max exported misses) metric
                  (<[j := MarkMoved misses exported]> calls) read)
      | _ => None
      end
  | ExportCounts j =>
      match calls !! j with
      | Some (MarkMoved misses exported0) =>
          let metric := if exported0 <? misses then metric + (misses - exported0) else metric in
          Some (mkSniMisses resolver exported metric (delete j calls) read)
      | _ => None
      end
  end.

Inductive sni_reach : SniMisses -> Prop :=
| sni_reach_start : sni_reach sni_start
| sni_reach_step ev s s' : sni_reach s -> sni_event ev s = Some s' -> sni_reach s'.

(** What a call has yet to count, and how far it has yet to move the mark. *)
Definition owes (c : ExportCall) : Z :=
  match c with MissesRead _ => 0 | MarkMoved misses exported => Z.max 0 (misses - exported) end.
Definition owed (calls : list ExportCall) : Z := foldr (fun c n => owes c + n) 0 calls.
Definition unmarked (calls : list ExportCall) : Z :=
  foldr (fun c n => match c with MissesRead m => Z.max m n | MarkMoved _ _ => n end) 0 calls.

Lemma owed_app l k : owed (l ++ k) = owed l + owed k.
Proof. unfold owed. induction l; simpl; lia. Qed.

Lemma unmarked_app l k : unmarked (l ++ k) = Z.max (unmarked l) (unmarked k).
Proof.
  assert (forall k, 0 <= unmarked k) as Hk by (intros x; induction x as [|[]]; simpl; lia).
  pose proof (Hk k). unfold unmarked in *. induction l as [|[] l IH]; simpl; lia.
Qed.

Record sni_inv (s : SniMisses) : Prop := {
  sn_owed : sm_metric s + owed (sm_calls s) = sm_exported s;
  sn_read : sm_read s = Z.max (sm_exported s) (unmarked (sm_calls s));
  sn_within : 0 <= sm_exported s /\ sm_read s <= sm_resolver s;
}.

Lemma owed_nonneg l : 0 <= owed l.
Proof. unfold owed. induction l as [|[]]; simpl; lia. Qed.

Lemma sni_event_inv ev s s' : sni_inv s -> sni_event ev s = Some s' -> sni_inv s'.
Proof.
  intros [Ho Hr [Hw1 Hw2]] Hev. destruct s as [resolver exported metric calls read]. simpl in *.
  destruct ev as [|misses|j|j]; simpl in Hev.
  - injection Hev as <-. constructor; simpl; lia.
  - case_match; bool_facts; [|done]. injection Hev as <-.
    constructor; simpl; rewrite ?owed_app, ?unmarked_app; simpl; lia.
  - destruct (calls !! j) as [[misses|]|] eqn:Hj; try done. injection Hev as <-.
    pose proof (lookup_lt_Some _ _ _ Hj). rewrite <-(take_drop_middle calls j _ Hj) in Ho, Hr.
    rewrite owed_app in Ho. rewrite unmarked_app in Hr.
    constructor; simpl; rewrite ?insert_take_drop by done; rewrite ?owed_app, ?unmarked_app; simpl in *; lia.
  - destruct (calls !! j) as [[|misses exported0]|] eqn:Hj; try done. injection Hev as <-.
    rewrite <-(take_drop_middle calls j _ Hj) in Ho, Hr.
    rewrite owed_app in Ho. rewrite unmarked_app in Hr.
    constructor; simpl; rewrite ?delete_take_drop, ?owed_app, ?unmarked_app; simpl in *;
      try case_match; bool_facts; lia.
Qed.

(** Many connections exporting the resolver's misses at once count none
    twice and lose none: the metric never exceeds the resolver's count, and
    whenever no export is under way it is the highest count any of them
    read. *)
Theorem sni_misses_exact s :
  sni_reach s ->
  sm_metric s <= sm_resolver s /\
  (sm_calls s = [] -> sm_metric s = sm_read s).
Proof.
  intros Hr. assert (Hi : sni_inv s).
  { induction Hr as [|ev s s' _ IH Hev]; [constructor; simpl; lia|by eapply sni_event_inv]. }
  destruct Hi as [Ho Hrd [Hw1 Hw2]]. pose proof (owed_nonneg (sm_calls s)).
  split; [lia|]. intros E. rewrite E in *. simpl in *. lia.
Qed.

(** ** A connection that leaves a draining node beside one still served *)

Fixpoint edge_history (evs : list (Z * EdgeEvent)) (s : EdgeState) : option EdgeState :=
  match evs with
  | [] => Some s
  | (now, ev) :: evs =>
      match edge_event now ev s with Some s' => edge_history evs s' | None => None end
  end.

Lemma edge_history_reach l evs s s' :
  edge_reach l s -> edge_history evs s = Some s' -> edge_reach l s'.
Proof.
  revert s. induction evs as [|[now ev] evs IH]; intros s Hs; simpl; [by intros [= <-]|].
  destruct (edge_event now ev s) as [s1|] eqn:E; [|done]. apply IH. by econstructor.
Qed.

Fixpoint sni_history (evs : list SniEvent) (s : SniMisses) : option SniMisses :=
  match evs with
  | [] => Some s
  | ev :: evs => match sni_event ev s with Some s' => sni_history evs s' | None => None end
  end.

Lemma sni_history_reach evs s s' : sni_reach s -> sni_history evs s = Some s' -> sni_reach s'.
Proof.
  revert s. induction evs as [|ev evs IH]; intros s Hs; simpl; [by intros [= <-]|].
  destruct (sni_event ev s) as [s1|] eqn:E; [|done]. apply IH. by econstructor.
Qed.

(** Two exports that read different counts and mark them in the other order. *)
Definition racing_exports : list SniEvent :=
  [SniMissed; ExportReads 1; SniMissed; ExportReads 2; ExportMarks 1; ExportMarks 0;
   ExportCounts 0; ExportCounts 0].

Definition raced : SniMisses := Eval vm_compute in default sni_start (sni_history racing_exports sni_start).

Lemma sni_misses_exact_witness : sm_resolver raced = 2 /\ sm_metric raced = 2.
Proof.
  destruct (sni_misses_exact raced) as [_ H].
  - apply (sni_history_reach racing_exports sni_start); [apply sni_reach_start|reflexivity].
  - exact (conj eq_refl (H eq_refl)).
Defined.

Definition example_http : Listener := mkListener (lit "w") (V4 [0; 0; 0; 0]) 80 ListenHttp.
Definition example_client : SocketAddr := mkSocketAddr (V4 [10; 0; 0; 7]) 50000.

Definition edge_morning : list (Z * EdgeEvent) :=
  [(0, EdgeAccepts None example_http example_client example_client);
   (1, EdgeAccepts None example_http example_client example_client);
   (2, BytesFlow 0 5 7); (2, BytesFlow 1 20 0);
   (3, HttpEnds 0 (mkClosed ClosedForDrain 3 None))].

Definition one_left : EdgeState :=
  Eval vm_compute in default (edge_start limits_default) (edge_history edge_morning (edge_start limits_default)).

Lemma connections_accounted_witness :
  em_connections_active (es_metrics one_left) = 1 /\
  value (lit "w") (em_accepted (es_metrics one_left)) = 2 /\
  value (lit "w", lit "drain") (em_closed (es_metrics one_left)) = 1 /\
  wrap64 (ct_read (listener_bytes (lit "w") (es_metrics one_left))) = 25.
Proof.
  destruct (connections_accounted limits_default one_left) as (Ha & _ & Hb & Hc & _ & Hd & _).
  - apply (edge_history_reach limits_default edge_morning (edge_start limits_default));
      [apply edge_reach_start|vm_compute; reflexivity].
  - split; [exact Ha|]. split; [rewrite (Hb (lit "w"))|split; [rewrite (Hc (lit "w") (lit "drain"))|
      rewrite (Hd ct_read (lit "w") (or_introl eq_refl))]]; vm_compute; reflexivity.
Defined.

(** The shortest timeouts a config can ask for. *)
Definition hasty_node : NodeConfig :=
  mkNodeConfig (mkNodeSection (lit "n1") None default_metrics_addr 1)
    (mkControlPlaneConfig (lit "routes.json") None default_reload_debounce)
    (mkTlsConfig Tls12 [] None) limits_default
    (mkTimeoutsConfig 1000 1000 1000 1000 1000 1000 1000)
    upstream_config_default None (mkLogConfig None) health_check_default.

Lemma accepted_config_serves_witness :
  exists o, new_edge (nc_timeouts hasty_node) limits_default = Ok o /\ so_keep_alive_timeout o = 250.
Proof.
  destruct (accepted_config_serves hasty_node (lit "1us") (lit "1us") (lit "1us")) as (o & Ho & _);
    try (vm_compute; reflexivity).
  exists o. split; [exact Ho|]. vm_compute in Ho. injection Ho as <-. vm_compute. reflexivity.
Defined.
