(* ===== verification/Kernel.v ===== *)
(** * The kernel's view of connections: [lib/kernel], [gfe/proxy/src/kernel.rs]

    The program the kernel runs ([bpf/tcp_events.bpf.c]), whose records are
    laid out as C lays them out; what user space reads of them byte by byte
    ([wire.rs]); the reader of closed connections and the capabilities looked
    at before attaching ([linux.rs]), and what stands in for them on other
    systems ([unsupported.rs]); and what the proxy counts of a closed
    connection ([kernel.rs]).

    What the kernel calls the program with is a [SockOps], whose fields are
    as [linux/bpf.h] documents them ([describes]). Memory is a list of bytes,
    each an integer. *)

From S2P Require Import Prelude Str Net IpText Text Listen Accept.
From Stdlib Require Import Ascii.

(** ** Little-endian integers and C layouts *)

Fixpoint to_le (width : nat) (n : Z) : list Z :=
  match width with O => [] | S w => n mod 256 :: to_le w (n / 256) end.

Definition of_le (bytes : list Z) : Z := foldr (fun b n => b + 256 * n) 0 bytes.

(** A structure: each field at the next multiple of its alignment, zeros
    between, as in memory that was cleared before. *)
Fixpoint lay_out (offset : nat) (fields : list (nat * list Z)) : list Z :=
  match fields with
  | [] => []
  | (align, bytes) :: fields =>
      let pad := ((align - offset mod align) mod align)%nat in
      replicate pad 0 ++ bytes ++ lay_out (offset + pad + length bytes) fields
  end.

(** [bytes.get(from..to)]. *)
Definition get_range (from to : nat) (bytes : list Z) : option (list Z) :=
  if decide (from <= to <= length bytes)%nat then Some (take (to - from) (drop from bytes)) else None.

(** ** The kernel program: [tcp_events.bpf.c] *)

Record ConnKey := mkConnKey {
  ck_local_addr : list Z;
  ck_peer_addr : list Z;
  ck_local_port : Z;
  ck_peer_port : Z;
}.

Definition conn_key_bytes (k : ConnKey) : list Z :=
  lay_out 0 [(1%nat, ck_local_addr k); (1%nat, ck_peer_addr k);
             (2%nat, to_le 2 (ck_local_port k)); (2%nat, to_le 2 (ck_peer_port k))].

Record ConnOpen := mkConnOpen { co_established_ns : Z; co_accepted : Z }.

Definition conn_open_bytes (o : ConnOpen) : list Z :=
  lay_out 0 [(8%nat, to_le 8 (co_established_ns o)); (1%nat, to_le 1 (co_accepted o));
             (1%nat, replicate 7 0)].

Record ConnClosed := mkConnClosed {
  cc_key : ConnKey;
  cc_accepted : Z;
  cc_state_before_close : Z;
  cc_srtt_us : Z;
  cc_min_rtt_us : Z;
  cc_retransmits : Z;
  cc_segments_out : Z;
  cc_established_ns : Z;
  cc_closed_ns : Z;
  cc_bytes_acked : Z;
  cc_bytes_received : Z;
}.

Definition conn_closed_bytes (c : ConnClosed) : list Z :=
  lay_out 0 [(2%nat, conn_key_bytes (cc_key c)); (1%nat, to_le 1 (cc_accepted c));
             (1%nat, to_le 1 (cc_state_before_close c)); (2%nat, to_le 2 0);
             (4%nat, to_le 4 (cc_srtt_us c)); (4%nat, to_le 4 (cc_min_rtt_us c));
             (4%nat, to_le 4 (cc_retransmits c)); (4%nat, to_le 4 (cc_segments_out c));
             (8%nat, to_le 8 (cc_established_ns c)); (8%nat, to_le 8 (cc_closed_ns c));
             (8%nat, to_le 8 (cc_bytes_acked c)); (8%nat, to_le 8 (cc_bytes_received c))].

Inductive SockOp := PassiveEstablished | ActiveEstablished | StateCb | OtherOp.

(** What the program is called with. *)
Record SockOps := mkSockOps {
  so_op : SockOp;
  so_family : Z;
  so_args0 : Z;
  so_args1 : Z;
  so_local_ip4 : Z;
  so_remote_ip4 : Z;
  so_local_ip6 : list Z;
  so_remote_ip6 : list Z;
  so_local_port : Z;
  so_remote_port : Z;
  so_cb_flags : Z;
  so_srtt_us : Z;
  so_rtt_min : Z;
  so_total_retrans : Z;
  so_segs_out : Z;
  so_bytes_acked : Z;
  so_bytes_received : Z;
}.

Definition AF_INET : Z := 2.
Definition AF_INET6 : Z := 10.

(** [__builtin_bswap32]. *)
Definition bswap32 (n : Z) : Z := of_le (rev (to_le 4 n)).

Definition mapped_prefix : list Z := replicate 10 0 ++ [255; 255].

Definition fill_key (ctx : SockOps) : ConnKey :=
  let (local_addr, peer_addr) :=
    if so_family ctx =? AF_INET
    then (mapped_prefix ++ to_le 4 (so_local_ip4 ctx), mapped_prefix ++ to_le 4 (so_remote_ip4 ctx))
    else (concat (to_le 4 <$> so_local_ip6 ctx), concat (to_le 4 <$> so_remote_ip6 ctx)) in
  mkConnKey local_addr peer_addr (so_local_port ctx mod 2 ^ 16) (bswap32 (so_remote_port ctx) mod 2 ^ 16).

(** The maps of the program, and what it was called back for: the sockets
    whose changes of state it asked to see are the kernel's to remember. *)
Record Bpf := mkBpf {
  bp_open_conns : gmap (list Z) ConnOpen;
  bp_closed_conns : list (list Z);
  bp_lost : Z;
}.

Section Program.
(** Numbers of [linux/bpf.h]. *)
Context (BPF_TCP_CLOSE BPF_SOCK_OPS_STATE_CB_FLAG : Z).

(** The program called at [now], with the ring [full] or not: its maps, and
    the callback flags it sets. *)
Definition tcp_events (now : Z) (full : bool) (ctx : SockOps) (s : Bpf) : Bpf * option Z :=
  if negb (so_family ctx =? AF_INET) && negb (so_family ctx =? AF_INET6) then (s, None) else
  let established (accepted : Z) :=
    let open := mkConnOpen now accepted in
    (mkBpf (<[conn_key_bytes (fill_key ctx) := open]> (bp_open_conns s)) (bp_closed_conns s) (bp_lost s),
     Some (Z.lor (so_cb_flags ctx) BPF_SOCK_OPS_STATE_CB_FLAG)) in
  match so_op ctx with
  | PassiveEstablished => established 1
  | ActiveEstablished => established 0
  | StateCb =>
      if negb (so_args1 ctx =? BPF_TCP_CLOSE) then (s, None) else
      let key := conn_key_bytes (fill_key ctx) in
      match bp_open_conns s !! key with
      | None => (s, None)
      | Some open =>
          let closed := mkConnClosed (fill_key ctx) (co_accepted open) (so_args0 ctx mod 2 ^ 8)
            (Z.shiftr (so_srtt_us ctx) 3) (so_rtt_min ctx) (so_total_retrans ctx) (so_segs_out ctx)
            (co_established_ns open) now (so_bytes_acked ctx) (so_bytes_received ctx) in
          (mkBpf (delete key (bp_open_conns s))
             (if full then bp_closed_conns s else bp_closed_conns s ++ [conn_closed_bytes closed])
             (if full then wrap64 (bp_lost s + 1) else bp_lost s), None)
      end
  | OtherOp => (s, None)
  end.

(** What happens to the maps: the program runs, or the table, which forgets
    the connections not used for longest when it is full, forgets one. *)
Inductive BpfEvent :=
| BpfRuns (now : Z) (full : bool) (ctx : SockOps)
| BpfEvicts (key : list Z).

Definition bpf_event (s : Bpf) (ev : BpfEvent) : Bpf :=
  match ev with
  | BpfRuns now full ctx => (tcp_events now full ctx s).1
  | BpfEvicts key => mkBpf (delete key (bp_open_conns s)) (bp_closed_conns s) (bp_lost s)
  end.
End Program.

(** ** What user space reads: [wire.rs] *)

Definition KEY_LEN : nat := 36.
Definition OPEN_LEN : nat := 16.
Definition CLOSED_LEN : nat := 88.

(** [Ipv6Addr::octets] and back. *)
Definition v6_octets (segments : list Z) : list Z := concat ((fun s => [s / 256; s mod 256]) <$> segments).
Fixpoint v6_of (octets : list Z) : list Z :=
  match octets with
  | a :: b :: octets => a * 256 + b :: v6_of octets
  | _ => []
  end.

Definition address_bytes (ip : IpAddr) : list Z :=
  match ip with V4 octets => mapped_prefix ++ octets | V6 segments => v6_octets segments end.

Definition encode_key (local peer : SocketAddr) : list Z :=
  address_bytes (sa_ip local) ++ address_bytes (sa_ip peer) ++
  to_le 2 (sa_port local) ++ to_le 2 (sa_port peer).

Definition decode_key (key : list Z) : option (SocketAddr * SocketAddr) :=
  let address bytes :=
    if decide (length bytes = 16%nat) then Some (to_canonical (V6 (v6_of bytes))) else None in
  let port bytes := if decide (length bytes = 2%nat) then Some (of_le bytes) else None in
  local ← get_range 0 16 key ≫= address;
  local_port ← get_range 32 34 key ≫= port;
  peer ← get_range 16 32 key ≫= address;
  peer_port ← get_range 34 36 key ≫= port;
  Some (mkSocketAddr local local_port, mkSocketAddr peer peer_port).

Definition u32_at (bytes : list Z) (offset : nat) : option Z :=
  of_le <$> get_range offset (offset + 4) bytes.
Definition u64_at (bytes : list Z) (offset : nat) : option Z :=
  of_le <$> get_range offset (offset + 8) bytes.

Definition established_ns (open : list Z) : Z := of_le (take 8 open).

Inductive Origin := OriginAccepted | OriginConnected.
Inductive Ending := PeerClosed | NodeClosed | Aborted | OtherEnding.

#[export] Instance Ending_eq_dec : EqDecision Ending.
Proof. solve_decision. Defined.

Definition TCP_ESTABLISHED : Z := 1.
Definition TCP_FIN_WAIT1 : Z := 4.
Definition TCP_FIN_WAIT2 : Z := 5.
Definition TCP_TIME_WAIT : Z := 6.
Definition TCP_CLOSE_WAIT : Z := 8.
Definition TCP_LAST_ACK : Z := 9.
Definition TCP_CLOSING : Z := 11.

Definition ending (state_before_close : Z) : Ending :=
  if state_before_close =? TCP_LAST_ACK then PeerClosed
  else if bool_decide (state_before_close ∈ [TCP_FIN_WAIT1; TCP_FIN_WAIT2; TCP_CLOSING; TCP_TIME_WAIT])
  then NodeClosed
  else if bool_decide (state_before_close ∈ [TCP_ESTABLISHED; TCP_CLOSE_WAIT]) then Aborted
  else OtherEnding.

Record ClosedConnection := mkClosedConnection {
  cn_local : SocketAddr;
  cn_peer : SocketAddr;
  cn_origin : Origin;
  cn_ending : Ending;
  cn_lifetime : Z;
  cn_rtt : Z;
  cn_min_rtt : Z;
  cn_retransmits : Z;
  cn_segments_sent : Z;
  cn_bytes_acked : Z;
  cn_bytes_received : Z;
}.

Definition decode_closed (bytes : list Z) : option ClosedConnection :=
  if decide (length bytes = CLOSED_LEN) then
    '(local, peer) ← decode_key (take KEY_LEN bytes);
    established ← u64_at bytes 56;
    closed ← u64_at bytes 64;
    accepted ← bytes !! 36%nat;
    state ← bytes !! 37%nat;
    rtt ← u32_at bytes 40;
    min_rtt ← u32_at bytes 44;
    retransmits ← u32_at bytes 48;
    segments_sent ← u32_at bytes 52;
    bytes_acked ← u64_at bytes 72;
    bytes_received ← u64_at bytes 80;
    Some (mkClosedConnection local peer (if accepted =? 1 then OriginAccepted else OriginConnected)
            (ending state) (saturating_sub closed established) (from_micros rtt) (from_micros min_rtt)
            retransmits segments_sent bytes_acked bytes_received)
  else None.

(** ** Attaching and reading: [linux.rs] *)

(** [u64::from_str_radix(s, 16)]. *)
Fixpoint hex_val (acc : Z) (s : str) : option Z :=
  match s with
  | [] => Some acc
  | c :: s => match to_digit 16 c with Some d => hex_val (acc * 16 + d) s | None => None end
  end.
Definition from_hex_u64 (s : str) : option Z :=
  let digits := default s (strip_prefix (lit "+") s) in
  if bool_decide (digits = []) then None else
  match hex_val 0 digits with Some n => if n <=? u64_max then Some n else None | None => None end.

(** [lines().find_map(|line| line.strip_prefix(prefix))]. *)
Definition after_prefix (prefix text : str) : option str :=
  head (omap (strip_prefix prefix) (lines text)).

(** [trim_start_matches('/')]. *)
Fixpoint trim_slashes (s : str) : str :=
  match s with "/"%char :: s => trim_slashes s | _ => s end.

Definition CGROUP_ROOT : str := lit "/sys/fs/cgroup".

Definition own_cgroup (proc_self_cgroup : str) : option str :=
  path ← after_prefix (lit "0::") proc_self_cgroup;
  Some (CGROUP_ROOT ++ lit "/" ++ trim_slashes path).

Definition CAP_NET_ADMIN : Z := 12.
Definition CAP_SYS_ADMIN : Z := 21.
Definition CAP_BPF : Z := 39.

Definition missing_capabilities (proc_self_status : str) : option str :=
  effective ← after_prefix (lit "CapEff:") proc_self_status;
  effective ← from_hex_u64 (trim effective);
  let has capability := negb (Z.land effective (Z.shiftl 1 capability) =? 0) in
  let bpf := has CAP_BPF || has CAP_SYS_ADMIN in
  let net_admin := has CAP_NET_ADMIN || has CAP_SYS_ADMIN in
  match bpf, net_admin with
  | true, true => None
  | false, true => Some (lit "the process lacks CAP_BPF")
  | true, false => Some (lit "the process lacks CAP_NET_ADMIN")
  | false, false => Some (lit "the process lacks CAP_BPF and CAP_NET_ADMIN")
  end.

(** An error and its causes: the text of each, and for an [io::Error] the
    system's number for it, if it has one. *)
Record ErrorLink := mkErrorLink { el_text : str; el_io : option (option Z) }.

Definition lacks_permission (EPERM : Z) (chain : list ErrorLink) : bool :=
  match head (omap el_io chain) with
  | Some raw => bool_decide (raw = Some EPERM)
  | None => false
  end.

Fixpoint with_causes (chain : list ErrorLink) : str :=
  match chain with
  | [] => []
  | [e] => el_text e
  | e :: chain => el_text e ++ lit ": " ++ with_causes chain
  end.

Inductive Unavailable :=
| NotLinux
| UnavailableCgroup (reason : str)
| NotPermitted (reason : str)
| UnavailableKernel (reason : str).

(** A step of loading the program: the library's error, or something the
    object does not have. *)
Inductive LoadError := LoadFailed (chain : list ErrorLink) | LoadMissing (what : str).

Definition load_error (EPERM : Z) (e : LoadError) : Unavailable :=
  match e with
  | LoadFailed chain =>
      if lacks_permission EPERM chain then NotPermitted (with_causes chain)
      else UnavailableKernel (with_causes chain)
  | LoadMissing what => UnavailableKernel what
  end.

(** [TcpProbe::attach]: the files it reads, and the loading of the program
    with room for so many connections on a cgroup, as arguments. *)
Definition probe_attach {P} (EPERM : Z) (status : option str) (membership : result str str)
    (open_file : str -> result unit str) (load : Z -> str -> result P LoadError) (connections : Z) :
    result P Unavailable :=
  match missing_capabilities (default [] status) with
  | Some missing => Err (NotPermitted missing)
  | None =>
      let? membership := map_err UnavailableCgroup membership in
      match own_cgroup membership with
      | None => Err (UnavailableCgroup (lit "no cgroup v2 entry in /proc/self/cgroup"))
      | Some cgroup =>
          let? _ := map_err (fun e => UnavailableCgroup (cgroup ++ lit ": " ++ e)) (open_file cgroup) in
          map_err (load_error EPERM) (load (Z.max connections 1) cgroup)
      end
  end.

(** The stand-ins of [unsupported.rs], for every other system: nothing is
    ever attached, so there is no probe to ask and no stream to read. *)
Definition OtherProbe : Type := Empty_set.

Definition other_attach (_connections : Z) : result OtherProbe Unavailable := Err NotLinux.

Definition other_lost_events (p : OtherProbe) : Z := match p with end.

Definition accept_queue_wait (now : Z) (local peer : SocketAddr) (s : Bpf) : option Z :=
  open ← bp_open_conns s !! encode_key local peer;
  Some (saturating_sub now (established_ns (conn_open_bytes open))).

(** The reader: what it has decoded and not handed out. *)
Definition read_batch (records : list (list Z)) : list ClosedConnection :=
  omap decode_closed (keep (fun r => bool_decide (length r = CLOSED_LEN)) records).

(** [next], with the records of each wake-up to come; nothing once the
    kernel side is gone. *)
Fixpoint closed_next (pending : list ClosedConnection) (wakeups : list (list (list Z))) :
    option (ClosedConnection * (list ClosedConnection * list (list (list Z)))) :=
  match pending with
  | closed :: pending => Some (closed, (pending, wakeups))
  | [] =>
      match wakeups with
      | [] => None
      | records :: wakeups => closed_next (read_batch records) wakeups
      end
  end.

(** ** What the proxy makes of it: [gfe/proxy/src/kernel.rs] *)

(** The table is sized for every connection, client and upstream. *)
Definition table_size (max_connections max_upstream_connections : Z) : Z :=
  Z.min (Z.min (max_connections + max_upstream_connections) usize_max) u32_max.

Definition ending_label (e : Ending) : str :=
  match e with
  | PeerClosed => lit "peer_closed"
  | NodeClosed => lit "node_closed"
  | Aborted => lit "aborted"
  | OtherEnding => lit "other"
  end.

(** The families of one side, by listener or by backend. *)
Record TcpMetrics := mkTcpMetrics {
  tm_rtt : gmap str (list Z);
  tm_segments_sent : gmap str Z;
  tm_retransmits : gmap str Z;
  tm_closes : gmap (str * str) Z;
}.

Definition tcp_metrics_new : TcpMetrics := mkTcpMetrics ∅ ∅ ∅ ∅.

Definition record_side (label : str) (closed : ClosedConnection) (m : TcpMetrics) : TcpMetrics :=
  mkTcpMetrics
    (<[label := default [] (tm_rtt m !! label) ++ [cn_rtt closed]]> (tm_rtt m))
    (bump label (cn_segments_sent closed) (tm_segments_sent m))
    (bump label (cn_retransmits closed) (tm_retransmits m))
    (bump (label, ending_label (cn_ending closed)) 1 (tm_closes m)).

(** The metrics of both sides, and the [gfe::tcp] events. *)
Record KernelMetrics := mkKernelMetrics {
  km_client : TcpMetrics;
  km_upstream : TcpMetrics;
  km_events : list (bool * str * ClosedConnection);
}.

Definition kernel_metrics_new : KernelMetrics := mkKernelMetrics tcp_metrics_new tcp_metrics_new [].

Definition kernel_record (closed : ClosedConnection) (listener : option str) (m : KernelMetrics) :
    KernelMetrics :=
  match cn_origin closed, listener with
  | OriginAccepted, None => m
  | OriginAccepted, Some listener =>
      mkKernelMetrics (record_side listener closed (km_client m)) (km_upstream m)
        (km_events m ++ [(true, listener, closed)])
  | OriginConnected, _ =>
      let backend := socket_addr_to_string (cn_peer closed) 0 in
      mkKernelMetrics (km_client m) (record_side backend closed (km_upstream m))
        (km_events m ++ [(false, backend, closed)])
  end.

(** [report]: one connection after the other, under the listener of its
    address as they run then. *)
Definition report_one (m : KernelMetrics) (seen : ClosedConnection * list (SocketAddr * str)) :
    KernelMetrics :=
  let (closed, running) := seen in
  let listener :=
    match cn_origin closed with
    | OriginAccepted => listener_at (cn_local closed) running
    | OriginConnected => None
    end in
  kernel_record closed listener m.

Definition report (seen : list (ClosedConnection * list (SocketAddr * str))) (m : KernelMetrics) :
    KernelMetrics := foldl report_one m seen.

(** ** Bytes read back what they were written from *)

Definition byte_ok (b : Z) : Prop := 0 <= b <= u8_max.

Lemma length_to_le w n : length (to_le w n) = w.
Proof. revert n. induction w; intros n; simpl; [done|]. by rewrite IHw. Qed.

Lemma of_le_to_le w n : 0 <= n < 256 ^ Z.of_nat w -> of_le (to_le w n) = n.
Proof.
  revert n. induction w as [|w IH]; intros n Hn; simpl; [simpl in Hn; lia|].
  change (foldr _ 0 (to_le w (n / 256))) with (of_le (to_le w (n / 256))). rewrite IH.
  - pose proof (Z.div_mod n 256 ltac:(lia)). lia.
  - rewrite Nat2Z.inj_succ, Z.pow_succ_r in Hn by lia.
    split; [apply Z.div_pos; lia|apply Z.div_lt_upper_bound; lia].
Qed.

Lemma get_range_is from to bytes (a b c : list Z) :
  bytes = a ++ b ++ c -> length a = from -> length b = (to - from)%nat -> (from <= to)%nat ->
  get_range from to bytes = Some b.
Proof.
  intros -> Ha Hb Hle. unfold get_range. rewrite !length_app, decide_True by lia.
  rewrite <-Ha, drop_app_length. rewrite <-Ha in Hb. by rewrite <-Hb, take_app_length.
Qed.

Lemma lay_out_aligned offset align bytes fields :
  (offset mod align = 0)%nat -> (align <> 0)%nat ->
  lay_out offset ((align, bytes) :: fields) = bytes ++ lay_out (offset + length bytes) fields.
Proof.
  intros Ho Ha. simpl. rewrite Ho, Nat.sub_0_r, Nat.Div0.mod_same. simpl. by rewrite Nat.add_0_r.
Qed.

Lemma lay_out_nil offset : lay_out offset [] = [].
Proof. done. Qed.

(** ** Keys *)

Definition key_wf (k : ConnKey) : Prop :=
  length (ck_local_addr k) = 16%nat /\ length (ck_peer_addr k) = 16%nat.

Lemma conn_key_bytes_eq k :
  key_wf k ->
  conn_key_bytes k = ck_local_addr k ++ ck_peer_addr k ++ to_le 2 (ck_local_port k) ++ to_le 2 (ck_peer_port k).
Proof.
  intros [Hl Hp]. unfold conn_key_bytes.
  rewrite !lay_out_aligned; rewrite ?lay_out_nil, ?app_nil_r, ?Hl, ?Hp, ?length_to_le; try done.
Qed.

Lemma v6_octets_cons s g : v6_octets (s :: g) = s / 256 :: s mod 256 :: v6_octets g.
Proof. done. Qed.

Lemma length_v6_octets g : length (v6_octets g) = (2 * length g)%nat.
Proof. induction g as [|s g IH]; [done|]. rewrite v6_octets_cons. simpl. lia. Qed.

Lemma length_address_bytes ip : ip_wf ip -> length (address_bytes ip) = 16%nat.
Proof.
  destruct ip as [o|g]; intros [Hl _]; cbn [address_bytes].
  - rewrite length_app, Hl. done.
  - rewrite length_v6_octets, Hl. done.
Qed.

Lemma v6_of_octets g : v6_of (v6_octets g) = g.
Proof.
  induction g as [|s g IH]; [done|]. rewrite v6_octets_cons. simpl. rewrite IH. f_equal.
  pose proof (Z.div_mod s 256 ltac:(lia)). lia.
Qed.

(** The four octets of a mapped address come back. *)
Lemma mapped_canonical o :
  ip_wf (V4 o) -> to_canonical (V6 (v6_of (mapped_prefix ++ o))) = V4 o.
Proof.
  intros [Hl Ho]. destruct o as [|a [|b [|c [|d [|]]]]]; try done.
  rewrite !Forall_cons in Ho. unfold u8_max in Ho. destruct Ho as (? & ? & ? & ? & _). simpl.
  rewrite !Z.div_add_l, !Z.div_small by lia. rewrite !(Z.add_comm (_ * 256)), !Z.mod_add, !Z.mod_small by lia.
  by rewrite !Z.add_0_r.
Qed.

Lemma address_bytes_decoded ip : ip_wf ip -> to_canonical (V6 (v6_of (address_bytes ip))) = to_canonical ip.
Proof.
  intros Hip. destruct ip as [o|g]; cbn [address_bytes].
  - by rewrite mapped_canonical.
  - by rewrite v6_of_octets.
Qed.

Lemma canonical_address_bytes ip : ip_wf ip -> address_bytes (to_canonical ip) = address_bytes ip.
Proof.
  destruct ip as [o|g]; [done|]. intros [Hl Hg].
  destruct g as [|s0 [|s1 [|s2 [|s3 [|s4 [|s5 [|ab [|cd [|]]]]]]]]]; try done.
  cbn [to_canonical]. destruct (_ && _) eqn:E; [|done].
  cbn [forallb] in E. bool_facts. subst. done.
Qed.

Definition addr_wf (a : SocketAddr) : Prop := ip_wf (sa_ip a) /\ 0 <= sa_port a <= u16_max.
Definition canonical_addr (a : SocketAddr) : SocketAddr := mkSocketAddr (to_canonical (sa_ip a)) (sa_port a).

Lemma encode_key_canonical local peer :
  addr_wf local -> addr_wf peer ->
  encode_key (canonical_addr local) (canonical_addr peer) = encode_key local peer.
Proof. intros [? _] [? _]. unfold encode_key. simpl. by rewrite !canonical_address_bytes. Qed.

Lemma length_encode_key local peer :
  addr_wf local -> addr_wf peer -> length (encode_key local peer) = KEY_LEN.
Proof.
  intros [? _] [? _]. unfold encode_key. rewrite !length_app, !length_to_le, !length_address_bytes by done. done.
Qed.

Lemma decode_encode_key local peer :
  addr_wf local -> addr_wf peer ->
  decode_key (encode_key local peer) = Some (canonical_addr local, canonical_addr peer).
Proof.
  intros [Hl Hlp] [Hp Hpp]. pose proof (length_address_bytes _ Hl). pose proof (length_address_bytes _ Hp).
  unfold decode_key, encode_key.
  set (l := address_bytes (sa_ip local)) in *. set (p := address_bytes (sa_ip peer)) in *.
  rewrite (get_range_is 0 16 _ [] l (p ++ to_le 2 (sa_port local) ++ to_le 2 (sa_port peer)))
    by (done || lia).
  rewrite (get_range_is 16 32 _ l p (to_le 2 (sa_port local) ++ to_le 2 (sa_port peer))) by (done || lia).
  rewrite (get_range_is 32 34 _ (l ++ p) (to_le 2 (sa_port local)) (to_le 2 (sa_port peer)))
    by (rewrite ?length_app, ?length_to_le, <-?app_assoc; done || lia).
  rewrite (get_range_is 34 36 _ (l ++ p ++ to_le 2 (sa_port local)) (to_le 2 (sa_port peer)) [])
    by (rewrite ?length_app, ?length_to_le, <-?app_assoc, ?app_nil_r; done || lia).
  cbn [mbind option_bind]. rewrite !decide_True by (rewrite ?length_to_le; done).
  cbn [mbind option_bind].
  rewrite !of_le_to_le by (unfold u16_max in *; simpl; lia).
  unfold l, p. by rewrite !address_bytes_decoded.
Qed.

(** ** What the kernel calls the program with *)

(** [linux/bpf.h] on a socket between [local] and [peer]: addresses and the
    remote port in network byte order, the local port in the host's. *)
Definition describes (ctx : SockOps) (local peer : SocketAddr) : Prop :=
  match sa_ip local, sa_ip peer with
  | V4 l, V4 p =>
      so_family ctx = AF_INET /\ to_le 4 (so_local_ip4 ctx) = l /\ to_le 4 (so_remote_ip4 ctx) = p
  | V6 l, V6 p =>
      so_family ctx = AF_INET6 /\ concat (to_le 4 <$> so_local_ip6 ctx) = v6_octets l /\
      concat (to_le 4 <$> so_remote_ip6 ctx) = v6_octets p
  | _, _ => False
  end /\
  so_local_port ctx = sa_port local /\
  to_le 4 (so_remote_port ctx) = [0; 0; sa_port peer / 256; sa_port peer mod 256].

(** The widths of the fields the program copies. *)
Definition ctx_typed (ctx : SockOps) : Prop :=
  0 <= so_srtt_us ctx <= u32_max /\ 0 <= so_rtt_min ctx <= u32_max /\
  0 <= so_total_retrans ctx <= u32_max /\ 0 <= so_segs_out ctx <= u32_max /\
  0 <= so_bytes_acked ctx <= u64_max /\ 0 <= so_bytes_received ctx <= u64_max.

Lemma describes_family ctx local peer :
  describes ctx local peer ->
  negb (so_family ctx =? AF_INET) && negb (so_family ctx =? AF_INET6) = false.
Proof.
  intros [H _]. destruct (sa_ip local), (sa_ip peer); try done; destruct H as [-> _]; done.
Qed.

Lemma fill_key_addresses ctx local peer :
  describes ctx local peer ->
  fill_key ctx = mkConnKey (address_bytes (sa_ip local)) (address_bytes (sa_ip peer))
    (sa_port local mod 2 ^ 16)
    ((sa_port peer mod 256 + 256 * (sa_port peer / 256 + 256 * (0 + 256 * (0 + 256 * 0)))) mod 2 ^ 16).
Proof.
  intros (H & Hlp & Hpp). unfold fill_key, bswap32. rewrite Hlp, Hpp.
  destruct (sa_ip local), (sa_ip peer); try done; destruct H as (-> & Hl & Hp); cbn [Z.eqb];
    by rewrite ?Z.eqb_refl, Hl, Hp.
Qed.

(** Both sides name a connection by the same bytes. *)
Lemma fill_key_encode ctx local peer :
  addr_wf local -> addr_wf peer -> describes ctx local peer ->
  key_wf (fill_key ctx) /\ conn_key_bytes (fill_key ctx) = encode_key local peer.
Proof.
  intros [Hl Hlp] [Hp Hpp] Hd. rewrite (fill_key_addresses _ _ _ Hd). unfold u16_max in *.
  assert (Hk : key_wf (fill_key ctx)).
  { rewrite (fill_key_addresses _ _ _ Hd). split; by apply length_address_bytes. }
  rewrite (fill_key_addresses _ _ _ Hd) in Hk. split; [done|].
  rewrite conn_key_bytes_eq by done. unfold encode_key. cbn [ck_local_addr ck_peer_addr ck_local_port ck_peer_port].
  replace (sa_port peer mod 256 + _) with (sa_port peer) by (pose proof (Z.div_mod (sa_port peer) 256); lia).
  by rewrite !(Z.mod_small _ (2 ^ 16)) by lia.
Qed.

(** ** Closed connections *)

Definition closed_typed (c : ConnClosed) : Prop :=
  0 <= cc_accepted c <= u8_max /\ 0 <= cc_state_before_close c <= u8_max /\
  0 <= cc_srtt_us c <= u32_max /\ 0 <= cc_min_rtt_us c <= u32_max /\
  0 <= cc_retransmits c <= u32_max /\ 0 <= cc_segments_out c <= u32_max /\
  0 <= cc_established_ns c <= u64_max /\ 0 <= cc_closed_ns c <= u64_max /\
  0 <= cc_bytes_acked c <= u64_max /\ 0 <= cc_bytes_received c <= u64_max.

(** The structure has no hole, and is as long as both sides say. *)
Lemma conn_closed_bytes_eq c :
  key_wf (cc_key c) ->
  conn_closed_bytes c = conn_key_bytes (cc_key c) ++ to_le 1 (cc_accepted c) ++
    to_le 1 (cc_state_before_close c) ++ to_le 2 0 ++ to_le 4 (cc_srtt_us c) ++
    to_le 4 (cc_min_rtt_us c) ++ to_le 4 (cc_retransmits c) ++ to_le 4 (cc_segments_out c) ++
    to_le 8 (cc_established_ns c) ++ to_le 8 (cc_closed_ns c) ++ to_le 8 (cc_bytes_acked c) ++
    to_le 8 (cc_bytes_received c).
Proof.
  intros Hk. unfold conn_closed_bytes.
  assert (length (conn_key_bytes (cc_key c)) = 36%nat) as H.
  { rewrite conn_key_bytes_eq, !length_app, !length_to_le by done. destruct Hk as [-> ->]. done. }
  rewrite !lay_out_aligned; rewrite ?lay_out_nil, ?app_nil_r, ?H, ?length_to_le; try done.
Qed.

Lemma get_range_app_r from to (k r : list Z) :
  (length k <= from <= to)%nat ->
  get_range from to (k ++ r) = get_range (from - length k) (to - length k) r.
Proof.
  intros H. unfold get_range. rewrite length_app, drop_app_ge by lia.
  destruct (decide (from - length k <= to - length k <= length r)%nat);
    [rewrite decide_True by lia; f_equal; f_equal; lia|by rewrite decide_False by lia].
Qed.

Lemma decode_closed_layout c local peer :
  key_wf (cc_key c) -> closed_typed c ->
  decode_key (conn_key_bytes (cc_key c)) = Some (local, peer) ->
  decode_closed (conn_closed_bytes c) =
    Some (mkClosedConnection local peer
      (if cc_accepted c =? 1 then OriginAccepted else OriginConnected)
      (ending (cc_state_before_close c)) (saturating_sub (cc_closed_ns c) (cc_established_ns c))
      (from_micros (cc_srtt_us c)) (from_micros (cc_min_rtt_us c)) (cc_retransmits c)
      (cc_segments_out c) (cc_bytes_acked c) (cc_bytes_received c)).
Proof.
  intros Hk Ht Hd. rewrite conn_closed_bytes_eq by done.
  assert (length (conn_key_bytes (cc_key c)) = KEY_LEN) as HK.
  { rewrite conn_key_bytes_eq, !length_app, !length_to_le by done. by destruct Hk as [-> ->]. }
  set (K := conn_key_bytes (cc_key c)) in *.
  unfold decode_closed, u32_at, u64_at. rewrite decide_True by (by rewrite !length_app, !length_to_le, HK).
  rewrite <-HK, take_app_length, Hd. cbn [mbind option_bind].
  unfold closed_typed, u8_max, u32_max, u64_max in Ht.
  match goal with |- context [K ++ ?r] => set (R := r) end.
  assert (forall n m field, get_range (n - KEY_LEN) (m - KEY_LEN) R = Some field ->
    (KEY_LEN <= n <= m)%nat -> get_range n m (K ++ R) = Some field) as get.
  { intros n m field HR Hn. by rewrite get_range_app_r, HK by (by rewrite HK). }
  rewrite (get 56 (56 + 8) (to_le 8 (cc_established_ns c)))%nat by (done || unfold KEY_LEN; lia).
  rewrite (get 64 (64 + 8) (to_le 8 (cc_closed_ns c)))%nat by (done || unfold KEY_LEN; lia).
  rewrite (get 40 (40 + 4) (to_le 4 (cc_srtt_us c)))%nat by (done || unfold KEY_LEN; lia).
  rewrite (get 44 (44 + 4) (to_le 4 (cc_min_rtt_us c)))%nat by (done || unfold KEY_LEN; lia).
  rewrite (get 48 (48 + 4) (to_le 4 (cc_retransmits c)))%nat by (done || unfold KEY_LEN; lia).
  rewrite (get 52 (52 + 4) (to_le 4 (cc_segments_out c)))%nat by (done || unfold KEY_LEN; lia).
  rewrite (get 72 (72 + 8) (to_le 8 (cc_bytes_acked c)))%nat by (done || unfold KEY_LEN; lia).
  rewrite (get 80 (80 + 8) (to_le 8 (cc_bytes_received c)))%nat by (done || unfold KEY_LEN; lia).
  rewrite !lookup_app_r by (rewrite HK; unfold KEY_LEN; lia). rewrite !HK.
  change (R !! (36 - KEY_LEN)%nat) with (Some (cc_accepted c mod 256)).
  change (R !! (37 - KEY_LEN)%nat) with (Some (cc_state_before_close c mod 256)).
  cbn [mbind option_bind fmap option_fmap option_map].
  rewrite (Z.mod_small (cc_accepted c)), (Z.mod_small (cc_state_before_close c)) by lia.
  rewrite !of_le_to_le by (simpl; lia). done.
Qed.

(** ** A connection from its handshake to its report *)

Section View.
Context (BPF_TCP_CLOSE BPF_SOCK_OPS_STATE_CB_FLAG : Z).
Notation run := (bpf_event BPF_TCP_CLOSE BPF_SOCK_OPS_STATE_CB_FLAG).
Notation events := (tcp_events BPF_TCP_CLOSE BPF_SOCK_OPS_STATE_CB_FLAG).

(** What a connection is opened with. *)
Definition accepted_of (op : SockOp) : option Z :=
  match op with PassiveEstablished => Some 1 | ActiveEstablished => Some 0 | _ => None end.

(** What opens a connection on a key anew, or ends the one there is. The
    changes of state that come before a close do neither. *)
Definition touches (key : list Z) (ev : BpfEvent) : Prop :=
  match ev with
  | BpfRuns _ _ ctx =>
      conn_key_bytes (fill_key ctx) = key /\
      (is_Some (accepted_of (so_op ctx)) \/ so_op ctx = StateCb /\ so_args1 ctx = BPF_TCP_CLOSE)
  | BpfEvicts evicted => evicted = key
  end.

(** A record of a connection on another key. *)
Definition of_another (key record : list Z) : Prop :=
  exists c, record = conn_closed_bytes c /\ conn_key_bytes (cc_key c) <> key.

Lemma untouched_step key ev s :
  ~ touches key ev ->
  bp_open_conns (run s ev) !! key = bp_open_conns s !! key /\
  exists others, bp_closed_conns (run s ev) = bp_closed_conns s ++ others /\ Forall (of_another key) others.
Proof.
  assert (Hsame : exists others, bp_closed_conns s = bp_closed_conns s ++ others /\ Forall (of_another key) others)
    by (exists []; by rewrite app_nil_r).
  intros Ht. destruct ev as [now full ctx|evicted]; simpl in *; [|by rewrite lookup_delete_ne].
  unfold tcp_events. destruct (_ && _); [done|].
  destruct (so_op ctx) eqn:Eop; simpl; [..|done].
  1, 2: assert (conn_key_bytes (fill_key ctx) <> key) as Hne by (intros E; apply Ht; split; [done|left; by eexists]);
        split; [by rewrite lookup_insert_ne|done].
  destruct (negb _) eqn:Ea; [done|]. apply negb_false_iff, Z.eqb_eq in Ea.
  assert (conn_key_bytes (fill_key ctx) <> key) as Hne by (intros E; apply Ht; auto).
  destruct (bp_open_conns s !! _) as [open|]; [|done]. simpl. rewrite lookup_delete_ne by done. split; [done|].
  destruct full; [done|]. eexists [_]. split; [done|]. apply Forall_singleton. by eexists.
Qed.

Lemma untouched_run key evs s :
  Forall (fun ev => ~ touches key ev) evs ->
  bp_open_conns (foldl run s evs) !! key = bp_open_conns s !! key /\
  exists others, bp_closed_conns (foldl run s evs) = bp_closed_conns s ++ others /\ Forall (of_another key) others.
Proof.
  intros H. revert s. induction H as [|ev evs Hev _ IH]; intros s; simpl.
  { split; [done|]. exists []. by rewrite app_nil_r. }
  destruct (IH (run s ev)) as (-> & others & -> & Ho). destruct (untouched_step key ev s Hev) as (-> & first & -> & Hf).
  split; [done|]. exists (first ++ others). rewrite app_assoc. split; [done|]. by apply Forall_app.
Qed.

Lemma established_lookup local peer now full ctx accepted s :
  addr_wf local -> addr_wf peer -> describes ctx local peer ->
  accepted_of (so_op ctx) = Some accepted ->
  bp_open_conns (run s (BpfRuns now full ctx)) !! encode_key local peer = Some (mkConnOpen now accepted).
Proof.
  intros Hl Hp Hd Ha. destruct (fill_key_encode _ _ _ Hl Hp Hd) as [_ Hk].
  simpl. unfold tcp_events. rewrite (describes_family _ _ _ Hd), Hk.
  destruct (so_op ctx); simpl in *; simplify_eq; by rewrite lookup_insert_eq.
Qed.

(** Opening a connection reports none. *)
Lemma established_quiet now full ctx s accepted :
  accepted_of (so_op ctx) = Some accepted -> bp_closed_conns (run s (BpfRuns now full ctx)) = bp_closed_conns s.
Proof. simpl. unfold tcp_events. destruct (_ && _); [done|]. by destruct (so_op ctx). Qed.

Lemma established_ns_bytes o :
  0 <= co_established_ns o <= u64_max -> established_ns (conn_open_bytes o) = co_established_ns o.
Proof.
  intros H. unfold established_ns, conn_open_bytes. rewrite lay_out_aligned by done.
  rewrite <-(length_to_le 8 (co_established_ns o)) at 1. rewrite take_app_length.
  apply of_le_to_le. unfold u64_max in H. simpl. lia.
Qed.

(** C18: What user space reads of a connection is what the kernel program
    knew of it. From its handshake on, through whatever changes of state it
    goes, and until it closes, is forgotten for want of room or its key is
    opened anew, asking how long it has waited answers the time since the
    handshake, and nothing is reported of it. When it closes it is
    forgotten, and, unless the ring is full (then it is counted as lost), one
    record is added, which decodes, whatever its addresses, to the connection
    with both ends, who opened it, how it ended, its times, round trips and
    counts. *)
Theorem kernel_view_exact s local peer opened full0 ctx0 accepted evs closed full ctx :
  addr_wf local -> addr_wf peer -> describes ctx0 local peer -> describes ctx local peer ->
  accepted_of (so_op ctx0) = Some accepted ->
  0 <= opened <= u64_max -> 0 <= closed <= u64_max -> ctx_typed ctx ->
  so_op ctx = StateCb -> so_args1 ctx = BPF_TCP_CLOSE ->
  Forall (fun ev => ~ touches (encode_key local peer) ev) evs ->
  let s1 := foldl run (run s (BpfRuns opened full0 ctx0)) evs in
  let s2 := run s1 (BpfRuns closed full ctx) in
  (forall now, accept_queue_wait now (canonical_addr local) (canonical_addr peer) s1 =
     Some (saturating_sub now opened)) /\
  (exists others, bp_closed_conns s1 = bp_closed_conns s ++ others /\
     Forall (of_another (encode_key local peer)) others) /\
  bp_open_conns s2 !! encode_key local peer = None /\
  (full = true -> bp_closed_conns s2 = bp_closed_conns s1 /\ bp_lost s2 = wrap64 (bp_lost s1 + 1)) /\
  (full = false -> bp_lost s2 = bp_lost s1 /\
     exists record, bp_closed_conns s2 = bp_closed_conns s1 ++ [record] /\
     decode_closed record = Some (mkClosedConnection (canonical_addr local) (canonical_addr peer)
       (if accepted =? 1 then OriginAccepted else OriginConnected)
       (ending (so_args0 ctx mod 256)) (saturating_sub closed opened)
       (from_micros (so_srtt_us ctx / 8)) (from_micros (so_rtt_min ctx)) (so_total_retrans ctx)
       (so_segs_out ctx) (so_bytes_acked ctx) (so_bytes_received ctx))).
Proof.
  intros Hl Hp Hd0 Hd Ha Ho Hc Ht Hop Hargs Hevs s1 s2.
  destruct (fill_key_encode _ _ _ Hl Hp Hd) as [Hwf Hk].
  assert (Hs1 : bp_open_conns s1 !! encode_key local peer = Some (mkConnOpen opened accepted)).
  { unfold s1. destruct (untouched_run _ _ (run s (BpfRuns opened full0 ctx0)) Hevs) as [-> _].
    by apply established_lookup. }
  assert (Hacc : 0 <= accepted <= 1) by (destruct (so_op ctx0); simpl in Ha; simplify_eq; lia).
  split.
  { intros now. unfold accept_queue_wait. rewrite encode_key_canonical, Hs1 by done.
    cbn [mbind option_bind]. by rewrite established_ns_bytes. }
  split.
  { destruct (untouched_run _ _ (run s (BpfRuns opened full0 ctx0)) Hevs) as (_ & others & E & Hoth).
    exists others. split; [|done]. unfold s1. rewrite E. f_equal. by eapply established_quiet. }
  assert (Hs2 := eq_refl s2). unfold s2 at 2 in Hs2. cbn [bpf_event] in Hs2. unfold tcp_events in Hs2.
  rewrite (describes_family _ _ _ Hd), Hop, Hargs, Z.eqb_refl, Hk, Hs1 in Hs2. simpl in Hs2.
  rewrite Hs2. simpl. rewrite lookup_delete_eq. split; [done|].
  split; intros ->; [done|]. split; [done|]. eexists. split; [done|].
  rewrite (decode_closed_layout _ (canonical_addr local) (canonical_addr peer)); simpl; [|done|..].
  - by rewrite Z.shiftr_div_pow2 by lia.
  - unfold closed_typed, ctx_typed, u8_max, u32_max in *. simpl.
    rewrite Z.shiftr_div_pow2 by lia. change (2 ^ 3) with 8. change (2 ^ 8) with 256.
    pose proof (Z.mod_pos_bound (so_args0 ctx) 256 ltac:(lia)).
    pose proof (Z.div_pos (so_srtt_us ctx) 8 ltac:(lia) ltac:(lia)).
    assert (so_srtt_us ctx / 8 <= so_srtt_us ctx) by (apply Z.div_le_upper_bound; lia). lia.
  - rewrite Hk. by apply decode_encode_key.
Qed.
End View.

(** ** The reader hands out every record, in order *)

Definition undelivered (pending : list ClosedConnection) (wakeups : list (list (list Z))) :
    list ClosedConnection := pending ++ concat (read_batch <$> wakeups).

Lemma closed_next_in_order pending wakeups :
  match closed_next pending wakeups with
  | Some (closed, (pending', wakeups')) =>
      undelivered pending wakeups = closed :: undelivered pending' wakeups'
  | None => undelivered pending wakeups = []
  end.
Proof.
  revert pending. induction wakeups as [|records wakeups IH]; intros [|c pending]; simpl; try done.
  specialize (IH (read_batch records)). unfold undelivered in *. simpl. done.
Qed.

(** ** What is counted of the closed connections *)

(** The side and label a closed connection is reported under. *)
Definition reported (seen : ClosedConnection * list (SocketAddr * str)) :
    option (bool * str * ClosedConnection) :=
  match cn_origin seen.1 with
  | OriginAccepted => (fun l => (true, l, seen.1)) <$> listener_at (cn_local seen.1) seen.2
  | OriginConnected => Some (false, socket_addr_to_string (cn_peer seen.1) 0, seen.1)
  end.

Definition under (side : bool) (label : str) (e : bool * str * ClosedConnection) : bool :=
  bool_decide (e.1 = (side, label)).

Definition total (f : ClosedConnection -> Z) (side : bool) (label : str)
    (events : list (bool * str * ClosedConnection)) : Z :=
  sum_list ((fun e => f e.2) <$> keep (under side label) events).

Definition ended_as (reason : str) (c : ClosedConnection) : Z :=
  if decide (ending_label (cn_ending c) = reason) then 1 else 0.

(** The metrics of a side are the totals of its events. *)
Definition tallies (side : bool) (m : TcpMetrics) (events : list (bool * str * ClosedConnection)) : Prop :=
  forall label,
    value label (tm_segments_sent m) = total cn_segments_sent side label events /\
    value label (tm_retransmits m) = total cn_retransmits side label events /\
    (forall reason, value (label, reason) (tm_closes m) = total (ended_as reason) side label events) /\
    default [] (tm_rtt m !! label) = (fun e => cn_rtt e.2) <$> keep (under side label) events.

Lemma keep_under_snoc side label events side' label' c :
  keep (under side label) (events ++ [(side', label', c)]) =
  keep (under side label) events ++ (if decide ((side', label') = (side, label)) then [(side', label', c)] else []).
Proof.
  rewrite keep_app. cbn [keep]. unfold under at 2. simpl. f_equal.
  destruct (decide _) as [E|E]; [by rewrite bool_decide_eq_true_2|by rewrite bool_decide_eq_false_2].
Qed.

Lemma total_snoc f side label events side' label' c :
  total f side label (events ++ [(side', label', c)]) =
  total f side label events + (if decide ((side', label') = (side, label)) then f c else 0).
Proof.
  unfold total. rewrite keep_under_snoc, fmap_app, sum_list_app.
  destruct (decide _); simpl; lia.
Qed.

Lemma tallies_side side m events label closed :
  tallies side m events -> tallies side (record_side label closed m) (events ++ [(side, label, closed)]).
Proof.
  intros H l. destruct (H l) as (H1 & H2 & H3 & H4). unfold record_side. simpl.
  rewrite !value_bump, !total_snoc, keep_under_snoc, H1, H2.
  destruct (decide (l = label)) as [->|Hne].
  - rewrite !decide_True, lookup_insert_eq, fmap_app by done. simpl. rewrite H4. split_and!; try done.
    intros reason. rewrite value_bump, total_snoc, H3, (decide_True (P := (side, label) = _)) by done.
    unfold ended_as. destruct (decide (_ = (_, _))), (decide (ending_label _ = reason)); naive_solver lia.
  - rewrite !decide_False, lookup_insert_ne, app_nil_r by congruence. split_and!; try done.
    intros reason. rewrite value_bump, total_snoc, H3, !decide_False by congruence. lia.
Qed.

Lemma tallies_other side side' m events label closed :
  side <> side' -> tallies side m events -> tallies side m (events ++ [(side', label, closed)]).
Proof.
  intros Hs H l. destruct (H l) as (H1 & H2 & H3 & H4).
  rewrite !total_snoc, keep_under_snoc, !decide_False, app_nil_r, !Z.add_0_r by congruence.
  split_and!; try done. intros reason. rewrite total_snoc, decide_False by congruence. by rewrite H3, Z.add_0_r.
Qed.

(** Every closed connection the kernel reports is counted once, on its
    own side: a client connection under the listener of the address it came
    in on, a connection to a backend under that backend; connections to
    anything else of the node are left out. The counters and observations of
    a listener or a backend are the totals over its connections. *)
Theorem closed_connections_counted seen :
  let m := report seen kernel_metrics_new in
  km_events m = omap reported seen /\
  tallies true (km_client m) (omap reported seen) /\
  tallies false (km_upstream m) (omap reported seen).
Proof.
  simpl. unfold report. induction seen as [|[c running] seen IH] using rev_ind.
  { split_and!; [done|by intros l..]. }
  rewrite foldl_app, omap_app. cbn [foldl omap list_omap]. destruct IH as (He & Hc & Hu).
  set (m := foldl report_one kernel_metrics_new seen) in *.
  unfold report_one, kernel_record, reported. simpl.
  destruct (cn_origin c); [destruct (listener_at _ _) as [l|]|]; simpl; rewrite ?app_nil_r, ?He;
    split_and!; try done; by apply tallies_side || apply tallies_other.
Qed.

(** ** Capabilities *)

Lemma has_bit n k : 0 <= k -> negb (Z.land n (Z.shiftl 1 k) =? 0) = Z.testbit n k.
Proof.
  intros Hk. rewrite Z.shiftl_1_l. destruct (Z.testbit n k) eqn:E.
  - apply negb_true_iff, Z.eqb_neq. intros H0.
    assert (Z.testbit (Z.land n (2 ^ k)) k = false) as H by (by rewrite H0, Z.bits_0).
    rewrite Z.land_spec, E, Z.pow2_bits_true in H by done. done.
  - apply negb_false_iff, Z.eqb_eq. apply Z.bits_inj'. intros i Hi.
    rewrite Z.land_spec, Z.bits_0, Z.pow2_bits_eqb by done.
    destruct (Z.eqb_spec k i) as [->|]; [by rewrite E|by rewrite andb_false_r].
Qed.

(** Nothing is missing exactly when what the process may do is not known, or
    holds both capabilities, or the one that covers both. *)
Lemma missing_capabilities_none status :
  missing_capabilities status = None <->
  match after_prefix (lit "CapEff:") status ≫= (fun e => from_hex_u64 (trim e)) with
  | None => True
  | Some n => Z.testbit n CAP_SYS_ADMIN = true \/ (Z.testbit n CAP_BPF = true /\ Z.testbit n CAP_NET_ADMIN = true)
  end.
Proof.
  unfold missing_capabilities. destruct (after_prefix _ _) as [e|]; cbn [mbind option_bind]; [|done].
  destruct (from_hex_u64 _) as [n|]; cbn [mbind option_bind]; [|done].
  rewrite !has_bit by done.
  destruct (Z.testbit n CAP_BPF), (Z.testbit n CAP_SYS_ADMIN), (Z.testbit n CAP_NET_ADMIN);
    cbn [orb]; intuition congruence.
Qed.

(** ** A client on a dual-stack socket *)

Definition example_local : SocketAddr := mkSocketAddr (V6 [0; 0; 0; 0; 0; 65535; 2560; 1]) 443.
Definition example_peer : SocketAddr := mkSocketAddr (V6 [0; 0; 0; 0; 0; 65535; 49152; 519]) 50000.

(** The words of the example's addresses, and its port, as the kernel has
    them in memory: 10.0.0.1 port 443 and 192.0.2.7 port 50000. *)
Definition example_ctx (op : SockOp) (args0 args1 : Z) : SockOps :=
  mkSockOps op AF_INET6 args0 args1 0 0
    [0; 0; of_le [0; 0; 255; 255]; of_le [10; 0; 0; 1]]
    [0; 0; of_le [0; 0; 255; 255]; of_le [192; 0; 2; 7]]
    443 (of_le [0; 0; 195; 80]) 0 12000 900 3 120 4096 512.

(** It is closed by its client, in order: the program is called for each of
    the changes of state on the way. *)
Definition example_steps : list BpfEvent :=
  [BpfRuns 11000000000 false (example_ctx StateCb TCP_ESTABLISHED TCP_CLOSE_WAIT);
   BpfRuns 12000000000 false (example_ctx StateCb TCP_CLOSE_WAIT TCP_LAST_ACK)].

Lemma kernel_view_exact_witness :
  exists record,
    bp_closed_conns (bpf_event 7 4 (foldl (bpf_event 7 4) (bpf_event 7 4 (mkBpf ∅ [] 0)
      (BpfRuns 10000000000 false (example_ctx PassiveEstablished 0 0))) example_steps)
      (BpfRuns 12500000000 false (example_ctx StateCb TCP_LAST_ACK 7))) = [record] /\
    decode_closed record = Some (mkClosedConnection
      (mkSocketAddr (V4 [10; 0; 0; 1]) 443) (mkSocketAddr (V4 [192; 0; 2; 7]) 50000)
      OriginAccepted PeerClosed (from_millis 2500) (from_micros 1500) (from_micros 900) 3 120 4096 512).
Proof.
  destruct (kernel_view_exact 7 4 (mkBpf ∅ [] 0) example_local example_peer 10000000000 false
    (example_ctx PassiveEstablished 0 0) 1 example_steps 12500000000 false (example_ctx StateCb TCP_LAST_ACK 7))
    as (_ & _ & _ & _ & H).
  1-2: (split; [split; [done|repeat constructor; done]|done]).
  1-2: (split; [split_and!; reflexivity|split; reflexivity]).
  1-6: (try done; unfold ctx_typed; simpl; lia || done).
  1: { repeat constructor; intros [_ [[a Ha]|[_ Ha]]]; discriminate Ha. }
  destruct (H eq_refl) as (_ & record & Hr & Hd). exists record. split; [exact Hr|exact Hd].
Defined.
