(* ===== verification/Watcher.v ===== *)
(** * Following the config file: [gfe/proxy/src/reload/watcher.rs]

    What the notify library tells of the directory is filtered and queued;
    a task waits for the file to be quiet for the debounce and reloads. The
    library calls the filter from a thread of its own, and may do so between
    any two steps of the task. *)

From S2P Require Import Prelude Str.

(** notify's [EventKind]. *)
Inductive AccessMode := AnyMode | Execute | Read | Write | OtherMode.
Inductive AccessKind := AnyAccess | ReadAccess | Open (mode : AccessMode) | Close (mode : AccessMode) | OtherAccess.
Inductive CreateKind := AnyCreate | CreateFile | CreateFolder | OtherCreate.
Inductive DataChange := AnyData | Size | Content | OtherData.
Inductive MetadataKind := AnyMetadata | AccessTime | WriteTime | Permissions | Ownership | Extended | OtherMetadata.
Inductive RenameMode := AnyRename | To | From | Both | OtherRename.
Inductive ModifyKind :=
| AnyModify
| Data (change : DataChange)
| Metadata (kind : MetadataKind)
| Name (mode : RenameMode)
| OtherModify.
Inductive RemoveKind := AnyRemove | RemoveFile | RemoveFolder | OtherRemove.
Inductive EventKind :=
| AnyEvent
| Access (kind : AccessKind)
| Create (kind : CreateKind)
| Modify (kind : ModifyKind)
| Remove (kind : RemoveKind)
| OtherEvent.

Definition may_change_content (kind : EventKind) : bool :=
  match kind with
  | Access (Close Write) => true
  | Access _ => false
  | Modify (Metadata _) => false
  | _ => true
  end.

(** An event: its kind, and the file names of its paths, those that have one. *)
Record FsEvent := mkFsEvent { fe_kind : EventKind; fe_names : list (option str) }.

(** Whether an event, or an error of the library, asks for a reload. *)
Definition asks_reload (target : option str) (event : option FsEvent) : bool :=
  match event with
  | Some event =>
      existsb (fun name => bool_decide (name = target)) (fe_names event) && may_change_content (fe_kind event)
  | None => false
  end.

(** ** When the file may have new content

    It was created, removed, renamed, written, closed after it was written,
    or something happened to it that the system does not tell. *)
Inductive renewed : EventKind -> Prop :=
| renewed_created k : renewed (Create k)
| renewed_removed k : renewed (Remove k)
| renewed_renamed m : renewed (Modify (Name m))
| renewed_written c : renewed (Modify (Data c))
| renewed_closed : renewed (Access (Close Write))
| renewed_modified_somehow : renewed (Modify AnyModify)
| renewed_modified_otherwise : renewed (Modify OtherModify)
| renewed_somehow : renewed AnyEvent
| renewed_otherwise : renewed OtherEvent.

#[export] Instance renewed_dec kind : Decision (renewed kind).
Proof. destruct kind as [|[| | |[]|]| |[]| |]; solve [left; constructor|right; inversion 1]. Defined.

(** A change of the file [target]: its name is among the event's. *)
Definition changed (target : option str) (event : option FsEvent) : Prop :=
  exists e, event = Some e /\ target ∈ fe_names e /\ renewed (fe_kind e).

#[export] Instance changed_dec target event : Decision (changed target event).
Proof.
  destruct event as [e|]; [|right; by intros (? & [=] & _)].
  destruct (decide (target ∈ fe_names e /\ renewed (fe_kind e))) as [[? ?]|Hn]; [left; by exists e|].
  right. intros (? & [= <-] & ?). by apply Hn.
Defined.

Definition CHANNEL : nat := 16.

(** The task: waiting for an event, waiting for quiet since a time, or over. *)
Inductive WatchTask := Receiving | Debouncing (since : Z) | WatchEnded.

(** The queue between the two, and whether the watcher still lives. How many
    changes of the file there were ([changed]), and how many when the last
    reload began, are kept for the statements; so is when each reload began. *)
Record Watch := mkWatch {
  wt_queue : nat;
  wt_alive : bool;
  wt_task : WatchTask;
  wt_changes : Z;
  wt_covered : Z;
  wt_reloads : list Z;
}.

Definition watch_start : Watch := mkWatch 0 true Receiving 0 0 [].

Inductive WatchEvent :=
| Notified (event : option FsEvent)
| WatcherDropped
| TaskReceives
| SleepEnds.

Section Watching.
Context (target : option str) (debounce : Z).

(** The task takes an event, or finds the sender gone. *)
Definition receive (now : Z) (w : Watch) : option Watch :=
  let (queue, alive, task, changes, covered, reloads) := w in
  match task, queue with
  | WatchEnded, _ => None
  | _, S queue => Some (mkWatch queue alive (Debouncing now) changes covered reloads)
  | _, O => if alive then None else Some (mkWatch 0 alive WatchEnded changes covered reloads)
  end.

Definition watch_event (now : Z) (ev : WatchEvent) (w : Watch) : option Watch :=
  let (queue, alive, task, changes, covered, reloads) := w in
  match ev with
  | Notified event =>
      if negb alive then None
      else
        let changes := if decide (changed target event) then changes + 1 else changes in
        if asks_reload target event
        then Some (mkWatch (if decide (queue < CHANNEL)%nat then S queue else queue) alive task
                     changes covered reloads)
        else Some (mkWatch queue alive task changes covered reloads)
  | WatcherDropped => Some (mkWatch queue false task changes covered reloads)
  | TaskReceives => receive now w
  | SleepEnds =>
      match task with
      | Debouncing since =>
          if since + debounce <=? now
          then Some (mkWatch queue alive Receiving changes changes (reloads ++ [now]))
          else None
      | _ => None
      end
  end.

Inductive watch_reach : Watch -> Prop :=
| watch_reach_start : watch_reach watch_start
| watch_reach_step now ev w w' :
    watch_reach w -> watch_event now ev w = Some w' -> watch_reach w'.

(** What asks for a reload is what may have given the file new content. *)
Lemma asks_reload_changed event : asks_reload target event = true <-> changed target event.
Proof.
  unfold asks_reload, changed. destruct event as [e|]; [|split; [done|by intros (? & [=] & _)]].
  rewrite andb_true_iff, existsb_exists. split.
  - intros [(name & Hin & E%bool_decide_eq_true) Hk]. exists e. subst.
    split_and!; [done|by apply list_elem_of_In|].
    destruct (fe_kind e) as [|[| | |[]|]| |[]| |]; try done; constructor.
  - intros (? & [= <-] & Hin & Hr). split; [|by destruct Hr].
    exists target. by rewrite bool_decide_eq_true, <-list_elem_of_In.
Qed.

(** What is waiting to be reloaded is queued, or being waited out, and
    nothing else is. *)
Record watch_inv (w : Watch) : Prop := {
  wi_queue : (wt_queue w <= CHANNEL)%nat;
  wi_covered : 0 <= wt_covered w <= wt_changes w;
  wi_pending : wt_covered w < wt_changes w -> wt_task w <> WatchEnded ->
    (0 < wt_queue w)%nat \/ exists since, wt_task w = Debouncing since;
  wi_ended : wt_task w = WatchEnded -> wt_alive w = false;
  wi_reloads : Z.of_nat (length (wt_reloads w) + wt_queue w) +
    (if wt_task w is Debouncing _ then 1 else 0) <= wt_changes w;
}.

Lemma watch_event_inv now ev w w' : watch_inv w -> watch_event now ev w = Some w' -> watch_inv w'.
Proof.
  destruct w as [queue alive task changes covered reloads]. intros [Hq Hc Hp He Hr] H. simpl in *.
  destruct ev as [event| | |]; simpl in H.
  - destruct alive; [|done]. simpl in H. pose proof (asks_reload_changed event) as Ha.
    destruct (asks_reload target event); simplify_eq.
    + rewrite (decide_True (P := changed target event)) by (by apply Ha). constructor; simpl; try done; [case_decide; lia|lia| |case_decide; lia].
      intros _ _. left. case_decide; unfold CHANNEL in *; lia.
    + rewrite (decide_False (P := changed target event)) by (by intros ?%Ha). by constructor.
  - injection H as <-. constructor; simpl; try done; lia.
  - destruct task, queue as [|queue]; try done; [destruct alive|..|destruct alive|]; simplify_eq;
      constructor; simpl in *; try done; try lia; intros; right; eauto.
  - destruct task; try done. destruct (_ <=? _); [|done]. simplify_eq.
    constructor; simpl; try done; rewrite ?length_app; simpl; lia.
Qed.

Lemma watch_reach_inv w : watch_reach w -> watch_inv w.
Proof.
  induction 1; [|by eapply watch_event_inv]. constructor; simpl; unfold CHANNEL; done || lia.
Qed.

(** The task left alone from [now] on: it takes what is queued, then waits
    the debounce out. *)
Fixpoint watch_settles (fuel : nat) (now : Z) (w : Watch) : option Watch :=
  match fuel with
  | O => None
  | S fuel =>
      match wt_task w, wt_queue w with
      | Receiving, O => Some w
      | WatchEnded, _ => Some w
      | Debouncing since, O =>
          match watch_event (Z.max now (since + debounce)) SleepEnds w with
          | Some w' => watch_settles fuel (Z.max now (since + debounce)) w'
          | None => None
          end
      | _, S _ =>
          match receive now w with Some w' => watch_settles fuel now w' | None => None end
      end
  end.

(** Taking what is queued. *)
Lemma settles_queue n fuel now w :
  wt_queue w = n -> (0 < n)%nat -> wt_task w <> WatchEnded ->
  watch_settles (n + fuel) now w =
  watch_settles fuel now
    (mkWatch 0 (wt_alive w) (Debouncing now) (wt_changes w) (wt_covered w) (wt_reloads w)).
Proof.
  destruct w as [queue alive task changes covered reloads]. simpl.
  intros ->. revert task. induction n as [|n IH]; intros task Hn Ht; [lia|].
  simpl. destruct task; [| |done]; (destruct (decide (n = 0%nat)) as [->|]; [done|apply IH; [lia|done]]).
Qed.

Lemma settles_idle fuel now w :
  wt_task w = Receiving -> wt_queue w = 0%nat -> watch_settles (1 + fuel) now w = Some w.
Proof. destruct w. simpl. by intros -> ->. Qed.

(** Waiting the debounce out, with nothing more to take. *)
Lemma settles_quiet fuel now since w :
  wt_task w = Debouncing since -> wt_queue w = 0%nat ->
  watch_settles (2 + fuel) now w =
  Some (mkWatch 0 (wt_alive w) Receiving (wt_changes w) (wt_changes w)
          (wt_reloads w ++ [Z.max now (since + debounce)])).
Proof.
  destruct w as [queue alive task changes covered reloads]. simpl. intros -> ->. simpl.
  by rewrite (proj2 (Z.leb_le _ _)) by lia.
Qed.

(** With something to take, or to wait out, one reload follows. *)
Lemma settles_once now w :
  (wt_queue w <= CHANNEL)%nat -> wt_task w <> WatchEnded ->
  ((0 < wt_queue w)%nat \/ exists since, wt_task w = Debouncing since) ->
  exists since, (since = now \/ wt_task w = Debouncing since) /\
  watch_settles (CHANNEL + 3) now w =
  Some (mkWatch 0 (wt_alive w) Receiving (wt_changes w) (wt_changes w)
          (wt_reloads w ++ [Z.max now (since + debounce)])).
Proof.
  intros Hq Ht Hp. destruct (decide (wt_queue w = 0%nat)) as [E|E].
  - destruct Hp as [?|[since Hs]]; [lia|]. exists since. split; [by right|].
    replace (CHANNEL + 3)%nat with (2 + (CHANNEL + 1))%nat by lia. by apply settles_quiet.
  - exists now. split; [by left|].
    replace (CHANNEL + 3)%nat with (wt_queue w + (2 + (CHANNEL + 1 - wt_queue w)))%nat by lia.
    rewrite (settles_queue (wt_queue w)) by (done || lia). by rewrite (settles_quiet _ _ now).
Qed.

End Watching.

(** ** A file written twice within the debounce *)

Definition rewritten : Watch :=
  mkWatch 1 true (Debouncing 100) 2 0 [].

