(* ===== verification/Metrics.v ===== *)
(** * What a node tells in numbers: [gfe/proxy/src/metrics]

    The families registered, with their labels and their histograms' bounds,
    and the figures of the process, read from the texts of /proc. *)

From S2P Require Import Prelude Str Text SpecF64.
From Stdlib Require Import Ascii.

(** ** Labels *)

(** The structs of labels, with the names their fields give the labels. *)
Inductive ProxyLabels :=
| ListenerLabel | RejectLabel | CloseLabels | TlsLabels | TlsFailureLabel | TlsResultLabel
| RequestLabels | RouteLabels | AbortLabels | GrpcLabels | UpstreamLabels | UpstreamErrorLabels
| PoolLabel | UpstreamDurationLabels.

Definition proxy_names (l : ProxyLabels) : list string :=
  match l with
  | ListenerLabel => ["listener"]
  | RejectLabel => ["reason"]
  | CloseLabels => ["listener"; "reason"]
  | TlsLabels => ["version"; "cipher"; "alpn"; "resumed"]
  | TlsFailureLabel => ["reason"]
  | TlsResultLabel => ["result"]
  | RequestLabels => ["listener"; "vhost"; "route"; "status"]
  | RouteLabels => ["listener"; "vhost"; "route"]
  | AbortLabels => ["listener"; "vhost"; "route"; "by"]
  | GrpcLabels => ["listener"; "vhost"; "route"; "grpc_status"]
  | UpstreamLabels => ["pool"; "backend"; "status"]
  | UpstreamErrorLabels => ["pool"; "backend"; "kind"]
  | PoolLabel => ["pool"]
  | UpstreamDurationLabels => ["pool"; "backend"]
  end%string.

Inductive ControlLabels := BackendLabels | SniLabel.

Definition control_names (l : ControlLabels) : list string :=
  match l with BackendLabels => ["pool"; "backend"] | SniLabel => ["sni"] end%string.

Inductive ProcessLabels := BuildLabels | LogDestinationLabel.

Definition process_names (l : ProcessLabels) : list string :=
  match l with BuildLabels => ["version"] | LogDestinationLabel => ["destination"] end%string.

Inductive KernelLabels := BackendLabel | ClientEndingLabels | UpstreamEndingLabels.

Definition kernel_names (l : KernelLabels) : list string :=
  match l with
  | BackendLabel => ["backend"]
  | ClientEndingLabels => ["listener"; "ending"]
  | UpstreamEndingLabels => ["backend"; "ending"]
  end%string.

(** ** Families *)

(** The bounds of a histogram, in units of ten microseconds. *)
Inductive MetricKind := KCounter | KGauge | KHistogram (bounds : list Z).

Record Registration := mkRegistration {
  rg_name : string;
  rg_labels : list string;
  rg_kind : MetricKind;
  rg_help : string;
}.

Definition register (name : string) (labels : list string) (kind : MetricKind) (help : string) :
    Registration := mkRegistration name labels kind help.

Definition latency_buckets : list Z :=
  [100; 500; 1000; 2500; 5000; 10000; 25000; 50000; 100000; 500000; 3000000].

Definition lifetime_histogram : list Z :=
  [1000; 10000; 50000; 100000; 500000; 1500000; 6000000; 30000000; 90000000; 360000000].

Definition queue_wait_histogram : list Z :=
  [5; 10; 25; 50; 100; 250; 500; 1000; 5000; 10000; 50000; 100000].

Definition rtt_histogram : list Z :=
  [10; 25; 50; 100; 250; 500; 1000; 2500; 5000; 10000; 25000; 50000; 100000].

#[local] Open Scope string_scope.

(** [ProxyMetrics::register]: connections, requests, then backends. *)
Definition connection_families : list Registration :=
  [register "gfe_connections_accepted" (proxy_names ListenerLabel) KCounter
     "Client connections accepted";
   register "gfe_connections_active" [] KGauge
     "Currently open client connections";
   register "gfe_listener_connections_active" (proxy_names ListenerLabel) KGauge
     "Currently open client connections per listener";
   register "gfe_connections_limit" [] KGauge
     "Configured limit on open client connections (max_connections)";
   register "gfe_listener_connections_limit" [] KGauge
     "Configured limit on open client connections per listener (max_connections_listener)";
   register "gfe_connections_rejected" (proxy_names RejectLabel) KCounter
     "Connections closed at accept, by reason: a connection limit (limit), the client's connection rate (client_rate), a TLS handshake that did not finish in time (handshake_timeout)";
   register "gfe_client_rate_untracked" [] KGauge
     "Connections served without counting against their client's connection rate, because the node already followed as many clients as it can";
   register "gfe_connections_closed" (proxy_names CloseLabels) KCounter
     "Closed client connections by reason";
   register "gfe_connection_duration_seconds" (proxy_names ListenerLabel) (KHistogram lifetime_histogram)
     "Lifetime of client connections";
   register "gfe_accept_queue_wait_seconds" (proxy_names ListenerLabel) (KHistogram queue_wait_histogram)
     "Time connections spent established but not yet accepted (needs the eBPF view)";
   register "gfe_tls_handshakes" (proxy_names TlsResultLabel) KCounter
     "TLS handshakes by result";
   register "gfe_tls_handshake_failures" (proxy_names TlsFailureLabel) KCounter
     "Failed TLS handshakes by reason";
   register "gfe_tls_connections" (proxy_names TlsLabels) KCounter
     "TLS connections established, by negotiated parameters";
   register "gfe_tls_handshake_duration_seconds" [] (KHistogram latency_buckets)
     "TLS handshake latency";
   register "gfe_tls_sni_no_cert" [] KCounter
     "Handshakes with no matching certificate"].

Definition request_families : list Registration :=
  [register "gfe_requests" (proxy_names RequestLabels) KCounter
     "Finished requests by route and status (499: abandoned by the client before a response)";
   register "gfe_requests_in_flight" [] KGauge
     "Requests received whose response is not finished yet";
   register "gfe_requests_aborted" (proxy_names AbortLabels) KCounter
     "Requests broken off before completion, by who did it (client, upstream)";
   register "gfe_request_duration_seconds" (proxy_names RouteLabels) (KHistogram latency_buckets)
     "Time from request head to the last byte of the response";
   register "gfe_request_body_bytes" (proxy_names RouteLabels) KCounter
     "Request body bytes received from clients";
   register "gfe_response_body_bytes" (proxy_names RouteLabels) KCounter
     "Response body bytes sent to clients";
   register "gfe_grpc_responses" (proxy_names GrpcLabels) KCounter
     "Finished gRPC calls by gRPC status code (0 is OK)";
   register "gfe_no_route" [] KCounter
     "Requests matching no route";
   register "gfe_no_healthy_upstream" [] KCounter
     "Requests with no healthy upstream"].

Definition upstream_families : list Registration :=
  [register "gfe_upstream_requests" (proxy_names UpstreamLabels) KCounter
     "Upstream requests by pool/backend/status";
   register "gfe_upstream_request_duration_seconds" (proxy_names UpstreamDurationLabels) (KHistogram latency_buckets)
     "Upstream round-trip latency";
   register "gfe_upstream_connect_errors" [] KCounter
     "Upstream requests that failed before any response (all kinds)";
   register "gfe_upstream_errors" (proxy_names UpstreamErrorLabels) KCounter
     "Upstream requests that failed before any response, by kind";
   register "gfe_upstream_retries" (proxy_names PoolLabel) KCounter
     "Requests retried against another backend selection";
   register "gfe_upstream_pool_full" (proxy_names PoolLabel) KCounter
     "Requests refused because their pool had max_in_flight requests in flight";
   register "gfe_upstream_pool_rate_limited" (proxy_names PoolLabel) KCounter
     "Requests refused because their pool had admitted max_requests_per_second requests within the last second";
   register "gfe_upstream_requests_in_flight" (proxy_names UpstreamDurationLabels) KGauge
     "Requests a backend is currently working on, until the response ends";
   register "gfe_upstream_connections" [] KGauge
     "Upstream connections open, over all backends";
   register "gfe_upstream_connections_limit" [] KGauge
     "Configured limit on open upstream connections (max_upstream_connections)";
   register "gfe_bytes_in" (proxy_names ListenerLabel) KCounter
     "Bytes read from client sockets (on the wire, TLS included)";
   register "gfe_bytes_out" (proxy_names ListenerLabel) KCounter
     "Bytes written to client sockets (on the wire, TLS included)"].

Definition proxy_register : list Registration :=
  (connection_families ++ request_families ++ upstream_families)%list.

(** [ControlMetrics::register]. *)
Definition control_register : list Registration :=
  [register "gfe_backend_health_status" (control_names BackendLabels) KGauge
     "1=HEALTHY, 0=otherwise, per backend";
   register "gfe_backend_draining" (control_names BackendLabels) KGauge
     "1 if backend is in lame-duck DRAINING";
   register "gfe_health_check_duration_seconds" [] (KHistogram [100; 500; 1000; 5000; 10000; 50000; 100000; 200000])
     "Health probe round-trip time";
   register "gfe_config_last_reload_timestamp" [] KGauge
     "Unix time of last successful dynamic-config reload";
   register "gfe_config_reload_errors" [] KCounter
     "Failed reloads (old snapshot kept)";
   register "gfe_config_reload_failed" [] KGauge
     "Whether the last attempt to load the dynamic config failed (1) or succeeded (0)";
   register "gfe_config_from_cache" [] KGauge
     "Whether the node serves its last-known-good cache (1) because the deployed dynamic config was unusable at startup";
   register "gfe_upgrade_failures" [] KCounter
     "In-place upgrades that failed (the node went on serving as it was)";
   register "gfe_cert_expiry_timestamp" (control_names SniLabel) KGauge
     "Certificate not-after Unix time per SNI";
   register "gfe_active_routes" [] KGauge
     "Routes in the current snapshot";
   register "gfe_active_pools" [] KGauge
     "Pools in the current snapshot"].

(** [ProcessMetrics::register]. *)
Definition process_register : list Registration :=
  [register "gfe_build_info" (process_names BuildLabels) KGauge
     "Build version (always 1)";
   register "process_start_time_seconds" [] KGauge
     "Start time of the process, Unix seconds";
   register "process_open_fds" [] KGauge
     "Open file descriptors";
   register "process_max_fds" [] KGauge
     "Maximum number of open file descriptors";
   register "process_resident_memory_bytes" [] KGauge
     "Resident memory size";
   register "process_cpu_seconds" [] KCounter
     "User and system CPU time spent";
   register "gfe_runtime_workers" [] KGauge
     "Worker threads of the async runtime";
   register "gfe_runtime_alive_tasks" [] KGauge
     "Tasks alive on the async runtime";
   register "gfe_runtime_global_queue_depth" [] KGauge
     "Tasks queued for a free runtime worker";
   register "gfe_log_lost_lines" (process_names LogDestinationLabel) KGauge
     "Log lines that were never written because their destination was too slow or refused them"].

(** [KernelMetrics::register]. *)
Definition kernel_register : list Registration :=
  [register "gfe_ebpf_attached" [] KGauge
     "Whether the kernel program is attached (1) and the gfe_*_tcp_* metrics are being fed";
   register "gfe_ebpf_lost_events" [] KGauge
     "Closed connections the kernel could not report because the reader fell behind";
   register "gfe_client_tcp_rtt_seconds" (proxy_names ListenerLabel) (KHistogram rtt_histogram)
     "Round-trip time to clients, measured by the kernel, when their connection closed";
   register "gfe_client_tcp_segments_sent" (proxy_names ListenerLabel) KCounter
     "TCP segments sent to clients on connections that have closed";
   register "gfe_client_tcp_retransmits" (proxy_names ListenerLabel) KCounter
     "TCP segments retransmitted to clients on connections that have closed";
   register "gfe_client_tcp_closes" (kernel_names ClientEndingLabels) KCounter
     "Closed client connections by how they ended at the TCP level";
   register "gfe_upstream_tcp_rtt_seconds" (kernel_names BackendLabel) (KHistogram rtt_histogram)
     "Round-trip time to backends, measured by the kernel, when a connection to them closed";
   register "gfe_upstream_tcp_segments_sent" (kernel_names BackendLabel) KCounter
     "TCP segments sent to backends on connections that have closed";
   register "gfe_upstream_tcp_retransmits" (kernel_names BackendLabel) KCounter
     "TCP segments retransmitted to backends on connections that have closed";
   register "gfe_upstream_tcp_closes" (kernel_names UpstreamEndingLabels) KCounter
     "Closed connections to backends by how they ended at the TCP level"].

#[local] Close Scope string_scope.

(** [GfeMetrics::new]: what is registered, in order. *)
Definition gfe_metrics_new : list Registration :=
  proxy_register ++ control_register ++ process_register ++ kernel_register.

(** ** The process: [process.rs] *)

Definition USER_HZ : f64 := f64_of_int 100.

Definition wrap_i64 (n : Z) : Z := (n + 2 ^ 63) mod 2 ^ 64 - 2 ^ 63.

(** The soft limit on open files, from [/proc/<pid>/limits]. *)
Definition max_open_files (limits : str) : option Z :=
  line ← find_first (starts_with (lit "Max open files")) (lines limits);
  field ← split_whitespace line !! 3%nat; parse_i64 field.

(** The resident set size in bytes, from [/proc/<pid>/status]; the product
    wraps. *)
Definition resident_bytes (status : str) : option Z :=
  line ← find_first (starts_with (lit "VmRSS:")) (lines status);
  field ← split_whitespace line !! 1%nat;
  kilobytes ← parse_i64 field; Some (wrap_i64 (kilobytes * 1024)).

(** User plus system CPU time in seconds, from [/proc/<pid>/stat]. *)
Definition cpu_seconds (stat : str) : option f64 :=
  after_name ← after_last ")"%char stat;
  let fields := split_whitespace after_name in
  user ← fields !! 11%nat ≫= f64_parse;
  system ← fields !! 12%nat ≫= f64_parse;
  Some (fdiv (fadd user system) USER_HZ).

Record ProcessMetrics := mkProcessMetrics {
  pm_open_fds : Z;
  pm_max_fds : Z;
  pm_resident_memory_bytes : Z;
  pm_cpu_seconds : f64;
  pm_cpu_seconds_reported : f64;
}.

Definition process_metrics_new : ProcessMetrics :=
  mkProcessMetrics 0 0 0 (S754_zero false) (S754_zero false).

(** What /proc/self holds, where it can be read: the entries of [fd], the
    texts of [limits], [status] and [stat]. *)
Record ProcSelf := mkProcSelf {
  ps_fds : option Z;
  ps_limits : option str;
  ps_status : option str;
  ps_stat : option str;
}.

(** The mark under the lock, and the counter moved by what is new. *)
Definition count_cpu (total : option f64) (m : ProcessMetrics) : ProcessMetrics :=
  match total with
  | Some total =>
      if fgt total (pm_cpu_seconds_reported m) then
        mkProcessMetrics (pm_open_fds m) (pm_max_fds m) (pm_resident_memory_bytes m)
          (fadd (pm_cpu_seconds m) (fsub total (pm_cpu_seconds_reported m))) total
      else m
  | None => m
  end.

Definition refresh (proc : ProcSelf) (m : ProcessMetrics) : ProcessMetrics :=
  count_cpu (ps_stat proc ≫= cpu_seconds)
    (mkProcessMetrics
       (match ps_fds proc with Some n => Z.max 0 (n - 1) | None => pm_open_fds m end)
       (default (pm_max_fds m) (ps_limits proc ≫= max_open_files))
       (default (pm_resident_memory_bytes m) (ps_status proc ≫= resident_bytes))
       (pm_cpu_seconds m) (pm_cpu_seconds_reported m)).

(** [GfeMetrics::encode]: a scrape reads the process first. *)
Definition gfe_metrics_encode {R} (encode : ProcessMetrics -> R) (proc : ProcSelf) (m : ProcessMetrics) :
    ProcessMetrics * R := let m := refresh proc m in (m, encode m).

(** ** What is exposed is well formed *)

Definition name_char (c : ascii) : bool := is_ascii_alphanumeric c || bool_decide (c = "_"%char).

Definition identifier (s : str) : bool :=
  match s with c :: _ => negb (is_ascii_digit c) && forallb name_char s | [] => false end.

(** The names a family takes in the exposition: its own and those of its
    samples, as the metrics library forms them. *)
Definition names_taken (r : Registration) : list string :=
  let suffixed suffix := (rg_name r ++ suffix)%string in
  match rg_kind r with
  | KCounter => [rg_name r; suffixed "_total"]
  | KGauge => [rg_name r]
  | KHistogram _ => [rg_name r; suffixed "_bucket"; suffixed "_sum"; suffixed "_count"]
  end%string.

(** Labels that monitoring puts on every series itself, and the bound of a
    histogram's bucket. *)
Definition reserved_labels : list string := ["host"; "instance"; "job"; "le"]%string.

Fixpoint increasing (l : list Z) : bool :=
  match l with a :: ((b :: _) as l') => (a <? b) && increasing l' | _ => true end.

Definition family_ok (r : Registration) : bool :=
  identifier (lit (rg_name r)) &&
  negb (ends_with (lit "_total") (lit (rg_name r))) &&
  forallb (fun l => identifier (lit l) && negb (bool_decide (l ∈ reserved_labels))) (rg_labels r) &&
  bool_decide (NoDup (rg_labels r)) &&
  negb (existsb (fun c => bool_decide (c = line_feed)) (lit (rg_help r))) &&
  match rg_kind r with
  | KHistogram bounds => bool_decide (bounds <> []) && (0 <? hd 0 bounds) && increasing bounds
  | _ => true
  end.

(** Every family of a node can be exposed beside the others: the names are
    identifiers, no two families take the same name for themselves or for a
    sample, the labels are identifiers that differ and that monitoring does
    not use itself, and the bounds of every histogram increase. *)
Theorem families_well_formed :
  Forall (fun r => family_ok r = true) gfe_metrics_new /\
  NoDup (gfe_metrics_new ≫= names_taken).
Proof.
  split.
  - apply Forall_forall. intros r Hr. apply list_elem_of_In in Hr.
    revert r Hr. apply forallb_forall. vm_compute. reflexivity.
  - apply (bool_decide_eq_true_1 (NoDup _)). vm_compute. reflexivity.
Qed.

(** ** The process's figures are read as the kernel writes them *)

(** A line of [stat]: the process, its command's name, and the other fields. *)
Definition stat_line (pid : Z) (command : str) (fields : list (str * str)) : str :=
  decimal pid ++ lit " (" ++ command ++ ")"%char :: spaced fields.

(** A text that has a line beginning with [label], and none before it that
    does. *)
Definition labelled (label : str) (before : list str) (line : str) (text : str) : Prop :=
  Forall line_ok before /\ line_ok line /\
  Forall (fun l => starts_with label l = false) before /\ starts_with label line = true /\
  exists after, text = concat ((fun l => l ++ [line_feed]) <$> before) ++ line ++ [line_feed] ++ after.

Lemma labelled_found label before line text :
  labelled label before line text -> find_first (starts_with label) (lines text) = Some line.
Proof.
  intros (Hb & Hl & Hn & Hs & after & ->). induction Hb as [|l before Hl' _ IH].
  - cbn [fmap list_fmap concat]. rewrite app_nil_l, lines_cons by done. simpl. by rewrite Hs.
  - apply Forall_cons in Hn as [Hn1 Hn]. cbn [fmap list_fmap concat]. rewrite <-!app_assoc, lines_cons by done.
    simpl. rewrite Hn1. by apply IH.
Qed.

Lemma fields_no_paren fields :
  Forall (fun gw => is_gap gw.1 /\ is_word gw.2) fields -> Forall (fun gw => ")"%char ∉ gw.2) fields ->
  ")"%char ∉ spaced fields.
Proof.
  induction 1 as [|[g w] fields [[_ Hg] Hw] _ IH]; [set_solver|]. intros [Hp Hps]%Forall_cons.
  cbn [spaced fmap list_fmap concat fst snd]. fold (spaced fields). rewrite !elem_of_app.
  intros [[Hin|Hin]|Hin]; [|done|by apply IH].
  rewrite Forall_forall in Hg. by specialize (Hg _ Hin).
Qed.

(** Whatever the command of the process is called, its CPU time is the sum
    of its user and system ticks, in seconds. *)
Theorem cpu_time_read pid command fields user system :
  Forall (fun gw => is_gap gw.1 /\ is_word gw.2) fields -> Forall (fun gw => ")"%char ∉ gw.2) fields ->
  fields.*2 !! 11%nat = Some (decimal user) -> fields.*2 !! 12%nat = Some (decimal system) ->
  0 <= user < 10 ^ 40 -> 0 <= system < 10 ^ 40 ->
  cpu_seconds (stat_line pid command fields) =
    Some (fdiv (fadd (f64_of_int user) (f64_of_int system)) USER_HZ).
Proof.
  intros Hf Hp Hu Hs Hur Hsr. unfold cpu_seconds, stat_line.
  rewrite !app_assoc, after_last_app by (by apply fields_no_paren).
  cbn [mbind option_bind]. rewrite split_whitespace_after by done. rewrite Hu, Hs.
  cbn [mbind option_bind]. by rewrite !f64_parse_decimal.
Qed.

(** The resident memory is the kilobytes of its line, in bytes. *)
Lemma resident_memory_read before gap unit kilobytes text :
  is_gap gap -> is_word unit -> 0 <= kilobytes * 1024 <= i64_max ->
  labelled (lit "VmRSS:") before (lit "VmRSS:" ++ spaced [(gap, decimal kilobytes); ([space], unit)]) text ->
  resident_bytes text = Some (kilobytes * 1024).
Proof.
  intros Hg Hw Hkb Hl. unfold resident_bytes. rewrite (labelled_found _ _ _ _ Hl).
  cbn [mbind option_bind]. rewrite split_whitespace_spaced; [|by repeat constructor|].
  - change ((?[x] :: [(gap, decimal kilobytes); ([space], unit)].*2) !! 1%nat) with (Some (decimal kilobytes)).
    cbn [mbind option_bind]. rewrite parse_i64_decimal by lia. cbn [mbind option_bind]. f_equal. unfold wrap_i64, i64_max in *. rewrite Z.mod_small; lia.
  - repeat constructor; simpl; (done || apply Hg || apply Hw || apply decimal_word).
Qed.

(** The limit on open files is the soft one, the first of its line. *)
Lemma open_files_limit_read before gap gap' soft hard unit text :
  is_gap gap -> is_gap gap' -> is_word hard -> is_word unit -> 0 <= soft <= i64_max ->
  labelled (lit "Max open files") before
    (lit "Max open files" ++ spaced [(gap, decimal soft); (gap', hard); (gap', unit)]) text ->
  max_open_files text = Some soft.
Proof.
  intros Hg Hg' Hh Hw Hsoft Hl. unfold max_open_files.
  rewrite (labelled_found _ _ _ _ Hl). cbn [mbind option_bind].
  change (lit "Max open files") with (lit "Max" ++ spaced [([space], lit "open"); ([space], lit "files")]).
  rewrite <-app_assoc, <-spaced_app, split_whitespace_spaced; [|by repeat constructor|].
  - by apply parse_i64_decimal.
  - repeat constructor; simpl; (done || apply Hg || apply Hg' || apply Hh || apply Hw || apply decimal_word).
Qed.

(** ** The CPU counter *)

(** The totals read at successive scrapes, and the largest of them. *)
Definition scrapes (totals : list (option f64)) (m : ProcessMetrics) : ProcessMetrics :=
  foldl (fun m total => count_cpu total m) m totals.

Definition larger (mark : f64) (total : option f64) : f64 :=
  match total with Some total => if fgt total mark then total else mark | None => mark end.

(** A scrape that reads nothing, a total that has gone back, or one that is
    not a number moves nothing; the mark is the largest total read. *)
Lemma cpu_mark_largest totals m :
  pm_cpu_seconds_reported (scrapes totals m) = foldl larger (pm_cpu_seconds_reported m) totals /\
  (Forall (fun t => match t with Some t => fgt t (pm_cpu_seconds_reported m) = false | None => True end) totals ->
   scrapes totals m = m).
Proof.
  unfold scrapes. split.
  - revert m. induction totals as [|t totals IH]; intros m; [done|]. cbn [foldl]. rewrite IH. f_equal.
    unfold count_cpu, larger. destruct t as [t|]; [|done]. by destruct (fgt t _).
  - induction totals as [|t totals IH]; [done|]. intros [Ht Hts]%Forall_cons. cbn [foldl].
    replace (count_cpu t m) with m; [by apply IH|]. unfold count_cpu. destruct t as [t|]; [|done]. by rewrite Ht.
Qed.
