(* ===== verification/Ops.v ===== *)
(** * The node's own endpoints: [gfe/node/src/ops.rs], with the exposition of
    [lib/observability/src/lib.rs]

    What [/healthz], [/readyz] and [/metrics] answer, and what a scrape brings
    up to date first, the front end's readings included. The exposition of the
    registry is the metrics library's, an argument; dropping the metadata of
    its histograms is the program's. [OpsServe] has the connections that ask. *)

From S2P Require Import Prelude Str Net Text Server.
From Stdlib Require Import Ascii.

(** ** The exposition without its histograms' metadata *)

(** The family a line declares to be a histogram. *)
Definition histogram_of (line : str) : option str :=
  rest ← strip_prefix (lit "# TYPE ") line; strip_suffix (lit " histogram") rest.

Definition first_word (rest : str) : str := default [] (head (split_on " "%char rest)).

Definition metadata_prefixes : list str := [lit "# HELP "; lit "# TYPE "; lit "# UNIT "].

Definition describes_a_histogram (histograms : list str) (line : str) : bool :=
  existsb (fun prefix =>
    match strip_prefix prefix line with
    | Some rest => bool_decide (first_word rest ∈ histograms)
    | None => false
    end) metadata_prefixes.

Definition without_histogram_metadata (exposition : str) : str :=
  let histograms := omap histogram_of (lines exposition) in
  concat ((fun line => line ++ [line_feed]) <$>
    keep (fun line => negb (describes_a_histogram histograms line)) (lines exposition)).

(** ** The endpoints *)

Definition OPS_MAX_CONNECTIONS : Z := 64.
Definition HEADER_READ_TIMEOUT : Z := from_secs 5.

Definition CONNECTION_OPTIONS : ServerOptions :=
  mkServerOptions HEADER_READ_TIMEOUT HEADER_READ_TIMEOUT HEADER_READ_TIMEOUT (from_secs 1)
    SERVER_MIN_HEADER_BYTES 4.

Definition OPENMETRICS : str := lit "application/openmetrics-text; version=1.0.0; charset=utf-8".

Inductive Histograms := HistogramsTyped | HistogramsUntyped.

Definition asked_by (query : option str) : result Histograms str :=
  match head (omap (strip_prefix (lit "histograms=")) (split_on "&"%char (default [] query))) with
  | None => Ok HistogramsTyped
  | Some value => if str_eqb value (lit "untyped") then Ok HistogramsUntyped else Err value
  end.

Record OpsAnswer := mkOpsAnswer { oa_status : Z; oa_content_type : option str; oa_body : str }.

Definition ops_text (status : Z) (body : str) : OpsAnswer :=
  mkOpsAnswer status None (body ++ [line_feed]).

(** The proxy, once it serves, and whether it drains. *)
Record Ops := mkOps { ops_frontend : option bool }.

Definition ops_new : Ops := mkOps None.

(** The first call decides; a second changes nothing. *)
Definition ops_serving (draining : bool) (o : Ops) : Ops :=
  match ops_frontend o with None => mkOps (Some draining) | Some _ => o end.

Definition is_ready (handed_over : bool) (o : Ops) : bool :=
  handed_over || match ops_frontend o with Some draining => negb draining | None => false end.

(** What is sampled for a scrape. *)
Record Sampled := mkSampled {
  sp_workers : Z;
  sp_alive_tasks : Z;
  sp_queue_depth : Z;
  sp_lost_lines : gmap str Z;
  sp_upstream_connections : Z;
  sp_client_rate_untracked : Z;
  sp_ebpf_lost_events : Z;
}.

Record Runtime := mkRuntime { rt_workers : Z; rt_alive_tasks : Z; rt_queue_depth : Z }.

Definition sample (rt : Runtime) (lost : list (str * Z)) (m : Sampled) : Sampled :=
  mkSampled (gauge_i64 (rt_workers rt)) (gauge_i64 (rt_alive_tasks rt)) (gauge_i64 (rt_queue_depth rt))
    (foldl (fun m dl => <[dl.1 := gauge_i64 dl.2]> m) (sp_lost_lines m) lost)
    (sp_upstream_connections m) (sp_client_rate_untracked m) (sp_ebpf_lost_events m).

(** What [Frontend::refresh_metrics] reads: the connections open to backends,
    those of peers no rate was kept for, and the events the kernel view lost,
    when there is one. *)
Record Readings := mkReadings {
  rd_open_connections : Z;
  rd_untracked : Z;
  rd_lost_events : option Z;
}.

Definition refresh_sampled (r : Readings) (m : Sampled) : Sampled :=
  mkSampled (sp_workers m) (sp_alive_tasks m) (sp_queue_depth m) (sp_lost_lines m)
    (gauge_i64 (rd_open_connections r)) (gauge_i64 (rd_untracked r))
    (match rd_lost_events r with Some lost => gauge_i64 lost | None => sp_ebpf_lost_events m end).

Section Answers.
(** The text of the registry, or a panic of the task that writes it. *)
Context (encode : Sampled -> option str).

Definition ops_metrics (rt : Runtime) (lost : list (str * Z)) (r : Readings) (histograms : Histograms) (o : Ops)
    (m : Sampled) : Sampled * OpsAnswer :=
  let m := sample rt lost m in
  let m := match ops_frontend o with Some _ => refresh_sampled r m | None => m end in
  (m, match encode m with
      | Some text =>
          let body := match histograms with
                      | HistogramsTyped => text
                      | HistogramsUntyped => without_histogram_metadata text
                      end in
          mkOpsAnswer 200 (Some OPENMETRICS) body
      | None => ops_text 500 (lit "metrics unavailable")
      end).

Definition ops_answer (rt : Runtime) (lost : list (str * Z)) (r : Readings) (path : str) (query : option str)
    (handed_over : bool) (o : Ops) (m : Sampled) : Sampled * OpsAnswer :=
  if str_eqb path (lit "/healthz") then (m, ops_text 200 (lit "ok"))
  else if str_eqb path (lit "/readyz") then
    (m, if is_ready handed_over o then ops_text 200 (lit "ready") else ops_text 503 (lit "not ready"))
  else if str_eqb path (lit "/metrics") then
    match asked_by query with
    | Ok histograms => ops_metrics rt lost r histograms o m
    | Err unknown =>
        (m, ops_text 400 (lit "unknown value for histograms: " ++ unknown ++ lit " (known: untyped)"))
    end
  else (m, ops_text 404 (lit "not found")).
End Answers.

(** [listen]: the socket inherited, if it is for this address, or a new one. *)
Definition ops_listen {S E} (bind : SocketAddr -> result S E) (adopt : S -> result S E) (addr : SocketAddr)
    (inherited : option (SocketAddr * S)) : result S E :=
  match inherited with
  | Some (configured_on, socket) => if decide (configured_on = addr) then adopt socket else bind addr
  | None => bind addr
  end.

(** ** What is left of an exposition *)

Definition histograms_of (exposition : str) : list str := omap histogram_of (lines exposition).

(** A line of a family's metadata. *)
Definition metadata (prefix family rest line : str) : Prop :=
  prefix ∈ metadata_prefixes /\ " "%char ∉ family /\
  (rest = [] \/ exists r, rest = " "%char :: r) /\ line = prefix ++ family ++ rest.

Lemma split_on_none c s : c ∉ s -> split_on c s = [s].
Proof.
  induction s as [|d s IH]; [done|]. intros [Hd Hs]%not_elem_of_cons. simpl.
  by rewrite bool_decide_false, IH.
Qed.

Lemma first_word_family family rest :
  " "%char ∉ family -> rest = [] \/ (exists r, rest = " "%char :: r) -> first_word (family ++ rest) = family.
Proof.
  intros Hf [->|[r ->]]; unfold first_word; [rewrite app_nil_r, split_on_none|rewrite split_on_app]; done.
Qed.

Lemma existsb_unique {A} (f : A -> bool) l x :
  x ∈ l -> (forall y, y ∈ l -> y <> x -> f y = false) -> existsb f l = f x.
Proof.
  intros Hx Hy. destruct (f x) eqn:E.
  - apply existsb_exists. exists x. by rewrite <-list_elem_of_In.
  - destruct (existsb f l) eqn:E'; [|done]. apply existsb_exists in E' as (y & Hin & Hf).
    apply list_elem_of_In in Hin. destruct (f y) eqn:E2; [|done].
    assert (y <> x) as Hne by congruence. by rewrite (Hy y Hin Hne) in E2.
Qed.

Lemma metadata_prefix_length p : p ∈ metadata_prefixes -> length p = 7%nat.
Proof.
  assert (Forall (fun p => length p = 7%nat) metadata_prefixes) as H by (repeat constructor).
  rewrite Forall_forall in H. apply H.
Qed.

(** Metadata are told by their prefix: the three begin differently. *)
Lemma describes_metadata histograms prefix family rest line :
  metadata prefix family rest line ->
  describes_a_histogram histograms line = bool_decide (family ∈ histograms).
Proof.
  intros (Hp & Hf & Hr & ->). unfold describes_a_histogram.
  assert (Hx : forall p, p ∈ metadata_prefixes ->
    strip_prefix p (prefix ++ family ++ rest) = if decide (p = prefix) then Some (family ++ rest) else None).
  { intros p Hp'. destruct (decide (p = prefix)) as [->|Hne]; [by apply strip_prefix_Some|].
    destruct (strip_prefix p _) as [r|] eqn:E; [|done]. apply strip_prefix_Some in E. exfalso. apply Hne. symmetry in E.
    apply app_inj_1 in E as [E _]; [done|]. by rewrite !metadata_prefix_length. }
  rewrite (existsb_unique _ _ prefix Hp).
  - rewrite Hx, decide_True by done. by rewrite first_word_family.
  - intros p Hp' Hne. by rewrite Hx, decide_False.
Qed.

Lemma describes_sample histograms line :
  starts_with (lit "# ") line = false -> describes_a_histogram histograms line = false.
Proof.
  intros Hs. unfold describes_a_histogram.
  assert (forall word rest, strip_prefix (lit "# " ++ word) line = Some rest -> False) as H.
  { intros word rest E%strip_prefix_Some. rewrite <-app_assoc in E.
    assert (starts_with (lit "# ") line = true) by (apply starts_with_iff; by eexists). congruence. }
  simpl. destruct (strip_prefix (lit "# HELP ") line) eqn:E1; [by destruct (H (lit "HELP ") _ E1)|].
  destruct (strip_prefix (lit "# TYPE ") line) eqn:E2; [by destruct (H (lit "TYPE ") _ E2)|].
  destruct (strip_prefix (lit "# UNIT ") line) eqn:E3; [by destruct (H (lit "UNIT ") _ E3)|]. done.
Qed.

Lemma describes_subset h h' line :
  h' ⊆ h -> describes_a_histogram h line = false -> describes_a_histogram h' line = false.
Proof.
  intros Hs. unfold describes_a_histogram. induction metadata_prefixes as [|p ps IH]; simpl; [done|].
  rewrite !orb_false_iff. intros [Hp Hps]. split; [|by apply IH].
  destruct (strip_prefix p line); [|done]. bool_facts. apply bool_decide_eq_false_2. set_solver.
Qed.

(** The exposition asked for without its histograms keeps, in order,
    every line but the metadata of the families declared as histograms: no
    metadata of such a family is left, those of every other family are, and
    so is every sample. Doing it again changes nothing. *)
Theorem untyped_exposition exposition :
  carriage_return ∉ exposition ->
  let out := without_histogram_metadata exposition in
  lines out = keep (fun l => negb (describes_a_histogram (histograms_of exposition) l)) (lines exposition) /\
  (forall prefix family rest line, metadata prefix family rest line -> line ∈ lines exposition ->
     (line ∈ lines out <-> family ∉ histograms_of exposition)) /\
  (forall line, line ∈ lines exposition -> starts_with (lit "# ") line = false -> line ∈ lines out) /\
  without_histogram_metadata out = out.
Proof.
  intros Hc out.
  assert (Hl : lines out =
    keep (fun l => negb (describes_a_histogram (histograms_of exposition) l)) (lines exposition)).
  { unfold out, without_histogram_metadata. rewrite lines_written; [done|].
    apply Forall_forall. intros l [Hl _]%elem_of_keep. by apply (Forall_forall line_ok (lines exposition)), Hl; apply lines_ok. }
  split; [done|]. split_and!.
  - intros prefix family rest line Hm Hin. rewrite Hl, elem_of_keep, (describes_metadata _ _ _ _ _ Hm).
    rewrite negb_true_iff, bool_decide_eq_false. naive_solver.
  - intros line Hin Hs. rewrite Hl, elem_of_keep. split; [done|]. apply negb_true_iff.
    by apply describes_sample.
  - unfold without_histogram_metadata at 1. fold (histograms_of out).
    transitivity (concat ((fun line => line ++ [line_feed]) <$> lines out)); [|by rewrite Hl].
    do 2 f_equal. rewrite Hl at 2. rewrite Hl at 1. apply keep_all. intros l [Hin Hd]%elem_of_keep. apply negb_true_iff in Hd. apply negb_true_iff.
    eapply describes_subset; [|exact Hd]. intros f [x [Hx Hf]]%list_elem_of_omap.
    rewrite Hl in Hx. apply elem_of_keep in Hx as [Hx _]. apply list_elem_of_omap. by exists x.
Qed.

(** ** The endpoints answer *)

(** The options of the endpoints' connections are ones the server takes. *)
Lemma connection_options_valid : options_typed CONNECTION_OPTIONS /\ options_validate CONNECTION_OPTIONS = Ok ().
Proof. split; [|vm_compute; reflexivity]. split_and!; apply Z.leb_le; reflexivity. Qed.

(** Ready exactly once the node serves and until it drains, or from when
    another process has the socket. *)
Lemma readyz_status encode rt lost r query handed_over o m :
  oa_status (ops_answer encode rt lost r (lit "/readyz") query handed_over o m).2 =
  if is_ready handed_over o then 200 else 503.
Proof. unfold ops_answer. cbn. by destruct (is_ready handed_over o). Qed.

Lemma ready_iff handed_over o :
  is_ready handed_over o = true <-> handed_over = true \/ ops_frontend o = Some false.
Proof. unfold is_ready. destruct handed_over, (ops_frontend o) as [[]|]; simpl; intuition congruence. Qed.

(** Only a scrape says what the exposition holds; any other answer is one
    line of text. *)
Lemma answer_kinds encode rt lost r path query handed_over o m :
  let a := (ops_answer encode rt lost r path query handed_over o m).2 in
  (oa_status a = 200 /\ oa_content_type a = Some OPENMETRICS /\ path = lit "/metrics") \/
  (oa_status a ∈ [200; 400; 404; 500; 503] /\ oa_content_type a = None).
Proof.
  unfold ops_answer.
  destruct (str_eqb path (lit "/healthz")); [right; split; [set_solver|done]|].
  destruct (str_eqb path (lit "/readyz")).
  { right. destruct (is_ready _ _); (split; [set_solver|done]). }
  destruct (str_eqb path (lit "/metrics")) eqn:E; [|right; split; [set_solver|done]].
  apply str_eqb_eq in E. destruct (asked_by query); [|right; split; [set_solver|done]].
  unfold ops_metrics. simpl. destruct (encode _); [by left|right; split; [set_solver|done]].
Qed.

(** A scrape answers with the registry as it is brought up to date: the
    runtime's figures and the log's losses always, and what the proxy reads
    once it serves. *)
Lemma scrape_up_to_date encode rt lost r query handed_over o m histograms :
  asked_by query = Ok histograms ->
  let m' := (ops_answer encode rt lost r (lit "/metrics") query handed_over o m).1 in
  m' = (match ops_frontend o with Some _ => refresh_sampled r (sample rt lost m) | None => sample rt lost m end) /\
  oa_status (ops_answer encode rt lost r (lit "/metrics") query handed_over o m).2 =
    (match encode m' with Some _ => 200 | None => 500 end).
Proof. intros Hq. unfold ops_answer. cbn. rewrite Hq. unfold ops_metrics. cbn. split; [done|]. by destruct (encode _). Qed.

(** ** A scrape *)

Definition example_exposition : str := concat ((fun l => l ++ [line_feed]) <$>
  [lit "# HELP wait_seconds Time waited"; lit "# TYPE wait_seconds histogram";
   lit "wait_seconds_count 3"; lit "# TYPE up gauge"; lit "up 1"; lit "# EOF"]).

Lemma untyped_exposition_witness :
  lines (without_histogram_metadata example_exposition) =
  [lit "wait_seconds_count 3"; lit "# TYPE up gauge"; lit "up 1"; lit "# EOF"].
Proof.
  destruct (untyped_exposition example_exposition) as [H _].
  - apply (bool_decide_eq_true_1 (carriage_return ∉ example_exposition)). vm_compute. reflexivity.
  - rewrite H. vm_compute. reflexivity.
Defined.
