(* ===== verification/OpsServe.v ===== *)
(** * Serving the node's own endpoints: [serve] of [gfe/node/src/ops.rs] on
    [serve_plain] of [lib/listen/src/accept.rs]

    The endpoints put together: one accept loop under one cap ([Accept], with
    the steps of an admission and of a slot's drop on their own), a
    connection served over HTTP for each one accepted ([Server], with the
    endpoints' options), and every request on it answered from the node's
    state ([Ops]). The socket is served until another process has taken it
    over; that signal is also the one each connection drains on, and the one
    that makes the node say it is ready. *)

From S2P Require Import Prelude Str Net RateLimiting Http Forward.
From S2P Require Import Causes Listen Accept Server Ops.

(** ** One connection's requests *)

Section Serve.
Context `{L : HttpLib}.
(** The text of the registry, or a panic of the task that writes it. *)
Context (encode : Sampled -> option str).

(** [Answer::into_response]. *)
Definition into_response (a : OpsAnswer) : Response :=
  mkResponse (oa_status a)
    (match oa_content_type a with
     | Some content_type => headers_insert CONTENT_TYPE content_type headers_new
     | None => headers_new
     end) (body_full (oa_body a)).

(** What a request finds: the runtime's figures, the lines the log lost, and
    what the proxy reads of its own. *)
Record Asked := mkAsked {
  ak_version : Version;
  ak_path : str;
  ak_query : option str;
  ak_runtime : Runtime;
  ak_lost : list (str * Z);
  ak_readings : Readings;
}.

(** [Exchange::handle]. *)
Definition exchange_handle (q : Asked) (handed_over : bool) (o : Ops) (m : Sampled) : Sampled * Response :=
  let (m, a) := ops_answer encode (ak_runtime q) (ak_lost q) (ak_readings q) (ak_path q) (ak_query q) handed_over o m in
  (m, into_response a).

(** ** The socket and its connections *)

(** [serve_plain]: no rate per peer, and the one cap twice. *)
Definition plain_limits (max_connections : Z) : ListenLimits :=
  mkListenLimits max_connections max_connections None.

(** A request that was answered: what was asked, how the node stood, and the
    response as it is sent. *)
Record Answered := mkAnswered {
  an_asked : Asked;
  an_handed_over : bool;
  an_draining : bool;
  an_ops : Ops;
  an_response : Response;
}.

(** The accept loop, its connections (each with when it was accepted and its
    ledger), the node's state, the signal (its value, and whether its sender
    is gone), the sampled metrics, and the answers given. *)
Record OpsServer := mkOpsServer {
  op_accepting : Accepting;
  op_conns : list (Z * Ledger * Serving);
  op_ops : Ops;
  op_handed_over : bool;
  op_sender_gone : bool;
  op_sampled : Sampled;
  op_answered : list Answered;
}.

Definition put_conns (p : Accepting) (conns : list (Z * Ledger * Serving)) (s : OpsServer) : OpsServer :=
  mkOpsServer p conns (op_ops s) (op_handed_over s) (op_sender_gone s) (op_sampled s) (op_answered s).

Definition put_ops (o : Ops) (s : OpsServer) : OpsServer :=
  mkOpsServer (op_accepting s) (op_conns s) o (op_handed_over s) (op_sender_gone s) (op_sampled s) (op_answered s).

(** [ops::serve], with its accept loop started. *)
Definition ops_serve (o : Ops) (m : Sampled) : OpsServer :=
  let limits := plain_limits OPS_MAX_CONNECTIONS in
  let here := limit_new (Some OPS_MAX_CONNECTIONS) in
  mkOpsServer (mkAccepting (admission_new limits) [mkLoop here true None] [] [] false false []) [] o false false m [].

(** What the connections' own signal is. *)
Definition signal (s : OpsServer) : DrainSignal := mkDrainSignal (op_handed_over s) true (op_sender_gone s).

(** What happens on a connection besides the signal and its answers. *)
Definition own_event (ev : ServerEvent) : bool :=
  match ev with DrainSends _ | DrainSenderDrops | HandlerAnswers _ => false | _ => true end.

Inductive OpsEvent :=
| OpsAcceptReturns (r : result IpAddr IoErrorKind)
| OpsAdmissionSteps
| OpsSlotDrops (k : nat)
| OpsLoopStops
| OpsConnEvent (j : nat) (ev : ServerEvent)
| OpsAnswers (j : nat) (q : Asked)
| OpsServing (draining : bool)
| OpsFrontendDrains
| OpsHandedOver
| OpsSenderDrops.

(** Every connection sees a change of the signal. *)
Definition signalled (now : Z) (ev : ServerEvent) (c : Z * Ledger * Serving) : Z * Ledger * Serving :=
  let '(t0, l, sv) := c in
  match serve_event CONNECTION_OPTIONS now ev sv with
  | Some (inl sv) => (t0, note now ev l, sv)
  | _ => c
  end.

Definition conn_step (now : Z) (j : nat) (ev : ServerEvent) (s : OpsServer) : option OpsServer :=
  match op_conns s !! j with
  | Some (t0, l, sv) =>
      if negb (enabledb ev l) then None
      else
        match serve_event CONNECTION_OPTIONS now ev sv with
        | Some (inl sv) => Some (put_conns (op_accepting s) (<[j := (t0, note now ev l, sv)]> (op_conns s)) s)
        | Some (inr _) => (fun p => put_conns p (delete j (op_conns s)) s) <$> on_task_end j (op_accepting s)
        | None => None
        end
  | None => None
  end.

(** What happens at the socket. A connection that is admitted is served. *)
Definition at_socket (now : Z) (ev : AcceptEvent) (s : OpsServer) : option OpsServer :=
  match accept_event ev (op_accepting s) with
  | Some p =>
      let served := Nat.ltb (length (ap_open (op_accepting s))) (length (ap_open p)) in
      Some (put_conns p (if served
        then op_conns s ++ [(now, ledger_new now (signal s), serve_start CONNECTION_OPTIONS now (signal s))]
        else op_conns s) s)
  | None => None
  end.

Definition ops_event (now : Z) (ev : OpsEvent) (s : OpsServer) : option OpsServer :=
  match ev with
  | OpsAcceptReturns (Err e) => at_socket now (AcceptReturns 0 (Err e)) s
  | OpsAcceptReturns (Ok peer) => at_socket now (AcceptReturns 0 (Ok (peer, now))) s
  | OpsAdmissionSteps => at_socket now (AdmissionSteps 0) s
  | OpsSlotDrops k => at_socket now (SlotDrops k) s
  | OpsLoopStops => at_socket now (LoopSeesDrain 0) s
  | OpsConnEvent j ev => if own_event ev then conn_step now j ev s else None
  | OpsAnswers j q =>
      match op_conns s !! j with
      | Some (_, l, sv) =>
          if negb (lg_ended l <? lg_begun l) then None else
          let (m, response) := exchange_handle q (op_handed_over s) (op_ops s) (op_sampled s) in
          let sent := mkResponse (rs_status response)
                        (served_headers (ak_version q) (sv_drain sv) (rs_headers response)) (rs_body response) in
          (fun s => mkOpsServer (op_accepting s) (op_conns s) (op_ops s) (op_handed_over s) (op_sender_gone s) m
             (op_answered s ++ [mkAnswered q (op_handed_over s) (is_draining (sv_drain sv)) (op_ops s) sent]))
            <$> conn_step now j (HandlerAnswers (ak_version q)) s
      | None => None
      end
  | OpsServing draining => Some (put_ops (ops_serving draining (op_ops s)) s)
  | OpsFrontendDrains =>
      match ops_frontend (op_ops s) with Some _ => Some (put_ops (mkOps (Some true)) s) | None => None end
  | OpsHandedOver =>
      if op_sender_gone s then None
      else
        (fun p => mkOpsServer p (signalled now (DrainSends true) <$> op_conns s) (op_ops s) true false (op_sampled s)
                    (op_answered s)) <$> accept_event DrainTriggered (op_accepting s)
  | OpsSenderDrops =>
      (fun p => mkOpsServer p (signalled now DrainSenderDrops <$> op_conns s) (op_ops s) (op_handed_over s) true
                  (op_sampled s) (op_answered s)) <$> accept_event DrainTriggered (op_accepting s)
  end.

Inductive ops_reach (o : Ops) (m : Sampled) : Z -> OpsServer -> Prop :=
| ops_reach_start now : ops_reach o m now (ops_serve o m)
| ops_reach_step now now' ev s s' :
    ops_reach o m now s -> now <= now' -> ops_event now' ev s = Some s' -> ops_reach o m now' s'.

Fixpoint ops_run (now : Z) (evs : list (Z * OpsEvent)) (s : OpsServer) : option (Z * OpsServer) :=
  match evs with
  | [] => Some (now, s)
  | (now', ev) :: evs =>
      if now <=? now' then
        match ops_event now' ev s with Some s => ops_run now' evs s | None => None end
      else None
  end.

Lemma ops_run_reach o m evs now s now' s' :
  ops_reach o m now s -> ops_run now evs s = Some (now', s') -> ops_reach o m now' s'.
Proof.
  revert now s. induction evs as [|[t ev] evs IH]; intros now s Hr; simpl; [by intros [= <- <-]|].
  destruct (now <=? t) eqn:E; [|done]. destruct (ops_event t ev s) as [s1|] eqn:Ev; [|done].
  apply IH. eapply ops_reach_step; [done|by apply Z.leb_le|done].
Qed.
End Serve.

(** ** What holds of it at any time *)

(** A connection's history is one of [Server]'s, and its signal is the
    socket's. *)
Definition conn_ok (now : Z) (handed_over sender_gone : bool) (c : Z * Ledger * Serving) : Prop :=
  let '(t0, l, sv) := c in
  exists d since, since <= now /\ reach CONNECTION_OPTIONS t0 d since l sv /\
    dr_value (sv_drain sv) = handed_over /\ dr_sender_gone (sv_drain sv) = sender_gone.

(** An answer is that of the endpoints to what was asked, and tells an HTTP/1
    client to close once the socket is no longer this node's. *)
Definition answer_ok `{L : HttpLib} (a : Answered) : Prop :=
  let q := an_asked a in
  let status := rs_status (an_response a) in
  (ak_path q = lit "/healthz" -> status = 200) /\
  (ak_path q = lit "/readyz" -> status = if is_ready (an_handed_over a) (an_ops a) then 200 else 503) /\
  (ak_path q <> lit "/healthz" -> ak_path q <> lit "/readyz" -> ak_path q <> lit "/metrics" -> status = 404) /\
  (headers_get (rs_headers (an_response a)) CONTENT_TYPE = None \/
   ak_path q = lit "/metrics" /\ status = 200 /\
   headers_get (rs_headers (an_response a)) CONTENT_TYPE = Some OPENMETRICS) /\
  headers_get (rs_headers (an_response a)) CONNECTION =
    (if is_http1 (ak_version q) && an_draining a then Some (lit "close") else None) /\
  (an_handed_over a = true -> an_draining a = true).

Section Serving.
Context `{L : HttpLib} `{!HttpLaws L}.
Context (encode : Sampled -> option str).

(** What no connection changes: the loops, the cut, the drain, and that there
    is no rate per peer. *)
Definition unmoved (p : Accepting) : nat * bool * bool * bool :=
  (length (ap_loops p), ap_cut p, ap_draining p, is_none (ad_peer_rate (ap_admission p))).

Record ops_inv (now : Z) (s : OpsServer) : Prop := {
  oi_accept : accept_inv (plain_limits OPS_MAX_CONNECTIONS) (op_accepting s);
  oi_open : length (ap_open (op_accepting s)) = length (op_conns s);
  oi_unmoved : unmoved (op_accepting s) = (1%nat, false, op_handed_over s || op_sender_gone s, true);
  oi_conns : Forall (conn_ok now (op_handed_over s) (op_sender_gone s)) (op_conns s);
  oi_answers : Forall answer_ok (op_answered s);
}.

Lemma conn_ok_later now now' handed gone c : now <= now' -> conn_ok now handed gone c -> conn_ok now' handed gone c.
Proof. destruct c as [[t0 l] sv]. intros H (d & since & ? & ?). exists d, since. split; [lia|done]. Qed.

(** A connection's own events leave its signal as it is. *)
Lemma own_event_signal now ev sv sv' :
  own_event ev = true \/ (exists v, ev = HandlerAnswers v) ->
  serve_event CONNECTION_OPTIONS now ev sv = Some (inl sv') ->
  dr_value (sv_drain sv') = dr_value (sv_drain sv) /\ dr_sender_gone (sv_drain sv') = dr_sender_gone (sv_drain sv).
Proof.
  intros Hown Hev. destruct ev as [v|v| |k|k|v| |r| |]; simpl in Hev; try (destruct Hown as [?|[? ?]]; discriminate);
    simplify_eq; try done.
  - by destruct (sv_guards sv !! k) as [[? [] ?]|]; simplify_eq.
  - by destruct (sv_guards sv !! k) as [[? ? []]|]; simplify_eq.
  - unfold drain_arm, drain_changed in Hev. destruct (sv_draining sv); [done|].
    destruct (sv_drain sv) as [v u g]. destruct u; [|destruct g; [|done]]; simpl in Hev;
      repeat match type of Hev with context [if ?b then _ else _] => destruct b end; by injection Hev as <-.
  - case_if; [|done]. injection Hev as Hev. unfold watchdog_arm in Hev.
    destruct (is_none _ && _), (verdict _ _); repeat case_match; simplify_eq; simpl in *; done.
Qed.

Lemma conn_step_ok now now' handed gone ev t0 l sv sv' :
  now <= now' -> conn_ok now handed gone (t0, l, sv) -> enabledb ev l = true ->
  own_event ev = true \/ (exists v, ev = HandlerAnswers v) ->
  serve_event CONNECTION_OPTIONS now' ev sv = Some (inl sv') ->
  conn_ok now' handed gone (t0, note now' ev l, sv').
Proof.
  intros Hle (d & since & Hs & Hr & Hv & Hg) Hen Hown Hev. exists d, now'. split; [lia|].
  destruct (own_event_signal _ _ _ _ Hown Hev) as [E1 E2]. split; [|by rewrite E1, E2].
  eapply reach_step; [exact Hr|lia| |done]. by apply enabledb_enabled.
Qed.

Lemma conn_signalled now now' handed gone handed' gone' ev c :
  now <= now' -> conn_ok now handed gone c ->
  (ev = DrainSends handed' /\ gone = false /\ gone' = false \/ ev = DrainSenderDrops /\ handed' = handed /\ gone' = true) ->
  conn_ok now' handed' gone' (signalled now' ev c).
Proof.
  destruct c as [[t0 l] sv]. intros Hle (d & since & Hs & Hr & Hv & Hg) Hev.
  assert (exists sv', serve_event CONNECTION_OPTIONS now' ev sv = Some (inl sv') /\ enabled ev l /\
            dr_value (sv_drain sv') = handed' /\ dr_sender_gone (sv_drain sv') = gone') as (sv' & E & En & Hv' & Hg').
  { destruct Hev as [(-> & G & ->)|(-> & -> & ->)]; simpl; [rewrite Hg, G|]; by eexists. }
  unfold signalled. rewrite E. exists d, now'. split; [lia|]. split; [|done]. eapply reach_step; [exact Hr|lia|done..].
Qed.

Lemma headers_get_new n : headers_get headers_new n = None.
Proof using Type*. unfold headers_get. by rewrite get_all_new. Qed.

(** What is the socket's own, and what it leaves alone. *)
Definition socket_event (ev : AcceptEvent) : bool :=
  match ev with AcceptReturns 0 _ | AdmissionSteps 0 | SlotDrops _ | LoopSeesDrain 0 => true | _ => false end.

Lemma admission_goes_shape i a here r lp p :
  ap_loops p !! i = Some lp -> is_none (ad_peer_rate a) = is_none (ad_peer_rate (ap_admission p)) ->
  (ap_open (admission_goes i a here r p) = ap_open p \/ ap_open (admission_goes i a here r p) = ap_open p ++ [i]) /\
  unmoved (admission_goes i a here r p) = unmoved p.
Proof. intros Hl Ha. unfold admission_goes, unmoved. destruct r; simpl; rewrite length_insert, Ha; auto. Qed.

Lemma socket_event_shape ev p p' :
  socket_event ev = true -> accept_event ev p = Some p' ->
  (ap_open p' = ap_open p \/ exists i, ap_open p' = ap_open p ++ [i]) /\ unmoved p' = unmoved p.
Proof.
  destruct ev as [|[|i] [[peer now]|e]|[|i]|[|i]|i|j|j|k| |]; try done; intros _; simpl.
  - unfold on_accept. destruct (ap_loops p !! 0%nat) as [[here [] []]|] eqn:Hl; try done.
    assert (is_none (ad_peer_rate (admit_rate peer now (ap_admission p)).1) = is_none (ad_peer_rate (ap_admission p))) as Ha.
    { unfold admit_rate. destruct (ad_peer_rate (ap_admission p)) eqn:Er; [by destruct (keyed_try_acquire _ _ _)|].
      simpl. by rewrite Er. }
    destruct (admit_rate _ _ _) as [a r]. intros [= <-]. edestruct admission_goes_shape as [[]]; eauto.
  - repeat case_match; intros [= <-]; auto.
  - unfold on_admission. destruct (ap_loops p !! 0%nat) as [[here [] [s|]]|] eqn:Hl; try done.
    assert (is_none (ad_peer_rate (admit_step s (ap_admission p) here).1.1) = is_none (ad_peer_rate (ap_admission p))) as Ha.
    { unfold admit_step. destruct s as [|v| |v|]; try done; by destruct (limit_decide _ v). }
    destruct (admit_step _ _ _) as [[a here'] r]. intros [= <-]. edestruct admission_goes_shape as [[]]; eauto.
  - case_match; [|done]. unfold stop_loop. repeat case_match; intros [= <-]; try done. unfold unmoved. simpl.
    rewrite length_insert. auto.
  - unfold on_slot_drop. repeat case_match; intros [= <-]; try done; unfold unmoved; simpl; rewrite ?length_insert; auto.
Qed.

Lemma on_task_end_shape j p p' :
  on_task_end j p = Some p' -> ap_open p' = delete j (ap_open p) /\ unmoved p' = unmoved p.
Proof. unfold on_task_end, unmoved. destruct (ap_open p !! j) as [i|]; [|done]. by intros [= <-]. Qed.

Lemma ops_caps : 0 <= lm_max_connections (plain_limits OPS_MAX_CONNECTIONS) /\
  0 <= lm_max_connections_per_listener (plain_limits OPS_MAX_CONNECTIONS) < u64_max.
Proof. split; [|split]; done. Qed.

Lemma ops_countable now s : ops_inv now s -> countable (plain_limits OPS_MAX_CONNECTIONS) (op_accepting s).
Proof. intros Hi. pose proof (oi_unmoved _ _ Hi) as [= H _ _ _]. unfold countable. rewrite H. done. Qed.

Lemma ops_answer_ok q handed (o : Ops) m response sv :
  (exchange_handle encode q handed o m).2 = response -> (handed = true -> is_draining (sv_drain sv) = true) ->
  answer_ok (mkAnswered q handed (is_draining (sv_drain sv)) o
    (mkResponse (rs_status response) (served_headers (ak_version q) (sv_drain sv) (rs_headers response))
       (rs_body response))).
Proof using Type*.
  intros <- Hd. unfold exchange_handle, answer_ok. cbn [an_asked an_response an_handed_over an_ops an_draining rs_status rs_headers].
  rewrite !served_headers_get.
  pose proof (answer_kinds encode (ak_runtime q) (ak_lost q) (ak_readings q) (ak_path q) (ak_query q) handed o m) as Hk. cbv zeta in Hk.
  assert (forall p, str_eqb (ak_path q) p = true <-> ak_path q = p) as Hp by (intros; apply str_eqb_eq).
  assert (Hst : forall p, ak_path q <> p -> str_eqb (ak_path q) p = false).
  { intros p Hn. destruct (str_eqb (ak_path q) p) eqn:E; [by apply str_eqb_eq in E|done]. }
  assert (Hr := readyz_status encode (ak_runtime q) (ak_lost q) (ak_readings q) (ak_query q) handed o m).
  assert (Hh : ak_path q = lit "/healthz" -> oa_status (ops_answer encode (ak_runtime q) (ak_lost q) (ak_readings q) (ak_path q)
            (ak_query q) handed o m).2 = 200) by (intros ->; reflexivity).
  assert (Hn : ak_path q <> lit "/healthz" -> ak_path q <> lit "/readyz" -> ak_path q <> lit "/metrics" ->
            oa_status (ops_answer encode (ak_runtime q) (ak_lost q) (ak_readings q) (ak_path q) (ak_query q) handed o m).2 = 404).
  { intros H1 H2 H3. unfold ops_answer. by rewrite !Hst. }
  destruct (ops_answer _ _ _ _ _ _ _ _ _) as [m' a] eqn:E. cbn [fst snd into_response rs_status rs_headers] in *.
  split_and!; [done| |done| | |done].
  - intros Hq. rewrite Hq in E. rewrite E in Hr. exact Hr.
  - rewrite (bool_decide_false (CONTENT_TYPE = CONNECTION)), andb_false_r by done.
    destruct Hk as [(Hk1 & Hk2 & Hk3)|[_ Hk2]]; rewrite Hk2; [right|left].
    + rewrite headers_get_insert. by rewrite decide_True.
    + apply headers_get_new.
  - rewrite (bool_decide_true (CONNECTION = CONNECTION)), andb_true_r by done. case_if; [done|].
    destruct (oa_content_type a); [rewrite headers_get_insert, decide_False by done|]; apply headers_get_new.
Qed.

Lemma ops_inv_put now now' s p conns :
  now <= now' -> ops_inv now s -> accept_inv (plain_limits OPS_MAX_CONNECTIONS) p ->
  length (ap_open p) = length conns -> unmoved p = unmoved (op_accepting s) ->
  Forall (conn_ok now' (op_handed_over s) (op_sender_gone s)) conns ->
  ops_inv now' (put_conns p conns s).
Proof. intros Hle [] ? ? E ?. constructor; simpl; try done. by rewrite E. Qed.

Lemma conns_later now now' s :
  now <= now' -> ops_inv now s -> Forall (conn_ok now' (op_handed_over s) (op_sender_gone s)) (op_conns s).
Proof. intros Hle Hi. eapply Forall_impl; [exact (oi_conns _ _ Hi)|]. intros c. by apply conn_ok_later. Qed.

Lemma at_socket_inv now now' ev s s' :
  now <= now' -> ops_inv now s -> socket_event ev = true -> at_socket now' ev s = Some s' -> ops_inv now' s'.
Proof.
  intros Hle Hi Hev. unfold at_socket. destruct (accept_event ev (op_accepting s)) as [p|] eqn:E; [|done]. intros [= <-].
  destruct ops_caps as [H1 H2]. destruct (socket_event_shape _ _ _ Hev E) as (Ho & E0).
  pose proof (conns_later _ _ _ Hle Hi) as Hc. pose proof (ops_countable _ _ Hi).
  eapply (ops_inv_put now); try done; [by eapply accept_event_inv, E; [..|apply Hi]| |].
  - destruct Ho as [-> |[i ->]].
    + rewrite (proj2 (Nat.ltb_ge _ _)) by lia. apply Hi.
    + rewrite length_app. rewrite (proj2 (Nat.ltb_lt _ _)) by (simpl; lia). rewrite length_app. simpl.
      by rewrite (oi_open _ _ Hi).
  - case_match; [|done]. apply Forall_app. split; [done|]. constructor; [|done].
    exists (signal s), now'. split; [lia|]. split; [constructor|done].
Qed.

Lemma ops_conn_step_inv now now' j ev s s' :
  now <= now' -> ops_inv now s -> own_event ev = true \/ (exists v, ev = HandlerAnswers v) ->
  conn_step now' j ev s = Some s' ->
  ops_inv now' s' /\ op_ops s' = op_ops s /\ op_handed_over s' = op_handed_over s /\ op_sender_gone s' = op_sender_gone s.
Proof.
  intros Hle Hi Hown. unfold conn_step. destruct (op_conns s !! j) as [[[t0 l] sv]|] eqn:Ej; [|done].
  destruct (enabledb ev l) eqn:En; [|done]. cbn [negb].
  pose proof (conns_later _ _ _ Hle Hi) as Hc. destruct ops_caps as [H1 H2].
  destruct (serve_event _ now' ev sv) as [[sv'|e]|] eqn:E; [| |done].
  - intros [= <-]. split; [|done]. eapply (ops_inv_put now); try done; [apply Hi|rewrite length_insert; apply Hi|].
    apply Forall_insert; [done|]. eapply (conn_step_ok now'); try done.
    by apply (proj1 (Forall_lookup _ _) Hc j).
  - intros (p & Ep & ->)%fmap_Some. split; [|done]. destruct (on_task_end_shape _ _ _ Ep) as (Ho & E0).
    eapply (ops_inv_put now); try done; [by eapply task_end_inv, Ep; apply Hi| |by apply Forall_delete].
    rewrite Ho. pose proof (oi_open _ _ Hi) as Hlen.
    pose proof (lookup_lt_Some _ _ _ Ej). rewrite !length_delete; [lia|by eexists|].
    apply lookup_lt_is_Some. lia.
Qed.

Lemma ops_signal_inv now now' ev handed gone s :
  now <= now' -> ops_inv now s ->
  (ev = DrainSends handed /\ op_sender_gone s = false /\ gone = false /\ handed = true \/
   ev = DrainSenderDrops /\ handed = op_handed_over s /\ gone = true) ->
  forall p, accept_event DrainTriggered (op_accepting s) = Some p ->
  ops_inv now' (mkOpsServer p (signalled now' ev <$> op_conns s) (op_ops s) handed gone (op_sampled s) (op_answered s)).
Proof.
  intros Hle Hi Hev p Hp. destruct ops_caps as [H1 H2]. pose proof (ops_countable _ _ Hi).
  constructor; simpl; [by eapply accept_event_inv, Hp; [..|apply Hi]|..]; [| | |apply Hi];
    simpl in Hp; simplify_eq/=.
  - rewrite length_fmap. apply Hi.
  - pose proof (oi_unmoved _ _ Hi) as [= H3 H4 _ H5]. unfold unmoved. simpl. rewrite H3, H4, H5.
    destruct Hev as [(_ & _ & _ & ->)|(_ & _ & ->)]; [done|]. by rewrite orb_true_r.
  - apply Forall_fmap. eapply Forall_impl; [exact (oi_conns _ _ Hi)|]. intros c Hc.
    eapply conn_signalled; [done..|]. destruct Hev as [(-> & G & -> & ->)|(-> & -> & ->)]; auto.
Qed.

Lemma ops_event_inv now now' ev s s' :
  now <= now' -> ops_inv now s -> ops_event encode now' ev s = Some s' -> ops_inv now' s'.
Proof using Type*.
  intros Hle Hi Hev. pose proof (conns_later _ _ _ Hle Hi) as Hc. destruct ops_caps as [H1 H2].
  destruct ev as [[peer|e]| |k| |j ev|j q|draining| | |]; [by eapply at_socket_inv, Hev..| | | | | |].
  - cbn [ops_event] in Hev. destruct (own_event ev) eqn:Hown; [|done].
    by eapply ops_conn_step_inv in Hev as [? _]; [..|left].
  - cbn [ops_event] in Hev. destruct (op_conns s !! j) as [[[t0 l] sv]|] eqn:Ej; [|done]. case_match; [done|].
    destruct (exchange_handle _ _ _ _ _) as [m response] eqn:Ex.
    apply fmap_Some in Hev as (s1 & Hs & ->).
    assert (op_answered s1 = op_answered s) as Ha.
    { unfold conn_step in Hs. rewrite Ej in Hs.
      repeat case_match; simplify_eq; try done; by apply fmap_Some in Hs as (? & _ & ->). }
    apply (ops_conn_step_inv now) in Hs as ([] & E1 & E2 & E3); [|done|done|right; by eexists].
    constructor; simpl; try done. rewrite Ha, E1, E2. apply Forall_app. split; [apply Hi|]. constructor; [|done].
    eapply ops_answer_ok; [by rewrite Ex|]. intros Hh.
    destruct (proj1 (Forall_lookup _ _) Hc _ _ Ej) as (d & since & _ & _ & Hv & _). unfold is_draining. by rewrite Hv, Hh, orb_true_r.
  - simpl in Hev. injection Hev as <-. destruct Hi. by constructor.
  - simpl in Hev. destruct (ops_frontend _); [|done]. injection Hev as <-. destruct Hi. by constructor.
  - cbn [ops_event] in Hev. destruct (op_sender_gone s) eqn:Hg; [done|]. apply fmap_Some in Hev as (p & Hp & ->).
    eapply ops_signal_inv; [done..| |done]. by left.
  - cbn [ops_event] in Hev. apply fmap_Some in Hev as (p & Hp & ->).
    eapply ops_signal_inv; [done..| |done]. by right.
Qed.

Lemma ops_reach_inv o m now s : ops_reach encode o m now s -> ops_inv now s.
Proof using Type*.
  induction 1 as [now|now now' ev s s' _ IH Hle Hev]; [|by eapply ops_event_inv].
  constructor; simpl; try done. constructor; simpl; try done. intros i l Hl.
  apply list_lookup_singleton_Some in Hl as [-> <-]. split; [|done]. by apply (limit_start_inv (Some OPS_MAX_CONNECTIONS)).
Qed.

(** How many places are taken: by the connections served, and by those over
    that have not given both of theirs back. *)
Definition places_taken (s : OpsServer) : Z := Z.of_nat (length (op_conns s) + length (ap_closing (op_accepting s))).

Lemma on_loop_length i open : on_loop i open <= Z.of_nat (length open).
Proof. apply (count_if_range (Nat.eqb i)). Qed.

(** A connection arrives at a loop that waits for one, and is admitted. *)
Definition arrival (peer : IpAddr) : list OpsEvent :=
  [OpsAcceptReturns (Ok peer); OpsAdmissionSteps; OpsAdmissionSteps; OpsAdmissionSteps; OpsAdmissionSteps].

Lemma at_socket_some now ev s p :
  accept_event ev (op_accepting s) = Some p -> exists s', at_socket now ev s = Some s' /\ op_accepting s' = p.
Proof. intros E. unfold at_socket. rewrite E. by eexists. Qed.

(** Below its cap the endpoint takes every connection. *)
Lemma ops_takes now s peer here :
  ops_inv now s -> ap_loops (op_accepting s) !! 0%nat = Some (mkLoop here true None) ->
  places_taken s < OPS_MAX_CONNECTIONS ->
  exists s', ops_run encode now ((fun ev => (now, ev)) <$> arrival peer) s = Some (now, s') /\
    length (op_conns s') = S (length (op_conns s)).
Proof using Type*.
  intros Hi Hl Hlt. pose proof (oi_unmoved _ _ Hi) as [= Hn _ _ Hr]. pose proof (oi_open _ _ Hi) as Ho.
  pose proof (oi_accept _ _ Hi) as [Ht _ Hls _]. destruct (Hls _ _ Hl) as [Hh _].
  destruct Ht as (Hm & _ & [Hu _] & _), Hh as (Hm' & _ & [Hu' _] & _).
  destruct (ap_loops (op_accepting s)) as [|l0 [|]] eqn:El; [done| |done]. cbn in Hl. injection Hl as ->.
  cbn in Hm, Hm', Hu, Hu'. unfold total_held, here_held in Hu, Hu'. rewrite El in Hu. cbn in Hu, Hu'.
  rewrite count_if_cons in Hu. unfold count_if at 2 in Hu. cbn in Hu.
  pose proof (on_loop_length 0 (ap_open (op_accepting s))). pose proof (on_loop_length 0 (ap_closing (op_accepting s)).*1) as Hcl.
  rewrite length_fmap in Hcl. pose proof (count_if_range still_held (ap_closing (op_accepting s))).
  unfold places_taken in Hlt.
  destruct (arrival_admitted 0 here peer now (op_accepting s)) as (p1 & p2 & p3 & p4 & p5 & E1 & E2 & E3 & E4 & E5 & E).
  { by rewrite El. }
  { by destruct (ad_peer_rate _). }
  { unfold limit_decide, open_count. rewrite Hm. by rewrite (proj2 (Z.leb_gt _ _)) by lia. }
  { unfold limit_decide. rewrite Hm'. by rewrite (proj2 (Z.leb_gt _ _)) by lia. }
  destruct (at_socket_some now _ _ _ E1) as (s1 & S1 & <-). destruct (at_socket_some now _ _ _ E2) as (s2 & S2 & <-).
  destruct (at_socket_some now _ _ _ E3) as (s3 & S3 & <-). destruct (at_socket_some now _ _ _ E4) as (s4 & S4 & <-).
  destruct (at_socket_some now _ _ _ E5) as (s5 & S5 & <-). exists s5.
  assert (Hi5 : ops_inv now s5) by (repeat (eapply at_socket_inv; [| | |done]; [done| |done]); done).
  rewrite <-(oi_open _ _ Hi5), E, length_app, Ho. split; [|simpl; lia].
  cbn -[at_socket]. rewrite Z.leb_refl. cbn -[at_socket]. by rewrite S1, S2, S3, S4, S5.
Qed.

(** Once the socket is another process's, a connection is on its way out. *)
Record leaving (now : Z) (j : nat) (t0 : Z) (l : Ledger) (sv : Serving) (s : OpsServer) : Prop := {
  lv_takes_up : sv_draining sv = false -> exists s' l' sv',
    ops_event encode now (OpsConnEvent j DrainChanges) s = Some s' /\
    op_conns s' !! j = Some (t0, l', sv') /\ sv_draining sv' = true /\
    (sv_shut_down_for sv = None ->
     if 0 <? lg_begun l - lg_ended l then sv_shut_down_for sv' = Some ClosedForDrain
     else sv_shut_down_for sv' = None /\ sv_leave_by sv' = Some (now + from_secs 1) /\
          sv_watchdog sv' <= now + from_secs 1);
  lv_asked : sv_draining sv = true -> sv_shut_down_for sv = None ->
    exists by_, sv_leave_by sv = Some by_ /\ sv_watchdog sv <= by_ <= now + from_secs 1 /\
      forall t, by_ <= t -> match watchdog_arm t sv with
                            | inl sv' => sv_shut_down_for sv' = Some ClosedForDrain
                            | inr _ => lg_ended l = lg_begun l
                            end;
  lv_answered : forall t ev c, 0 < lg_begun l - lg_ended l ->
    serve_event CONNECTION_OPTIONS t ev sv = Some (inr c) -> exists r, ev = ConnectionEnds r;
  lv_gone : lg_ended l = lg_begun l ->
    exists fuel t c, watch fuel now sv = Some (t, c) /\ t <= now + HEADER_READ_TIMEOUT + CLOSE_GRACE;
}.

Lemma ops_leaving now s j t0 l sv :
  ops_inv now s -> op_handed_over s = true -> op_conns s !! j = Some (t0, l, sv) -> within t0 now l ->
  leaving now j t0 l sv s.
Proof.
  intros Hi Hh Ej Hw.
  destruct (proj1 (Forall_lookup _ _) (oi_conns _ _ Hi) _ _ Ej) as (d & since & Hs & Hr & Hv & _). rewrite Hh in Hv.
  destruct connection_options_valid as [Hty Hval]. pose proof (valid_sane _ Hty Hval) as Hsane.
  assert (within t0 since l) as Hw'.
  { destruct Hw as [? Hw]. split; [done|]. pose proof (as_millis_mono (since - t0) (now - t0)). lia. }
  destruct (reach_inv _ _ _ Hsane _ _ _ Hr Hw') as [Hc Ht].
  apply (counted_later _ _ _ now) in Hc; [|done]. apply (timed_later _ _ _ now) in Ht; [|done]. constructor.
  - intros Hd.
    destruct (drain_arm_ready CONNECTION_OPTIONS now sv) as (sv' & E & Hd' & Hask);
      [by unfold is_draining; rewrite Hv, orb_true_r|done|apply Ht|].
    assert (sv_draining sv' = true) as Hd2 by (by apply Hd'; left).
    exists (put_conns (op_accepting s) (<[j := (t0, note now DrainChanges l, sv')]> (op_conns s)) s).
    do 2 eexists. cbn [ops_event own_event]. unfold conn_step. rewrite Ej. cbn -[from_secs]. rewrite E. split; [done|].
    split; [apply list_lookup_insert_eq; by eapply lookup_lt_Some|]. split; [done|]. intros Hn. specialize (Hask Hd2 Hn).
    unfold has_request_in_flight in Hask. by rewrite (cn_in_flight _ _ _ _ _ Hc) in Hask.
  - intros Hd Hn. destruct (sv_leave_by sv) as [by_|] eqn:Hl.
    + exists by_. destruct (tm_leave _ _ _ _ _ Ht Hn _ Hl). split; [done|]. split; [done|].
      intros t Hle. by eapply leave_by_asks.
    + exfalso. by apply (tm_draining _ _ _ _ _ Ht Hn) in Hd.
  - intros t ev c. by eapply in_flight_kept.
  - intros He. destruct (quiet_ends _ _ _ _ _ Hsane Hc Ht He) as [H1 H2]. assert (0 < CLOSE_GRACE) by done.
    assert (0 < HEADER_READ_TIMEOUT) by done. pose proof (cn_last _ _ _ _ _ Hc). pose proof (cn_order _ _ _ _ _ Hc).
    destruct (Z.eq_dec (lg_begun l) 0) as [Hz|Hz].
    + destruct (H2 Hz) as (fuel & c & Hwt & _). eexists fuel, _, c. split; [exact Hwt|].
      change (so_header_timeout CONNECTION_OPTIONS) with HEADER_READ_TIMEOUT. lia.
    + destruct H1 as (t & c & Hwt & Hle & _); [lia|]. by exists 4%nat, t, c.
Qed.

End Serving.

(** One client asks whether the node is ready before it is and after its
    socket was handed over; its connection is then left with nothing to do. *)
Definition probe_history : list (Z * OpsEvent) :=
  let q := mkAsked HTTP_11 (lit "/readyz") None (mkRuntime 1 1 0) [] (mkReadings 0 0 None) in
  ((fun ev => (0, ev)) <$> arrival (V4 [127; 0; 0; 1])) ++
  [ (1, OpsConnEvent 0 (RequestArrives HTTP_11)); (2, OpsAnswers 0 q);
    (3, OpsConnEvent 0 GuardReads); (3, OpsConnEvent 0 (GuardStores 0)); (4, OpsConnEvent 0 (GuardDecrements 0));
    (5, OpsConnEvent 0 (RequestArrives HTTP_11)); (6, OpsHandedOver); (7, OpsAnswers 0 q);
    (8, OpsConnEvent 0 GuardReads); (8, OpsConnEvent 0 (GuardStores 1)); (9, OpsConnEvent 0 (GuardDecrements 1)) ].

Local Notation probed :=
  (ops_run (L := assoc_http) (fun _ => None) 0 probe_history (ops_serve ops_new (mkSampled 0 0 0 ∅ 0 0 0))).

Definition as_meant (r : option (Z * OpsServer)) : bool :=
  match r with
  | Some (now, s) =>
      (now =? 9) && bool_decide ((fun a => rs_status (an_response a)) <$> op_answered s = [503; 200]) &&
      op_handed_over s &&
      match op_conns s !! 0%nat with
      | Some (t0, l, sv) => (t0 =? 0) && (lg_begun l =? 2) && negb (sv_draining sv)
      | None => false
      end
  | None => false
  end.

Lemma probed_as_meant : as_meant probed = true.
Proof. vm_compute. reflexivity. Qed.

