(* ===== verification/Logging.v ===== *)
(** * The log: [lib/observability/src/logging.rs]

    Which lines go where, and the file that is found again after it was
    rotated away. A file is its identity (device and inode); what the
    filesystem says at a write is that write's environment. The queue in
    front of a destination is the tracing library's; its writing thread
    calls [write_all] once per line. [LogStart] has the whole log. *)

From S2P Require Import Prelude Str Causes.

Definition QUEUE_LINES : Z := 128000.
Definition ROTATION_CHECK : Z := from_secs 1.

Record LogSettings := mkLogSettings {
  ls_name : str;
  ls_quiet_unless_asked : str;
  ls_file_only_targets : str;
}.

(** ** What is logged, and where to *)

Definition is_file_only (prefix target : str) : bool :=
  negb (bool_decide (prefix = [])) && starts_with prefix target.

Definition DEFAULT_LEVEL : str := lit "info".

(** The filter's directives, and [EnvFilter::try_new] as an argument. *)
Section Filter.
Context {F : Type} (try_new : str -> option F) (new : str -> F).

Definition after_quiet (quiet_unless_asked directives : str) : str :=
  if bool_decide (quiet_unless_asked = []) then directives
  else quiet_unless_asked ++ lit "," ++ directives.

Definition log_filter (quiet_unless_asked : str) (rust_log : option str) : F :=
  let with_default := new (after_quiet quiet_unless_asked DEFAULT_LEVEL) in
  match rust_log with
  | Some asked =>
      let asked := trim asked in
      if bool_decide (asked = []) then with_default
      else default with_default (try_new (after_quiet quiet_unless_asked asked))
  | None => with_default
  end.
End Filter.

Definition to_stdout (s : LogSettings) (has_file : bool) (target : str) : bool :=
  negb (has_file && is_file_only (ls_file_only_targets s) target).

(** The destinations a line of [target] that passes the filter goes to. *)
Definition destinations_of (s : LogSettings) (has_file : bool) (target : str) : list str :=
  (if has_file then [lit "file"] else []) ++ (if to_stdout s has_file target then [lit "stdout"] else []).

(** ** The file *)

Notation Inode := Z (only parsing).

Record LogFile := mkLogFile {
  lf_file : Inode;
  lf_checked_at : Z;
  lf_misplaced : bool;
}.

(** What a write meets: the time, the file at the path, whether the open
    file can be asked about, what opening the path gives, and how much of
    the bytes the file takes. *)
Record WriteEnv := mkWriteEnv {
  we_now : Z;
  we_at_path : option Inode;
  we_metadata : bool;
  we_open : result Inode IoErrorKind;
  we_taken : result nat IoErrorKind;
}.

Definition log_open (now : Z) (opened : result Inode IoErrorKind) : result LogFile IoErrorKind :=
  let? file := opened in Ok (mkLogFile file now false).

Definition in_place (env : WriteEnv) (f : LogFile) : bool :=
  we_metadata env && bool_decide (we_at_path env = Some (lf_file f)).

(** Bytes that went into a file, at a time. *)
Record Append := mkAppend { ap_at : Z; ap_file : Inode; ap_bytes : str }.

(** [File::write] to the file that is open. *)
Definition file_write (env : WriteEnv) (line : str) (f : LogFile) :
    LogFile * list Append * result nat IoErrorKind :=
  match we_taken env with
  | Ok n =>
      let n := Nat.min n (length line) in
      (f, [mkAppend (we_now env) (lf_file f) (take n line)], Ok n)
  | Err e => (f, [], Err e)
  end.

Definition log_write (recheck_every : Z) (env : WriteEnv) (line : str) (f : LogFile) :
    LogFile * list Append * result nat IoErrorKind :=
  if lf_misplaced f || (recheck_every <=? saturating_duration_since (we_now env) (lf_checked_at f)) then
    let f := mkLogFile (lf_file f) (we_now env) (lf_misplaced f) in
    if lf_misplaced f || negb (in_place env f) then
      match we_open env with
      | Err e => (mkLogFile (lf_file f) (lf_checked_at f) true, [], Err e)
      | Ok file => file_write env line (mkLogFile file (lf_checked_at f) false)
      end
    else file_write env line f
  else file_write env line f.

(** [Write::write_all] over a [write]: until every byte is taken; an
    interrupted write is made again, one that takes nothing fails. Of the
    bytes taken the writer keeps an account. [None]: the writes to come are
    not told. *)
Section WriteAll.
Context {E S A : Type} (write : E -> str -> S -> S * list A * result nat IoErrorKind).

Fixpoint write_all (envs : list E) (line : str) (f : S) : option (S * list A * result unit IoErrorKind) :=
  match line, envs with
  | [], _ => Some (f, [], Ok ())
  | _, [] => None
  | _, env :: envs =>
      match write env line f with
      | (f, ap, Ok O) => Some (f, ap, Err IoWriteZero)
      | (f, ap, Ok n) =>
          match write_all envs (drop n line) f with
          | Some (f, ap', r) => Some (f, ap ++ ap', r)
          | None => None
          end
      | (f, ap, Err IoInterrupted) =>
          match write_all envs line f with
          | Some (f, ap', r) => Some (f, ap ++ ap', r)
          | None => None
          end
      | (f, ap, Err e) => Some (f, ap, Err e)
      end
  end.
End WriteAll.

(** Standard output takes so many of the bytes, or fails. *)
Definition stdout_write (taken : result nat IoErrorKind) (line : str) (_ : unit) :
    unit * list str * result nat IoErrorKind :=
  match taken with
  | Ok n => let n := Nat.min n (length line) in ((), [take n line], Ok n)
  | Err e => ((), [], Err e)
  end.

(** The lines written to a file, each with what its writes meet; what is
    appended for each, and whether it was written. *)
Fixpoint log_lines (recheck_every : Z) (ls : list (str * list WriteEnv)) (f : LogFile) :
    option (LogFile * list (list Append * bool)) :=
  match ls with
  | [] => Some (f, [])
  | (line, envs) :: ls =>
      match write_all (log_write recheck_every) envs line f with
      | Some (f, ap, r) =>
          match log_lines recheck_every ls f with
          | Some (f, rest) => Some (f, (ap, is_ok r) :: rest)
          | None => None
          end
      | None => None
      end
  end.

(** ** What is written is whole, and nothing goes astray for long *)

(** At [t] the file [i] was the one at the path: the filesystem said so, or
    opening the path gave it. *)
Definition placed (opened : Z * Inode) (seen : list WriteEnv) (t : Z) (i : Inode) : Prop :=
  (t, i) = opened \/
  exists env, env ∈ seen /\ we_now env = t /\ (we_at_path env = Some i \/ we_open env = Ok i).

Definition envs_of (ls : list (str * list WriteEnv)) : list WriteEnv := concat ls.*2.

Section Placed.
Context (recheck_every : Z) (opened : Z * Inode).
Hypothesis recheck_pos : 0 < recheck_every.

(** The file written to was at the path when it was last looked for. *)
Definition file_placed (seen : list WriteEnv) (f : LogFile) : Prop :=
  lf_misplaced f = false -> placed opened seen (lf_checked_at f) (lf_file f).

(** What is appended is to a file that was at the path less than the
    interval before. *)
Definition appends_placed (seen : list WriteEnv) (ap : list Append) : Prop :=
  forall a, a ∈ ap -> exists t, placed opened seen t (ap_file a) /\ ap_at a - t < recheck_every.

Lemma file_write_placed env line f f' ap r seen :
  file_write env line f = (f', ap, r) -> lf_misplaced f = false -> file_placed seen f ->
  we_now env - lf_checked_at f < recheck_every ->
  f' = f /\ appends_placed seen ap.
Proof using Type.
  unfold file_write. intros H Hm Hf Ht. destruct (we_taken env); simplify_eq; split; try done.
  - intros a ->%list_elem_of_singleton. exists (lf_checked_at f'). split; [by apply Hf|done].
  - by intros a ?%not_elem_of_nil.
Qed.

Lemma log_write_placed env line f f' ap r seen :
  log_write recheck_every env line f = (f', ap, r) -> env ∈ seen -> file_placed seen f ->
  file_placed seen f' /\ appends_placed seen ap.
Proof using recheck_pos.
  unfold log_write. intros H Hin Hf.
  assert (Hno : appends_placed seen []) by (by intros a ?%not_elem_of_nil).
  destruct (lf_misplaced f || _) eqn:E.
  - destruct (lf_misplaced _ || negb (in_place _ _)) eqn:E1; simpl in E1.
    + destruct (we_open env) as [file|e] eqn:Eo; simplify_eq; [|by split].
      apply (file_write_placed _ _ _ _ _ _ seen) in H as [-> ?]; simpl; [|done|..|lia].
      * split; [|done]. intros _. right. exists env. by auto.
      * intros _. right. exists env. by auto.
    + apply orb_false_iff in E1 as [Em E1]. apply negb_false_iff in E1. unfold in_place in E1. bool_facts.
      simpl in *.
      apply (file_write_placed _ _ _ _ _ _ seen) in H as [-> ?]; simpl; [|done|..|lia].
      * split; [|done]. intros _. right. exists env. by auto.
      * intros _. right. exists env. by auto.
  - apply orb_false_iff in E as [Em E]. apply Z.leb_gt in E. unfold saturating_duration_since in E.
    apply (file_write_placed _ _ _ _ _ _ seen) in H as [-> ?]; [by split|done|done|lia].
Qed.

Lemma write_all_placed envs line f f' ap r seen :
  write_all (log_write recheck_every) envs line f = Some (f', ap, r) -> envs ⊆ seen -> file_placed seen f ->
  file_placed seen f' /\ appends_placed seen ap.
Proof using recheck_pos.
  revert line f ap. induction envs as [|env envs IH]; intros line f ap H Hs Hf.
  { destruct line; simpl in H; simplify_eq. split; [done|]. by intros a ?%not_elem_of_nil. }
  destruct line as [|c line]; simpl in H.
  { simplify_eq. split; [done|]. by intros a ?%not_elem_of_nil. }
  destruct (log_write _ _ _ _) as [[f1 ap1] r1] eqn:E.
  apply (log_write_placed _ _ _ _ _ _ seen) in E as [Hf1 Hap1]; [|set_solver|done].
  assert (Hgo : forall rest, match write_all (log_write recheck_every) envs rest f1 with
    | Some (f, ap', r) => Some (f, ap1 ++ ap', r) | None => None end = Some (f', ap, r) ->
    file_placed seen f' /\ appends_placed seen ap).
  { intros rest Hr. destruct (write_all (log_write recheck_every) envs rest f1) as [[[f2 ap2] r2]|] eqn:E2; [|done].
    simplify_eq. apply IH in E2 as [? Hap2]; [|set_solver|done]. split; [done|].
    intros a [Ha|Ha]%elem_of_app; [by apply Hap1|by apply Hap2]. }
  destruct r1 as [[|n]|[]]; try (simplify_eq; done); by eapply Hgo.
Qed.
End Placed.

Definition bytes_of (ap : list Append) : str := concat (ap_bytes <$> ap).

Lemma bytes_of_app ap ap' : bytes_of (ap ++ ap') = bytes_of ap ++ bytes_of ap'.
Proof. unfold bytes_of. by rewrite fmap_app, concat_app. Qed.

Lemma file_write_bytes env line f f' ap r :
  file_write env line f = (f', ap, r) ->
  match r with Ok n => bytes_of ap = take n line | Err _ => ap = [] end.
Proof.
  unfold file_write. destruct (we_taken env); intros; simplify_eq; [|done].
  unfold bytes_of. simpl. by rewrite app_nil_r.
Qed.

Lemma log_write_bytes recheck_every env line f f' ap r :
  log_write recheck_every env line f = (f', ap, r) ->
  match r with Ok n => bytes_of ap = take n line | Err _ => ap = [] end.
Proof.
  unfold log_write. intros H.
  destruct (lf_misplaced f || _); [|by eapply file_write_bytes].
  destruct (_ || negb _); [|by eapply file_write_bytes].
  destruct (we_open env); [by eapply file_write_bytes|by simplify_eq].
Qed.

(** A line that is written is written whole; one that fails is cut short. *)
Section Whole.
Context {E S A : Type} (write : E -> str -> S -> S * list A * result nat IoErrorKind) (bytes : A -> str).
Hypothesis write_bytes : forall env line f f' ap r,
  write env line f = (f', ap, r) -> match r with Ok n => concat (bytes <$> ap) = take n line | Err _ => ap = [] end.

Definition whole_or_cut (ok : bool) (line written : str) : Prop :=
  if ok then written = line else exists n, written = take n line.

Lemma write_all_whole envs line f f' ap r :
  write_all write envs line f = Some (f', ap, r) -> whole_or_cut (is_ok r) line (concat (bytes <$> ap)).
Proof using Type*.
  revert line f ap. induction envs as [|env envs IH]; intros line f ap H.
  { destruct line; simpl in H; by simplify_eq. }
  destruct line as [|c line]; [by simpl in H; simplify_eq|]. cbn [write_all] in H.
  destruct (write env (c :: line) f) as [[f1 ap1] r1] eqn:E1. apply write_bytes in E1.
  assert (Hgo : forall n, concat (bytes <$> ap1) = take n (c :: line) ->
    match write_all write envs (drop n (c :: line)) f1 with
    | Some (f, ap', r) => Some (f, ap1 ++ ap', r) | None => None end = Some (f', ap, r) ->
    whole_or_cut (is_ok r) (c :: line) (concat (bytes <$> ap))).
  { intros n En Hr. destruct (write_all _ _ (drop n _) f1) as [[[f2 ap2] r2]|] eqn:E2; [|done].
    simplify_eq. apply IH in E2. rewrite fmap_app, concat_app, En. unfold whole_or_cut in *. destruct (is_ok r).
    - by rewrite E2, take_drop.
    - destruct E2 as [m ->]. exists (n + m)%nat. by rewrite take_take_drop. }
  destruct r1 as [[|n]|e].
  - simplify_eq. by exists 0%nat.
  - by apply (Hgo (Datatypes.S n)).
  - destruct e; try (simplify_eq; by exists 0%nat). apply (Hgo 0%nat); [by rewrite E1|done].
Qed.
End Whole.

Lemma file_written_whole recheck_every envs line f f' ap r :
  write_all (log_write recheck_every) envs line f = Some (f', ap, r) -> whole_or_cut (is_ok r) line (bytes_of ap).
Proof. eapply (write_all_whole _ ap_bytes). intros *. apply log_write_bytes. Qed.

Lemma stdout_written_whole taken line f' ap r :
  write_all stdout_write taken line () = Some (f', ap, r) -> whole_or_cut (is_ok r) line (concat ap).
Proof.
  intros H. apply (write_all_whole _ (fun s => s)) in H; [by rewrite list_fmap_id in H|].
  intros [n|e] l [] [] ap' r'; simpl; intros; simplify_eq; [|done]. simpl. by rewrite app_nil_r.
Qed.

Lemma log_lines_spec recheck_every opened seen ls f f' out :
  0 < recheck_every -> envs_of ls ⊆ seen -> file_placed opened seen f ->
  log_lines recheck_every ls f = Some (f', out) ->
  Forall2 (fun l o => whole_or_cut o.2 l.1 (bytes_of o.1)) ls out /\
  Forall (fun o => appends_placed recheck_every opened seen o.1) out.
Proof.
  intros Hr. revert f out. induction ls as [|[line envs] ls IH]; intros f out Hs Hf H; simpl in H.
  { simplify_eq. split; constructor. }
  destruct (write_all _ _ _ _) as [[[f1 ap] r]|] eqn:E; [|done].
  destruct (log_lines _ _ f1) as [[f2 rest]|] eqn:E2; [|done]. simplify_eq.
  unfold envs_of in Hs. simpl in Hs. pose proof (file_written_whole _ _ _ _ _ _ _ E) as Hb.
  apply (write_all_placed _ opened Hr _ _ _ _ _ _ seen) in E as [Hf1 Ha]; [|set_solver|done].
  apply IH in E2 as [H2 H3]; [|unfold envs_of; set_solver|done]. split; by constructor.
Qed.

(** Every line written to the log is written whole or refused, and none goes
    astray for long: whatever is appended goes to the file that was at the
    path less than the interval between checks before, or was opened there,
    however the file was rotated. *)
Theorem log_lines_accounted recheck_every opened_at file ls f out :
  0 < recheck_every ->
  log_lines recheck_every ls (mkLogFile file opened_at false) = Some (f, out) ->
  Forall2 (fun l o => whole_or_cut o.2 l.1 (bytes_of o.1)) ls out /\
  (forall o a, o ∈ out -> a ∈ o.1 ->
     exists t, placed (opened_at, file) (envs_of ls) t (ap_file a) /\ ap_at a - t < recheck_every).
Proof.
  intros Hr H. apply (log_lines_spec _ (opened_at, file) (envs_of ls)) in H as [H2 H3]; [|done|done|].
  - split; [done|]. intros o a Ho Ha. rewrite Forall_forall in H3. by apply (H3 o Ho).
  - intros _. by left.
Qed.

(** ** A line while the file is being rotated *)

Definition rotated_lines : list (str * list WriteEnv) :=
  [(lit "one", [mkWriteEnv 100 (Some 7) true (Ok 7) (Ok 3%nat)]);
   (lit "two", [mkWriteEnv 2000000000 None true (Err IoNotFound) (Ok 3%nat)]);
   (lit "three", [mkWriteEnv 2000000001 (Some 9) true (Ok 9) (Ok 2%nat);
                  mkWriteEnv 2000000002 (Some 9) true (Ok 9) (Ok 3%nat)])].

Example rotated_lines_written :
  exists f out, log_lines ROTATION_CHECK rotated_lines (mkLogFile 7 0 false) = Some (f, out) /\
    out.*2 = [true; false; true] /\ lf_file f = 9.
Proof. by do 2 eexists. Qed.
