(* ===== verification/LogStart.v ===== *)
(** * The log of a process: [Log::start] of [lib/observability/src/logging.rs]

    The destinations a log is started with, each behind a queue that never
    waits and a thread that writes it out, and what becomes of every event:
    the filter, the layers that choose where it goes, the queue, the write
    ([Logging]). The queue is the tracing library's ([LineQueue]), its
    documentation the laws; the filter's syntax is that library's too. *)

From S2P Require Import Prelude Str Causes Logging.

(** A queue of lines with a limit, which takes a line or drops it, and gives
    them back in order; and its count of those dropped, a [usize]. *)
Class LineQueue (Q : Type) := {
  queue_new : Z -> Q;
  queue_offer : str -> Q -> Q * bool;
  queue_take : Q -> option (str * Q);
  count_dropped : Z -> Z;
}.

Class LineQueueLaws (Q : Type) `{!LineQueue Q} := {
  queue_waiting : Q -> list str;
  queue_limit : Q -> Z;
  queue_new_empty n : queue_waiting (queue_new n) = [] /\ queue_limit (queue_new n) = n;
  queue_offer_spec line q :
    queue_limit (queue_offer line q).1 = queue_limit q /\
    (queue_offer line q).2 = (Z.of_nat (length (queue_waiting q)) <? queue_limit q) /\
    queue_waiting (queue_offer line q).1 =
      if Z.of_nat (length (queue_waiting q)) <? queue_limit q then queue_waiting q ++ [line] else queue_waiting q;
  queue_take_spec q :
    match queue_take q with
    | Some (line, q') => queue_waiting q = line :: queue_waiting q' /\ queue_limit q' = queue_limit q
    | None => queue_waiting q = []
    end;
  count_dropped_spec n : 0 <= n < usize_max -> count_dropped n = n + 1;
}.

(** What is written to. *)
Inductive Sink := FileSink (f : LogFile) | StdoutSink.

(** How a line's write goes: the writes to the file, or standard output's. *)
Inductive Writes := FileWrites (envs : list WriteEnv) | StdoutWrites (taken : list (result nat IoErrorKind)).

(** A line taken off a queue: how its write went, and what of it reached the
    destination, where in the file if that is one. *)
Record Done := mkDone { dn_line : str; dn_writes : Writes; dn_ok : bool; dn_bytes : str; dn_appended : list Append }.

(** A destination with its queue and its counts; last, what it was given and
    what was done with each line taken off its queue. *)
Record Dest (Q : Type) := mkDest {
  dt_name : str;
  dt_thread : str;
  dt_queue : Q;
  dt_dropped : Z;
  dt_refused : Z;
  dt_sink : Sink;
  dt_sent : list str;
  dt_done : list Done;
}.
Arguments mkDest {Q} _ _ _ _ _ _ _ _.
Arguments dt_name {Q} _.
Arguments dt_thread {Q} _.
Arguments dt_queue {Q} _.
Arguments dt_dropped {Q} _.
Arguments dt_refused {Q} _.
Arguments dt_sink {Q} _.
Arguments dt_sent {Q} _.
Arguments dt_done {Q} _.

Section Log.
Context {Q : Type} `{!LineQueue Q}.
(** [EnvFilter]: its parser, and which targets it lets through. *)
Context {F : Type} (try_new : str -> option F) (new : str -> F) (enabled : F -> str -> bool).

Definition non_blocking (process name : str) (destination : Sink) (queue_lines : Z) : Dest Q :=
  mkDest name (process ++ lit "-log-" ++ name) (queue_new queue_lines) 0 0 destination [] [].

(** [Destination::lost_lines]: the sum of two [u64]. *)
Definition dest_lost (d : Dest Q) : Z := wrap64 (dt_dropped d + dt_refused d).

(** A line for the destination: queued, or dropped and counted. *)
Definition dest_send (line : str) (d : Dest Q) : Dest Q :=
  let (q, taken) := queue_offer line (dt_queue d) in
  mkDest (dt_name d) (dt_thread d) q (if taken then dt_dropped d else count_dropped (dt_dropped d)) (dt_refused d) (dt_sink d)
    (dt_sent d ++ [line]) (dt_done d).

(** [CountingRefusals::write_all] for the next line of the queue. *)
Definition dest_write (w : Writes) (d : Dest Q) : option (Dest Q) :=
  match queue_take (dt_queue d) with
  | None => None
  | Some (line, q) =>
      let wrote sink ok bytes appended :=
        mkDest (dt_name d) (dt_thread d) q (dt_dropped d)
          (if ok : bool then dt_refused d else wrap64 (dt_refused d + 1)) sink
          (dt_sent d) (dt_done d ++ [mkDone line w ok bytes appended]) in
      match dt_sink d, w with
      | FileSink f, FileWrites envs =>
          match write_all (log_write ROTATION_CHECK) envs line f with
          | Some (f, appended, r) => Some (wrote (FileSink f) (is_ok r) (bytes_of appended) appended)
          | None => None
          end
      | StdoutSink, StdoutWrites taken =>
          match write_all stdout_write taken line () with
          | Some (_, appended, r) => Some (wrote StdoutSink (is_ok r) (concat appended) [])
          | None => None
          end
      | _, _ => None
      end
  end.

(** The log: its filter, and the layers in front of its destinations. *)
Record Log := mkLog {
  lg_filter : F;
  lg_settings : LogSettings;
  lg_has_file : bool;
  lg_destinations : list (Dest Q);
}.

(** The layer of a destination: the file's takes everything. *)
Definition goes_to (s : LogSettings) (has_file : bool) (target : str) (sink : Sink) : bool :=
  match sink with FileSink _ => true | StdoutSink => to_stdout s has_file target end.

(** An event, as a line. *)
Definition log_emit (target line : str) (l : Log) : Log :=
  if enabled (lg_filter l) target then
    mkLog (lg_filter l) (lg_settings l) (lg_has_file l)
      ((fun d => if goes_to (lg_settings l) (lg_has_file l) target (dt_sink d) then dest_send line d else d) <$> lg_destinations l)
  else l.

Definition LOG_TARGET : str := lit "netkit_observability::logging".

(** [Log::start]: [opened] is what opening the file gives, [io_text] the text
    of an error, [started] the line of the event logged with a file. *)
Definition log_start (io_text : IoErrorKind -> str) (started : str -> str) (now : Z)
    (opened : str -> result Z IoErrorKind) (rust_log : option str) (file : option str) (settings : LogSettings) :
    result Log (IoErrorKind * str) :=
  let filter := log_filter try_new new (ls_quiet_unless_asked settings) rust_log in
  let? log_file :=
    match file with
    | None => Ok None
    | Some path =>
        match log_open now (opened path) with
        | Ok f => Ok (Some f)
        | Err e => Err (e, lit "opening the log file " ++ path ++ lit ": " ++ io_text e)
        end
    end in
  let to_file := match log_file with
                 | Some f => [non_blocking (ls_name settings) (lit "file") (FileSink f) QUEUE_LINES]
                 | None => []
                 end in
  let log := mkLog filter settings (negb (is_none log_file))
               (to_file ++ [non_blocking (ls_name settings) (lit "stdout") StdoutSink QUEUE_LINES]) in
  Ok match file with Some path => log_emit LOG_TARGET (started path) log | None => log end.

(** [Log::lost_lines]. *)
Definition log_lost_lines (l : Log) : list (str * Z) := (fun d => (dt_name d, dest_lost d)) <$> lg_destinations l.

Inductive LogEvent := Emits (target line : str) | ThreadWrites (j : nat) (w : Writes).

Definition log_event (ev : LogEvent) (l : Log) : option Log :=
  match ev with
  | Emits target line => Some (log_emit target line l)
  | ThreadWrites j w =>
      match lg_destinations l !! j with
      | Some d =>
          (fun d => mkLog (lg_filter l) (lg_settings l) (lg_has_file l) (<[j := d]> (lg_destinations l)))
            <$> dest_write w d
      | None => None
      end
  end.

Fixpoint log_run (evs : list LogEvent) (l : Log) : option Log :=
  match evs with
  | [] => Some l
  | ev :: evs => match log_event ev l with Some l => log_run evs l | None => None end
  end.
End Log.

(** ** Every line is accounted for *)

Section Accounted.
Context {Q : Type} `{!LineQueue Q} `{!LineQueueLaws Q}.
Context {F : Type} (try_new : str -> option F) (new : str -> F) (enabled : F -> str -> bool).

(** The lines a file's thread wrote, as [Logging] has them. *)
Definition write_of (x : Done) : str * list WriteEnv :=
  (dn_line x, match dn_writes x with FileWrites envs => envs | StdoutWrites _ => [] end).

Definition not_written (x : Done) : bool := negb (dn_ok x).

(** A destination of which nothing is lost uncounted, as long as the counts
    are wide enough. *)
Record dest_inv (f0 : option LogFile) (d : Dest Q) : Prop := {
  di_limit : queue_limit (dt_queue d) = QUEUE_LINES;
  di_bounded : Z.of_nat (length (queue_waiting (dt_queue d))) <= QUEUE_LINES;
  di_order : sublist ((dn_line <$> dt_done d) ++ queue_waiting (dt_queue d)) (dt_sent d);
  di_dropped : Z.of_nat (length (dt_sent d)) <= u64_max -> Z.of_nat (length (dt_sent d)) =
    Z.of_nat (length (dt_done d)) + Z.of_nat (length (queue_waiting (dt_queue d))) + dt_dropped d /\ 0 <= dt_dropped d;
  di_refused : dt_refused d = wrap64 (Z.of_nat (length (keep not_written (dt_done d))));
  di_whole : Forall (fun x => whole_or_cut (dn_ok x) (dn_line x) (dn_bytes x)) (dt_done d);
  di_file : match dt_sink d, f0 with
            | FileSink f, Some f0 =>
                log_lines ROTATION_CHECK (write_of <$> dt_done d) f0 =
                  Some (f, (fun x => (dn_appended x, dn_ok x)) <$> dt_done d) /\
                Forall (fun x => dn_bytes x = bytes_of (dn_appended x)) (dt_done d)
            | StdoutSink, None => True
            | _, _ => False
            end;
}.

Lemma log_lines_app recheck ls line envs f f1 out :
  log_lines recheck ls f = Some (f1, out) ->
  log_lines recheck (ls ++ [(line, envs)]) f =
  match write_all (log_write recheck) envs line f1 with
  | Some (f2, ap, r) => Some (f2, out ++ [(ap, is_ok r)])
  | None => None
  end.
Proof using Type.
  revert f out. induction ls as [|[l e] ls IH]; intros f out; simpl.
  - intros [= <- <-]. by destruct (write_all _ _ _ _) as [[[? ?] ?]|].
  - destruct (write_all _ e l f) as [[[f0 ap] r]|]; [|done].
    destruct (log_lines recheck ls f0) as [[f0' rest]|] eqn:E; [|done]. intros [= <- <-].
    rewrite (IH _ _ E). by destruct (write_all _ _ _ _) as [[[? ?] ?]|].
Qed.

Lemma dest_send_inv f0 line d : dest_inv f0 d -> dest_inv f0 (dest_send line d).
Proof using Type.
  intros []. unfold dest_send. pose proof (queue_offer_spec line (dt_queue d)) as (Hl & Ht & Hw).
  destruct (queue_offer line (dt_queue d)) as [q taken]. simpl in Hl, Ht, Hw. subst taken.
  rewrite di_limit0 in Hw. rewrite di_limit0. constructor; simpl; try done; [congruence|..].
  - rewrite Hw. destruct (Z.ltb_spec (Z.of_nat (length (queue_waiting (dt_queue d)))) QUEUE_LINES); [|done].
    rewrite length_app. simpl. lia.
  - rewrite Hw. case_match.
    + rewrite app_assoc. by apply sublist_app.
    + by apply sublist_inserts_r.
  - rewrite Hw, length_app. simpl. intros Hmax. destruct di_dropped0; [lia|].
    case_match; rewrite ?length_app; simpl; [lia|].
    rewrite count_dropped_spec; unfold usize_max, u64_max in *; lia.
Qed.

Lemma wrap64_S n : wrap64 (wrap64 n + 1) = wrap64 (n + 1).
Proof using Type. unfold wrap64. by rewrite Zplus_mod_idemp_l. Qed.

Lemma dest_write_inv f0 w d d' : dest_inv f0 d -> dest_write w d = Some d' -> dest_inv f0 d'.
Proof using Type.
  intros [] H. unfold dest_write in H. pose proof (queue_take_spec (dt_queue d)) as Hq.
  destruct (queue_take (dt_queue d)) as [[line q]|]; [|done]. destruct Hq as [Hq Hl].
  assert (Hcommon : forall sink ok bytes ap,
    let done_ := dt_done d ++ [mkDone line w ok bytes ap] in
    whole_or_cut ok line bytes ->
    (match sink, f0 with
     | FileSink f, Some f0 =>
         log_lines ROTATION_CHECK (write_of <$> done_) f0 = Some (f, (fun x => (dn_appended x, dn_ok x)) <$> done_) /\
         Forall (fun x => dn_bytes x = bytes_of (dn_appended x)) done_
     | StdoutSink, None => True
     | _, _ => False
     end) ->
    dest_inv f0 (mkDest (dt_name d) (dt_thread d) q (dt_dropped d)
      (if ok then dt_refused d else wrap64 (dt_refused d + 1)) sink (dt_sent d) done_)).
  { intros sink ok bytes ap done_ Hw Hf. rewrite Hq in *. simpl in *. constructor; simpl; try done; [congruence|lia|..].
    - unfold done_. by rewrite fmap_app, <-app_assoc.
    - intros Hmax. destruct (di_dropped0 Hmax). unfold done_. rewrite length_app. simpl. lia.
    - unfold done_. rewrite keep_app, length_app, di_refused0. destruct ok; simpl; [f_equal; lia|].
      rewrite wrap64_S. f_equal. lia.
    - apply Forall_app. split; [done|]. by constructor. }
  destruct (dt_sink d) as [f|] eqn:Es, w as [envs|taken]; try done.
  - destruct (write_all _ _ _ _) as [[[f' ap] r]|] eqn:Ew; [|done]. injection H as <-.
    apply Hcommon; [by eapply file_written_whole|].
    destruct f0 as [f0|]; [|done]. destruct di_file0 as [Hf Hb]. split.
    + rewrite !fmap_app.
      change (write_of <$> [mkDone line (FileWrites envs) (is_ok r) (bytes_of ap) ap]) with [(line, envs)].
      by rewrite (log_lines_app _ _ _ _ _ _ _ Hf), Ew.
    + apply Forall_app. split; [done|]. by constructor.
  - destruct (write_all _ _ _ _) as [[[f' ap] r]|] eqn:Ew; [|done]. injection H as <-.
    apply Hcommon; [by eapply stdout_written_whole|done].
Qed.

Definition dest_name (f0 : option LogFile) : str := if is_none f0 then lit "stdout" else lit "file".

(** Which events a destination is given. *)
Definition wants (s : LogSettings) (has_file : bool) (f0 : option LogFile) (target : str) : bool :=
  negb (is_none f0) || to_stdout s has_file target.

(** The events that pass the filter. *)
Definition let_through (f : F) (events : list (str * str)) : list (str * str) := keep (fun e => enabled f e.1) events.

Definition dest_ok (s : LogSettings) (has_file : bool) (events : list (str * str)) (f0 : option LogFile) (d : Dest Q) : Prop :=
  dest_inv f0 d /\ dt_name d = dest_name f0 /\ dt_thread d = ls_name s ++ lit "-log-" ++ dest_name f0 /\
  dt_sent d = (keep (fun e => wants s has_file f0 e.1) events).*2.

Definition sinks (f0 : option LogFile) : list (option LogFile) := match f0 with Some _ => [f0; None] | None => [None] end.

Definition log_inv (s : LogSettings) (f : F) (f0 : option LogFile) (events : list (str * str)) (l : Log (Q := Q) (F := F)) : Prop :=
  lg_settings l = s /\ lg_filter l = f /\ lg_has_file l = negb (is_none f0) /\
  Forall2 (dest_ok s (lg_has_file l) (let_through f events)) (sinks f0) (lg_destinations l).

Lemma wants_goes_to s has_file f0 d target :
  dest_inv f0 d -> goes_to s has_file target (dt_sink d) = wants s has_file f0 target.
Proof using Type. intros []. destruct (dt_sink d), f0; done. Qed.

Lemma log_emit_inv s f f0 events target line l :
  log_inv s f f0 events l -> log_inv s f f0 (events ++ [(target, line)]) (log_emit enabled target line l).
Proof using Type.
  intros (Hs & Hfi & Hf & Hd). unfold log_emit, log_inv, let_through. rewrite Hfi, keep_app. simpl.
  destruct (enabled f target); simpl; [|by rewrite app_nil_r]. split_and!; [done..|].
  rewrite Forall2_fmap_r. eapply Forall2_impl; [exact Hd|]. intros g d (Hi & Hn & Ht & Hsent).
  unfold compose. rewrite (wants_goes_to _ _ g) by done. subst s. unfold dest_ok. rewrite keep_app, fmap_app. simpl.
  destruct (wants (lg_settings l) (lg_has_file l) g target) eqn:Ew.
  - split; [by apply dest_send_inv|]. unfold dest_send. destruct (queue_offer line (dt_queue d)). simpl.
    by rewrite Hsent.
  - simpl. rewrite app_nil_r. done.
Qed.

(** What is logged by a run. *)
Definition emitted (evs : list LogEvent) : list (str * str) :=
  omap (fun ev => match ev with Emits target line => Some (target, line) | ThreadWrites _ _ => None end) evs.

Lemma log_event_inv s f f0 events ev l l' :
  log_inv s f f0 events l -> log_event enabled ev l = Some l' -> log_inv s f f0 (events ++ emitted [ev]) l'.
Proof using Type.
  intros Hi H. destruct ev as [target line|j w]; simpl in H; [injection H as <-; by apply log_emit_inv|].
  simpl. rewrite app_nil_r.
  destruct Hi as (Hs & Hfi & Hf & Hd). destruct (lg_destinations l !! j) as [d|] eqn:Ej; [|done].
  apply fmap_Some in H as (d' & Hw & ->). split_and!; [done..|]. simpl.
  destruct (Forall2_lookup_r _ _ _ _ _ Hd Ej) as (g & Ef & Hi & Hn & Ht & Hsent).
  rewrite <-(list_insert_id (sinks f0) j g) by done. apply Forall2_insert; [done|].
  pose proof (dest_write_inv _ _ _ _ Hi Hw) as Hi'. split; [done|].
  unfold dest_write in Hw. repeat case_match; simplify_eq; done.
Qed.

Lemma log_run_inv s f f0 events evs l l' :
  log_inv s f f0 events l -> log_run enabled evs l = Some l' -> log_inv s f f0 (events ++ emitted evs) l'.
Proof using Type.
  revert events l. induction evs as [|ev evs IH]; intros events l Hi; simpl; [intros [= <-]; by rewrite app_nil_r|].
  destruct (log_event enabled ev l) as [l1|] eqn:E; [|done]. intros H.
  apply (log_event_inv _ _ _ _ _ _ _ Hi) in E. apply (IH _ _ E) in H.
  rewrite <-app_assoc in H. by destruct ev.
Qed.

Lemma non_blocking_ok s has_file f0 sink :
  match sink, f0 with FileSink f, Some f0 => f = f0 | StdoutSink, None => True | _, _ => False end ->
  dest_ok s has_file [] f0 (non_blocking (ls_name s) (dest_name f0) sink QUEUE_LINES).
Proof using Type.
  intros Hs. destruct (queue_new_empty QUEUE_LINES) as [Hw Hl]. unfold non_blocking. split_and!; [|done..].
  constructor; simpl; rewrite ?Hw; try done. destruct sink, f0; try done. by subst.
Qed.

(** What a log says of itself as it starts. *)
Definition first_event (started : str -> str) (file : option str) : list (str * str) :=
  match file with Some path => [(LOG_TARGET, started path)] | None => [] end.

Lemma log_start_inv io_text started now opened rust_log file s l :
  log_start try_new new enabled io_text started now opened rust_log file s = Ok l ->
  exists f0, log_inv s (log_filter try_new new (ls_quiet_unless_asked s) rust_log) f0 (first_event started file) l /\
    is_none f0 = is_none file /\
    forall path, file = Some path -> exists i, opened path = Ok i /\ f0 = Some (mkLogFile i now false).
Proof using Type.
  unfold log_start. destruct file as [path|].
  - unfold log_open. destruct (opened path) as [i|e] eqn:Eo; cbn; [|done]. intros [= <-].
    exists (Some (mkLogFile i now false)). split; [|split; [done|intros ? [= <-]; eauto]].
    apply (log_emit_inv _ _ _ []).
    split_and!; [done..|]. cbn. constructor; [|constructor; [|constructor]]; by apply non_blocking_ok.
  - cbn. intros [= <-]. exists None. split; [|done]. split_and!; [done..|].
    cbn. constructor; [|constructor]. by apply non_blocking_ok.
Qed.

(** What became of the lines of a destination that was to be given [given]. *)
Definition accounted (opened : option (Z * Z)) (given : list str) (d : Dest Q) : Prop :=
  let waiting := queue_waiting (dt_queue d) in
  dt_sent d = given /\
  sublist ((dn_line <$> dt_done d) ++ waiting) given /\
  Z.of_nat (length waiting) <= QUEUE_LINES /\
  (Z.of_nat (length given) <= u64_max ->
   dest_lost d = Z.of_nat (length given) - Z.of_nat (length (keep dn_ok (dt_done d))) - Z.of_nat (length waiting)) /\
  Forall (fun x => if dn_ok x then dn_bytes x = dn_line x else exists n, dn_bytes x = take n (dn_line x)) (dt_done d) /\
  match dt_sink d, opened with
  | FileSink _, Some opened =>
      Forall (fun x => dn_bytes x = bytes_of (dn_appended x) /\
                forall a, a ∈ dn_appended x -> exists t,
                  placed opened (envs_of (write_of <$> dt_done d)) t (ap_file a) /\ ap_at a - t < ROTATION_CHECK)
        (dt_done d)
  | FileSink _, None => False
  | StdoutSink, _ => True
  end.

Lemma keep_split (l : list Done) :
  (length (keep dn_ok l) + length (keep not_written l))%nat = length l.
Proof using Type.
  unfold not_written. induction l as [|x l IH]; [done|]. simpl. destruct (dn_ok x); simpl; lia.
Qed.

Lemma dest_accounted s has_file events f0 i now d :
  (forall f, f0 = Some f -> f = mkLogFile i now false) ->
  dest_ok s has_file events f0 d ->
  accounted (Some (now, i)) (keep (fun e => goes_to s has_file e.1 (dt_sink d)) events).*2 d.
Proof using Type.
  intros Hf (Hi & _ & _ & Hsent). pose proof Hi as [].
  assert (E : dt_sent d = (keep (fun e => goes_to s has_file e.1 (dt_sink d)) events).*2).
  { rewrite Hsent. f_equal. apply keep_ext. intros e _. symmetry. by apply wants_goes_to. }
  unfold accounted. rewrite <-E. split_and!; [done|done|done| |done|].
  - intros Hmax. destruct (di_dropped0 Hmax) as [Hd H0]. unfold dest_lost. rewrite di_refused0.
    pose proof (keep_split (dt_done d)).
    rewrite (wrap64_small (Z.of_nat (length (keep not_written _)))), wrap64_small; unfold u64_max in *; lia.
  - destruct (dt_sink d) as [f|] eqn:Es; [|done]. destruct f0 as [f0|]; [|done]. destruct di_file0 as [Hl Hb].
    rewrite (Hf f0 eq_refl) in Hl.
    apply (log_lines_spec _ (now, i) (envs_of (write_of <$> dt_done d))) in Hl as [_ H3]; [|done|done|by intros _; left].
    rewrite Forall_fmap in H3. apply Forall_and. split; [exact Hb|exact H3].
Qed.

(** The events standard output is not given when there is a file: those of
    the targets that are for the file alone. *)
Definition for_stdout (s : LogSettings) (file : option str) (target : str) : bool :=
  match file with
  | Some _ => bool_decide (ls_file_only_targets s = []) || negb (starts_with (ls_file_only_targets s) target)
  | None => true
  end.

Lemma for_stdout_to s file target : to_stdout s (negb (is_none file)) target = for_stdout s file target.
Proof using Type. unfold to_stdout, is_file_only, for_stdout. destruct file; simpl; by rewrite ?negb_andb, ?negb_involutive. Qed.

(** C34: A started log loses nothing uncounted and sends nothing astray. It
    fails to start only when its file cannot be opened. However events are
    logged and the threads write: of all that was logged since the start,
    the file, if there is one, is given every event the filter lets through,
    and standard output those too, but for the file-only ones when there is
    a file. Each destination writes its lines in the order they were logged,
    never has more than the limit waiting, and its count of lost lines is
    exactly what it was given, less what it wrote and what still waits, for
    as many lines as fit its counters. Each line written reached its
    destination whole, and in the file it went to the one that was at the
    path less than the interval between checks before. *)
Theorem log_accounted io_text started now opened rust_log file s :
  match log_start try_new new enabled io_text started now opened rust_log file s with
  | Err (e, _) => exists path, file = Some path /\ opened path = Err e
  | Ok l0 => forall evs l, log_run enabled evs l0 = Some l ->
      let filter := log_filter try_new new (ls_quiet_unless_asked s) rust_log in
      let logged := keep (fun e => enabled filter e.1) (first_event started file ++ emitted evs) in
      dt_name <$> lg_destinations l = (if is_none file then [] else [lit "file"]) ++ [lit "stdout"] /\
      forall d, d ∈ lg_destinations l ->
        exists i, (forall path, file = Some path -> opened path = Ok i) /\
          accounted (Some (now, i))
            (if str_eqb (dt_name d) (lit "file") then logged else keep (fun e => for_stdout s file e.1) logged).*2 d
  end.
Proof using Type.
  destruct (log_start _ _ _ _ _ _ _ _ _ _) as [l0|[e text]] eqn:E.
  2: { unfold log_start in E. destruct file as [path|]; [|by simpl in E]. exists path. split; [done|].
       unfold log_open in E. destruct (opened path); simpl in E; [done|]. by simplify_eq. }
  intros evs l Hr filter logged. destruct (log_start_inv _ _ _ _ _ _ _ _ E) as (f0 & Hi & Hn & Hf).
  destruct (log_run_inv _ _ _ _ _ _ _ Hi Hr) as (Hs & Hfi & Hh & Hd). fold filter in Hd.
  change (let_through filter (first_event started file ++ emitted evs)) with logged in Hd. split.
  - rewrite <-Hn. destruct f0; simpl in Hd;
      repeat match goal with H : Forall2 _ (_ :: _) _ |- _ => apply Forall2_cons_inv_l in H as (? & ? & (_ & ? & _) & ? & ->)
             | H : Forall2 _ [] _ |- _ => apply Forall2_nil_inv_l in H as -> end; csimpl; by repeat f_equal.
  - intros d (j & Hj)%list_elem_of_lookup. destruct (Forall2_lookup_r _ _ _ _ _ Hd Hj) as (g & Hg & Hok).
    apply list_elem_of_lookup_2 in Hg. rewrite Hh, Hn in Hok.
    assert (exists i, (forall path, file = Some path -> opened path = Ok i) /\
              forall f, g = Some f -> f = mkLogFile i now false) as (i & Ei & Hgi).
    { destruct file as [path|].
      - destruct (Hf path eq_refl) as (i & Ei & ->). exists i. split; [by intros ? [= <-]|].
        intros f ->. simpl in Hg. set_solver.
      - destruct f0; [done|]. exists 0. split; [done|]. intros f ->. simpl in Hg. set_solver. }
    exists i. split; [done|]. pose proof (dest_accounted _ _ _ _ _ _ _ Hgi Hok) as Ha.
    destruct Hok as ([] & Hname & _). rewrite Hname. unfold dest_name.
    destruct (dt_sink d), g as [g|]; try done; simpl in Ha |- *.
    + by rewrite keep_all in Ha by done.
    + erewrite keep_ext in Ha; [exact Ha|]. intros x _. apply for_stdout_to.
Qed.
End Accounted.

(** ** A log with a file *)

#[export] Instance list_queue : LineQueue (Z * list str) := {
  queue_new limit := (limit, []);
  queue_offer line q := if Z.of_nat (length q.2) <? q.1 then ((q.1, q.2 ++ [line]), true) else (q, false);
  queue_take q := match q.2 with line :: rest => Some (line, (q.1, rest)) | [] => None end;
  count_dropped n := Z.min (n + 1) usize_max;
}.

#[export] Instance list_queue_laws : LineQueueLaws (Z * list str).
Proof.
  refine {| queue_waiting := snd; queue_limit := fst |}.
  - done.
  - intros line [limit lines]. simpl. by destruct (_ <? limit).
  - intros [limit [|line lines]]; done.
  - intros n Hn. simpl. lia.
Defined.

(** The node's own settings, of [main.rs]. *)
Definition LOG : LogSettings := mkLogSettings (lit "gfe") (lit "rustls=error") (lit "gfe::").

Definition example_log : result (Log (Q := Z * list str) (F := str)) (IoErrorKind * str) :=
  log_start Some (fun directives => directives) (fun _ _ => true) (fun _ => []) (fun path => path) 0 (fun _ => Ok 7) None
    (Some (lit "access.log")) LOG.

(** A request is logged to the file alone, and the file is rotated away as it
    is written. *)
Definition example_events : list LogEvent :=
  [ Emits (lit "gfe::access") (lit "GET");
    ThreadWrites 0 (FileWrites [mkWriteEnv 5 (Some 7) true (Ok 7) (Ok 10%nat)]);
    ThreadWrites 1 (StdoutWrites [Ok 4%nat; Err IoInterrupted; Ok 6%nat]);
    ThreadWrites 0 (FileWrites [mkWriteEnv 2000000000 None true (Err IoNotFound) (Ok 3%nat)]) ].

Lemma log_accounted_witness :
  match example_log with
  | Ok l0 => exists l, log_run (fun _ _ => true) example_events l0 = Some l /\
      log_lost_lines l = [(lit "file", 1); (lit "stdout", 0)] /\
      forall d, d ∈ lg_destinations l -> dt_name d = lit "stdout" -> dt_sent d = [lit "access.log"]
  | Err _ => False
  end.
Proof.
  pose proof (log_accounted (Q := Z * list str) Some (fun directives => directives) (fun _ _ => true) (fun _ => []) (fun path => path) 0
    (fun _ => Ok 7) None (Some (lit "access.log")) LOG) as H.
  fold example_log in H. destruct example_log as [l0|[e text]] eqn:E; [|discriminate].
  destruct (log_run (fun _ _ => true) example_events l0) as [l|] eqn:Er.
  - destruct (H _ _ Er) as [_ Hp]. exists l. split; [reflexivity|]. injection E as <-. injection Er as <-.
    split; [reflexivity|]. intros d Hd Hs. destruct (Hp d Hd) as (i & _ & Ha & _). rewrite Hs in Ha. exact Ha.
  - injection E as <-. discriminate.
Defined.
