(* ===== verification/Handover.v ===== *)
(** * Handing the listening sockets over: [lib/listen/src/handover.rs] and
    [gfe/node/src/handover.rs]

    A socket is known by its open file description, which a duplicate
    shares. What is sent over the Unix socket is a stream of bytes, some of
    which carry sockets; [delivery] says how the kernel may hand it to the
    receiver, read by read. The outgoing process reads the answer a byte at
    a time: a script of what each read meets, and when. *)

From S2P Require Import Prelude Str Net Config IpText Text Causes.
From Stdlib Require Import Ascii.

Definition RECEIVED : str := lit "received".
Definition READY : str := lit "ready".
Definition SOCKETS_PER_MESSAGE : nat := 64.
Definition READ_SIZE : nat := 4096.

Record Protocol := mkProtocol { pr_name : str; pr_version : Z }.

Definition header (p : Protocol) : str := pr_name p ++ lit " " ++ decimal (pr_version p).

(** A listening socket being handed over: its role, the address (with its
    scope) it is configured on, and its open file description. *)
Record Socket := mkSocket { sk_role : str; sk_addr : SocketAddr * Z; sk_file : Z }.

(** Why an exchange fails: a malformed handover, or what the system says. *)
Inductive HandoverError :=
| NotOneWord (word : str)
| Malformed (what : str)
| HandoverIo (e : IoErrorKind).

Definition is_one_word (word : str) : bool := negb (bool_decide (word = [])) && negb (has_white_space word).

(** ** Sending *)

Definition line (s : Socket) : str :=
  sk_role s ++ lit " " ++ socket_addr_to_string (sk_addr s).1 (sk_addr s).2.

(** The bytes of a Unix socket, each with the sockets that travel with it. *)
Notation Wire := (list (ascii * list Z)).

Definition plain (s : str) : Wire := (fun c => (c, [])) <$> s.

(** A message: its sockets travel with its first byte. *)
Definition message (text : str) (files : list Z) : Wire :=
  match text with
  | [] => []
  | c :: text => (c, files) :: plain text
  end.

(** [slice::chunks]. *)
Fixpoint chunks_of {A} (fuel : nat) (n : nat) (l : list A) : list (list A) :=
  match fuel, l with
  | S fuel, _ :: _ => take n l :: chunks_of fuel n (drop n l)
  | _, _ => []
  end.

Definition chunks {A} (n : nat) (l : list A) : list (list A) := chunks_of (length l) n l.

Definition send_message (sockets : list Socket) : Wire :=
  message (concat ((fun s => line s ++ [line_feed]) <$> sockets)) (sk_file <$> sockets).

(** [send], when nothing fails under it: what is sent before the sending
    half is closed. *)
Definition handover_send (p : Protocol) (sockets : list Socket) : result Wire HandoverError :=
  match find_first (fun word => negb (is_one_word word)) (pr_name p :: (sk_role <$> sockets)) with
  | Some word => Err (NotOneWord word)
  | None =>
      Ok (plain (header p ++ [line_feed]) ++ concat (send_message <$> chunks SOCKETS_PER_MESSAGE sockets))
  end.

(** ** Receiving *)

(** One [recvmsg]: the bytes, the sockets, and whether some were lost. *)
Record Received := mkReceived { rc_bytes : str; rc_files : list Z; rc_truncated : bool }.

(** Reads up to the one that returns nothing; [None] when the script ends
    before it. *)
Fixpoint gather (reads : list Received) (text : str) (files : list Z) :
    option (result (str * list Z) HandoverError) :=
  match reads with
  | [] => None
  | r :: reads =>
      if rc_truncated r then Some (Err (Malformed (lit "sockets were lost on the way")))
      else
        let files := files ++ rc_files r in
        match rc_bytes r with
        | [] => Some (Ok (text, files))
        | _ => gather reads (text ++ rc_bytes r) files
        end
  end.

(** The sockets of the lines, in order. *)
Fixpoint take_lines (roles : list str) (ls : list str) (files : list Z) : result (list Socket) HandoverError :=
  match ls with
  | [] => match files with [] => Ok [] | _ => Err (Malformed (lit "more sockets than lines")) end
  | l :: ls =>
      match split_once " "%char l with
      | None => Err (Malformed (lit "a line without an address"))
      | Some (role, addr) =>
          match parse_socket_addr addr with
          | None => Err (Malformed (lit "a malformed address"))
          | Some addr =>
              match files with
              | [] => Err (Malformed (lit "fewer sockets than lines"))
              | file :: files =>
                  if negb (existsb (str_eqb role) roles)
                  then Err (Malformed (lit "a socket of an unknown role"))
                  else
                    let? rest := take_lines roles ls files in
                    Ok (mkSocket role addr file :: rest)
              end
          end
      end
  end.

(** [receive], by process [pid]: the sockets, and what is answered. *)
Definition handover_receive (p : Protocol) (roles : list str) (pid : Z) (reads : list Received) :
    option (result (list Socket * str) HandoverError) :=
  match gather reads [] [] with
  | None => None
  | Some (Err e) => Some (Err e)
  | Some (Ok (text, files)) =>
      Some
        (if negb (is_utf8 text) then Err (Malformed (lit "not text"))
         else match lines text with
         | first :: rest =>
             if negb (str_eqb first (header p))
             then Err (Malformed (lit "not a handover this version understands"))
             else
               let? sockets := take_lines roles rest files in
               Ok (sockets, RECEIVED ++ lit " " ++ decimal pid ++ [line_feed])
         | [] => Err (Malformed (lit "not a handover this version understands"))
         end)
  end.

(** ** The answers *)

Definition confirmation : str := READY ++ [line_feed].

(** What a one-byte read meets. *)
Inductive ReadByte := GotByte (b : ascii) | AtEof | ReadFails (e : IoErrorKind).

Definition is_retried (e : IoErrorKind) : bool :=
  match e with IoInterrupted | IoWouldBlock | IoTimedOut => true | _ => false end.

(** [read_line], given the time at each round and what its read meets; the
    rest of the script with the line. [None] when the script ends first. *)
Fixpoint read_line (deadline : Z) (script : list (Z * ReadByte)) (acc : str) :
    option (result (str * list (Z * ReadByte)) HandoverError) :=
  match script with
  | [] => None
  | (now, met) :: script =>
      if saturating_duration_since deadline now =? 0 then Some (Err (HandoverIo IoTimedOut))
      else match met with
      | ReadFails e =>
          if is_retried e then read_line deadline script acc else Some (Err (HandoverIo e))
      | AtEof => Some (Err (HandoverIo IoUnexpectedEof))
      | GotByte b =>
          if bool_decide (b = line_feed)
          then Some (if is_utf8 acc then Ok (acc, script) else Err (Malformed (lit "not text")))
          else read_line deadline script (acc ++ [b])
      end
  end.

Definition await_receipt (deadline : Z) (script : list (Z * ReadByte)) :
    option (result (Z * list (Z * ReadByte)) HandoverError) :=
  match read_line deadline script [] with
  | None => None
  | Some (Err e) => Some (Err e)
  | Some (Ok (answer, script)) =>
      Some (match strip_prefix RECEIVED answer ≫= fun pid => parse_unsigned u32_max (trim pid) with
            | Some pid => Ok (pid, script)
            | None => Err (Malformed (lit "not a receipt"))
            end)
  end.

Definition await_confirmation (deadline : Z) (script : list (Z * ReadByte)) :
    option (result unit HandoverError) :=
  match read_line deadline script [] with
  | None => None
  | Some (Err e) => Some (Err e)
  | Some (Ok (answer, _)) =>
      Some (if str_eqb answer READY then Ok () else Err (Malformed (lit "not a confirmation")))
  end.

(** ** The node's handover: [gfe/node/src/handover.rs] *)

Definition PROTOCOL : Protocol := mkProtocol (lit "gfe-handover") 1.
Definition LISTENER : str := lit "listener".
Definition OPS : str := lit "ops".

Record Sockets := mkSockets {
  ss_listeners : list (SocketAddr * Z * Z);
  ss_ops : option (SocketAddr * Z * Z);
}.

(** Duplicates of the sockets, with their roles. *)
Definition handed (s : Sockets) : list Socket :=
  ((fun x => mkSocket LISTENER x.1 x.2) <$> ss_listeners s) ++
  match ss_ops s with Some x => [mkSocket OPS x.1 x.2] | None => [] end.

Definition node_send (s : Sockets) : result Wire HandoverError := handover_send PROTOCOL (handed s).

Definition sort_out (sockets : list Socket) : Sockets :=
  foldl (fun s k =>
    if str_eqb (sk_role k) OPS then mkSockets (ss_listeners s) (Some (sk_addr k, sk_file k))
    else mkSockets (ss_listeners s ++ [(sk_addr k, sk_file k)]) (ss_ops s)) (mkSockets [] None) sockets.

Definition node_receive (pid : Z) (reads : list Received) : option (result (Sockets * str) HandoverError) :=
  match handover_receive PROTOCOL [LISTENER; OPS] pid reads with
  | None => None
  | Some (Err e) => Some (Err e)
  | Some (Ok (sockets, answer)) => Some (Ok (sort_out sockets, answer))
  end.

(** ** What the kernel promises

    A stream socket delivers the bytes in order, in reads of any size up to
    the buffer's, and with each byte the sockets sent with it. A read does
    not go past a byte that carries sockets into another that does. More
    sockets than there is room for are lost, and the read says so. *)
Definition carriers (w : Wire) : nat := length (keep (fun b => negb (bool_decide (b.2 = []))) w).

Inductive delivery : Wire -> list Received -> Prop :=
| delivered_all : delivery [] [mkReceived [] [] false]
| delivered_some chunk w reads :
    chunk <> [] -> (length chunk <= READ_SIZE)%nat -> (carriers chunk <= 1)%nat ->
    delivery w reads ->
    delivery (chunk ++ w)
      (mkReceived chunk.*1 (take SOCKETS_PER_MESSAGE (concat chunk.*2))
         (Nat.ltb SOCKETS_PER_MESSAGE (length (concat chunk.*2))) :: reads).

(** The bytes of [text] are read, each in time, between reads that are tried
    again; then comes [rest]. *)
Inductive spells (deadline : Z) : str -> list (Z * ReadByte) -> list (Z * ReadByte) -> Prop :=
| spells_nil rest : spells deadline [] rest rest
| spells_byte b text now script rest :
    now < deadline -> spells deadline text script rest ->
    spells deadline (b :: text) ((now, GotByte b) :: script) rest
| spells_retry b text now e script rest :
    now < deadline -> is_retried e = true -> spells deadline (b :: text) script rest ->
    spells deadline (b :: text) ((now, ReadFails e) :: script) rest.

(** ** Facts *)

Definition light (w : Wire) : Prop := Forall (fun b => (length b.2 <= SOCKETS_PER_MESSAGE)%nat) w.

Lemma one_carrier w :
  light w -> (carriers w <= 1)%nat -> (length (concat w.*2) <= SOCKETS_PER_MESSAGE)%nat.
Proof.
  unfold carriers. induction 1 as [|[c fs] w Hb Hw IH]; [simpl; lia|].
  change (concat ((c, fs) :: w).*2) with (fs ++ concat w.*2). rewrite length_app. cbn [keep snd].
  destruct fs as [|f fs]; [exact IH|]. cbn [bool_decide]. intros Hc.
  assert (Hk : keep (fun b => negb (bool_decide (b.2 = []))) w = []).
  { destruct (keep _ w); [done|simpl in Hc; lia]. }
  assert (concat w.*2 = []) as ->; [|simpl in *; lia].
  clear -Hk. induction w as [|[c fs] w IH]; [done|].
  change (concat ((c, fs) :: w).*2) with (fs ++ concat w.*2). destruct fs; [by apply IH|done].
Qed.

Lemma gather_delivered w reads text files :
  delivery w reads -> light w ->
  gather reads text files = Some (Ok (text ++ w.*1, files ++ concat w.*2)).
Proof.
  intros Hd. revert text files. induction Hd as [|chunk w reads Hne _ Hc _ IH]; intros text files Hl.
  { cbn. by rewrite !app_nil_r. }
  apply Forall_app in Hl as [Hl1 Hl2]. pose proof (one_carrier _ Hl1 Hc) as Hle.
  cbn [gather rc_truncated rc_files rc_bytes]. rewrite (proj2 (Nat.ltb_ge _ _)) by done.
  rewrite take_ge by done. destruct chunk as [|b chunk]; [done|].
  change ((b :: chunk).*1) with (b.1 :: chunk.*1). cbv beta iota zeta. rewrite IH by done.
  rewrite !fmap_app, concat_app, <-!app_assoc. done.
Qed.

Lemma plain_bytes s : (plain s).*1 = s /\ concat (plain s).*2 = [] /\ light (plain s).
Proof.
  unfold plain, light. split_and!.
  - rewrite <-list_fmap_compose. apply list_fmap_id.
  - induction s; [done|]. simpl. done.
  - apply Forall_fmap, Forall_true. intros c. simpl. lia.
Qed.

Lemma message_bytes text files :
  text <> [] -> (length files <= SOCKETS_PER_MESSAGE)%nat ->
  (message text files).*1 = text /\ concat (message text files).*2 = files /\ light (message text files).
Proof.
  intros Ht Hf. destruct text as [|c text]; [done|]. destruct (plain_bytes text) as (H1 & H2 & H3).
  cbn [message]. change (((c, files) :: plain text).*1) with (c :: (plain text).*1).
  change (concat ((c, files) :: plain text).*2) with (files ++ concat (plain text).*2).
  rewrite H1, H2, app_nil_r. split_and!; [done..|]. by constructor.
Qed.

Lemma chunks_of_spec {A} fuel n (l : list A) :
  (0 < n)%nat -> (length l <= fuel)%nat ->
  concat (chunks_of fuel n l) = l /\
  Forall (fun c => c <> [] /\ (length c <= n)%nat) (chunks_of fuel n l).
Proof.
  intros Hn. revert l. induction fuel as [|fuel IH]; intros l Hl; [destruct l; [done|simpl in Hl; lia]|].
  destruct l as [|x l]; [done|].
  change (chunks_of (S fuel) n (x :: l)) with (take n (x :: l) :: chunks_of fuel n (drop n (x :: l))).
  destruct (IH (drop n (x :: l))) as [Hc Hf]; [rewrite length_drop; simpl in *; lia|].
  split; [cbn [concat]; by rewrite Hc, take_drop|]. constructor; [|done]. split.
  - by destruct n; [lia|].
  - rewrite length_take. lia.
Qed.

Lemma messages_bytes groups :
  Forall (fun c => c <> [] /\ (length c <= SOCKETS_PER_MESSAGE)%nat) groups ->
  let w := concat (send_message <$> groups) in
  w.*1 = concat ((fun s => line s ++ [line_feed]) <$> concat groups) /\
  concat w.*2 = sk_file <$> concat groups /\ light w.
Proof.
  induction 1 as [|g groups [Hne Hl] _ IH]; [by repeat split; constructor|]. cbv zeta in *.
  cbn [fmap list_fmap concat]. destruct IH as (I1 & I2 & I3).
  destruct (message_bytes (concat ((fun s => line s ++ [line_feed]) <$> g)) (sk_file <$> g)) as (M1 & M2 & M3).
  { destruct g as [|s g]; [done|]. cbn [fmap list_fmap concat]. by destruct (line s). }
  { by rewrite length_fmap. }
  fold (send_message g) in M1, M2, M3.
  rewrite !fmap_app, !concat_app, M1, M2, I1, I2. split_and!; [done..|]. by apply Forall_app.
Qed.

(** ** Lines *)

Definition socket_wf (s : Socket) : Prop :=
  is_utf8 (sk_role s) = true /\ is_one_word (sk_role s) = true /\
  socket_addr_wf (sk_addr s).1 (sk_addr s).2.

(** The characters of a socket address: printable, and no white space. *)
Lemma socket_addr_chars a scope :
  Forall (fun c => 37 <= byte_val c <= 102) (socket_addr_to_string a scope).
Proof.
  assert (Hd : forall n, Forall (fun c => 37 <= byte_val c <= 102) (decimal n)).
  { intros n. apply decimal_all. intros c Hc. lia. }
  assert (Hi : Forall (fun c => 37 <= byte_val c <= 102) (ip_to_string (sa_ip a))).
  { apply ip_to_string_all; [intros c Hc; lia|done]. }
  unfold socket_addr_to_string, scope_to_string.
  destruct (sa_ip a); [|case_if]; repeat (apply Forall_app; split); try done;
    repeat (apply Forall_cons; split; [done|]); done.
Qed.

Lemma decimal_last n : exists s d, decimal n = s ++ [d] /\ is_ascii_digit d = true.
Proof.
  pose proof (decimal_digits n) as F. pose proof (decimal_nonempty n) as Hn.
  destruct (decimal n) as [|d s _] using rev_ind; [done|].
  apply Forall_app in F as [_ F]. apply Forall_cons in F as [Hd _]. eauto.
Qed.

Lemma ends_with_last s d : d <> carriage_return -> ends_with [carriage_return] (s ++ [d]) = false.
Proof.
  intros Hd. unfold ends_with. destruct (strip_suffix _ _) eqn:E; [|done].
  apply strip_suffix_Some in E. apply app_inj_tail in E as [_ ?]. done.
Qed.

Lemma decimal_line_ok p n : line_feed ∉ p -> line_ok (p ++ decimal n).
Proof.
  intros Hp. destruct (decimal_last n) as (s & d & E & Hd). split.
  - apply not_elem_of_app. split; [done|]. intros Hin. pose proof (decimal_digits n) as F.
    rewrite Forall_forall in F. by specialize (F _ Hin).
  - rewrite E, app_assoc. apply ends_with_last. by intros ->.
Qed.

Lemma one_word_chars w : is_one_word w = true -> line_feed ∉ w /\ " "%char ∉ w.
Proof.
  unfold is_one_word. intros H. bool_facts. split; (eapply word_chars; [done|]);
    apply (bool_decide_unpack _); vm_compute; exact I.
Qed.

Lemma line_line_ok s : socket_wf s -> line_ok (line s).
Proof.
  intros (_ & Hw & _). apply one_word_chars in Hw as [Hn _]. unfold line.
  pose proof (socket_addr_chars (sk_addr s).1 (sk_addr s).2) as F. split.
  - rewrite !not_elem_of_app. split_and!; [done|set_solver|]. intros Hin.
    rewrite Forall_forall in F. by specialize (F _ Hin) as [? _].
  - pose proof (decimal_last (sa_port (sk_addr s).1)) as (t & d & E & Hd).
    assert (exists u, socket_addr_to_string (sk_addr s).1 (sk_addr s).2 = u ++ [d]) as [u ->].
    { unfold socket_addr_to_string. rewrite E. destruct (sa_ip (sk_addr s).1); rewrite ?app_assoc; eauto. }
    rewrite !app_assoc. apply ends_with_last. by intros ->.
Qed.

Lemma line_utf8 s : socket_wf s -> is_utf8 (line s ++ [line_feed]) = true.
Proof.
  intros (Hu & _ & _). unfold line. repeat (apply is_utf8_app); [done|done| |done].
  apply is_utf8_ascii. eapply Forall_impl; [apply socket_addr_chars|]. intros c Hc. simpl in Hc. lia.
Qed.

Lemma split_once_app c p s : c ∉ p -> split_once c (p ++ c :: s) = Some (p, s).
Proof.
  induction p as [|d p IH]; intros Hc; simpl; [by rewrite bool_decide_true|].
  apply not_elem_of_cons in Hc as [Hd Hp]. by rewrite bool_decide_false, IH by done.
Qed.

Lemma take_lines_sent roles sockets :
  Forall socket_wf sockets -> Forall (fun s => sk_role s ∈ roles) sockets ->
  take_lines roles (line <$> sockets) (sk_file <$> sockets) = Ok sockets.
Proof.
  intros Hwf Hr. induction sockets as [|s sockets IH]; [done|].
  apply Forall_cons in Hwf as [(Hu & Hw & Ha) Hwf]. apply Forall_cons in Hr as [Hin Hr].
  cbn [fmap list_fmap take_lines]. apply one_word_chars in Hw as [_ Hsp].
  unfold line at 1. change (lit " " ++ ?x) with (" "%char :: x).
  rewrite split_once_app, parse_socket_addr_to_string by done.
  assert (existsb (str_eqb (sk_role s)) roles = true) as ->.
  { apply existsb_exists. exists (sk_role s). split; [by apply list_elem_of_In|apply str_eqb_refl]. }
  simpl. rewrite IH by done. by destruct s as [? [] ?].
Qed.

(** What [receive] answers. *)
Definition receipt (pid : Z) : str := RECEIVED ++ lit " " ++ decimal pid ++ [line_feed].

Lemma received_what_was_sent p sockets roles pid w reads :
  is_utf8 (pr_name p) = true -> Forall socket_wf sockets -> Forall (fun s => sk_role s ∈ roles) sockets ->
  handover_send p sockets = Ok w -> delivery w reads ->
  handover_receive p roles pid reads = Some (Ok (sockets, receipt pid)).
Proof.
  intros Hp Hwf Hr Hs Hd. unfold handover_send in Hs.
  destruct (find_first _ _) as [word|] eqn:Hf; [done|]. injection Hs as <-.
  assert (Hword : is_one_word (pr_name p) = true).
  { apply negb_false_iff. apply (proj1 (find_first_None _ _) Hf). constructor. }
  destruct (chunks_of_spec (length sockets) SOCKETS_PER_MESSAGE sockets ltac:(unfold SOCKETS_PER_MESSAGE; lia)
    ltac:(lia)) as [Hc Hg].
  destruct (messages_bytes _ Hg) as (M1 & M2 & M3). rewrite Hc in M1, M2.
  destruct (plain_bytes (header p ++ [line_feed])) as (P1 & P2 & P3).
  unfold handover_receive. rewrite (gather_delivered _ _ _ _ Hd) by (by apply Forall_app). cbn [app].
  rewrite !fmap_app, concat_app. fold (chunks SOCKETS_PER_MESSAGE sockets) in M1, M2.
  rewrite M1, M2, P1, P2, <-app_assoc. cbn [app].
  assert (Hh : line_ok (header p)).
  { unfold header. rewrite app_assoc. apply decimal_line_ok. apply one_word_chars in Hword as [Hn _].
    set_solver. }
  assert (Hutf : is_utf8 (header p ++ [line_feed] ++ concat ((fun s => line s ++ [line_feed]) <$> sockets)) = true).
  { repeat apply is_utf8_app; [done|done| |done|].
    - apply is_utf8_ascii. eapply Forall_impl; [apply decimal_digits|]. intros c Hc'.
      unfold is_ascii_digit in Hc'. bool_facts. lia.
    - apply is_utf8_concat, Forall_fmap. eapply Forall_impl; [exact Hwf|]. apply line_utf8. }
  change (line_feed :: ?x) with ([line_feed] ++ x). rewrite Hutf. cbn [negb].
  rewrite lines_cons by done. rewrite str_eqb_refl. cbn [negb].
  assert (Hl : lines (concat ((fun s => line s ++ [line_feed]) <$> sockets)) = line <$> sockets).
  { rewrite (list_fmap_compose line (fun l => l ++ [line_feed])). apply lines_written, Forall_fmap.
    eapply Forall_impl; [exact Hwf|]. apply line_line_ok. }
  rewrite Hl, take_lines_sent by done. done.
Qed.

(** ** The answers are understood *)

Lemma read_line_spelled deadline l script rest acc :
  spells deadline (l ++ [line_feed]) script rest -> line_feed ∉ l -> is_utf8 (acc ++ l) = true ->
  read_line deadline script acc = Some (Ok (acc ++ l, rest)).
Proof.
  intros Hs. remember (l ++ [line_feed]) as text eqn:E. revert l acc E.
  induction Hs as [rest|b text now script rest Ht Hs IH|b text now e script rest Ht He _ IH];
    intros l acc E Hn Hu; [by destruct l| |];
    assert (Hd : saturating_duration_since deadline now =? 0 = false)
      by (unfold saturating_duration_since; apply Z.eqb_neq; lia);
    cbn [read_line]; rewrite Hd.
  - destruct l as [|c l]; simplify_eq/=.
    + rewrite app_nil_r in *. rewrite Hu. by inversion Hs.
    + apply not_elem_of_cons in Hn as [Hne Hn]. rewrite bool_decide_false by done.
      rewrite (IH l) by (done || by rewrite <-app_assoc). by rewrite <-app_assoc.
  - rewrite He. by apply IH.
Qed.

Lemma receipt_understood deadline pid script rest :
  0 <= pid <= u32_max -> spells deadline (receipt pid) script rest ->
  await_receipt deadline script = Some (Ok (pid, rest)).
Proof.
  intros Hpid Hs. unfold await_receipt.
  assert (Hd : Forall (fun c => byte_val c < 128 /\ c <> line_feed) (decimal pid)).
  { eapply Forall_impl; [apply decimal_digits|]. intros c Hc. split.
    - unfold is_ascii_digit in Hc. bool_facts. lia.
    - by intros ->. }
  rewrite (read_line_spelled _ (RECEIVED ++ lit " " ++ decimal pid) script rest []).
  - cbn [app]. rewrite (proj2 (strip_prefix_Some RECEIVED _ (lit " " ++ decimal pid)) eq_refl).
    cbn [mbind option_bind]. change (trim (lit " " ++ decimal pid)) with (trim (decimal pid)).
    rewrite trim_decimal, parse_decimal; [done|done|unfold u32_max in *; lia].
  - unfold receipt in Hs. by rewrite <-!app_assoc.
  - rewrite !not_elem_of_app. split_and!; [set_solver..|]. intros Hin. rewrite Forall_forall in Hd.
    by apply (Hd _ Hin).
  - apply is_utf8_ascii. rewrite !Forall_app. split_and!;
      [by repeat (apply Forall_cons; split; [done|])..|]. eapply Forall_impl; [exact Hd|]. by intros c [? _].
Qed.

Lemma confirmation_understood deadline script rest :
  spells deadline confirmation script rest -> await_confirmation deadline script = Some (Ok ()).
Proof.
  intros Hs. unfold await_confirmation. rewrite (read_line_spelled _ READY script rest []); [done|done| |done].
  set_solver.
Qed.

(** An answer is waited for no longer than its deadline. *)
Lemma read_line_deadline deadline script acc now met :
  (now, met) ∈ script -> deadline <= now -> read_line deadline script acc <> None.
Proof.
  intros Hin Hle. revert acc. induction script as [|[t m] script IH]; intros acc; [set_solver|].
  cbn [read_line]. case_if; [done|]. apply elem_of_cons in Hin as [E|Hin].
  - injection E as <- <-. unfold saturating_duration_since in *. lia.
  - destruct m; [case_bool_decide; [done|by apply IH]|done|case_if; [by apply IH|done]].
Qed.

(** ** The node's sockets *)

Lemma sort_out_handed s : sort_out (handed s) = s.
Proof.
  assert (H : forall l acc o, foldl (fun s k =>
    if str_eqb (sk_role k) OPS then mkSockets (ss_listeners s) (Some (sk_addr k, sk_file k))
    else mkSockets (ss_listeners s ++ [(sk_addr k, sk_file k)]) (ss_ops s)) (mkSockets acc o)
    ((fun x : SocketAddr * Z * Z => mkSocket LISTENER x.1 x.2) <$> l) = mkSockets (acc ++ l) o).
  { induction l as [|[[a z] f] l IH]; intros acc o; [by rewrite app_nil_r|].
    etrans; [apply (IH (acc ++ [((a, z), f)]) o)|]. by rewrite <-app_assoc. }
  unfold sort_out, handed. rewrite foldl_app, H. destruct s as [l [[[a z] f]|]]; done.
Qed.

Definition sockets_wf (s : Sockets) : Prop :=
  Forall (fun x => socket_addr_wf x.1.1 x.1.2) (ss_listeners s) /\
  match ss_ops s with Some x => socket_addr_wf x.1.1 x.1.2 | None => True end.

Lemma handed_wf s :
  sockets_wf s -> Forall socket_wf (handed s) /\ Forall (fun k => sk_role k ∈ [LISTENER; OPS]) (handed s).
Proof.
  intros [Hl Ho]. unfold handed. split; apply Forall_app; split.
  - apply Forall_fmap. eapply Forall_impl; [exact Hl|]. intros x Hx. by split_and!.
  - destruct (ss_ops s); [|done]. constructor; [by split_and!|constructor].
  - apply Forall_fmap, Forall_true. intros x. simpl. set_solver.
  - destruct (ss_ops s); [|done]. constructor; [simpl; set_solver|constructor].
Qed.

Lemma node_send_ok s : exists w, node_send s = Ok w.
Proof.
  unfold node_send, handover_send.
  rewrite (proj2 (find_first_None _ _)); [eauto|]. intros word [->|Hin]%elem_of_cons; [done|].
  apply list_elem_of_fmap in Hin as (k & -> & Hk). unfold handed in Hk.
  apply elem_of_app in Hk as [Hk|Hk].
  - by apply list_elem_of_fmap in Hk as (x & -> & _).
  - destruct (ss_ops s); [|set_solver]. by apply list_elem_of_singleton in Hk as ->.
Qed.

Lemma node_received s w reads pid :
  sockets_wf s -> node_send s = Ok w -> delivery w reads -> 0 <= pid <= u32_max ->
  node_receive pid reads = Some (Ok (s, receipt pid)).
Proof.
  intros Hwf Hw Hd Hpid. destruct (handed_wf s Hwf) as [H1 H2]. unfold node_receive.
  rewrite (received_what_was_sent PROTOCOL (handed s) [LISTENER; OPS] pid w reads) by done.
  by rewrite sort_out_handed.
Qed.

(** C17: A node's sockets reach its successor: whatever they are, they can be
    sent, and however the kernel splits what was sent, the successor gets
    every one of them, with its role and in order, and answers with its
    process id. The node reads that id from the answer, and the confirmation
    after it, whatever reads are interrupted or time out before the
    deadline. *)
Theorem handover_exchange s :
  sockets_wf s ->
  exists w, node_send s = Ok w /\
    forall reads pid, delivery w reads -> 0 <= pid <= u32_max ->
      node_receive pid reads = Some (Ok (s, receipt pid)) /\
      forall deadline script rest after,
        spells deadline (receipt pid) script rest -> spells deadline confirmation rest after ->
        await_receipt deadline script = Some (Ok (pid, rest)) /\
        await_confirmation deadline rest = Some (Ok ()).
Proof.
  intros Hwf. destruct (node_send_ok s) as [w Hw]. exists w. split; [done|].
  intros reads pid Hd Hpid. split; [by apply (node_received s w)|].
  intros deadline script rest after Hs Hc. split; [by apply receipt_understood|].
  by eapply confirmation_understood.
Qed.

(** A successor of another release refuses the exchange, and says nothing. *)
Lemma other_protocol_refused p p' sockets roles pid w reads :
  is_utf8 (pr_name p) = true -> Forall socket_wf sockets -> header p' <> header p ->
  handover_send p sockets = Ok w -> delivery w reads ->
  exists why, handover_receive p' roles pid reads = Some (Err (Malformed why)).
Proof.
  intros Hp Hwf Hne Hs Hd.
  assert (Hr : Forall (fun s => sk_role s ∈ (sk_role <$> sockets)) sockets).
  { apply Forall_forall. intros s Hin. by apply list_elem_of_fmap_2. }
  pose proof (received_what_was_sent p sockets _ pid w reads Hp Hwf Hr Hs Hd) as H.
  unfold handover_receive in *. destruct (gather reads [] []) as [[[text files]|]|]; simplify_eq.
  destruct (negb (is_utf8 text)); [simplify_eq|]. destruct (lines text) as [|first rest]; [simplify_eq|].
  destruct (str_eqb first (header p)) eqn:E; [|simplify_eq]. apply str_eqb_eq in E as ->.
  rewrite str_eqb_neq by done. eauto.
Qed.

(** ** An exchange *)

Definition example_handed : Sockets :=
  mkSockets [(mkSocketAddr (V4 [0; 0; 0; 0]) 443, 0, 7); (mkSocketAddr (V6 [0; 0; 0; 0; 0; 0; 0; 0]) 443, 0, 8)]
    (Some (mkSocketAddr (V4 [127; 0; 0; 1]) 9101, 0, 9)).

Definition example_wire : Wire :=
  match node_send example_handed with Ok w => w | Err _ => [] end.

(** Whole, in two reads: the header, and the lines with the sockets. *)
Definition example_reads : list Received :=
  [mkReceived (lit "gfe-handover 1" ++ [line_feed]) [] false;
   mkReceived (lit "listener 0.0.0.0:443" ++ [line_feed] ++ lit "listener [::]:443" ++ [line_feed] ++
               lit "ops 127.0.0.1:9101" ++ [line_feed]) [7; 8; 9] false;
   mkReceived [] [] false].

Lemma example_delivery : delivery example_wire example_reads.
Proof.
  rewrite <-(take_drop 15 example_wire).
  apply (delivered_some (take 15 example_wire)); [done|by vm_compute; lia|by vm_compute; lia|].
  rewrite <-(app_nil_r (drop 15 example_wire)).
  apply (delivered_some (drop 15 example_wire)); [done|by vm_compute; lia|by vm_compute; lia|].
  constructor.
Qed.

Lemma handover_exchange_witness :
  node_receive 4242 example_reads = Some (Ok (example_handed, receipt 4242)).
Proof.
  destruct (handover_exchange example_handed) as (w & Hw & H).
  { split; [|split_and!; by repeat constructor].
    repeat (apply Forall_cons; split; [split_and!; by repeat constructor|]); constructor. }
  assert (w = example_wire) as -> by (vm_compute in Hw; vm_compute; congruence).
  apply (H example_reads 4242 example_delivery); done.
Defined.
