(* ===== verification/Upgrade.v ===== *)
(** * Replacing a node in place: [gfe/node/src/upgrade.rs], [main.rs],
    [systemd.rs] and [signals.rs]

    A node's run ([main.rs], once it serves), the thread that waits for a
    successor ([start_successor]) and the successor itself, as one state
    machine: [upgrade_event] is one of them doing its next thing, in any
    order the code allows. The sockets and the answers are [Handover]'s; the
    channel carries the successor's answers as the two lines they are. *)

From S2P Require Import Prelude Str Text Causes Handover.
From Stdlib Require Import Ascii.

Definition UPGRADE_FLAG : str := lit "--upgrade".
Definition DETACHED_FLAG : str := lit "--detached".
Definition SUCCESSOR_START_TIMEOUT : Z := from_secs 60.

(** ** The command line *)

Record Args := mkArgs {
  ar_config : option str;
  ar_check_config : bool;
  ar_dynamic_config : option str;
  ar_upgrade : bool;
  ar_detached : bool;
}.

(** The arguments a successor is launched with ([start_successor]), and
    detached with ([detach]); the program is kept. *)
Definition launch_args (args : list str) : list str :=
  keep (fun arg => negb (str_eqb arg UPGRADE_FLAG) && negb (str_eqb arg DETACHED_FLAG)) args ++
  [UPGRADE_FLAG].

Definition detach_args (args : list str) : list str := args ++ [DETACHED_FLAG].

(** What [main] does, with the node config's dynamic file when there is a
    node config, which is loaded first. *)
Inductive MainDoes :=
| Detaches
| FailsToLoad
| ChecksDynamic (path : str)
| LacksArguments
| RunsNode (take_over : bool).

Definition main_does (args : Args) (load_node : str -> option str) : MainDoes :=
  if ar_upgrade args && negb (ar_detached args) then Detaches
  else
    match (match ar_config args with
           | None => Ok None
           | Some path => match load_node path with Some file => Ok (Some file) | None => Err () end
           end) with
    | Err _ => FailsToLoad
    | Ok node =>
        if ar_check_config args then
          match ar_dynamic_config args, node with
          | Some path, _ => ChecksDynamic path
          | None, Some file => ChecksDynamic file
          | None, None => LacksArguments
          end
        else match node with
             | Some _ => RunsNode (ar_upgrade args)
             | None => LacksArguments
             end
    end.

(** ** Signals: [signals.rs] *)

Inductive Signal := SIGTERM | SIGINT | SIGUSR2 | SIGHUP | SIGUSR1.
Inductive SignalRequest := StopRequest | UpgradeRequest.

(** The next request among the signals as they arrive. *)
Fixpoint signals_next (arriving : list Signal) : option (SignalRequest * list Signal) :=
  match arriving with
  | [] => None
  | (SIGTERM | SIGINT) :: arriving => Some (StopRequest, arriving)
  | SIGUSR2 :: arriving => Some (UpgradeRequest, arriving)
  | (SIGHUP | SIGUSR1) :: arriving => signals_next arriving
  end.

(** ** Telling systemd: [systemd.rs] *)

Inductive Notification :=
| NotifyReady
| NotifyUpgrading
| NotifyUpgraded (successor : Z)
| NotifyUpgradeFailed (reason : str).

Definition replace_newlines (s : str) : str :=
  (fun c => if bool_decide (c = line_feed) then " "%char else c) <$> s.

Definition upgrade_failed_state (reason : str) : str :=
  lit "READY=1" ++ [line_feed] ++ lit "STATUS=Upgrade failed, still serving: " ++ replace_newlines reason.

Definition state_of (n : Notification) : str :=
  match n with
  | NotifyReady => lit "READY=1" ++ [line_feed] ++ lit "STATUS=Serving"
  | NotifyUpgrading => lit "RELOADING=1"
  | NotifyUpgraded successor =>
      lit "MAINPID=" ++ decimal successor ++ [line_feed] ++ lit "READY=1" ++ [line_feed] ++
      lit "STATUS=Serving (upgraded in place)"
  | NotifyUpgradeFailed reason => upgrade_failed_state reason
  end.

(** ** Why a successor did not take over *)

Definition timed_out (e : IoErrorKind) : bool :=
  match e with IoTimedOut | IoWouldBlock => true | _ => false end.

(** [text] is the error's own. *)
Definition not_taken_over (e : IoErrorKind) (text : str) : str :=
  if timed_out e then lit "the successor did not accept connections within 60 s"
  else match e with
       | IoUnexpectedEof | IoConnectionReset | IoBrokenPipe =>
           lit "the successor went away before it took over; its own log says why"
       | _ => lit "the successor did not take over: " ++ text
       end.

(** The process [kill] signals, if there is one to. *)
Definition kill_target (pid : Z) : option Z :=
  if (0 <? pid) && (pid <? 2 ^ 31) then Some pid else None.

(** ** The upgrade *)

Inductive Main := MServing | MUpgrading | MDraining.

(** Where the waiting thread is. *)
Inductive Thread :=
| TNone
| TLaunches
| TSends (deadline : Z)
| TAwaitsReceipt (deadline : Z)
| TAwaitsReady (successor deadline : Z)
| TDone (r : result Z str).

Inductive Successor := SNone | SStarted | SReceived | SAccepting | SReleased | SGone.

#[export] Instance Successor_eq_dec : EqDecision Successor.
Proof. solve_decision. Defined.

Inductive AnswerLine := ReceiptLine (pid : Z) | ReadyLine.

Record Upgrading := mkUpgrading {
  up_main : Main;
  up_thread : Thread;
  up_successor : Successor;
  up_pid : Z;
  up_channel : list AnswerLine;
  up_abandoned : bool;
  up_stop_asked : bool;
  up_ops_stopped : bool;
  up_kernel_stopped : bool;
  up_failures : Z;
  up_told : list Notification;
}.

(** A node that serves, once it has said so. *)
Definition node_ready : Upgrading :=
  mkUpgrading MServing TNone SNone 0 [] false false false false 0 [NotifyReady].

Definition put_thread (t : Thread) (u : Upgrading) : Upgrading :=
  mkUpgrading (up_main u) t (up_successor u) (up_pid u) (up_channel u) (up_abandoned u)
    (up_stop_asked u) (up_ops_stopped u) (up_kernel_stopped u) (up_failures u) (up_told u).

Definition put_successor (s : Successor) (channel : list AnswerLine) (u : Upgrading) : Upgrading :=
  mkUpgrading (up_main u) (up_thread u) s (up_pid u) channel (up_abandoned u) (up_stop_asked u)
    (up_ops_stopped u) (up_kernel_stopped u) (up_failures u) (up_told u).

Definition put_channel (channel : list AnswerLine) (u : Upgrading) : Upgrading :=
  put_successor (up_successor u) channel u.

(** [kill(successor)]. *)
Definition kill (pid : Z) (u : Upgrading) : Upgrading :=
  match kill_target pid with
  | Some pid => if pid =? up_pid u then put_successor SGone (up_channel u) u else u
  | None => u
  end.

(** Whether the thread's end of the exchange is open. *)
Definition thread_open (t : Thread) : bool :=
  match t with TSends _ | TAwaitsReceipt _ | TAwaitsReady _ _ => true | _ => false end.

(** Whether the successor's writes still reach the node. *)
Definition channel_open (u : Upgrading) : bool := thread_open (up_thread u) && negb (up_abandoned u).

(** The wait fails with [e]; a successor known by its receipt is killed when
    the wait timed out or was abandoned. *)
Definition wait_fails (e : IoErrorKind) (u : Upgrading) : Upgrading :=
  let u := match up_thread u with
           | TAwaitsReady successor _ => if timed_out e || up_abandoned u then kill successor u else u
           | _ => u
           end in
  put_thread (TDone (Err (not_taken_over e []))) u.

Inductive UpgradeEvent :=
| SignalArrives (r : SignalRequest)
| ThreadLaunches (r : result Z str)
| ThreadSends (r : result unit (IoErrorKind * str))
| ThreadReads
| ThreadTimesOut
| ThreadMeetsEof
| MainResumes
| SuccessorReceives
| SuccessorAccepts
| SuccessorReleases
| SuccessorFails.

(** A request to upgrade while serving, while upgrading (ignored) and while
    draining (nobody listens); a request to stop. *)
Definition on_signal (r : SignalRequest) (u : Upgrading) : option Upgrading :=
  match r, up_main u with
  | _, MDraining => None
  | UpgradeRequest, MServing =>
      Some (mkUpgrading MUpgrading TLaunches SNone 0 [] false (up_stop_asked u) (up_ops_stopped u)
              (up_kernel_stopped u) (up_failures u) (up_told u ++ [NotifyUpgrading]))
  | UpgradeRequest, MUpgrading => Some u
  | StopRequest, MServing =>
      Some (mkUpgrading MDraining (up_thread u) (up_successor u) (up_pid u) (up_channel u)
              (up_abandoned u) true (up_ops_stopped u) (up_kernel_stopped u) (up_failures u) (up_told u))
  | StopRequest, MUpgrading =>
      (* the future is dropped, and [Abandon] with it *)
      Some (mkUpgrading MDraining (up_thread u) (up_successor u) (up_pid u) (up_channel u)
              true true (up_ops_stopped u) (up_kernel_stopped u) (up_failures u) (up_told u))
  end.

(** The run goes on with what the thread came back with. *)
Definition main_resumes (u : Upgrading) : option Upgrading :=
  match up_main u, up_thread u with
  | MUpgrading, TDone (Ok successor) =>
      Some (mkUpgrading MDraining TNone (up_successor u) (up_pid u) (up_channel u) true
              (up_stop_asked u) true true (up_failures u) (up_told u ++ [NotifyUpgraded successor]))
  | MUpgrading, TDone (Err e) =>
      Some (mkUpgrading MServing TNone (up_successor u) (up_pid u) (up_channel u) true
              (up_stop_asked u) (up_ops_stopped u) (up_kernel_stopped u) (up_failures u + 1)
              (up_told u ++ [NotifyUpgradeFailed e]))
  | _, _ => None
  end.

(** One step, at [now]. A process id is a positive [i32]. *)
Definition upgrade_event (now : Z) (ev : UpgradeEvent) (u : Upgrading) : option Upgrading :=
  match ev with
  | SignalArrives r => on_signal r u
  | MainResumes => main_resumes u
  | ThreadLaunches r =>
      match up_thread u, r with
      | TLaunches, Ok pid =>
          if (0 <? pid) && (pid <? 2 ^ 31) then
            Some (mkUpgrading (up_main u) (TSends (now + SUCCESSOR_START_TIMEOUT)) SStarted pid []
                    (up_abandoned u) (up_stop_asked u) (up_ops_stopped u) (up_kernel_stopped u)
                    (up_failures u) (up_told u))
          else None
      | TLaunches, Err e => Some (put_thread (TDone (Err e)) u)
      | _, _ => None
      end
  | ThreadSends r =>
      match up_thread u, r with
      | TSends deadline, Ok _ => Some (put_thread (TAwaitsReceipt deadline) u)
      | TSends _, Err (e, text) => Some (put_thread (TDone (Err (not_taken_over e text))) u)
      | _, _ => None
      end
  | ThreadReads =>
      match up_thread u, up_channel u with
      | TAwaitsReceipt deadline, ReceiptLine pid :: channel =>
          if now <? deadline then Some (put_thread (TAwaitsReady pid deadline) (put_channel channel u))
          else None
      | TAwaitsReady successor deadline, ReadyLine :: channel =>
          if now <? deadline then Some (put_thread (TDone (Ok successor)) (put_channel channel u))
          else None
      | _, _ => None
      end
  | ThreadTimesOut =>
      match up_thread u with
      | TAwaitsReceipt deadline | TAwaitsReady _ deadline =>
          if deadline <=? now then Some (wait_fails IoTimedOut u) else None
      | _ => None
      end
  | ThreadMeetsEof =>
      match up_thread u, up_channel u with
      | (TAwaitsReceipt _ | TAwaitsReady _ _), [] =>
          if bool_decide (up_successor u = SGone) || up_abandoned u then Some (wait_fails IoUnexpectedEof u) else None
      | _, _ => None
      end
  | SuccessorReceives =>
      match up_successor u, up_thread u with
      | SStarted, (TAwaitsReceipt _ | TDone _ | TNone) =>
          if channel_open u then Some (put_successor SReceived (up_channel u ++ [ReceiptLine (up_pid u)]) u)
          else Some (put_successor SGone (up_channel u) u)
      | _, _ => None
      end
  | SuccessorAccepts =>
      match up_successor u with SReceived => Some (put_successor SAccepting (up_channel u) u) | _ => None end
  | SuccessorReleases =>
      match up_successor u with
      | SAccepting =>
          if channel_open u then Some (put_successor SReleased (up_channel u ++ [ReadyLine]) u)
          else Some (put_successor SGone (up_channel u) u)
      | _ => None
      end
  | SuccessorFails =>
      match up_successor u with
      | SStarted | SReceived | SAccepting => Some (put_successor SGone (up_channel u) u)
      | _ => None
      end
  end.

(** ** An upgrade leaves nobody unserved *)

Inductive upgrade_reach : Z -> Upgrading -> Prop :=
| upgrade_start now : upgrade_reach now node_ready
| upgrade_step now now' ev u u' :
    upgrade_reach now u -> now <= now' -> upgrade_event now' ev u = Some u' -> upgrade_reach now' u'.

Definition node_accepts (u : Upgrading) : bool := match up_main u with MDraining => false | _ => true end.
Definition successor_accepts (u : Upgrading) : bool :=
  match up_successor u with SAccepting | SReleased => true | _ => false end.

(** Who has said what to systemd: whether the last word is that an upgrade is
    under way. *)
Definition announced_upgrading (u : Upgrading) : bool :=
  match last (up_told u) with Some NotifyUpgrading => true | _ => false end.

Record upgrade_inv (u : Upgrading) : Prop := {
  ui_ready_line : ReadyLine ∈ up_channel u -> thread_open (up_thread u) = true ->
    up_successor u = SReleased;
  ui_lines : forall pid, ReceiptLine pid ∈ up_channel u -> pid = up_pid u;
  ui_awaits : forall pid deadline, up_thread u = TAwaitsReady pid deadline ->
    pid = up_pid u /\ up_successor u <> SStarted;
  ui_done : forall pid, up_thread u = TDone (Ok pid) -> pid = up_pid u /\ up_successor u = SReleased;
  ui_serving : up_main u = MServing -> up_thread u = TNone;
  ui_handed : up_main u = MDraining -> up_stop_asked u = false ->
    up_successor u = SReleased /\ up_thread u = TNone /\ last (up_told u) = Some (NotifyUpgraded (up_pid u));
  ui_stopped : (up_ops_stopped u = true \/ up_kernel_stopped u = true) ->
    up_main u = MDraining /\ up_stop_asked u = false;
  ui_told : announced_upgrading u = true -> up_main u = MUpgrading \/ up_stop_asked u = true;
  ui_asked : up_stop_asked u = true -> up_main u = MDraining;
  ui_fresh : up_successor u = SStarted -> up_channel u = [];
}.

Lemma kill_cases pid u :
  kill pid u = u \/ (kill pid u = put_successor SGone (up_channel u) u).
Proof. unfold kill. repeat case_match; auto. Qed.

Ltac crush_inv :=
  constructor; simpl in *; intros;
  repeat match goal with H : _ ∈ _ ++ _ |- _ => apply elem_of_app in H as [H|H] end;
  repeat match goal with H : _ ∈ [_] |- _ => apply list_elem_of_singleton in H end;
  naive_solver.

Lemma on_signal_inv r u u' : upgrade_inv u -> on_signal r u = Some u' -> upgrade_inv u'.
Proof.
  intros Hi H. pose proof Hi as []. unfold on_signal in H. destruct r, (up_main u) eqn:Em; simplify_eq.
  - crush_inv.
  - crush_inv.
  - constructor; simpl; try done; unfold announced_upgrading; simpl.
    + set_solver.
    + naive_solver.
    + by left.
    + naive_solver.
  - done.
Qed.

Lemma main_resumes_inv u u' : upgrade_inv u -> main_resumes u = Some u' -> upgrade_inv u'.
Proof.
  intros [] H. unfold main_resumes in H.
  destruct (up_main u) eqn:Em, (up_thread u) as [| | | | |[pid|e]] eqn:Et; simplify_eq;
    assert (Hna : up_stop_asked u = false)
      by (destruct (up_stop_asked u); [by specialize (ui_asked0 eq_refl)|done]).
  - destruct (ui_done0 _ eq_refl) as [-> Hs].
    constructor; simpl; unfold announced_upgrading; simpl; rewrite ?last_snoc; done || auto.
  - constructor; simpl; unfold announced_upgrading; simpl; rewrite ?last_snoc; try done.
    + intros Hst. by destruct (ui_stopped0 Hst).
    + congruence.
Qed.

(** The thread moves on. *)
Lemma thread_inv t u :
  upgrade_inv u -> up_main u <> MServing -> (thread_open t = true -> thread_open (up_thread u) = true) ->
  (up_main u = MDraining -> up_stop_asked u = true) ->
  (forall pid deadline, t = TAwaitsReady pid deadline -> pid = up_pid u /\ up_successor u <> SStarted) ->
  (forall pid, t = TDone (Ok pid) -> pid = up_pid u /\ up_successor u = SReleased) ->
  upgrade_inv (put_thread t u).
Proof.
  intros [] Hm Ho Hst Ha Hd. constructor; simpl; try done; auto.
  intros H1 H2. by rewrite Hst in H2.
Qed.

(** The successor moves on, and may write. *)
Lemma successor_inv s channel u :
  upgrade_inv u -> (up_main u = MDraining -> up_stop_asked u = false -> s = SReleased) ->
  (ReadyLine ∈ channel -> thread_open (up_thread u) = true -> s = SReleased) ->
  (forall pid, ReceiptLine pid ∈ channel -> pid = up_pid u) ->
  s <> SStarted -> (forall pid, up_thread u = TDone (Ok pid) -> s = SReleased) ->
  upgrade_inv (put_successor s channel u).
Proof.
  intros [] Hs Hc Hl Hn Hd. constructor; simpl; try done; auto.
  - intros pid dl Ht. by destruct (ui_awaits0 _ _ Ht).
  - intros pid Ht. split; [by destruct (ui_done0 _ Ht)|by eapply Hd].
  - intros H1 H2. destruct (ui_handed0 H1 H2) as (? & ? & ?). auto.
Qed.

Lemma successor_moves s c u :
  upgrade_inv u -> up_successor u <> SReleased -> s <> SStarted ->
  (forall pid, ReceiptLine pid ∈ c -> pid = up_pid u) ->
  (ReadyLine ∈ c -> thread_open (up_thread u) = true -> s = SReleased) ->
  upgrade_inv (put_successor s c u).
Proof.
  intros Hi Hn Hs Hl Hr. pose proof Hi as []. apply successor_inv; try done.
  - intros H1 H2. by destruct (ui_handed0 H1 H2) as (? & _).
  - intros pid Hp. by destruct (ui_done0 _ Hp) as [_ ?].
Qed.

(** While the thread runs, the node has not handed over. *)
Lemma thread_runs u :
  upgrade_inv u -> up_thread u <> TNone ->
  up_main u <> MServing /\ (up_main u = MDraining -> up_stop_asked u = true).
Proof.
  intros [] Ht. split; [by intros Hm%ui_serving0|]. intros Hm.
  destruct (up_stop_asked u) eqn:E; [done|]. by destruct (ui_handed0 Hm eq_refl) as (_ & ? & _).
Qed.

Lemma wait_fails_inv e u :
  upgrade_inv u -> thread_open (up_thread u) = true -> upgrade_inv (wait_fails e u).
Proof.
  intros Hi Ho. assert (Hn : up_thread u <> TNone) by (by intros E; rewrite E in Ho).
  destruct (thread_runs u Hi Hn) as [Hm Hd]. unfold wait_fails.
  assert (Hdone : forall v, upgrade_inv v -> up_main v = up_main u -> up_stop_asked v = up_stop_asked u ->
    upgrade_inv (put_thread (TDone (Err (not_taken_over e []))) v)).
  { intros v Hv E1 E2. apply thread_inv; rewrite ?E1, ?E2; done. }
  destruct (up_thread u) as [| | | |pid dl|] eqn:Et; try (by apply Hdone).
  case_match; [|by apply Hdone]. destruct (kill_cases pid u) as [->| ->]; [by apply Hdone|].
  assert (Hnot : forall r, up_thread u = TDone r -> False) by (intros r Hr; by rewrite Et in Hr).
  destruct Hi. constructor; simpl; try done.
  intros H1 H2. by specialize (Hd H1); rewrite Hd in H2.
Qed.

Lemma upgrade_event_inv now ev u u' : upgrade_inv u -> upgrade_event now ev u = Some u' -> upgrade_inv u'.
Proof.
  intros Hi Hev. pose proof (thread_runs u Hi) as Hrun. pose proof Hi as [].
  destruct ev; simpl in Hev.
  - by eapply on_signal_inv.
  - destruct (up_thread u) eqn:Et, r as [pid|e]; simplify_eq.
    + case_match; simplify_eq. destruct (Hrun ltac:(done)) as [Hm Hd].
      constructor; simpl; try done; auto; set_solver.
    + destruct (Hrun ltac:(done)). by apply thread_inv.
  - destruct (up_thread u) eqn:Et, r as [[]|[e text]]; simplify_eq;
      destruct (Hrun ltac:(done)); apply thread_inv; try done; by rewrite Et.
  - destruct (up_thread u) as [| | |dl|succ dl|r] eqn:Et; simplify_eq;
      destruct (up_channel u) as [|[pid|] channel] eqn:Ec; simplify_eq; case_match; simplify_eq;
      destruct (Hrun ltac:(done)) as [Hm Hd].
    + assert (Hs : up_successor u <> SStarted) by (by intros Hs%ui_fresh0).
      assert (pid = up_pid u) as -> by (apply ui_lines0; constructor).
      apply thread_inv; simpl; rewrite ?Et; try done; [|naive_solver].
      apply successor_inv; rewrite ?Et; try done; set_solver.
    + destruct (ui_awaits0 _ _ eq_refl) as [-> Hs].
      assert (Hrel : up_successor u = SReleased) by (apply ui_ready_line0; [constructor|done]).
      apply thread_inv; simpl; rewrite ?Et; try done; [|naive_solver].
      apply successor_inv; rewrite ?Et; try done; set_solver.
  - destruct (up_thread u) eqn:Et; simplify_eq; case_match; simplify_eq; apply wait_fails_inv; try done;
      by rewrite Et.
  - destruct (up_thread u) eqn:Et; simplify_eq; destruct (up_channel u); simplify_eq;
      case_match; simplify_eq; apply wait_fails_inv; try done; by rewrite Et.
  - by eapply main_resumes_inv.
  - assert (Hmove : up_successor u = SStarted -> (if channel_open u then
        Some (put_successor SReceived (up_channel u ++ [ReceiptLine (up_pid u)]) u)
        else Some (put_successor SGone (up_channel u) u)) = Some u' -> upgrade_inv u').
    { intros Hs He. rewrite (ui_fresh0 Hs) in He. case_match; simplify_eq;
        (apply successor_moves; [done|congruence|done|set_solver..]). }
    destruct (up_successor u) eqn:Es, (up_thread u) eqn:Et; simplify_eq; by apply Hmove.
  - destruct (up_successor u) eqn:Es; simplify_eq. apply successor_moves; try congruence; auto.
    intros H1 H2. specialize (ui_ready_line0 H1 H2). congruence.
  - destruct (up_successor u) eqn:Es; simplify_eq. case_match; simplify_eq; apply successor_moves; try congruence.
    + set_solver.
    + auto.
    + intros H1 H2. specialize (ui_ready_line0 H1 H2). congruence.
  - destruct (up_successor u) eqn:Es; simplify_eq; (apply successor_moves; try congruence; auto);
      intros H1 H2; specialize (ui_ready_line0 H1 H2); congruence.
Qed.

Lemma upgrade_reach_inv now u : upgrade_reach now u -> upgrade_inv u.
Proof.
  induction 1 as [now|now now' ev u u' _ IH _ Hev]; [|by eapply upgrade_event_inv].
  constructor; simpl; try done; set_solver.
Qed.

(** C6: Replacing a node leaves nobody unserved. As long as nobody asks it to
    stop, at every moment the node or a successor that has said so accepts
    connections: a failed upgrade, at whatever point, leaves the node
    serving, and it drains only when the successor accepts. Only then does
    it give its ops endpoints and its view of the kernel up, and only of
    that process does it tell systemd that it is the service. *)
Theorem upgrade_keeps_serving now u :
  upgrade_reach now u ->
  (up_stop_asked u = false ->
   node_accepts u = true \/
   (up_successor u = SReleased /\ last (up_told u) = Some (NotifyUpgraded (up_pid u)))) /\
  (up_ops_stopped u = true \/ up_kernel_stopped u = true -> up_successor u = SReleased) /\
  (announced_upgrading u = true -> up_main u = MUpgrading \/ up_stop_asked u = true).
Proof.
  intros Hr. destruct (upgrade_reach_inv now u Hr). split_and!; [| |done].
  - intros Hs. unfold node_accepts. destruct (up_main u) eqn:Em; [by left..|]. right.
    by destruct (ui_handed0 eq_refl Hs) as (? & _ & ?).
  - intros Hst. destruct (ui_stopped0 Hst) as [H1 H2]. by destruct (ui_handed0 H1 H2).
Qed.

(** ** Command lines do not grow

    However often a node is replaced, its successors are started with its
    own arguments, and the two flags once each. *)

Lemma launch_args_clean args :
  keep (fun arg => negb (str_eqb arg UPGRADE_FLAG) && negb (str_eqb arg DETACHED_FLAG))
    (detach_args (launch_args args)) =
  keep (fun arg => negb (str_eqb arg UPGRADE_FLAG) && negb (str_eqb arg DETACHED_FLAG)) args.
Proof.
  unfold detach_args, launch_args. rewrite !keep_app. simpl. rewrite !app_nil_r.
  apply keep_all. by intros x [_ Hx]%elem_of_keep.
Qed.

Lemma successor_args args : launch_args (detach_args (launch_args args)) = launch_args args.
Proof. unfold launch_args at 1. by rewrite launch_args_clean. Qed.

(** ** Upgrades that happen *)

Fixpoint upgrade_history (now : Z) (evs : list (Z * UpgradeEvent)) (u : Upgrading) : option (Z * Upgrading) :=
  match evs with
  | [] => Some (now, u)
  | (now', ev) :: evs =>
      if now <=? now' then
        match upgrade_event now' ev u with Some u => upgrade_history now' evs u | None => None end
      else None
  end.

Lemma upgrade_history_reach now evs u now' u' :
  upgrade_reach now u -> upgrade_history now evs u = Some (now', u') -> upgrade_reach now' u'.
Proof.
  revert now u. induction evs as [|[t ev] evs IH]; intros now u Hr; simpl; [by intros [= <- <-]|].
  case_if; [|done]. destruct (upgrade_event t ev u) eqn:E; [|done]. apply IH. by eapply upgrade_step.
Qed.

Definition taken_over : list (Z * UpgradeEvent) :=
  [(1, SignalArrives UpgradeRequest); (2, ThreadLaunches (Ok 4242)); (3, ThreadSends (Ok ()));
   (4, SuccessorReceives); (5, ThreadReads); (6, SuccessorAccepts); (7, SuccessorReleases)].

Definition upgraded : Upgrading := Eval vm_compute in
  match upgrade_history 0 (taken_over ++ [(8, ThreadReads); (9, MainResumes)]) node_ready with
  | Some (_, u) => u
  | None => node_ready
  end.

Lemma upgrade_keeps_serving_witness :
  node_accepts upgraded = false /\ up_successor upgraded = SReleased /\ up_ops_stopped upgraded = true.
Proof.
  split; [reflexivity|]. split; [|reflexivity].
  assert (Hr : upgrade_reach 9 upgraded).
  { apply (upgrade_history_reach 0 (taken_over ++ [(8, ThreadReads); (9, MainResumes)]) node_ready);
      [constructor|vm_compute; reflexivity]. }
  apply (proj1 (proj2 (upgrade_keeps_serving 9 upgraded Hr))). left. reflexivity.
Defined.

(** The deadline can pass between the successor accepting, even saying so,
    and the node reading it: it is then killed while it accepts. *)
Example killed_while_accepting :
  match upgrade_history 0 taken_over node_ready with
  | Some (_, u) =>
      successor_accepts u = true /\
      match upgrade_event (2 + SUCCESSOR_START_TIMEOUT) ThreadTimesOut u with
      | Some u' => up_successor u' = SGone /\ node_accepts u' = true
      | None => False
      end
  | None => False
  end.
Proof. vm_compute. auto. Qed.

(** A stop that comes between the successor's confirmation and the node's
    acting on it leaves the successor serving, unknown to systemd. *)
Example confirmed_and_abandoned :
  match upgrade_history 0 (taken_over ++ [(8, ThreadReads); (9, SignalArrives StopRequest)]) node_ready with
  | Some (_, u) =>
      node_accepts u = false /\ up_successor u = SReleased /\ up_thread u = TDone (Ok 4242) /\
      up_told u = [NotifyReady; NotifyUpgrading]
  | None => False
  end.
Proof. vm_compute. auto. Qed.
