(* ===== verification/Reload.v ===== *)
(** * Reloads: [gfe/proxy/src/reload] and [gfe/proxy/src/edge/listeners.rs]

    A dynamic config compiled and swapped in ([applier.rs]), the listeners
    and health checks that follow it ([edge/listeners.rs], [health.rs]), the
    last-known-good cache ([cache.rs]) and the controller that keeps a node
    in step with its config ([controller.rs]).

    A node is one record, [Node]: what it serves from, its listeners, its
    checker, its gauges and what its reloads share. One call of the
    controller sees one world, a record [ReloadEnv]: the files, the
    certificates on disk, the sockets the system gives. The lock that
    serializes reloads makes each of them one step. Starting is two: the
    first config is applied under the lock, and its checks follow once the
    lock is released and the watcher's reloads can run. *)

From S2P Require Import Prelude Str Net RateLimiting HealthChecking LoadBalancing Config Routing.
From S2P Require Import Tls Request Forward Listen.
From Stdlib Require Import Ascii.

(** ** A config as the libraries take it *)

Definition cert_specs (entries : list CertEntry) : list CertSpec :=
  (fun e => mkCertSpec (ce_sni e) (ce_default e) (ce_cert_file e) (ce_key_file e)) <$> entries.

Definition policy_of (lb : LbPolicy) : Policy :=
  match lb with
  | LbRoundRobin => RoundRobin
  | LbLeastRequest => LeastRequest
  | LbRingHash => RingHash
  end.

Definition pool_spec (pool : UpstreamPool) : PoolSpec Scheme :=
  mkPoolSpec (up_id pool) (policy_of (up_lb_policy pool))
    ((fun u => mkBackend (u_host u) (u_port u) (u_weight u)) <$> up_upstreams pool)
    (up_max_in_flight pool) (up_max_requests_per_second pool) (up_scheme pool).

Definition pool_specs (pools : list UpstreamPool) : list (PoolSpec Scheme) := pool_spec <$> pools.

Definition probe_kind (check : HealthCheckConfig) (scheme : Scheme) : ProbeKind :=
  let http tls := HttpKind (hcc_path check) (hcc_expected_status check) (hcc_drain_status check) tls in
  match hcc_probe_type check with
  | ProbeTcp => TcpKind
  | ProbeGrpc => GrpcKind (bool_decide (scheme = SchemeHttps))
  | ProbeHttp => http (bool_decide (scheme = SchemeHttps))
  | ProbeHttps => http true
  end.

Definition checked_pool (defaults : HealthCheckConfig) (pool : UpstreamPool) : CheckedPool :=
  let check := unwrap_or defaults (up_health_check pool) in
  mkCheckedPool (up_id pool)
    (mkCheckSpec (probe_kind check (up_scheme pool)) (hcc_interval check) (hcc_timeout check)
       (hcc_healthy_threshold check) (hcc_unhealthy_threshold check))
    ((fun u => (u_host u, u_port u)) <$> up_upstreams pool).

Definition checked_pools (pools : list UpstreamPool) (defaults : HealthCheckConfig) :
    list CheckedPool := checked_pool defaults <$> pools.

(** ** The listeners of a config: [edge/listeners.rs] *)

Definition TRACKED_CLIENTS : Z := 65536.

Definition listen_limits (limits : LimitsConfig) : ListenLimits :=
  mkListenLimits (max_connections limits) (max_connections_listener limits)
    ((fun per_second => mkPeerRate per_second per_second TRACKED_CLIENTS)
       <$> client_connections_per_second limits).

Definition socket_addr (l : Listener) : SocketAddr := mkSocketAddr (l_address l) (l_port l).

Definition addresses (ls : list Listener) : gmap str SocketAddr :=
  foldl (fun m l => <[l_id l := socket_addr l]> m) ∅ ls.

Record EdgeStaged := mkEdgeStaged {
  es_inner : Staged (T := Listener);
  es_addresses : gmap str SocketAddr;
}.

Record EdgeListeners := mkEdgeListeners {
  el_inner : ListenerSet (T := Listener);
  el_addresses : gmap str SocketAddr;
}.

Definition edge_new : EdgeListeners := mkEdgeListeners listeners_new ∅.

Section Edge.
Context {E : Type}.
Implicit Types os : Os (E := E).

(** The sockets' error, with the listeners the config adds. *)
Record EdgeStageError := mkEdgeStageError {
  ese_error : StageError (E := E);
  ese_added : list (str * SocketAddr);
}.

Definition edge_stage os (desired : list Listener) (el : EdgeListeners) :
    EdgeListeners * result EdgeStaged EdgeStageError :=
  let running := (map_to_list (el_addresses el)).*2 in
  match stage os ((fun l => (socket_addr l, l)) <$> desired) (el_inner el) with
  | (inner, Ok staged) =>
      (mkEdgeListeners inner (el_addresses el), Ok (mkEdgeStaged staged (addresses desired)))
  | (inner, Err e) =>
      let added := keep (fun l => negb (bool_decide (socket_addr l ∈ running))) desired in
      (mkEdgeListeners inner (el_addresses el),
       Err (mkEdgeStageError e ((fun l => (l_id l, socket_addr l)) <$> added)))
  end.

Definition edge_commit os (staged : EdgeStaged) (el : EdgeListeners) : EdgeListeners :=
  mkEdgeListeners (commit os (es_inner staged) (el_inner el)) (es_addresses staged).
End Edge.

Definition edge_local_addr (id : str) (el : EdgeListeners) : option SocketAddr :=
  match el_addresses el !! id with
  | Some configured => local_addr configured (el_inner el)
  | None => None
  end.

(** ** The gauges a reload writes *)

Record Control := mkControl {
  g_active_routes : Z;
  g_active_pools : Z;
  g_cert_expiry : gmap str Z;
  g_last_reload : Z;
  g_reload_errors : Z;
  g_reload_failed : Z;
  g_from_cache : Z;
  g_backend_health : gmap (str * str) Z;
  g_backend_draining : gmap (str * str) Z;
}.

Definition control_new : Control := mkControl 0 0 ∅ 0 0 0 0 ∅ ∅.

Definition b2z (b : bool) : Z := if b then 1 else 0.

(** [HealthMetrics]: what the checker tells, as the backends' series. *)
Definition labels (pool : str) (key : Key) : str * str :=
  (pool, key.1 ++ lit ":" ++ decimal key.2).

Definition status_changed (pool : str) (key : Key) (status : HealthStatus) (c : Control) : Control :=
  mkControl (g_active_routes c) (g_active_pools c) (g_cert_expiry c) (g_last_reload c)
    (g_reload_errors c) (g_reload_failed c) (g_from_cache c)
    (<[labels pool key := b2z (bool_decide (status = Healthy))]> (g_backend_health c))
    (<[labels pool key := b2z (bool_decide (status = Draining))]> (g_backend_draining c)).

Definition backend_left (c : Control) (left : str * Key) : Control :=
  mkControl (g_active_routes c) (g_active_pools c) (g_cert_expiry c) (g_last_reload c)
    (g_reload_errors c) (g_reload_failed c) (g_from_cache c)
    (delete (labels left.1 left.2) (g_backend_health c))
    (delete (labels left.1 left.2) (g_backend_draining c)).

(** What [install] writes: the counts, the expiries of the certificates
    served, none of those gone, and when. *)
Definition control_installed (route_count pool_count : Z) (before after : list (str * Z)) (now : Z)
    (c : Control) : Control :=
  let removed :=
    keep (fun sni => negb (existsb (fun kept => str_eqb kept.1 sni) after)) before.*1 in
  let set := foldl (fun m e => <[e.1 := e.2]> m) (g_cert_expiry c) after in
  mkControl (gauge_i64 route_count) (gauge_i64 pool_count)
    (foldl (fun m sni => delete sni m) set removed) now
    (g_reload_errors c) (g_reload_failed c) (g_from_cache c) (g_backend_health c)
    (g_backend_draining c).

(** A config is served: the deployed one. *)
Definition control_applied (c : Control) : Control :=
  mkControl (g_active_routes c) (g_active_pools c) (g_cert_expiry c) (g_last_reload c)
    (g_reload_errors c) 0 0 (g_backend_health c) (g_backend_draining c).

(** A config was rejected; [from_cache] when the cache is served instead. *)
Definition control_rejected (from_cache : bool) (c : Control) : Control :=
  mkControl (g_active_routes c) (g_active_pools c) (g_cert_expiry c) (g_last_reload c)
    (wrap64 (g_reload_errors c + 1)) 1 (if from_cache then 1 else g_from_cache c)
    (g_backend_health c) (g_backend_draining c).

(** ** The last-known-good cache: [cache.rs] *)

(** [Path::with_extension("tmp")]: the last component without what follows
    its last dot, unless that dot starts it. A path that ends in [/] or
    [..] has no file name to change. *)
Fixpoint until_last (c : ascii) (s : str) : option str :=
  match s with
  | [] => None
  | x :: s =>
      match until_last c s with
      | Some before => Some (x :: before)
      | None => if Ascii.eqb x c then Some [] else None
      end
  end.

Definition dir_of (path : str) : str :=
  match until_last "/"%char path with Some dir => dir ++ lit "/" | None => [] end.

Definition name_of (path : str) : str := drop (length (dir_of path)) path.

Definition file_stem (name : str) : str :=
  match until_last "."%char name with Some (x :: before) => x :: before | _ => name end.

Definition with_extension_tmp (path : str) : str :=
  let name := name_of path in
  if bool_decide (name = []) || str_eqb name (lit "..") then path
  else dir_of path ++ file_stem name ++ lit ".tmp".

(** What the disk does when the cache is written: the write succeeds, or
    fails leaving a part of what was to be written, or nothing; then the
    rename succeeds or not. *)
Inductive WriteOutcome := Written | WriteFailed (part : option str).

Record CacheIo := mkCacheIo {
  ci_json : DynamicConfig -> option str;
  ci_write : WriteOutcome;
  ci_rename : bool;
}.

(** The files, their contents, before and after. *)
Definition cache_write (io : CacheIo) (path : str) (config : DynamicConfig) (files : gmap str str) :
    gmap str str * bool :=
  match ci_json io config with
  | None => (files, false)
  | Some json =>
      let staged := with_extension_tmp path in
      match ci_write io with
      | WriteFailed None => (files, false)
      | WriteFailed (Some part) => (<[staged := part]> files, false)
      | Written =>
          let files := <[staged := json]> files in
          if ci_rename io then (<[path := json]> (delete staged files), true) else (files, false)
      end
  end.

(** Whatever becomes of a write, the cache holds what it held or the config
    written, never a part of one, unless it is the staged file itself. *)
Lemma cache_write_atomic io path config files :
  with_extension_tmp path <> path ->
  (cache_write io path config files).1 !! path = files !! path \/
  is_Some (ci_json io config) /\ (cache_write io path config files).1 !! path = ci_json io config.
Proof.
  intros Hne. unfold cache_write. destruct (ci_json io config) as [json|]; [|by left].
  destruct (ci_write io) as [|[part|]]; [destruct (ci_rename io)|..]; simpl.
  - right. split; [done|]. apply lookup_insert_eq.
  - left. by rewrite lookup_insert_ne.
  - left. by rewrite lookup_insert_ne.
  - by left.
Qed.

(** ** A node and its reloads: [applier.rs] and [controller.rs] *)

Record Node := mkNode {
  n_resolver : SniResolver;
  n_routes : RouteTable;
  n_pools : PoolSet Scheme;
  n_health : HealthMap;
  n_control : Control;
  n_listeners : EdgeListeners;
  n_checker : HealthChecker;
  n_cert_files : CertFiles;
  n_following : bool;
  n_files : gmap str str;
}.

(** A node's state before its first config ([State::new]). *)
Definition node_new (files : gmap str str) : Node :=
  mkNode (sni_resolver_new cert_store_empty) (mkRouteTable ∅ 0) ∅ (health_map_new true) control_new
    edge_new checker_new [] false files.

Definition put_health (m : HealthMap) (n : Node) : Node :=
  mkNode (n_resolver n) (n_routes n) (n_pools n) m (n_control n) (n_listeners n) (n_checker n)
    (n_cert_files n) (n_following n) (n_files n).

Definition put_control (c : Control) (n : Node) : Node :=
  mkNode (n_resolver n) (n_routes n) (n_pools n) (n_health n) c (n_listeners n) (n_checker n)
    (n_cert_files n) (n_following n) (n_files n).

Definition put_listeners (el : EdgeListeners) (n : Node) : Node :=
  mkNode (n_resolver n) (n_routes n) (n_pools n) (n_health n) (n_control n) el (n_checker n)
    (n_cert_files n) (n_following n) (n_files n).

Definition put_cert_files (seen : CertFiles) (n : Node) : Node :=
  mkNode (n_resolver n) (n_routes n) (n_pools n) (n_health n) (n_control n) (n_listeners n)
    (n_checker n) seen (n_following n) (n_files n).

Definition put_following (b : bool) (n : Node) : Node :=
  mkNode (n_resolver n) (n_routes n) (n_pools n) (n_health n) (n_control n) (n_listeners n)
    (n_checker n) (n_cert_files n) b (n_files n).

Definition put_checker (c : HealthChecker) (n : Node) : Node :=
  mkNode (n_resolver n) (n_routes n) (n_pools n) (n_health n) (n_control n) (n_listeners n) c
    (n_cert_files n) (n_following n) (n_files n).

Definition put_files (files : gmap str str) (n : Node) : Node :=
  mkNode (n_resolver n) (n_routes n) (n_pools n) (n_health n) (n_control n) (n_listeners n)
    (n_checker n) (n_cert_files n) (n_following n) files.

Definition put_pools (ps : PoolSet Scheme) (n : Node) : Node :=
  mkNode (n_resolver n) (n_routes n) ps (n_health n) (n_control n) (n_listeners n) (n_checker n)
    (n_cert_files n) (n_following n) (n_files n).

Record Prepared := mkPrepared {
  pr_certificates : CertStore;
  pr_routes : RouteTable;
  pr_pools : PoolSet Scheme;
}.

Section Reload.
(** The errors of files, of parsing, of sockets and of watching. *)
Context {I P E W : Type}.

Inductive ReloadError :=
| ConfigRejected (e : ConfigError I P)
| CertificatesRejected (e : TlsError I)
| PoolsRejected (e : PoolError)
| BindFailed (e : EdgeStageError (E := E))
| NeitherUsable (deployed : ReloadError) (path : str) (cache : ReloadError)
| WatchFailed (path : str) (e : W).

(** The world a call of the controller sees: the text of a file and the
    config it parses to, an entry's files loaded (its expiry, or the
    error), how files look on disk, the sockets, the seconds since the
    epoch, and what becomes of the cache. *)
Record ReloadEnv := mkReloadEnv {
  re_read : str -> result str I;
  re_parse : str -> result DynamicConfig P;
  re_load : str -> str -> result Z (TlsError I);
  re_disk : str -> option FileStamp;
  re_os : Os (E := E);
  re_now : Z;
  re_cache : CacheIo;
}.

(** What a [Reloader] is made with. *)
Record Reloader := mkReloader {
  rl_config_file : str;
  rl_cache_file : option str;
  rl_defaults : HealthCheckConfig;
}.

(** [hash64] of a ring's points. *)
Context (hash64 : str -> Z -> Z).
Implicit Types (env : ReloadEnv) (rl : Reloader) (n : Node).

(** A backend's health is entered even when the config is then rejected. *)
Definition prepare (load : str -> str -> result Z (TlsError I)) (config : DynamicConfig)
    (health : HealthMap) : HealthMap * result Prepared ReloadError :=
  match validate config with
  | Err e => (health, Err (ConfigRejected e))
  | Ok _ =>
      match cert_store_build load (cert_specs (certificates config)) with
      | Err e => (health, Err (CertificatesRejected e))
      | Ok store =>
          let table := compile config in
          match pool_set_build hash64 (pool_specs (pools config)) health with
          | (health, Err e) => (health, Err (PoolsRejected e))
          | (health, Ok ps) => (health, Ok (mkPrepared store table ps))
          end
      end
  end.

Definition install (now : Z) (prepared : Prepared) n : Node :=
  let backends := all_backends (pr_pools prepared) in
  let control :=
    control_installed (Z.of_nat (rt_route_count (pr_routes prepared)))
      (Z.of_nat (size (pr_pools prepared))) (cst_expiries (sr_store (n_resolver n)))
      (cst_expiries (pr_certificates prepared)) (if now <? 0 then 0 else gauge_i64 now)
      (n_control n) in
  mkNode (sni_resolver_swap (pr_certificates prepared) (n_resolver n)) (pr_routes prepared)
    (pr_pools prepared) (health_map_retain backends (n_health n)) control (n_listeners n)
    (n_checker n) (n_cert_files n) (n_following n) (n_files n).

Definition apply env (config : DynamicConfig) n : Node * result unit ReloadError :=
  let n := put_cert_files (cert_files_snapshot (re_disk env) (cert_specs (certificates config))) n in
  match prepare (re_load env) config (n_health n) with
  | (health, Err e) => (put_health health n, Err e)
  | (health, Ok prepared) =>
      let n := put_health health n in
      match edge_stage (re_os env) (listeners config) (n_listeners n) with
      | (el, Err e) => (put_listeners el n, Err (BindFailed e))
      | (el, Ok staged) =>
          let n := install (re_now env) prepared (put_listeners el n) in
          (put_listeners (edge_commit (re_os env) staged (n_listeners n)) n, Ok ())
      end
  end.

(** [load_dynamic_config], then [apply]: the config applied, or the error. *)
Definition load_and_apply env (path : str) n : Node * result DynamicConfig ReloadError :=
  match load_dynamic_config (re_read env) (re_parse env) path with
  | Err e => (n, Err (ConfigRejected e))
  | Ok config =>
      match apply env config n with
      | (n, Ok _) => (n, Ok config)
      | (n, Err e) => (n, Err e)
      end
  end.

Definition write_cache env rl (config : DynamicConfig) n : Node :=
  match rl_cache_file rl with
  | None => n
  | Some path => put_files (cache_write (re_cache env) path config (n_files n)).1 n
  end.

(** The checks of a config's pools, the backends that left dropped from the
    metrics. *)
Definition reconcile_checks rl (config : DynamicConfig) n : Node :=
  let (checker, left) := reconcile (checked_pools (pools config) (rl_defaults rl)) (n_checker n) in
  put_control (foldl backend_left (n_control n) left) (put_checker checker n).

Definition apply_initial env rl n : Node * result DynamicConfig ReloadError :=
  match load_and_apply env (rl_config_file rl) n with
  | (n, Ok config) =>
      let n := write_cache env rl config n in
      (put_following true (put_control (control_applied (n_control n)) n), Ok config)
  | (n, Err unusable) =>
      match rl_cache_file rl with
      | None => (n, Err unusable)
      | Some cache_file =>
          match load_and_apply env cache_file n with
          | (n, Err cache) => (n, Err (NeitherUsable unusable cache_file cache))
          | (n, Ok cached) =>
              (put_following true (put_control (control_rejected true (n_control n)) n), Ok cached)
          end
      end
  end.

(** [Controller::start], with how watching the config file went: up to where
    the lock is released. *)
Definition controller_new n : Node := put_following false (put_cert_files [] (put_checker checker_new n)).

Definition start_applies env (watched : result unit W) rl n : Node * result DynamicConfig ReloadError :=
  match watched with
  | Err e => (n, Err (WatchFailed (rl_config_file rl) e))
  | Ok _ => apply_initial env rl (controller_new n)
  end.

(** The whole of it. Between the lock and the checks of the first config, the
    watcher's reloads, the probes they start and requests do [meanwhile] what
    they do. (The checks may also follow in the middle of a reload: before its
    own checks follow that is as before the reload, [reconcile_then_apply],
    and after that as after it.) *)
Definition start env (watched : result unit W) (meanwhile : Node -> Node) rl n : Node * result unit ReloadError :=
  match start_applies env watched rl n with
  | (n, Err e) => (n, Err e)
  | (n, Ok config) => (reconcile_checks rl config (meanwhile n), Ok ())
  end.

Definition reload_locked env rl n : Node :=
  match load_and_apply env (rl_config_file rl) n with
  | (n, Ok config) =>
      let n := write_cache env rl config (reconcile_checks rl config n) in
      put_control (control_applied (n_control n)) n
  | (n, Err _) => put_control (control_rejected false (n_control n)) n
  end.

Definition reload env rl n : Node := if n_following n then reload_locked env rl n else n.

Definition reload_if_certificates_changed env rl n : Node :=
  if negb (n_following n) || negb (changed_on_disk (re_disk env) (n_cert_files n)) then n
  else reload_locked env rl (put_cert_files (cert_files_refresh (re_disk env) (n_cert_files n)) n).

Definition shutdown n : Node := put_checker (stop_all (n_checker n)) (put_following false n).
End Reload.

(** ** The health map under a reload *)

Definition backend_key (b : Backend) : Key := (b_host b, b_port b).

(** The handles a pool keeps are those the map has for its backends, so that
    the pool reads what the probes of its backends write. *)
Definition linked {T} (m : HealthMap) (p : Pool T) : Prop :=
  Forall2 (fun b r => hm_map m !! backend_key b = Some r) (p_backends p) (p_health p).

(** The map [m'] has every entry of [m], and every handle reads as it did. *)
Definition only_gains (m m' : HealthMap) : Prop :=
  (forall k r, hm_map m !! k = Some r -> hm_map m' !! k = Some r) /\
  (forall r h, read_handle m r = Some h -> read_handle m' r = Some h) /\
  (health_map_ok m -> health_map_ok m').

Lemma only_gains_refl m : only_gains m m.
Proof. done. Qed.

Lemma only_gains_trans m1 m2 m3 : only_gains m1 m2 -> only_gains m2 m3 -> only_gains m1 m3.
Proof. unfold only_gains. naive_solver. Qed.

Lemma handle_gains key m :
  only_gains m (health_map_handle key m).1 /\
  hm_map (health_map_handle key m).1 !! key = Some (health_map_handle key m).2.
Proof.
  split; [split_and!|].
  - intros k r H. unfold health_map_handle. destruct (hm_map m !! key) eqn:E; [done|]. simpl.
    rewrite lookup_insert_ne; [done|]. congruence.
  - intros r h H. unfold health_map_handle, read_handle in *.
    destruct (hm_map m !! key); [done|]. by apply lookup_app_l_Some.
  - apply handle_ok.
  - unfold health_map_handle. destruct (hm_map m !! key) eqn:E; [done|]. apply lookup_insert_eq.
Qed.

Lemma take_handles_linked backends m :
  only_gains m (take_handles backends m).1 /\
  Forall2 (fun b r => hm_map (take_handles backends m).1 !! backend_key b = Some r) backends
    (take_handles backends m).2.
Proof.
  revert m. induction backends as [|b backends IH]; intros m; simpl; [by split; [|constructor]|].
  destruct (handle_gains (b_host b, b_port b) m) as [Hg Hb].
  destruct (health_map_handle (b_host b, b_port b) m) as [m1 r]. simpl in *.
  destruct (IH m1) as [Hg1 Hl]. destruct (take_handles backends m1) as [m2 rs]. simpl in *.
  split; [by eapply only_gains_trans|]. constructor; [|done]. by apply Hg1.
Qed.

Lemma linked_gains {T} m m' (p : Pool T) : only_gains m m' -> linked m p -> linked m' p.
Proof. intros Hg Hl. eapply Forall2_impl; [exact Hl|]. intros b r. apply Hg. Qed.

Lemma pool_ok_gains {T} m m' (p : Pool T) : only_gains m m' -> pool_ok m p -> pool_ok m' p.
Proof.
  intros Hg (H1 & H2 & H3 & H4 & H5). split_and!; try done.
  eapply Forall_impl; [exact H3|]. intros r Hr. apply lookup_lt_is_Some.
  apply lookup_lt_is_Some in Hr as [h Hh]. exists h. by apply Hg.
Qed.

Section Building.
Context (hash64 : str -> Z -> Z) {T : Type}.

Definition pool_fits (m : HealthMap) (p : Pool T) : Prop := linked m p /\ pool_ok m p.

Lemma pool_fits_gains m m' (p : Pool T) : only_gains m m' -> pool_fits m p -> pool_fits m' p.
Proof. intros Hg [? ?]. split; [by eapply linked_gains|by eapply pool_ok_gains]. Qed.

Lemma pool_new_fits (s : PoolSpec T) m :
  health_map_ok m -> Forall (fun b => 0 <= b_weight b) (ps_backends s) ->
  only_gains m (pool_new hash64 s m).1 /\
  match (pool_new hash64 s m).2 with Ok p => pool_fits (pool_new hash64 s m).1 p | Err _ => True end.
Proof.
  intros Hok Hw. destruct (pool_new hash64 s m) as [m' [p|e]] eqn:En; simpl.
  - assert (Hp : pool_ok m' p) by (by eapply pool_new_ok).
    unfold pool_new in En. destruct (_ && _); [done|].
    destruct (take_handles_linked (ps_backends s) m) as [Hg Hl].
    destruct (take_handles (ps_backends s) m) as [m1 rs]. injection En as <- <-. done.
  - unfold pool_new in En. destruct (_ && _); [by injection En as <- _|].
    by destruct (take_handles (ps_backends s) m).
Qed.

Lemma pool_set_build_fits (specs : list (PoolSpec T)) m ps :
  health_map_ok m -> Forall (fun s => Forall (fun b => 0 <= b_weight b) (ps_backends s)) specs ->
  map_Forall (fun _ => pool_fits m) ps ->
  only_gains m (pool_set_build_from hash64 specs m ps).1 /\
  match (pool_set_build_from hash64 specs m ps).2 with
  | Ok ps' => map_Forall (fun _ => pool_fits (pool_set_build_from hash64 specs m ps).1) ps'
  | Err _ => True
  end.
Proof.
  revert m ps. induction specs as [|s specs IH]; intros m ps Hok Hw Hps; simpl; [done|].
  apply Forall_cons in Hw as [Hs Hw]. destruct (pool_new_fits s m Hok Hs) as [Hg Hp].
  destruct (pool_new hash64 s m) as [m1 [p|e]]; simpl in *; [|done].
  destruct (IH m1 (<[ps_id s := p]> ps)) as [Hg1 H]; [by apply Hg|done| |].
  - apply map_Forall_insert_2; [done|]. eapply map_Forall_impl; [done|].
    intros id q. by apply pool_fits_gains.
  - split; [by eapply only_gains_trans|done].
Qed.
End Building.

(** Forgetting the backends of no pool keeps every pool linked. *)
Lemma retain_fits {T} (m : HealthMap) (ps : PoolSet T) (id : str) (p : Pool T) :
  ps !! id = Some p -> pool_fits m p -> pool_fits (health_map_retain (all_backends ps) m) p.
Proof.
  intros Hp [Hl Hok]. split; [|by destruct Hok as (H1 & H2 & H3 & H4 & H5); split_and!].
  apply Forall2_same_length_lookup_2; [by eapply Forall2_length|].
  intros i b r Hb Hr. simpl. apply map_lookup_filter_Some. split.
  - eapply (Forall2_lookup_lr _ _ _ _ _ _ Hl Hb Hr).
  - apply list_elem_of_bind. exists (id, p). split; [|by apply elem_of_map_to_list].
    apply list_elem_of_fmap. exists b. split; [done|]. by eapply list_elem_of_lookup_2.
Qed.

(** ** What a config applied, or rejected, means *)

(** The weights of a config are [u32]s. *)
Definition config_typed (config : DynamicConfig) : Prop :=
  Forall (fun pool => Forall (fun u => in_u32 (u_weight u)) (up_upstreams pool)) (pools config).

Section Facts.
Context {I P E W : Type} (hash64 : str -> Z -> Z).
Implicit Types (env : ReloadEnv (I := I) (P := P) (E := E)) (n : Node).
Implicit Types (load : str -> str -> result Z (TlsError I)).

Lemma cert_store_add_Err load entries key default_file store e :
  cert_store_add load entries key default_file store = Err e ->
  (length (keep cs_default entries) + (if is_none default_file then 0 else 1) <= 1)%nat ->
  exists entry e', entry ∈ entries /\ load (cs_cert_file entry) (cs_key_file entry) = Err e' /\
    e = EntryError (entry_names entry) e'.
Proof.
  revert key default_file store. induction entries as [|entry entries IH]; intros key df store H Hd;
    cbn [cert_store_add] in H; [done|].
  destruct (load (cs_cert_file entry) (cs_key_file entry)) as [not_after|e'] eqn:El; simpl in H.
  2: { injection H as <-. exists entry, e'. split; [constructor|done]. }
  cbn [keep] in Hd. destruct (cs_default entry); [destruct df as [first|]; [simpl in Hd; lia|]|];
    (edestruct IH as (x & e' & Hx & ?); [exact H|simpl in *; lia|]; exists x, e'; split; [by constructor|done]).
Qed.

Lemma keep_cert_specs entries :
  length (keep cs_default (cert_specs entries)) = length (keep ce_default entries).
Proof.
  induction entries as [|e entries IH]; [done|]. unfold cert_specs in *. csimpl.
  destruct (ce_default e); simpl; congruence.
Qed.

(** What each way of rejecting a config says of it. *)
Definition rejected load (os : Os (E := E)) (ls : ListenerSet (T := Listener)) (config : DynamicConfig)
    (e : ReloadError (I := I) (P := P) (E := E) (W := W)) : Prop :=
  match e with
  | ConfigRejected _ => ~ valid_dynamic config
  | CertificatesRejected _ =>
      valid_dynamic config /\
      exists c e, c ∈ certificates config /\ load (ce_cert_file c) (ce_key_file c) = Err e
  | PoolsRejected (RingTooLarge id points) =>
      valid_dynamic config /\ MAX_RING_POINTS < points /\
      exists pool, pool ∈ pools config /\ up_id pool = id /\ up_lb_policy pool = LbRingHash /\
        points = RING_REPLICAS * sum_list (u_weight <$> up_upstreams pool)
  | BindFailed e =>
      valid_dynamic config /\
      exists l, l ∈ listeners config /\ ls_running ls !! socket_addr l = None /\
        match ese_error e with
        | NamedTwice _ => False
        | ListeningOnAdopted a e =>
            a = socket_addr l /\ exists s, ls_adopted ls !! a = Some s /\ os_listen_on os s = Err e
        | Binding a e => a = socket_addr l /\ ls_adopted ls !! a = None /\ os_bind os a = Err e
        end
  | NeitherUsable _ _ _ | WatchFailed _ _ => False
  end.

Lemma pool_specs_typed config :
  config_typed config ->
  Forall (fun s => Forall (fun b => 0 <= b_weight b) (ps_backends s)) (pool_specs (pools config)).
Proof.
  intros H. apply Forall_fmap. eapply Forall_impl; [exact H|]. intros pool Hp.
  apply Forall_fmap. eapply Forall_impl; [exact Hp|]. intros u Hu. simpl. unfold in_u32 in Hu. lia.
Qed.

Lemma ring_rejected config id points s :
  s ∈ pool_specs (pools config) -> ~ ring_fits s -> id = ps_id s ->
  points = ring_points (ps_backends s) ->
  MAX_RING_POINTS < points /\
  exists pool, pool ∈ pools config /\ up_id pool = id /\ up_lb_policy pool = LbRingHash /\
    points = RING_REPLICAS * sum_list (u_weight <$> up_upstreams pool).
Proof.
  intros (pool & -> & Hpool)%list_elem_of_fmap Hf -> ->. unfold ring_fits in Hf. simpl in *.
  assert (Hlb : up_lb_policy pool = LbRingHash) by (destruct (up_lb_policy pool); [exfalso; apply Hf; done..|done]).
  assert (Hp : ring_points ((fun u => mkBackend (u_host u) (u_port u) (u_weight u)) <$> up_upstreams pool) =
               RING_REPLICAS * sum_list (u_weight <$> up_upstreams pool)).
  { unfold ring_points. by rewrite <- list_fmap_compose. }
  split; [|by exists pool]. apply Z.nle_gt. intros Hle. by apply Hf.
Qed.

(** What [prepare] made of a config. *)
Record prepared_from load (config : DynamicConfig) (m : HealthMap) (pr : Prepared) : Prop := {
  pf_valid : valid_dynamic config;
  pf_certificates : cert_store_build load (cert_specs (certificates config)) = Ok (pr_certificates pr);
  pf_routes : pr_routes pr = compile config;
  pf_pools : by_last (pool_specs (pools config)) (pr_pools pr);
  pf_fits : map_Forall (fun _ => pool_fits m) (pr_pools pr);
}.

Lemma prepare_spec load os ls config m :
  health_map_ok m -> config_typed config ->
  only_gains m (prepare (P := P) (E := E) (W := W) hash64 load config m).1 /\
  match (prepare (P := P) (E := E) (W := W) hash64 load config m).2 with
  | Ok pr => prepared_from load config (prepare (P := P) (E := E) (W := W) hash64 load config m).1 pr
  | Err e => rejected load os ls config e
  end.
Proof.
  intros Hok Ht. unfold prepare, validate.
  pose proof (validate_dynamic_accepts config) as Hv.
  destruct (validate_dynamic_config config) as [[]|e]; cbn [map_err].
  2: { split; [done|]. simpl. intros H. apply Hv in H. done. }
  assert (valid_dynamic config) as Hvalid by (by apply Hv). clear Hv.
  destruct (cert_store_build load (cert_specs (certificates config))) as [store|e] eqn:Ec.
  2: { split; [done|]. simpl. split; [done|]. unfold cert_store_build in Ec.
       destruct (cert_store_add _ _ _ _ _) as [?|e0] eqn:Ea; [done|].
       apply cert_store_add_Err in Ea as (entry & e' & He & Hl & _).
       - apply list_elem_of_fmap in He as (c & -> & Hc). by exists c, e'.
       - rewrite keep_cert_specs. simpl. pose proof (vd_defaults _ Hvalid). lia. }
  destruct (pool_set_build_fits hash64 (pool_specs (pools config)) m ∅ Hok (pool_specs_typed _ Ht)
              (map_Forall_empty _)) as [Hg Hf].
  pose proof (pool_set_build_from_spec hash64 (pool_specs (pools config)) [] m ∅) as Hb.
  unfold pool_set_build. destruct (pool_set_build_from _ _ _ _) as [m' [ps|[id points]]]; simpl in *.
  - split; [done|]. destruct Hb as [_ Hb]; [constructor|done|]. by constructor.
  - split; [done|]. split; [done|]. destruct Hb as (s & Hs & Hr & Hi & Hp); [constructor|done|].
    by eapply ring_rejected.
Qed.

(** ** A config is applied whole or not at all *)

Definition entries_of (ls : list Listener) : list (SocketAddr * Listener) :=
  (fun l => (socket_addr l, l)) <$> ls.

Lemma entries_addrs ls : (entries_of ls).*1 = socket_addr <$> ls.
Proof. unfold entries_of. by rewrite <- list_fmap_compose. Qed.

Lemma valid_addresses config : valid_dynamic config -> NoDup (entries_of (listeners config)).*1.
Proof.
  intros Hv. rewrite entries_addrs.
  assert (Heq : socket_addr <$> listeners config =
                (fun a : IpAddr * Z => mkSocketAddr a.1 a.2) <$> (listener_addr <$> listeners config))
    by (by rewrite <- list_fmap_compose).
  rewrite Heq. apply NoDup_fmap_2; [|apply Hv]. intros [x1 x2] [y1 y2] [= -> ->]. done.
Qed.

Lemma attached_entries ls a l :
  NoDup (entries_of ls).*1 -> attached (entries_of ls) a = Some l <-> l ∈ ls /\ socket_addr l = a.
Proof.
  intros Hn. unfold attached. split.
  - intros ([a' l'] & Hf & ->)%fmap_Some. apply find_first_Some in Hf as [Hin Hb].
    apply list_elem_of_fmap in Hin as (x & [= -> ->] & Hx). by apply bool_decide_eq_true in Hb.
  - intros [Hl <-]. destruct (attached (entries_of ls) (socket_addr l)) as [l'|] eqn:Ea; unfold attached in Ea.
    + rewrite Ea. f_equal. apply fmap_Some in Ea as ([a' l''] & Hf & ->).
      apply find_first_Some in Hf as [Hin Hb]. apply bool_decide_eq_true in Hb. simpl in Hb.
      apply list_elem_of_fmap in Hin as (x & [= -> ->] & Hx). simpl.
      rewrite entries_addrs in Hn.
      apply list_elem_of_lookup in Hl as [i Hi]. apply list_elem_of_lookup in Hx as [j Hj].
      assert (i = j) as <-; [|congruence].
      apply (NoDup_lookup _ i j (socket_addr l) Hn); rewrite list_lookup_fmap;
        [by rewrite Hi|by rewrite Hj, <- Hb].
    + exfalso. fold (attached (entries_of ls) (socket_addr l)) in Ea. apply attached_None in Ea.
      apply Ea. rewrite entries_addrs. by apply list_elem_of_fmap_2.
Qed.

(** A node serves a config: its routes and certificates are the config's, it
    has the config's pools and no other, each linked to the health of its
    backends, and it listens where the config says, as the config says. *)
Record node_serves (config : DynamicConfig) n : Prop := {
  sv_valid : valid_dynamic config;
  sv_routes : n_routes n = compile config;
  sv_certificates : exists load, cert_store_build load (cert_specs (certificates config)) =
                                 Ok (sr_store (n_resolver n));
  sv_pools : by_last (pool_specs (pools config)) (n_pools n);
  sv_fits : map_Forall (fun _ => pool_fits (n_health n)) (n_pools n);
  sv_sockets : forall a l, rn_listener <$> ls_running (el_inner (n_listeners n)) !! a = Some l <->
                 l ∈ listeners config /\ socket_addr l = a;
  sv_addresses : el_addresses (n_listeners n) = addresses (listeners config);
}.

(** What a node goes on serving from, untouched. *)
Record kept n n' : Prop := {
  kp_resolver : n_resolver n' = n_resolver n;
  kp_routes : n_routes n' = n_routes n;
  kp_pools : n_pools n' = n_pools n;
  kp_health : only_gains (n_health n) (n_health n');
  kp_running : ls_running (el_inner (n_listeners n')) = ls_running (el_inner (n_listeners n));
  kp_addresses : el_addresses (n_listeners n') = el_addresses (n_listeners n);
}.

(** What only the controller writes around an [apply]. *)
Definition same_control n n' : Prop :=
  n_checker n' = n_checker n /\ n_following n' = n_following n /\ n_files n' = n_files n.

Lemma edge_stage_spec os desired el :
  match edge_stage (E := E) os desired el with
  | (el', Err e) =>
      ls_running (el_inner el') = ls_running (el_inner el) /\ el_addresses el' = el_addresses el /\
      stage_failed os (el_inner el) (entries_of desired) (ese_error e)
  | (el', Ok staged) =>
      NoDup (entries_of desired).*1 /\
      el_addresses (edge_commit os staged el') = addresses desired /\
      (forall a, rn_listener <$> ls_running (el_inner (edge_commit os staged el')) !! a =
                 attached (entries_of desired) a)
  end.
Proof.
  unfold edge_stage. fold (entries_of desired).
  pose proof (reconcile_listeners os (entries_of desired) (el_inner el)) as H.
  destruct (stage os (entries_of desired) (el_inner el)) as [inner [staged|e]] eqn:Es.
  - destruct H as (_ & Hn & Hr & Hd & _). split; [done|]. split; [done|]. intros a. simpl.
    specialize (Hd a). rewrite Hr. rewrite Hr in Hd.
    destruct (attached (entries_of desired) a) as [l|] eqn:Ea; [|done]. simpl in *.
    destruct (ls_running (el_inner el) !! a); [done|].
    destruct (socket_for os (ls_adopted (el_inner el)) a); [done|]. simpl in *.
    assert (Hin : a ∈ (entries_of desired).*1) by (apply dec_stable; rewrite <- attached_None; congruence).
    apply Hd in Hin as [? ?]. done.
  - by destruct H as (Hr & Hf & _).
Qed.

Lemma bind_rejected load os ls config e :
  valid_dynamic config -> stage_failed os ls (entries_of (listeners config)) (ese_error e) ->
  rejected load os ls config (BindFailed e).
Proof.
  intros Hv Hf. simpl. split; [done|]. destruct e as [[a|a e|a e] added]; simpl in *.
  - exfalso. by apply Hf, valid_addresses.
  - destruct Hf as [[Ha Hr] Hs]. rewrite entries_addrs in Ha. apply list_elem_of_fmap in Ha as (l & -> & Hl).
    by exists l.
  - destruct Hf as [[Ha Hr] Hs]. rewrite entries_addrs in Ha. apply list_elem_of_fmap in Ha as (l & -> & Hl).
    by exists l.
Qed.

Lemma apply_spec env config n :
  health_map_ok (n_health n) -> config_typed config ->
  match apply (W := W) hash64 env config n with
  | (n', Ok _) => node_serves config n' /\ health_map_ok (n_health n') /\ same_control n n'
  | (n', Err e) =>
      kept n n' /\ n_control n' = n_control n /\ same_control n n' /\
      rejected (re_load env) (re_os env) (el_inner (n_listeners n)) config e
  end.
Proof.
  intros Hok Ht. unfold apply. cbn [put_cert_files n_health].
  destruct (prepare_spec (re_load env) (re_os env) (el_inner (n_listeners n)) config (n_health n) Hok Ht)
    as [Hg Hp].
  destruct (prepare hash64 (re_load env) config (n_health n)) as [health [pr|e]]; simpl in Hg, Hp.
  2: { split; [by constructor|]. split; [done|]. by split. }
  cbv zeta. match goal with |- context [edge_stage _ _ ?el] => change el with (n_listeners n) end.
  pose proof (edge_stage_spec (re_os env) (listeners config) (n_listeners n)) as Hs.
  destruct (edge_stage (re_os env) (listeners config) (n_listeners n)) as [el [staged|e]].
  - destruct Hs as (Hn & Ha & Hr), Hp as [Hv Hc Hro Hpo Hf]. split; [|split; [|by unfold same_control]].
    + constructor; simpl; [done|done|by eexists|done| | |done].
      * intros id p Hid. eapply retain_fits; [done|]. by apply (Hf id).
      * intros a l. rewrite Hr. by apply attached_entries.
    + apply (health_op_ok (OpRetain _)). by apply Hg.
  - destruct Hs as (Hr & Ha & Hf), Hp as [Hv _ _ _ _]. split; [by constructor|]. split; [done|].
    split; [done|]. by apply bind_rejected.
Qed.

(** C19: A config is applied whole or not at all ([Reloader::apply]). If it is
    applied, the node serves exactly that config, which is valid: its
    routes, its certificates, its pools and no other, its listeners and no
    other. If it is not, what requests are routed by, served from and
    accepted on is what it was, every backend's health reads as it did, and
    the error tells the truth: the config is not valid, or a certificate it
    names does not load, or a ring of its pools is too large, or the socket
    of a listener it adds cannot be had. A valid config is never rejected
    for two default certificates, nor for an address named twice. *)
Theorem apply_all_or_nothing env config n :
  health_map_ok (n_health n) -> config_typed config ->
  match apply (W := W) hash64 env config n with
  | (n', Ok _) => node_serves config n'
  | (n', Err e) =>
      kept n n' /\ n_control n' = n_control n /\
      rejected (re_load env) (re_os env) (el_inner (n_listeners n)) config e
  end.
Proof.
  intros Hok Ht. pose proof (apply_spec env config n Hok Ht) as H.
  destruct (apply hash64 env config n) as [n' [[]|e]]; naive_solver.
Qed.

(** ** A node keeps in step with its config *)

(** What requests do to a pool: they are admitted, given a backend, and what
    they held is released. *)
Inductive pool_use (m : HealthMap) : Pool Scheme -> Pool Scheme -> Prop :=
| use_admit now p : pool_use m p (pool_admit now p).1
| use_select draw key p q o : pool_select m draw key p = Some (q, o) -> pool_use m p q
| use_release g p : pool_use m p (guard_drop g p).

(** A probe of a backend that is checked finishes: a round of its loop. *)
Definition probe_ended (key : Key) (r : Running) (outcome : ProbeResult) (b : BackendHealth) n : Node :=
  let '(_, m, told) := probe_round (run_check r) (run_pools r) key outcome b (n_health n) in
  put_control (foldl (fun c t => status_changed t.1.1 t.1.2 t.2 c) (n_control n) told) (put_health m n).

(** The config's weights are parsed as [u32]s. *)
Definition env_typed env : Prop :=
  forall text config, re_parse env text = Ok config -> config_typed config.

(** The steps of a node, in any order and in any world: probes finish and
    requests use the pools; while it starts, the config file changes, too; and
    once it has, the certificates change, and it stops following. *)
Inductive quiet_step : Node -> Node -> Prop :=
| step_probe key r outcome b n :
    hc_tasks (n_checker n) !! key = Some r -> quiet_step n (probe_ended key r outcome b n)
| step_use id p q n :
    n_pools n !! id = Some p -> pool_use (n_health n) p q ->
    quiet_step n (put_pools (<[id := q]> (n_pools n)) n).

Inductive early_step rl : Node -> Node -> Prop :=
| step_quiet n n' : quiet_step n n' -> early_step rl n n'
| step_reload env n : env_typed env -> early_step rl n (reload (W := W) hash64 env rl n).

Inductive node_step rl : Node -> Node -> Prop :=
| step_early n n' : early_step rl n n' -> node_step rl n n'
| step_poll env n :
    env_typed env -> node_step rl n (reload_if_certificates_changed (W := W) hash64 env rl n)
| step_shutdown n : node_step rl n (shutdown n).

(** A reload that takes a config up. *)
Definition takes_up rl n n' : Prop :=
  exists env seen, env_typed env /\ n_following n = true /\
    is_ok (load_and_apply (W := W) hash64 env (rl_config_file rl) (put_cert_files seen n)).2 = true /\
    n' = reload_locked (W := W) hash64 env rl (put_cert_files seen n).

(** The backends of [config] are checked as it says. *)
Definition checks rl (config : DynamicConfig) n : Prop :=
  forall key, (fun r => (run_check r, run_pools r)) <$> hc_tasks (n_checker n) !! key =
              wanted key (checked_pools (pools config) (rl_defaults rl)).

Record sound (config : DynamicConfig) n : Prop := {
  is_serving : node_serves config n;
  is_health : health_map_ok (n_health n);
  is_checker : checker_ok (n_checker n);
}.

(** A node serves from the same things, whatever else of it changes. *)
Lemma serves_kept config n n' : kept n n' -> node_serves config n -> node_serves config n'.
Proof.
  intros [K1 K2 K3 K4 K5 K6] [S1 S2 S3 S4 S5 S6 S7].
  constructor; rewrite ?K1, ?K2, ?K3, ?K5, ?K6; try done.
  eapply map_Forall_impl; [exact S5|]. intros id p. by apply pool_fits_gains.
Qed.

Lemma kept_refl n : kept n n.
Proof. by constructor. Qed.

Lemma kept_trans n1 n2 n3 : kept n1 n2 -> kept n2 n3 -> kept n1 n3.
Proof. intros [] []. constructor; try congruence. by eapply only_gains_trans. Qed.

Lemma load_and_apply_spec env path n :
  env_typed env -> health_map_ok (n_health n) ->
  match load_and_apply (W := W) hash64 env path n with
  | (n', Ok config) => node_serves config n' /\ health_map_ok (n_health n') /\ same_control n n'
  | (n', Err _) => kept n n' /\ n_control n' = n_control n /\ same_control n n'
  end.
Proof.
  intros Ht Hok. unfold load_and_apply, load_dynamic_config, read_config.
  destruct (re_read env path) as [text|e]; simpl; [|split; [apply kept_refl|done]].
  destruct (re_parse env text) as [config|e] eqn:Ep; simpl; [|split; [apply kept_refl|done]].
  pose proof (apply_spec env config n Hok (Ht _ _ Ep)) as H.
  destruct (apply hash64 env config n) as [n' [[]|e]]; naive_solver.
Qed.

Lemma write_cache_kept env rl config n : kept n (write_cache env rl config n).
Proof. unfold write_cache. by destruct (rl_cache_file rl). Qed.

Lemma write_cache_same env rl config n :
  n_checker (write_cache env rl config n) = n_checker n /\
  n_following (write_cache env rl config n) = n_following n.
Proof. unfold write_cache. by destruct (rl_cache_file rl). Qed.

Lemma reconcile_checks_spec rl config n :
  checker_ok (n_checker n) ->
  kept n (reconcile_checks rl config n) /\ checker_ok (n_checker (reconcile_checks rl config n)) /\
  checks rl config (reconcile_checks rl config n) /\
  n_following (reconcile_checks rl config n) = n_following n.
Proof.
  intros Hok. unfold reconcile_checks, checks.
  destruct (reconcile (checked_pools (pools config) (rl_defaults rl)) (n_checker n)) as [c left] eqn:Er.
  destruct (reconcile_tables _ _ _ _ Hok Er) as (H1 & H2 & _). split; [by constructor|done].
Qed.

(** A config is applied as if the checks of another had followed after. *)
Lemma reconcile_then_apply env rl first config n :
  apply (W := W) hash64 env config (reconcile_checks rl first n) =
  (reconcile_checks rl first (apply (W := W) hash64 env config n).1, (apply (W := W) hash64 env config n).2).
Proof.
  assert (Hl : forall left rc pc before after now c, foldl backend_left (control_installed rc pc before after now c) left =
    control_installed rc pc before after now (foldl backend_left c left)).
  { induction left as [|l left IH]; intros; [done|]. simpl. by rewrite <-IH. }
  unfold apply, reconcile_checks. destruct (reconcile _ (n_checker n)) as [c left] eqn:Er.
  cbn -[reconcile checked_pools foldl control_installed].
  destruct (prepare _ _ _ _) as [h [pr|e]]; cbn -[reconcile checked_pools foldl control_installed]; [|by rewrite Er].
  destruct (edge_stage _ _ _) as [el [staged|e]]; cbn -[reconcile checked_pools foldl control_installed]; [|by rewrite Er].
  rewrite Er. cbn -[foldl control_installed]. by rewrite Hl.
Qed.

Lemma put_cert_files_sound seen config n : sound config n -> sound config (put_cert_files seen n).
Proof. intros [Hs Hh Hc]. constructor; [|done|done]. eapply serves_kept; [|done]. by constructor. Qed.

Lemma reload_locked_sound env rl config n :
  env_typed env -> sound config n ->
  let n' := reload_locked (W := W) hash64 env rl n in
  n_following n' = n_following n /\
  match (load_and_apply (W := W) hash64 env (rl_config_file rl) n).2 with
  | Ok config' => sound config' n' /\ checks rl config' n'
  | Err _ => sound config n' /\ n_checker n' = n_checker n
  end.
Proof.
  intros Ht [Hs Hh Hc]. unfold reload_locked.
  pose proof (load_and_apply_spec env (rl_config_file rl) n Ht Hh) as H.
  destruct (load_and_apply hash64 env (rl_config_file rl) n) as [n' [config'|e]]; cbn [snd].
  - destruct H as (Hs' & Hh' & C1 & C2 & C3). cbv zeta.
    destruct (reconcile_checks_spec rl config' n') as (R1 & R2 & R3 & R4); [by rewrite C1|].
    set (n2 := reconcile_checks rl config' n') in *.
    pose proof (write_cache_kept env rl config' n2) as W1.
    destruct (write_cache_same env rl config' n2) as [W2 W3].
    set (n3 := write_cache env rl config' n2) in *.
    assert (K : kept n' n3) by (by eapply kept_trans).
    split; [simpl; congruence|]. split; [|intros key; simpl; rewrite W2; apply R3]. constructor; simpl.
    + apply (serves_kept config' n3); [by constructor|]. by eapply serves_kept.
    + by apply K.
    + by rewrite W2.
  - destruct H as (K & _ & C1 & C2 & C3). split; [done|]. split; [|done]. constructor; simpl.
    + apply (serves_kept config n'); [by constructor|]. by eapply serves_kept.
    + by apply K.
    + by rewrite C1.
Qed.

(** A reload, whatever becomes of it: the node goes on serving one config,
    and its checks follow if they did. *)
Lemma reloaded_sound env rl config n :
  env_typed env -> sound config n -> exists config', sound config' (reload_locked (W := W) hash64 env rl n) /\
    (checks rl config n -> checks rl config' (reload_locked (W := W) hash64 env rl n)).
Proof.
  intros Ht Hs. destruct (reload_locked_sound env rl config n Ht Hs) as [_ H].
  destruct (load_and_apply _ _ _ _).2 as [config'|e]; [destruct H; eauto|].
  exists config. split; [apply H|]. intros Hk key. rewrite (proj2 H). apply Hk.
Qed.

Lemma takes_up_checked rl config n n' :
  sound config n -> takes_up rl n n' -> exists config', sound config' n' /\ checks rl config' n'.
Proof.
  intros Hs (env & seen & Ht & _ & Hok & ->).
  destruct (reload_locked_sound env rl config _ Ht (put_cert_files_sound seen _ _ Hs)) as [_ H].
  destruct (load_and_apply _ _ _ _).2 as [config'|e]; [|done]. by exists config'.
Qed.

(** Serving does not depend on what a pool counts. *)
Lemma alike_fits m (p q : Pool Scheme) : alike p q -> pool_fits m p -> pool_fits m q.
Proof.
  intros Ha [Hl Hok]. split; [|by eapply alike_ok]. by destruct Ha as (c & l & i & r & -> & _).
Qed.

Lemma pool_use_alike m p q : pool_use m p q -> alike p q.
Proof.
  intros [now p0|draw key p0 q0 o Hs|g p0];
    [apply admit_alike|by eapply select_alike|apply guard_drop_alike].
Qed.

Lemma use_serves config n id p q :
  node_serves config n -> n_pools n !! id = Some p -> alike p q ->
  node_serves config (put_pools (<[id := q]> (n_pools n)) n).
Proof.
  intros [S1 S2 S3 S4 S5 S6 S7] Hp Ha. constructor; simpl; try done.
  - intros id'. specialize (S4 id'). unfold pool_set_get in *.
    destruct (decide (id = id')) as [<-|Hne]; [|by rewrite lookup_insert_ne].
    rewrite Hp in S4. rewrite lookup_insert_eq. destruct (last_spec id _); [|done].
    by destruct Ha as (c & l & i & r & -> & _).
  - apply map_Forall_insert_2; [|done]. eapply alike_fits; [done|]. by apply (S5 id).
Qed.

Lemma set_fits key status m (p : Pool Scheme) : pool_fits m p -> pool_fits (health_map_set key status m) p.
Proof.
  intros Hf. pose proof (pool_fits_gains _ _ p (proj1 (handle_gains key m)) Hf) as [Hl Hok].
  unfold health_map_set. destruct (health_map_handle key m) as [m' r]. simpl in *.
  split; [done|]. destruct Hok as (H1 & H2 & H3 & H4 & H5). split_and!; try done. simpl.
  by rewrite length_alter.
Qed.

Lemma probe_sound config n key r outcome b :
  sound config n -> sound config (probe_ended key r outcome b n).
Proof.
  intros [[S1 S2 S3 S4 S5 S6 S7] Hh Hc]. unfold probe_ended, probe_round.
  destruct (backend_health_record _ _ _ _) as [b' [status|]].
  - constructor; simpl; [|by apply (health_op_ok (OpSet key status))|done].
    constructor; simpl; try done. eapply map_Forall_impl; [exact S5|]. intros id p. apply set_fits.
  - by constructor; [constructor|..].
Qed.

Lemma stop_all_ok c : checker_ok c -> checker_ok (stop_all c).
Proof.
  intros (H1 & H2 & H3). unfold stop_all. split_and!; simpl; [done| |done].
  intros i [Hi Hn]%elem_of_difference. exfalso. apply Hn.
  destruct (H2 i Hi) as (_ & k & r & Hk & <-). apply elem_of_list_to_set, list_elem_of_fmap.
  exists (k, r). by rewrite elem_of_map_to_list.
Qed.

Lemma quiet_sound config n n' :
  quiet_step n n' -> sound config n ->
  sound config n' /\ n_checker n' = n_checker n /\ n_following n' = n_following n.
Proof.
  intros [key r outcome b n0 Hr|id p q n0 Hp Hu] Hin.
  - split; [by apply probe_sound|]. unfold probe_ended. by destruct (probe_round _ _ _ _ _ _) as [[? ?] ?].
  - split; [|done]. destruct Hin as [Hs Hh Hc]. constructor; simpl; [|done|done].
    eapply use_serves; [done|done|]. by eapply pool_use_alike.
Qed.

Lemma quiet_run_sound config n n' :
  rtc quiet_step n n' -> sound config n ->
  sound config n' /\ n_checker n' = n_checker n /\ n_following n' = n_following n.
Proof.
  induction 1 as [n|n1 n2 n3 Hs _ IH]; intros Hin; [done|].
  destruct (quiet_sound _ _ _ Hs Hin) as (H1 & H2 & H3). destruct (IH H1) as (? & ? & ?). split; [done|]. split; congruence.
Qed.

Lemma early_sound rl config n n' :
  early_step rl n n' -> sound config n ->
  n_following n' = n_following n /\ exists config', sound config' n' /\ (checks rl config n -> checks rl config' n').
Proof.
  intros [n0 n1 Hq|env n0 Ht] Hin.
  - destruct (quiet_sound _ _ _ Hq Hin) as (H1 & H2 & H3). split; [done|]. exists config. split; [done|].
    intros Hk key. rewrite H2. apply Hk.
  - unfold reload. destruct (n_following n0) eqn:Hf; [|split; [done|]; by exists config].
    split; [by rewrite (proj1 (reload_locked_sound env rl config n0 Ht Hin))|]. by apply reloaded_sound.
Qed.

Lemma early_run_sound rl config n n' :
  rtc (early_step rl) n n' -> sound config n -> n_following n' = n_following n /\ exists config', sound config' n'.
Proof.
  intros Hr. revert config. induction Hr as [n|n1 n2 n3 Hs _ IH]; intros config Hin; [split; [done|]; by exists config|].
  destruct (early_sound _ _ _ _ Hs Hin) as (H1 & config' & H2 & _). rewrite <-H1. by eapply IH.
Qed.

Lemma step_sound rl config n n' :
  node_step rl n n' -> sound config n -> exists config', sound config' n' /\
    ((n_following n = true -> checks rl config n) -> n_following n' = true -> checks rl config' n').
Proof.
  intros Hstep Hin. destruct Hstep as [n0 n1 He|env n0 Ht|n0].
  - destruct (early_sound _ _ _ _ He Hin) as (H1 & config' & H2 & H3). exists config'. rewrite H1. auto.
  - unfold reload_if_certificates_changed. destruct (n_following n0) eqn:Hf; [|exists config; cbn; split; [done|congruence]].
    destruct (changed_on_disk _ _); [|exists config; cbn; auto]. cbn [negb orb].
    destruct (reloaded_sound env rl config (put_cert_files (cert_files_refresh (re_disk env) (n_cert_files n0)) n0) Ht
      (put_cert_files_sound _ _ _ Hin)) as (config' & H1 & H2). exists config'. auto.
  - exists config. split; [|done]. destruct Hin as [Hs Hh Hc]. constructor; simpl; [|done|by apply stop_all_ok].
    eapply serves_kept; [|done]. by constructor.
Qed.

Lemma run_sound rl config n n' :
  rtc (node_step rl) n n' -> sound config n -> exists config', sound config' n' /\
    ((n_following n = true -> checks rl config n) -> n_following n' = true -> checks rl config' n').
Proof.
  intros Hr. revert config. induction Hr as [n|n1 n2 n3 Hs _ IH]; intros config Hin; [by exists config|].
  destruct (step_sound rl config n1 n2 Hs Hin) as (config' & H1 & H2). destruct (IH _ H1) as (config'' & H3 & H4).
  exists config''. auto.
Qed.

(** ** Starting *)

Lemma start_applies_sound env watched rl files el n config :
  env_typed env ->
  start_applies (W := W) hash64 env watched rl (put_listeners el (node_new files)) = (n, Ok config) ->
  sound config n /\ n_following n = true.
Proof.
  intros Ht. unfold start_applies, apply_initial. destruct watched as [[]|e]; [|done].
  set (n0 := controller_new _). assert (H0 : health_map_ok (n_health n0)) by apply health_map_new_ok.
  assert (Hend : forall c config n', checker_ok (n_checker n') -> node_serves config n' ->
            health_map_ok (n_health n') -> sound config (put_following true (put_control c n'))).
  { intros c config' n' Hc Hs Hh. constructor; [|done|done]. eapply serves_kept; [|exact Hs]. by constructor. }
  pose proof (load_and_apply_spec env (rl_config_file rl) n0 Ht H0) as H.
  destruct (load_and_apply hash64 env (rl_config_file rl) n0) as [n1 [config1|e]].
  - destruct H as (Hs & Hh & C1 & _). intros [= <- <-]. split; [|done].
    pose proof (write_cache_kept env rl config1 n1) as K.
    destruct (write_cache_same env rl config1 n1) as [W1 _]. apply Hend.
    + rewrite W1, C1. apply checker_new_ok.
    + by eapply serves_kept.
    + by apply K.
  - destruct H as (K & _ & C1 & _). destruct (rl_cache_file rl) as [cache|]; [|done].
    pose proof (load_and_apply_spec env cache n1 Ht ltac:(by apply K)) as H.
    destruct (load_and_apply hash64 env cache n1) as [n2 [config2|e']]; [|done].
    destruct H as (Hs & Hh & D1 & _). intros [= <- <-]. split; [|done]. apply Hend; [|done|done].
    rewrite D1, C1. apply checker_new_ok.
Qed.

(** What may happen while a node starts. *)
Definition meanwhile_ok rl (meanwhile : Node -> Node) : Prop := forall n, rtc (early_step rl) n (meanwhile n).

Lemma start_sound env watched meanwhile rl files el n :
  env_typed env -> meanwhile_ok rl meanwhile ->
  start (W := W) hash64 env watched meanwhile rl (put_listeners el (node_new files)) = (n, Ok ()) ->
  n_following n = true /\ (exists config, sound config n) /\
  exists m first, start_applies (W := W) hash64 env watched rl (put_listeners el (node_new files)) = (m, Ok first) /\
    sound first m /\ n = reconcile_checks rl first (meanwhile m) /\ checks rl first n.
Proof.
  intros Ht Hm. unfold start. destruct (start_applies _ _ _ _ _) as [m [first|e]] eqn:Ea; [|done].
  destruct (start_applies_sound _ _ _ _ _ _ _ Ht Ea) as [Hs Hf]. intros [= <-].
  destruct (early_run_sound rl first m _ (Hm m) Hs) as [Hf' [config [S1 S2 S3]]].
  destruct (reconcile_checks_spec rl first (meanwhile m) S3) as (R1 & R2 & R3 & R4).
  split; [congruence|]. split; [|by exists m, first]. exists config.
  constructor; [by eapply serves_kept|by apply R1|done].
Qed.

(** ** What a node in step promises its requests *)

Lemma last_spec_Some config pool :
  pool ∈ (up_id <$> pools config) <-> is_Some (last_spec pool (pool_specs (pools config))).
Proof.
  unfold last_spec. rewrite last_is_Some. rewrite list_elem_of_fmap. split.
  - intros (u & -> & Hu) Hnil. eapply (not_elem_of_nil (pool_spec u)). rewrite <- Hnil.
    apply elem_of_keep. split; [by apply list_elem_of_fmap_2|]. by apply str_eqb_eq.
  - intros Hne. destruct (keep _ _) as [|s l] eqn:Ek; [done|].
    assert (s ∈ keep (fun s => str_eqb (ps_id s) pool) (pool_specs (pools config))) as Hs
      by (rewrite Ek; constructor).
    apply elem_of_keep in Hs as [(u & -> & Hu)%list_elem_of_fmap Hid]. exists u. split; [|done].
    by apply str_eqb_eq in Hid.
Qed.

Lemma serves_route config n listener host path r pool :
  node_serves config n -> match_request (n_routes n) listener host path = Some r ->
  cr_action r = Forward pool -> is_Some (n_pools n !! pool).
Proof.
  intros [S1 -> _ S4 _ _ _] Hm Ha. rewrite compiled_finds_best in Hm.
  apply fmap_Some in Hm as (route & Hb & ->). apply min_by_elem in Hb.
  apply elem_of_keep in Hb as [Hb _]. apply elem_of_keep in Hb as [Hb _].
  pose proof (vd_routes _ S1) as Hr. rewrite Forall_forall in Hr.
  destruct (Hr route Hb) as (_ & Hp & _). specialize (Hp pool Ha). apply elem_of_list_to_set in Hp.
  apply last_spec_Some in Hp as [s Hs]. specialize (S4 pool). unfold pool_set_get in S4.
  rewrite Hs in S4. destruct (n_pools n !! pool); [eauto|done].
Qed.

Lemma fits_reads m (p : Pool Scheme) i b :
  pool_fits m p -> p_backends p !! i = Some b ->
  is_healthy m p i = Some (health_map_is_selectable (backend_key b) m).
Proof.
  intros [Hl Hok] Hb. destruct (Forall2_lookup_l _ _ _ _ _ Hl Hb) as (r & Hr & Hm).
  unfold is_healthy, health_map_is_selectable. rewrite Hr, Hm. simpl.
  destruct Hok as (_ & _ & H3 & _). rewrite Forall_lookup in H3. specialize (H3 i r Hr).
  apply lookup_lt_is_Some in H3 as [h Hh]. unfold read_handle. by rewrite Hh.
Qed.

Lemma serves_wanted rl config n id p b :
  node_serves config n -> n_pools n !! id = Some p -> b ∈ p_backends p ->
  is_Some (wanted (backend_key b) (checked_pools (pools config) (rl_defaults rl))).
Proof.
  clear hash64. intros [_ _ _ S4 _ _ _] Hp Hb. specialize (S4 id). unfold pool_set_get in S4. rewrite Hp in S4.
  destruct (last_spec id _) as [s|] eqn:Es; [|done]. destruct S4 as (_ & _ & Hbs & _).
  unfold last_spec in Es. apply last_Some in Es as [l Hl].
  assert (s ∈ pool_specs (pools config)) as (u & -> & Hu)%list_elem_of_fmap.
  { apply (elem_of_keep (fun s => str_eqb (ps_id s) id)). rewrite Hl. set_solver. }
  rewrite Hbs in Hb. simpl in Hb. apply list_elem_of_fmap in Hb as (x & -> & Hx).
  unfold wanted. destruct (pools_of _ _) as [|q qs] eqn:Eq; [|by eexists].
  exfalso. eapply (not_elem_of_nil (checked_pool (rl_defaults rl) u)). rewrite <- Eq.
  apply list_elem_of_bind. exists (checked_pool (rl_defaults rl) u). split.
  - apply list_elem_of_fmap. exists (u_host x, u_port x). split; [done|]. apply elem_of_keep.
    split; [|by apply bool_decide_eq_true]. apply list_elem_of_fmap. by exists x.
  - by apply list_elem_of_fmap_2.
Qed.

(** What requests find on a node that serves a config. *)
Lemma serves_requests config n :
  node_serves config n ->
  (forall listener host path r pool,
     match_request (n_routes n) listener host path = Some r -> cr_action r = Forward pool ->
     exists p, pool_set_get pool (n_pools n) = Some p /\
       forall draw key, is_Some (pool_select (n_health n) draw key p)) /\
  (forall id p i b, n_pools n !! id = Some p -> p_backends p !! i = Some b ->
     is_healthy (n_health n) p i = Some (health_map_is_selectable (backend_key b) (n_health n))).
Proof.
  intros Hn. split.
  - intros listener host path r pool Hm Ha. destruct (serves_route _ _ _ _ _ _ _ Hn Hm Ha) as [p Hp].
    exists p. split; [done|]. intros draw key. destruct (sv_fits _ _ Hn pool p Hp) as [_ Hok].
    destruct (select_ok (n_health n) draw key p Hok) as (p' & o & Hsel & _). eauto.
  - intros id p i b Hp Hb. apply fits_reads; [|done]. by apply (sv_fits _ _ Hn id).
Qed.

Lemma checks_everywhere rl config n id p b :
  node_serves config n -> checks rl config n -> n_pools n !! id = Some p -> b ∈ p_backends p ->
  is_Some (hc_tasks (n_checker n) !! backend_key b).
Proof.
  intros Hn Hk Hp Hb. destruct (serves_wanted rl config n id p b Hn Hp Hb) as [w Hw].
  pose proof (Hk (backend_key b)) as Hkey. rewrite Hw in Hkey. apply fmap_Some in Hkey as (r & Hr' & _). eauto.
Qed.

(** C5: From its start and through any reloads, certificate rotations, probes
    and requests, in any order and in any world, a node serves one config,
    whole and valid ([node_serves]). So a route that forwards always finds its
    pool, and selecting a backend in it never panics; and what a pool reads of
    a backend is what the health map says of it now, whatever reloads came
    between. And until the node stops following, every backend of a pool has
    its probe, with the check its config asks for, unless a reload overtook
    the end of the start: it is so when none did, and from the first reload
    on that takes up a config after the start. *)
Theorem node_in_step env watched meanwhile rl files el n0 n :
  env_typed env -> meanwhile_ok rl meanwhile ->
  start (W := W) hash64 env watched meanwhile rl (put_listeners el (node_new files)) = (n0, Ok ()) ->
  rtc (node_step rl) n0 n ->
  (exists config, node_serves config n) /\
  (forall listener host path r pool,
     match_request (n_routes n) listener host path = Some r -> cr_action r = Forward pool ->
     exists p, pool_set_get pool (n_pools n) = Some p /\
       forall draw key, is_Some (pool_select (n_health n) draw key p)) /\
  (forall id p i b, n_pools n !! id = Some p -> p_backends p !! i = Some b ->
     is_healthy (n_health n) p i = Some (health_map_is_selectable (backend_key b) (n_health n))) /\
  (n_following n = true ->
   (forall m, rtc quiet_step m (meanwhile m)) \/
   (exists n1 n2, rtc (node_step rl) n0 n1 /\ takes_up rl n1 n2 /\ rtc (node_step rl) n2 n) ->
   (exists config, node_serves config n /\ checks rl config n) /\
   forall id p b, n_pools n !! id = Some p -> b ∈ p_backends p ->
     is_Some (hc_tasks (n_checker n) !! backend_key b)).
Proof.
  intros Ht Hm Hs Hr. destruct (start_sound _ _ _ _ _ _ _ Ht Hm Hs) as (Hf & [config0 H0] & m & first & _ & Hsm & Hn0 & Hk0).
  destruct (run_sound rl config0 n0 n Hr H0) as (config & Hn & _). split; [by exists config; apply Hn|].
  destruct (serves_requests config n (is_serving _ _ Hn)) as [H1 H2]. split; [done|]. split; [done|]. intros Hfn Hwhen.
  assert (exists config, node_serves config n /\ checks rl config n) as (config' & Hn' & Hk).
  { destruct Hwhen as [Hq|(n1 & n2 & Hr1 & Htk & Hr2)].
    - destruct (quiet_run_sound first m _ (Hq m) Hsm) as ([Q1 Q2 Q3] & _ & _).
      destruct (reconcile_checks_spec rl first (meanwhile m) Q3) as (R1 & R2 & R3 & R4). rewrite <-Hn0 in *.
      destruct (run_sound rl first n0 n Hr) as (c & Hc & Hck).
      { constructor; [by eapply serves_kept|by apply R1|done]. }
      exists c. split; [apply Hc|by apply Hck].
    - destruct (run_sound rl config0 n0 n1 Hr1 H0) as (c1 & Hc1 & _).
      destruct (takes_up_checked _ _ _ _ Hc1 Htk) as (c2 & Hc2 & Hck2).
      destruct (run_sound rl c2 n2 n Hr2 Hc2) as (c & Hc & Hck). exists c. split; [apply Hc|by apply Hck]. }
  split; [by exists config'|]. intros id p b Hp Hb. by eapply checks_everywhere.
Qed.

(** C14: A reload can overtake the end of a start. The watcher is live and the
    lock free before the checks of the first config follow: if a reload takes
    up a second config in between, the node that started serves the second
    config with the checks of the first, and a backend that only the second
    names has no probe, however requests and probes go on from there. *)
Theorem start_overtaken env env' watched rl files el m first m' second :
  env_typed env -> env_typed env' ->
  start_applies (W := W) hash64 env watched rl (put_listeners el (node_new files)) = (m, Ok first) ->
  load_and_apply (W := W) hash64 env' (rl_config_file rl) m = (m', Ok second) ->
  exists n0, start (W := W) hash64 env watched (reload (W := W) hash64 env' rl) rl (put_listeners el (node_new files)) =
      (n0, Ok ()) /\
    forall n, rtc quiet_step n0 n ->
      n_following n = true /\ node_serves second n /\ checks rl first n /\
      forall b, wanted (backend_key b) (checked_pools (pools first) (rl_defaults rl)) = None ->
        hc_tasks (n_checker n) !! backend_key b = None.
Proof.
  intros Ht Ht' Ha Hl. destruct (start_applies_sound _ _ _ _ _ _ _ Ht Ha) as [Hs Hf].
  unfold start. rewrite Ha. eexists. split; [done|]. intros n Hr.
  destruct (reload_locked_sound env' rl first m Ht' Hs) as [F H]. rewrite Hl in H. destruct H as [[S1 S2 S3] _].
  unfold reload in Hr. rewrite Hf in Hr, F.
  destruct (reconcile_checks_spec rl first _ S3) as (R1 & R2 & R3 & R4).
  destruct (quiet_run_sound second _ n Hr) as (Q1 & Q2 & Q3).
  { constructor; [by eapply serves_kept|by apply R1|done]. }
  split; [congruence|]. split; [apply Q1|].
  assert (Hk : checks rl first n) by (intros key; rewrite Q2; apply R3). split; [done|].
  intros b Hb. specialize (Hk (backend_key b)). rewrite Hb in Hk. by apply fmap_None in Hk.
Qed.
End Facts.

(** ** Examples *)

Definition example_dynamic : DynamicConfig :=
  mkDynamicConfig [mkCertEntry [lit "example.org"] true (lit "a.crt") (lit "a.key")]
    [mkListener (lit "web") (V4 [0; 0; 0; 0]) 443 ListenHttps]
    [mkRoute (lit "all") (lit "web") (lit "*") (lit "/") (Forward (lit "app"))]
    [mkUpstreamPool (lit "app") SchemeHttp LbRoundRobin [mkUpstream (lit "10.0.0.1") 80 1] None None None].

Definition example_reload_env : ReloadEnv (I := unit) (P := unit) (E := unit) :=
  mkReloadEnv (fun path => Ok path) (fun _ => Ok example_dynamic) (fun _ _ => Ok 1700000000)
    (fun _ => None) (mkOs (fun _ => Ok 3%nat) (fun _ => Ok ()) (fun _ => None)) 1600000000
    (mkCacheIo (fun _ => Some (lit "{}")) Written true).

Definition example_reloader : Reloader :=
  mkReloader (lit "dynamic.json") (Some (lit "cache.json")) health_check_default.

Definition example_hash64 (s : str) (i : Z) : Z := Z.of_nat (length s) + i.

Lemma example_env_typed : env_typed example_reload_env.
Proof. intros text config [= <-]. repeat constructor; done. Qed.

Lemma apply_all_or_nothing_witness :
  exists n, apply (W := unit) example_hash64 example_reload_env example_dynamic (node_new ∅) = (n, Ok ()) /\
    node_serves (I := unit) example_dynamic n.
Proof.
  assert (Hd : is_ok (apply (W := unit) example_hash64 example_reload_env example_dynamic (node_new ∅)).2 = true)
    by (vm_compute; reflexivity).
  pose proof (apply_all_or_nothing (W := unit) example_hash64 example_reload_env example_dynamic (node_new ∅)
    (health_map_new_ok true) (example_env_typed [] _ eq_refl)) as H.
  destruct (apply example_hash64 example_reload_env example_dynamic (node_new ∅)) as [n [[]|e]]; [|done].
  by exists n.
Defined.

Lemma reload_meanwhile_ok (env : ReloadEnv (I := unit) (P := unit) (E := unit)) : env_typed env ->
  meanwhile_ok (I := unit) (P := unit) (E := unit) (W := unit) example_hash64 example_reloader (reload (W := unit) example_hash64 env example_reloader).
Proof. intros Ht n. by apply rtc_once, step_reload. Qed.

(** The node starts, a reload overtaking it, and reloads once more. *)
Lemma node_in_step_witness :
  exists n0, start (W := unit) example_hash64 example_reload_env (Ok ())
               (reload (W := unit) example_hash64 example_reload_env example_reloader) example_reloader
               (put_listeners edge_new (node_new ∅)) = (n0, Ok ()) /\
  let n := reload (W := unit) example_hash64 example_reload_env example_reloader n0 in
  (exists config, node_serves (I := unit) config n) /\
  forall id p b, n_pools n !! id = Some p -> b ∈ p_backends p -> is_Some (hc_tasks (n_checker n) !! backend_key b).
Proof.
  set (meanwhile := reload (W := unit) example_hash64 example_reload_env example_reloader).
  assert (Hd : match start (W := unit) example_hash64 example_reload_env (Ok ()) meanwhile example_reloader
                        (put_listeners edge_new (node_new ∅)) with
               | (n0, Ok _) => n_following n0 && n_following (meanwhile n0) &&
                   is_ok (load_and_apply (W := unit) example_hash64 example_reload_env (rl_config_file example_reloader)
                            (put_cert_files (n_cert_files n0) n0)).2
               | _ => false end = true) by (vm_compute; reflexivity).
  destruct (start example_hash64 example_reload_env (Ok ()) meanwhile example_reloader
              (put_listeners edge_new (node_new ∅))) as [n0 [[]|e]] eqn:Es; [|done].
  apply andb_prop in Hd as [[Hf0 Hf]%andb_prop Hok].
  exists n0. split; [done|].
  destruct (node_in_step (W := unit) example_hash64 example_reload_env (Ok ()) meanwhile example_reloader ∅ edge_new n0
    (meanwhile n0) example_env_typed (reload_meanwhile_ok _ example_env_typed) Es
    (rtc_once _ _ (step_early _ _ _ _ (step_reload example_hash64 example_reloader example_reload_env n0 example_env_typed))))
    as (Hs & _ & _ & Hk).
  split; [exact Hs|]. apply (Hk Hf). right. exists n0, (meanwhile n0). split; [apply rtc_refl|]. split; [|apply rtc_refl].
  exists example_reload_env, (n_cert_files n0). split; [exact example_env_typed|]. split; [exact Hf0|]. split; [exact Hok|].
  unfold meanwhile, reload. rewrite Hf0. by destruct n0.
Defined.

(** The same config with another backend. *)
Definition other_dynamic : DynamicConfig :=
  mkDynamicConfig (certificates example_dynamic) (listeners example_dynamic) (routes example_dynamic)
    [mkUpstreamPool (lit "app") SchemeHttp LbRoundRobin [mkUpstream (lit "10.0.0.2") 80 1] None None None].

Definition other_reload_env : ReloadEnv (I := unit) (P := unit) (E := unit) :=
  mkReloadEnv (re_read example_reload_env) (fun _ => Ok other_dynamic) (re_load example_reload_env)
    (re_disk example_reload_env) (re_os example_reload_env) 1600000001 (re_cache example_reload_env).

Lemma other_env_typed : env_typed other_reload_env.
Proof. intros text config [= <-]. repeat constructor; done. Qed.

Lemma start_overtaken_witness :
  exists n0, start (W := unit) example_hash64 example_reload_env (Ok ())
               (reload (W := unit) example_hash64 other_reload_env example_reloader) example_reloader
               (put_listeners edge_new (node_new ∅)) = (n0, Ok ()) /\
    node_serves (I := unit) other_dynamic n0 /\ n_following n0 = true /\
    hc_tasks (n_checker n0) !! (lit "10.0.0.2", 80) = None.
Proof.
  assert (Hd : match start_applies (W := unit) example_hash64 example_reload_env (Ok ()) example_reloader
                        (put_listeners edge_new (node_new ∅)) with
               | (m, Ok first) => Some (first, (load_and_apply (W := unit) example_hash64 other_reload_env
                            (rl_config_file example_reloader) m).2)
               | _ => None end = Some (example_dynamic, Ok other_dynamic)) by (vm_compute; reflexivity).
  destruct (start_applies example_hash64 example_reload_env (Ok ()) example_reloader
              (put_listeners edge_new (node_new ∅))) as [m [first|e]] eqn:Es; [|discriminate Hd].
  destruct (load_and_apply example_hash64 other_reload_env (rl_config_file example_reloader) m) as [m' r] eqn:El.
  cbn [snd] in Hd. injection Hd as -> ->.
  destruct (start_overtaken (W := unit) example_hash64 example_reload_env other_reload_env (Ok ()) example_reloader ∅ edge_new
    m example_dynamic m' other_dynamic example_env_typed other_env_typed Es El) as (n0 & H0 & H).
  exists n0. split; [exact H0|]. destruct (H n0 (rtc_refl _ n0)) as (H1 & H2 & _ & H3).
  split; [exact H2|]. split; [exact H1|]. apply (H3 (mkBackend (lit "10.0.0.2") 80 1)). vm_compute. reflexivity.
Defined.

(** A cache file whose name already ends in [.tmp] is written in place: a
    write that fails half-way leaves half a cache. *)
Example cache_named_tmp_is_not_atomic :
  let io := mkCacheIo (fun _ => Some (lit "{ }")) (WriteFailed (Some (lit "{"))) true in
  (cache_write io (lit "gfe.tmp") example_dynamic {[lit "gfe.tmp" := lit "{}"]}).1 !! lit "gfe.tmp" =
  Some (lit "{").
Proof. vm_compute. reflexivity. Qed.
