(* ===== verification/Series.v ===== *)
(** * The series of a node: what its requests count, and under which labels

    Serving requests ([Forward]) counts events; here they become what
    [record.rs] and [forward.rs] add to the families of
    [metrics/proxy.rs] ([Metrics]). However many clients there are and
    whatever they send, the series are those the config allows. *)

From S2P Require Import Prelude Str Net LoadBalancing Config Routing Http Request Forward Listen.
From S2P Require Import Tls Reload Metrics.
From Stdlib Require Import Ascii.
#[local] Open Scope string_scope.
#[local] Open Scope list_scope.
#[local] Open Scope Z_scope.

(** A series: a family and the values of its labels. An update adds to one;
    an observation of a histogram adds one to its count. *)
Notation Series := (string * list str)%type.
Notation Update := (Series * Z)%type.

(** [RequestRecord::report]: what a finished request adds. *)
Definition report_updates (rp : Report) : list Update :=
  let r := rp_record rp in
  let per_route := [rr_listener r; rp_vhost rp; rp_route rp] in
  [(("gfe_requests", per_route ++ [decimal (rp_status rp)]), 1);
   (("gfe_request_duration_seconds", per_route), 1);
   (("gfe_request_body_bytes", per_route), rr_request_bytes r);
   (("gfe_response_body_bytes", per_route), rr_response_bytes r)] ++
  match rr_grpc_status r with
  | Some status => [(("gfe_grpc_responses", per_route ++ [decimal status]), 1)]
  | None => []
  end ++
  match rp_aborted_by rp with
  | Some by_ => [(("gfe_requests_aborted", per_route ++ [by_]), 1)]
  | None => []
  end.

Definition event_updates (e : Event) : list Update :=
  match e with
  | RequestsInFlight delta => [(("gfe_requests_in_flight", []), delta)]
  | UpstreamInFlight g delta => [(("gfe_upstream_requests_in_flight", [g.1; g.2]), delta)]
  | NoRouteCounted => [(("gfe_no_route", []), 1)]
  | PoolFullCounted pool => [(("gfe_upstream_pool_full", [pool]), 1)]
  | PoolRateLimitedCounted pool => [(("gfe_upstream_pool_rate_limited", [pool]), 1)]
  | NoHealthyUpstreamCounted => [(("gfe_no_healthy_upstream", []), 1)]
  | RetriesCounted pool => [(("gfe_upstream_retries", [pool]), 1)]
  | DurationObserved g => [(("gfe_upstream_request_duration_seconds", [g.1; g.2]), 1)]
  | UpstreamRequests g status => [(("gfe_upstream_requests", [g.1; g.2; decimal status]), 1)]
  | UpstreamErrors g kind => [(("gfe_upstream_errors", [g.1; g.2; kind]), 1)]
  | ConnectErrorsCounted => [(("gfe_upstream_connect_errors", []), 1)]
  | Reported rp => report_updates rp
  end.

Definition updates (events : list Event) : list Update := events ≫= event_updates.

(** What was added to the series of a family that [which] takes. *)
Definition added (family : string) (which : list str -> bool) (us : list Update) : Z :=
  sum_list ((fun u => if String.eqb u.1.1 family && which u.1.2 then u.2 else 0) <$> us).

(** ** The series a config allows *)

Definition statuses : list str := (fun n => decimal (Z.of_nat n)) <$> seq 100 900.
Definition grpc_statuses : list str := (fun n => decimal (Z.of_nat n)) <$> seq 0 17.

Definition failure_kinds : list str :=
  kind_as_str <$> [ConnectTimeout; ConnectRefused; ConnectError; TlsFailure; Reset; ConnectionLimit;
                   Timeout; OtherFailure].

(** The route's labels: those of the config's routes, and of no route. *)
Definition route_labels (config : DynamicConfig) : list (str * str) :=
  (NO_ROUTE, NO_ROUTE) :: ((fun r => (trim (r_host r), r_id r)) <$> routes config).

Definition pool_backends (u : UpstreamPool) : list Backend :=
  (fun x => mkBackend (u_host x) (u_port x) (u_weight x)) <$> up_upstreams u.

Definition backend_labels (config : DynamicConfig) : list (str * str) :=
  pools config ≫= fun u => (fun b => (up_id u, authority b)) <$> pool_backends u.

Definition config_series (config : DynamicConfig) (listener : str) : list Series :=
  [("gfe_requests_in_flight", []); ("gfe_no_route", []); ("gfe_no_healthy_upstream", []);
   ("gfe_upstream_connect_errors", [])] ++
  (route_labels config ≫= fun '(vhost, route) =>
     let per_route := [listener; vhost; route] in
     [("gfe_request_duration_seconds", per_route); ("gfe_request_body_bytes", per_route);
      ("gfe_response_body_bytes", per_route)] ++
     ((fun s => ("gfe_requests", per_route ++ [s])) <$> statuses) ++
     ((fun s => ("gfe_grpc_responses", per_route ++ [s])) <$> grpc_statuses) ++
     ((fun by_ => ("gfe_requests_aborted", per_route ++ [by_])) <$> [lit "client"; lit "upstream"])) ++
  ((up_id <$> pools config) ≫= fun pool =>
     [("gfe_upstream_pool_full", [pool]); ("gfe_upstream_pool_rate_limited", [pool]);
      ("gfe_upstream_retries", [pool])]) ++
  (backend_labels config ≫= fun '(pool, backend) =>
     [("gfe_upstream_requests_in_flight", [pool; backend]);
      ("gfe_upstream_request_duration_seconds", [pool; backend])] ++
     ((fun s => ("gfe_upstream_requests", [pool; backend; s])) <$> statuses) ++
     ((fun k => ("gfe_upstream_errors", [pool; backend; k])) <$> failure_kinds)).

Lemma decimal_in_range lo n len : (lo <= n < lo + len)%nat ->
  decimal (Z.of_nat n) ∈ (fun n => decimal (Z.of_nat n)) <$> seq lo len.
Proof. intros Hn. apply (list_elem_of_fmap_2 (fun n => decimal (Z.of_nat n))), elem_of_seq. lia. Qed.

Lemma status_listed s : 100 <= s <= 999 -> decimal s ∈ statuses.
Proof. intros Hs. rewrite <-(Z2Nat.id s) by lia. apply decimal_in_range. lia. Qed.

Lemma grpc_status_listed s : 0 <= s <= 16 -> decimal s ∈ grpc_statuses.
Proof. intros Hs. rewrite <-(Z2Nat.id s) by lia. apply decimal_in_range. lia. Qed.

Lemma kind_listed k : kind_as_str k ∈ failure_kinds.
Proof. apply list_elem_of_fmap_2. destruct k; set_solver. Qed.

#[local] Opaque statuses grpc_statuses failure_kinds decimal.

(** An element written out in a list. *)
Ltac listed := cbn [app fst]; solve [repeat first [apply list_elem_of_here | apply list_elem_of_further]].

Section Known.
Context (config : DynamicConfig) (listener : str).
Context `{L : HttpLib} (hash_ip : IpAddr -> Z).
Implicit Types (w : World) (r : RequestRecord).

(** What the labels of an event may be. *)
Record report_known (rp : Report) : Prop := {
  rk_listener : rr_listener (rp_record rp) = listener;
  rk_route : (rp_vhost rp, rp_route rp) ∈ route_labels config;
  rk_status : 100 <= rp_status rp <= 999;
  rk_grpc : forall s, rr_grpc_status (rp_record rp) = Some s -> 0 <= s <= 16;
  rk_aborted : forall b, rp_aborted_by rp = Some b -> b ∈ [lit "client"; lit "upstream"];
}.

Definition event_known (e : Event) : Prop :=
  match e with
  | UpstreamInFlight g _ | DurationObserved g => g ∈ backend_labels config
  | UpstreamRequests g s => g ∈ backend_labels config /\ 100 <= s <= 999
  | UpstreamErrors g k => g ∈ backend_labels config /\ k ∈ failure_kinds
  | PoolFullCounted p | PoolRateLimitedCounted p | RetriesCounted p => p ∈ up_id <$> pools config
  | Reported rp => report_known rp
  | _ => True
  end.

Lemma report_series rp :
  report_known rp -> Forall (fun u => u.1 ∈ config_series config listener) (report_updates rp).
Proof.
  intros [Hl Hr Hs Hg Ha]. unfold report_updates. rewrite Hl.
  assert (forall s, s ∈ (let per_route := [listener; rp_vhost rp; rp_route rp] in
     [("gfe_request_duration_seconds", per_route); ("gfe_request_body_bytes", per_route);
      ("gfe_response_body_bytes", per_route)] ++
     ((fun s => ("gfe_requests", per_route ++ [s])) <$> statuses) ++
     ((fun s => ("gfe_grpc_responses", per_route ++ [s])) <$> grpc_statuses) ++
     ((fun by_ => ("gfe_requests_aborted", per_route ++ [by_])) <$> [lit "client"; lit "upstream"])) ->
     s ∈ config_series config listener) as Hin.
  { intros s Hs'. apply elem_of_app. right. apply elem_of_app. left. apply list_elem_of_bind.
    by exists (rp_vhost rp, rp_route rp). }
  apply Forall_app. split; [|apply Forall_app; split].
  - repeat apply Forall_cons_2; try apply Forall_nil_2; apply Hin; [|listed..].
    apply elem_of_app. right. apply elem_of_app. left.
    by apply (list_elem_of_fmap_2 (fun s => ("gfe_requests", _ ++ [s]))), status_listed.
  - destruct (rr_grpc_status _) as [s|]; [|done]. apply Forall_singleton, Hin.
    apply elem_of_app. right. apply elem_of_app. right. apply elem_of_app. left.
    by apply (list_elem_of_fmap_2 (fun s => ("gfe_grpc_responses", _ ++ [s]))), grpc_status_listed, Hg.
  - destruct (rp_aborted_by rp) as [b|]; [|done]. apply Forall_singleton, Hin.
    apply elem_of_app. right. apply elem_of_app. right. apply elem_of_app. right.
    by apply (list_elem_of_fmap_2 (fun b => ("gfe_requests_aborted", _ ++ [b]))), Ha.
Qed.

Lemma backend_series g s :
  g ∈ backend_labels config ->
  s ∈ [("gfe_upstream_requests_in_flight", [g.1; g.2]);
       ("gfe_upstream_request_duration_seconds", [g.1; g.2])] ++
      ((fun s => ("gfe_upstream_requests", [g.1; g.2; s])) <$> statuses) ++
      ((fun k => ("gfe_upstream_errors", [g.1; g.2; k])) <$> failure_kinds) ->
  s ∈ config_series config listener.
Proof.
  intros Hg Hs. do 3 (apply elem_of_app; right). apply list_elem_of_bind. exists g. by destruct g.
Qed.

Lemma pool_series p s :
  p ∈ up_id <$> pools config ->
  s ∈ [("gfe_upstream_pool_full", [p]); ("gfe_upstream_pool_rate_limited", [p]);
       ("gfe_upstream_retries", [p])] ->
  s ∈ config_series config listener.
Proof.
  intros Hp Hs. do 2 (apply elem_of_app; right). apply elem_of_app. left. apply list_elem_of_bind. by exists p.
Qed.

(** An event with known labels updates series of the config. *)
Lemma event_series e :
  event_known e -> Forall (fun u => u.1 ∈ config_series config listener) (event_updates e).
Proof.
  assert (forall s, s ∈ [("gfe_requests_in_flight", []); ("gfe_no_route", []); ("gfe_no_healthy_upstream", []);
     ("gfe_upstream_connect_errors", [])] -> s ∈ config_series config listener) as Hfixed.
  { intros s Hs. apply elem_of_app. by left. }
  destruct e as [d|g d| |p|p| |p|g|g s|g k| |rp]; cbn [event_known event_updates];
    try (intros _; apply Forall_singleton, Hfixed; listed);
    try (intros Hp; apply Forall_singleton, (pool_series _ _ Hp); listed).
  - intros Hg. apply Forall_singleton, (backend_series _ _ Hg). listed.
  - intros Hg. apply Forall_singleton, (backend_series _ _ Hg). listed.
  - intros [Hg Hs]. apply Forall_singleton, (backend_series _ _ Hg). apply elem_of_app. right.
    apply elem_of_app. left.
    by apply (list_elem_of_fmap_2 (fun s => ("gfe_upstream_requests", [_; _; s]))), status_listed.
  - intros [Hg Hk]. apply Forall_singleton, (backend_series _ _ Hg). apply elem_of_app. right.
    apply elem_of_app. right. by apply (list_elem_of_fmap_2 (fun k => ("gfe_upstream_errors", [_; _; k]))).
  - apply report_series.
Qed.

(** ** Serving a request counts under known labels *)

Definition pool_known (p : Pool Scheme) : Prop :=
  exists u, u ∈ pools config /\ p_id p = up_id u /\ p_backends p = pool_backends u.

Record record_known r : Prop := {
  rn_listener : rr_listener r = listener;
  rn_route : forall c, rr_route r = Some c -> (cr_host c, cr_id c) ∈ route_labels config;
  rn_status : forall s, rr_status r = Some s -> 100 <= s <= 999;
  rn_grpc : forall s, rr_grpc_status r = Some s -> 0 <= s <= 16;
  rn_busy : forall b, busy_of r = Some b -> bb_gauge b ∈ backend_labels config;
}.

Record world_known w : Prop := {
  wn_events : Forall event_known (w_events w);
  wn_pool : forall p, w_pool w = Some p -> pool_known p;
}.

Lemma pool_known_alike p q : alike p q -> pool_known p -> pool_known q.
Proof. by intros (c & l & i & rate & -> & _). Qed.

Lemma pool_known_id p : pool_known p -> p_id p ∈ up_id <$> pools config.
Proof. intros (u & Hu & -> & _). by apply list_elem_of_fmap_2. Qed.

Lemma pool_known_backend p b :
  pool_known p -> b ∈ p_backends p -> (p_id p, authority b) ∈ backend_labels config.
Proof.
  intros (u & Hu & -> & Hb) Hin. rewrite Hb in Hin. apply list_elem_of_bind. exists u. split; [|done].
  by apply (list_elem_of_fmap_2 (fun b => (up_id u, authority b))).
Qed.

Lemma selected_backend m draw key (p q : Pool Scheme) sel :
  pool_select m draw key p = Some (q, Some sel) -> sel_backend sel ∈ p_backends p.
Proof.
  unfold pool_select. destruct (healthy_indices m p) as [[|i l]|]; [done| |done].
  destruct (choose draw key (i :: l) p) as [[p' idx]|] eqn:C; [|done].
  apply choose_keeps in C as [c ->]. cbn [p_backends set_counters].
  destruct (p_backends p !! idx) as [b|] eqn:Hb; [|done]. apply list_elem_of_lookup_2 in Hb.
  case_bool_decide; [destruct (p_inflight _ !! idx); [|done]|]; by intros [= <- <-].
Qed.

Lemma known_emit e w : event_known e -> world_known w -> world_known (emit e w).
Proof. intros He [H1 H2]. constructor; [|done]. apply Forall_app. by split; [|apply Forall_singleton]. Qed.

Lemma known_put_pool p w : pool_known p -> world_known w -> world_known (put_pool p w).
Proof. intros Hp [H1 H2]. constructor; [done|]. by intros q [= <-]. Qed.

Lemma known_same w w' :
  w_events w' = w_events w -> w_pool w' = w_pool w -> world_known w -> world_known w'.
Proof. intros He Hp [H1 H2]. constructor; [by rewrite He|by rewrite Hp]. Qed.

Lemma known_drop_guard g w : world_known w -> world_known (drop_guard g w).
Proof.
  intros Hw. unfold drop_guard. destruct (w_pool w) as [p|] eqn:E; [|done]. apply known_put_pool; [|done].
  eapply pool_known_alike; [apply guard_drop_alike|]. by apply (wn_pool _ Hw).
Qed.

Lemma known_admitted_drop w : world_known w -> world_known (admitted_drop w).
Proof.
  intros Hw. unfold admitted_drop. destruct (w_admitted w) as [[g refs]|]; [|done].
  destruct (refs =? 1); [apply known_drop_guard|]; by eapply known_same; [..|exact Hw].
Qed.

Lemma known_drop_busy busy w :
  (forall b, busy = Some b -> bb_gauge b ∈ backend_labels config) ->
  world_known w -> world_known (drop_busy busy w).
Proof.
  intros Hb Hw. destruct busy as [b|]; [|done].
  apply known_admitted_drop, known_drop_guard, known_emit; [by apply Hb|done].
Qed.

Lemma known_busy_new g gauge w :
  gauge ∈ backend_labels config -> world_known w -> world_known (busy_new g gauge w).1.
Proof.
  intros Hg Hw. apply known_emit; [done|]. unfold admitted_clone.
  destruct (w_admitted w) as [[]|]; [|done]. by eapply known_same; [..|exact Hw].
Qed.

Lemma record_known_same r r' :
  rr_listener r' = rr_listener r -> rr_route r' = rr_route r -> rr_status r' = rr_status r ->
  rr_grpc_status r' = rr_grpc_status r -> (busy_of r' = busy_of r \/ busy_of r' = None) ->
  record_known r -> record_known r'.
Proof.
  intros H1 H2 H3 H4 H5 [K1 K2 K3 K4 K5]. constructor; rewrite ?H1, ?H2, ?H3, ?H4; try done.
  intros b Hb. destruct H5 as [H5|H5]; rewrite H5 in Hb; [by apply K5|done].
Qed.

Lemma known_attempting backend b r w :
  bb_gauge b ∈ backend_labels config -> record_known r -> world_known w ->
  world_known (record_attempting backend b r w).1 /\ record_known (record_attempting backend b r w).2.
Proof.
  intros Hb Hr Hw. unfold record_attempting. destruct (rr_upstream r) as [u|] eqn:Hu; cbn [fst snd].
  - split.
    + apply known_drop_busy; [|done]. intros b' Hb'. apply (rn_busy _ Hr). unfold busy_of. by rewrite Hu.
    + destruct Hr. constructor; try done. by intros b' [= <-].
  - split; [|done]. apply (known_drop_busy (Some b)); [by intros ? [= <-]|done].
Qed.

Lemma known_failed reason r w :
  record_known r -> world_known w ->
  world_known (record_failed reason r w).1 /\ record_known (record_failed reason r w).2.
Proof.
  intros Hr Hw. unfold record_failed. simpl. destruct (rr_upstream r) as [u|] eqn:Hu; cbn [fst snd].
  - split.
    + apply known_drop_busy; [|done]. intros b' Hb'. apply (rn_busy _ Hr). unfold busy_of. by rewrite Hu.
    + eapply record_known_same; [..|exact Hr]; try done. by right.
  - split; [done|]. eapply record_known_same; [..|exact Hr]; try done. by right.
Qed.

(** What a backend answers with has the status of a response. *)
Definition answers_typed (env : nat -> AttemptEnv) : Prop :=
  forall i response, ae_result (env i) = Ok response -> 100 <= rs_status response <= 999.

Lemma known_attempt_failed a kind attempts gauge w :
  gauge ∈ backend_labels config -> world_known w -> world_known (attempt_failed a kind attempts gauge w).1.
Proof.
  intros Hg Hw. unfold attempt_failed.
  assert (world_known (emit (UpstreamErrors gauge (kind_as_str kind)) w)) as H1.
  { apply known_emit; [|done]. split; [done|apply kind_listed]. }
  destruct (negb _); [done|]. cbn [fst]. apply known_emit; [split; [done|lia]|]. by apply known_emit.
Qed.

Lemma known_attempt (again : bool) pool g gauge backend sent bytes r w w1 busy w2 r2 :
  pool ∈ up_id <$> pools config -> gauge ∈ backend_labels config -> record_known r -> world_known w ->
  busy_new g gauge (if again then emit (RetriesCounted pool) w else w) = (w1, busy) ->
  record_attempting backend busy r w1 = (w2, r2) ->
  world_known (send sent w2) /\ record_known (set_request_bytes bytes r2).
Proof.
  intros Hp Hg Hr Hw Eb Ea.
  assert (world_known (if again then emit (RetriesCounted pool) w else w)) as Hw0
    by (destruct again; [by apply known_emit|done]).
  pose proof (known_busy_new g gauge _ Hg Hw0) as Hw1. rewrite Eb in Hw1.
  assert (bb_gauge busy = gauge) as Hbg by (by injection Eb as _ <-).
  pose proof (known_attempting backend busy r w1 ltac:(by rewrite Hbg) Hr Hw1) as [Hw2 Hr2].
  rewrite Ea in Hw2, Hr2. split.
  - by eapply known_same; [..|exact Hw2].
  - eapply record_known_same; [..|exact Hr2]; auto.
Qed.

Definition result_typed (res : result Response Unanswered) : Prop :=
  match res with Ok response => 100 <= rs_status response <= 999 | Err _ => True end.

Lemma loop_known fuel env a attempts headers streamed r w w' r' res :
  answers_typed env -> record_known r -> world_known w ->
  forward_loop fuel env a attempts headers streamed r w = Some (w', r', res) ->
  world_known w' /\ record_known r' /\ result_typed res.
Proof.
  intros Ht. revert attempts headers streamed r w.
  induction fuel as [|fuel IH]; intros attempts headers streamed r w Hr Hw; [done|].
  cbn [forward_loop]. destruct (w_pool w) as [p|] eqn:Ep; [|done]. set (e := env attempts).
  assert (pool_known (meanwhile (ae_meanwhile e) p)) as Hp.
  { eapply pool_known_alike; [apply meanwhile_alike|]. by apply (wn_pool _ Hw). }
  destruct (pool_select _ _ _ _) as [[q [sel|]]|] eqn:Es; [| |done];
    pose proof (pool_known_alike _ _ (select_alike _ _ _ _ _ _ Es) Hp) as Hq.
  2: { intros [= <- <- <-]. split; [|done]. apply known_emit; [done|]. by apply known_put_pool. }
  set (gauge := (p_id q, authority (sel_backend sel))).
  assert (gauge ∈ backend_labels config) as Hg.
  { apply selected_backend in Es as Hb. apply select_alike in Es as (? & ? & ? & ? & -> & _).
    by apply (pool_known_backend (meanwhile (ae_meanwhile e) p)). }
  destruct (busy_new _ _ _) as [w1 busy] eqn:Eb. destruct (record_attempting _ _ _ _) as [w2 r2] eqn:Ea.
  set (ws := send _ w2). set (r3 := set_request_bytes _ r2).
  assert (world_known ws /\ record_known r3) as [Hws Hr3].
  { eapply known_attempt; [by apply pool_known_id|exact Hg|exact Hr| |exact Eb|exact Ea].
    by apply known_put_pool. }
  clearbody ws r3. destruct (ae_cancelled e); [by intros [= <- <- <-]|].
  set (w3 := emit _ ws). assert (world_known w3) as Hw3 by (by apply known_emit). clearbody w3. destruct (negb _ && _).
  { destruct (sp_waiting_for_client _); intros [= <- <- <-]; [done|]. split; [|done].
    apply known_emit; [split; [done|lia]|]. apply known_emit; [|done]. split; [done|apply (kind_listed Timeout)]. }
  destruct (ae_result e) as [backend|failure] eqn:Er.
  { intros [= <- <- <-]. split; [apply known_emit; [split; [done|by apply (Ht attempts)]|done]|].
    split; [|exact (Ht attempts backend Er)].
    unfold record_upstream_responded. destruct (rr_upstream r3) as [u|] eqn:Hu; [|done].
    eapply record_known_same; [..|exact Hr3]; try done. left. unfold busy_of. simpl. by rewrite Hu. }
  destruct (sp_client_failed _); [by intros [= <- <- <-]|].
  pose proof (known_attempt_failed a (classify failure) (Z.of_nat (S attempts)) gauge w3 Hg Hw3) as Hw4.
  destruct (attempt_failed _ _ _ _ _) as [w4 [unanswered|]]; [by intros [= <- <- <-]|]. by apply IH.
Qed.

Lemma forward_known env st conn p now rq has_body r w w' r' res :
  answers_typed env -> record_known r -> world_known w -> pool_known p ->
  forward hash_ip env st conn p now rq has_body r w = Some (w', r', res) ->
  world_known w' /\ record_known r' /\ result_typed res.
Proof.
  intros Ht Hr Hw Hp. pose proof (known_put_pool p w Hp Hw) as Hw1. unfold forward.
  destruct (negb _); [by intros [= <- <- <-]|]. destruct (asks_for_upgrade _); [by intros [= <- <- <-]|].
  assert (record_known (record_forwarding_to (p_id p) r)) as Hr1
    by (eapply record_known_same; [..|exact Hr]; auto).
  pose proof (admit_alike now p) as Ha.
  destruct (pool_admit now p) as [q [guard|limit]]; cbn [fst] in Ha;
    pose proof (pool_known_alike _ _ Ha Hp) as Hq.
  - destruct (forward_loop _ _ _ _ _ _ _ _) as [[[w2 r2] res2]|] eqn:El; [|done].
    intros [= <- <- <-]. eapply loop_known in El as (Hw2 & Hr2 & Hres); [|done..|].
    + split; [by apply known_admitted_drop|done].
    + by eapply (known_same (put_pool q w)); [..|apply known_put_pool].
  - destruct limit; intros [= <- <- <-]; (split; [|done]); apply known_emit;
      (by apply pool_known_id) || by apply known_put_pool.
Qed.

(** ** From a request to the end of its exchange *)

Definition handled_known (h : Handled) : Prop :=
  match h with Observed _ r => record_known r | Abandoned _ | Vanished => True end.

Lemma grpc_status_range headers s : grpc_status headers = Some s -> 0 <= s <= 16.
Proof.
  unfold grpc_status. destruct (_ ≫= _) as [n|] eqn:E; [|done]. case_if; [|done]. intros [= <-]. bool_facts.
  apply bind_Some in E as (text & _ & E). apply parse_unsigned_range in E. unfold MAX_GRPC_STATUS in *. lia.
Qed.

Lemma status_from_u16_range d n : 100 <= d <= 999 -> 100 <= unwrap_or d (status_from_u16 n) <= 999.
Proof. intros Hd. unfold status_from_u16. case_if; simpl; bool_facts; lia. Qed.

Lemma answer_status status content id : an_status (answer status content id) = status.
Proof. unfold answer, with_text_header. by destruct (value_of_str id). Qed.

Lemma refusal_range why id grpc : 100 <= an_status (refusal why id grpc) <= 999.
Proof.
  assert (100 <= refusal_status why <= 999) by (destruct why as [| | | | | | | | | | |[]]; done).
  unfold refusal. destruct grpc.
  - unfold grpc_failure, with_text_header, with_header.
    by destruct (value_of_str _); cbn [an_status]; rewrite answer_status.
  - unfold synthetic, with_header. destruct (refusal_retry_after why); cbn [an_status]; by rewrite answer_status.
Qed.

Lemma known_respond response r :
  100 <= rs_status response <= 999 -> record_known r -> handled_known (respond_with response r).
Proof.
  intros Hs [K1 K2 K3 K4 K5]. unfold respond_with, handled_known, record_respond, note_if_ended.
  assert (forall t r', record_known r' -> record_known (set_termination t r')) as Ht
    by (intros t r' Hr'; eapply record_known_same; [..|exact Hr']; auto).
  enough (record_known (set_record r (rr_route r) (rr_upstream r) (Some (rs_status response)) (rr_error r)
    (if rr_is_grpc r then grpc_status (rs_headers response) else rr_grpc_status r)
    (rr_response_bytes r) (rr_termination r))) by (destruct (bd_is_end_stream _); auto).
  constructor; try done.
  - by intros s [= <-].
  - intros s. simpl. destruct (rr_is_grpc r); [apply grpc_status_range|apply K4].
Qed.

Lemma known_refuse why r w w' h :
  record_known r -> world_known w -> refuse why r w = (w', h) -> world_known w' /\ handled_known h.
Proof.
  intros Hr Hw. unfold refuse. pose proof (known_failed (refusal_reason why) r w Hr Hw) as [Hw1 Hr1].
  destruct (record_failed _ r w) as [w1 r1]. intros [= <- <-]. split; [done|].
  apply known_respond; [apply refusal_range|done].
Qed.

Lemma known_drop now r w : record_known r -> world_known w -> world_known (record_drop now r w).
Proof.
  intros Hr Hw. unfold record_drop.
  assert (world_known (emit (Reported (record_report now r)) (emit (RequestsInFlight (-1)) w))) as H1.
  { apply known_emit; [|by apply known_emit]. destruct Hr as [K1 K2 K3 K4 K5]. constructor; try done.
    - unfold record_report. simpl. destruct (rr_route r) as [c|]; [by apply K2|apply list_elem_of_here].
    - simpl. unfold CLIENT_CLOSED_REQUEST. destruct (rr_status r); simpl; [by apply K3|lia].
    - intros b. simpl. destruct (rr_termination r); simpl; intros [= <-]; listed. }
  destruct (rr_upstream r) as [u|] eqn:Hu; [|done]. apply known_drop_busy; [|done].
  intros b Hb. apply (rn_busy _ Hr). unfold busy_of. by rewrite Hu.
Qed.

Lemma known_polls polls r : record_known r -> record_known (foldl observed_poll r polls).
Proof.
  revert r. induction polls as [|[polled ended] polls IH]; intros r Hr; [done|]. cbn [foldl]. apply IH.
  unfold observed_poll. cbn [fst snd].
  destruct polled as [|f| |]; [done| |by eapply record_known_same; [..|exact Hr]; auto..].
  unfold note_if_ended. set (r1 := set_record _ _ _ _ _ _ _ _).
  assert (record_known r1) as H1.
  { destruct Hr as [K1 K2 K3 K4 K5]. constructor; try done. intros s. simpl.
    destruct (rr_is_grpc r), f; try apply K4. apply grpc_status_range. }
  destruct ended; [|done]. by eapply record_known_same; [..|exact H1]; auto.
Qed.

(** What the node serves from is the config's. *)
Record state_known (st : State) : Prop := {
  sn_routes : st_routes st = compile config;
  sn_pools : forall id p, st_pools st !! id = Some p -> pool_known p;
}.

Lemma matched_known st conn host path matched :
  state_known st -> match_request (st_routes st) conn host path = Some matched ->
  (cr_host matched, cr_id matched) ∈ route_labels config.
Proof.
  intros [-> _]. rewrite compiled_finds_best. intros (route & Hb & ->)%fmap_Some.
  apply min_by_elem in Hb. apply elem_of_keep in Hb as [Hb _]. apply elem_of_keep in Hb as [Hb _].
  apply list_elem_of_further. by apply (list_elem_of_fmap_2 (fun x : Route => (trim (r_host x), r_id x))).
Qed.

Lemma own_range scheme status host path id text :
  100 <= an_status (redirect scheme status host path id) <= 999 /\
  100 <= an_status (fixed status text id) <= 999.
Proof.
  split; [unfold redirect, with_text_header; destruct (value_of_str _); cbn [an_status with_header]|unfold fixed];
    rewrite answer_status; by apply status_from_u16_range.
Qed.

Lemma route_known env st conn now rq has_body r w w' h :
  state_known st -> answers_typed env -> record_known r -> world_known w ->
  route hash_ip env st conn now rq has_body r w = Some (w', h) -> world_known w' /\ handled_known h.
Proof.
  intros Hst Ht Hr Hw. unfold route. destruct (match_request _ _ _ _) as [matched|] eqn:Em.
  2: { intros [= E]. eapply known_refuse; [exact Hr| |exact E]. by apply known_emit. }
  assert (record_known (record_matched matched r)) as Hr1.
  { destruct Hr. constructor; try done. intros c [= <-]. by eapply matched_known. }
  destruct (cr_action matched) as [pool|action|action].
  - unfold pool_set_get. destruct (st_pools st !! pool) as [p|] eqn:Ep.
    2: { intros [= E]. by eapply known_refuse. }
    destruct (forward _ _ _ _ _ _ _ _ _ _) as [[[w2 r2] res]|] eqn:Ef; [|done].
    eapply forward_known in Ef as (Hw2 & Hr2 & Hres); [|done|exact Hr1|done|by eapply sn_pools].
    destruct res as [response|[why| |]]; intros [= E].
    + subst. split; [done|]. by apply known_respond.
    + by eapply known_refuse.
    + subst. split; [|done]. by apply known_drop.
    + subst. split; [|done]. by apply known_drop.
  - intros [= <- <-]. split; [done|]. apply known_respond; [|done]. apply own_range; done.
  - intros [= <- <-]. split; [done|]. apply known_respond; [|done]. apply own_range; done.
Qed.

Lemma handle_known env st conn now random rq has_body w h :
  state_known st -> answers_typed env -> l_id (ci_listener conn) = listener ->
  handle hash_ip env st conn now random rq has_body = Some (w, h) -> world_known w /\ handled_known h.
Proof.
  intros Hst Ht Hl. unfold handle. cbv zeta.
  assert (world_known (emit (RequestsInFlight 1) world_start)) as Hw by (apply known_emit; by constructor).
  assert (forall host, record_known (record_begin now conn rq host
            (request_id random.1 random.2 (rq_headers rq)) world_start).2) as Hr by (by constructor).
  destruct (accepted_host _ _ _ _ _) as [host|error]; cbn [fst snd] in *.
  - by apply route_known.
  - intros E%(inj Some). eapply known_refuse; [apply Hr|exact Hw|exact E].
Qed.
End Known.

(** The node's state as a request reads it. *)
Definition node_state (hsts : str) (n : Node) : State :=
  mkState (n_routes n) (n_pools n) (sr_store (n_resolver n)) hsts.

Lemma served_known {I} config hsts n : node_serves (I := I) config n -> state_known config (node_state hsts n).
Proof.
  intros [_ S2 _ S4 _ _ _]. constructor; [done|]. intros id p Hp. simpl in Hp. specialize (S4 id).
  unfold pool_set_get in S4. rewrite Hp in S4. destruct (last_spec id _) as [s|] eqn:Es; [|done].
  unfold last_spec in Es. apply last_Some in Es as [l Hl].
  assert (s ∈ pool_specs (pools config)) as (u & -> & Hu)%list_elem_of_fmap.
  { apply (elem_of_keep (fun s => str_eqb (ps_id s) id)). rewrite Hl. set_solver. }
  destruct S4 as (Hid & _ & Hbs & _). by exists u.
Qed.

(** C10: No client can make the number of series grow. Whatever a request
    holds, however its exchange goes, and whenever in the life of a node it
    comes, all it counts is counted in series of [config_series]: those of
    the listener's id, the hosts and ids of the config's routes, its pools
    and backends, and fixed sets of statuses, kinds and codes. *)
Theorem series_bounded `{L : HttpLib} hash_ip {I P E W} hash64 env0 watched meanwhile rl files el n0 n :
  env_typed (I := I) (P := P) (E := E) env0 ->
  meanwhile_ok (I := I) (P := P) (E := E) (W := W) hash64 rl meanwhile ->
  start (W := W) hash64 env0 watched meanwhile rl (put_listeners el (node_new files)) = (n0, Ok ()) ->
  rtc (node_step (I := I) (P := P) (E := E) (W := W) hash64 rl) n0 n ->
  exists config, node_serves (I := I) config n /\
    forall env hsts conn now random rq has_body w h later polls,
      answers_typed env ->
      handle hash_ip env (node_state hsts n) conn now random rq has_body = Some (w, h) ->
      Forall (fun u => u.1 ∈ config_series config (l_id (ci_listener conn)))
        (updates (w_events (finish later polls h w))).
Proof.
  intros Ht Hm Hs Hr. destruct (start_sound hash64 env0 watched meanwhile rl files el n0 Ht Hm Hs) as (_ & [config0 H0] & _).
  destruct (run_sound hash64 rl config0 n0 n Hr H0) as (config & [Hn _ _] & _).
  exists config. split; [done|]. intros env hsts conn now random rq has_body w h later polls Ha Hh.
  eapply handle_known in Hh as [Hw Hh]; [|exact (served_known config hsts n Hn)|done|reflexivity].
  assert (world_known config (l_id (ci_listener conn)) (finish later polls h w)) as [He _].
  { destruct h as [response r|response|]; [|done..]. by apply known_drop; [apply known_polls|]. }
  unfold updates. induction He as [|e es He _ IH]; [done|]. cbn [mbind list_bind].
  apply Forall_app. split; [by apply event_series|exact IH].
Qed.

(** Every such series is of a registered family, with a value for each of
    its labels. *)
Definition is_registered (s : Series) : bool :=
  existsb (fun r => String.eqb (rg_name r) s.1 && Nat.eqb (length (rg_labels r)) (length s.2)) proxy_register.

Lemma config_series_registered config listener s :
  s ∈ config_series config listener -> is_registered s = true.
Proof.
  assert (Hl : forall l, Forall (fun s => is_registered s = true) l -> s ∈ l -> is_registered s = true)
    by (intros l Hl; rewrite Forall_forall in Hl; apply Hl).
  assert (Hm : forall family pre values, (forall v, is_registered (family, pre ++ [v]) = true) ->
            s ∈ (fun v => (family, pre ++ [v])) <$> values -> is_registered s = true)
    by (intros family pre values H (v & -> & _)%list_elem_of_fmap; apply H).
  unfold config_series. rewrite !elem_of_app, !list_elem_of_bind.
  intros [H|[([vhost route] & H & _)|[(pool & H & _)|([pool backend] & H & _)]]].
  - revert H. apply Hl. repeat constructor.
  - rewrite !elem_of_app in H. destruct H as [H|[H|[H|H]]].
    + revert H. apply Hl. repeat constructor.
    + revert H. by apply Hm.
    + revert H. by apply Hm.
    + revert H. by apply Hm.
  - revert H. apply Hl. repeat constructor.
  - rewrite !elem_of_app in H. destruct H as [H|[H|H]].
    + revert H. apply Hl. repeat constructor.
    + revert H. by apply (Hm _ [pool; backend]).
    + revert H. by apply (Hm _ [pool; backend]).
Qed.

(** ** What is counted of failures *)

(** The kinds the counter of all kinds leaves out. *)
Definition left_out (kind : str) : bool := bool_decide (kind ∈ [kind_as_str ConnectionLimit; kind_as_str Timeout]).

(** What an event adds to that counter, less what it adds to the kinds it
    does not leave out. *)
Definition failure_balance (e : Event) : Z :=
  match e with
  | ConnectErrorsCounted => 1
  | UpstreamErrors _ kind => if left_out kind then 0 else -1
  | _ => 0
  end.

Section Failures.
Context `{L : HttpLib} (hash_ip : IpAddr -> Z).
Implicit Types (w : World) (r : RequestRecord).

Definition balanced w : Prop := tally failure_balance (w_events w) = 0.

Lemma balanced_emit e w : failure_balance e = 0 -> balanced w -> balanced (emit e w).
Proof.
  unfold balanced, tally. simpl. intros He Hw. rewrite fmap_app, sum_list_app, Hw. simpl. lia.
Qed.

Lemma drop_guard_events g w : w_events (drop_guard g w) = w_events w.
Proof. unfold drop_guard. by destruct (w_pool w). Qed.

Lemma admitted_drop_events w : w_events (admitted_drop w) = w_events w.
Proof.
  unfold admitted_drop. destruct (w_admitted w) as [[g refs]|]; [|done].
  destruct (refs =? 1); [by rewrite drop_guard_events|done].
Qed.

Lemma balanced_drop_busy busy w : balanced w -> balanced (drop_busy busy w).
Proof.
  intros Hw. destruct busy as [b|]; [|done]. unfold balanced, drop_busy, busy_drop.
  rewrite admitted_drop_events, drop_guard_events. by apply balanced_emit.
Qed.

Lemma balanced_attempting backend b r w : balanced w -> balanced (record_attempting backend b r w).1.
Proof.
  intros Hw. unfold record_attempting. destruct (rr_upstream r); simpl; [by apply balanced_drop_busy|].
  by apply (balanced_drop_busy (Some b)).
Qed.

Lemma balanced_failed reason r w : balanced w -> balanced (record_failed reason r w).1.
Proof.
  intros Hw. unfold record_failed. simpl. destruct (rr_upstream r); simpl; [by apply balanced_drop_busy|done].
Qed.

(** A failure of the backend is counted both ways, any other one in neither. *)
Lemma balanced_attempt_failed a failure attempts gauge w :
  balanced w -> balanced (attempt_failed a (classify failure) attempts gauge w).1.
Proof.
  intros Hw. unfold attempt_failed, balanced, tally in *.
  destruct failure; simpl; rewrite ?fmap_app, ?sum_list_app, Hw; reflexivity.
Qed.

Lemma balanced_loop fuel env a attempts headers streamed r w w' r' res :
  balanced w -> forward_loop fuel env a attempts headers streamed r w = Some (w', r', res) -> balanced w'.
Proof.
  revert attempts headers streamed r w.
  induction fuel as [|fuel IH]; intros attempts headers streamed r w Hw; [done|].
  cbn [forward_loop]. destruct (w_pool w) as [p|]; [|done]. set (e := env attempts).
  destruct (pool_select _ _ _ _) as [[q [sel|]]|]; [| |done].
  2: { intros [= <- <- <-]. by apply balanced_emit. }
  set (gauge := (p_id q, authority (sel_backend sel))). set (w0 := if Nat.ltb 1 (S attempts) then _ else _).
  assert (balanced w0) as Hw0 by (unfold w0; destruct (Nat.ltb _ _); [by apply balanced_emit|done]).
  destruct (busy_new _ _ _) as [w1 busy] eqn:Eb.
  assert (balanced w1) as Hw1.
  { injection Eb as <- _. apply balanced_emit; [done|]. unfold admitted_clone.
    by destruct (w_admitted w0) as [[]|]. }
  pose proof (balanced_attempting (authority (sel_backend sel)) busy r w1 Hw1) as Hw2.
  destruct (record_attempting _ _ _ _) as [w2 r2]. cbn [fst] in Hw2.
  set (ws := send _ w2). assert (balanced ws) as Hws by exact Hw2. clearbody ws.
  destruct (ae_cancelled e); [by intros [= <- <- <-]|].
  set (w3 := emit (DurationObserved gauge) _). assert (balanced w3) as Hw3 by (by apply balanced_emit).
  clearbody w3. destruct (negb _ && _).
  { destruct (sp_waiting_for_client _); intros [= <- <- <-]; [done|]. by do 2 (apply balanced_emit; [done|]). }
  destruct (ae_result e) as [backend|failure]; [intros [= <- <- <-]; by apply balanced_emit|].
  destruct (sp_client_failed _); [by intros [= <- <- <-]|].
  pose proof (balanced_attempt_failed a failure (Z.of_nat (S attempts)) gauge w3 Hw3) as Hw4.
  destruct (attempt_failed _ _ _ _ _) as [w4 [unanswered|]]; [by intros [= <- <- <-]|]. by apply IH.
Qed.

Lemma balanced_refuse why r w : balanced w -> balanced (refuse why r w).1.
Proof.
  intros Hw. unfold refuse. pose proof (balanced_failed (refusal_reason why) r w Hw).
  by destruct (record_failed _ r w).
Qed.

Lemma balanced_drop now r w : balanced w -> balanced (record_drop now r w).
Proof.
  intros Hw. unfold record_drop. assert (balanced (emit (Reported (record_report now r)) (emit (RequestsInFlight (-1)) w)))
    by (by do 2 (apply balanced_emit; [done|])). destruct (rr_upstream r); [by apply balanced_drop_busy|done].
Qed.

Lemma balanced_route env st conn now rq has_body r w w' h :
  balanced w -> route hash_ip env st conn now rq has_body r w = Some (w', h) -> balanced w'.
Proof.
  intros Hw. unfold route. destruct (match_request _ _ _ _) as [matched|].
  2: { intros E%(inj Some). change w' with (w', h).1. rewrite <-E. by apply balanced_refuse, balanced_emit. }
  destruct (cr_action matched) as [pool|action|action]; [|by intros [= <- <-]..].
  destruct (pool_set_get pool (st_pools st)) as [p|].
  2: { intros E%(inj Some). change w' with (w', h).1. rewrite <-E. by apply balanced_refuse. }
  destruct (forward _ _ _ _ _ _ _ _ _ _) as [[[w2 r2] res]|] eqn:Ef; [|done].
  assert (balanced w2) as Hw2.
  { revert Ef. unfold forward. destruct (negb _); [by intros [= <- <- <-]|].
    destruct (asks_for_upgrade _); [by intros [= <- <- <-]|].
    destruct (pool_admit now p) as [q [guard|[]]]; [|by intros [= <- <- <-]; apply balanced_emit..].
    destruct (forward_loop _ _ _ _ _ _ _ _) as [[[w3 r3] res3]|] eqn:El; [|done]. intros [= <- <- <-].
    unfold balanced. rewrite admitted_drop_events. by eapply balanced_loop; [|exact El]. }
  destruct res as [response|[why| |]]; intros E%(inj Some); change w' with (w', h).1; rewrite <-E; [done|..].
  - by apply balanced_refuse.
  - by apply balanced_drop.
  - by apply balanced_drop.
Qed.
End Failures.

Definition any_labels (labels : list str) : bool := true.
Definition not_left_out (labels : list str) : bool :=
  match labels with [_; _; kind] => negb (left_out kind) | _ => false end.

Lemma added_app family which us us' : added family which (us ++ us') = added family which us + added family which us'.
Proof. unfold added. by rewrite fmap_app, sum_list_app. Qed.

Lemma report_no_failure rp :
  added "gfe_upstream_connect_errors" any_labels (report_updates rp) = 0 /\
  added "gfe_upstream_errors" not_left_out (report_updates rp) = 0.
Proof.
  unfold report_updates. rewrite !added_app.
  destruct (rr_grpc_status _), (rp_aborted_by rp); split; reflexivity.
Qed.

Lemma added_balance events :
  added "gfe_upstream_connect_errors" any_labels (updates events) -
  added "gfe_upstream_errors" not_left_out (updates events) = tally failure_balance events.
Proof.
  unfold updates, tally. induction events as [|e events IH]; [done|].
  change (sum_list (failure_balance <$> e :: events))
    with (failure_balance e + sum_list (failure_balance <$> events)).
  cbn [mbind list_bind]. rewrite !added_app, <-IH. cut (
    added "gfe_upstream_connect_errors" any_labels (event_updates e) -
    added "gfe_upstream_errors" not_left_out (event_updates e) = failure_balance e); [lia|].
  destruct e as [d|g d| |p|p| |p|g|g s|g k| |rp]; try reflexivity.
  - unfold added. cbn. by destruct (left_out k).
  - cbn [event_updates]. destruct (report_no_failure rp) as [-> ->]. done.
Qed.

(** The counter of failed upstream requests that the specification calls
    all kinds together counts the failures of every kind but two: over any
    exchange it grows by the errors counted by kind, less those of a request
    that the backend did not answer in time and of one refused at the limit
    on upstream connections. *)
Theorem connect_errors_exact `{L : HttpLib} hash_ip env st conn now random rq has_body w h later polls :
  handle hash_ip env st conn now random rq has_body = Some (w, h) ->
  let us := updates (w_events (finish later polls h w)) in
  added "gfe_upstream_connect_errors" any_labels us = added "gfe_upstream_errors" not_left_out us.
Proof.
  intros Hh. cbv zeta. pose proof (added_balance (w_events (finish later polls h w))) as Hb.
  enough (balanced (finish later polls h w)) as H by (unfold balanced in H; lia).
  assert (balanced w) as Hw.
  { revert Hh. unfold handle. cbv zeta. destruct (accepted_host _ _ _ _ _); cbn [fst snd].
    - by apply balanced_route.
    - intros E%(inj Some). change w with (w, h).1. rewrite <-E. by apply balanced_refuse. }
  destruct h as [response r|response|]; [|done..]. by apply balanced_drop.
Qed.

(** ** A backend that does not answer in time *)

Definition late_env (i : nat) : AttemptEnv (L := assoc_http) :=
  mkAttemptEnv quiet example_backends_pool.1 0 (Err LReset) true false (progress_begin 0 false) 0 5.

Definition late_exchange : option (World * Handled) :=
  handle (fun _ => 0) late_env example_state example_conn 0 (1, 2) example_get false.

Definition late_added (family : string) (which : list str -> bool) : option Z :=
  (fun wh => added family which (updates (w_events (finish 9 [(ReadyEnd, true)] wh.2 wh.1)))) <$> late_exchange.

(** The error is counted by its kind, and not among all kinds. *)
Lemma connect_errors_exact_witness :
  late_added "gfe_upstream_errors" any_labels = Some 1 /\
  late_added "gfe_upstream_connect_errors" any_labels = Some 0.
Proof.
  split; [vm_compute; reflexivity|].
  assert (late_added "gfe_upstream_errors" not_left_out = Some 0) as H by (vm_compute; reflexivity).
  unfold late_added in *. destruct late_exchange as [[w h]|] eqn:E; [|discriminate H].
  cbn [fmap option_fmap option_map fst snd] in *.
  by rewrite (connect_errors_exact (fun _ => 0) late_env example_state example_conn 0 (1, 2)
                example_get false w h 9 [(ReadyEnd, true)] E).
Defined.

Lemma series_bounded_witness :
  exists n0, start (W := unit) example_hash64 example_reload_env (Ok ())
               (reload (W := unit) example_hash64 other_reload_env example_reloader) example_reloader
               (put_listeners edge_new (node_new ∅)) = (n0, Ok ()) /\
  exists config, node_serves (I := unit) config n0 /\
    forall env hsts conn now random rq has_body w h later polls,
      answers_typed (L := assoc_http) env ->
      handle (fun _ => 0) env (node_state hsts n0) conn now random rq has_body = Some (w, h) ->
      Forall (fun u => u.1 ∈ config_series config (l_id (ci_listener conn)))
        (updates (w_events (finish later polls h w))).
Proof.
  set (meanwhile := reload (W := unit) example_hash64 other_reload_env example_reloader).
  assert (Hd : is_ok (start (W := unit) example_hash64 example_reload_env (Ok ()) meanwhile example_reloader
                        (put_listeners edge_new (node_new ∅))).2 = true) by (vm_compute; reflexivity).
  destruct (start example_hash64 example_reload_env (Ok ()) meanwhile example_reloader
              (put_listeners edge_new (node_new ∅))) as [n0 [[]|e]] eqn:Es; [|done].
  exists n0. split; [done|].
  exact (series_bounded (L := assoc_http) (fun _ => 0) (W := unit) example_hash64 example_reload_env (Ok ()) meanwhile
    example_reloader ∅ edge_new n0 n0 example_env_typed (reload_meanwhile_ok _ other_env_typed) Es (rtc_refl _ n0)).
Defined.
