(* ===== verification/Events.v ===== *)
(** * The events a node logs

    The structured events of the program with their fields: [gfe::access],
    one per request ([RequestRecord::report], [handler/record.rs]),
    [gfe::conn], one per client connection ([ConnRecord], [edge/conn_record.rs]),
    and [gfe::tcp], the kernel's view of a connection that closed
    ([kernel.rs]). What they are told is in [Forward], [Edge] and [Kernel];
    how the tracing library writes a line is its own. A line of the access
    log says what happened, and what the metrics counted; the three kinds of
    event of one connection can be joined on the client they name. *)

From S2P Require Import Prelude Str Net IpText SpecF64 LoadBalancing Config Routing TlsPolicy Causes.
From S2P Require Import Kernel Streams Server Edge Http Request Forward Metrics Series.
From Stdlib Require Import Ascii.
#[local] Open Scope string_scope.
#[local] Open Scope list_scope.
#[local] Open Scope Z_scope.

(** ** Fields *)

(** A field of an event: a text, an integer, a number of milliseconds, or
    whether something is so. One whose value is absent is not written. *)
Inductive FieldValue := FText (s : str) | FCount (n : Z) | FMillis (x : f64) | FFlag (b : bool).

Notation Fields := (list (string * option FieldValue)).

Definition field (name : string) (fields : Fields) : option FieldValue :=
  match find_first (fun nv => String.eqb nv.1 name) fields with Some (_, v) => v | None => None end.

(** [millis]: a duration in milliseconds, to the microsecond. *)
Definition millis (d : Z) : f64 := fdiv (f64_of_int (as_micros d)) (f64_of_int 1000).

(** ** [gfe::access] *)

Section Access.
(** The names of the http crate's methods and versions. *)
Context (method_text : Method -> str) (version_text : Version -> str).

Definition access_event (rp : Report) : Fields :=
  let r := rp_record rp in
  let client := ci_client (rr_conn r) in
  let tls := ci_tls (rr_conn r) in
  let upstream := rr_upstream r in
  [("request_id", Some (FText (rr_request_id r)));
   ("client", Some (FText (ip_to_string (sa_ip client))));
   ("client_port", Some (FCount (sa_port client)));
   ("listener", Some (FText (rr_listener r)));
   ("proto", Some (FText (if is_none tls then lit "http" else lit "https")));
   ("http_version", Some (FText (version_text (rr_http_version r))));
   ("sni", FText <$> conn_sni (rr_conn r));
   ("tls_version", (fun t => FText (ti_version t)) <$> tls);
   ("tls_cipher", (fun t => FText (ti_cipher t)) <$> tls);
   ("method", Some (FText (method_text (rr_method r))));
   ("host", Some (FText (rr_host r)));
   ("path", Some (FText (rr_path r)));
   ("user_agent", FText <$> rr_user_agent r);
   ("status", Some (FCount (rp_status rp)));
   ("grpc_status", FCount <$> rr_grpc_status r);
   ("route", Some (FText (rp_route rp)));
   ("pool", (fun u => FText (ul_pool u)) <$> upstream);
   ("backend", FText <$> (upstream ≫= ul_backend));
   ("attempts", (fun u => FCount (ul_attempts u)) <$> upstream);
   ("error", FText <$> rr_error r);
   ("termination", Some (FText (termination_as_str (rr_termination r))));
   ("request_bytes", Some (FCount (rr_request_bytes r)));
   ("response_bytes", Some (FCount (rr_response_bytes r)));
   ("duration_ms", Some (FMillis (millis (rp_elapsed rp))));
   ("upstream_ttfb_ms", (fun d => FMillis (millis d)) <$> (upstream ≫= ul_time_to_first_byte))].
End Access.

(** ** [gfe::conn] *)

Section Conn.
(** An error as it is written. *)
Context (error_text : ConnError -> str).

Definition conn_event (e : ConnEvent) : Fields :=
  let r := ev_record e in
  let tls := cr_tls r in
  [("client", Some (FText (ip_to_string (sa_ip (cr_client r)))));
   ("client_port", Some (FCount (sa_port (cr_client r))));
   ("listener", Some (FText (cr_listener r)));
   ("proto", Some (FText (if cr_is_tls r then lit "https" else lit "http")));
   ("sni", FText <$> (tls ≫= ti_sni));
   ("tls_version", (fun t => FText (ti_version t)) <$> tls);
   ("tls_cipher", (fun t => FText (ti_cipher t)) <$> tls);
   ("alpn", FText <$> (tls ≫= ti_alpn));
   ("tls_resumed", (fun t => FFlag (ti_resumed t)) <$> tls);
   ("tls_handshake_ms", (fun d => FMillis (millis d)) <$> cr_tls_handshake r);
   ("tls_error", FText <$> cr_tls_error r);
   ("accept_wait_ms", (fun d => FMillis (millis d)) <$> cr_accept_wait r);
   ("requests", Some (FCount (cr_requests r)));
   ("bytes_in", Some (FCount (ev_bytes_in e)));
   ("bytes_out", Some (FCount (ev_bytes_out e)));
   ("duration_ms", Some (FMillis (millis (ev_duration e))));
   ("reason", Some (FText (ev_reason e)));
   ("error", (fun e => FText (error_text e)) <$> cr_error r)].
End Conn.

(** ** [gfe::tcp] *)

(** The fields both sides have. *)
Definition tcp_fields (closed : ClosedConnection) : Fields :=
  [("ending", Some (FText (ending_label (cn_ending closed))));
   ("rtt_ms", Some (FMillis (millis (cn_rtt closed))));
   ("min_rtt_ms", Some (FMillis (millis (cn_min_rtt closed))));
   ("retransmits", Some (FCount (cn_retransmits closed)));
   ("segments_sent", Some (FCount (cn_segments_sent closed)));
   ("bytes_acked", Some (FCount (cn_bytes_acked closed)));
   ("bytes_received", Some (FCount (cn_bytes_received closed)));
   ("lifetime_ms", Some (FMillis (millis (cn_lifetime closed))))].

(** An event of [Kernel]: a client's, with its listener, or an upstream
    connection's, with its backend. *)
Definition tcp_event (e : bool * str * ClosedConnection) : Fields :=
  let '(is_client, label, closed) := e in
  (if is_client then
     [("side", Some (FText (lit "client")));
      ("client", Some (FText (ip_to_string (sa_ip (cn_peer closed)))));
      ("client_port", Some (FCount (sa_port (cn_peer closed))));
      ("listener", Some (FText label))]
   else [("side", Some (FText (lit "upstream"))); ("backend", Some (FText label))]) ++ tcp_fields closed.

(** ** The record keeps track of what is sent *)

Definition report_in (e : Event) : option Report := match e with Reported rp => Some rp | _ => None end.
Definition reports (events : list Event) : list Report := omap report_in events.
Definition retry_in (e : Event) : option str := match e with RetriesCounted pool => Some pool | _ => None end.
Definition retries (events : list Event) : list str := omap retry_in events.

Section Tracking.
Context `{L : HttpLib} (hash_ip : IpAddr -> Z).
Implicit Types (env : nat -> AttemptEnv) (w : World) (r : RequestRecord).

(** The bytes that were read of the request's body, after so many attempts. *)
Definition last_read env (n : nat) : Z := match n with O => 0 | S i => ae_request_bytes (env i) end.

(** When the backend answered, if the last of the attempts was answered. *)
Definition answered_after env (grpc : bool) (n : nat) : option Z :=
  match n with
  | O => None
  | S i => match ended grpc (env i) with EndedResponse _ => Some (ae_elapsed (env i)) | _ => None end
  end.

(** The leg of the record counts the requests sent and names the backend of
    the last, and every one after the first was counted as a retry. *)
Definition tracks env r w : Prop :=
  Z.of_nat (length (retries (w_events w))) = Z.max 0 (Z.of_nat (length (w_sent w)) - 1) /\
  rr_request_bytes r = last_read env (length (w_sent w)) /\
  match rr_upstream r with
  | Some u => ul_attempts u = Z.of_nat (length (w_sent w)) /\ ul_backend u = sn_authority <$> last (w_sent w)
  | None => w_sent w = []
  end.

(** So it is while nothing is reported yet. *)
Definition tracked env r w : Prop := reports (w_events w) = [] /\ tracks env r w.

(** What is known of a request from the start. *)
Definition same_head r r' : Prop :=
  (rr_started r', rr_conn r', rr_listener r', rr_request_id r', rr_method r') =
    (rr_started r, rr_conn r, rr_listener r, rr_request_id r, rr_method r) /\
  (rr_http_version r', rr_host r', rr_path r', rr_user_agent r', rr_is_grpc r') =
    (rr_http_version r, rr_host r, rr_path r, rr_user_agent r, rr_is_grpc r).

Lemma same_head_trans r r' r'' : same_head r r' -> same_head r' r'' -> same_head r r''.
Proof. unfold same_head. intros [-> ->] [-> ->]. done. Qed.

Lemma same_head_grpc r r' : same_head r r' -> rr_is_grpc r' = rr_is_grpc r.
Proof. by intros [_ [= _ _ _ _ H]]. Qed.

Lemma same_head_started r r' : same_head r r' -> rr_started r' = rr_started r.
Proof. by intros [[= H _ _ _ _] _]. Qed.

(** What forwarding leaves alone, besides. *)
Definition kept r r' : Prop :=
  same_head r r' /\ ul_pool <$> rr_upstream r' = ul_pool <$> rr_upstream r /\
  (rr_route r', rr_status r', rr_error r', rr_grpc_status r', rr_response_bytes r', rr_termination r') =
    (rr_route r, rr_status r, rr_error r, rr_grpc_status r, rr_response_bytes r, rr_termination r).

Lemma rec_kept_trans r r' r'' : kept r r' -> kept r' r'' -> kept r r''.
Proof.
  intros (H1 & E1 & F1) (H2 & E2 & F2). split; [by eapply same_head_trans|]. split; [congruence|]. by rewrite F2.
Qed.

Definition first_byte r : option Z := rr_upstream r ≫= ul_time_to_first_byte.

(** Dropping what marks a backend as busy tells neither. *)
Lemma drop_busy_quiet {A} (f : Event -> option A) busy w :
  (forall g d, f (UpstreamInFlight g d) = None) ->
  omap f (w_events (drop_busy busy w)) = omap f (w_events w) /\ w_sent (drop_busy busy w) = w_sent w.
Proof.
  intros Hf. split; [|apply drop_busy_sent]. destruct busy as [b|]; [|done]. unfold drop_busy, busy_drop.
  rewrite admitted_drop_events, drop_guard_events. cbn. rewrite omap_app. cbn. by rewrite Hf, app_nil_r.
Qed.

Lemma tracked_drop_busy env busy r w : tracked env r w -> tracked env r (drop_busy busy w).
Proof.
  intros (H1 & H2 & H3). unfold tracked, tracks, reports, retries in *.
  destruct (drop_busy_quiet report_in busy w ltac:(done)) as [-> ->].
  by destruct (drop_busy_quiet retry_in busy w ltac:(done)) as [-> _].
Qed.

Lemma tracked_emit env e r w :
  report_in e = None -> retry_in e = None -> tracked env r w -> tracked env r (emit e w).
Proof.
  intros He1 He2 (H1 & H2 & H3). unfold tracked, tracks, reports, retries in *. cbn [w_events w_sent emit].
  rewrite !omap_app. cbn. by rewrite He1, He2, !app_nil_r.
Qed.

Lemma admitted_clone_same w : w_events (admitted_clone w) = w_events w /\ w_sent (admitted_clone w) = w_sent w.
Proof. unfold admitted_clone. by destruct (w_admitted w) as [[]|]. Qed.

(** An attempt: the backend is marked busy, and the request is sent. *)
Lemma attempt_tracked env g gauge pool request r w w1 busy w2 r2 (n := length (w_sent w)) :
  tracked env r w -> is_Some (rr_upstream r) ->
  busy_new g gauge (if Nat.ltb 1 (S n) then emit (RetriesCounted pool) w else w) = (w1, busy) ->
  record_attempting (sn_authority request) busy r w1 = (w2, r2) ->
  let w' := send request w2 in
  let r' := set_request_bytes (ae_request_bytes (env n)) r2 in
  tracked env r' w' /\ is_Some (rr_upstream r') /\ kept r r' /\ first_byte r' = first_byte r /\
  w_sent w' = w_sent w ++ [request].
Proof.
  intros (H1 & H2 & _ & H3) [u Hu] Hb Ha. rewrite Hu in H3. destruct H3 as [H3 H4].
  unfold busy_new in Hb. injection Hb as Hw1 _. unfold record_attempting in Ha. rewrite Hu in Ha.
  injection Ha as Hw2 <-.
  destruct (admitted_clone_same (if Nat.ltb 1 (S n) then emit (RetriesCounted pool) w else w)) as [Ec Sc].
  assert (reports (w_events w1) = [] /\ w_sent w1 = w_sent w /\
          Z.of_nat (length (retries (w_events w1))) = Z.of_nat n) as (E1 & S1 & R1).
  { subst w1. cbn [emit w_events w_sent]. rewrite Ec, Sc. unfold reports, retries in *.
    destruct (Nat.ltb 1 (S n)) eqn:En; cbn; rewrite !omap_app; cbn; rewrite ?omap_app, ?app_nil_r, ?length_app; cbn.
    - apply Nat.ltb_lt in En. rewrite H1. split_and!; [done|done|]. subst n. lia.
    - apply Nat.ltb_ge in En. split_and!; [done|done|]. subst n. lia. }
  destruct (drop_busy_quiet report_in (ul_busy u) w1 ltac:(done)) as [E2 S2].
  destruct (drop_busy_quiet retry_in (ul_busy u) w1 ltac:(done)) as [R2 _].
  rewrite Hw2 in E2, S2, R2. unfold reports, retries in *.
  cbv zeta. unfold tracked, tracks, kept, first_byte, reports, retries. cbn.
  rewrite ?omap_app, S2, S1, E2, E1, R2, Hu. cbn.
  rewrite length_app, last_snoc. cbn. rewrite Nat.add_1_r. subst n.
  split_and!; first [done|cbn; lia|by eexists].
Qed.

Lemma failed_tracked env a kind attempts gauge r w :
  tracked env r w -> tracked env r (attempt_failed a kind attempts gauge w).1 /\
  w_sent (attempt_failed a kind attempts gauge w).1 = w_sent w.
Proof.
  intros H. unfold attempt_failed. destruct (negb _); cbn [fst]; split; try done; by repeat apply tracked_emit.
Qed.

Lemma loop_tracked fuel env a headers streamed r w w' r' res :
  tracked env r w -> is_Some (rr_upstream r) -> first_byte r = None ->
  answered_after env (rr_is_grpc r) (length (w_sent w)) = None ->
  forward_loop fuel env a (length (w_sent w)) headers streamed r w = Some (w', r', res) ->
  tracked env r' w' /\ kept r r' /\ first_byte r' = answered_after env (rr_is_grpc r) (length (w_sent w')).
Proof.
  revert headers streamed r w. induction fuel as [|fuel IH]; intros headers streamed r w Ht Hu Hf Hn; [done|].
  cbn [forward_loop]. destruct (w_pool w) as [p|]; [|done]. set (n := length (w_sent w)) in *. set (e := env n).
  destruct (pool_select _ _ _ _) as [[p' [sel|]]|]; [| |done].
  2: { intros [= <- <- <-]. split; [by apply tracked_emit|]. split; [done|]. by rewrite Hf. }
  destruct (busy_new _ _ _) as [w1 busy] eqn:Eb.
  destruct (record_attempting _ _ _ _) as [w2 r2] eqn:Ea. set (request := mkSent _ _ _ _ _ _ _).
  destruct (attempt_tracked env _ _ _ request r (put_pool p' w) w1 busy w2 r2 Ht Hu Eb Ea) as (T & U & H & F & Hs).
  cbv zeta in *. change (length (w_sent (put_pool p' w))) with n in *. change (w_sent (put_pool p' w)) with (w_sent w) in Hs.
  fold e in T, U, H, F. set (w3 := send request w2) in *. set (r3 := set_request_bytes _ r2) in *.
  assert (Hn3 : length (w_sent w3) = S n) by (rewrite Hs, length_app; cbn; unfold n; lia).
  assert (Hg : rr_is_grpc r3 = rr_is_grpc r) by (apply same_head_grpc, H).
  rewrite Hg. clearbody r3 w3. rewrite Hf in F.
  destruct (ae_cancelled e) eqn:Ec.
  { intros [= <- <- <-]. split_and!; [done..|]. rewrite Hn3, F. cbn. unfold ended. fold e. by rewrite Ec. }
  destruct (negb _ && _) eqn:Eo.
  { assert (answered_after env (rr_is_grpc r) (S n) = None) as Hx by (cbn; unfold ended; fold e; by rewrite Ec, Eo).
    destruct (sp_waiting_for_client _); intros [= <- <- <-]; (split; [by repeat apply tracked_emit|]);
      (split; [done|]); cbn [w_sent emit]; by rewrite Hn3, F, Hx. }
  destruct (ae_result e) as [response|failure] eqn:Er.
  { intros [= <- <- <-]. cbn [w_sent emit]. rewrite Hn3. unfold record_upstream_responded.
    destruct U as [u E3]. rewrite E3. split_and!.
    - do 2 (apply tracked_emit; [done..|]). unfold tracked, tracks in *. by rewrite E3 in T.
    - eapply rec_kept_trans; [exact H|]. unfold kept. cbn. by rewrite E3.
    - cbn. unfold ended. fold e. by rewrite Ec, Eo, Er. }
  assert (answered_after env (rr_is_grpc r) (S n) = None) as Hx by (cbn; unfold ended; fold e; by rewrite Ec, Eo, Er).
  assert (T3 : forall g, tracked env r3 (emit (DurationObserved g) w3)) by (intros g; by apply tracked_emit).
  destruct (sp_client_failed _); [intros [= <- <- <-]; split_and!; [done..|]; cbn [w_sent emit]; by rewrite Hn3, F, Hx|].
  set (attempts := Z.of_nat _). set (gauge := (p_id p', _)).
  destruct (failed_tracked env a (classify failure) attempts gauge r3 _ (T3 gauge)) as [T4 S4].
  destruct (attempt_failed _ _ _ _ _) as [w4 [unanswered|]]; cbn [fst w_sent emit] in *.
  { intros [= <- <- <-]. split_and!; [done..|]. by rewrite S4, Hn3, F, Hx. }
  rewrite <-Hn3, <-S4 in Hx |- *. intros Hl. rewrite <-Hg in Hx. destruct (IH _ _ _ _ T4 U F Hx Hl) as (T' & H' & F').
  split; [done|]. split; [by eapply rec_kept_trans|]. by rewrite <-Hg.
Qed.

(** The route of a request, and the pool it is forwarded to. *)
Definition routed (st : State) (conn : ConnInfo) (rq : Parts) : option CompiledRoute :=
  match host_of st conn rq with
  | Ok host => match_request (st_routes st) (l_id (ci_listener conn)) host (uri_path (rq_uri rq))
  | Err _ => None
  end.

Definition forwarded_pool (st : State) (conn : ConnInfo) (rq : Parts) : option (Pool Scheme) :=
  match cr_action <$> routed st conn rq with
  | Some (Forward id) =>
      if names_a_path (rq_uri rq) && negb (asks_for_upgrade (rq_headers rq)) then st_pools st !! id else None
  | _ => None
  end.

(** Where the request was taken, as the record has it. *)
Definition settled env (st : State) (conn : ConnInfo) (rq : Parts) r w : Prop :=
  tracks env r w /\ rr_route r = routed st conn rq /\
  ul_pool <$> rr_upstream r = p_id <$> forwarded_pool st conn rq /\
  first_byte r = answered_after env (rr_is_grpc r) (length (w_sent w)).

(** Nothing of the outcome is noted yet. *)
Definition undecided r : Prop :=
  rr_status r = None /\ rr_error r = None /\ rr_grpc_status r = None /\ rr_response_bytes r = 0 /\
  rr_termination r = ClientAbort.

Lemma forward_settled env st conn p now rq has_body r w w' r' res id matched :
  tracked env r w -> rr_upstream r = None -> undecided r ->
  routed st conn rq = Some matched -> rr_route r = Some matched -> cr_action matched = Forward id ->
  st_pools st !! id = Some p ->
  forward hash_ip env st conn p now rq has_body r w = Some (w', r', res) ->
  reports (w_events w') = [] /\ settled env st conn rq r' w' /\ same_head r r' /\ undecided r' /\
  (res = Err ClientGone \/ res = Err Cancelled -> is_Some (rr_upstream r')).
Proof.
  intros Ht Hu Hun Hm Hr Ha Hp. assert (Hs : w_sent w = []) by (destruct Ht as (_ & _ & _ & H); by rewrite Hu in H).
  assert (Hf : forwarded_pool st conn rq =
    if names_a_path (rq_uri rq) && negb (asks_for_upgrade (rq_headers rq)) then Some p else None).
  { unfold forwarded_pool. rewrite Hm. cbn. by rewrite Ha, Hp. }
  assert (Hno : forwarded_pool st conn rq = None -> settled env st conn rq r (put_pool p w)).
  { intros E. destruct Ht as [_ Ht]. unfold settled, first_byte. rewrite E, Hu, Hr, Hm. cbn. by rewrite Hs. }
  assert (Hre : reports (w_events w) = []) by apply Ht.
  unfold forward. destruct (names_a_path _); cbn [negb andb] in *; [|intros [= <- <- <-]; split; [done|]; split; [by apply Hno|]; split; [done|]; split; [done|by intros []]].
  destruct (asks_for_upgrade _); cbn [negb] in *; [intros [= <- <- <-]; split; [done|]; split; [by apply Hno|]; split; [done|]; split; [done|by intros []]|].
  set (r1 := record_forwarding_to (p_id p) r).
  assert (H1 : forall q, tracked env r1 (put_pool q (put_pool p w))).
  { intros q. destruct Ht as (H1 & H2 & H3 & _). unfold tracked, tracks. cbn. rewrite Hs in *. by split_and!. }
  destruct (pool_admit now p) as [q [guard|[]]].
  2, 3: intros [= <- <- <-]; match goal with |- context [emit ?e (put_pool ?q0 ?v)] =>
          destruct (tracked_emit env e r1 (put_pool q0 v) eq_refl eq_refl (H1 q0)) as [Hre1 Htr1] end;
        split; [done|]; split; [|split; [done|split; [done|by intros []]]]; unfold settled, first_byte; rewrite Hf; cbn; rewrite Hs, Hr, Hm; by split_and!.
  set (w1 := mkWorld _ _ _ _). assert (T1 : tracked env r1 w1) by apply (H1 q).
  destruct (forward_loop _ _ _ _ _ _ _ w1) as [[[w2 r2] res2]|] eqn:El; [|done]. intros [= <- <- <-].
  change 0%nat with (length (@nil Sent)) in El. rewrite <-Hs in El.
  destruct (loop_tracked _ _ _ _ _ _ w1 _ _ _ T1 ltac:(by eexists) eq_refl ltac:(cbn; by rewrite Hs) El)
    as (T2 & (H2 & P2 & [= Er Es Ee Eg Eb Et]) & F2).
  assert (Hg : rr_is_grpc r2 = rr_is_grpc r1) by (by apply same_head_grpc).
  destruct T2 as (? & ? & ? & ?). split; [by rewrite admitted_drop_events|].
  assert (is_Some (rr_upstream r2)) as Hl by (destruct (rr_upstream r2); [by eexists|done]).
  split; [|split; [exact H2|split; [|done]; unfold undecided; by rewrite Es, Ee, Eg, Eb, Et]].
  unfold settled. rewrite admitted_drop_sent, Hf, P2, Er, Hg, F2, Hm. split_and!; [|done..].
  unfold tracks. by rewrite admitted_drop_events, admitted_drop_sent.
Qed.

(** The trailers of a response, and how its body ended: when it says that
    it has, or fails. *)
Definition trailers_in (poll : Polled * bool) : option HeaderMap :=
  match poll.1 with ReadyFrame (Trailers trailers) => Some trailers | _ => None end.

Definition ending_in (poll : Polled * bool) : option Termination :=
  match poll with
  | (ReadyEnd, _) | (ReadyFrame _, true) => Some Complete
  | (ReadyError, _) => Some UpstreamAbort
  | _ => None
  end.

Definition bytes_in (poll : Polled * bool) : Z := match poll.1 with ReadyFrame f => data_len f | _ => 0 end.

(** What the client is sent, after a response was decided on. *)
Definition sent_grpc_status (grpc : bool) (polls : list (Polled * bool)) (h : Handled) : option Z :=
  match h with
  | Observed response _ =>
      if grpc then grpc_status (default (rs_headers response) (last (omap trailers_in polls))) else None
  | Abandoned _ | Vanished => None
  end.

Definition sent_ending (polls : list (Polled * bool)) (h : Handled) : Termination :=
  match h with
  | Observed response _ =>
      default (if bd_is_end_stream (rs_body response) then Complete else ClientAbort) (last (omap ending_in polls))
  | Abandoned _ | Vanished => ClientAbort
  end.

Definition sent_bytes (polls : list (Polled * bool)) (h : Handled) : Z :=
  match h with Observed _ _ => sum_list (bytes_in <$> polls) | Abandoned _ | Vanished => 0 end.

Definition sent_status (h : Handled) : Z :=
  match h with Observed response _ => rs_status response | Abandoned _ | Vanished => CLIENT_CLOSED_REQUEST end.

(** Why the node answered itself. *)
Definition own_reason (h : Handled) : option str :=
  match h with Observed _ r => rr_error r | Abandoned _ | Vanished => None end.

(** How long the exchange took. *)
Definition taken env (now later : Z) (attempts : nat) (h : Handled) : Z :=
  match h with
  | Observed _ _ => Z.max 0 (later - now)
  | Abandoned _ | Vanished => Z.max 0 (ae_elapsed (env (pred attempts)))
  end.

(** A request that was reported, once. *)
Definition logged env st conn now rq r0 later polls h w : Prop :=
  exists rp t, reports (w_events w) = [rp] /\
    let r := rp_record rp in
    rp = record_report t r /\ settled env st conn rq r w /\ same_head r0 r /\
    rp_status rp = sent_status h /\ rr_error r = own_reason h /\
    rr_grpc_status r = sent_grpc_status (rr_is_grpc r0) polls h /\ rr_response_bytes r = sent_bytes polls h /\
    rr_termination r = sent_ending polls h /\ rp_elapsed rp = taken env now later (length (w_sent w)) h.

Definition handled_settled env st conn now rq r0 (h : Handled) w : Prop :=
  match h with
  | Observed response r =>
      reports (w_events w) = [] /\ settled env st conn rq r w /\ same_head r0 r /\
      rr_status r = Some (rs_status response) /\ rr_response_bytes r = 0 /\
      rr_grpc_status r = (if rr_is_grpc r0 then grpc_status (rs_headers response) else None) /\
      rr_termination r = (if bd_is_end_stream (rs_body response) then Complete else ClientAbort)
  | Abandoned _ | Vanished => forall later polls, logged env st conn now rq r0 later polls h w
  end.

Lemma drop_settled env st conn rq r t w :
  reports (w_events w) = [] -> settled env st conn rq r w ->
  reports (w_events (record_drop t r w)) = [record_report t r] /\ settled env st conn rq r (record_drop t r w) /\
  w_sent (record_drop t r w) = w_sent w.
Proof.
  intros H1 (H2 & H3).
  assert (reports (w_events (record_drop t r w)) = [record_report t r] /\
          retries (w_events (record_drop t r w)) = retries (w_events w) /\
          w_sent (record_drop t r w) = w_sent w) as (E1 & E2 & E3).
  { unfold record_drop. set (w1 := emit _ (emit _ w)).
    assert (reports (w_events w1) = [record_report t r] /\ retries (w_events w1) = retries (w_events w)) as [A B].
    { unfold reports, retries in *. subst w1. cbn. by rewrite !omap_app, H1; cbn; rewrite !app_nil_r. }
    destruct (rr_upstream r) as [u|]; [|done]. unfold reports, retries in *.
    destruct (drop_busy_quiet report_in (ul_busy u) w1 ltac:(done)) as [-> ->].
    by destruct (drop_busy_quiet retry_in (ul_busy u) w1 ltac:(done)) as [-> _]. }
  unfold settled, tracks. by rewrite E2, E3.
Qed.

Lemma respond_settled env st conn now rq r0 response r w :
  reports (w_events w) = [] -> settled env st conn rq r w -> same_head r0 r ->
  rr_response_bytes r = 0 -> rr_grpc_status r = None -> rr_termination r = ClientAbort ->
  handled_settled env st conn now rq r0 (respond_with response r) w.
Proof.
  intros Hr Hs Hh Hb Hg Ht.
  unfold respond_with, handled_settled, record_respond, note_if_ended. rewrite <-(same_head_grpc _ _ Hh).
  destruct (bd_is_end_stream _); split_and!; try done; cbn; by destruct (rr_is_grpc r).
Qed.

Lemma refuse_settled env st conn now rq r0 why r w w' h :
  refuse why r w = (w', h) -> reports (w_events w) = [] -> settled env st conn rq r w -> same_head r0 r ->
  undecided r -> handled_settled env st conn now rq r0 h w'.
Proof.
  intros E Hr (Ht & Hro & Hp & Hf) Hh (_ & _ & Hg & Hb & Hte). revert E. unfold refuse, record_failed. cbn.
  destruct (rr_upstream r) as [u|] eqn:Hu; intros [= <- <-]; apply respond_settled; try done.
  - unfold reports in *. by destruct (drop_busy_quiet report_in (ul_busy u) w ltac:(done)) as [-> _].
  - unfold settled, first_byte, tracks in *. rewrite Hu in *. cbn in *.
    destruct (drop_busy_quiet retry_in (ul_busy u) w ltac:(done)) as [E1 ->]. unfold retries in *. by rewrite E1.
  - unfold settled, first_byte, tracks in *. cbn. by rewrite Hu in *.
Qed.

(** The record of a request that is given up, reported then and there. *)
Lemma gone_logged env st conn now rq r0 later polls h r w :
  reports (w_events w) = [] -> settled env st conn rq r w -> same_head r0 r -> undecided r ->
  rr_started r = now -> is_Some (rr_upstream r) -> (match h with Observed _ _ => False | _ => True end) ->
  logged env st conn now rq r0 later polls h (record_drop (over_at env now r) r w).
Proof.
  intros Hr Hs Hh (U1 & U2 & U3 & U4 & U5) Hn [u Hu] Hg.
  destruct (drop_settled env st conn rq r (over_at env now r) w Hr Hs) as (D1 & D2 & D3).
  exists (record_report (over_at env now r) r), (over_at env now r). split; [done|]. cbv zeta. split; [done|].
  change (rp_record _) with r. split; [done|]. split; [done|]. rewrite D3.
  assert (rp_elapsed (record_report (over_at env now r) r) = Z.max 0 (ae_elapsed (env (pred (length (w_sent w)))))) as He.
  { destruct Hs as ((_ & _ & Ha) & _). rewrite Hu in Ha. destruct Ha as [Ha _].
    unfold record_report, over_at, saturating_duration_since. cbn. rewrite Hu, Ha, Nat2Z.id, Hn. lia. }
  destruct h; [done|..]; split_and!; try done; unfold record_report; cbn; by rewrite U1.
Qed.

Lemma route_settled env st conn now rq has_body r w w' h :
  tracked env r w -> rr_upstream r = None -> undecided r -> rr_started r = now -> rr_route r = None ->
  host_of st conn rq = Ok (rr_host r) -> route hash_ip env st conn now rq has_body r w = Some (w', h) ->
  handled_settled env st conn now rq r h w'.
Proof.
  intros [Hre Ht] Hu Hun Hn Hr Hh. assert (Hs : w_sent w = []) by (destruct Ht as (_ & _ & H); by rewrite Hu in H).
  assert (Hst : forall r1 w1, rr_upstream r1 = None -> tracks env r1 w1 -> w_sent w1 = [] ->
    rr_route r1 = routed st conn rq -> forwarded_pool st conn rq = None -> settled env st conn rq r1 w1).
  { intros r1 w1 E1 E2 E3 E4 E5. unfold settled, first_byte. by rewrite E1, E3, E4, E5. }
  unfold route. destruct (match_request _ _ _ _) as [matched|] eqn:Em.
  2: { intros [= E]. destruct (tracked_emit env NoRouteCounted r w eq_refl eq_refl (conj Hre Ht)) as [Hre1 Ht1].
       assert (Hro : routed st conn rq = None) by (unfold routed; by rewrite Hh).
       eapply refuse_settled; [exact E|done| |done|done]. apply Hst; try done; [by rewrite Hro|].
       unfold forwarded_pool. by rewrite Hro. }
  assert (Hro : routed st conn rq = Some matched) by (unfold routed; by rewrite Hh).
  set (r1 := record_matched matched r). assert (Ht1 : tracked env r1 w) by (by split).
  assert (Hp : forall action, cr_action matched = action ->
    (match action with Forward id => st_pools st !! id = None | _ => True end) ->
    settled env st conn rq r1 w).
  { intros action Ea Hn1. apply Hst; try done. unfold forwarded_pool. rewrite Hro. cbn. rewrite Ea.
    destruct action; try done. rewrite Hn1. by destruct (_ && _). }
  destruct Hun as (U1 & U2 & U3 & U4 & U5).
  destruct (cr_action matched) as [pool|action|action] eqn:Ea.
  2, 3: intros [= <- <-]; apply respond_settled; try done; exact (Hp _ eq_refl I).
  unfold pool_set_get. destruct (st_pools st !! pool) as [p|] eqn:Ep.
  2: { intros [= E]. eapply refuse_settled; [exact E|done|exact (Hp _ eq_refl Ep)|done|done]. }
  destruct (forward _ _ _ _ _ _ _ _ _ _) as [[[w2 r2] res]|] eqn:Ef; [|done].
  eapply forward_settled in Ef as (Hre2 & Hs2 & Hh2 & Hun2 & Hleg); [|done..|exact Ep].
  assert (Hh3 : same_head r r2) by exact Hh2.
  assert (Hn2 : rr_started r2 = now) by (by rewrite (same_head_started _ _ Hh2)).
  destruct res as [response|[why| |]]; intros [= E].
  - subst w' h. destruct Hun2 as (? & ? & ? & ? & ?). by apply respond_settled.
  - by eapply refuse_settled.
  - subst w' h. intros later polls. by apply gone_logged; [..|apply Hleg; left|].
  - subst w' h. intros later polls. by apply gone_logged; [..|apply Hleg; right|].
Qed.

(** What the polls of a response's body change of its record. *)
Lemma observed_polls r polls (r' := foldl observed_poll r polls) :
  (rr_upstream r', rr_route r', rr_request_bytes r', rr_status r', rr_error r') =
    (rr_upstream r, rr_route r, rr_request_bytes r, rr_status r, rr_error r) /\ same_head r r' /\
  rr_response_bytes r' = rr_response_bytes r + sum_list (bytes_in <$> polls) /\
  rr_grpc_status r' = (if rr_is_grpc r
    then match last (omap trailers_in polls) with Some trailers => grpc_status trailers | None => rr_grpc_status r end
    else rr_grpc_status r) /\
  rr_termination r' = default (rr_termination r) (last (omap ending_in polls)).
Proof.
  subst r'. induction polls as [|poll polls IH] using rev_ind.
  { cbn. split_and!; try done; [lia|by destruct (rr_is_grpc r)]. }
  rewrite foldl_app, fmap_app, !omap_app, sum_list_app. set (r' := foldl observed_poll r polls) in *.
  destruct IH as (E & [H1 H2] & Eb & Eg & Et). assert (Hg : rr_is_grpc r' = rr_is_grpc r) by (by injection H2).
  cbn [foldl]. unfold same_head. destruct poll as [[|f| |] ended]; cbn.
  - rewrite !app_nil_r. split_and!; try done. lia.
  - assert (Hl : forall A (l : list A) x, last (l ++ [x]) = Some x) by (intros; apply last_snoc).
    destruct ended, f; cbn; rewrite ?app_nil_r, ?Hl; split_and!;
      first [done|lia|rewrite ?Hg; by destruct (rr_is_grpc r)].
  - rewrite !app_nil_r, last_snoc. split_and!; try done. lia.
  - rewrite !app_nil_r, last_snoc. split_and!; try done. lia.
Qed.

Lemma exchange_logged env st conn now random rq has_body later polls w h (host := host_of st conn rq) :
  handle hash_ip env st conn now random rq has_body = Some (w, h) ->
  logged env st conn now rq
    (record_begin now conn rq (match host with Ok host => host | Err error => host_error_into_host error end)
       (request_id random.1 random.2 (rq_headers rq)) world_start).2 later polls h (finish later polls h w).
Proof.
  unfold handle. cbv zeta. fold (host_of st conn rq). fold host. set (w0 := emit (RequestsInFlight 1) world_start).
  set (r0 := (record_begin _ _ _ _ _ _).2). intros Hh.
  assert (handled_settled env st conn now rq r0 h w) as Ht.
  { subst r0. destruct host as [name|error] eqn:Eh; cbn [record_begin snd] in *.
    - by eapply route_settled in Hh.
    - apply (inj Some) in Hh. eapply refuse_settled; [exact Hh|done| |done|done].
      assert (Hro : routed st conn rq = None) by (unfold routed; fold host; by rewrite Eh).
      unfold settled, forwarded_pool. by rewrite Hro. }
  destruct h as [response r| |]; [|by apply Ht..]. destruct Ht as (Hre & Hs & Hh' & Hst & Hb & Hg & Hte).
  cbn [finish]. pose proof (observed_polls r polls) as (E & Ho & Eb & Eg & Et). set (r' := foldl _ r polls) in *.
  injection E as E1 E2 E3 E4 E5. assert (Hgr : rr_is_grpc r' = rr_is_grpc r) by (by apply same_head_grpc).
  assert (Hs' : settled env st conn rq r' w).
  { unfold settled, tracks, first_byte in *. by rewrite E1, E2, E3, Hgr. }
  destruct (drop_settled env st conn rq r' later w Hre Hs') as (D1 & D2 & D3).
  assert (Hgr0 : rr_is_grpc r0 = rr_is_grpc r) by (symmetry; by apply same_head_grpc).
  assert (Hn : rr_started r' = now) by (by rewrite (same_head_started _ _ Ho), (same_head_started _ _ Hh')).
  exists (record_report later r'), later. split; [done|]. cbv zeta. split; [done|]. change (rp_record _) with r'.
  split; [done|]. split; [by eapply same_head_trans|]. split_and!.
  - unfold record_report. cbn. by rewrite E4, Hst.
  - by rewrite E5.
  - rewrite Eg, Hg, Hgr0. cbn. destruct (rr_is_grpc r); [|done]. by destruct (last (omap trailers_in polls)).
  - rewrite Eb, Hb. cbn. lia.
  - by rewrite Et, Hte.
  - unfold record_report, saturating_duration_since. cbn. by rewrite Hn.
Qed.
End Tracking.

(** ** The access log agrees with the metrics *)

(** What was added to the series of a family, label by label. *)
Definition counted (family : string) (us : list Update) : list (list str * Z) :=
  omap (fun u => if String.eqb u.1.1 family then Some (u.1.2, u.2) else None) us.

(** The families only a report adds to. *)
Definition report_families : list string :=
  ["gfe_requests"; "gfe_request_duration_seconds"; "gfe_request_body_bytes"; "gfe_response_body_bytes";
   "gfe_grpc_responses"; "gfe_requests_aborted"].

Lemma counted_reports family events :
  family ∈ report_families ->
  counted family (updates events) = reports events ≫= fun rp => counted family (report_updates rp).
Proof.
  intros Hf. assert (forall e, counted family (event_updates e) =
    match report_in e with Some rp => counted family (report_updates rp) | None => [] end) as He.
  { intros e. unfold report_families in Hf. rewrite !elem_of_cons, elem_of_nil in Hf.
    destruct e; try reflexivity; destruct_or? Hf; try done; subst family; reflexivity. }
  induction events as [|e events IH]; [done|]. unfold updates, reports in *.
  change (counted family (event_updates e ++ (events ≫= event_updates)) =
    omap report_in (e :: events) ≫= fun rp => counted family (report_updates rp)).
  unfold counted in *. rewrite omap_app, IH, He. change (omap report_in (e :: events)) with
    (match report_in e with Some rp => rp :: omap report_in events | None => omap report_in events end).
  by destruct (report_in e).
Qed.

Section AccessFacts.
Context `{L : HttpLib} (hash_ip : IpAddr -> Z) (method_text : Method -> str) (version_text : Version -> str).

Lemma report_counted rp (per_route := [rr_listener (rp_record rp); rp_vhost rp; rp_route rp]) :
  counted "gfe_requests" (report_updates rp) = [(per_route ++ [decimal (rp_status rp)], 1)] /\
  counted "gfe_request_body_bytes" (report_updates rp) = [(per_route, rr_request_bytes (rp_record rp))] /\
  counted "gfe_response_body_bytes" (report_updates rp) = [(per_route, rr_response_bytes (rp_record rp))] /\
  counted "gfe_grpc_responses" (report_updates rp) =
    match rr_grpc_status (rp_record rp) with Some status => [(per_route ++ [decimal status], 1)] | None => [] end /\
  counted "gfe_requests_aborted" (report_updates rp) =
    match rp_aborted_by rp with Some by_ => [(per_route ++ [by_], 1)] | None => [] end.
Proof.
  unfold counted, report_updates. rewrite !omap_app.
  destruct (rr_grpc_status _), (rp_aborted_by rp); split_and!; reflexivity.
Qed.

(** The line a request should have, from the request, its connection, the
    requests sent for it and what its client was sent. *)
Definition true_line (env : nat -> AttemptEnv) (st : State) (conn : ConnInfo) (now : Z) (random : Z * Z)
    (rq : Parts) (later : Z) (polls : list (Polled * bool)) (h : Handled) (sent : list Sent) : Fields :=
  let grpc := is_grpc (rq_headers rq) in
  let attempts := length sent in
  [("request_id", Some (FText (request_id random.1 random.2 (rq_headers rq))));
   ("client", Some (FText (ip_to_string (sa_ip (ci_client conn)))));
   ("client_port", Some (FCount (sa_port (ci_client conn))));
   ("listener", Some (FText (l_id (ci_listener conn))));
   ("proto", Some (FText (match ci_tls conn with Some _ => lit "https" | None => lit "http" end)));
   ("http_version", Some (FText (version_text (rq_version rq))));
   ("sni", match ci_tls conn with Some tls => FText <$> ti_sni tls | None => None end);
   ("tls_version", match ci_tls conn with Some tls => Some (FText (ti_version tls)) | None => None end);
   ("tls_cipher", match ci_tls conn with Some tls => Some (FText (ti_cipher tls)) | None => None end);
   ("method", Some (FText (method_text (rq_method rq))));
   ("host", Some (FText (match host_of st conn rq with
                         | Ok host | Err (Conflict host) | Err (Misdirected host) => host
                         | Err Missing => []
                         end)));
   ("path", Some (FText (uri_path (rq_uri rq))));
   ("user_agent", match headers_get (rq_headers rq) USER_AGENT with
                  | Some agent => FText <$> value_to_str agent
                  | None => None
                  end);
   ("status", Some (FCount (sent_status h)));
   ("grpc_status", FCount <$> sent_grpc_status grpc polls h);
   ("route", Some (FText (match routed st conn rq with Some route => cr_id route | None => lit "none" end)));
   ("pool", FText ∘ p_id <$> forwarded_pool st conn rq);
   ("backend", FText ∘ sn_authority <$> last sent);
   ("attempts", const (FCount (Z.of_nat attempts)) <$> forwarded_pool st conn rq);
   ("error", FText <$> own_reason h);
   ("termination", Some (FText (match sent_ending polls h with
                                | Complete => lit "complete"
                                | ClientAbort => lit "client_abort"
                                | UpstreamAbort => lit "upstream_abort"
                                end)));
   ("request_bytes", Some (FCount (last_read env attempts)));
   ("response_bytes", Some (FCount (sent_bytes polls h)));
   ("duration_ms", Some (FMillis (millis (taken env now later attempts h))));
   ("upstream_ttfb_ms", FMillis ∘ millis <$> answered_after env grpc attempts)].

(** The fields of a record's upstream leg, as the line has them. *)
Lemma line_leg env st conn rq r w :
  settled env st conn rq r w ->
  (fun u => FText (ul_pool u)) <$> rr_upstream r = FText ∘ p_id <$> forwarded_pool st conn rq /\
  FText <$> (rr_upstream r ≫= ul_backend) = FText ∘ sn_authority <$> last (w_sent w) /\
  (fun u => FCount (ul_attempts u)) <$> rr_upstream r =
    const (FCount (Z.of_nat (length (w_sent w)))) <$> forwarded_pool st conn rq.
Proof.
  intros ((_ & _ & Hu) & _ & Hp & _).
  destruct (rr_upstream r) as [u|], (forwarded_pool st conn rq) as [p|]; try discriminate Hp; cbn in *.
  - injection Hp as ->. destruct Hu as [-> ->]. by destruct (last (w_sent w)).
  - by rewrite Hu.
Qed.

Lemma logged_line env st conn now random rq later polls h w rp t host
    (r0 := (record_begin now conn rq host (request_id random.1 random.2 (rq_headers rq)) world_start).2)
    (r := rp_record rp) :
  host = match host_of st conn rq with Ok host => host | Err error => host_error_into_host error end ->
  rp = record_report t r -> settled env st conn rq r w -> same_head r0 r ->
  rp_status rp = sent_status h -> rr_error r = own_reason h ->
  rr_grpc_status r = sent_grpc_status (rr_is_grpc r0) polls h -> rr_response_bytes r = sent_bytes polls h ->
  rr_termination r = sent_ending polls h -> rp_elapsed rp = taken env now later (length (w_sent w)) h ->
  access_event method_text version_text rp = true_line env st conn now random rq later polls h (w_sent w).
Proof.
  intros Hho Hrp Hs Hh H1 H2 H3 H4 H5 H6. destruct (line_leg env st conn rq r w Hs) as (L1 & L2 & L3).
  destruct Hs as ((_ & Hb & _) & Hro & _ & Hf). pose proof (same_head_grpc _ _ Hh) as Hg.
  destruct Hh as [E1 E2]. cbn in E1, E2, Hg. injection E1 as _ C1 C2 C3 C4. injection E2 as C5 C6 C7 C8 _.
  assert (Hr : rp_route rp = match routed st conn rq with Some route => cr_id route | None => lit "none" end).
  { rewrite Hrp, <-Hro. cbn. by destruct (rr_route r). }
  unfold access_event, true_line. fold r.
  rewrite Hr, H1, H2, H3, H4, H5, H6, L1, L2, L3, Hb, C1, C2, C3, C4, C5, C6, C7, C8, Hho. cbn [rr_is_grpc r0 snd record_begin].
  repeat (f_equal; []). unfold first_byte in Hf. rewrite Hf, Hg. unfold conn_sni.
  destruct (host_of st conn rq) as [|[]], (ci_tls conn), (headers_get _ _), (sent_ending polls h), (answered_after _ _ _); reflexivity.
Qed.

End AccessFacts.

(** ** The events of one connection can be joined *)

(** The client an event names. *)
Definition named_client (fields : Fields) : option FieldValue * option FieldValue :=
  (field "client" fields, field "client_port" fields).

(** A connection from [peer], whatever form its address has: the lines of its
    requests, its own event and the kernel's name the same client. *)
Lemma events_join method_text version_text error_text q l local peer tls now m rp e label closed :
  rr_conn (rp_record rp) = conn_info_new peer local l tls ->
  cr_client (ev_record e) = cr_client (record_open q l local peer now m).2 ->
  cn_peer closed = canonical_addr peer ->
  named_client (access_event method_text version_text rp) = named_client (conn_event error_text e) /\
  named_client (tcp_event (true, label, closed)) = named_client (conn_event error_text e).
Proof.
  intros Ha Hc Ht. unfold named_client, access_event, conn_event, tcp_event, field.
  cbn [find_first String.eqb Ascii.eqb Bool.eqb fst andb app]. by rewrite Ha, Hc, Ht.
Qed.

(** The record of a connection is of its client all along. *)
Lemma conn_client_kept limits s c :
  edge_reach limits s ->
  (exists ph, (c, ph) ∈ es_conns s) \/ (exists e, e ∈ es_events s /\ ev_record e = c) ->
  exists peer, cr_client c = record_canonical peer.
Proof.
  intros Hr. enough (Forall (fun c => exists peer, cr_client c.1 = record_canonical peer) (es_conns s) /\
    Forall (fun e => exists peer, cr_client (ev_record e) = record_canonical peer) (es_events s)) as [H1 H2].
  { rewrite Forall_forall in H1. rewrite Forall_forall in H2. intros [[ph Hc]|(e & He & <-)]; [apply (H1 _ Hc)|by apply H2]. }
  clear c. induction Hr as [|now ev s s' _ [H1 H2] Hev]; [done|].
  assert (Hover : forall j panicking r m, (exists peer, cr_client r = record_canonical peer) ->
    Forall (fun c => exists peer, cr_client c.1 = record_canonical peer) (es_conns (conn_over now j panicking r m s)) /\
    Forall (fun e => exists peer, cr_client (ev_record e) = record_canonical peer)
      (es_events (conn_over now j panicking r m s))).
  { intros j panicking r m Hp. unfold conn_over, conn_record_drop.
    destruct (match cr_meter r with Some c => _ | None => _ end) as [bi bo]. cbn.
    split; [by apply Forall_delete|]. apply Forall_app. by repeat constructor. }
  destruct ev as [q l local client|limit|j read written|j h|j c|j panicking]; simpl in Hev.
  - injection Hev as <-. cbn. split; [|done]. apply Forall_app. split; [done|].
    constructor; [by exists client|done].
  - by injection Hev as <-.
  - destruct (es_conns s !! j) as [[r ph]|] eqn:Hj; [|done]. injection Hev as <-. cbn. split; [|done].
    apply Forall_insert; [done|]. apply (Forall_lookup_1 _ _ _ _ H1 Hj).
  - destruct (es_conns s !! j) as [[r [started|]]|] eqn:Hj; try done.
    pose proof (Forall_lookup_1 _ _ _ _ H1 Hj) as Hp. cbn in Hp.
    destruct h as [tls|e|]; injection Hev as <-; [|by apply Hover..]. cbn. split; [|done].
    by apply Forall_insert.
  - destruct (es_conns s !! j) as [[r [|]]|] eqn:Hj; try done. injection Hev as <-.
    apply Hover. apply (Forall_lookup_1 _ _ _ _ H1 Hj).
  - destruct (es_conns s !! j) as [[r ph]|] eqn:Hj; try done. injection Hev as <-.
    apply Hover. apply (Forall_lookup_1 _ _ _ _ H1 Hj).
Qed.

(** ** The line of a request that was retried *)

Definition example_line (name : string) : option (option FieldValue) :=
  (fun wh => match reports (w_events (finish 9 [(ReadyEnd, true)] wh.2 wh.1)) with
             | [rp] => field name (access_event (fun _ => lit "GET") (fun _ => lit "HTTP/1.1") rp)
             | _ => None
             end) <$> example_exchange.

