(* ===== verification/Frontend.v ===== *)
(** * The front end: [gfe/proxy/src/frontend.rs], with the client of
    [handler/state.rs] and attaching the kernel's view of [kernel.rs]

    How the parts are put together when a node starts, what it samples for a
    scrape, and how it drains: the client from the bootstrap config, the
    edge's options, the listeners with the sockets taken over, the
    controller. What only the system can answer (the files, rustls, the
    kernel program) comes in through [StartEnv]; the world the controller
    sees is [Reload]'s. *)

From S2P Require Import Prelude Str Net RateLimiting HealthChecking LoadBalancing.
From S2P Require Import Routing Tls Http Request Forward Causes TlsPolicy Client Listen Accept.
From S2P Require Import Server Config Edge Kernel Reload.

(** ** The client requests are sent with: [client_options] and [connector] *)

Inductive ProxyError :=
| UpstreamTls (setting file reason : str)
| IncompleteClientCertificate
| ClientIdentity (cert_file key_file reason : str)
| ProxyTls (e : ConnectorError).

Definition BACKEND_ADDRESS_TTL : Z := from_secs 10.
Definition NO_IDLE_CAP : Z := usize_max.

Section Connector.
(** Reading a file, with the error's text. *)
Context `{RustlsClient Der PrivateKey Roots} (fs_read : str -> result str str).

Definition read_setting (file setting : str) : result str ProxyError :=
  map_err (UpstreamTls setting file) (fs_read file).

(** The files of the client certificate, read, if both are set. *)
Definition read_identity (u : UpstreamConfig) : result (option (str * str * Identity)) ProxyError :=
  match client_cert_file u, client_key_file u with
  | Some cert_file, Some key_file =>
      let? cert := read_setting cert_file (lit "client_cert_file") in
      let? key := read_setting key_file (lit "client_key_file") in
      Ok (Some (cert_file, key_file, mkIdentity cert key))
  | None, None => Ok None
  | _, _ => Err IncompleteClientCertificate
  end.

Definition connector (u : UpstreamConfig) : result (ClientConfig Der PrivateKey Roots) ProxyError :=
  let? trust :=
    match extra_ca_file u with
    | Some file => let? bundle := read_setting file (lit "extra_ca_file") in Ok (TrustSystemAnd bundle)
    | None => Ok TrustSystem
    end in
  let? identity := read_identity u in
  let? trusted :=
    map_err (fun error =>
      match extra_ca_file u with
      | Some file => UpstreamTls (lit "extra_ca_file") file (connector_error_text error)
      | None => ProxyTls error
      end) (connector_new (mkConnectorOptions trust None)) in
  match identity with
  | None => Ok trusted
  | Some (cert_file, key_file, identity) =>
      map_err (fun error => ClientIdentity cert_file key_file (connector_error_text error))
        (connector_new (mkConnectorOptions trust (Some identity)))
  end.

Record ClientOptions := mkClientOptions {
  cs_idle_per_host : Z;
  cs_idle_timeout : option Z;
  cs_connect_timeout : option Z;
  cs_http2_keep_alive : option (Z * Z);
  cs_max_connections : option Z;
  cs_tls : ClientConfig Der PrivateKey Roots;
  cs_address_ttl : Z;
}.

Definition client_options (config : NodeConfig) : result ClientOptions ProxyError :=
  let t := nc_timeouts config in
  let? tls := connector (nc_upstream config) in
  Ok (mkClientOptions
        (match idle_per_host (nc_upstream config) with
         | None => NO_IDLE_CAP
         | Some n => if n =? 0 then NO_IDLE_CAP else n
         end)
        (Some (Config.idle_timeout (nc_upstream config)))
        (Some (upstream_connect t)) (Some (upstream_first_byte t, upstream_connect t))
        (Some (Config.max_upstream_connections (nc_limits config))) tls BACKEND_ADDRESS_TTL).
End Connector.
Arguments ClientOptions : clear implicits.

(** ** Starting *)

Inductive StartError {R : Type} :=
| StartProxy (e : ProxyError)
| StartTls (e : ConnectorError)
| StartHttp (e : InvalidOptions)
| StartConfig (e : R).
Arguments StartError : clear implicits.

(** [kernel::attach]: whether the view is attached, as the gauge says. *)
Definition kernel_attach {P} (attach : Z -> result P Unavailable) (config : NodeConfig) : option P * Z :=
  match attach (table_size (Config.max_connections (nc_limits config))
                  (Config.max_upstream_connections (nc_limits config))) with
  | Ok probe => (Some probe, 1)
  | Err _ => (None, 0)
  end.

(** Where the kernel program cannot exist a node runs without its view. *)
Lemma other_view config : kernel_attach other_attach config = (None, 0).
Proof. done. Qed.

(** What is sampled: upstream connections and their limit, connections whose
    rate was not applied, what the kernel view lost. *)
Record FrontendGauges := mkFrontendGauges {
  fg_ebpf_attached : Z;
  fg_upstream_limit : Z;
  fg_upstream_connections : Z;
  fg_client_rate_untracked : Z;
  fg_ebpf_lost_events : Z;
}.

(** [C] is the TLS configuration of the client, [T] the listeners'. *)
Record Frontend {P C T : Type} := mkFrontend {
  fr_node : Node;
  fr_client : ClientConns;
  fr_client_tls : C;
  fr_tls : T;
  fr_options : ServerOptions;
  fr_edge : EdgeState;
  fr_admission : Admission;
  fr_draining : bool;
  fr_kernel : option P;
  fr_reporting : bool;
  fr_gauges : FrontendGauges;
}.
Arguments Frontend : clear implicits.

Section Start.
Context {P I PE E W : Type} `{RustlsClient Der PrivateKey Roots} `{RustlsServer Ticketer} (hash64 : str -> Z -> Z).
Notation frontend := (Frontend P (ClientConfig Der PrivateKey Roots) (ServerConfig unit Ticketer)).
Notation reload_error := (ReloadError (I := I) (P := PE) (E := E) (W := W)).

(** The world a node starts in; [se_meanwhile] is what reloads, probes and
    requests do between its first config and the checks of it ([start]). *)
Record StartEnv := mkStartEnv {
  se_attach : Z -> result P Unavailable;
  se_read : str -> result str str;
  se_watched : result unit W;
  se_meanwhile : Node -> Node;
  se_reload : ReloadEnv (I := I) (P := PE) (E := E);
  se_files : gmap str str;
}.

(** The reloader of the bootstrap config. *)
Definition reloader_of (config : NodeConfig) : Reloader :=
  mkReloader (config_file (nc_control_plane config)) (local_cache (nc_control_plane config))
    (nc_health_check_defaults config).

(** The node before its first config, with the sockets taken over. *)
Definition starting_node (files : gmap str str) (inherited : list (SocketAddr * nat)) : Node :=
  put_listeners (mkEdgeListeners (adopt inherited (el_inner edge_new)) (el_addresses edge_new)) (node_new files).

(** [Frontend::start], with the sockets taken over. The reference to the
    resolver that the TLS policy is given is the node's one resolver. *)
Definition frontend_start (env : StartEnv) (config : NodeConfig) (inherited : list (SocketAddr * nat)) :
    result frontend (StartError reload_error) :=
  let (kernel, attached) := kernel_attach (se_attach env) config in
  let? options := map_err StartProxy (client_options (se_read env) config) in
  let limit := Config.max_upstream_connections (nc_limits config) in
  let? tls := map_err StartTls (server_config () (min_version (nc_tls config))) in
  let? http := map_err StartHttp (new_edge (nc_timeouts config) (nc_limits config)) in
  match start (W := W) hash64 (se_reload env) (se_watched env) (se_meanwhile env) (reloader_of config)
          (starting_node (se_files env) inherited) with
  | (_, Err e) => Err (StartConfig e)
  | (n, Ok _) =>
      Ok (mkFrontend _ _ _ n (conns_new (cs_max_connections options) (cs_address_ttl options))
            (cs_tls options) tls http
            (edge_start (nc_limits config)) (admission_new (listen_limits (nc_limits config))) false kernel
            (negb (is_none kernel))
            (mkFrontendGauges attached (gauge_i64 limit) 0 0 0))
  end.

(** [refresh_metrics], with what the kernel view counts as lost. *)
Definition refresh_metrics (lost_events : P -> Z) (fr : frontend) : frontend :=
  let g := fr_gauges fr in
  mkFrontend _ _ _ (fr_node fr) (fr_client fr) (fr_client_tls fr) (fr_tls fr) (fr_options fr) (fr_edge fr)
    (fr_admission fr) (fr_draining fr)
    (fr_kernel fr) (fr_reporting fr)
    (mkFrontendGauges (fg_ebpf_attached g) (fg_upstream_limit g)
       (gauge_i64 (open_connections (fr_client fr)))
       (gauge_i64 (untracked_connections (fr_admission fr)))
       (match fr_kernel fr with Some probe => gauge_i64 (lost_events probe) | None => fg_ebpf_lost_events g end)).

Definition stop_kernel_view (fr : frontend) : frontend :=
  mkFrontend _ _ _ (fr_node fr) (fr_client fr) (fr_client_tls fr) (fr_tls fr) (fr_options fr) (fr_edge fr)
    (fr_admission fr) (fr_draining fr)
    (fr_kernel fr) false (fr_gauges fr).

(** [drain], up to the wait for the connections ([drained] of [Accept]):
    following the config stops before the signal is given. *)
Definition frontend_drain (fr : frontend) : frontend :=
  mkFrontend _ _ _ (shutdown (fr_node fr)) (fr_client fr) (fr_client_tls fr) (fr_tls fr) (fr_options fr)
    (fr_edge fr) (fr_admission fr)
    true (fr_kernel fr) (fr_reporting fr) (fr_gauges fr).

(** [Frontend::check]: everything a reload does short of swapping it in. *)
Definition frontend_check (load : str -> str -> result Z (TlsError I)) (config : DynamicConfig) :
    result unit reload_error :=
  let? _ := (prepare hash64 load config (health_map_new true)).2 in Ok ().
End Start.

(** ** What backends are spoken to with *)

Section ConnectorFacts.
Context `{RustlsClientLaws Der PrivateKey Roots} (fs_read : str -> result str str).

(** The files of the upstream settings. *)
Definition upstream_files (u : UpstreamConfig) : list (str * option str) :=
  [(lit "extra_ca_file", extra_ca_file u); (lit "client_cert_file", client_cert_file u);
   (lit "client_key_file", client_key_file u)].

(** An error of the connector is about the setting at fault: a file that
    could not be read, a bundle or an identity that could not be used (or
    rustls refusing its own versions), a certificate without its key. *)
Definition truly (u : UpstreamConfig) (e : ProxyError) : Prop :=
  match e with
  | UpstreamTls setting file reason =>
      (setting, Some file) ∈ upstream_files u /\
      (fs_read file = Err reason \/
       exists bundle, setting = lit "extra_ca_file" /\ fs_read file = Ok bundle /\
         (bundle_unusable bundle \/ exists t, safe_default_versions = Err t))
  | IncompleteClientCertificate => ~ (is_Some (client_cert_file u) <-> is_Some (client_key_file u))
  | ClientIdentity cert_file key_file reason =>
      client_cert_file u = Some cert_file /\ client_key_file u = Some key_file /\
      exists cert key, fs_read cert_file = Ok cert /\ fs_read key_file = Ok key /\
        identity_unusable (mkIdentity cert key)
  | ProxyTls e => extra_ca_file u = None /\ exists t, e = PolicyError t /\ safe_default_versions = Err t
  end.

(** The trust and the identity the settings name, as their files hold them. *)
Definition named_trust (u : UpstreamConfig) (trust : Trust) : Prop :=
  match extra_ca_file u with
  | Some file => exists bundle, fs_read file = Ok bundle /\ trust = TrustSystemAnd bundle
  | None => trust = TrustSystem
  end.

Definition named_identity (u : UpstreamConfig) (identity : option Identity) : Prop :=
  match identity with
  | None => client_cert_file u = None /\ client_key_file u = None
  | Some i =>
      exists cert_file key_file, client_cert_file u = Some cert_file /\ client_key_file u = Some key_file /\
        fs_read cert_file = Ok (id_cert_chain_pem i) /\ fs_read key_file = Ok (id_key_pem i)
  end.

Lemma read_setting_error file setting e :
  read_setting fs_read file setting = Err e ->
  exists reason, e = UpstreamTls setting file reason /\ fs_read file = Err reason.
Proof. unfold read_setting. destruct (fs_read file); simpl; intros; simplify_eq. by eexists. Qed.

Lemma read_identity_spec u :
  match read_identity fs_read u with
  | Ok None => client_cert_file u = None /\ client_key_file u = None
  | Ok (Some (cert_file, key_file, identity)) =>
      client_cert_file u = Some cert_file /\ client_key_file u = Some key_file /\
      fs_read cert_file = Ok (id_cert_chain_pem identity) /\ fs_read key_file = Ok (id_key_pem identity)
  | Err e => truly u e
  end.
Proof.
  unfold read_identity, read_setting.
  destruct (client_cert_file u) as [cf|] eqn:Ec, (client_key_file u) as [kf|] eqn:Ek; simpl; try done.
  - destruct (fs_read cf) eqn:E1; simpl; [destruct (fs_read kf) eqn:E2; simpl; [done|]|].
    + split; [|by left]. unfold upstream_files. rewrite Ek. set_solver.
    + split; [|by left]. unfold upstream_files. rewrite Ec. set_solver.
  - rewrite Ec, Ek. intros [Hi _]. by destruct (Hi ltac:(by eexists)).
  - rewrite Ec, Ek. intros [_ Hi]. by destruct (Hi ltac:(by eexists)).
Qed.

Lemma trust_spec u :
  match match extra_ca_file u with
        | Some file => let? bundle := read_setting fs_read file (lit "extra_ca_file") in Ok (TrustSystemAnd bundle)
        | None => Ok TrustSystem
        end with
  | Ok trust => named_trust u trust
  | Err e => truly u e
  end.
Proof.
  unfold named_trust, read_setting. destruct (extra_ca_file u) as [file|] eqn:Ef; [|done].
  destruct (fs_read file) as [bundle|reason] eqn:Er; simpl; [eauto|].
  split; [|by left]. unfold upstream_files. rewrite Ef. set_solver.
Qed.

(** An error of building the trust alone is that of the bundle, or rustls's. *)
Lemma trust_at_fault u trust e :
  named_trust u trust -> connector_new (mkConnectorOptions trust None) = Err e ->
  truly u match extra_ca_file u with
          | Some file => UpstreamTls (lit "extra_ca_file") file (connector_error_text e)
          | None => ProxyTls e
          end.
Proof.
  unfold named_trust. intros Ht He. pose proof (connector_new_spec (mkConnectorOptions trust None)) as Hs.
  rewrite He in Hs. destruct (extra_ca_file u) as [file|] eqn:Ef.
  - destruct Ht as (bundle & Hf & ->). unfold truly, upstream_files. rewrite Ef.
    split; [set_solver|]. right. exists bundle. split_and!; [done..|].
    destruct e as [reason|t]; [|right; by exists t]. left.
    by destruct Hs as [(b & [= <-] & Hb)|(i & [=] & _)].
  - subst trust. unfold truly. split; [done|].
    destruct e as [reason|t]; [|by exists t]. by destruct Hs as [(b & [=] & _)|(i & [=] & _)].
Qed.

Lemma connector_spec u :
  match connector fs_read u with
  | Ok c => exists trust identity,
      named_trust u trust /\ named_identity u identity /\ trusts trust c /\ presents identity c
  | Err e => truly u e
  end.
Proof.
  unfold connector. pose proof (trust_spec u) as Ht.
  destruct (match extra_ca_file u with Some _ => _ | None => _ end) as [trust|e]; [|done]. simpl.
  pose proof (read_identity_spec u) as Hi. destruct (read_identity fs_read u) as [identity|e]; [|done]. simpl.
  pose proof (trust_at_fault u trust) as Hf. pose proof (connector_new_spec (mkConnectorOptions trust None)) as Hn.
  destruct (connector_new (mkConnectorOptions trust None)) as [trusted|e] eqn:En; simpl; [|by apply Hf].
  destruct identity as [[[cf kf] i]|]; [|by exists trust, None].
  destruct Hi as (Hc & Hk & Hcr & Hkr).
  pose proof (connector_new_spec (mkConnectorOptions trust (Some i))) as Hs.
  destruct (connector_new (mkConnectorOptions trust (Some i))) as [c|e] eqn:Es; simpl.
  - exists trust, (Some i). split_and!; [done| |apply Hs..]. by exists cf, kf.
  - split_and!; [done..|]. exists (id_cert_chain_pem i), (id_key_pem i). split_and!; [done..|].
    destruct i. by eapply identity_at_fault.
Qed.
End ConnectorFacts.

(** ** A node that starts, and drains *)

Section Serving.
Context {P I PE E W : Type} `{RustlsClientLaws Der PrivateKey Roots} `{RustlsServer Ticketer} (hash64 : str -> Z -> Z).
Implicit Types (env : StartEnv (P := P) (I := I) (PE := PE) (E := E) (W := W)).

(** C8: Starting a node is all or nothing. With a bootstrap config that was
    accepted, a start that succeeds gives a node that serves one valid
    dynamic config whole, on options the server takes, with a client capped
    as configured, ready and following its config; once told to drain it no
    longer does either, no health check is left, and no reload changes
    anything. A start that fails never does so for the client timeouts and
    limits or for half a client certificate, and an error about the upstream
    settings is true of them. *)
Theorem frontend_serves env config inherited header idle deadline (t := nc_timeouts config) :
  validate_node_config config = Ok () ->
  parse_duration header = Ok (request_header t) -> parse_duration idle = Ok (client_idle t) ->
  parse_duration deadline = Ok (drain_deadline t) ->
  env_typed (se_reload env) ->
  meanwhile_ok (I := I) (P := PE) (E := E) (W := W) hash64 (reloader_of config) (se_meanwhile env) ->
  match frontend_start hash64 env config inherited with
  | Ok fr =>
      (exists dynamic, node_serves (I := I) dynamic (fr_node fr)) /\
      options_validate (fr_options fr) = Ok () /\
      Client.max_connections (fr_client fr) = Some (max_upstream_connections (nc_limits config)) /\
      open_connections (fr_client fr) = 0 /\ fr_draining fr = false /\ n_following (fr_node fr) = true /\
      let gone := frontend_drain fr in
      fr_draining gone = true /\ hc_tasks (n_checker (fr_node gone)) = ∅ /\
      (forall renv : ReloadEnv (I := I) (P := PE) (E := E),
         reload (W := W) hash64 renv (reloader_of config) (fr_node gone) = fr_node gone) /\
      (forall renv : ReloadEnv (I := I) (P := PE) (E := E),
         reload_if_certificates_changed (W := W) hash64 renv (reloader_of config) (fr_node gone) =
         fr_node gone)
  | Err (StartProxy e) =>
      e <> IncompleteClientCertificate /\ truly (se_read env) (nc_upstream config) e
  | Err (StartHttp _) => False
  | Err _ => True
  end.
Proof.
  intros Hc Hh Hi Hd Ht Hm. destruct (accepted_options config header idle deadline Hc Hh Hi Hd) as (Ho & _ & Hv).
  unfold frontend_start. destruct (kernel_attach _ _) as [kernel attached].
  destruct (client_options _ config) as [options|e] eqn:Eo; simpl.
  - destruct (server_config _ _) as [tls|]; simpl; [|done]. rewrite Ho. simpl.
    destruct (start _ _ _ _ _) as [n [[]|e]] eqn:Es; [|done].
    destruct (start_sound _ _ _ _ _ _ _ _ Ht Hm Es) as (Hf & [dynamic Hs] & _).
    split_and!; simpl; try done; [by exists dynamic; apply Hs|].
    unfold client_options in Eo. by destruct (connector _ _); simplify_eq.
  - unfold client_options in Eo. pose proof (connector_spec (se_read env) (nc_upstream config)) as Hc'.
    destruct (connector _ _) as [|e'] eqn:Ec; simplify_eq. split; [|done]. intros ->. apply Hc'.
    by apply validate_upstream_section_iff, validate_node_limits.
Qed.

(** C9: TLS on both sides of a node that started is what its config says.
    Towards backends, certificates are verified against the system's roots
    that parse and, with [extra_ca_file], every certificate of that file,
    never not at all; the client certificate presented is the configured
    one, or none. Towards clients, a handshake that completes is reported
    with a version no older than the configured minimum, the name of its
    cipher suite, a protocol that is h2, http/1.1 or none, and a server name
    in lower case. *)
Theorem tls_as_configured established `{!NegotiatesWithin established} env config inherited fr :
  frontend_start hash64 env config inherited = Ok fr ->
  (exists trust identity,
     named_trust (se_read env) (nc_upstream config) trust /\ trust <> TrustUnverified /\
     named_identity (se_read env) (nc_upstream config) identity /\
     trusts trust (fr_client_tls fr) /\ presents identity (fr_client_tls fr)) /\
  forall session, established (fr_tls fr) session ->
    let info := tls_info_of session in
    ti_version info ∈ allowed_versions (min_version (nc_tls config)) /\
    Some (ti_cipher info) = ss_cipher session /\
    (forall p, ti_alpn info = Some p -> p ∈ ALPN_PROTOCOLS) /\
    to_ascii_lowercase <$> ti_sni info = ti_sni info.
Proof.
  unfold frontend_start. destruct (kernel_attach _ _) as [kernel attached].
  destruct (client_options _ config) as [options|e] eqn:Eo; simpl; [|done].
  destruct (server_config _ _) as [tls|] eqn:Et; simpl; [|done].
  destruct (new_edge _ _) as [http|]; simpl; [|done].
  destruct (start _ _ _ _ _) as [n [[]|e]]; [|done]. intros [= <-]. simpl. split.
  - unfold client_options in Eo. pose proof (connector_spec (se_read env) (nc_upstream config)) as Hc.
    destruct (connector _ _) as [c|]; simplify_eq. destruct Hc as (trust & identity & Ht & Hi & Htr & Hp).
    exists trust, identity. split_and!; try done. unfold named_trust in Ht.
    destruct (extra_ca_file _); [by destruct Ht as (? & _ & ->)|by subst].
  - intros session He. by destruct (session_within_policy _ _ _ _ _ Et He) as [_ Hs].
Qed.
End Serving.

(** ** A node that takes a socket over *)

Definition example_start_env : StartEnv (P := unit) (I := unit) (PE := unit) (E := unit) (W := unit) :=
  mkStartEnv (fun _ => Err NotLinux) (fun file => Ok file) (Ok ())
    (reload (W := unit) example_hash64 other_reload_env (reloader_of hasty_node)) example_reload_env ∅.

Definition example_inherited : list (SocketAddr * nat) := [(mkSocketAddr (V4 [0; 0; 0; 0]) 443, 7%nat)].

Lemma frontend_serves_witness :
  exists fr, frontend_start example_hash64 example_start_env hasty_node example_inherited = Ok fr /\
    (exists dynamic, node_serves (I := unit) dynamic (fr_node fr)) /\ fr_kernel fr = None.
Proof.
  assert (Hk : match frontend_start example_hash64 example_start_env hasty_node example_inherited with
               | Ok fr => is_none (fr_kernel fr) | Err _ => false end = true) by (vm_compute; reflexivity).
  pose proof (frontend_serves example_hash64 example_start_env hasty_node example_inherited
    (lit "1us") (lit "1us") (lit "1us")
    ltac:(vm_compute; reflexivity) ltac:(vm_compute; reflexivity) ltac:(vm_compute; reflexivity)
    ltac:(vm_compute; reflexivity) example_env_typed (fun n => rtc_once _ _ (step_reload _ _ _ n other_env_typed))) as H.
  destruct (frontend_start example_hash64 example_start_env hasty_node example_inherited) as [fr|e];
    [|discriminate Hk].
  exists fr. split; [reflexivity|]. split; [exact (proj1 H)|]. destruct (fr_kernel fr); [discriminate Hk|reflexivity].
Defined.

(** A client that is given the newest version is reported with it. *)
Lemma tls_as_configured_witness :
  exists fr, frontend_start example_hash64 example_start_env hasty_node example_inherited = Ok fr /\
    trusts TrustSystem (fr_client_tls fr) /\
    ti_version (tls_info_of (example_session (fr_tls fr))) ∈ allowed_versions (min_version (nc_tls hasty_node)).
Proof.
  assert (Hk : match frontend_start example_hash64 example_start_env hasty_node example_inherited with
               | Ok fr => negb (bool_decide (sc_versions (fr_tls fr) = [])) | Err _ => false end = true)
    by (vm_compute; reflexivity).
  pose proof (tls_as_configured example_hash64 example_established example_start_env hasty_node
    example_inherited) as Ht.
  destruct (frontend_start example_hash64 example_start_env hasty_node example_inherited) as [fr|e];
    [|discriminate Hk].
  exists fr. split; [reflexivity|]. destruct (Ht fr eq_refl) as [(trust & identity & Hn & _ & _ & Htr & _) Hs].
  split.
  - unfold named_trust in Hn. change (trust = TrustSystem) in Hn. subst. exact Htr.
  - apply (Hs (example_session (fr_tls fr))). split; [|reflexivity].
    intros E. rewrite E in Hk. discriminate Hk.
Defined.
