(* ===== verification/Node.v ===== *)
(** * A node: [gfe/node/src/main.rs]

    Checking a dynamic config ([--check-config]), starting a node up to the
    moment it serves ([run]), and what a node that takes over listens on: the
    sockets its predecessor hands it ([Upgrade] and [Handover]) are those its
    front end starts with ([Frontend] and [Reload]). *)

From S2P Require Import Prelude Str Net RateLimiting HealthChecking LoadBalancing Config Routing.
From S2P Require Import Tls Causes TlsPolicy Http Request Forward Client Listen Accept Server.
From S2P Require Import Edge Kernel Ops IpText Handover Reload Frontend.

(** ** Checking a config: [check_dynamic_config] *)

Section Checking.
Context {I P E W : Type} (hash64 : str -> Z -> Z).

Inductive CheckError :=
| LoadingDynamic (path : str) (e : ConfigError I P)
| CheckingDynamic (e : ReloadError (I := I) (P := P) (E := E) (W := W)).

Definition config_ok_line (d : DynamicConfig) : str :=
  let count {A} (l : list A) := decimal (Z.of_nat (length l)) in
  lit "config OK: " ++ count (listeners d) ++ lit " listeners, " ++ count (routes d) ++ lit " routes, " ++
  count (pools d) ++ lit " pools, " ++ count (certificates d) ++ lit " certificates".

Definition check_dynamic_config (read : str -> result str I) (parse : str -> result DynamicConfig P)
    (load : str -> str -> result Z (TlsError I)) (path : str) : result str CheckError :=
  let? dynamic := map_err (LoadingDynamic path) (load_dynamic_config read parse path) in
  let? _ := map_err CheckingDynamic (frontend_check hash64 load dynamic) in
  Ok (config_ok_line dynamic).
End Checking.

(** ** Starting: [run], until the node serves *)

Inductive RunError :=
| InstallingSignals (e : str)
| StartingProxy (e : str)
| TellingPredecessor (e : str).

(** What others see of it: signals are handled, the ops endpoints answer from
    [ops], the front end serves, the predecessor or systemd is told. *)
Inductive RunEffect :=
| SignalsHandled
| OpsAnswer (ops : Ops)
| ProxyServes
| PredecessorTold
| SystemdTold.

(** [ops_socket] is whether the ops socket could be had, [start] how starting
    the front end goes. *)
Definition run_start {F} (signals : result unit str) (ops_socket predecessor : bool) (start : result F str)
    (release : result unit str) : list RunEffect * result F RunError :=
  match signals with
  | Err e => ([], Err (InstallingSignals e))
  | Ok _ =>
      let ops := ops_new in
      let early := if ops_socket && negb predecessor then [OpsAnswer ops] else [] in
      match start with
      | Err e => (SignalsHandled :: early, Err (StartingProxy e))
      | Ok frontend =>
          let ops := ops_serving false ops in
          let late := if ops_socket && predecessor then [OpsAnswer ops] else [] in
          let trace := SignalsHandled :: early ++ ProxyServes :: late in
          if predecessor then
            match release with
            | Err e => (trace, Err (TellingPredecessor e))
            | Ok _ => (trace ++ [PredecessorTold], Ok frontend)
            end
          else (trace ++ [SystemdTold], Ok frontend)
      end
  end.

(** ** Taking over *)

(** What a node hands over: its listening sockets, by the number of the open
    socket, which a duplicate shares. *)
Definition handed_sockets (ls : ListenerSet (T := Listener)) (ops : option (SocketAddr * Z * Z)) : Sockets :=
  mkSockets ((fun x => (x.1, 0, Z.of_nat x.2)) <$> lend ls) ops.

(** [Inherited], the listeners. *)
Definition inherited_listeners (s : Sockets) : list (SocketAddr * nat) :=
  (fun x => (x.1.1, Z.to_nat x.2)) <$> ss_listeners s.

(** ** What a scrape reads of the front end *)

Definition readings {P C T} (lost_events : P -> Z) (fr : Frontend P C T) : Readings :=
  mkReadings (open_connections (fr_client fr)) (untracked_connections (fr_admission fr)) (lost_events <$> fr_kernel fr).

(** It brings the gauges up to date as the front end does. *)
Lemma scrape_refreshes {P Der PrivateKey Roots Ticketer : Type} (lost_events : P -> Z)
    (fr : Frontend P (ClientConfig Der PrivateKey Roots) (ServerConfig unit Ticketer)) m :
  let g := fr_gauges (refresh_metrics lost_events fr) in
  sp_ebpf_lost_events m = fg_ebpf_lost_events (fr_gauges fr) ->
  refresh_sampled (readings lost_events fr) m =
  mkSampled (sp_workers m) (sp_alive_tasks m) (sp_queue_depth m) (sp_lost_lines m)
    (fg_upstream_connections g) (fg_client_rate_untracked g) (fg_ebpf_lost_events g).
Proof. intros g Hm. unfold refresh_sampled, readings, g. cbn. rewrite Hm. by destruct (fr_kernel fr). Qed.

(** ** A config that was checked *)

Section CheckedFacts.
Context {I P E W : Type} (hash64 : str -> Z -> Z).
Implicit Types (env : ReloadEnv (I := I) (P := P) (E := E)).

(** Two outcomes that succeed, or fail alike. *)
Definition alike {A B X} (r : result A X) (r' : result B X) : Prop :=
  match r, r' with
  | Ok _, Ok _ => True
  | Err e, Err e' => e = e'
  | _, _ => False
  end.

(** Building pools fails for the pools, whatever the health of backends. *)
Lemma pools_alike {T} (specs : list (PoolSpec T)) m m' ps ps' :
  alike (pool_set_build_from hash64 specs m ps).2 (pool_set_build_from hash64 specs m' ps').2.
Proof.
  revert m m' ps ps'. induction specs as [|s specs IH]; intros m m' ps ps'; simpl; [done|].
  unfold pool_new. destruct (_ && _); [done|].
  destruct (take_handles _ m), (take_handles _ m'). apply IH.
Qed.

Lemma prepare_alike load config m m' :
  alike (prepare (I := I) (E := E) (P := P) (W := W) hash64 load config m).2
        (prepare (I := I) (E := E) (P := P) (W := W) hash64 load config m').2.
Proof.
  unfold prepare. destruct (validate config); [|done]. destruct (cert_store_build _ _); [|done].
  pose proof (pools_alike (pool_specs (pools config)) m m' ∅ ∅) as Hp. unfold pool_set_build.
  destruct (pool_set_build_from hash64 _ m ∅) as [? []], (pool_set_build_from hash64 _ m' ∅) as [? []];
    simpl in *; try done. by subst.
Qed.

(** C25: Checking a config tells what a node would say of it. A file that
    passes is applied by any node that sees the same files, unless a socket
    it asks for cannot be had; one that does not pass is rejected by any
    such node, for the reason the check gives. *)
Theorem checked_config_applies env path :
  match check_dynamic_config (W := W) hash64 (re_read env) (re_parse env) (re_load env) path with
  | Ok _ => forall n,
      match (load_and_apply (W := W) hash64 env path n).2 with
      | Ok _ => True
      | Err e => exists socket, e = BindFailed socket
      end
  | Err (LoadingDynamic _ e) => forall n, (load_and_apply (W := W) hash64 env path n).2 = Err (ConfigRejected e)
  | Err (CheckingDynamic e) => forall n, (load_and_apply (W := W) hash64 env path n).2 = Err e
  end.
Proof.
  unfold check_dynamic_config, load_and_apply.
  destruct (load_dynamic_config _ _ path) as [config|e]; simpl; [|done].
  unfold frontend_check, apply. cbn [put_cert_files n_health].
  pose proof (prepare_alike (re_load env) config (health_map_new true)) as Hp.
  destruct (prepare hash64 _ config (health_map_new true)) as [h [pr|e]]; simpl; intros n;
    specialize (Hp (n_health n));
    destruct (prepare hash64 _ config (n_health n)) as [h' [pr'|e']]; simpl in Hp; try done; simpl.
  - destruct (edge_stage _ _ _) as [el [staged|e]]; simpl; [done|by eexists].
  - by subst.
Qed.
End CheckedFacts.

(** ** What a successor listens on *)

Lemma get_sockets_adopted {T E} (os : Os (E := E)) running (desired : list (SocketAddr * T)) adopted bound a :
  (get_sockets os running desired adopted bound).1 !! a = adopted !! a \/
  a ∈ desired.*1 /\ (get_sockets os running desired adopted bound).1 !! a = None.
Proof.
  revert adopted bound. induction desired as [|[addr t] desired IH]; intros adopted bound; simpl; [by left|].
  assert (Hgo : forall adopted' bound', adopted' = adopted \/ adopted' = delete addr adopted ->
    (get_sockets os running desired adopted' bound').1 !! a = adopted !! a \/
    a ∈ addr :: desired.*1 /\ (get_sockets os running desired adopted' bound').1 !! a = None).
  { intros adopted' bound' Hd. destruct (IH adopted' bound') as [->|[H1 H2]]; [|right; split; [by right|done]].
    destruct Hd as [-> | ->]; [by left|]. destruct (decide (a = addr)) as [->|Hne].
    - right. split; [by left|]. apply lookup_delete_eq.
    - left. by rewrite lookup_delete_ne. }
  destruct (running !! addr); [by apply Hgo; left|]. destruct (adopted !! addr) as [s|].
  - destruct (os_listen_on os s); [by apply Hgo; right|]. simpl. destruct (decide (a = addr)) as [->|Hne].
    + right. split; [by left|]. apply lookup_delete_eq.
    + left. by rewrite lookup_delete_ne.
  - destruct (os_bind os addr); [by apply Hgo; left|by left].
Qed.

Lemma stage_adopted {T E} (os : Os (E := E)) (desired : list (SocketAddr * T)) ls a :
  ls_adopted (stage os desired ls).1 !! a = ls_adopted ls !! a \/
  a ∈ desired.*1 /\ ls_adopted (stage os desired ls).1 !! a = None.
Proof.
  unfold stage. destruct (named_twice ∅ desired); [by left|].
  pose proof (get_sockets_adopted os (ls_running ls) desired (ls_adopted ls) ∅ a) as Hs.
  by destruct (get_sockets _ _ _ _ _) as [adopted [bound|[e dropped]]].
Qed.

Section Sockets.
Context {I P E W : Type} (hash64 : str -> Z -> Z).
Implicit Types (env : ReloadEnv (I := I) (P := P) (E := E)) (n : Reload.Node).

Notation sockets_of n := (el_inner (n_listeners n)).

(** What is left of the adopted sockets when a config is rejected: all of
    them, unless the config is rejected for a socket, and then those of the
    addresses it does not name. *)
Definition spared (config : DynamicConfig) (e : ReloadError (I := I) (P := P) (E := E) (W := W)) n n' : Prop :=
  forall a, ls_adopted (sockets_of n') !! a = ls_adopted (sockets_of n) !! a \/
    (ls_adopted (sockets_of n') !! a = None /\ a ∈ socket_addr <$> listeners config /\ exists e', e = BindFailed e').

(** The sockets of a node that listened on none before a config was applied,
    or not. *)
Lemma apply_sockets env config n :
  ls_running (sockets_of n) = ∅ ->
  match apply (W := W) hash64 env config n with
  | (n', Ok _) => forall a r, ls_running (sockets_of n') !! a = Some r ->
      socket_for (re_os env) (ls_adopted (sockets_of n)) a = Some (rn_socket r)
  | (n', Err e) => ls_running (sockets_of n') = ∅ /\ spared config e n n'
  end.
Proof.
  intros Hr. unfold apply. cbn [put_cert_files n_health].
  destruct (prepare _ _ _ _) as [h [pr|e]]; [|split; [done|by left]]. cbv zeta.
  match goal with |- context [edge_stage _ _ ?el] => change el with (n_listeners n) end. unfold edge_stage.
  pose proof (reconcile_listeners (re_os env) ((fun l => (socket_addr l, l)) <$> listeners config)
    (sockets_of n)) as Hs.
  pose proof (stage_adopted (re_os env) ((fun l => (socket_addr l, l)) <$> listeners config)
    (sockets_of n)) as Ha.
  destruct (stage _ _ _) as [ls [staged|e]]; simpl in *.
  - destruct Hs as (_ & _ & Hs & _). intros a r. rewrite Hs, Hr, lookup_empty.
    destruct (attached _ a); simpl; [|done]. by destruct (socket_for _ _ a); simpl; intros; simplify_eq.
  - destruct Hs as [-> _]. split; [done|]. intros a. destruct (Ha a) as [Ha'|[Hin Ha']]; [by left|right].
    split; [done|]. split; [|by eexists]. by rewrite <-list_fmap_compose in Hin.
Qed.

(** The deployed config was good but for a socket it asks for, which could
    not be had, and names [a]. *)
Definition staged_in_vain env (path : str) n (a : SocketAddr) : Prop :=
  exists deployed e, load_dynamic_config (re_read env) (re_parse env) path = Ok deployed /\
    (apply (W := W) hash64 env deployed n).2 = Err (BindFailed e) /\ a ∈ socket_addr <$> listeners deployed.

Lemma load_and_apply_sockets env path n :
  ls_running (sockets_of n) = ∅ ->
  match load_and_apply (W := W) hash64 env path n with
  | (n', Ok _) => forall a r, ls_running (sockets_of n') !! a = Some r ->
      socket_for (re_os env) (ls_adopted (sockets_of n)) a = Some (rn_socket r)
  | (n', Err _) =>
      ls_running (sockets_of n') = ∅ /\
      forall a, ls_adopted (sockets_of n') !! a = ls_adopted (sockets_of n) !! a \/
        ls_adopted (sockets_of n') !! a = None /\ staged_in_vain env path n a
  end.
Proof.
  intros Hr. unfold load_and_apply, staged_in_vain.
  destruct (load_dynamic_config _ _ path) as [config|e]; [|split; [done|by left]].
  pose proof (apply_sockets env config n Hr) as Ha.
  destruct (apply hash64 env config n) as [n' [[]|e]] eqn:E1; [done|]. destruct Ha as [H1 H2]. split; [done|].
  intros a. destruct (H2 a) as [H3|(H3 & H4 & e' & ->)]; [by left|right]. split; [done|].
  exists config, e'. by rewrite E1.
Qed.

(** The socket of an address: the one adopted for it, or one bound to it,
    where none was adopted or the one adopted is [spent]. *)
Definition listens env (adopted : gmap SocketAddr nat) (spent : Prop) (a : SocketAddr) (s : nat) : Prop :=
  adopted !! a = Some s \/ (os_bind (re_os env) a = Ok s /\ (adopted !! a = None \/ spent)).

Lemma socket_for_listens env adopted adopted' (spent : Prop) a s :
  adopted' !! a = adopted !! a \/ adopted' !! a = None /\ spent ->
  socket_for (re_os env) adopted' a = Some s -> listens env adopted spent a s.
Proof.
  unfold socket_for, listens. intros [->|[-> Hs]]; [destruct (adopted !! a) as [s'|]; [intros [= ->]; by left|]|];
    (destruct (os_bind (re_os env) a) as [s'|]; [|done]); intros [= ->]; right; auto.
Qed.

Lemma reconcile_checks_control rl config n :
  g_from_cache (n_control (reconcile_checks rl config n)) = g_from_cache (n_control n) /\
  n_listeners (reconcile_checks rl config n) = n_listeners n.
Proof.
  unfold reconcile_checks. destruct (reconcile _ _) as [checker left]. simpl. split; [|done].
  generalize (n_control n). induction left as [|l left IH]; intros c; [done|]. simpl. by rewrite IH.
Qed.

(** What a node listens on when its first config is applied. Only a config
    from the cache, after a deployed one that was good but for a socket, binds
    an address that was adopted. *)
Lemma start_sockets env watched rl n n' config :
  ls_running (sockets_of n) = ∅ -> start_applies (W := W) hash64 env watched rl n = (n', Ok config) ->
  forall a r, ls_running (sockets_of n') !! a = Some r ->
    listens env (ls_adopted (sockets_of n))
      (g_from_cache (n_control n') = 1 /\ staged_in_vain env (rl_config_file rl) (controller_new n) a) a (rn_socket r).
Proof.
  intros Hr. unfold start_applies, apply_initial. destruct watched as [[]|]; [|done].
  pose proof (load_and_apply_sockets env (rl_config_file rl) (controller_new n) Hr) as H1.
  destruct (load_and_apply _ _ _ (controller_new n)) as [n1 [config1|e]].
  - intros [= <- <-] a r Ha. eapply socket_for_listens; [by left|]. apply H1.
    cbn in Ha. unfold write_cache in Ha. by destruct (rl_cache_file rl).
  - destruct (rl_cache_file rl) as [cache|]; [|done]. destruct H1 as [Hr1 Hs1].
    pose proof (load_and_apply_sockets env cache n1 Hr1) as H2.
    destruct (load_and_apply _ _ _ n1) as [n2 [cached|e']]; [|done]. intros [= <- <-] a r Ha.
    eapply socket_for_listens; [|by apply H2]. destruct (Hs1 a) as [Hs|[Hs Hv]]; [by left|right]. by split_and!.
Qed.

(** Probes and requests leave the sockets alone. *)
Lemma quiet_sockets n n' : rtc quiet_step n n' -> n_listeners n' = n_listeners n.
Proof.
  induction 1 as [n|n1 n2 n3 Hs _ IH]; [done|]. rewrite IH. destruct Hs as [key r outcome b n Hr|]; [|done].
  unfold probe_ended. by destruct (probe_round _ _ _ _ _ _) as [[? ?] ?].
Qed.

Lemma adopt_lookup {T} sockets (ls : ListenerSet (T := T)) a :
  NoDup sockets.*1 -> ls_adopted ls = ∅ ->
  ls_adopted (adopt sockets ls) !! a = (list_to_map sockets : gmap SocketAddr nat) !! a /\
  ls_running (adopt sockets ls) = ls_running ls.
Proof.
  intros Hn He.
  assert (Hg : forall ls : ListenerSet (T := T), ls_running (adopt sockets ls) = ls_running ls /\
    ls_adopted (adopt sockets ls) = list_to_map sockets ∪ ls_adopted ls).
  { clear ls He. induction sockets as [|[b s] sockets IH]; intros ls; [split; [done|]; simpl; by rewrite (left_id_L ∅ (∪))|].
    apply NoDup_cons in Hn as [Hb Hn]. destruct (IH Hn (mkListenerSet (ls_running ls)
      (<[b := s]> (ls_adopted ls)) (ls_closed ls ++ option_list (ls_adopted ls !! b)))) as [H1 H2].
    split; [exact H1|]. etrans; [exact H2|]. simpl. rewrite <-insert_union_r, insert_union_l; [done|].
    by apply not_elem_of_list_to_map_1. }
  destruct (Hg ls) as [H1 H2]. split; [|done]. by rewrite H2, He, map_union_empty.
Qed.
End Sockets.

Lemma inherited_handed ls ops : inherited_listeners (handed_sockets ls ops) = lend ls.
Proof.
  unfold inherited_listeners, handed_sockets. cbn [ss_listeners]. rewrite <-list_fmap_compose.
  rewrite <-(list_fmap_id (lend ls)) at 2. apply list_fmap_ext. intros i [a s] _. simpl.
  by rewrite Nat2Z.id.
Qed.

Lemma adopt_lent {T} (ls : ListenerSet (T := Listener)) (fresh : ListenerSet (T := T)) a :
  ls_adopted fresh = ∅ -> ls_adopted (adopt (lend ls) fresh) !! a = rn_socket <$> ls_running ls !! a.
Proof.
  intros He. destruct (adopt_lookup (lend ls) fresh a) as [-> _]; [apply NoDup_fst_map_to_list|done|].
  unfold lend. by rewrite list_to_map_to_list, lookup_fmap.
Qed.

(** Whoever is told that the node serves is told last, once it does; the ops
    endpoints of a node that takes over answer only once it is ready. *)
Definition seen_in_order (predecessor : bool) (trace : list RunEffect) : Prop :=
  (forall ops, predecessor = true -> OpsAnswer ops ∈ trace -> is_ready false ops = true) /\
  (forall before e after, trace = before ++ e :: after -> e = PredecessorTold \/ e = SystemdTold ->
     after = [] /\ ProxyServes ∈ before /\ head before = Some SignalsHandled).

Lemma told_last before (trace : list RunEffect) told pre e post :
  trace = before ++ [told] -> e = PredecessorTold \/ e = SystemdTold ->
  PredecessorTold ∉ before -> SystemdTold ∉ before -> trace = pre ++ e :: post -> post = [] /\ pre = before.
Proof.
  intros -> He H1 H2 Hs. destruct post as [|x post' _] using rev_ind.
  - by apply app_inj_tail in Hs as [-> _].
  - exfalso. rewrite app_comm_cons, app_assoc in Hs. apply app_inj_tail in Hs as [-> _].
    destruct He as [->| ->]; [apply H1|apply H2]; apply elem_of_app; right; by left.
Qed.

Lemma run_start_order {F} signals ops_socket predecessor (start : result F str) release :
  let (trace, r) := run_start signals ops_socket predecessor start release in
  seen_in_order predecessor trace /\
  (PredecessorTold ∈ trace <-> predecessor = true /\ exists fr, r = Ok fr).
Proof.
  unfold run_start, seen_in_order.
  destruct signals as [[]|e], ops_socket, predecessor, start as [fr|e']; try destruct release as [[]|e''];
    simpl; (split; [split; [set_solver|intros before e0 after Hs He]|set_solver]).
  all: try (exfalso; match type of Hs with ?t = _ => assert (e0 ∈ t) by (rewrite Hs; set_solver) end; set_solver).
  all: match type of Hs with
       | ?t = _ => destruct (told_last (removelast t) t (List.last t SystemdTold) before e0 after)
           as [-> ->]; [reflexivity|exact He|cbn [removelast]; set_solver|cbn [removelast]; set_solver|exact Hs|]
       end.
  all: cbn [removelast]; split; [done|]; split; [set_solver|done].
Qed.

Section TakingOver.
Context {P I PE E W : Type} `{RustlsClient Der PrivateKey Roots} `{RustlsServer Ticketer}.
Context (hash64 : str -> Z -> Z).
Implicit Types (env : StartEnv (P := P) (I := I) (PE := PE) (E := E) (W := W)).

(** A node as its first config is applied, and as its start leaves it. *)
Lemma frontend_first env config inherited fr :
  frontend_start hash64 env config inherited = Ok fr ->
  exists n0 first,
    start_applies (W := W) hash64 (se_reload env) (se_watched env) (reloader_of config)
      (starting_node (se_files env) inherited) = (n0, Ok first) /\
    fr_node fr = reconcile_checks (reloader_of config) first (se_meanwhile env n0).
Proof.
  unfold frontend_start. destruct (kernel_attach _ _) as [kernel attached].
  destruct (client_options _ config) as [options|e]; simpl; [|done].
  destruct (server_config _ _) as [tls|]; simpl; [|done].
  destruct (new_edge _ _) as [http|]; simpl; [|done]. unfold start.
  destruct (start_applies _ _ _ _ _) as [n0 [first|e]]; [|done]. intros [= <-]. by exists n0, first.
Qed.

(** C7: A node that is replaced in place goes on being served on its own
    sockets. What it hands over reaches its successor whole, however the
    kernel delivers it; and a successor that starts on it listens, at every
    address of the config it starts with, deployed or cached, on the very
    socket its predecessor listened on there, so that no connection waiting on
    it is lost; it goes on doing so unless a reload overtakes its start. It
    binds only an address that was not listened on, or, serving the cached
    config, one of a deployed config that was good but for a socket, which
    spent what was handed over for it. Until its proxy serves, the successor
    answers nothing on the ops socket they share, and then that it is ready;
    it tells its predecessor to stop exactly when it has started, and last. *)
Theorem successor_takes_over ls ops w reads pid :
  sockets_wf (handed_sockets ls ops) -> node_send (handed_sockets ls ops) = Ok w -> delivery w reads ->
  0 <= pid <= u32_max ->
  exists got, node_receive pid reads = Some (Ok (got, receipt pid)) /\ ss_ops got = ops /\
    forall env config text signals ops_socket release,
      let (trace, r) :=
        run_start signals ops_socket true
          (map_err text (frontend_start hash64 env config (inherited_listeners got))) release in
      seen_in_order true trace /\ (PredecessorTold ∈ trace <-> exists fr, r = Ok fr) /\
      forall fr, r = Ok fr ->
        let renv := se_reload env in
        let rl := reloader_of config in
        let starting := starting_node (se_files env) (inherited_listeners got) in
        exists n0 first, start_applies (W := W) hash64 renv (se_watched env) rl starting = (n0, Ok first) /\
          (rtc quiet_step n0 (se_meanwhile env n0) -> n_listeners (fr_node fr) = n_listeners n0) /\
          forall a listener, ls_running (el_inner (n_listeners n0)) !! a = Some listener ->
            (exists old, ls_running ls !! a = Some old /\ rn_socket listener = rn_socket old) \/
            (os_bind (re_os renv) a = Ok (rn_socket listener) /\
             (ls_running ls !! a = None \/
              g_from_cache (n_control n0) = 1 /\
              staged_in_vain (W := W) hash64 renv (rl_config_file rl) (controller_new starting) a)).
Proof.
  intros Hwf Hw Hd Hpid. exists (handed_sockets ls ops). split; [by apply (node_received _ w)|]. split; [done|].
  intros env config text signals ops_socket release. rewrite inherited_handed.
  pose proof (frontend_first env config (lend ls)) as Hf.
  set (started := frontend_start hash64 env config (lend ls)) in *.
  pose proof (run_start_order signals ops_socket true (map_err text started) release) as Ho.
  destruct (run_start _ _ _ _ _) as [trace r] eqn:Er. destruct Ho as [Hseen Htold].
  split; [exact Hseen|]. split; [rewrite Htold; naive_solver|].
  intros fr ->. assert (Hst : started = Ok fr).
  { unfold run_start in Er. destruct signals; [|done]. destruct started as [fr'|]; [|done].
    destruct release; by simplify_eq/=. }
  cbv zeta. destruct (Hf fr Hst) as (n0 & first & Hs & Hn). exists n0, first. split; [exact Hs|]. split.
  - intros Hq. rewrite Hn, (proj2 (reconcile_checks_control _ _ _)). by apply quiet_sockets.
  - intros a listener Hl. pose proof (adopt_lent ls (el_inner edge_new) a eq_refl) as Hadopt.
    destruct (start_sockets hash64 _ _ _ (starting_node (se_files env) (lend ls)) _ _
      (proj2 (adopt_lookup (lend ls) (el_inner edge_new) a (NoDup_fst_map_to_list _) eq_refl)) Hs a listener Hl) as [Ha|[Hb Ha]];
      cbn [starting_node put_listeners n_listeners el_inner] in Ha; rewrite Hadopt in Ha.
    + left. destruct (ls_running ls !! a) as [old|]; [|done]. simplify_eq/=. eauto.
    + right. split; [exact Hb|]. destruct Ha as [Ha|Ha]; [left|right; exact Ha]. by destruct (ls_running ls !! a).
Qed.
End TakingOver.

(** ** A node that replaces another *)

Definition example_predecessor : ListenerSet (T := Listener) :=
  match frontend_start example_hash64 example_start_env hasty_node example_inherited with
  | Ok fr => el_inner (n_listeners (fr_node fr))
  | Err _ => listeners_new
  end.

(** Its socket is sent in one message, and read with the header. *)
Definition handed_wire : Wire := Eval vm_compute in
  match node_send (handed_sockets example_predecessor None) with Ok w => w | Err _ => [] end.

Definition handed_reads : list Received := Eval vm_compute in
  [mkReceived handed_wire.*1 (concat handed_wire.*2) false; mkReceived [] [] false].

(** The sockets a successor of it listens on. *)
Definition successor_sockets (got : Sockets) : option (list (SocketAddr * nat)) :=
  match frontend_start example_hash64 example_start_env hasty_node (inherited_listeners got) with
  | Ok fr => Some (lend (el_inner (n_listeners (fr_node fr))))
  | Err _ => None
  end.

Lemma example_handed_sockets :
  handed_sockets example_predecessor None =
  mkSockets [(mkSocketAddr (V4 [0; 0; 0; 0]) 443, 0, 7)] None.
Proof. vm_compute. reflexivity. Qed.

Lemma handed_delivery : delivery handed_wire handed_reads.
Proof.
  unfold handed_reads. rewrite <-(app_nil_r handed_wire) at 1.
  apply (delivered_some handed_wire); [done|by vm_compute; lia|by vm_compute; lia|]. constructor.
Qed.

Lemma successor_same : successor_sockets (mkSockets [(mkSocketAddr (V4 [0; 0; 0; 0]) 443, 0, 7)] None) =
  Some [(mkSocketAddr (V4 [0; 0; 0; 0]) 443, 7%nat)].
Proof. vm_compute. reflexivity. Qed.

Lemma successor_takes_over_witness :
  exists got, node_receive 4242 handed_reads = Some (Ok (got, receipt 4242)) /\
    successor_sockets (handed_sockets example_predecessor None) =
      Some [(mkSocketAddr (V4 [0; 0; 0; 0]) 443, 7%nat)].
Proof.
  destruct (successor_takes_over (P := unit) (I := unit) (PE := unit) (E := unit) (W := unit)
    example_hash64 example_predecessor None handed_wire handed_reads 4242)
    as (got & Hgot & _).
  - rewrite example_handed_sockets. split; [|done]. by repeat constructor.
  - rewrite example_handed_sockets. vm_compute. reflexivity.
  - exact handed_delivery.
  - done.
  - exists got. split; [exact Hgot|]. rewrite example_handed_sockets. exact successor_same.
Defined.

(** A successor whose deployed config does not parse starts from the cache,
    on the same socket. *)
Definition caching_node : NodeConfig :=
  mkNodeConfig (nc_node hasty_node) (mkControlPlaneConfig (lit "routes.json") (Some (lit "cache.json")) default_reload_debounce)
    (nc_tls hasty_node) (nc_limits hasty_node) (nc_timeouts hasty_node) (nc_upstream hasty_node) (nc_ebpf hasty_node)
    (nc_log hasty_node) (nc_health_check_defaults hasty_node).

Definition cached_start_env : StartEnv (P := unit) (I := unit) (PE := unit) (E := unit) (W := unit) :=
  let deployed := config_file (nc_control_plane caching_node) in
  let env := example_reload_env in
  mkStartEnv (se_attach example_start_env) (se_read example_start_env) (Ok ()) id
    (mkReloadEnv (re_read env) (fun text => if str_eqb text deployed then Err () else Ok example_dynamic) (re_load env)
       (re_disk env) (re_os env) (re_now env) (re_cache env)) ∅.

Example successor_from_cache :
  match frontend_start example_hash64 cached_start_env caching_node example_inherited with
  | Ok fr => (g_from_cache (n_control (fr_node fr)), lend (el_inner (n_listeners (fr_node fr))))
  | Err _ => (0, [])
  end = (1, [(mkSocketAddr (V4 [0; 0; 0; 0]) 443, 7%nat)]).
Proof. vm_compute. reflexivity. Qed.
