(* ===== verification/Loadtest.v ===== *)
(** * The load test: [hack/loadtest]

    What the load client measures ([client.rs], [outcome.rs], [cpu.rs]) and
    the comparison of two runs that says whether the node became slower
    ([compare.rs]). Connections, HTTP and the clock are the environment of a
    worker; JSON is serde's, behind the law that what it writes it reads.
    The commands of the tool and the tables it prints are [LoadtestMain]'s. *)

From S2P Require Import Prelude Str Text Float64 SpecF64.
From Stdlib Require Import Ascii.

(** ** What a scenario measured: [outcome.rs] *)

Record Outcome := mkOutcome {
  oc_label : str;
  oc_mode : str;
  oc_requests : Z;
  oc_requests_per_second : f64;
  oc_p50_us : f64;
  oc_p90_us : f64;
  oc_p99_us : f64;
  oc_max_us : f64;
  oc_errors : Z;
  oc_cpu_us_per_request : option f64;
  oc_bytes_per_request : Z;
}.

(** [((len as f64 - 1.0) * p).round() as usize]: nothing here is negative or
    infinite, so the doubles are those of [Float64]; [p] is the double of
    [num / den]. *)
Definition f64_sub (x y : Z) : Z := f64_round (x - y) f64_unit.
Definition f64_mul (x y : Z) : Z := f64_round (x * y) (f64_unit * f64_unit).
Definition f64_round_away (x : Z) : Z := (2 * x + f64_unit) / (2 * f64_unit).

Definition percentile_index (len num den : Z) : Z :=
  f64_round_away (f64_mul (f64_sub (f64_of_Z len) f64_unit) (f64_round num den)).

(** The microseconds of so many nanoseconds. *)
Definition micros (nanos : Z) : f64 := fdiv (f64_of_int nanos) (f64_of_int 1000).

(** [None] where the index is out of bounds and the code panics. *)
Definition percentile_us (sorted : list Z) (num den : Z) : option f64 :=
  match sorted with
  | [] => Some (S754_zero false)
  | _ => micros <$> sorted !! Z.to_nat (percentile_index (Z.of_nat (length sorted)) num den)
  end.

Definition measure (label mode : str) (latencies : list Z) (errors : Z) (elapsed_secs : f64) : option Outcome :=
  let sorted := sort_by Z.leb latencies in
  let requests := Z.of_nat (length sorted) in
  p50 ← percentile_us sorted 50 100;
  p90 ← percentile_us sorted 90 100;
  p99 ← percentile_us sorted 99 100;
  max ← percentile_us sorted 1 1;
  Some (mkOutcome label mode requests (fdiv (f64_of_int requests) elapsed_secs) p50 p90 p99 max errors None 0).

Definition upload_mib_per_second (o : Outcome) : f64 :=
  fdiv (fmul (oc_requests_per_second o) (f64_of_int (oc_bytes_per_request o)))
    (fmul (f64_of_int 1024) (f64_of_int 1024)).

(** [Duration::as_secs_f64]. *)
Definition as_secs_f64 (d : Z) : f64 :=
  fadd (f64_of_int (d / NANOS_PER_SEC)) (fdiv (f64_of_int (d mod NANOS_PER_SEC)) (f64_of_int NANOS_PER_SEC)).

Definition set_cpu (cpu : option f64) (o : Outcome) : Outcome :=
  mkOutcome (oc_label o) (oc_mode o) (oc_requests o) (oc_requests_per_second o) (oc_p50_us o) (oc_p90_us o)
    (oc_p99_us o) (oc_max_us o) (oc_errors o) cpu (oc_bytes_per_request o).

Definition charge_cpu (cpu : Z) (o : Outcome) : Outcome :=
  set_cpu (Some (if oc_requests o =? 0 then S754_zero false
                 else fdiv (fmul (as_secs_f64 cpu) (f64_of_int 1000000)) (f64_of_int (oc_requests o)))) o.

Section Files.
(** serde_json: an outcome as a line, and a line read. *)
Context (to_json : Outcome -> str) (from_json : str -> result Outcome str).

Fixpoint read_lines (ls : list str) : result (list Outcome) str :=
  match ls with
  | [] => Ok []
  | l :: ls => let? o := from_json l in let? os := read_lines ls in Ok (o :: os)
  end.

(** The outcomes of a file of this text. *)
Definition read_all (text : str) : result (list Outcome) str :=
  read_lines (keep (fun l => negb (bool_decide (trim l = []))) (lines text)).

(** The text of a file an outcome was appended to. *)
Definition append_to (o : Outcome) (text : str) : str := text ++ to_json o ++ [line_feed].
End Files.

(** ** The CPU time of a process: [cpu.rs] *)

Definition PROC_TICKS_PER_SECOND : Z := 100.

(** [Duration::from_secs_f64], in nanoseconds: [None] where it panics. *)
Definition from_secs_f64 (x : f64) : option Z :=
  match x with
  | S754_zero _ => Some 0
  | S754_finite false m e =>
      let nanos :=
        if 0 <=? e then Zpos m * 2 ^ e * NANOS_PER_SEC
        else round_half_even (Zpos m * NANOS_PER_SEC) (2 ^ (- e)) in
      if nanos <? 2 ^ 64 * NANOS_PER_SEC then Some nanos else None
  | _ => None
  end.

(** What a parser gives, unless it panics. *)
Inductive Parsed := ParsedNone | ParsedTime (nanos : Z) | ParsePanics.

Definition parsed_secs (x : f64) : Parsed :=
  match from_secs_f64 x with Some d => ParsedTime d | None => ParsePanics end.

Definition parse_proc_stat (stat : str) : Parsed :=
  match after_last ")"%char stat with
  | None => ParsedNone
  | Some after_command =>
      match drop 11 (split_whitespace after_command) with
      | u :: s :: _ =>
          match parse_unsigned u64_max u, parse_unsigned u64_max s with
          | Some user, Some system =>
              parsed_secs (fdiv (f64_of_int (wrap64 (user + system))) (f64_of_int PROC_TICKS_PER_SECOND))
          | _, _ => ParsedNone
          end
      | _ => ParsedNone
      end
  end.

(** The loop over the parts between colons. *)
Fixpoint ps_seconds (parts : list str) (seconds : f64) : option f64 :=
  match parts with
  | [] => Some seconds
  | part :: parts => x ← f64_parse part; ps_seconds parts (fadd (fmul seconds (f64_of_int 60)) x)
  end.

Definition parse_ps_cputime (text : str) : Parsed :=
  let text := trim text in
  if bool_decide (text = []) then ParsedNone
  else match ps_seconds (split_on ":"%char text) (S754_zero false) with
       | None => ParsedNone
       | Some seconds => parsed_secs seconds
       end.

(** ** The load client: [client.rs] *)

Record Target := mkTarget { tg_addr : str; tg_host : str; tg_path : str; tg_tls : bool }.

(** What hyper reads of a URL. *)
Record Uri := mkUri {
  uri_scheme : option str;
  uri_host : option str;
  uri_port : option Z;
  uri_path_and_query : option str;
}.

Definition parse_target (uri : result Uri str) : result Target str :=
  let? uri := map_err (fun e => lit "parsing target URL: " ++ e) uri in
  let tls := str_eqb (default (lit "http") (uri_scheme uri)) (lit "https") in
  match uri_host uri with
  | None => Err (lit "target has no host")
  | Some host =>
      let port := default (if tls then 443 else 80) (uri_port uri) in
      Ok (mkTarget (host ++ lit ":" ++ decimal port) host (default (lit "/") (uri_path_and_query uri)) tls)
  end.

Record Scenario := mkScenario {
  sc_target : Target;
  sc_connections : nat;
  sc_duration : Z;
  sc_reconnect : bool;
  sc_expect_refusal : bool;
  sc_resume : bool;
  sc_label : str;
  sc_cpu_of : option Z;
  sc_upload : str;
  sc_idle_connections : nat;
}.

Definition scenario_mode (s : Scenario) : str :=
  if sc_expect_refusal s then lit "refused"
  else match sc_reconnect s, tg_tls (sc_target s) && negb (sc_resume s) with
       | true, true => lit "reconnect+full-tls"
       | true, false => lit "reconnect"
       | false, _ => lit "keepalive"
       end.

(** [send_one]: the method sent, and what comes of the answer, a status and
    whether it says [Connection: close]. *)
Definition send_method (upload : str) : str := if bool_decide (upload = []) then lit "GET" else lit "POST".

Definition send_one (answer : result (Z * option str) str) (body_read : bool) : result bool str :=
  let? answered := answer in
  let (status, connection) := answered in
  if negb ((200 <=? status) && (status <? 300)) then Err (lit "status " ++ decimal status)
  else
    let told_to_close := match connection with Some v => eq_ignore_ascii_case v (lit "close") | None => false end in
    if body_read then Ok (negb told_to_close) else Err (lit "body").

(** [closed_unread]: how the one read of a connection goes. *)
Inductive UnreadEnd := NotOpened | ReadEnds (n : Z) | ReadFails.

Definition closed_unread (e : UnreadEnd) : result unit str :=
  match e with
  | NotOpened => Err (lit "connect")
  | ReadEnds n => if n =? 0 then Ok () else Err (lit "the server answered instead of closing")
  | ReadFails => Ok ()
  end.

(** What a worker meets, attempt by attempt: how long each takes, and how it
    ends. *)
Record Attempts := mkAttempts {
  at_connect : nat -> Z * bool;
  at_send : nat -> Z * result bool str;
  at_once : nat -> Z * bool;
}.

Definition ATTEMPT_TIMEOUT : Z := from_secs 2.

(** Latencies and errors, so far. *)
Notation Tally := (list Z * Z)%type.
Definition answered (nanos : Z) (t : Tally) : Tally := (t.1 ++ [wrap64 nanos], t.2).
Definition failed (t : Tally) : Tally := (t.1, t.2 + 1).

(** [worker_reconnect] and [worker_refused]: one whole attempt at a time,
    each under the timeout. [None] when the fuel runs out. *)
Fixpoint worker_once (fuel : nat) (env : Attempts) (deadline now : Z) (i : nat) (t : Tally) : option (Z * Tally) :=
  if negb (now <? deadline) then Some (now, t)
  else match fuel with
  | O => None
  | S fuel =>
      let (took, ok) := at_once env i in
      let in_time := took <=? ATTEMPT_TIMEOUT in
      worker_once fuel env deadline (now + Z.min took ATTEMPT_TIMEOUT) (S i)
        (if in_time && ok then answered took t else failed t)
  end.

(** [worker_keepalive]: [connected] in the inner loop. *)
Fixpoint worker_keepalive (fuel : nat) (env : Attempts) (deadline now : Z) (i : nat) (connected : bool) (t : Tally) :
    option (Z * Tally) :=
  if negb (now <? deadline) then Some (now, t)
  else match fuel with
  | O => None
  | S fuel =>
      if connected then
        let (took, sent) := at_send env i in
        match sent with
        | Ok reusable => worker_keepalive fuel env deadline (now + took) (S i) reusable (answered took t)
        | Err _ => worker_keepalive fuel env deadline (now + took) (S i) false (failed t)
        end
      else
        let (took, ok) := at_connect env i in
        worker_keepalive fuel env deadline (now + took) (S i) ok (if ok then t else failed t)
  end.

Definition worker (s : Scenario) (fuel : nat) (env : Attempts) (now : Z) : option (Z * Tally) :=
  let deadline := now + sc_duration s in
  if sc_expect_refusal s || sc_reconnect s then worker_once fuel env deadline now 0 ([], 0)
  else worker_keepalive fuel env deadline now 0 false ([], 0).

(** [run], once the workers are done ([None] for one that panicked), with the
    seconds it took and the CPU time used before and after. *)
Definition gather_workers (workers : list (option Tally)) : Tally :=
  foldl (fun t w => let (lat, errs) := default ([], 1) w in (t.1 ++ lat, t.2 + errs)) ([], 0) workers.

Definition run_outcome (s : Scenario) (workers : list (option Tally)) (elapsed : f64) (cpu : option (Z * Z)) :
    option Outcome :=
  let (latencies, errors) := gather_workers workers in
  o ← measure (sc_label s) (scenario_mode s) latencies errors elapsed;
  let o := mkOutcome (oc_label o) (oc_mode o) (oc_requests o) (oc_requests_per_second o) (oc_p50_us o)
             (oc_p90_us o) (oc_p99_us o) (oc_max_us o) (oc_errors o) (oc_cpu_us_per_request o)
             (Z.of_nat (length (sc_upload s))) in
  Some match cpu with Some (before, after) => charge_cpu (Z.max 0 (after - before)) o | None => o end.

(** ** Comparing two runs: [compare.rs] *)

Inductive Verdict := Within (change : f64) | Regressed (change : f64) | Unusable (reason : str).

Record Row := mkRow {
  rw_label : str;
  rw_base_cpu_us : option f64;
  rw_head_cpu_us : option f64;
  rw_verdict : Verdict;
}.

Record Comparison := mkComparison { cp_tolerance_percent : f64; cp_rows : list Row }.

Definition best_cpu (label : str) (side : list Outcome) (side_name : str) : result f64 str :=
  let rounds := keep (fun o => str_eqb (oc_label o) label) side in
  if bool_decide (rounds = []) then Err (lit "not in " ++ side_name)
  else
    let errors := wrap64 (sum_list (oc_errors <$> rounds)) in
    if 0 <? errors then
      Err (decimal errors ++ lit " error" ++ (if errors =? 1 then [] else lit "s") ++ lit " in " ++ side_name)
    else
      match min_by fle_total (omap oc_cpu_us_per_request rounds) with
      | Some cpu =>
          if forallb (fun o => negb (is_none (oc_cpu_us_per_request o))) rounds then Ok cpu
          else Err (lit "no cpu in " ++ side_name)
      | None => Err (lit "no cpu in " ++ side_name)
      end.

(** The change to a tenth of a percent. *)
Definition change_of (base head : f64) : f64 :=
  fdiv (fround (fmul (fdiv (fsub head base) base) (f64_of_int 1000))) (f64_of_int 10).

Definition compare_one (label : str) (base head : list Outcome) (tolerance : f64) : Row :=
  let base_cpu := best_cpu label base (lit "base") in
  let head_cpu := best_cpu label head (lit "head") in
  mkRow label
    (match base_cpu with Ok c => Some c | Err _ => None end)
    (match head_cpu with Ok c => Some c | Err _ => None end)
    (match base_cpu, head_cpu with
     | Err reason, _ => Unusable reason
     | _, Err reason => Unusable reason
     | Ok b, Ok h =>
         let change := change_of b h in
         if fgt change tolerance then Regressed change else Within change
     end).

Definition comparison_of (base head : list Outcome) (tolerance : f64) : Comparison :=
  mkComparison tolerance
    (foldl (fun rows o =>
       if existsb (fun row => str_eqb (rw_label row) (oc_label o)) rows then rows
       else rows ++ [compare_one (oc_label o) base head tolerance]) [] head).

Definition passed (c : Comparison) : bool :=
  forallb (fun row => match rw_verdict row with Within _ => true | _ => false end) (cp_rows c).

(** ** When a change passes *)

(** The rounds of a scenario, each without an error and with its CPU time,
    and the least of these. *)
Definition measured (label : str) (side : list Outcome) (cpu : f64) : Prop :=
  let rounds := keep (fun o => str_eqb (oc_label o) label) side in
  Forall (fun o => oc_errors o = 0) rounds /\
  exists cpus, oc_cpu_us_per_request <$> rounds = Some <$> cpus /\ min_by fle_total cpus = Some cpu.

(** Errors are counted as [u64]s, and so few that their sum is one. *)
Definition errors_typed (side : list Outcome) : Prop :=
  Forall (fun o => 0 <= oc_errors o) side /\ sum_list (oc_errors <$> side) <= u64_max.

Lemma sum_keep (f : Outcome -> bool) side :
  Forall (fun o => 0 <= oc_errors o) side ->
  0 <= sum_list (oc_errors <$> keep f side) <= sum_list (oc_errors <$> side).
Proof.
  induction 1 as [|o side Ho _ IH]; [done|]. cbn [keep]. destruct (f o); csimpl; lia.
Qed.

Lemma no_errors rounds :
  Forall (fun o => 0 <= oc_errors o) rounds ->
  sum_list (oc_errors <$> rounds) = 0 <-> Forall (fun o => oc_errors o = 0) rounds.
Proof.
  induction 1 as [|o rounds Ho Hr IH]; [by split|].
  pose proof (sum_keep (fun _ => true) rounds Hr). rewrite Forall_cons. csimpl. rewrite <-IH. lia.
Qed.

Lemma all_cpus (rounds : list Outcome) :
  if forallb (fun o => negb (is_none (oc_cpu_us_per_request o))) rounds
  then oc_cpu_us_per_request <$> rounds = Some <$> omap oc_cpu_us_per_request rounds
  else forall cpus, oc_cpu_us_per_request <$> rounds <> Some <$> cpus.
Proof.
  induction rounds as [|o rounds IH]; [done|]. cbn [forallb fmap list_fmap omap list_omap].
  destruct (oc_cpu_us_per_request o) as [c|]; simpl.
  - destruct (forallb _ _); [by rewrite IH|]. intros [|c' cpus] E; simplify_eq/=. by apply (IH cpus).
  - by intros [|c' cpus].
Qed.

Lemma best_cpu_spec label side name :
  errors_typed side ->
  match best_cpu label side name with
  | Ok cpu => measured label side cpu
  | Err _ => forall cpu, ~ measured label side cpu
  end.
Proof.
  intros [Hn Hs]. unfold best_cpu, measured.
  pose proof (sum_keep (fun o => str_eqb (oc_label o) label) side Hn) as Hk.
  assert (Hr : Forall (fun o => 0 <= oc_errors o) (keep (fun o => str_eqb (oc_label o) label) side)).
  { apply Forall_forall. intros o Ho. apply elem_of_keep in Ho as [Ho _].
    rewrite Forall_forall in Hn. by apply Hn. }
  set (rounds := keep _ side) in *. rewrite wrap64_small by lia.
  case_bool_decide as Hne.
  { rewrite Hne. intros cpu (_ & cpus & E & Hm). by destruct cpus. }
  pose proof (no_errors rounds Hr) as He. destruct (Z.ltb_spec 0 (sum_list (oc_errors <$> rounds))) as [Hp|Hp].
  { intros cpu [Hz _]. apply He in Hz. lia. }
  assert (Hz : Forall (fun o => oc_errors o = 0) rounds) by (apply He; lia).
  pose proof (all_cpus rounds) as Hc. destruct (forallb _ rounds).
  - destruct (min_by fle_total (omap oc_cpu_us_per_request rounds)) as [cpu|] eqn:Em; [by eauto|].
    destruct (omap oc_cpu_us_per_request rounds) eqn:Eo; [|done]. simpl in Hc.
    apply fmap_nil_inv in Hc. done.
  - destruct (min_by _ _); intros cpu' (_ & cpus & E & _); by apply (Hc cpus).
Qed.

Lemma measured_fun label side c c' : measured label side c -> measured label side c' -> c = c'.
Proof.
  intros (_ & cpus & E & Hm) (_ & cpus' & E' & Hm'). rewrite E in E'.
  apply (inj (fmap Some)) in E' as ->. congruence.
Qed.

Lemma comparison_rows base head tolerance row :
  row ∈ cp_rows (comparison_of base head tolerance) <->
  exists o, o ∈ head /\ row = compare_one (oc_label o) base head tolerance.
Proof.
  unfold comparison_of. cbn [cp_rows].
  set (step := fun rows o => if existsb _ rows then rows else _).
  assert (Hg : forall os rows,
    (forall r, r ∈ rows -> r = compare_one (rw_label r) base head tolerance) ->
    (row ∈ foldl step rows os <-> row ∈ rows \/
     exists o, o ∈ os /\ row = compare_one (oc_label o) base head tolerance)).
  { induction os as [|o os IH]; intros rows Hrows; simpl; [set_solver|].
    assert (Hin : o ∈ o :: os) by (by left). unfold step at 2. destruct (existsb _ rows) eqn:Ex.
    - rewrite IH by done. split; [set_solver|]. intros [?|(o' & [->|Ho]%elem_of_cons & ->)]; [by left| |by right; eauto].
      left. apply existsb_exists in Ex as (r & Hr & E%str_eqb_eq). apply list_elem_of_In in Hr.
      rewrite <-E, <-(Hrows r Hr). done.
    - rewrite IH; [|intros r [Hr|Hr%list_elem_of_singleton]%elem_of_app; [by apply Hrows|by subst]].
      rewrite elem_of_app, list_elem_of_singleton. setoid_rewrite elem_of_cons. naive_solver. }
  rewrite Hg by set_solver. set_solver.
Qed.

(** A run passes against a base exactly when every one of its scenarios was
    measured on both sides, every round without an error and with its CPU
    time, and the least CPU per request did not grow by more than the
    tolerance. *)
Theorem gate_exact base head tolerance :
  errors_typed base -> errors_typed head ->
  passed (comparison_of base head tolerance) = true <->
  forall label, label ∈ oc_label <$> head ->
    exists b h, measured label base b /\ measured label head h /\ fgt (change_of b h) tolerance = false.
Proof.
  intros Hb Hh. unfold passed. rewrite forallb_forall. setoid_rewrite <-list_elem_of_In.
  setoid_rewrite comparison_rows.
  transitivity (forall o, o ∈ head ->
    match rw_verdict (compare_one (oc_label o) base head tolerance) with Within _ => true | _ => false end = true).
  { naive_solver. }
  setoid_rewrite list_elem_of_fmap. transitivity (forall o, o ∈ head -> exists b h,
    measured (oc_label o) base b /\ measured (oc_label o) head h /\ fgt (change_of b h) tolerance = false);
    [|naive_solver].
  apply forall_proper. intros o. apply forall_proper. intros _. unfold compare_one. cbn [rw_verdict].
  pose proof (best_cpu_spec (oc_label o) base (lit "base") Hb) as H1.
  pose proof (best_cpu_spec (oc_label o) head (lit "head") Hh) as H2.
  destruct (best_cpu _ base _) as [b|]; [|naive_solver].
  destruct (best_cpu _ head _) as [h|]; [|naive_solver].
  destruct (fgt (change_of b h) tolerance) eqn:E; split; try done; [|eauto 6].
  intros (b' & h' & Hb' & Hh' & E'). rewrite (measured_fun _ _ _ _ Hb' H1), (measured_fun _ _ _ _ Hh' H2) in E'.
  congruence.
Qed.

(** ** The percentiles *)

Section Percentiles.
#[local] Opaque f64_unit.

(** A fraction is rounded to one part in [2^53]. *)
Lemma fraction_near num den (P := f64_round num den) :
  0 < num <= den -> den <= 1000 -> f64_unit <= 2000 * P /\ 2 ^ 53 * P <= (2 ^ 53 + 1) * f64_unit.
Proof.
  intros Hn Hd. pose proof f64_unit_pos as Hu.
  pose proof (f64_round_error num den ltac:(lia) ltac:(lia)) as Ep. fold P in Ep.
  set (U := f64_unit) in *. clearbody U P.
  assert (HnU : num * U <= den * U) by (apply Z.mul_le_mono_nonneg_r; lia).
  assert (U * den <= U * 1000) by (apply Z.mul_le_mono_nonneg_l; lia).
  assert (1 * U <= num * U) by (apply Z.mul_le_mono_nonneg_r; lia).
  split; apply (Zmult_le_reg_r _ _ den); lia.
Qed.

Lemma product_near k P :
  0 < k -> f64_unit <= 2000 * P -> 2 ^ 53 * Z.abs (f64_mul (k * f64_unit) P - k * P) <= k * P.
Proof.
  intros Hk HP. pose proof f64_unit_pos as Hu. unfold f64_mul.
  replace (k * f64_unit * P) with (k * P * f64_unit) by ring. rewrite f64_round_scale by lia.
  assert (HkP : 1 * P <= k * P) by (apply Z.mul_le_mono_nonneg_r; lia).
  assert (H2 : 2000 * (k * P) <= 2 ^ 1000 * (k * P)) by (apply Z.mul_le_mono_nonneg_r; lia).
  pose proof (f64_round_error (k * P) f64_unit Hu ltac:(lia)) as E.
  set (M := f64_round (k * P) f64_unit) in *. apply (Zmult_le_reg_r _ _ f64_unit); [lia|].
  replace (2 ^ 53 * Z.abs (M - k * P) * f64_unit) with (2 ^ 53 * Z.abs (M * f64_unit - k * P * f64_unit)); [exact E|].
  rewrite <-Z.mul_sub_distr_r, Z.abs_mul, (Z.abs_eq f64_unit) by lia. ring.
Qed.

(** A product of at most [k]: rounded twice, it is still at most [k]. *)
Lemma scaled_index k num den :
  0 <= k < 2 ^ 50 -> 0 < num <= den -> den <= 1000 ->
  0 <= f64_round_away (f64_mul (k * f64_unit) (f64_round num den)) <= k.
Proof.
  intros Hk Hn Hd. pose proof f64_unit_pos as Hu. unfold f64_round_away.
  destruct (decide (k = 0)) as [->|Hk0].
  { unfold f64_mul, f64_round, round_half_even. rewrite !Z.mul_0_l, Z.mul_0_r, Z.add_0_l.
    rewrite Z.div_small by lia. done. }
  destruct (fraction_near num den Hn Hd) as [H1 H2]. set (P := f64_round num den) in *.
  pose proof (product_near k P ltac:(lia) H1) as HM. set (M := f64_mul (k * f64_unit) P) in *.
  set (U := f64_unit) in *. clearbody U P M.
  assert (HkP : 1 * P <= k * P) by (apply Z.mul_le_mono_nonneg_r; lia). split.
  - apply Z.div_pos; lia.
  - enough (2 * M < (2 * k + 1) * U) by (apply Z.lt_succ_r, Z.div_lt_upper_bound; lia).
    assert (k * (2 ^ 53 * P) <= k * ((2 ^ 53 + 1) * U)) by (apply Z.mul_le_mono_nonneg_l; lia).
    assert (k * U < 2 ^ 50 * U) by (apply Z.mul_lt_mono_pos_r; lia). lia.
Qed.

(** The rank is one of the list, however the product is rounded, so that the
    access never panics. *)
Lemma percentile_index_range len num den :
  1 <= len < 2 ^ 50 -> 0 < num <= den -> den <= 1000 -> 0 <= percentile_index len num den < len.
Proof.
  intros Hl Hn Hd. pose proof f64_unit_pos as Hu. unfold percentile_index.
  assert (f64_sub (f64_of_Z len) f64_unit = (len - 1) * f64_unit) as ->.
  { rewrite f64_of_Z_exact by lia. unfold f64_sub.
    replace (len * f64_unit - f64_unit) with ((len - 1) * f64_unit) by ring.
    rewrite <-(Z.mul_1_l f64_unit) at 2. rewrite f64_round_scale by lia.
    fold (f64_of_Z (len - 1)). apply f64_of_Z_exact. lia. }
  pose proof (scaled_index (len - 1) num den ltac:(lia) Hn Hd). lia.
Qed.

(** A run is summarised without panicking, in latencies it had. *)
Theorem percentile_taken sorted num den :
  Z.of_nat (length sorted) < 2 ^ 50 -> 0 < num <= den -> den <= 1000 ->
  exists us, percentile_us sorted num den = Some us /\
    (sorted = [] /\ us = S754_zero false \/ exists nanos, nanos ∈ sorted /\ us = micros nanos).
Proof.
  intros Hl Hn Hd. unfold percentile_us. destruct sorted as [|x sorted]; [eauto|].
  pose proof (percentile_index_range (Z.of_nat (length (x :: sorted))) num den ltac:(simpl in *; lia) Hn Hd) as Hi.
  destruct (lookup_lt_is_Some_2 (x :: sorted)
    (Z.to_nat (percentile_index (Z.of_nat (length (x :: sorted))) num den)) ltac:(lia)) as [nanos E].
  rewrite E. eexists. split; [done|]. right. exists nanos. split; [by eapply list_elem_of_lookup_2|done].
Qed.
End Percentiles.

(** ** The workers end *)

(** Nothing is done in no time. *)
Definition takes_time (env : Attempts) : Prop :=
  forall i, 0 < (at_connect env i).1 /\ 0 < (at_send env i).1 /\ 0 < (at_once env i).1.

(** A tally that went on from [t] by [n] attempts, at most. *)
Definition went_on (n : nat) (t t' : Tally) : Prop :=
  t.1 `prefix_of` t'.1 /\ t.2 <= t'.2 /\
  Z.of_nat (length t'.1) + t'.2 <= Z.of_nat (length t.1) + t.2 + Z.of_nat n.

Lemma went_on_answered n took t t' : went_on n (answered took t) t' -> went_on (S n) t t'.
Proof.
  unfold went_on, answered. simpl. rewrite length_app. simpl. intros (Hp & He & Hn). split_and!; [|lia|lia].
  etrans; [|exact Hp]. by apply prefix_app_r.
Qed.

Lemma went_on_failed n t t' : went_on n (failed t) t' -> went_on (S n) t t'.
Proof. unfold went_on, failed. simpl. intros (Hp & He & Hn). split_and!; [done|lia|lia]. Qed.

Lemma went_on_more n t t' : went_on n t t' -> went_on (S n) t t'.
Proof. intros (Hp & He & Hn). split_and!; [done|lia|lia]. Qed.

Lemma went_on_refl n t : went_on n t t.
Proof. split_and!; [done|lia|lia]. Qed.

#[local] Hint Resolve went_on_answered went_on_failed went_on_more went_on_refl : core.

Lemma worker_once_ends env deadline fuel now i t :
  takes_time env -> deadline - now <= Z.of_nat fuel ->
  exists ended t', worker_once fuel env deadline now i t = Some (ended, t') /\
    (now <= deadline -> deadline <= ended <= deadline + ATTEMPT_TIMEOUT) /\ went_on fuel t t'.
Proof.
  intros He. revert now i t. induction fuel as [|fuel IH]; intros now i t Hf; simpl;
    destruct (Z.ltb_spec now deadline) as [Hn|Hn]; simpl; try lia.
  1, 3: exists now, t; (split; [done|]; split; [unfold ATTEMPT_TIMEOUT, from_secs, NANOS_PER_SEC; lia|auto]).
  destruct (He i) as (_ & _ & Ht). destruct (at_once env i) as [took ok]. simpl in Ht.
  assert (Hm : 0 < Z.min took ATTEMPT_TIMEOUT <= ATTEMPT_TIMEOUT)
    by (unfold ATTEMPT_TIMEOUT, from_secs, NANOS_PER_SEC; lia).
  destruct (IH (now + Z.min took ATTEMPT_TIMEOUT) (S i)
    (if (took <=? ATTEMPT_TIMEOUT) && ok then answered took t else failed t) ltac:(lia))
    as (ended & t' & E & Hd & Hw).
  exists ended, t'. split; [exact E|]. split.
  - intros _. destruct (Z.le_gt_cases (now + Z.min took ATTEMPT_TIMEOUT) deadline); [by apply Hd|].
    destruct fuel; simpl in E; rewrite (proj2 (Z.ltb_ge _ _)) in E by lia; simplify_eq/=; lia.
  - destruct (_ && _); eauto.
Qed.

Lemma worker_keepalive_ends env deadline fuel now i connected t :
  takes_time env -> deadline - now <= Z.of_nat fuel ->
  exists ended t', worker_keepalive fuel env deadline now i connected t = Some (ended, t') /\
    deadline <= ended /\ went_on fuel t t'.
Proof.
  intros He. revert now i connected t. induction fuel as [|fuel IH]; intros now i connected t Hf; simpl;
    destruct (Z.ltb_spec now deadline) as [Hn|Hn]; simpl; try lia.
  1, 3: exists now, t; (split; [done|]; split; [lia|auto]).
  destruct (He i) as (Hc & Hs & _). destruct connected.
  - destruct (at_send env i) as [took [reusable|e]]; simpl in Hs.
    + destruct (IH (now + took) (S i) reusable (answered took t) ltac:(lia)) as (ended & t' & E & Hd & Hw).
      exists ended, t'. split; [exact E|]. split; [done|]. eauto.
    + destruct (IH (now + took) (S i) false (failed t) ltac:(lia)) as (ended & t' & E & Hd & Hw).
      exists ended, t'. split; [exact E|]. split; [done|]. eauto.
  - destruct (at_connect env i) as [took ok]. simpl in Hc.
    destruct (IH (now + took) (S i) ok (if ok then t else failed t) ltac:(lia)) as (ended & t' & E & Hd & Hw).
    exists ended, t'. split; [exact E|]. split; [done|]. destruct ok; eauto.
Qed.

(** Every worker ends once the scenario's time is up, whatever it meets; one
    whose attempts are bounded ends within one of them. *)
Theorem workers_end s env now :
  takes_time env -> 0 <= sc_duration s ->
  exists ended t, worker s (Z.to_nat (sc_duration s)) env now = Some (ended, t) /\
    now + sc_duration s <= ended /\
    (sc_expect_refusal s || sc_reconnect s = true -> ended <= now + sc_duration s + ATTEMPT_TIMEOUT).
Proof.
  intros He Hd. unfold worker. destruct (sc_expect_refusal s || sc_reconnect s).
  - destruct (worker_once_ends env (now + sc_duration s) (Z.to_nat (sc_duration s)) now 0 ([], 0) He ltac:(lia))
      as (ended & t & E & Hb & _). exists ended, t. split; [exact E|]. lia.
  - destruct (worker_keepalive_ends env (now + sc_duration s) (Z.to_nat (sc_duration s)) now 0 false ([], 0) He
      ltac:(lia)) as (ended & t & E & Hb & _). exists ended, t. by split_and!.
Qed.

(** ** What the workers count *)

(** What the attempts of a worker come to, one after the other, from a time
    on until the deadline: an answer, with the time it took, or a failure.
    With [once] every attempt is a connection of its own. *)
Inductive works (once : bool) (env : Attempts) (deadline : Z) : Z -> nat -> bool -> list (option Z) -> Prop :=
| works_done now i connected : deadline <= now -> works once env deadline now i connected []
| works_once now i connected took ok came :
    once = true -> now < deadline -> at_once env i = (took, ok) ->
    works once env deadline (now + Z.min took (from_secs 2)) (S i) connected came ->
    works once env deadline now i connected
      ((if decide (ok = true /\ took <= from_secs 2) then Some took else None) :: came)
| works_connected now i took came :
    once = false -> now < deadline -> at_connect env i = (took, true) ->
    works once env deadline (now + took) (S i) true came -> works once env deadline now i false came
| works_not_connected now i took came :
    once = false -> now < deadline -> at_connect env i = (took, false) ->
    works once env deadline (now + took) (S i) false came -> works once env deadline now i false (None :: came)
| works_answered now i took reusable came :
    once = false -> now < deadline -> at_send env i = (took, Ok reusable) ->
    works once env deadline (now + took) (S i) reusable came -> works once env deadline now i true (Some took :: came)
| works_failed now i took e came :
    once = false -> now < deadline -> at_send env i = (took, Err e) ->
    works once env deadline (now + took) (S i) false came -> works once env deadline now i true (None :: came).

Definition answers (came : list (option Z)) : list Z := omap id came.
Definition failures (came : list (option Z)) : nat := length (keep is_none came).

(** A tally that went on by what came of some attempts. *)
Definition tallied (t : Tally) (came : list (option Z)) (t' : Tally) : Prop :=
  t' = (t.1 ++ (wrap64 <$> answers came), t.2 + Z.of_nat (failures came)).

Lemma tallied_answer took t came t' : tallied (answered took t) came t' -> tallied t (Some took :: came) t'.
Proof. unfold tallied, answered. intros ->. cbn. by rewrite <-app_assoc. Qed.

Lemma tallied_failure t came t' : tallied (failed t) came t' -> tallied t (None :: came) t'.
Proof. unfold tallied, failed, failures. intros ->. cbn. f_equal. lia. Qed.

Lemma tallied_nil t : tallied t [] t.
Proof. unfold tallied. destruct t. cbn. by rewrite app_nil_r, Z.add_0_r. Qed.

#[local] Hint Resolve tallied_answer tallied_failure tallied_nil : core.

Lemma worker_once_works fuel env deadline now i t ended t' connected :
  worker_once fuel env deadline now i t = Some (ended, t') ->
  exists came, works true env deadline now i connected came /\ tallied t came t'.
Proof.
  revert now i t. induction fuel as [|fuel IH]; intros now i t; simpl;
    destruct (Z.ltb_spec now deadline) as [Hn|Hn]; simpl; try done.
  1, 3: intros [= <- <-]; exists []; split; [by constructor|auto].
  destruct (at_once env i) as [took ok] eqn:E. intros (came & Hw & Ht)%IH.
  eexists. split; [by eapply works_once|].
  destruct (decide (ok = true /\ took <= from_secs 2)) as [[-> Hle]|Hno].
  - rewrite (proj2 (Z.leb_le _ _)) in Ht by done. auto.
  - apply tallied_failure. destruct (Z.leb_spec took ATTEMPT_TIMEOUT); [|done]. destruct ok; [|done].
    exfalso. by apply Hno.
Qed.

Lemma worker_keepalive_works fuel env deadline now i connected t ended t' :
  worker_keepalive fuel env deadline now i connected t = Some (ended, t') ->
  exists came, works false env deadline now i connected came /\ tallied t came t'.
Proof.
  revert now i connected t. induction fuel as [|fuel IH]; intros now i connected t; simpl;
    destruct (Z.ltb_spec now deadline) as [Hn|Hn]; simpl; try done.
  1, 3: intros [= <- <-]; exists []; split; [by constructor|auto].
  destruct connected.
  - destruct (at_send env i) as [took [reusable|e]] eqn:E; intros (came & Hw & Ht)%IH; eexists; split.
    + by eapply works_answered.
    + auto.
    + by eapply works_failed.
    + auto.
  - destruct (at_connect env i) as [took [|]] eqn:E; intros (came & Hw & Ht)%IH; eexists; split.
    + by eapply works_connected.
    + done.
    + by eapply works_not_connected.
    + auto.
Qed.

(** A worker that ends has counted what came of its attempts. *)
Lemma worker_works s fuel env now ended t :
  worker s fuel env now = Some (ended, t) ->
  exists came, works (sc_expect_refusal s || sc_reconnect s) env (now + sc_duration s) now 0 false came /\
    t = (wrap64 <$> answers came, Z.of_nat (failures came)).
Proof.
  unfold worker. destruct (_ || _).
  - intros (came & Hw & Ht)%(worker_once_works _ _ _ _ _ _ _ _ false). by exists came.
  - intros (came & Hw & Ht)%worker_keepalive_works. by exists came.
Qed.

(** What the workers of a run come to: one that panicked is one failure. *)
Definition all_answers (came : list (option (list (option Z)))) : Z :=
  sum_list ((fun c => match c with Some c => Z.of_nat (length (answers c)) | None => 0 end) <$> came).
Definition all_failures (came : list (option (list (option Z)))) : Z :=
  sum_list ((fun c => match c with Some c => Z.of_nat (failures c) | None => 1 end) <$> came).

Definition tally_of (c : option (list (option Z))) : option Tally :=
  match c with Some c => Some (map wrap64 (answers c), Z.of_nat (failures c)) | None => None end.

Lemma gathered came :
  let workers := map tally_of came in
  Z.of_nat (length (gather_workers workers).1) = all_answers came /\ (gather_workers workers).2 = all_failures came.
Proof.
  cbv zeta. induction came as [|c came IH] using rev_ind; [done|].
  unfold gather_workers, all_answers, all_failures in *. rewrite map_app, !fmap_app, foldl_app, !sum_list_app.
  cbn [map fmap list_fmap foldl]. destruct IH as [IH1 IH2]. destruct (foldl _ _ _) as [ls errs]. cbn in IH1, IH2.
  destruct c as [c|]; cbn; rewrite length_app, ?length_map; cbn; lia.
Qed.

Lemma measured_counts label mode latencies errors elapsed o :
  measure label mode latencies errors elapsed = Some o ->
  oc_label o = label /\ oc_requests o = Z.of_nat (length latencies) /\ oc_errors o = errors /\
  oc_cpu_us_per_request o = None.
Proof.
  unfold measure. rewrite !bind_Some. intros (p50 & _ & H). rewrite bind_Some in H. destruct H as (p90 & _ & H).
  rewrite bind_Some in H. destruct H as (p99 & _ & H). rewrite bind_Some in H. destruct H as (mx & _ & [= <-]).
  cbn. by rewrite length_sort_by.
Qed.

(** ** Outcomes kept are read back *)

Section RoundTrip.
Context (to_json : Outcome -> str) (from_json : str -> result Outcome str).
(** serde_json reads back what it writes on one line, for outcomes it can
    write: those whose numbers are finite. *)
Context (writable : Outcome -> Prop).
Hypothesis json_line : forall o, writable o -> line_ok (to_json o) /\ trim (to_json o) <> [].
Hypothesis json_read : forall o, writable o -> from_json (to_json o) = Ok o.

Lemma outcomes_kept os :
  Forall writable os -> read_all from_json (foldl (fun text o => append_to to_json o text) [] os) = Ok os.
Proof using json_line json_read.
  intros Hw. assert (Ht : forall text, foldl (fun text o => append_to to_json o text) text os =
    text ++ concat ((fun l => l ++ [line_feed]) <$> (to_json <$> os))).
  { clear. induction os as [|o os IH]; intros text; simpl; [by rewrite app_nil_r|].
    rewrite IH. unfold append_to. by rewrite <-!app_assoc. }
  rewrite Ht. cbn [app]. unfold read_all. rewrite lines_written.
  - clear Ht. induction Hw as [|o os Ho Hw IH]; [done|]. cbn [fmap list_fmap keep].
    destruct (json_line o Ho) as [_ Hne]. rewrite bool_decide_false by done. cbn [negb read_lines].
    rewrite json_read by done. simpl. by rewrite IH.
  - apply Forall_fmap. eapply Forall_impl; [exact Hw|]. intros o Ho. by apply json_line.
Qed.
End RoundTrip.
