(* ===== verification/LoadtestMain.v ===== *)
(** * The load test as a program: [hack/loadtest/src/main.rs]

    The three commands of the tool around [Loadtest]: its arguments with
    their defaults, what [run] does before and after its workers
    ([client.rs]), the backend of [upstream.rs], the TLS of [tls.rs], the
    rows and tables it prints ([Display] of [outcome.rs] and [compare.rs]),
    the files it keeps and the status it exits with. clap and hyper, and what
    is on the network, are the environment. *)

From S2P Require Import Prelude Str Text Float64 SpecF64 Loadtest.
From Stdlib Require Import Ascii.

(** ** Printing numbers *)

(** How many characters a text has: its bytes that do not continue one. *)
Definition chars (s : str) : nat := length (keep (fun c => negb (continues c)) s).

Definition pad_right (width : nat) (s : str) : str := s ++ replicate (width - chars s) space.
Definition pad_left (width : nat) (s : str) : str := replicate (width - chars s) space ++ s.

(** A magnitude with so many decimals, to the nearest, the even one of two
    equally near. *)
Definition fixed_digits (decimals : nat) (m : positive) (e : Z) : str :=
  let scaled := Zpos m * 10 ^ Z.of_nat decimals in
  let n := if 0 <=? e then scaled * 2 ^ e else round_half_even scaled (2 ^ (- e)) in
  let unit := 10 ^ Z.of_nat decimals in
  let fraction := digits_of 400 (n mod unit) [] in
  digits_of 400 (n / unit) [] ++
  match decimals with
  | O => []
  | _ => lit "." ++ replicate (decimals - length fraction) "0"%char ++ fraction
  end.

(** [{:.d}], and with a sign ([{:+.d}]). *)
Definition fixed_f64 (plus : bool) (decimals : nat) (x : f64) : str :=
  let sign (negative : bool) := if negative then lit "-" else if plus then lit "+" else [] in
  match x with
  | S754_nan => lit "NaN"
  | S754_infinity s => sign s ++ lit "inf"
  | S754_zero s => sign s ++ lit "0" ++ match decimals with O => [] | _ => lit "." ++ replicate decimals "0"%char end
  | S754_finite s m e => sign s ++ fixed_digits decimals m e
  end.

(** [{}]: as many decimals as it takes to read the number back, or zeros in
    place of digits it does not take. *)
Definition rounded_at (places : Z) (m : positive) (e : Z) : str :=
  if 0 <=? places then fixed_digits (Z.to_nat places) m e
  else
    let unit := 10 ^ (- places) in
    let n := if 0 <=? e then round_half_even (Zpos m * 2 ^ e) unit else round_half_even (Zpos m) (2 ^ (- e) * unit) in
    digits_of 400 (n * unit) [].

Definition reads_back (m : positive) (e : Z) (text : str) : bool :=
  match f64_parse text with Some (S754_finite false m' e') => Pos.eqb m m' && (e =? e') | _ => false end.

Fixpoint shortest (fuel : nat) (places : Z) (m : positive) (e : Z) : str :=
  let text := rounded_at places m e in
  match fuel with
  | O => text
  | S fuel => if reads_back m e text then text else shortest fuel (places + 1) m e
  end.

Definition display_f64 (x : f64) : str :=
  match x with
  | S754_finite s m e => (if s then lit "-" else []) ++ shortest 1400 (-310) m e
  | S754_zero s => if s then lit "-0" else lit "0"
  | x => fixed_f64 false 0 x
  end.

(** ** The row of an outcome *)

Definition MICROS : str := lit "µs".

Definition outcome_row (o : Outcome) : str :=
  pad_right 38 (oc_label o) ++ lit " " ++ pad_right 10 (oc_mode o) ++
  lit " reqs=" ++ pad_right 9 (decimal (oc_requests o)) ++
  lit " " ++ pad_left 10 (fixed_f64 false 0 (oc_requests_per_second o)) ++ lit " req/s  p50=" ++
  pad_left 8 (fixed_f64 false 1 (oc_p50_us o)) ++ MICROS ++ lit " p90=" ++
  pad_left 8 (fixed_f64 false 1 (oc_p90_us o)) ++ MICROS ++ lit " p99=" ++
  pad_left 9 (fixed_f64 false 1 (oc_p99_us o)) ++ MICROS ++ lit " max=" ++
  pad_left 9 (fixed_f64 false 1 (oc_max_us o)) ++ MICROS ++ lit " errors=" ++ decimal (oc_errors o) ++
  (if 0 <? oc_bytes_per_request o
   then lit "  " ++ fixed_f64 false 0 (upload_mib_per_second o) ++ lit " MiB/s" else []) ++
  match oc_cpu_us_per_request o with
  | Some cpu => lit "  cpu=" ++ fixed_f64 false 0 cpu ++ MICROS ++ lit "/req"
  | None => []
  end.

(** ** The table of a comparison *)

Definition cpu_column (cpu : option f64) : str :=
  match cpu with Some cpu => fixed_f64 false 1 cpu | None => lit "-" end.

Definition verdict_column (v : Verdict) : str :=
  match v with
  | Within change => lit " " ++ pad_left 8 (fixed_f64 true 1 change) ++ lit "%"
  | Regressed change => lit " " ++ pad_left 8 (fixed_f64 true 1 change) ++ lit "%  REGRESSED"
  | Unusable reason => lit " " ++ pad_left 9 [] ++ lit "  UNUSABLE: " ++ reason
  end.

Definition row_line (r : Row) : str :=
  pad_right 38 (rw_label r) ++ lit " " ++ pad_left 13 (cpu_column (rw_base_cpu_us r)) ++ lit " " ++
  pad_left 13 (cpu_column (rw_head_cpu_us r)) ++ verdict_column (rw_verdict r).

Definition is_within (v : Verdict) : bool := match v with Within _ => true | _ => false end.

Definition last_line (c : Comparison) : str :=
  let failed := Z.of_nat (length (keep (fun r => negb (is_within (rw_verdict r))) (cp_rows c))) in
  let tolerance := display_f64 (cp_tolerance_percent c) in
  if failed =? 0 then
    lit "passed: no scenario beyond the tolerance of " ++ tolerance ++ lit "% on the node's cpu per request"
  else
    lit "FAILED: " ++ decimal failed ++ lit " scenario" ++ (if failed =? 1 then [] else lit "s") ++
    lit " beyond the tolerance of " ++ tolerance ++ lit "% on the node's cpu per request".

Definition heading : str :=
  pad_right 38 (lit "scenario") ++ lit " " ++ pad_left 13 (lit "base µs/req") ++ lit " " ++
  pad_left 13 (lit "head µs/req") ++ lit " " ++ pad_left 9 (lit "change").

Definition table_lines (c : Comparison) : list str := heading :: (row_line <$> cp_rows c) ++ [last_line c].

Definition table (c : Comparison) : str := concat ((fun l => l ++ [line_feed]) <$> table_lines c).

(** ** Being a client: [tls.rs] *)

(** [NoVerify]: every certificate and every signature passes. *)
Definition verify_server_cert (_certificate : str) : result unit str := Ok ().
Definition verify_signature (_message _certificate : str) : result unit str := Ok ().

Record LoadClientConfig := mkLoadClientConfig {
  lc_verify : str -> result unit str;
  lc_client_auth : option str;
  lc_resumes : bool;
}.

(** [client_config]: rustls resumes unless it is told not to. *)
Definition client_config (resume : bool) : LoadClientConfig :=
  let cfg := mkLoadClientConfig verify_server_cert None true in
  if negb resume then mkLoadClientConfig (lc_verify cfg) (lc_client_auth cfg) false else cfg.

(** ** Connections: [connect_h1] and [hold_idle_connections] *)

(** How opening a connection goes: TCP, the server's name, TLS, HTTP. *)
Record Opening := mkOpening {
  og_tcp : result unit str;
  og_server_name : result unit str;
  og_tls : LoadClientConfig -> result unit str;
  og_http : result unit str;
}.

Definition connect_h1 (connector : option LoadClientConfig) (o : Opening) : result unit str :=
  let? _ := og_tcp o in
  match connector with
  | Some c => let? _ := og_server_name o in let? _ := og_tls o c in og_http o
  | None => og_http o
  end.

(** How the request of a connection goes, for [send_one]. *)
Notation Answering := (result (Z * option str) str * bool)%type.

(** The [i]th idle connection and those after it; [held] are open. *)
Fixpoint hold_idle (n : nat) (connector : option LoadClientConfig) (opening : nat -> Opening)
    (answering : nat -> Answering) (held : nat) : result nat str :=
  match n with
  | O => Ok held
  | S n =>
      let? _ := map_err (fun e => lit "opening idle connection " ++ decimal (Z.of_nat held + 1) ++ lit ": " ++ e)
                  (connect_h1 connector (opening held)) in
      let (answer, body_read) := answering held in
      let? _ := map_err (fun e => lit "the request of an idle connection: " ++ e) (send_one answer body_read) in
      hold_idle n connector opening answering (S held)
  end.

(** ** The commands *)

(** What the tool is given on its command line, once clap has read it. *)
Inductive ToolArgs :=
| UpstreamArgs (listen : option str) (body_bytes : option Z)
| RunArgs (target : str) (connections : option nat) (duration_secs : option Z) (mode : option str) (no_resume : bool)
    (label : option str) (upload_bytes idle_connections : option nat) (cpu_of : option Z) (json_out : option str)
| CompareArgs (base head : str) (tolerance : option f64).

Inductive Cmd :=
| Upstream (listen : str) (body_bytes : Z)
| Run (target : str) (connections : nat) (duration_secs : Z) (mode : str) (no_resume : bool) (label : str)
    (upload_bytes idle_connections : nat) (cpu_of : option Z) (json_out : option str)
| Compare (base head : str) (tolerance : f64).

Definition cmd_of (a : ToolArgs) : Cmd :=
  match a with
  | UpstreamArgs listen body_bytes => Upstream (default (lit "127.0.0.1:9000") listen) (default 64 body_bytes)
  | RunArgs target connections duration_secs mode no_resume label upload_bytes idle_connections cpu_of json_out =>
      Run target (default 64%nat connections) (default 8 duration_secs) (default (lit "keepalive") mode) no_resume
        (default [] label) (default 0%nat upload_bytes) (default 0%nat idle_connections) cpu_of json_out
  | CompareArgs base head tolerance => Compare base head (default (f64_of_int 10) tolerance)
  end.

(** What the commands meet. *)
Record ToolEnv := mkToolEnv {
  te_uri : str -> result Uri str;
  te_opening : nat -> Opening;
  te_answering : nat -> Answering;
  (** The [i]th worker's attempts, unless its task panics. *)
  te_worker : nat -> option Attempts;
  (** How many attempts a worker is followed for. *)
  te_fuel : nat;
  (** The clock when the workers start, and the seconds until they are done. *)
  te_started : Z;
  te_elapsed : f64;
  (** The CPU time of a process, before the workers ([false]) and after. *)
  te_cpu_time : Z -> bool -> result Z str;
  te_bind : result unit str;
  te_accept_error : option str;
  te_open : str -> result unit str;
  te_to_json : Outcome -> str;
  te_from_json : str -> result Outcome str;
}.

(** [None] where a worker's fuel runs out. *)
Fixpoint run_workers (env : ToolEnv) (s : Scenario) (n i : nat) : option (list (option Tally)) :=
  match n with
  | O => Some []
  | S n =>
      w ← match te_worker env i with
          | None => Some None
          | Some attempts => (fun r => Some r.2) <$> worker s (te_fuel env) attempts (te_started env)
          end;
      ws ← run_workers env s n (S i);
      Some (w :: ws)
  end.

(** [run]: [None] where it does not return, or panics. *)
Definition run (env : ToolEnv) (s : Scenario) : option (result Outcome str) :=
  let connector := if tg_tls (sc_target s) then Some (client_config (sc_resume s)) else None in
  match hold_idle (sc_idle_connections s) connector (te_opening env) (te_answering env) 0 with
  | Err e => Some (Err e)
  | Ok _ =>
      let cpu_time (after : bool) :=
        match sc_cpu_of s with
        | Some pid => let? t := te_cpu_time env pid after in Ok (Some t)
        | None => Ok None
        end in
      match cpu_time false with
      | Err e => Some (Err e)
      | Ok before =>
          workers ← run_workers env s (sc_connections s) 0;
          o ← run_outcome s workers (te_elapsed env) None;
          Some match before, cpu_time true with
               | Some before, Ok (Some after) => Ok (charge_cpu (Z.max 0 (after - before)) o)
               | Some _, Err e => Err e
               | _, _ => Ok o
               end
      end
  end.

(** [vec![byte; n]]. *)
Definition filled (byte : ascii) (n : nat) : str := replicate n byte.

Definition scenario_of (target : Target) (connections : nat) (duration_secs : Z) (mode : str) (no_resume : bool)
    (label : str) (upload_bytes idle_connections : nat) (cpu_of : option Z) : Scenario :=
  mkScenario target connections (from_secs duration_secs) (str_eqb mode (lit "reconnect"))
    (str_eqb mode (lit "refused")) (negb no_resume) label cpu_of (filled "u"%char upload_bytes) idle_connections.

(** [upstream]: what [serve_on] answers a request with, once its body was
    read, or could not be. *)
Definition upstream_answer (body_bytes : nat) (_request_body : result str str) : Z * str :=
  (200, filled "x"%char body_bytes).

(** [upstream::serve]: it returns only when it cannot listen, or accept. *)
Definition upstream_serve (env : ToolEnv) : option (result unit str) :=
  match te_bind env with
  | Err e => Some (Err (lit "bind upstream: " ++ e))
  | Ok _ => (fun e => Err e) <$> te_accept_error env
  end.

(** The files, by path. *)
Notation Files := (gmap str str).

Definition read_file (env : ToolEnv) (path : str) (files : Files) : result (list Outcome) str :=
  match files !! path with
  | None => Err (lit "reading " ++ path)
  | Some text => map_err (fun e => lit "in " ++ path ++ lit ": " ++ e) (read_all (te_from_json env) text)
  end.

Definition append_file (env : ToolEnv) (o : Outcome) (path : str) (files : Files) : result Files str :=
  let? _ := map_err (fun e => lit "opening " ++ path ++ lit ": " ++ e) (te_open env path) in
  Ok (<[path := append_to (te_to_json env) o (default [] (files !! path))]> files).

(** How the tool ends: what it printed, its error, its exit status, and the
    files as they are. *)
Record Ran := mkRan { rn_stdout : str; rn_error : option str; rn_status : Z; rn_files : Files }.

Definition ended_ok (out : str) (files : Files) : Ran := mkRan out None 0 files.
Definition ended_err (out e : str) (files : Files) : Ran := mkRan out (Some e) 1 files.

(** [main]: [None] where it does not end, or panics. *)
Definition loadtest_main (env : ToolEnv) (cmd : Cmd) (files : Files) : option Ran :=
  match cmd with
  | Upstream _ _ =>
      (fun r => match r with Ok _ => ended_ok [] files | Err e => ended_err [] e files end) <$> upstream_serve env
  | Run target connections duration_secs mode no_resume label upload_bytes idle_connections cpu_of json_out =>
      match parse_target (te_uri env target) with
      | Err e => Some (ended_err [] e files)
      | Ok target =>
          outcome ← run env (scenario_of target connections duration_secs mode no_resume label upload_bytes
                               idle_connections cpu_of);
          Some match outcome with
          | Err e => ended_err [] e files
          | Ok o =>
              let out := outcome_row o ++ [line_feed] in
              match json_out with
              | None => ended_ok out files
              | Some path =>
                  match append_file env o path files with
                  | Ok files => ended_ok out files
                  | Err e => ended_err out e files
                  end
              end
          end
      end
  | Compare base head tolerance =>
      Some match read_file env base files, read_file env head files with
      | Err e, _ => ended_err [] e files
      | _, Err e => ended_err [] e files
      | Ok base, Ok head =>
          let comparison := comparison_of base head tolerance in
          let out := table comparison in
          if negb (passed comparison) then mkRan out None 1 files else ended_ok out files
      end
  end.

(** ** From runs to a verdict *)

(** The verdict printed last is the one the tool exits with. *)
Lemma last_line_passed c : starts_with (lit "passed: ") (last_line c) = passed c.
Proof.
  unfold last_line, passed, is_within.
  destruct (length (keep _ (cp_rows c))) eqn:E; simpl.
  - symmetry. apply forallb_forall. intros r Hr. apply length_zero_iff_nil in E.
    destruct (rw_verdict r) eqn:Ev; [done| |]; exfalso;
      (assert (r ∈ keep (fun r => negb match rw_verdict r with Within _ => true | _ => false end) (cp_rows c)) as Hin
         by (apply elem_of_keep; split; [by apply list_elem_of_In|by rewrite Ev]); rewrite E in Hin; set_solver).
  - symmetry. apply not_true_is_false. intros Hf. rewrite forallb_forall in Hf.
    rewrite keep_none in E; [done|]. intros r Hr. rewrite Hf; [done|by apply list_elem_of_In].
Qed.

Lemma table_ends c : exists before, table c = before ++ last_line c ++ [line_feed].
Proof.
  unfold table, table_lines. rewrite app_comm_cons, fmap_app, concat_app. eexists. f_equal. apply app_nil_r.
Qed.

(** Runs of the tool, each of which must succeed. *)
Fixpoint session (steps : list (ToolEnv * Cmd)) (files : Files) : option Files :=
  match steps with
  | [] => Some files
  | (env, cmd) :: steps =>
      ran ← loadtest_main env cmd files;
      if rn_status ran =? 0 then session steps (rn_files ran) else None
  end.

Section Gate.
(** serde_json, as in [Loadtest]: it reads back what it writes on one line. *)
Context (to_json : Outcome -> str) (from_json : str -> result Outcome str) (writable : Outcome -> Prop).
Hypothesis json_line : forall o, writable o -> line_ok (to_json o) /\ trim (to_json o) <> [].
Hypothesis json_read : forall o, writable o -> from_json (to_json o) = Ok o.

(** A run that measured [o] and kept it in [path]. *)
Definition ran_into (path : str) (step : ToolEnv * Cmd) (o : Outcome) : Prop :=
  let env := step.1 in
  exists url connections duration_secs mode no_resume label upload_bytes idle_connections cpu_of target,
    step.2 = Run url connections duration_secs mode no_resume label upload_bytes idle_connections cpu_of (Some path) /\
    parse_target (te_uri env url) = Ok target /\
    run env (scenario_of target connections duration_secs mode no_resume label upload_bytes idle_connections cpu_of)
      = Some (Ok o) /\
    te_open env path = Ok () /\ te_to_json env = to_json.

Definition kept_in (text : str) (os : list Outcome) : str := foldl (fun text o => append_to to_json o text) text os.

Lemma session_keeps path steps os files rest :
  Forall2 (ran_into path) steps os ->
  session (steps ++ rest) files =
    session rest (if bool_decide (os = []) then files else <[path := kept_in (default [] (files !! path)) os]> files).
Proof.
  intros H. revert files. induction H as [|[env cmd] o steps os Ho _ IH]; intros files; [done|].
  destruct Ho as (url & cs & ds & mode & nr & label & ub & ic & cpu & target & Hc & Hp & Hr & Hop & Hj).
  simpl in Hc, Hp, Hr, Hop, Hj. subst cmd. cbn [app session]. unfold loadtest_main at 1. rewrite Hp. cbn [mbind option_bind].
  rewrite Hr. unfold append_file. rewrite Hop. cbn [map_err]. cbn. rewrite IH, Hj.
  destruct os as [|o' os]; [by rewrite lookup_insert_eq || done|]. cbn [bool_decide].
  by rewrite lookup_insert_eq, insert_insert_eq.
Qed.

(** What a run measured, by what came of its workers' attempts: so many
    answers and so many failures, and the CPU time the process spent in
    between, in microseconds for each answer. *)
Definition measures (step : ToolEnv * Cmd) (o : Outcome) : Prop :=
  let env := step.1 in
  match step.2 with
  | Run _ connections duration_secs mode _ label _ _ cpu_of _ =>
      exists came, length came = connections /\
        (forall i c, came !! i = Some c ->
           match te_worker env i, c with
           | Some attempts, Some c =>
               works (str_eqb mode (lit "refused") || str_eqb mode (lit "reconnect")) attempts
                 (te_started env + from_secs duration_secs) (te_started env) 0 false c
           | None, None => True
           | _, _ => False
           end) /\
        oc_label o = label /\ oc_requests o = all_answers came /\ oc_errors o = all_failures came /\
        match cpu_of with
        | None => oc_cpu_us_per_request o = None
        | Some pid => exists before after, te_cpu_time env pid false = Ok before /\ te_cpu_time env pid true = Ok after /\
            oc_cpu_us_per_request o = Some (if oc_requests o =? 0 then S754_zero false
              else fdiv (fmul (as_secs_f64 (Z.max 0 (after - before))) (f64_of_int 1000000)) (f64_of_int (oc_requests o)))
        end
  | _ => False
  end.

Lemma run_workers_works env s n i ws :
  run_workers env s n i = Some ws ->
  exists came, length came = n /\ ws = map tally_of came /\
    forall j c, came !! j = Some c ->
      match te_worker env (i + j)%nat, c with
      | Some attempts, Some c =>
          works (sc_expect_refusal s || sc_reconnect s) attempts (te_started env + sc_duration s) (te_started env) 0 false c
      | None, None => True
      | _, _ => False
      end.
Proof.
  revert i ws. induction n as [|n IH]; intros i ws; cbn [run_workers].
  { intros [= <-]. exists []. by split_and!. }
  intros (w & Hw & (rest & Hr & [= <-])%bind_Some)%bind_Some.
  destruct (IH _ _ Hr) as (came & Hl & -> & Hc).
  assert (exists c, w = tally_of c /\ match te_worker env i, c with
    | Some attempts, Some c =>
        works (sc_expect_refusal s || sc_reconnect s) attempts (te_started env + sc_duration s) (te_started env) 0 false c
    | None, None => True
    | _, _ => False
    end) as (c & -> & Hc0).
  { destruct (te_worker env i) as [attempts|]; [|injection Hw as <-; by exists None].
    apply fmap_Some in Hw as ([ended t] & Hw & ->). apply worker_works in Hw as (c & Hc0 & ->). by exists (Some c). }
  exists (c :: came). cbn. rewrite Hl. split_and!; [done..|]. intros [|j] c' Hj; cbn in Hj.
  - injection Hj as <-. by rewrite Nat.add_0_r.
  - rewrite <-Nat.add_succ_comm. by apply Hc.
Qed.

Lemma ran_measures path step o : ran_into path step o -> measures step o.
Proof using Type.
  intros (url & cs & ds & mode & nr & label & ub & ic & cpu & target & Hc & _ & Hr & _). destruct step as [env cmd].
  cbn in Hc, Hr. subst cmd. unfold measures. cbn [fst snd]. revert Hr. unfold run. set (s := scenario_of _ _ _ _ _ _ _ _ _).
  destruct (hold_idle _ _ _ _ _) as [held|e]; [|done]. cbn [sc_cpu_of s scenario_of].
  assert (Ho : forall ws o', run_workers env s cs 0 = Some ws -> run_outcome s ws (te_elapsed env) None = Some o' ->
    exists came, length came = cs /\ (forall i c, came !! i = Some c ->
      match te_worker env i, c with
      | Some attempts, Some c =>
          works (str_eqb mode (lit "refused") || str_eqb mode (lit "reconnect")) attempts
            (te_started env + from_secs ds) (te_started env) 0 false c
      | None, None => True
      | _, _ => False
      end) /\ oc_label o' = label /\ oc_requests o' = all_answers came /\ oc_errors o' = all_failures came /\
      oc_cpu_us_per_request o' = None).
  { intros ws o' Hw Ho. destruct (run_workers_works _ _ _ _ _ Hw) as (came & Hl & -> & Hcame).
    revert Ho. unfold run_outcome. pose proof (gathered came) as [G1 G2].
    destruct (gather_workers _) as [latencies errors]. cbn [fst snd] in G1, G2. intros (m & Hm & [= <-])%bind_Some.
    apply measured_counts in Hm as (M1 & M2 & M3 & M4). exists came. cbn. rewrite M1, M2, M3, M4, G1, G2.
    split_and!; try done. }
  destruct cpu as [pid|].
  - destruct (te_cpu_time env pid false) as [before|e] eqn:Eb; cbn; [|done].
    intros (ws & Hw & (o' & Ho' & Hr)%bind_Some)%bind_Some.
    destruct (te_cpu_time env pid true) as [after|e] eqn:Ea; cbn in Hr; [|done]. injection Hr as <-.
    destruct (Ho _ _ Hw Ho') as (came & Hl & Hcame & H1 & H2 & H3 & H4). exists came.
    split_and!; [done..|]. exists before, after. by split_and!.
  - cbn. intros (ws & Hw & (o' & Ho' & [= <-])%bind_Some)%bind_Some. by apply Ho with ws.
Qed.

(** C15: The gate, end to end. Runs of the tool keep what they measured in two
    files, which is what came of their workers' attempts, every failure and
    every worker that panicked counted ([measures]). The comparison of the
    files then passes, exiting with 0 and saying so on its last line, exactly
    when every scenario of the head was measured on both sides, each round
    without an error and with its CPU time, and its least CPU per request did
    not grow, in percent of the base's and to a tenth, by more than the
    tolerance; otherwise it exits with 1. *)
Theorem loadtest_gate env base head tolerance base_runs head_runs bs hs files :
  Forall2 (ran_into base) base_runs bs -> Forall2 (ran_into head) head_runs hs -> bs <> [] -> hs <> [] ->
  base <> head -> files !! base = None -> files !! head = None ->
  Forall writable bs -> Forall writable hs -> errors_typed bs -> errors_typed hs -> te_from_json env = from_json ->
  exists files' ran before verdict,
    Forall2 measures base_runs bs /\ Forall2 measures head_runs hs /\
    session (base_runs ++ head_runs) files = Some files' /\
    loadtest_main env (Compare base head tolerance) files' = Some ran /\
    rn_error ran = None /\ rn_files ran = files' /\ (rn_status ran = 0 \/ rn_status ran = 1) /\
    (rn_status ran = 0 <->
       forall label, label ∈ oc_label <$> hs ->
         exists b h, measured label bs b /\ measured label hs h /\
           let percent := fdiv (fround (fmul (fdiv (fsub h b) b) (f64_of_int 1000))) (f64_of_int 10) in
           fgt percent tolerance = false) /\
    rn_stdout ran = before ++ verdict ++ [line_feed] /\
    starts_with (lit "passed: ") verdict = bool_decide (rn_status ran = 0).
Proof using json_line json_read.
  intros Hbr Hhr Hb0 Hh0 Hne Hfb Hfh Hbw Hhw Hbt Hht Hj.
  pose proof (session_keeps _ _ _ files head_runs Hbr) as E1. rewrite bool_decide_false, Hfb in E1 by done. simpl in E1.
  pose proof (session_keeps _ _ _ (<[base := kept_in [] bs]> files) [] Hhr) as E2.
  rewrite app_nil_r, bool_decide_false, lookup_insert_ne, Hfh in E2 by done. simpl in E2.
  set (files' := <[head := kept_in [] hs]> (<[base := kept_in [] bs]> files)) in *.
  assert (read_file env base files' = Ok bs /\ read_file env head files' = Ok hs) as [Rb Rh].
  { unfold read_file, files'. rewrite lookup_insert_eq, lookup_insert_ne, lookup_insert_eq, Hj by done.
    unfold kept_in. rewrite !(outcomes_kept to_json from_json writable) by done. done. }
  assert (Forall2 measures base_runs bs /\ Forall2 measures head_runs hs) as [Mb Mh]
    by (split; (eapply Forall2_impl; [eassumption|]; by eapply ran_measures)).
  destruct (table_ends (comparison_of bs hs tolerance)) as [before Ht].
  pose proof (gate_exact bs hs tolerance Hbt Hht) as Hg.
  pose proof (last_line_passed (comparison_of bs hs tolerance)) as Hl.
  exists files'. cbn [loadtest_main]. rewrite Rb, Rh, E1, E2. cbv zeta.
  destruct (passed (comparison_of bs hs tolerance)) eqn:Ep; cbn [negb]; eexists _, before, _;
    (split; [exact Mb|]; split; [exact Mh|]; split; [done|]; split; [done|]; cbn [ended_ok rn_error rn_files rn_status rn_stdout];
     split; [done|]; split; [done|]; split; [auto|]; split; [|split; [exact Ht|done]]).
  - split; [intros _; by apply Hg|done].
  - split; [done|]. intros H. apply Hg in H. congruence.
Qed.
End Gate.

(** ** Runs end *)

(** Where nothing is done in no time, the workers of a scenario are done once
    its time is up, and a panicked one counts as one error. *)
Lemma run_workers_end env s n i :
  (forall j attempts, te_worker env j = Some attempts -> takes_time attempts) -> 0 <= sc_duration s ->
  te_fuel env = Z.to_nat (sc_duration s) ->
  exists ws, run_workers env s n i = Some ws /\ length ws = n.
Proof.
  intros Ht Hd Hf. revert i. induction n as [|n IH]; intros i; [by exists []|]. cbn [run_workers].
  destruct (IH (S i)) as (ws & -> & Hlen).
  destruct (te_worker env i) as [attempts|] eqn:E.
  - destruct (workers_end s attempts (te_started env) (Ht _ _ E) Hd) as (ended & t & Hw & _).
    rewrite Hf, Hw. simpl. eexists. split; [done|]. simpl. by rewrite Hlen.
  - eexists. split; [done|]. simpl. by rewrite Hlen.
Qed.

(** Idle connections are held before anything is measured: all of them, or
    the run fails. *)
Lemma hold_idle_all n connector opening answering held :
  match hold_idle n connector opening answering held with
  | Ok held' => held' = (held + n)%nat /\ forall i, (held <= i < held + n)%nat ->
      connect_h1 connector (opening i) = Ok () /\ exists reusable, send_one (answering i).1 (answering i).2 = Ok reusable
  | Err _ => exists i, (held <= i < held + n)%nat /\
      (is_err (connect_h1 connector (opening i)) = true \/ is_err (send_one (answering i).1 (answering i).2) = true)
  end.
Proof.
  revert held. induction n as [|n IH]; intros held; cbn [hold_idle]; [split; [lia|intros; lia]|].
  destruct (connect_h1 connector (opening held)) as [[]|e] eqn:Ec; simpl.
  2: { exists held. rewrite Ec. split; [lia|by left]. }
  destruct (answering held) as [answer body_read] eqn:Ea. destruct (send_one answer body_read) as [reusable|e] eqn:Es; simpl.
  2: { exists held. rewrite Ea. simpl. rewrite Es. split; [lia|by right]. }
  specialize (IH (S held)). destruct (hold_idle n connector opening answering (S held)) as [held'|e].
  - destruct IH as [-> IH]. split; [lia|]. intros i Hi. destruct (decide (i = held)) as [->|].
    + rewrite Ea, Ec. simpl. rewrite Es. eauto.
    + apply IH. lia.
  - destruct IH as (i & Hi & IH). exists i. split; [lia|done].
Qed.

(** ** A change that passes *)

(** One connection, whose one request takes the whole second, and a node that
    spends so much CPU time on it. *)
Definition gate_env (cpu : Z) : ToolEnv :=
  mkToolEnv (fun _ => Ok (mkUri (Some (lit "https")) (Some (lit "gfe")) None None))
    (fun _ => mkOpening (Ok ()) (Ok ()) (fun _ => Ok ()) (Ok ())) (fun _ => (Ok (200, None), true))
    (fun _ => Some (mkAttempts (fun _ => (from_millis 1, true)) (fun _ => (from_secs 1, Ok true)) (fun _ => (1, true))))
    3 0 (f64_of_int 1) (fun _ after => Ok (if after then cpu else 0)) (Ok ()) None (fun _ => Ok ())
    (fun o => match oc_cpu_us_per_request o with Some cpu => decimal (ftrunc cpu) | None => [] end) (fun _ => Err []).

Definition gate_args (path : str) : ToolArgs :=
  RunArgs (lit "https://gfe/") (Some 1%nat) (Some 1) None false (Some (lit "row")) None (Some 2%nat) (Some 7) (Some path).

Definition gate_outcome (cpu : Z) : Outcome :=
  mkOutcome (lit "row") (lit "keepalive") 1 (f64_of_int 1) (f64_of_int 1000000) (f64_of_int 1000000)
    (f64_of_int 1000000) (f64_of_int 1000000) 0
    (Some (fdiv (fmul (as_secs_f64 cpu) (f64_of_int 1000000)) (f64_of_int 1))) 0.

Definition gate_reads (line : str) : result Outcome str :=
  if str_eqb line (lit "200") then Ok (gate_outcome (from_millis 2 / 10))
  else if str_eqb line (lit "210") then Ok (gate_outcome (from_millis 21 / 100)) else Err line.

Definition gate_writable (o : Outcome) : Prop :=
  o = gate_outcome (from_millis 2 / 10) \/ o = gate_outcome (from_millis 21 / 100).

Lemma gate_line o : gate_writable o -> line_ok (te_to_json (gate_env 0) o) /\ trim (te_to_json (gate_env 0) o) <> [].
Proof.
  assert (line_ok (lit "200") /\ trim (lit "200") <> []) as H1.
  { split; [|discriminate]. split; [|reflexivity]. apply (bool_decide_eq_true_1 (line_feed ∉ _)). reflexivity. }
  assert (line_ok (lit "210") /\ trim (lit "210") <> []) as H2.
  { split; [|discriminate]. split; [|reflexivity]. apply (bool_decide_eq_true_1 (line_feed ∉ _)). reflexivity. }
  intros [-> | ->]; [exact H1|exact H2].
Qed.

Lemma gate_read o : gate_writable o -> gate_reads (te_to_json (gate_env 0) o) = Ok o.
Proof. intros [-> | ->]; vm_compute; reflexivity. Qed.

Lemma gate_ran path cpu :
  cpu = from_millis 2 / 10 \/ cpu = from_millis 21 / 100 ->
  ran_into (te_to_json (gate_env 0)) path (gate_env cpu, cmd_of (gate_args path)) (gate_outcome cpu).
Proof.
  intros Hcpu. unfold ran_into. do 10 eexists. split; [reflexivity|]. split; [reflexivity|].
  split; [|split; reflexivity]. destruct Hcpu as [-> | ->]; vm_compute; reflexivity.
Qed.

Definition gate_tool : ToolEnv :=
  mkToolEnv (te_uri (gate_env 0)) (te_opening (gate_env 0)) (te_answering (gate_env 0))
    (te_worker (gate_env 0)) 0 0 (f64_of_int 0) (te_cpu_time (gate_env 0)) (Ok ()) None (fun _ => Ok ())
    (te_to_json (gate_env 0)) gate_reads.

Definition gate_base : list (ToolEnv * Cmd) := [(gate_env (from_millis 2 / 10), cmd_of (gate_args (lit "base")))].
Definition gate_head : list (ToolEnv * Cmd) := [(gate_env (from_millis 21 / 100), cmd_of (gate_args (lit "head")))].

(** The status of the comparison of both, with a tolerance. *)
Definition gate_status (tolerance : Z) : option Z :=
  files ← session (gate_base ++ gate_head) ∅;
  rn_status <$> loadtest_main gate_tool (Compare (lit "base") (lit "head") (f64_of_int tolerance)) files.

(** A growth of five percent passes with a tolerance of ten and fails with
    one of four. *)
Lemma loadtest_gate_witness :
  gate_status 10 = Some 0 /\ gate_status 4 = Some 1 /\
  exists b h, measured (lit "row") [gate_outcome (from_millis 2 / 10)] b /\
    measured (lit "row") [gate_outcome (from_millis 21 / 100)] h.
Proof.
  assert (gate_status 10 = Some 0) as E10 by (vm_compute; reflexivity).
  split; [exact E10|]. split; [vm_compute; reflexivity|].
  destruct (loadtest_gate (te_to_json (gate_env 0)) gate_reads gate_writable gate_line gate_read
    gate_tool (lit "base") (lit "head") (f64_of_int 10) gate_base gate_head
    [gate_outcome (from_millis 2 / 10)] [gate_outcome (from_millis 21 / 100)] ∅)
    as (files & ran & _ & _ & _ & _ & Hs & Hm & _ & _ & _ & Hst & _).
  - repeat constructor. apply gate_ran. by left.
  - repeat constructor. apply gate_ran. by right.
  - discriminate.
  - discriminate.
  - discriminate.
  - reflexivity.
  - reflexivity.
  - repeat constructor.
  - constructor; [by right|constructor].
  - split; [repeat constructor; discriminate|discriminate].
  - split; [repeat constructor; discriminate|discriminate].
  - reflexivity.
  - unfold gate_status in E10. rewrite Hs in E10. cbn [mbind option_bind] in E10. rewrite Hm in E10.
    injection E10 as E. destruct (proj1 Hst E (lit "row")) as (b & h & Hb & Hh & _); [left|].
    exists b, h. split; [exact Hb|exact Hh].
Defined.
