(* ===== verification/Conformance.v ===== *)
(** * The model on the inputs of the program's own tests

    What the definitions compute is compared with what the tests beside the
    sources ([..._test.rs]) expect of the code, for the components whose
    results are texts, bytes or figures. Each example names its test file. *)

From S2P Require Import Prelude Str Net IpText Text Float64 SpecF64 Http Config Routing Request Forward Client.
From S2P Require Import Kernel Metrics Upgrade Loadtest LoadtestMain.
From Stdlib Require Import Ascii.

(** ** Routing: [routing/matcher_test.rs], [routing/table_test.rs] *)

Example hosts_match :
  (fun p => host_matches (lit p.1) (lit p.2)) <$>
    [("*.example.org", "api.example.org"); ("*", "anything.org"); ("API.example.org", "api.example.org");
     ("*.example.org", "example.org"); ("*.example.org", "a.b.example.org"); ("*.example.org", "fooexample.org");
     ("api.example.org", "other.example.org")]%string
  = [true; true; true; false; false; false; false].
Proof. vm_compute. reflexivity. Qed.

Definition a_route (id host path : string) : Route :=
  mkRoute (lit id) (lit "https") (lit host) (lit path) (Config.Forward (lit "pool")).

Definition routed (rs : list Route) (listener host path : string) : option str :=
  cr_id <$> match_request (compile (mkDynamicConfig [] [] rs [])) (lit listener) (lit host) (lit path).

Example requests_routed :
  let pages := [a_route "root" "a.example.org" "/"; a_route "api" "a.example.org" "/api/"] in
  [routed [a_route "wild" "*.example.org" "/"; a_route "exact" "api.example.org" "/"] "https" "api.example.org" "/x";
   routed pages "https" "a.example.org" "/api/users"; routed pages "https" "a.example.org" "/other";
   routed pages "https" "other.org" "/"; routed pages "http" "a.example.org" "/";
   routed [a_route "r" "A.example.org" "/"] "https" "a.EXAMPLE.org" "/"]%string
  = [Some (lit "exact"); Some (lit "api"); Some (lit "root"); None; None; Some (lit "r")].
Proof. vm_compute. reflexivity. Qed.

(** ** Requests: [handler/retry_test.rs], [handler/request_test.rs], [handler/respond_test.rs] *)

Section Handler.
#[local] Existing Instance assoc_http.

Definition head_of (pairs : list (string * string)) : HeaderMap := (fun p => (lit p.1, lit p.2)) <$> pairs.

Definition sent_on (pairs : list (string * string)) : list (str * str) :=
  rq_headers (to_backend (mkParts assoc_http GET (Http.mkUri None (lit "/") (Some (lit "/"))) HTTP_11 (head_of pairs))
    (mkForwarding (V4 [192; 0; 2; 7]) (lit "https") (lit "a.example.org") (lit "abc123"))).

Definition header_of (name : string) (headers : list (str * str)) : list str :=
  snd <$> keep (fun nv => str_eqb nv.1 (lit name)) headers.

Example retries :
  (may_retry ∘ mkAttempted true 1 false <$>
     [ConnectRefused; Reset; ConnectTimeout; ConnectError; TlsFailure; OtherFailure; ConnectionLimit; Timeout],
   may_retry (mkAttempted true 2 false ConnectRefused), may_retry (mkAttempted false 1 false ConnectRefused),
   may_retry (mkAttempted true 1 true Reset))
  = ([true; true; true; true; true; true; false; false], false, false, false).
Proof. vm_compute. reflexivity. Qed.

Example forwarding_written :
  let named := sent_on [("connection", "host, x-forwarded-for, x-request-id"); ("host", "a.example.org");
                        ("x-forwarded-for", "198.51.100.1"); ("x-request-id", "from-client")]%string in
  (header_of "x-forwarded-for" (sent_on [("x-forwarded-for", "198.51.100.1")]%string),
   header_of "x-forwarded-proto" (sent_on []), header_of "x-request-id" (sent_on [("x-request-id", "from-client")]%string),
   header_of "te" (sent_on [("te", "trailers")]%string), header_of "x-forwarded-for" named, header_of "x-request-id" named,
   header_of "connection" named)
  = ([lit "198.51.100.1, 192.0.2.7"], [lit "https"], [lit "from-client"], [lit "trailers"], [lit "192.0.2.7"], [lit "abc123"], []).
Proof. vm_compute. reflexivity. Qed.

Example refusals_say_why :
  (fun r => (refusal_status r, refusal_reason r)) <$>
    [HostConflict; MisdirectedRequest; NoRoute; PoolFull; PoolRateLimited; NoHealthyUpstream; RequestBodyTimeout;
     UpstreamFailed ConnectRefused; UpstreamFailed OtherFailure; UpstreamFailed Timeout]
  = [(400, lit "host_conflict"); (421, lit "misdirected_request"); (404, lit "no_route"); (503, lit "upstream_pool_full");
     (429, lit "upstream_pool_rate_limited"); (503, lit "no_healthy_upstream"); (408, lit "request_body_timeout");
     (502, lit "upstream_connect_refused"); (502, lit "upstream_error"); (504, lit "upstream_timeout")].
Proof. vm_compute. reflexivity. Qed.
End Handler.

(** ** The kernel's records: [lib/kernel/src/wire_test.rs], [linux_test.rs] *)

Definition v4 (a b c d port : Z) : SocketAddr := mkSocketAddr (V4 [a; b; c; d]) port.

(** The layout of a closed connection's record, as the tests write it. *)
Definition closed_record (local peer : SocketAddr) (accepted state : Z) : list Z :=
  encode_key local peer ++ [accepted; state; 0; 0] ++ to_le 4 1500 ++ to_le 4 900 ++ to_le 4 3 ++ to_le 4 120 ++
  to_le 8 10000000000 ++ to_le 8 12500000000 ++ to_le 8 4096 ++ to_le 8 512.

Example records_read :
  let local := v4 10 0 0 1 443 in
  let peer := v4 192 0 2 7 50000 in
  let record := closed_record local peer 1 TCP_LAST_ACK in
  encode_key local peer = encode_key (mkSocketAddr (V6 [0; 0; 0; 0; 0; 0xffff; 0x0a00; 1]) 443)
                            (mkSocketAddr (V6 [0; 0; 0; 0; 0; 0xffff; 0xc000; 0x0207]) 50000) /\
  (fun c => (cn_local c, cn_peer c, cn_rtt c, cn_lifetime c)) <$> decode_closed record = Some (local, peer, from_micros 1500, from_millis 2500) /\
  decode_closed (take 87 record) = None.
Proof. vm_compute. done. Qed.

Example capabilities_read :
  missing_capabilities ∘ lit <$> ["CapEff:	0000008000001400"; "CapEff:	000001ffffffffff"; "CapEff:	0000000000000400"]%string
  = [None; None; Some (lit "the process lacks CAP_BPF and CAP_NET_ADMIN")].
Proof. vm_compute. reflexivity. Qed.

Example cgroup_read :
  own_cgroup ∘ lit <$> ["0::/system.slice/app.service"; "12:pids:/user.slice"]%string
  = [Some (lit "/sys/fs/cgroup/system.slice/app.service"); None].
Proof. vm_compute. reflexivity. Qed.

(** ** The process: [metrics/process_test.rs], [hack/loadtest/src/cpu_test.rs] *)

Definition a_stat : str :=
  lit "4242 (gfe node) S 1 4242 4242 0 -1 4194560 100 0 0 0 1250 250 0 0 20 0 9 0 12345 1000000 5120 18446744073709551615".

Example process_read :
  cpu_seconds a_stat = f64_parse (lit "15.0") /\ cpu_seconds (lit "garbage") = None /\
  resident_bytes (lit "Name:	gfe-node
VmPeak:	  300000 kB
VmRSS:	   20480 kB
") = Some 20971520 /\
  (fun s => parse_ps_cputime (lit s)) <$> [" 0:01.23"; "12:34"; "1:02:03"; "x:y"]%string
  = [ParsedTime (from_millis 1230); ParsedTime (from_secs 754); ParsedTime (from_secs 3723); ParsedNone].
Proof. vm_compute. done. Qed.

(** ** The load test: [outcome_test.rs], [compare_test.rs] *)

Definition double (s : string) : f64 := default S754_nan (f64_parse (lit s)).

Example outcome_measured :
  (fun o => (oc_requests o, [oc_requests_per_second o; oc_p50_us o; oc_p90_us o; oc_p99_us o; oc_max_us o])) <$>
    measure (lit "x") (lit "keepalive") ((fun n => Z.of_nat n * 1000) <$> rev (seq 1 100)) 0 (double "2.0")
  = Some (100, double <$> ["50"; "51"; "90"; "99"; "100"]%string).
Proof. vm_compute. reflexivity. Qed.

Definition an_outcome (label : string) (requests : Z) (rate latency : string) (cpu : option f64) : Outcome :=
  mkOutcome (lit label) (lit "keepalive") requests (double rate) (double latency) (double latency) (double latency)
    (double latency) 0 cpu 0.

Example outcome_printed :
  outcome_row (an_outcome "http · fixed" 2 "2" "2.5" None) =
  lit "http · fixed                           keepalive  reqs=2                  2 req/s  p50=     2.5µs p90=     2.5µs p99=      2.5µs max=      2.5µs errors=0".
Proof. vm_compute. reflexivity. Qed.

(** Ten requests of a scenario at so much of the node's time each. *)
Definition charged (label cpu : string) : list Outcome := [an_outcome label 10 "10" "1" (Some (double cpu))].

Example comparison_printed :
  table (comparison_of (charged "fixed" "33.0" ++ charged "proxy" "70") (charged "fixed" "33.5" ++ charged "proxy" "84")
    (double "10")) =
  lit "scenario                                 base µs/req   head µs/req    change
fixed                                           33.0          33.5     +1.5%
proxy                                           70.0          84.0    +20.0%  REGRESSED
FAILED: 1 scenario beyond the tolerance of 10% on the node's cpu per request
".
Proof. vm_compute. reflexivity. Qed.

Definition change_text (v : Verdict) : bool * str :=
  match v with
  | Within c => (true, display_f64 c)
  | Regressed c => (false, display_f64 c)
  | Unusable reason => (false, reason)
  end.

Example best_runs_compared :
  change_text ∘ rw_verdict <$> cp_rows (comparison_of (charged "a" "130" ++ charged "a" "100")
    (charged "a" "105" ++ charged "a" "140") (double "10")) = [(true, lit "5")] /\
  change_text ∘ rw_verdict <$> cp_rows (comparison_of (charged "a" "100") (charged "a" "112") (double "10"))
  = [(false, lit "12")].
Proof. vm_compute. done. Qed.
